(* ===== verification/_CoqProject ===== *)
-Q . S2P
Prelude.v
Types.v
EdgeLists.v
SuccessorPool.v
Nodes.v
Kahn.v
Graph.v
Pipeline.v
Construction.v
Dsl.v
Run.v
Dispatch.v
Scheduler.v
SchedulerStep.v
SchedulerInv.v
SchedulerKeep.v
Termination.v
RunCorrect.v
Inline.v
Invoke.v
RunScope.v
OnDemand.v
Deferred.v
DeferredInv.v
DeferredCorrect.v
DeferredSim.v
Timer.v
Bytes.v
Payload.v
SubGraph.v
Wire.v
WireCodec.v
WireCorrect.v
Frames.v
Loopback.v
Pipe.v
Stream.v
Registry.v
SharedMemory.v
ShmInv.v
ShmCorrect.v
ShmHolds.v
Strategies.v
StrategyKept.v
Channel.v
ChannelCorrect.v
WorkerRun.v
WorkerBuild.v
WorkerCorrect.v
WorkerOutcome.v
JobContext.v
WorkerHost.v
WorkerHostCorrect.v
Executors.v
ExecutorCorrect.v
ExecutorLaws.v
Desktop.v
FreeRtos.v
Scoped.v
Threaded.v
ThreadedCorrect.v
ThreadedExamples.v
Tick.v
Connection.v
ConnectionCorrect.v
EndToEnd.v
