(* ===== verification/Prelude.v ===== *)
(** * Sub0Pipeline: a verification development

    Sub0Pipeline (src/README.md) is a C++ library that runs a graph of jobs once
    each, in dependency order, on an executor the caller provides, and can send a
    sub-graph to a worker process over a framed connection. This library models
    its own logic and proves what makes it correct. Everything that decides an
    outcome is executable; threads are interleaved, one atomic access, critical
    section or call out of the library per step.

    ** The parts, their files, and how they interact

    The graph (src/src/sub0pipeline.cpp, include/sub0pipeline/pipeline.hpp,
    job.hpp, job_group.hpp, dsl.hpp).
    - Types: error codes and statuses. EdgeLists: adjacency lists as multisets.
    - SuccessorPool: [PoolSuccessors], the packed successor list in 16-bit
      arithmetic. Nodes: [Node], [Impl], addNode and addEdge. Kahn: the validation
      loop. Graph: validate, the root cache, and [impl_ok], what every building
      operation keeps.
    - Pipeline: pipeline objects and their [Impl]s on a heap, [Job] handles through
      the anchor, every builder method and query. Construction: programs of public
      build calls ([BuildCall], [call], [built]). Dsl: specs, groups, tuples, chains.

    The run (Pipeline::run, runImpl, DispatchContext).
    - Run: the entry checks and initialisation ([begin_run]). Dispatch: the
      scheduler; a thread is a stack of [op]s, [run_op] is one step, and the
      environment's [choice] says what a body returns and whether the executor
      takes a task. Inline: the schedule of an inline run.
    - Scheduler states the invariant [inv] with a ghost list of the edges still
      owed; SchedulerStep gives the steps as rules; SchedulerInv and SchedulerKeep
      show that each rule keeps it; Termination measures it; RunCorrect has the
      theorems over [reachable] states.
    - Invoke: how a body is called, with its timeout, and the retained threads.
      Timer: the deadline service. RunScope: a run on a thread of its own, with a
      stop. OnDemand: trigger, joinOrphans and runUntil.
    - Deferred: jobs finished by a Completion: the handles' ownership and the slot
      protocol of body, Completion, stop and deadline. DeferredInv holds its
      invariant, DeferredCorrect the theorems, and DeferredSim shows that the slot
      is one of the environments the scheduler's model allows.
    - Threaded: a threaded run as a whole, from its root loop to its return. The
      scheduler's threads become the bodies of an executor's jobs, deferred
      continuations are dispatched by the threads that deliver them, and the run
      thread waits; the executor is any instance of [IExecutor]. ThreadedCorrect has
      the theorems, ThreadedExamples runs them on the pool and has the run that
      returns too early.

    Executors (include/sub0pipeline/executor, platform).
    - ExecutorLaws: IExecutor's contract as an abstract specification, and the
      classes [IExecutor] (an implementation refines it) and [LiveExecutor] (it
      makes progress). Executors and ExecutorCorrect: the thread pool with its
      priority queue; Desktop: a thread per job; FreeRtos: the embedded one; Scoped:
      a scope over any instance, itself an instance.
    - Tick: the tick loop.

    Remote execution (src/src/remote, include/sub0pipeline/remote).
    - Bytes, Payload, SubGraph: the data. Wire: every frame's encoder and decoder;
      WireCodec is the interface of what a writer appends and a reader takes off,
      from which WireCorrect proves the round trips. Frames: reassembly. Registry:
      job kinds and their fingerprint.
    - Loopback: ITransport's contract as the class [ITransport], and the in-memory
      transport; Pipe: the transport over two byte streams, with the mutex its
      sends hold while they write, its destructor and its buffer pool.
    - Stream and SharedMemory (ShmInv, ShmCorrect, ShmHolds): the payload
      strategies. Strategies is the interface they implement ([IPayloadStrategy])
      and what a connection relies on ([StrategyContract]); StrategyKept has the
      instances. JobContext: what a remote job's body sees of its inputs, outputs
      and buffers, over any strategy.
    - Channel and ChannelCorrect: the coordinator's end of a connection. WorkerHost
      and WorkerHostCorrect: the worker's end. WorkerRun builds one request's
      pipeline by [BuildCall]s (WorkerBuild says which graph that is), runs it by
      Dispatch's steps and makes the reply; WorkerCorrect relates it to a
      reference that looks at predecessors only; WorkerOutcome says what its results
      are when none is a failure.
    - Connection: a channel, a worker host whose runners give WorkerRun's results,
      and the frames between them. ConnectionCorrect traces every frame, request and
      reply to where it came from; EndToEnd composes that with the round trips.

    ** What the theorems show

    - Graphs: whatever is built is well formed, validation decides acyclicity,
      the cached roots are the roots, an edge is recorded and counted or refused.
    - Runs: each job starts at most once, after its predecessors; a quiet run whose
      on-demand jobs have no predecessors has finished every other job and started none
      of those; the result names the failure recorded first; reports are exact; statuses follow the state machine; runs never block and always
      terminate, inline ones within a stated fuel.
    - Calls: a body's outcome is accounted for on each timeout path; no retained
      thread is lost; an on-demand job has one invocation at a time, if no retained
      body of it is unreaped; a deadline expires once, in time, and, as long as no
      allocation fails while it is armed, never after cancelAndWait returned.
    - Deferred jobs: one finish, by whichever party came first; never stuck; the
      orphan ledger is exact; the slot is quiet before the next run.
    - Executors: each implements the contract (a body once, its completion once and
      after it, waitAll only when every accepted job is complete) and never loses a
      wake-up; the pool takes a job of the greatest priority. On any of them a
      threaded run returns, and without deferred jobs only when nothing of it is left.
    - The tick loop: a job is called exactly in the passes where it is due, on a clock
      that has run for every job's interval when the loop starts.
    - Remote: frames and payloads round-trip, decoders accept only well-formed
      values, the shared region's blocks partition it and reads stay inside it;
      the channel completes each submission once, connects only on agreement, and is
      destroyed only when nothing of it is in flight;
      the worker admits within its limit, answers once, lets stops reach their
      requests, and its reply is the same under every schedule that no stop and no
      refused submission disturbs. Transports deliver a beginning of the frames sent,
      in order, and call onClosed last; a pipe's destructor returns unless a send is
      blocked in a write. Each strategy resolves every reference it gave to the payload
      it was given for, whatever else both ends do. End to end: the two ends agree on
      what the handshake settled, and a remote job of at least one job that succeeds was
      run by the worker on the inputs submitted, with every job of it done, and has that
      run's outputs.

    ** Bounds and fuel

    - 8-, 16-, 32- and 64-bit fields are Z with the wrap written ([u8] ... [u64]);
      theorems carry the bound that the code enforces (65536 jobs, 32767
      successors per job, 2^32 arena entries) or prove that the sum cannot wrap.
    - Kahn.run takes one unit of fuel per job and visits each at most once.
      [runInline] takes [measure], which every step decreases. [verdict] takes one
      more than the number of jobs, the longest chain of predecessors. Frame
      reassembly takes the buffer's length, and each frame consumes a header.
    - An executor's 32-bit count of jobs in flight is bounded by what the system can
      hold at a time ([max_threads], [room], [packets], all below 2^32); the pool
      tests its own count. The tick loop needs one unit of fuel per pass.

    ** Not modelled

    The shared regions, file handles and signals of the operating system (their
    answers are the environment's), the Windows branches, the sequential executor (a
    run uses its own inline loop instead), configuration macros, observers' own code,
    examples, tests and benchmarks. Memory ordering is sequentially consistent. A
    job's body, an observer, a store, a factory and the clock are parameters or
    choices of the environment. *)

From stdpp Require Export base numbers list gmap strings relations.
From Stdlib Require Export ZArith Lia.
From Stdlib Require Export Strings.Byte.

Declare Scope s0p_scope.
Delimit Scope s0p_scope with s0p.
#[global] Open Scope Z_scope.

(** ** Fallible results *)

(** [std::expected<A, E>]: a value or an error. *)
Inductive expected (A E : Type) : Type :=
  | Expected (a : A)
  | Unexpected (e : E).
Arguments Expected {A E} a.
Arguments Unexpected {A E} e.

#[export] Instance expected_eq_dec {A E} `{EqDecision A} `{EqDecision E} :
  EqDecision (expected A E).
Proof. solve_decision. Defined.

Definition has_value {A E} (r : expected A E) : bool :=
  match r with Expected _ => true | Unexpected _ => false end.

(** ** Unsigned machine words

    A w-bit unsigned integer is a [Z] in [0, 2^w); every conversion that C++
    performs implicitly or with [static_cast] is written as one of these. *)
Definition u8 (z : Z) : Z := z mod 2 ^ 8.
Definition u16 (z : Z) : Z := z mod 2 ^ 16.
Definition u32 (z : Z) : Z := z mod 2 ^ 32.
Definition u64 (z : Z) : Z := z mod 2 ^ 64.

Definition is_u8 (z : Z) : Prop := 0 <= z < 2 ^ 8.
Definition is_u16 (z : Z) : Prop := 0 <= z < 2 ^ 16.
Definition is_u32 (z : Z) : Prop := 0 <= z < 2 ^ 32.
Definition is_u64 (z : Z) : Prop := 0 <= z < 2 ^ 64.

Lemma u8_small z : is_u8 z -> u8 z = z.
Proof. apply Z.mod_small. Qed.
Lemma u16_small z : is_u16 z -> u16 z = z.
Proof. apply Z.mod_small. Qed.
Lemma u32_small z : is_u32 z -> u32 z = z.
Proof. apply Z.mod_small. Qed.
Lemma u64_small z : is_u64 z -> u64 z = z.
Proof. apply Z.mod_small. Qed.

Lemma u8_range z : is_u8 (u8 z).
Proof. apply Z.mod_pos_bound. lia. Qed.
Lemma u16_range z : is_u16 (u16 z).
Proof. apply Z.mod_pos_bound. lia. Qed.
Lemma u32_range z : is_u32 (u32 z).
Proof. apply Z.mod_pos_bound. lia. Qed.
Lemma u64_range z : is_u64 (u64 z).
Proof. apply Z.mod_pos_bound. lia. Qed.

Create HintDb words.
Create Rewrite HintDb words_rw.
#[export] Hint Resolve u8_range u16_range u32_range u64_range : words.
#[export] Hint Rewrite u8_small u16_small u32_small u64_small using (unfold is_u8, is_u16, is_u32, is_u64 in *; lia) : words_rw.

(** [words] normalises conversions of values already in range. *)
Ltac words := autorewrite with words_rw in *.

(** A disjoint bitwise or is a sum. *)
Lemma lor_shift_add (lo hi n : Z) :
  0 <= n -> 0 <= lo < 2 ^ n -> Z.lor lo (Z.shiftl hi n) = lo + hi * 2 ^ n.
Proof.
  intros Hn Hlo. rewrite <- Z.shiftl_mul_pow2 by done.
  rewrite Z.add_nocarry_lxor, Z.lxor_lor; [done| |].
  all: apply Z.bits_inj'; intros i Hi; rewrite Z.land_spec, Z.bits_0.
  all: destruct (decide (i < n)) as [Hlt|Hge].
  all: try (rewrite Z.shiftl_spec_low by lia; by rewrite andb_false_r).
  all: rewrite <- (Z.mod_small lo (2 ^ n)) by done.
  all: by rewrite Z.mod_pow2_bits_high by lia.
Qed.

(** ** Arrays of integers

    A C array or [std::vector] of integers is a list of [Z]; an index is a [Z],
    as in the code, and is used only where the code keeps it in range. *)
Definition rd (l : list Z) (i : Z) : Z := default 0 (l !! Z.to_nat i).
Definition wr (l : list Z) (i v : Z) : list Z := <[Z.to_nat i := v]> l.
Definition zlen {A} (l : list A) : Z := Z.of_nat (length l).
(** [vector::resize] for growth: new elements are zero. *)
Definition resize (l : list Z) (n : Z) : list Z :=
  l ++ replicate (Z.to_nat n - length l) 0.

(** [for (i = 0; i < n; ++i) dst[to + i] = src[from + i]] *)
Fixpoint copy_range (n : nat) (dst : list Z) (to : Z) (src : list Z) (from : Z) : list Z :=
  match n with
  | O => dst
  | S k => wr (copy_range k dst to src from) (to + Z.of_nat k) (rd src (from + Z.of_nat k))
  end.

(** [slice l from n]: the [n] elements from index [from]. *)
Definition slice {A} (l : list A) (from n : nat) : list A := take n (drop from l).

Lemma zlen_nonneg {A} (l : list A) : 0 <= zlen l.
Proof. unfold zlen. lia. Qed.
Lemma zlen_app {A} (l k : list A) : zlen (l ++ k) = zlen l + zlen k.
Proof. unfold zlen. rewrite length_app. lia. Qed.

Lemma length_wr l i v : length (wr l i v) = length l.
Proof. apply length_insert. Qed.

Lemma rd_wr l i j v :
  0 <= i < zlen l -> 0 <= j -> rd (wr l i v) j = if decide (i = j) then v else rd l j.
Proof.
  unfold rd, wr, zlen. intros Hi Hj. case_decide as H.
  - subst. by rewrite list_lookup_insert_eq by lia.
  - by rewrite list_lookup_insert_ne by lia.
Qed.

Lemma length_resize l n : zlen l <= n -> zlen (resize l n) = n.
Proof. unfold resize, zlen. rewrite length_app, length_replicate. lia. Qed.

Lemma resize_lookup l n i : (i < length l)%nat -> resize l n !! i = l !! i.
Proof. intros Hi. unfold resize. by rewrite lookup_app_l. Qed.

Lemma length_copy_range n dst to src from :
  length (copy_range n dst to src from) = length dst.
Proof. induction n as [|n IH]; simpl; [done|]. by rewrite length_wr. Qed.

Lemma copy_range_lookup n dst to src from (j : nat) :
  0 <= to -> to + Z.of_nat n <= zlen dst ->
  copy_range n dst to src from !! j =
    if decide (to <= Z.of_nat j < to + Z.of_nat n)
    then Some (rd src (from + (Z.of_nat j - to))) else dst !! j.
Proof.
  intros Hto. induction n as [|n IH]; intros Hlen; simpl.
  - case_decide; [lia|done].
  - unfold wr. destruct (decide (Z.of_nat j = to + Z.of_nat n)) as [He|Hne].
    + assert (j = Z.to_nat (to + Z.of_nat n)) as -> by lia.
      rewrite list_lookup_insert_eq by (rewrite length_copy_range; unfold zlen in *; lia).
      rewrite decide_True by lia. do 2 f_equal. lia.
    + rewrite list_lookup_insert_ne by lia. rewrite IH by lia.
      repeat case_decide; try lia; done.
Qed.

Lemma slice_lookup {A} (l : list A) from n i :
  slice l from n !! i = if decide (i < n)%nat then l !! (from + i)%nat else None.
Proof.
  unfold slice. case_decide.
  - by rewrite lookup_take, lookup_drop, decide_True by lia.
  - by rewrite lookup_take, decide_False by lia.
Qed.

(** Two lists agree on a slice when they agree at every index of it. *)
Lemma slice_ext {A} (l k : list A) from n :
  (forall i, (from <= i < from + n)%nat -> l !! i = k !! i) -> slice l from n = slice k from n.
Proof.
  intros H. apply list_eq. intros i. rewrite !slice_lookup.
  case_decide; [|done]. apply H. lia.
Qed.

Lemma length_slice {A} (l : list A) from n :
  (from + n <= length l)%nat -> length (slice l from n) = n.
Proof. unfold slice. rewrite length_take, length_drop. lia. Qed.

(** Extending a slice by the element written right after it. *)
Lemma slice_snoc (l : list Z) from n v :
  (from + n < length l)%nat ->
  slice (<[(from + n)%nat := v]> l) from (S n) = slice l from n ++ [v].
Proof.
  intros Hlen. apply list_eq. intros i. rewrite slice_lookup.
  destruct (decide (i < n)%nat).
  - rewrite decide_True, list_lookup_insert_ne by lia.
    rewrite lookup_app_l by (rewrite length_slice; lia).
    by rewrite slice_lookup, decide_True.
  - rewrite lookup_app_r by (rewrite length_slice; lia). rewrite length_slice by lia.
    destruct (decide (i = n)) as [->|].
    + by rewrite decide_True, list_lookup_insert_eq, Nat.sub_diag by lia.
    + rewrite decide_False by lia. symmetry. apply lookup_ge_None_2. simpl. lia.
Qed.

(** Replacing one summand. *)
Lemma sum_list_insert {A} (f : A -> nat) (l : list A) k x y :
  l !! k = Some x -> (sum_list_with f (<[k := y]> l) + f x = sum_list_with f l + f y)%nat.
Proof.
  revert k. induction l as [|z l IH]; intros [|k] H; try done; simplify_eq/=; [lia|].
  specialize (IH k H). lia.
Qed.

(** The element at an index, with what is around it. *)
Lemma lookup_insert_split {A} (l : list A) k x :
  l !! k = Some x -> exists l1 l2, l = l1 ++ x :: l2 /\ forall y, <[k := y]> l = l1 ++ y :: l2.
Proof.
  intros H. exists (take k l), (drop (S k) l). split; [by rewrite take_drop_middle|].
  intros y. apply lookup_lt_Some in H. by rewrite insert_take_drop.
Qed.

(** An element's share of a sum. *)
Lemma sum_lookup_le {A} (f : A -> nat) l k x : l !! k = Some x -> (f x <= sum_list_with f l)%nat.
Proof. revert k. induction l as [|y l IH]; intros [|k] H; simplify_eq/=; [lia|]. specialize (IH k H). lia. Qed.
Lemma sum_lookup_two {A} (f : A -> nat) l j k x y : j <> k -> l !! j = Some x -> l !! k = Some y ->
  (f x + f y <= sum_list_with f l)%nat.
Proof.
  revert j k. induction l as [|z l IH]; intros [|j] [|k] Hne Hj Hk; simplify_eq/=; try lia.
  - pose proof (sum_lookup_le f _ _ _ Hk). lia.
  - pose proof (sum_lookup_le f _ _ _ Hj). lia.
  - specialize (IH j k ltac:(lia) Hj Hk). lia.
Qed.

(** A relation that decreases a measure on the states of an invariant is
    well-founded there. *)
Lemma sn_by_measure {A} (R : relation A) (P : A -> Prop) (m : A -> nat) :
  (forall x y, P x -> R x y -> P y /\ (m y < m x)%nat) -> forall x, P x -> sn R x.
Proof.
  intros Hstep x. remember (m x) as k eqn:Hk. revert x Hk.
  induction (lt_wf k) as [k _ IH]. intros x -> Hx. constructor. intros y Hy.
  destruct (Hstep x y Hx Hy) as [Hp Hlt]. by eapply IH.
Qed.

(** A computation that succeeds gives the value read from it. *)
Definition succeeds {A} (x : option A) : bool := match x with Some _ => true | None => false end.
Lemma default_reached {A} (d : A) (x : option A) : succeeds x = true -> x = Some (default d x).
Proof. by destruct x. Qed.
