(* ===== verification/Types.v ===== *)
(** Error codes, job statuses and the result type shared by every component
    (include/sub0pipeline/error.hpp, job.hpp). *)
From S2P Require Import Prelude.

(** Error codes returned by Pipeline operations, in declaration order. *)
Inductive PipelineError : Set :=
  | kTimeout | kJobFailed | kCyclicDependency | kUnknownJob | kNotArmed
  | kNotOnDemand | kCancelledError | kBusy | kDeadlineUnavailable | kUnavailable.

(** Runtime status of a single job node, in declaration order. *)
Inductive JobStatus : Set :=
  | kPending | kReady | kRunning | kDone | kFailed | kSkipped
  | kTimedOut | kCancelled | kAwaiting.

#[export] Instance PipelineError_eq_dec : EqDecision PipelineError.
Proof. solve_decision. Defined.
#[export] Instance JobStatus_eq_dec : EqDecision JobStatus.
Proof. solve_decision. Defined.

(** The underlying [uint8_t] values. *)
Definition PipelineError_u8 (e : PipelineError) : Z :=
  match e with
  | kTimeout => 0 | kJobFailed => 1 | kCyclicDependency => 2 | kUnknownJob => 3
  | kNotArmed => 4 | kNotOnDemand => 5 | kCancelledError => 6 | kBusy => 7
  | kDeadlineUnavailable => 8 | kUnavailable => 9
  end.

Definition JobStatus_u8 (s : JobStatus) : Z :=
  match s with
  | kPending => 0 | kReady => 1 | kRunning => 2 | kDone => 3 | kFailed => 4
  | kSkipped => 5 | kTimedOut => 6 | kCancelled => 7 | kAwaiting => 8
  end.

#[export] Instance PipelineError_u8_inj : Inj (=) (=) PipelineError_u8.
Proof. by intros [] []. Qed.
#[export] Instance JobStatus_u8_inj : Inj (=) (=) JobStatus_u8.
Proof. by intros [] []. Qed.

Lemma PipelineError_u8_range e : is_u8 (PipelineError_u8 e).
Proof. unfold is_u8. destruct e; simpl; lia. Qed.
Lemma JobStatus_u8_range s : is_u8 (JobStatus_u8 s).
Proof. unfold is_u8. destruct s; simpl; lia. Qed.
#[export] Hint Resolve PipelineError_u8_range JobStatus_u8_range : words.

(** [std::expected<void, PipelineError>]. *)
Abbreviation Outcome := (expected unit PipelineError).
Definition success : Outcome := Expected tt.

(** [statusOf]: the status a finished job gets from its result. *)
Definition statusOf (result : Outcome) : JobStatus :=
  match result with
  | Expected _ => kDone
  | Unexpected kCancelledError => kCancelled
  | Unexpected kTimeout => kTimedOut
  | Unexpected _ => kFailed
  end.

(** Statuses a job keeps until the next run. *)
Definition terminal (s : JobStatus) : bool :=
  match s with
  | kDone | kFailed | kSkipped | kTimedOut | kCancelled => true
  | kPending | kReady | kRunning | kAwaiting => false
  end.

Lemma statusOf_terminal r : terminal (statusOf r) = true.
Proof. destruct r as [|[]]; done. Qed.
Lemma statusOf_done r : statusOf r = kDone <-> has_value r = true.
Proof. destruct r as [|[]]; simpl; naive_solver. Qed.
Lemma statusOf_not_skipped r : statusOf r <> kSkipped.
Proof. by destruct r as [|[]]. Qed.

(** How an operation on a state [S] ends: it returns, [SUB0PIPELINE_THROW]
    reports a hard error (the state reached so far is kept), or it leaves the
    language's defined behaviour, such as an element access out of range. *)
Inductive exec (S A : Type) : Type :=
  | Return (s : S) (a : A)
  | Throw (s : S) (msg : string)
  | Undefined.
Arguments Return {S A} s a.
Arguments Throw {S A} s msg.
Arguments Undefined {S A}.

Definition returned {S A} (x : exec S A) : bool :=
  match x with Return _ _ => true | _ => false end.

(** Sequencing: a throw or undefined behaviour ends the whole operation. *)
Definition exec_bind {S A B} (x : exec S A) (f : S -> A -> exec S B) : exec S B :=
  match x with
  | Return s a => f s a
  | Throw s msg => Throw s msg
  | Undefined => Undefined
  end.
Notation "'let!' ( s , a ) := x 'in' k" := (exec_bind x (fun s a => k))
  (at level 10, s name, a name, x at level 100, k at level 200).

(** [for (auto x : l) f(x)] *)
Fixpoint exec_for {S X} (l : list X) (f : S -> X -> exec S unit) (s : S) : exec S unit :=
  match l with
  | [] => Return s tt
  | x :: l => exec_bind (f s x) (fun s _ => exec_for l f s)
  end.

(** A property every state of a loop keeps. *)
Lemma exec_for_inv {S X} (P : S -> Prop) (l : list X) f s :
  (forall x s, x ∈ l -> P s ->
    match f s x with Return s' _ | Throw s' _ => P s' | Undefined => True end) ->
  P s -> match exec_for l f s with Return s' _ | Throw s' _ => P s' | Undefined => True end.
Proof.
  revert s. induction l as [|x l IH]; intros s Hf Hs; [done|]. simpl.
  pose proof (Hf x s ltac:(set_solver) Hs) as H.
  destruct (f s x) as [s' a|s' m|]; simpl; [|done|done].
  apply IH; [|done]. intros y t Hy. apply Hf. set_solver.
Qed.

(** [P] holds of the state an operation leaves, however it ends. *)
Definition leaves {S A} (P : S -> Prop) (x : exec S A) : Prop :=
  match x with Return s _ | Throw s _ => P s | Undefined => True end.

Lemma leaves_bind {S A B} (P : S -> Prop) (x : exec S A) (f : S -> A -> exec S B) :
  leaves P x -> (forall s a, P s -> leaves P (f s a)) -> leaves P (exec_bind x f).
Proof. destruct x; simpl; auto. Qed.

Lemma leaves_for {S X} (P : S -> Prop) (l : list X) f s :
  (forall x s, x ∈ l -> P s -> leaves P (f s x)) -> P s -> leaves P (exec_for l f s).
Proof. apply exec_for_inv. Qed.
