(* ===== verification/EdgeLists.v ===== *)
(** Adjacency lists with multiplicity: the edges a run or a traversal still has
    to process, counted per target. Shared by validation (Graph) and by the
    scheduler (Dispatch). *)
From S2P Require Import Prelude.

(** Occurrences of a node in a list of targets. *)
Fixpoint occ1 (i : nat) (l : list nat) : nat :=
  match l with [] => 0 | x :: l => (if decide (x = i) then 1 else 0) + occ1 i l end%nat.

(** Edges into [i] among the adjacency lists [ll]. *)
Fixpoint occ (i : nat) (ll : list (list nat)) : nat :=
  match ll with [] => 0 | l :: ll => occ1 i l + occ i ll end%nat.

(** All edges. *)
Fixpoint total_edges (ll : list (list nat)) : nat :=
  match ll with [] => 0 | l :: ll => length l + total_edges ll end%nat.

Local Open Scope nat_scope.

Lemma occ1_app i l k : occ1 i (l ++ k) = occ1 i l + occ1 i k.
Proof. induction l; simpl; lia. Qed.

Lemma occ1_le_length i l : occ1 i l <= length l.
Proof. induction l; simpl; [lia|]. case_decide; lia. Qed.

Lemma occ1_elem i l : 0 < occ1 i l <-> i ∈ l.
Proof.
  induction l as [|x l IH]; simpl; [set_solver by lia|]. rewrite elem_of_cons, <- IH.
  case_decide; intuition (subst; try lia; try congruence).
Qed.

Lemma occ_app i ll kk : occ i (ll ++ kk) = occ i ll + occ i kk.
Proof. induction ll; simpl; lia. Qed.

Lemma occ_le_total i ll : occ i ll <= total_edges ll.
Proof. induction ll as [|l ll IH]; simpl; [lia|]. pose proof (occ1_le_length i l). lia. Qed.

Lemma occ_lookup_le i ll p l : ll !! p = Some l -> occ1 i l <= occ i ll.
Proof.
  revert p. induction ll as [|k ll IH]; intros [|p] H; simplify_eq/=; [lia|].
  pose proof (IH p H). lia.
Qed.

Lemma occ_pos i ll : 0 < occ i ll <-> exists p l, ll !! p = Some l /\ i ∈ l.
Proof.
  split.
  - induction ll as [|l ll IH]; simpl; [lia|]. intros H.
    destruct (decide (0 < occ1 i l)) as [Hl|Hl].
    + exists 0, l. split; [done|]. by apply occ1_elem.
    + destruct IH as (p & k & ? & ?); [lia|]. by exists (S p), k.
  - intros (p & l & Hp & Hi%occ1_elem). pose proof (occ_lookup_le i _ _ _ Hp). lia.
Qed.

(** Replacing one adjacency list. *)
Lemma occ_insert i ll p l k :
  ll !! p = Some l -> occ i (<[p := k]> ll) + occ1 i l = occ i ll + occ1 i k.
Proof.
  revert p. induction ll as [|h ll IH]; intros [|p] H; simplify_eq/=; [lia|].
  pose proof (IH p H). lia.
Qed.

(** Processing the first edge of list [p]. *)
Lemma occ_pop i ll p x rest :
  ll !! p = Some (x :: rest) ->
  occ i ll = (if decide (x = i) then 1 else 0) + occ i (<[p := rest]> ll).
Proof. intros H. pose proof (occ_insert i _ _ _ rest H). simpl in *. lia. Qed.

Lemma occ_nil_all i ll : (forall p l, ll !! p = Some l -> i ∉ l) -> occ i ll = 0.
Proof.
  intros H. destruct (decide (0 < occ i ll)) as [Hp|]; [|lia].
  apply occ_pos in Hp as (p & l & Hl & Hi). by apply H in Hl.
Qed.

Lemma total_edges_bound (ll : list (list nat)) (m : Z) :
  Forall (fun l => Z.of_nat (length l) <= m)%Z ll ->
  (Z.of_nat (total_edges ll) <= m * zlen ll)%Z.
Proof. unfold zlen. induction 1; simpl; lia. Qed.

(** Appending an edge [p -> x]. *)
Lemma occ_snoc i ll p l x :
  ll !! p = Some l ->
  occ i (alter (fun l => l ++ [x]) p ll) = occ i ll + (if decide (x = i) then 1 else 0).
Proof.
  intros H. replace (alter (fun l => l ++ [x]) p ll) with (<[p := l ++ [x]]> ll).
  - pose proof (occ_insert i _ _ _ (l ++ [x]) H). rewrite occ1_app in *. simpl in *. lia.
  - apply list_eq. intros j. destruct (decide (p = j)) as [<-|].
    + rewrite list_lookup_insert_eq, list_lookup_alter_eq, H by (by apply lookup_lt_Some in H). done.
    + by rewrite list_lookup_insert_ne, list_lookup_alter_ne.
Qed.
