(* ===== verification/SuccessorPool.v ===== *)
(** The 12-byte successor list of a node and the shared arena behind it
    (struct PoolSuccessors in src/sub0pipeline.cpp). *)
From S2P Require Import Prelude Types.

(** ** Layout *)
Definition kInlineCap : Z := 4.
Definition kPoolFlag : Z := 0x8000.
Definition kCountMask : Z := 0x7FFF.

Record PoolSuccessors := {
  size_ : Z;        (* bit 15: pool flag; bits 14..0: entry count *)
  poolIdx_ : Z;     (* low half of the block start, pool mode only *)
  inline_ : list Z; (* uint16_t[4]: entries, or block metadata in pool mode *)
}.

Definition PoolSuccessors_empty : PoolSuccessors :=
  {| size_ := 0; poolIdx_ := 0; inline_ := [0; 0; 0; 0] |}.

#[export] Instance PoolSuccessors_eq_dec : EqDecision PoolSuccessors.
Proof. solve_decision. Defined.

(** ** Operations *)
Module Succ.

Definition count (s : PoolSuccessors) : Z := Z.land (size_ s) kCountMask.
Definition is_empty (s : PoolSuccessors) : bool := count s =? 0.
Definition isPool (s : PoolSuccessors) : bool := negb (Z.land (size_ s) kPoolFlag =? 0).

Definition blockStart (s : PoolSuccessors) : Z :=
  Z.lor (poolIdx_ s) (Z.shiftl (rd (inline_ s) 1) 16).
Definition blockCapacity (s : PoolSuccessors) : Z := rd (inline_ s) 0.

Definition setBlock (s : PoolSuccessors) (start capacity : Z) : PoolSuccessors :=
  {| size_ := size_ s;
     poolIdx_ := u16 (Z.land start 0xFFFF);
     inline_ := wr (wr (inline_ s) 1 (u16 (Z.shiftr start 16))) 0 capacity |}.

Definition set_size (s : PoolSuccessors) (n : Z) : PoolSuccessors :=
  {| size_ := n; poolIdx_ := poolIdx_ s; inline_ := inline_ s |}.

(** The spill: the inline entries become the head of a new block. *)
Definition spill (s : PoolSuccessors) (pool : list Z) : PoolSuccessors * list Z :=
  let n := count s in
  let start := zlen pool in
  let pool := resize pool (start + 2 * kInlineCap) in
  let pool := copy_range (Z.to_nat n) pool start (inline_ s) 0 in
  let s := setBlock s start (u16 (2 * kInlineCap)) in
  (set_size s (u16 (Z.lor kPoolFlag n)), pool).

(** Doubling a full block: in place when it is the arena's last, else moved. *)
Definition grow (s : PoolSuccessors) (pool : list Z) : PoolSuccessors * list Z :=
  let n := count s in
  let start := blockStart s in
  let capacity := blockCapacity s in
  let grown := u16 (if kCountMask / 2 <? capacity then kCountMask else capacity * 2) in
  if start + capacity =? zlen pool
  then (setBlock s start grown, resize pool (start + grown))
  else
    let moved := zlen pool in
    let pool := resize pool (moved + grown) in
    (setBlock s moved grown, copy_range (Z.to_nat n) pool moved pool start).

(** The tail of [push_back], in pool mode. *)
Definition push_pool (s : PoolSuccessors) (v : Z) (pool : list Z)
  : exec (PoolSuccessors * list Z) unit :=
  let n := count s in
  if n =? kCountMask
  then Throw (s, pool) "A job cannot have more than 32767 successors"
  else
    let '(s', pool') := if n =? blockCapacity s then grow s pool else (s, pool) in
    Return (set_size s' (u16 (Z.lor kPoolFlag (n + 1))),
            wr pool' (blockStart s' + n) v) tt.

Definition push_back (s : PoolSuccessors) (v : Z) (pool : list Z)
  : exec (PoolSuccessors * list Z) unit :=
  let n := count s in
  if negb (isPool s) then
    if n <? kInlineCap then
      Return ({| size_ := u16 (n + 1); poolIdx_ := poolIdx_ s;
                 inline_ := wr (inline_ s) n v |}, pool) tt
    else let '(s', pool') := spill s pool in push_pool s' v pool'
  else push_pool s v pool.

(** [range(pool)]: the entries between [begin(pool)] and [end(pool)]. *)
Definition range (s : PoolSuccessors) (pool : list Z) : list Z :=
  if isPool s
  then take (Z.to_nat (count s)) (drop (Z.to_nat (blockStart s)) pool)
  else take (Z.to_nat (count s)) (inline_ s).

End Succ.

(** ** Well-formed lists and arenas *)

(** The capacities doubling reaches: 8, 16, ..., 16384, 32767. *)
Definition cap_ok (c : Z) : Prop :=
  c = 32767 \/ exists k, 3 <= k <= 14 /\ c = 2 ^ k.

(** Arena entries a pool-mode list with block capacity [c] accounts for: its
    block and the ones it abandoned, 8 + 16 + ... + c. *)
Definition charge_of (c : Z) : Z := if c =? 32767 then 65527 else 2 * c - 8.
Definition charge (s : PoolSuccessors) : Z :=
  if Succ.isPool s then charge_of (Succ.blockCapacity s) else 0.

Fixpoint charges (ss : list PoolSuccessors) : Z :=
  match ss with [] => 0 | s :: ss => charge s + charges ss end.

(** The entries [n] and the mode of a list, decoded from [size_]. *)
Definition inline_mode (s : PoolSuccessors) (n : Z) : Prop :=
  0 <= n <= kInlineCap /\ size_ s = n.
Definition pool_mode (s : PoolSuccessors) (pool : list Z) (n : Z) : Prop :=
  size_ s = kPoolFlag + n /\ cap_ok (Succ.blockCapacity s) /\
  Succ.blockCapacity s < 2 * n /\ n <= Succ.blockCapacity s /\
  0 <= Succ.blockStart s /\ Succ.blockStart s + Succ.blockCapacity s <= zlen pool.

Definition list_ok (pool : list Z) (s : PoolSuccessors) : Prop :=
  length (inline_ s) = 4%nat /\ exists n, inline_mode s n \/ pool_mode s pool n.

(** Two blocks do not overlap. *)
Definition disjoint_blocks (s t : PoolSuccessors) : Prop :=
  Succ.isPool s = true -> Succ.isPool t = true ->
  Succ.blockStart s + Succ.blockCapacity s <= Succ.blockStart t \/
  Succ.blockStart t + Succ.blockCapacity t <= Succ.blockStart s.

Record arena_ok (ss : list PoolSuccessors) (pool : list Z) : Prop := {
  arena_lists : Forall (list_ok pool) ss;
  arena_disjoint : forall i j s t, i <> j -> ss !! i = Some s -> ss !! j = Some t ->
    disjoint_blocks s t;
  arena_size : zlen pool <= charges ss;
}.

(** *** Reading [size_] *)

Lemma land_count_mask z : Z.land z kCountMask = z mod 2 ^ 15.
Proof. change kCountMask with (Z.ones 15). by apply Z.land_ones. Qed.

Lemma land_pool_flag (f n : Z) :
  0 <= n < 2 ^ 15 -> f = 0 \/ f = kPoolFlag -> Z.land (f + n) kPoolFlag = f.
Proof.
  intros Hn Hf. assert (Hz : Z.land n kPoolFlag = 0).
  { change kPoolFlag with (2 ^ 15). apply Z.bits_inj'. intros i Hi.
    rewrite Z.land_spec, Z.pow2_bits_eqb, Z.bits_0 by lia.
    destruct (Z.eqb_spec 15 i) as [<-|]; [|by rewrite andb_false_r].
    rewrite <- (Z.mod_small n (2 ^ 15)) by done. by rewrite Z.mod_pow2_bits_high by lia. }
  destruct Hf as [-> | ->]; [done|].
  rewrite Z.add_nocarry_lxor, Z.lxor_lor, Z.land_lor_distr_l, Hz; [done|..].
  all: by rewrite Z.land_comm.
Qed.

Lemma lor_pool_flag n : 0 <= n < 2 ^ 15 -> Z.lor kPoolFlag n = kPoolFlag + n.
Proof.
  intros Hn. rewrite Z.lor_comm. change (Z.lor n (Z.shiftl 1 15) = kPoolFlag + n).
  rewrite lor_shift_add by lia. unfold kPoolFlag. lia.
Qed.

Lemma inline_mode_read s n :
  inline_mode s n -> Succ.count s = n /\ Succ.isPool s = false.
Proof.
  intros [Hn Hs]. unfold kInlineCap, Succ.count, Succ.isPool in *. rewrite Hs, land_count_mask.
  split; [apply Z.mod_small; lia|].
  pose proof (land_pool_flag 0 n) as H. rewrite Z.add_0_l in H. by rewrite H by lia.
Qed.

Lemma cap_ok_bounds c : cap_ok c -> 8 <= c <= 32767.
Proof.
  intros [->|(k & Hk & ->)]; [lia|].
  pose proof (Z.pow_le_mono_r 2 3 k). pose proof (Z.pow_le_mono_r 2 k 14). lia.
Qed.

Lemma pool_mode_read s pool n :
  pool_mode s pool n -> 5 <= n <= kCountMask /\ Succ.count s = n /\ Succ.isPool s = true.
Proof.
  intros (Hs & Hc & Hlo & Hhi & _). apply cap_ok_bounds in Hc.
  unfold kCountMask, Succ.count, Succ.isPool in *. rewrite Hs, land_count_mask.
  split; [lia|split].
  - change kPoolFlag with (1 * 2 ^ 15). rewrite Z.add_comm, Z_mod_plus_full.
    apply Z.mod_small. lia.
  - by rewrite land_pool_flag by (lia || by right).
Qed.

(** *** [setBlock] stores any start below 2^32 *)

Lemma blockStart_setBlock s start c :
  length (inline_ s) = 4%nat -> 0 <= start < 2 ^ 32 ->
  Succ.blockStart (Succ.setBlock s start c) = start.
Proof.
  intros Hl Hs. unfold Succ.blockStart, Succ.setBlock; simpl.
  rewrite !rd_wr by (unfold zlen; rewrite ?length_wr; lia).
  rewrite decide_False, decide_True by lia.
  change 0xFFFF with (Z.ones 16). rewrite Z.land_ones by lia.
  rewrite Z.shiftr_div_pow2 by lia. unfold u16.
  rewrite Z.mod_mod by lia. rewrite lor_shift_add by (try apply Z.mod_pos_bound; lia).
  rewrite (Z.mod_small (start / 2 ^ 16)) by (split; [apply Z.div_pos; lia|
    apply Z.div_lt_upper_bound; lia]).
  pose proof (Z.div_mod start (2 ^ 16)). lia.
Qed.

Lemma blockCapacity_setBlock s start c :
  length (inline_ s) = 4%nat -> Succ.blockCapacity (Succ.setBlock s start c) = c.
Proof.
  intros Hl. unfold Succ.blockCapacity, Succ.setBlock; simpl.
  rewrite rd_wr by (unfold zlen; rewrite ?length_wr; lia). by rewrite decide_True.
Qed.

Lemma length_inline_setBlock s start c :
  length (inline_ (Succ.setBlock s start c)) = length (inline_ s).
Proof. simpl. by rewrite !length_wr. Qed.

(** ** One append *)

(** Pool mode just before an entry is written: a block at least half full. *)
Definition pool_pre (s : PoolSuccessors) (pool : list Z) (n : Z) : Prop :=
  length (inline_ s) = 4%nat /\ size_ s = kPoolFlag + n /\
  cap_ok (Succ.blockCapacity s) /\ Succ.blockCapacity s <= 2 * n /\
  n <= Succ.blockCapacity s /\
  0 <= Succ.blockStart s /\ Succ.blockStart s + Succ.blockCapacity s <= zlen pool.

(** What an operation on the list with block [lo, hi) and charge [c] may do to
    the arena: touch that block, extend the arena, and occupy new entries. *)
Record extends (lo hi c : Z) (pool : list Z) (s' : PoolSuccessors) (pool' : list Z) : Prop := {
  ext_len : zlen pool <= zlen pool';
  ext_frame : forall i : nat, (i < length pool)%nat -> ~ lo <= Z.of_nat i < hi ->
    pool' !! i = pool !! i;
  ext_block : forall x, Succ.blockStart s' <= x < Succ.blockStart s' + Succ.blockCapacity s' ->
    lo <= x < hi \/ zlen pool <= x;
  ext_charge : zlen pool' - zlen pool <= charge_of (Succ.blockCapacity s') - c;
}.

(** The entries of a list in pool mode. *)
Definition entries (s : PoolSuccessors) (pool : list Z) (n : Z) : list Z :=
  slice pool (Z.to_nat (Succ.blockStart s)) (Z.to_nat n).

Lemma pool_pre_read s pool n :
  pool_pre s pool n -> 4 <= n <= kCountMask /\ Succ.count s = n /\ Succ.isPool s = true.
Proof.
  intros (_ & Hs & Hc & Hlo & Hhi & _). apply cap_ok_bounds in Hc.
  unfold kCountMask, Succ.count, Succ.isPool in *. rewrite Hs, land_count_mask.
  split; [lia|split].
  - change kPoolFlag with (1 * 2 ^ 15). rewrite Z.add_comm, Z_mod_plus_full.
    apply Z.mod_small. lia.
  - by rewrite land_pool_flag by (lia || by right).
Qed.

Lemma cap_ok_double c :
  cap_ok c -> c < 32767 ->
  let g := u16 (if kCountMask / 2 <? c then kCountMask else c * 2) in
  cap_ok g /\ c < g <= 2 * c /\ g <= charge_of g - charge_of c.
Proof.
  intros Hc Hlt. destruct Hc as [|(k & Hk & ->)]; [lia|].
  assert (Hk' : k = 3 \/ k = 4 \/ k = 5 \/ k = 6 \/ k = 7 \/ k = 8 \/ k = 9 \/ k = 10
    \/ k = 11 \/ k = 12 \/ k = 13 \/ k = 14) by lia.
  repeat destruct Hk' as [->|Hk']; try subst k.
  all: vm_compute (u16 _); split; [|unfold charge_of; simpl; lia].
  all: first [by left | right].
  1: by exists 4. 1: by exists 5. 1: by exists 6. 1: by exists 7. 1: by exists 8.
  1: by exists 9. 1: by exists 10. 1: by exists 11. 1: by exists 12. 1: by exists 13.
  by exists 14.
Qed.

(** A copy moves a slice. *)
Lemma slice_copy_range n dst to src from :
  0 <= from -> from + Z.of_nat n <= zlen src -> 0 <= to -> to + Z.of_nat n <= zlen dst ->
  slice (copy_range n dst to src from) (Z.to_nat to) n = slice src (Z.to_nat from) n.
Proof.
  intros Hf Hs Ht Hd. apply list_eq. intros i. rewrite !slice_lookup. case_decide; [|done].
  rewrite copy_range_lookup by done. rewrite decide_True by lia. unfold rd.
  replace (Z.to_nat (from + (Z.of_nat (Z.to_nat to + i) - to))) with (Z.to_nat from + i)%nat by lia.
  unfold zlen in *. destruct (lookup_lt_is_Some_2 src (Z.to_nat from + i)) as [x ->]; [lia|done].
Qed.

Lemma grow_spec s pool :
  pool_pre s pool (Succ.blockCapacity s) -> Succ.blockCapacity s < 32767 ->
  zlen pool < 2 ^ 32 ->
  let '(s', pool') := Succ.grow s pool in
  pool_pre s' pool' (Succ.blockCapacity s) /\ Succ.blockCapacity s < Succ.blockCapacity s' /\
  entries s' pool' (Succ.blockCapacity s) = entries s pool (Succ.blockCapacity s) /\
  extends (Succ.blockStart s) (Succ.blockStart s + Succ.blockCapacity s)
    (charge_of (Succ.blockCapacity s)) pool s' pool'.
Proof.
  intros Hpre Hlt Hbig. destruct (pool_pre_read _ _ _ Hpre) as (_ & Hcount & _).
  destruct Hpre as (Hl & Hsz & Hcap & _ & _ & Hst & Hin).
  pose proof (cap_ok_bounds _ Hcap) as Hb.
  destruct (cap_ok_double _ Hcap Hlt) as (Hg & Hg1 & Hg2).
  unfold Succ.grow. rewrite Hcount. set (g := u16 _) in *. set (c := Succ.blockCapacity s) in *.
  set (b := Succ.blockStart s) in *.
  destruct (Z.eqb_spec (b + c) (zlen pool)) as [Heq|Hne].
  - pose proof (length_resize pool (b + g)) as Hr.
    unfold pool_pre, entries. rewrite length_inline_setBlock, blockStart_setBlock, blockCapacity_setBlock by lia.
    split; [repeat split; simpl; (done || lia)|]. split; [lia|]. split.
    + apply slice_ext. intros i Hi. apply resize_lookup. unfold zlen in *; lia.
    + split; rewrite ?blockStart_setBlock, ?blockCapacity_setBlock by lia; try lia.
      intros i Hi _. by apply resize_lookup.
  - pose proof (zlen_nonneg pool). set (p1 := resize pool (zlen pool + g)).
    assert (Hr : zlen p1 = zlen pool + g) by (apply length_resize; lia).
    assert (Hlc : zlen (copy_range (Z.to_nat c) p1 (zlen pool) p1 b) = zlen pool + g)
      by (unfold zlen at 1; rewrite length_copy_range; apply Hr).
    unfold pool_pre, entries. rewrite length_inline_setBlock, blockStart_setBlock, blockCapacity_setBlock by lia.
    split; [repeat split; simpl; (done || lia)|]. split; [lia|]. split.
    + rewrite slice_copy_range by lia. apply slice_ext. intros i Hi.
      apply resize_lookup. unfold zlen in *; lia.
    + split; rewrite ?blockStart_setBlock, ?blockCapacity_setBlock by lia; try lia.
      intros i Hi _. rewrite copy_range_lookup by lia.
      rewrite decide_False by (unfold zlen; lia). by apply resize_lookup.
Qed.

(** Writing the new entry into a block that has room for it. *)
Lemma write_entry s pool n v :
  pool_pre s pool n -> n < Succ.blockCapacity s -> Succ.blockCapacity s < 2 * (n + 1) ->
  let s' := Succ.set_size s (u16 (Z.lor kPoolFlag (n + 1))) in
  let pool' := wr pool (Succ.blockStart s + n) v in
  length (inline_ s') = 4%nat /\ pool_mode s' pool' (n + 1) /\
  entries s' pool' (n + 1) = entries s pool n ++ [v].
Proof.
  intros Hpre Hn Hhalf. destruct (pool_pre_read _ _ _ Hpre) as (Hr & _).
  destruct Hpre as (Hl & Hsz & Hcap & _ & Hle & Hst & Hin).
  pose proof (cap_ok_bounds _ Hcap) as Hb. cbv zeta.
  assert (Hzl : zlen (wr pool (Succ.blockStart s + n) v) = zlen pool)
    by (unfold zlen; by rewrite length_wr).
  split; [done|]. split.
  - unfold pool_mode. rewrite Hzl. split.
    + simpl. rewrite lor_pool_flag by lia. apply u16_small. unfold is_u16, kPoolFlag. lia.
    + unfold Succ.set_size, Succ.blockStart, Succ.blockCapacity in *. simpl. repeat split; (done || lia).
  - unfold entries, wr. change (Succ.blockStart (Succ.set_size _ _)) with (Succ.blockStart s).
    rewrite Z2Nat.inj_add by lia. replace (Z.to_nat (n + 1)) with (S (Z.to_nat n)) by lia.
    apply slice_snoc. unfold zlen in *; lia.
Qed.

Lemma extends_wr lo hi c pool s' pool' b v m :
  0 <= Succ.blockStart s' -> extends lo hi c pool s' pool' ->
  Succ.blockStart s' <= b < Succ.blockStart s' + Succ.blockCapacity s' ->
  extends lo hi c pool (Succ.set_size s' m) (wr pool' b v).
Proof.
  intros H0 [H1 H2 H3 H4] Hb.
  assert (Hz : zlen (wr pool' b v) = zlen pool') by (unfold zlen; by rewrite length_wr).
  split; rewrite ?Hz; try done.
  intros i Hi Hout. unfold wr. destruct (decide (i = Z.to_nat b)) as [->|Hne].
  - exfalso. destruct (H3 b Hb) as [?|?]; unfold zlen in *; lia.
  - rewrite list_lookup_insert_ne by done. by apply H2.
Qed.

Lemma extends_refl s pool :
  extends (Succ.blockStart s) (Succ.blockStart s + Succ.blockCapacity s)
    (charge_of (Succ.blockCapacity s)) pool s pool.
Proof. split; [lia|done|intros; by left|lia]. Qed.

Lemma push_pool_spec s v pool n :
  pool_pre s pool n -> zlen pool < 2 ^ 32 ->
  match Succ.push_pool s v pool with
  | Undefined => False
  | Throw st _ => st = (s, pool) /\ n = kCountMask
  | Return (s', pool') _ =>
      n < kCountMask /\ length (inline_ s') = 4%nat /\ pool_mode s' pool' (n + 1) /\
      entries s' pool' (n + 1) = entries s pool n ++ [v] /\
      extends (Succ.blockStart s) (Succ.blockStart s + Succ.blockCapacity s)
        (charge_of (Succ.blockCapacity s)) pool s' pool'
  end.
Proof.
  intros Hpre Hbig. pose proof Hpre as (_ & _ & Hcap & Hlo & Hle & Hst & _).
  destruct (pool_pre_read _ _ _ Hpre) as (Hr & Hcount & _). pose proof (cap_ok_bounds _ Hcap).
  unfold Succ.push_pool. rewrite Hcount. unfold kCountMask in *.
  destruct (Z.eqb_spec n 0x7FFF) as [->|Hne]; [done|].
  destruct (Z.eqb_spec n (Succ.blockCapacity s)) as [Heq|Hroom].
  - rewrite Heq in *. pose proof (grow_spec s pool Hpre ltac:(lia) Hbig) as Hg.
    destruct (Succ.grow s pool) as [s1 p1]. destruct Hg as (Hp1 & Hlt & Hent & Hext).
    pose proof Hp1 as (_ & _ & Hcap1 & Hhalf & _ & Hst1 & _).
    destruct (write_entry s1 p1 _ v Hp1 ltac:(lia) ltac:(lia)) as (Hl & Hm & He).
    split; [lia|]. split; [done|]. split; [done|]. split; [by rewrite He, Hent|].
    apply extends_wr; [done..|lia].
  - destruct (write_entry s pool n v Hpre ltac:(lia) ltac:(lia)) as (Hl & Hm & He).
    split; [lia|]. repeat (split; [done|]).
    apply extends_wr; [done|apply extends_refl|lia].
Qed.

Lemma spill_spec s pool :
  length (inline_ s) = 4%nat -> inline_mode s 4 -> zlen pool < 2 ^ 32 ->
  let '(s', pool') := Succ.spill s pool in
  pool_pre s' pool' 4 /\ entries s' pool' 4 = inline_ s /\ extends 0 0 0 pool s' pool'.
Proof.
  intros Hl Hm Hbig. destruct (inline_mode_read _ _ Hm) as [Hcount _]. destruct Hm as [_ Hs].
  unfold Succ.spill. rewrite Hcount. pose proof (zlen_nonneg pool).
  set (p1 := resize pool (zlen pool + 2 * kInlineCap)).
  assert (Hr : zlen p1 = zlen pool + 8) by (apply length_resize; unfold kInlineCap; lia).
  set (p2 := copy_range _ p1 _ _ _).
  assert (Hlc : zlen p2 = zlen pool + 8) by (unfold zlen at 1, p2; rewrite length_copy_range; apply Hr).
  change (u16 (2 * kInlineCap)) with 8. set (s1 := Succ.setBlock s (zlen pool) 8).
  assert (Hst : Succ.blockStart s1 = zlen pool) by (apply blockStart_setBlock; lia).
  assert (Hc : Succ.blockCapacity s1 = 8) by (by apply blockCapacity_setBlock).
  change (u16 (Z.lor kPoolFlag 4)) with (kPoolFlag + 4). set (s2 := Succ.set_size s1 _).
  change (Succ.blockStart s1) with (Succ.blockStart s2) in Hst.
  change (Succ.blockCapacity s1) with (Succ.blockCapacity s2) in Hc.
  split; [|split].
  - unfold pool_pre. rewrite Hst, Hc, Hlc. repeat split; try lia.
    + unfold s2; simpl. by rewrite !length_wr.
    + right. by exists 3.
  - unfold entries. rewrite Hst. unfold p2. rewrite slice_copy_range by (unfold zlen in *; lia).
    unfold slice. simpl. by rewrite drop_0, take_ge by lia.
  - split; rewrite ?Hst, ?Hc; try (unfold charge_of; simpl; lia).
    intros i Hi _. unfold p2. rewrite copy_range_lookup by lia.
    rewrite decide_False by (unfold zlen; lia). by apply resize_lookup.
Qed.

(** ** Appends within an arena *)

Lemma pool_mode_pre s pool n :
  length (inline_ s) = 4%nat -> pool_mode s pool n -> pool_pre s pool n.
Proof. intros Hl (?&?&?&?&?&?). repeat split; (done || lia). Qed.

Lemma range_pool s pool n : pool_mode s pool n -> Succ.range s pool = entries s pool n.
Proof.
  intros H. destruct (pool_mode_read _ _ _ H) as (_ & Hc & Hp).
  unfold Succ.range. by rewrite Hp, Hc.
Qed.

Lemma range_inline s pool n : inline_mode s n -> Succ.range s pool = take (Z.to_nat n) (inline_ s).
Proof.
  intros H. destruct (inline_mode_read _ _ H) as [Hc Hp].
  unfold Succ.range. by rewrite Hp, Hc.
Qed.

Lemma charge_bound pool s : list_ok pool s -> 0 <= charge s <= 65527.
Proof.
  intros (_ & n & [H|H]); unfold charge.
  - apply inline_mode_read in H as [_ ->]. lia.
  - pose proof H as (_ & Hc & _). apply pool_mode_read in H as (_ & _ & ->).
    apply cap_ok_bounds in Hc. unfold charge_of. case_match; lia.
Qed.

Lemma charges_bound pool ss :
  Forall (list_ok pool) ss -> charges ss <= 65527 * zlen ss.
Proof.
  unfold zlen. induction 1 as [|s ss Hs _ IH]; simpl; [lia|].
  pose proof (charge_bound _ _ Hs). lia.
Qed.

(** The largest graph's arena is addressable with 32-bit block starts. *)
Lemma arena_addressable ss pool :
  arena_ok ss pool -> zlen ss <= 65536 -> zlen pool < 2 ^ 32.
Proof. intros [Hl _ Hs] Hn. apply charges_bound in Hl. lia. Qed.

Lemma charges_insert ss i s s' :
  ss !! i = Some s -> charges (<[i := s']> ss) = charges ss - charge s + charge s'.
Proof.
  revert i. induction ss as [|t ss IH]; intros [|i] H; simplify_eq/=; [lia|].
  rewrite (IH i H). lia.
Qed.

Lemma list_ok_frame lo hi c pool s' pool' t :
  extends lo hi c pool s' pool' -> list_ok pool t -> list_ok pool' t.
Proof.
  intros [Hlen _ _ _] (Hl & n & [H|(?&?&?&?&?&?)]); split; [done| |done|].
  - exists n. by left.
  - exists n. right. repeat split; (done || lia).
Qed.

Lemma range_frame lo hi c pool s' pool' t :
  extends lo hi c pool s' pool' -> list_ok pool t ->
  (Succ.isPool t = true -> forall x, Succ.blockStart t <= x < Succ.blockStart t + Succ.blockCapacity t ->
    ~ lo <= x < hi) ->
  Succ.range t pool' = Succ.range t pool.
Proof.
  intros Hext (Hl & n & [H|H]) Hdis.
  - by rewrite !(range_inline _ _ n).
  - assert (H' : pool_mode t pool' n).
    { destruct H as (?&?&?&?&?&?). destruct Hext. repeat split; (done || lia). }
    rewrite (range_pool _ _ _ H), (range_pool _ _ _ H'). unfold entries.
    destruct (pool_mode_read _ _ _ H) as (Hn & _ & Hp).
    destruct H as (_ & Hc & _ & Hle & H0 & Hin). unfold kCountMask in *.
    apply slice_ext. intros i Hi. apply Hext; [unfold zlen in *; lia|].
    apply Hdis; [done|lia].
Qed.

(** Replacing list [i] by the result of an append keeps the arena well formed
    and every other list unchanged. *)
Lemma arena_update ss pool i s s' pool' lo hi n :
  arena_ok ss pool -> ss !! i = Some s ->
  (forall x, lo <= x < hi -> Succ.isPool s = true /\
     Succ.blockStart s <= x < Succ.blockStart s + Succ.blockCapacity s) ->
  length (inline_ s') = 4%nat -> pool_mode s' pool' n ->
  extends lo hi (charge s) pool s' pool' ->
  arena_ok (<[i := s']> ss) pool' /\
  forall j t, j <> i -> ss !! j = Some t -> Succ.range t pool' = Succ.range t pool.
Proof.
  intros [Hok Hdis Hsz] Hi Hblk Hl Hm Hext.
  assert (Hsep : forall j t x, j <> i -> ss !! j = Some t -> Succ.isPool t = true ->
    Succ.blockStart t <= x < Succ.blockStart t + Succ.blockCapacity t -> ~ lo <= x < hi).
  { intros j t x Hne Hj Hp Hx Hlo. destruct (Hblk x Hlo) as [Hps Hxs].
    destruct (Hdis j i t s Hne Hj Hi Hp Hps); lia. }
  assert (Hin : forall j t, ss !! j = Some t -> Succ.isPool t = true ->
    8 <= Succ.blockCapacity t /\ 0 <= Succ.blockStart t /\ Succ.blockStart t + Succ.blockCapacity t <= zlen pool).
  { intros j t Hj Hp. rewrite Forall_lookup in Hok. destruct (Hok j t Hj) as (_ & m & [H|H]).
    - apply inline_mode_read in H as [_ H]. congruence.
    - destruct H as (_ & Hc & _ & _ & ? & ?). apply cap_ok_bounds in Hc. lia. }
  assert (Hnew : forall j t, j <> i -> ss !! j = Some t -> disjoint_blocks t s').
  { intros j t Hne Hj Hp _. destruct (Hin j t Hj Hp) as (Hc & H0 & Ht).
    pose proof Hm as (_ & Hc' & _). apply cap_ok_bounds in Hc'.
    destruct (decide (Succ.blockStart t + Succ.blockCapacity t <= Succ.blockStart s')) as [|Hn1]; [by left|].
    destruct (decide (Succ.blockStart s' + Succ.blockCapacity s' <= Succ.blockStart t)) as [|Hn2]; [by right|].
    exfalso. set (x := Z.max (Succ.blockStart t) (Succ.blockStart s')).
    destruct (ext_block _ _ _ _ _ _ Hext x) as [Hx|Hx]; [lia| |lia].
    by apply (Hsep j t x Hne Hj Hp); [lia|]. }
  pose proof (lookup_lt_Some _ _ _ Hi) as Hlt. split; [split|].
  - apply Forall_insert; [|split; [done|by exists n; right]].
    eapply Forall_impl; [exact Hok|]. intros t. by eapply list_ok_frame.
  - intros j k a b Hjk Ha Hb.
    destruct (decide (i = j)) as [<-|Hij], (decide (i = k)) as [<-|Hik]; [done|..].
    + rewrite list_lookup_insert_eq in Ha by done. rewrite list_lookup_insert_ne in Hb by done.
      simplify_eq. intros Hp1 Hp2. destruct (Hnew k b) as [|]; [done..|by right|by left].
    + rewrite list_lookup_insert_ne in Ha by done. rewrite list_lookup_insert_eq in Hb by done.
      simplify_eq. by apply Hnew with j.
    + rewrite !list_lookup_insert_ne in Ha, Hb by done. by apply Hdis with j k.
  - rewrite (charges_insert _ _ s) by done. destruct Hext as [_ _ _ Hch].
    unfold charge at 2. apply pool_mode_read in Hm as (_ & _ & ->). lia.
  - intros j t Hne Hj. rewrite Forall_lookup in Hok. eapply range_frame; [done|by apply (Hok j)|].
    intros Hp x Hx. by apply Hsep with j t.
Qed.

Lemma inline_push_ok pool s n v :
  length (inline_ s) = 4%nat -> inline_mode s n -> n < kInlineCap ->
  let s' := {| size_ := u16 (n + 1); poolIdx_ := poolIdx_ s; inline_ := wr (inline_ s) n v |} in
  length (inline_ s') = 4%nat /\ inline_mode s' (n + 1) /\
  Succ.range s' pool = Succ.range s pool ++ [v].
Proof.
  intros Hl Hm Hn. cbv zeta. pose proof Hm as [H0 _]. unfold kInlineCap in *.
  set (s' := {| size_ := _ |}). assert (Hm' : inline_mode s' (n + 1)).
  { split; [unfold kInlineCap; lia|]. apply u16_small. unfold is_u16. lia. }
  split; [simpl; by rewrite length_wr|]. split; [done|].
  rewrite (range_inline _ _ _ Hm), (range_inline _ _ _ Hm'). simpl. unfold wr.
  replace (Z.to_nat (n + 1)) with (S (Z.to_nat n)) by lia.
  pose proof (slice_snoc (inline_ s) 0 (Z.to_nat n) v ltac:(lia)) as H.
  unfold slice in H. by rewrite !drop_0 in H.
Qed.

Lemma arena_update_inline ss pool i s s' n m :
  arena_ok ss pool -> ss !! i = Some s -> inline_mode s n ->
  length (inline_ s') = 4%nat -> inline_mode s' m -> arena_ok (<[i := s']> ss) pool.
Proof.
  intros [Hok Hdis Hsz] Hi Hs Hl Hm. pose proof (lookup_lt_Some _ _ _ Hi) as Hlt.
  apply inline_mode_read in Hs as [_ Hs]. pose proof Hm as [_ Hp']%inline_mode_read. split.
  - apply Forall_insert; [done|]. split; [done|]. exists m. by left.
  - intros j k a b Hjk Ha Hb Hpa Hpb.
    destruct (decide (i = j)) as [<-|]; [rewrite list_lookup_insert_eq in Ha by done; congruence|].
    destruct (decide (i = k)) as [<-|]; [rewrite list_lookup_insert_eq in Hb by done; congruence|].
    rewrite list_lookup_insert_ne in Ha, Hb by done. by apply (Hdis j k).
  - rewrite (charges_insert _ _ s) by done. unfold charge. rewrite Hs, Hp'. lia.
Qed.

(** An append right after a spill still only extends the arena. *)
Lemma extends_spill pool s1 p1 s' pool' :
  extends 0 0 0 pool s1 p1 ->
  extends (Succ.blockStart s1) (Succ.blockStart s1 + Succ.blockCapacity s1)
    (charge_of (Succ.blockCapacity s1)) p1 s' pool' ->
  extends 0 0 0 pool s' pool'.
Proof.
  intros [A1 A2 A3 A4] [B1 B2 B3 B4]. split; [lia| | |lia].
  - intros i Hi Hout. rewrite B2; [by apply A2|unfold zlen in *; lia|].
    intros Hb. destruct (A3 _ Hb); unfold zlen in *; lia.
  - intros x Hx. destruct (B3 x Hx) as [Hb|]; [|right; lia].
    destruct (A3 x Hb); [lia|by right].
Qed.

(** The whole append, on every path: inline, spill, in place, growing, full. *)
Lemma push_back_arena ss pool i s v :
  arena_ok ss pool -> zlen ss <= 65536 -> ss !! i = Some s ->
  match Succ.push_back s v pool with
  | Undefined => False
  | Throw st _ => st = (s, pool) /\ Succ.count s = kCountMask
  | Return (s', pool') _ =>
      Succ.count s < kCountMask /\
      arena_ok (<[i := s']> ss) pool' /\ Succ.range s' pool' = Succ.range s pool ++ [v] /\
      forall j t, j <> i -> ss !! j = Some t -> Succ.range t pool' = Succ.range t pool
  end.
Proof.
  intros Har Hn Hi. pose proof (arena_addressable _ _ Har Hn) as Hbig.
  pose proof (arena_lists _ _ Har) as Hok. rewrite Forall_lookup in Hok.
  destruct (Hok i s Hi) as (Hl & n & [Hm|Hm]); unfold Succ.push_back.
  - destruct (inline_mode_read _ _ Hm) as [-> ->]. cbn [negb]. pose proof Hm as [H0 _].
    destruct (Z.ltb_spec n kInlineCap) as [Hlt|Hge].
    + destruct (inline_push_ok pool s n v Hl Hm Hlt) as (Hl' & Hm' & Hr).
      split; [unfold kCountMask, kInlineCap in *; lia|].
      split; [by eapply arena_update_inline|]. done.
    + assert (n = 4) as -> by (unfold kInlineCap in *; lia).
      pose proof (spill_spec s pool Hl Hm Hbig) as Hsp.
      destruct (Succ.spill s pool) as [s1 p1]. destruct Hsp as (Hp1 & He1 & Hx1).
      assert (Hbig1 : zlen p1 < 2 ^ 32).
      { destruct Hx1 as [_ _ _ Hch]. pose proof Hp1 as (_ & _ & Hc & Hc8 & _).
        apply cap_ok_bounds in Hc. unfold charge_of in Hch.
        pose proof (charges_bound _ _ (arena_lists _ _ Har)). pose proof (arena_size _ _ Har).
        destruct (Z.eqb_spec (Succ.blockCapacity s1) 32767); lia. }
      pose proof (push_pool_spec s1 v p1 4 Hp1 Hbig1) as Hps.
      destruct (Succ.push_pool s1 v p1) as [[s' pool'] u|st msg|]; [|by destruct Hps as [_ Hps]|done].
      destruct Hps as (_ & Hl' & Hm' & He & Hx). split; [done|].
      destruct (arena_update ss pool i s s' pool' 0 0 (4 + 1)) as [Ha Hf]; try done.
      * lia.
      * unfold charge. destruct (inline_mode_read _ _ Hm) as [_ ->]. by eapply extends_spill.
      * split; [done|]. split; [|done]. rewrite (range_inline _ _ _ Hm), (range_pool _ _ _ Hm'), He, He1.
        by rewrite take_ge by lia.
  - destruct (pool_mode_read _ _ _ Hm) as (Hr & -> & ->). cbn [negb].
    pose proof (push_pool_spec s v pool n (pool_mode_pre _ _ _ Hl Hm) Hbig) as Hps.
    destruct (Succ.push_pool s v pool) as [[s' pool'] u|st msg|]; [|done|done].
    destruct Hps as (Hlt & Hl' & Hm' & He & Hx). split; [done|].
    destruct (arena_update ss pool i s s' pool' (Succ.blockStart s)
      (Succ.blockStart s + Succ.blockCapacity s) (n + 1)) as [Ha Hf]; try done.
    + intros x Hxx. split; [by apply pool_mode_read in Hm as (_ & _ & ->)|done].
    + unfold charge. by destruct (pool_mode_read _ _ _ Hm) as (_ & _ & ->).
    + split; [done|]. split; [|done].
      by rewrite (range_pool _ _ _ Hm), (range_pool _ _ _ Hm'), He.
Qed.
