(* ===== verification/Nodes.v ===== *)
(** Nodes, the state of a pipeline and the operations that build its graph
    (struct Node, struct Impl, addNode, the edge operations, src/sub0pipeline.cpp). *)
From stdpp Require Import pretty.
From S2P Require Import Prelude Types EdgeLists SuccessorPool.

(** ** Data *)

(** Identity of a callable the consumer supplies; what it does when called is
    an argument of the run. *)
Definition Callable : Set := nat.

(** The job function stored in a node: the wrapper [ignoringStop] and the
    lambda of the templated [emplace] drop the stop token, and the latter turns
    a void callable into one that always succeeds. *)
Inductive JobFn : Set :=
  | IgnoringStop (f : Callable)
  | VoidFn (f : Callable)
  | TokenFn (f : Callable).

#[export] Instance JobFn_eq_dec : EqDecision JobFn.
Proof. solve_decision. Defined.

(** [std::chrono::milliseconds::max()] *)
Definition milliseconds_max : Z := 2 ^ 63 - 1.

Definition kFlagOptional : Z := 0x01.
Definition kFlagOnDemand : Z := 0x02.
Definition kFlagCancellable : Z := 0x04.
Definition kFlagDeferred : Z := 0x08.

(** A node. [stopSource_] is the index of its shared stop state in the
    pipeline's [stopStates]; copies of the source and its tokens hold the same
    index. [deferred_] is the start function of a deferred job's slot. *)
Record Node := {
  unmetDeps_ : Z;
  jobStatus_ : JobStatus;
  flags_ : Z;
  priority_ : Z;
  coreAffinity_ : Z;
  stackBytes_ : Z;
  predecessorCount_ : Z;
  timeout_ : Z;
  successors_ : PoolSuccessors;
  fn_ : option JobFn;
  stopSource_ : nat;
  nameStr_ : string;
  statusText_ : option string;
  deferred_ : option Callable;
}.

#[export] Instance Node_eq_dec : EqDecision Node.
Proof. solve_decision. Defined.

Definition isOptional (nd : Node) : bool := negb (Z.land (flags_ nd) kFlagOptional =? 0).
Definition isOnDemand (nd : Node) : bool := negb (Z.land (flags_ nd) kFlagOnDemand =? 0).
Definition isCancellable (nd : Node) : bool := negb (Z.land (flags_ nd) kFlagCancellable =? 0).
Definition isDeferred (nd : Node) : bool := negb (Z.land (flags_ nd) kFlagDeferred =? 0).

(** A default-constructed node; its stop source gets a fresh shared state. *)
Definition Node_default (stop : nat) : Node := {|
  unmetDeps_ := 0; jobStatus_ := kPending; flags_ := 0; priority_ := 5;
  coreAffinity_ := -1; stackBytes_ := 8192; predecessorCount_ := 0;
  timeout_ := milliseconds_max; successors_ := PoolSuccessors_empty; fn_ := None;
  stopSource_ := stop; nameStr_ := ""; statusText_ := None; deferred_ := None |}.

(** Field updates. *)
Definition set_unmetDeps (z : Z) (nd : Node) : Node := {|
     unmetDeps_ := z; jobStatus_ := jobStatus_ nd; flags_ := flags_ nd;
        priority_ := priority_ nd; coreAffinity_ := coreAffinity_ nd;
        stackBytes_ := stackBytes_ nd; predecessorCount_ := predecessorCount_ nd;
        timeout_ := timeout_ nd; successors_ := successors_ nd; fn_ := fn_ nd;
        stopSource_ := stopSource_ nd; nameStr_ := nameStr_ nd;
        statusText_ := statusText_ nd; deferred_ := deferred_ nd |}.
Definition set_jobStatus (z : JobStatus) (nd : Node) : Node := {|
     unmetDeps_ := unmetDeps_ nd; jobStatus_ := z; flags_ := flags_ nd;
        priority_ := priority_ nd; coreAffinity_ := coreAffinity_ nd;
        stackBytes_ := stackBytes_ nd; predecessorCount_ := predecessorCount_ nd;
        timeout_ := timeout_ nd; successors_ := successors_ nd; fn_ := fn_ nd;
        stopSource_ := stopSource_ nd; nameStr_ := nameStr_ nd;
        statusText_ := statusText_ nd; deferred_ := deferred_ nd |}.
Definition set_flags (z : Z) (nd : Node) : Node := {|
     unmetDeps_ := unmetDeps_ nd; jobStatus_ := jobStatus_ nd; flags_ := z;
        priority_ := priority_ nd; coreAffinity_ := coreAffinity_ nd;
        stackBytes_ := stackBytes_ nd; predecessorCount_ := predecessorCount_ nd;
        timeout_ := timeout_ nd; successors_ := successors_ nd; fn_ := fn_ nd;
        stopSource_ := stopSource_ nd; nameStr_ := nameStr_ nd;
        statusText_ := statusText_ nd; deferred_ := deferred_ nd |}.
Definition set_priority (z : Z) (nd : Node) : Node := {|
     unmetDeps_ := unmetDeps_ nd; jobStatus_ := jobStatus_ nd; flags_ := flags_ nd;
        priority_ := z; coreAffinity_ := coreAffinity_ nd; stackBytes_ := stackBytes_ nd;
        predecessorCount_ := predecessorCount_ nd; timeout_ := timeout_ nd;
        successors_ := successors_ nd; fn_ := fn_ nd; stopSource_ := stopSource_ nd;
        nameStr_ := nameStr_ nd; statusText_ := statusText_ nd;
        deferred_ := deferred_ nd |}.
Definition set_coreAffinity (z : Z) (nd : Node) : Node := {|
     unmetDeps_ := unmetDeps_ nd; jobStatus_ := jobStatus_ nd; flags_ := flags_ nd;
        priority_ := priority_ nd; coreAffinity_ := z; stackBytes_ := stackBytes_ nd;
        predecessorCount_ := predecessorCount_ nd; timeout_ := timeout_ nd;
        successors_ := successors_ nd; fn_ := fn_ nd; stopSource_ := stopSource_ nd;
        nameStr_ := nameStr_ nd; statusText_ := statusText_ nd;
        deferred_ := deferred_ nd |}.
Definition set_stackBytes (z : Z) (nd : Node) : Node := {|
     unmetDeps_ := unmetDeps_ nd; jobStatus_ := jobStatus_ nd; flags_ := flags_ nd;
        priority_ := priority_ nd; coreAffinity_ := coreAffinity_ nd; stackBytes_ := z;
        predecessorCount_ := predecessorCount_ nd; timeout_ := timeout_ nd;
        successors_ := successors_ nd; fn_ := fn_ nd; stopSource_ := stopSource_ nd;
        nameStr_ := nameStr_ nd; statusText_ := statusText_ nd;
        deferred_ := deferred_ nd |}.
Definition set_predecessorCount (z : Z) (nd : Node) : Node := {|
     unmetDeps_ := unmetDeps_ nd; jobStatus_ := jobStatus_ nd; flags_ := flags_ nd;
        priority_ := priority_ nd; coreAffinity_ := coreAffinity_ nd;
        stackBytes_ := stackBytes_ nd; predecessorCount_ := z; timeout_ := timeout_ nd;
        successors_ := successors_ nd; fn_ := fn_ nd; stopSource_ := stopSource_ nd;
        nameStr_ := nameStr_ nd; statusText_ := statusText_ nd;
        deferred_ := deferred_ nd |}.
Definition set_timeout (z : Z) (nd : Node) : Node := {|
     unmetDeps_ := unmetDeps_ nd; jobStatus_ := jobStatus_ nd; flags_ := flags_ nd;
        priority_ := priority_ nd; coreAffinity_ := coreAffinity_ nd;
        stackBytes_ := stackBytes_ nd; predecessorCount_ := predecessorCount_ nd;
        timeout_ := z; successors_ := successors_ nd; fn_ := fn_ nd;
        stopSource_ := stopSource_ nd; nameStr_ := nameStr_ nd;
        statusText_ := statusText_ nd; deferred_ := deferred_ nd |}.
Definition set_successors (z : PoolSuccessors) (nd : Node) : Node := {|
     unmetDeps_ := unmetDeps_ nd; jobStatus_ := jobStatus_ nd; flags_ := flags_ nd;
        priority_ := priority_ nd; coreAffinity_ := coreAffinity_ nd;
        stackBytes_ := stackBytes_ nd; predecessorCount_ := predecessorCount_ nd;
        timeout_ := timeout_ nd; successors_ := z; fn_ := fn_ nd;
        stopSource_ := stopSource_ nd; nameStr_ := nameStr_ nd;
        statusText_ := statusText_ nd; deferred_ := deferred_ nd |}.
Definition set_fn (z : option JobFn) (nd : Node) : Node := {|
     unmetDeps_ := unmetDeps_ nd; jobStatus_ := jobStatus_ nd; flags_ := flags_ nd;
        priority_ := priority_ nd; coreAffinity_ := coreAffinity_ nd;
        stackBytes_ := stackBytes_ nd; predecessorCount_ := predecessorCount_ nd;
        timeout_ := timeout_ nd; successors_ := successors_ nd; fn_ := z;
        stopSource_ := stopSource_ nd; nameStr_ := nameStr_ nd;
        statusText_ := statusText_ nd; deferred_ := deferred_ nd |}.
Definition set_stopSource (z : nat) (nd : Node) : Node := {|
     unmetDeps_ := unmetDeps_ nd; jobStatus_ := jobStatus_ nd; flags_ := flags_ nd;
        priority_ := priority_ nd; coreAffinity_ := coreAffinity_ nd;
        stackBytes_ := stackBytes_ nd; predecessorCount_ := predecessorCount_ nd;
        timeout_ := timeout_ nd; successors_ := successors_ nd; fn_ := fn_ nd;
        stopSource_ := z; nameStr_ := nameStr_ nd; statusText_ := statusText_ nd;
        deferred_ := deferred_ nd |}.
Definition set_nameStr (z : string) (nd : Node) : Node := {|
     unmetDeps_ := unmetDeps_ nd; jobStatus_ := jobStatus_ nd; flags_ := flags_ nd;
        priority_ := priority_ nd; coreAffinity_ := coreAffinity_ nd;
        stackBytes_ := stackBytes_ nd; predecessorCount_ := predecessorCount_ nd;
        timeout_ := timeout_ nd; successors_ := successors_ nd; fn_ := fn_ nd;
        stopSource_ := stopSource_ nd; nameStr_ := z; statusText_ := statusText_ nd;
        deferred_ := deferred_ nd |}.
Definition set_statusText (z : option string) (nd : Node) : Node := {|
     unmetDeps_ := unmetDeps_ nd; jobStatus_ := jobStatus_ nd; flags_ := flags_ nd;
        priority_ := priority_ nd; coreAffinity_ := coreAffinity_ nd;
        stackBytes_ := stackBytes_ nd; predecessorCount_ := predecessorCount_ nd;
        timeout_ := timeout_ nd; successors_ := successors_ nd; fn_ := fn_ nd;
        stopSource_ := stopSource_ nd; nameStr_ := nameStr_ nd; statusText_ := z;
        deferred_ := deferred_ nd |}.
Definition set_deferred (z : option Callable) (nd : Node) : Node := {|
     unmetDeps_ := unmetDeps_ nd; jobStatus_ := jobStatus_ nd; flags_ := flags_ nd;
        priority_ := priority_ nd; coreAffinity_ := coreAffinity_ nd;
        stackBytes_ := stackBytes_ nd; predecessorCount_ := predecessorCount_ nd;
        timeout_ := timeout_ nd; successors_ := successors_ nd; fn_ := fn_ nd;
        stopSource_ := stopSource_ nd; nameStr_ := nameStr_ nd;
        statusText_ := statusText_ nd; deferred_ := z |}.

(** The state behind a [Pipeline] that outlives one operation. Scratch vectors
    that every use clears first are locals of the operation that uses them. *)
Record Impl := {
  nodes_ : list Node;
  roots_ : list nat;
  succPool_ : list Z;
  running_ : bool;
  rootsCached_ : bool;
  deadlines_ : option nat;        (* borrowed IDeadlineService *)
  armedExecutor_ : option nat;    (* borrowed IExecutor *)
  armedObserver_ : option nat;    (* borrowed IObserver *)
  failedJobName_ : string;
  completedCount_ : Z;
  pendingOrphans_ : Z;            (* timed-out threads not yet joined *)
  deferredNodes_ : list nat;
  deferredOrphans_ : Z;           (* DeferredOrphans::count *)
  stopStates : list bool;         (* shared stop states: stop requested? *)
}.

Definition Impl_new : Impl := {|
  nodes_ := []; roots_ := []; succPool_ := []; running_ := false; rootsCached_ := false;
  deadlines_ := None; armedExecutor_ := None; armedObserver_ := None; failedJobName_ := "";
  completedCount_ := 0; pendingOrphans_ := 0; deferredNodes_ := []; deferredOrphans_ := 0;
  stopStates := [] |}.

Definition set_nodes (z : list Node) (m : Impl) : Impl := {|
     nodes_ := z; roots_ := roots_ m; succPool_ := succPool_ m; running_ := running_ m;
        rootsCached_ := rootsCached_ m; deadlines_ := deadlines_ m;
        armedExecutor_ := armedExecutor_ m; armedObserver_ := armedObserver_ m;
        failedJobName_ := failedJobName_ m; completedCount_ := completedCount_ m;
        pendingOrphans_ := pendingOrphans_ m; deferredNodes_ := deferredNodes_ m;
        deferredOrphans_ := deferredOrphans_ m; stopStates := stopStates m |}.
Definition set_roots (z : list nat) (m : Impl) : Impl := {|
     nodes_ := nodes_ m; roots_ := z; succPool_ := succPool_ m; running_ := running_ m;
        rootsCached_ := rootsCached_ m; deadlines_ := deadlines_ m;
        armedExecutor_ := armedExecutor_ m; armedObserver_ := armedObserver_ m;
        failedJobName_ := failedJobName_ m; completedCount_ := completedCount_ m;
        pendingOrphans_ := pendingOrphans_ m; deferredNodes_ := deferredNodes_ m;
        deferredOrphans_ := deferredOrphans_ m; stopStates := stopStates m |}.
Definition set_succPool (z : list Z) (m : Impl) : Impl := {|
     nodes_ := nodes_ m; roots_ := roots_ m; succPool_ := z; running_ := running_ m;
        rootsCached_ := rootsCached_ m; deadlines_ := deadlines_ m;
        armedExecutor_ := armedExecutor_ m; armedObserver_ := armedObserver_ m;
        failedJobName_ := failedJobName_ m; completedCount_ := completedCount_ m;
        pendingOrphans_ := pendingOrphans_ m; deferredNodes_ := deferredNodes_ m;
        deferredOrphans_ := deferredOrphans_ m; stopStates := stopStates m |}.
Definition set_running (z : bool) (m : Impl) : Impl := {|
     nodes_ := nodes_ m; roots_ := roots_ m; succPool_ := succPool_ m; running_ := z;
        rootsCached_ := rootsCached_ m; deadlines_ := deadlines_ m;
        armedExecutor_ := armedExecutor_ m; armedObserver_ := armedObserver_ m;
        failedJobName_ := failedJobName_ m; completedCount_ := completedCount_ m;
        pendingOrphans_ := pendingOrphans_ m; deferredNodes_ := deferredNodes_ m;
        deferredOrphans_ := deferredOrphans_ m; stopStates := stopStates m |}.
Definition set_rootsCached (z : bool) (m : Impl) : Impl := {|
     nodes_ := nodes_ m; roots_ := roots_ m; succPool_ := succPool_ m;
        running_ := running_ m; rootsCached_ := z; deadlines_ := deadlines_ m;
        armedExecutor_ := armedExecutor_ m; armedObserver_ := armedObserver_ m;
        failedJobName_ := failedJobName_ m; completedCount_ := completedCount_ m;
        pendingOrphans_ := pendingOrphans_ m; deferredNodes_ := deferredNodes_ m;
        deferredOrphans_ := deferredOrphans_ m; stopStates := stopStates m |}.
Definition set_deadlines (z : option nat) (m : Impl) : Impl := {|
     nodes_ := nodes_ m; roots_ := roots_ m; succPool_ := succPool_ m;
        running_ := running_ m; rootsCached_ := rootsCached_ m; deadlines_ := z;
        armedExecutor_ := armedExecutor_ m; armedObserver_ := armedObserver_ m;
        failedJobName_ := failedJobName_ m; completedCount_ := completedCount_ m;
        pendingOrphans_ := pendingOrphans_ m; deferredNodes_ := deferredNodes_ m;
        deferredOrphans_ := deferredOrphans_ m; stopStates := stopStates m |}.
Definition set_armed (x o : option nat) (m : Impl) : Impl := {|
     nodes_ := nodes_ m; roots_ := roots_ m; succPool_ := succPool_ m;
        running_ := running_ m; rootsCached_ := rootsCached_ m; deadlines_ := deadlines_ m;
        armedExecutor_ := x; armedObserver_ := o; failedJobName_ := failedJobName_ m;
        completedCount_ := completedCount_ m; pendingOrphans_ := pendingOrphans_ m;
        deferredNodes_ := deferredNodes_ m; deferredOrphans_ := deferredOrphans_ m;
        stopStates := stopStates m |}.
Definition set_failedJobName (z : string) (m : Impl) : Impl := {|
     nodes_ := nodes_ m; roots_ := roots_ m; succPool_ := succPool_ m;
        running_ := running_ m; rootsCached_ := rootsCached_ m; deadlines_ := deadlines_ m;
        armedExecutor_ := armedExecutor_ m; armedObserver_ := armedObserver_ m;
        failedJobName_ := z; completedCount_ := completedCount_ m;
        pendingOrphans_ := pendingOrphans_ m; deferredNodes_ := deferredNodes_ m;
        deferredOrphans_ := deferredOrphans_ m; stopStates := stopStates m |}.
Definition set_completedCount (z : Z) (m : Impl) : Impl := {|
     nodes_ := nodes_ m; roots_ := roots_ m; succPool_ := succPool_ m;
        running_ := running_ m; rootsCached_ := rootsCached_ m; deadlines_ := deadlines_ m;
        armedExecutor_ := armedExecutor_ m; armedObserver_ := armedObserver_ m;
        failedJobName_ := failedJobName_ m; completedCount_ := z;
        pendingOrphans_ := pendingOrphans_ m; deferredNodes_ := deferredNodes_ m;
        deferredOrphans_ := deferredOrphans_ m; stopStates := stopStates m |}.
Definition set_orphans (t d : Z) (m : Impl) : Impl := {|
     nodes_ := nodes_ m; roots_ := roots_ m; succPool_ := succPool_ m;
        running_ := running_ m; rootsCached_ := rootsCached_ m; deadlines_ := deadlines_ m;
        armedExecutor_ := armedExecutor_ m; armedObserver_ := armedObserver_ m;
        failedJobName_ := failedJobName_ m; completedCount_ := completedCount_ m;
        pendingOrphans_ := t; deferredNodes_ := deferredNodes_ m; deferredOrphans_ := d;
        stopStates := stopStates m |}.
Definition set_deferredNodes (z : list nat) (m : Impl) : Impl := {|
     nodes_ := nodes_ m; roots_ := roots_ m; succPool_ := succPool_ m;
        running_ := running_ m; rootsCached_ := rootsCached_ m; deadlines_ := deadlines_ m;
        armedExecutor_ := armedExecutor_ m; armedObserver_ := armedObserver_ m;
        failedJobName_ := failedJobName_ m; completedCount_ := completedCount_ m;
        pendingOrphans_ := pendingOrphans_ m; deferredNodes_ := z;
        deferredOrphans_ := deferredOrphans_ m; stopStates := stopStates m |}.
Definition set_stopStates (z : list bool) (m : Impl) : Impl := {|
     nodes_ := nodes_ m; roots_ := roots_ m; succPool_ := succPool_ m;
        running_ := running_ m; rootsCached_ := rootsCached_ m; deadlines_ := deadlines_ m;
        armedExecutor_ := armedExecutor_ m; armedObserver_ := armedObserver_ m;
        failedJobName_ := failedJobName_ m; completedCount_ := completedCount_ m;
        pendingOrphans_ := pendingOrphans_ m; deferredNodes_ := deferredNodes_ m;
        deferredOrphans_ := deferredOrphans_ m; stopStates := z |}.

(** [nodes_[idx]] updated in place. *)
Definition alter_node (f : Node -> Node) (idx : nat) (m : Impl) : Impl :=
  set_nodes (alter f idx (nodes_ m)) m.

(** ** Building the graph *)

Definition ensureNodeIndexFitsSuccessorStorage (nodeCount : Z) : bool := nodeCount <=? 2 ^ 16 - 1.

(** [Impl::addNode]: a node named "<prefix><index>"; the cached roots are dropped. *)
Definition addNode (fn : option JobFn) (namePrefix : string) (flags : Z) (m : Impl) : exec Impl nat :=
  if negb (ensureNodeIndexFitsSuccessorStorage (zlen (nodes_ m)))
  then Throw m "Pipeline exceeds the 65536-job uint16_t index range"
  else
    let idx := length (nodes_ m) in
    let nd := set_nameStr (namePrefix ++ pretty idx)%string
      (set_flags flags (set_fn fn (Node_default (length (stopStates m))))) in
    Return (set_rootsCached false (set_stopStates (stopStates m ++ [false])
      (set_nodes (nodes_ m ++ [nd]) m))) idx.

(** The edge [from -> to]: recorded in [from]'s successor list first, then
    counted in [to]; the common part of [Job::succeed] and [Job::precede]. *)
Definition addEdge (from to : nat) (m : Impl) : exec Impl unit :=
  match nodes_ m !! from, nodes_ m !! to with
  | Some fromNode, Some _ =>
      let m := set_rootsCached false m in
      match Succ.push_back (successors_ fromNode) (u16 (Z.of_nat to)) (succPool_ m) with
      | Return (s, pool) _ =>
          let m := set_succPool pool (alter_node (set_successors s) from m) in
          Return (alter_node (fun nd => set_predecessorCount (u32 (predecessorCount_ nd + 1)) nd) to m) tt
      | Throw (s, pool) msg => Throw (set_succPool pool (alter_node (set_successors s) from m)) msg
      | Undefined => Undefined
      end
  | _, _ => Undefined
  end.

(** The successors of node [idx], as node indices. *)
Definition succ_ids (m : Impl) (nd : Node) : list nat :=
  Z.to_nat <$> Succ.range (successors_ nd) (succPool_ m).

(** Every adjacency list, in node order. *)
Definition adjacency (m : Impl) : list (list nat) := succ_ids m <$> nodes_ m.

(** [Pipeline::emplaceDeferred] on the implementation: the slot is attached to
    a node with an empty function, which is then recorded as deferred. *)
Definition addDeferred (start : Callable) (m : Impl) : exec Impl nat :=
  let! (m, idx) := addNode None "job_" kFlagDeferred m in
  Return (set_deferredNodes (deferredNodes_ m ++ [idx])
    (alter_node (set_deferred (Some start)) idx m)) idx.
