(* ===== verification/Kahn.v ===== *)
(** Graph validation: Kahn's algorithm as Pipeline::validate runs it on the
    adjacency lists (src/sub0pipeline.cpp), and its correctness. *)
From S2P Require Import Prelude EdgeLists.

(** ** Validation: Kahn's algorithm *)
Module Kahn.

(** [++inDegree[succ]] *)
Definition incr (d : list Z) (s : nat) : list Z := alter (fun x => u32 (x + 1)) s d.

(** The in-degree of every node, by one pass over all edges. *)
Definition inDegrees (adj : list (list nat)) : list Z :=
  foldl (fun d succs => foldl incr d succs) (replicate (length adj) 0) adj.

(** [if (inDegree[i] == 0U) ready.push_back(i)] for every node in order. *)
Definition initialReady (d : list Z) : list nat :=
  base.filter (fun i => rd d (Z.of_nat i) = 0) (seq 0 (length d)).

(** [if (--inDegree[succ] == 0U) ready.push_back(succ)] *)
Definition relax (st : list Z * list nat) (s : nat) : list Z * list nat :=
  let '(d, ready) := st in
  let x := u32 (rd d (Z.of_nat s) - 1) in
  (wr d (Z.of_nat s) x, if x =? 0 then ready ++ [s] else ready).

(** The traversal, [visited] entries of [ready] processed so far. Each turn
    visits one more entry and no entry is appended twice, so as many turns as
    there are nodes suffice. *)
Fixpoint traverse (fuel : nat) (adj : list (list nat)) (visited : nat) (st : list Z * list nat)
  : nat * (list Z * list nat) :=
  match fuel with
  | O => (visited, st)
  | S fuel =>
      match st.2 !! visited with
      | None => (visited, st)
      | Some idx => traverse fuel adj (S visited) (foldl relax st (default [] (adj !! idx)))
      end
  end.

Definition run (adj : list (list nat)) : nat * (list Z * list nat) :=
  let d := inDegrees adj in
  traverse (length adj) adj 0 (d, initialReady d).

End Kahn.
#[global] Arguments Kahn.relax : simpl never.

(** ** Acyclicity *)

Definition edge (adj : list (list nat)) (p i : nat) : Prop :=
  exists l, adj !! p = Some l /\ i ∈ l.
Definition acyclic (adj : list (list nat)) : Prop := forall i, ~ tc (edge adj) i i.

(** Every target is a node. *)
Definition targets_ok (adj : list (list nat)) : Prop :=
  Forall (Forall (fun i => (i < length adj)%nat)) adj.

Local Open Scope nat_scope.

(** The state of a traversal that has visited the first [v] entries of [R];
    [owed] holds, per node, the edges not yet relaxed. *)
Record kahn_inv (adj : list (list nat)) (owed : list (list nat)) (v : nat)
    (cur : option nat) (d : list Z) (R : list nat) : Prop := {
  ki_len : length d = length adj;
  ki_owed_len : length owed = length adj;
  ki_deg : forall i, i < length adj -> d !! i = Some (Z.of_nat (occ i owed));
  ki_nodup : NoDup R;
  ki_ready : forall i, i ∈ R <-> i < length adj /\ occ i owed = 0;
  ki_pending : forall p, p ∉ take v R -> owed !! p = adj !! p;
  ki_done : forall p, p ∈ take v R -> cur <> Some p -> owed !! p = Some [];
  ki_topo : forall k i p, R !! k = Some i -> edge adj p i -> p ∈ take k R;
  ki_visited : v <= length R;
  ki_bound : forall i, occ i owed <= occ i adj;
}.

Lemma foldl_incr_lookup l d i x :
  d !! i = Some x -> (0 <= x)%Z -> (x + Z.of_nat (occ1 i l) < 2 ^ 32)%Z ->
  foldl Kahn.incr d l !! i = Some (x + Z.of_nat (occ1 i l))%Z.
Proof.
  revert d x. induction l as [|y l IH]; intros d x Hd Hx Hb; simpl in *.
  { by rewrite Hd, Z.add_0_r. }
  destruct (decide (y = i)) as [->|Hne].
  - rewrite (IH _ (x + 1)%Z); [f_equal; lia| |lia|lia].
    unfold Kahn.incr. rewrite list_lookup_alter_eq, Hd. simpl. f_equal. apply u32_small. unfold is_u32. lia.
  - rewrite (IH _ x); [done| |lia|lia]. unfold Kahn.incr. by rewrite list_lookup_alter_ne.
Qed.

Lemma length_foldl_incr l d : length (foldl Kahn.incr d l) = length d.
Proof.
  revert d. induction l as [|y l IH]; intros d; simpl; [done|]. rewrite IH. apply length_alter.
Qed.

Lemma inDegrees_lookup_gen (ll : list (list nat)) d i x :
  d !! i = Some x -> (0 <= x)%Z -> (x + Z.of_nat (occ i ll) < 2 ^ 32)%Z ->
  foldl (fun d succs => foldl Kahn.incr d succs) d ll !! i = Some (x + Z.of_nat (occ i ll))%Z.
Proof.
  revert d x. induction ll as [|l ll IH]; intros d x Hd Hx Hb; simpl in *.
  { by rewrite Hd, Z.add_0_r. }
  rewrite (IH _ (x + Z.of_nat (occ1 i l))%Z); [f_equal; lia| |lia|lia].
  apply foldl_incr_lookup; (done || lia).
Qed.

Lemma length_inDegrees adj : length (Kahn.inDegrees adj) = length adj.
Proof.
  assert (H : forall (ll : list (list nat)) d,
    length (foldl (fun d succs => foldl Kahn.incr d succs) d ll) = length d).
  { intros ll. induction ll as [|l ll IH]; intros d; simpl; [done|].
    by rewrite IH, length_foldl_incr. }
  unfold Kahn.inDegrees. by rewrite H, length_replicate.
Qed.

Lemma kahn_init adj :
  (Z.of_nat (total_edges adj) < 2 ^ 32)%Z ->
  kahn_inv adj adj 0 None (Kahn.inDegrees adj) (Kahn.initialReady (Kahn.inDegrees adj)).
Proof.
  intros Hb.
  assert (Hdeg : forall i, i < length adj ->
    Kahn.inDegrees adj !! i = Some (Z.of_nat (occ i adj))).
  { intros i Hi. pose proof (occ_le_total i adj). unfold Kahn.inDegrees.
    rewrite (inDegrees_lookup_gen _ _ _ 0%Z); [done|by apply lookup_replicate|lia|lia]. }
  assert (Hrd : forall i, i < length adj ->
    (rd (Kahn.inDegrees adj) (Z.of_nat i) = 0%Z <-> occ i adj = 0)).
  { intros i Hi. unfold rd. rewrite Nat2Z.id, Hdeg by done. simpl. lia. }
  assert (Hel : forall i, i ∈ Kahn.initialReady (Kahn.inDegrees adj) <-> i < length adj /\ occ i adj = 0).
  { intros i. unfold Kahn.initialReady. rewrite list_elem_of_filter, elem_of_seq, length_inDegrees.
    split; [intros [H1 H2]|intros [H1 H2]]; (split; [|try lia]); try apply Hrd; (done || lia). }
  split; try done.
  - apply length_inDegrees.
  - apply NoDup_filter, NoDup_seq.
  - intros p Hp. set_solver.
  - intros k i p Hk (l & Hl & Hi). apply list_elem_of_lookup_2, Hel in Hk as [_ H0].
    assert (0 < occ i adj) by (apply occ_pos; eauto). lia.
  - lia.
Qed.

Lemma kahn_relax adj owed v p d R s rest :
  targets_ok adj -> (Z.of_nat (total_edges adj) < 2 ^ 32)%Z ->
  kahn_inv adj owed v (Some p) d R -> p ∈ take v R ->
  owed !! p = Some (s :: rest) -> s < length adj ->
  kahn_inv adj (<[p := rest]> owed) v (Some p) (Kahn.relax (d, R) s).1 (Kahn.relax (d, R) s).2.
Proof.
  intros Ht Hb [Hl Hol Hdeg Hnd Hr Hpend Hdone Htopo Hv Hbd] Hp Howed Hs.
  set (owed' := <[p := rest]> owed).
  assert (Hocc : forall i, occ i owed = (if decide (s = i) then 1 else 0) + occ i owed')
    by (intros i; by apply occ_pop).
  pose proof (Hocc s) as Hoccs. rewrite decide_True in Hoccs by done.
  pose proof (occ_le_total s adj) as Hle. pose proof (Hbd s) as Hbs.
  assert (Hx : u32 (rd d (Z.of_nat s) - 1) = Z.of_nat (occ s owed')).
  { unfold rd. rewrite Nat2Z.id, Hdeg by done. simpl. rewrite u32_small by (unfold is_u32; lia). lia. }
  assert (Hns : s ∉ R) by (rewrite Hr; lia).
  assert (Hdeg' : forall i, i < length adj ->
    wr d (Z.of_nat s) (u32 (rd d (Z.of_nat s) - 1)) !! i = Some (Z.of_nat (occ i owed'))).
  { intros i Hi. unfold wr. rewrite Nat2Z.id, Hx. destruct (decide (s = i)) as [<-|Hne].
    - by rewrite list_lookup_insert_eq by lia.
    - rewrite list_lookup_insert_ne, Hdeg by done. rewrite (Hocc i), decide_False by done. done. }
  unfold Kahn.relax; cbn [fst snd]. rewrite Hx in *. set (R' := if (_ =? _)%Z then _ else _).
  assert (HR' : exists e, R' = R ++ e /\ (e = [] \/ e = [s] /\ occ s owed' = 0) /\
    (occ s owed' = 0 -> e = [s])).
  { unfold R'. destruct (Z.eqb_spec (Z.of_nat (occ s owed')) 0).
    - exists [s]. split; [done|]. split; [right; split; [done|lia]|done].
    - exists []. rewrite app_nil_r. split; [done|]. split; [by left|lia]. }
  destruct HR' as (e & -> & He & He').
  assert (Htk : take v (R ++ e) = take v R) by (by apply take_app_le).
  split; rewrite ?Htk.
  - by rewrite length_wr.
  - unfold owed'. by rewrite length_insert.
  - done.
  - apply NoDup_app. split; [done|]. destruct He as [->|[-> _]]; split.
    + intros x _. apply not_elem_of_nil.
    + apply NoDup_nil_2.
    + by intros x HxR ->%list_elem_of_singleton.
    + apply NoDup_singleton.
  - intros i. rewrite elem_of_app, Hr. pose proof (Hocc i) as Hi.
    destruct (decide (s = i)) as [<-|Hne].
    + destruct He as [->|[-> H0]].
      * split; [intros [?|?%not_elem_of_nil]; lia|]. intros [_ H0]. by apply He' in H0.
      * rewrite list_elem_of_singleton. intuition lia.
    + rewrite Hi. destruct He as [->|[-> H0]].
      * split; [intros [?|?%not_elem_of_nil]; intuition lia|intuition lia].
      * rewrite list_elem_of_singleton. intuition (congruence || lia).
  - intros q Hq. unfold owed'. rewrite list_lookup_insert_ne by (intros <-; done). by apply Hpend.
  - intros q Hq Hne. unfold owed'. rewrite list_lookup_insert_ne by (intros <-; done). by apply Hdone.
  - intros k i q Hk Hedge. apply lookup_app_Some in Hk as [Hk|[Hge Hk]].
    + pose proof (lookup_lt_Some _ _ _ Hk). rewrite take_app_le by lia. by eapply Htopo.
    + destruct He as [->|[-> H0]]; [done|].
      apply list_lookup_singleton_Some in Hk as [Hk <-].
      rewrite take_app_le, take_ge by lia.
      destruct (decide (q ∈ take v R)) as [Hq|Hq]; [by eapply subseteq_take|].
      exfalso. destruct Hedge as (l & Hl' & Hin).
      assert (owed' !! q = Some l).
      { unfold owed'. rewrite list_lookup_insert_ne by (intros <-; done). by rewrite Hpend. }
      assert (0 < occ s owed') by (apply occ_pos; eauto). lia.
  - rewrite length_app. lia.
  - intros i. pose proof (Hocc i). pose proof (Hbd i). lia.
Qed.

(** Relaxing every edge of the visited node. *)
Lemma kahn_relax_all adj l owed v p d R :
  targets_ok adj -> (Z.of_nat (total_edges adj) < 2 ^ 32)%Z ->
  kahn_inv adj owed v (Some p) d R -> p ∈ take v R ->
  owed !! p = Some l -> Forall (fun i => i < length adj) l ->
  exists owed', kahn_inv adj owed' v None (foldl Kahn.relax (d, R) l).1 (foldl Kahn.relax (d, R) l).2.
Proof.
  intros Ht Hb. revert owed d R. induction l as [|s rest IH]; intros owed d R Hinv Hp Ho Hl; simpl.
  - exists owed. destruct Hinv. split; try done. intros q Hq _.
    destruct (decide (q = p)) as [->|Hne]; [done|]. apply ki_done0; congruence.
  - apply Forall_cons in Hl as [Hs Hl].
    pose proof (kahn_relax _ _ _ _ _ _ _ _ Ht Hb Hinv Hp Ho Hs) as Hinv'.
    destruct (Kahn.relax (d, R) s) as [d1 R1] eqn:Hrel.
    eapply IH; [exact Hinv'| | |done].
    + assert (v <= length R) by apply Hinv. unfold Kahn.relax in Hrel. case_match; simplify_eq; [|done].
      by rewrite take_app_le by done.
    + rewrite list_lookup_insert_eq; [done|]. by apply lookup_lt_Some in Ho.
Qed.

Lemma kahn_ready_bound adj owed v cur d R :
  kahn_inv adj owed v cur d R -> length R <= length adj.
Proof.
  intros Hinv. rewrite <- (length_seq (length adj) 0). apply submseteq_length, NoDup_submseteq.
  - apply Hinv.
  - intros x Hx. rewrite (ki_ready _ _ _ _ _ _ Hinv) in Hx. apply elem_of_seq. lia.
Qed.

(** With one turn per unvisited node the traversal visits all of [ready]. *)
Lemma kahn_traverse adj fuel owed v d R :
  targets_ok adj -> (Z.of_nat (total_edges adj) < 2 ^ 32)%Z ->
  kahn_inv adj owed v None d R -> length adj <= v + fuel ->
  exists owed' d' R', Kahn.traverse fuel adj v (d, R) = (length R', (d', R')) /\
    kahn_inv adj owed' (length R') None d' R'.
Proof.
  intros Ht Hb. revert owed v d R. induction fuel as [|fuel IH]; intros owed v d R Hinv Hf; simpl.
  - pose proof (kahn_ready_bound _ _ _ _ _ _ Hinv). pose proof (ki_visited _ _ _ _ _ _ Hinv).
    assert (v = length R) as -> by lia. by exists owed, d, R.
  - destruct (R !! v) as [p|] eqn:Hp; cycle 1.
    { apply lookup_ge_None in Hp. pose proof (ki_visited _ _ _ _ _ _ Hinv).
      assert (v = length R) as -> by lia. by exists owed, d, R. }
    pose proof (ki_ready _ _ _ _ _ _ Hinv p) as Hr.
    assert (Hpn : p < length adj) by (apply Hr; by eapply list_elem_of_lookup_2).
    destruct (lookup_lt_is_Some_2 adj p Hpn) as [l Hl]. rewrite Hl. simpl.
    assert (Hpv : p ∉ take v R).
    { intros (k & Hk & Hkv)%elem_of_take. pose proof (ki_nodup _ _ _ _ _ _ Hinv) as Hnd.
      pose proof (NoDup_lookup _ _ _ _ Hnd Hk Hp). lia. }
    assert (Htk : take (S v) R = take v R ++ [p]) by (by apply take_S_r).
    assert (Hinv' : kahn_inv adj owed (S v) (Some p) d R).
    { destruct Hinv. split; try done; rewrite ?Htk.
      - intros q Hq. apply ki_pending0. rewrite elem_of_app in Hq. tauto.
      - intros q [Hq|Hq%list_elem_of_singleton]%elem_of_app Hne; [|congruence]. by apply ki_done0.
      - by apply lookup_lt_Some in Hp. }
    destruct (kahn_relax_all adj l owed (S v) p d R) as [owed' Hinv2]; try done.
    + rewrite Htk, elem_of_app, list_elem_of_singleton. by right.
    + rewrite (ki_pending _ _ _ _ _ _ Hinv p Hpv). done.
    + by apply (Forall_lookup_1 _ _ _ _ Ht Hl).
    + destruct (foldl Kahn.relax (d, R) l) as [d2 R2]. eapply IH; [exact Hinv2|lia].
Qed.

Lemma kahn_run adj :
  targets_ok adj -> (Z.of_nat (total_edges adj) < 2 ^ 32)%Z ->
  exists owed d R, Kahn.run adj = (length R, (d, R)) /\ kahn_inv adj owed (length R) None d R.
Proof.
  intros Ht Hb. unfold Kahn.run. eapply kahn_traverse; [done..|by apply kahn_init|lia].
Qed.

(** *** Walking backwards in a finite graph *)

(** A backward walk: each element has an edge into the one before it. *)
Fixpoint backward (adj : list (list nat)) (i : nat) (w : list nat) : Prop :=
  match w with [] => True | p :: w => edge adj p i /\ backward adj p w end.

Lemma backward_tc adj i w k p : backward adj i w -> w !! k = Some p -> tc (edge adj) p i.
Proof.
  revert i k. induction w as [|q w IH]; intros i [|k] Hw Hk; simplify_eq/=.
  - apply tc_once, Hw.
  - destruct Hw as [He Hw]. eapply tc_r; [by eapply IH|done].
Qed.

Lemma backward_cycle adj i w j k p :
  backward adj i w -> j < k -> w !! j = Some p -> w !! k = Some p -> tc (edge adj) p p.
Proof.
  revert i j k. induction w as [|q w IH]; intros i j k Hw Hjk Hj Hk; [done|].
  destruct Hw as [He Hw], k as [|k]; [lia|]. destruct j as [|j]; simplify_eq/=.
  - by eapply backward_tc.
  - apply (IH q j k); (done || lia).
Qed.

(** If every node of a nonempty set has a predecessor in it, there is a cycle. *)
Lemma backward_closed_cycle adj (P : nat -> Prop) i :
  P i -> (forall j, P j -> j < length adj) ->
  (forall j, P j -> exists p, P p /\ edge adj p j) -> ~ acyclic adj.
Proof.
  intros Hi Hb Hpred Hac.
  assert (Hw : forall n j, P j -> exists w, length w = n /\ Forall P w /\ backward adj j w).
  { induction n as [|n IH]; intros j Hj; [by exists []|].
    destruct (Hpred j Hj) as (p & Hp & He). destruct (IH p Hp) as (w & Hl & Hf & Hw).
    exists (p :: w). simpl. split; [lia|]. split; [by constructor|done]. }
  destruct (Hw (S (length adj)) i Hi) as (w & Hl & Hf & Hbw).
  assert (Hnd : ~ NoDup w).
  { intros Hnd. assert (Hle : length w <= length (seq 0 (length adj))).
    { apply submseteq_length, NoDup_submseteq; [done|]. intros x Hx.
      rewrite Forall_forall in Hf. apply elem_of_seq. specialize (Hb x (Hf x Hx)). lia. }
    rewrite length_seq in Hle. lia. }
  apply Hnd, NoDup_alt. intros j k p Hj Hk.
  destruct (decide (j = k)) as [|Hne]; [done|]. exfalso.
  destruct (decide (j < k)); [eapply Hac, (backward_cycle adj i w j k p)|
    eapply Hac, (backward_cycle adj i w k j p)]; (done || lia).
Qed.

Lemma edge_bound adj p i : targets_ok adj -> edge adj p i -> p < length adj /\ i < length adj.
Proof.
  intros Ht (l & Hl & Hi). split; [by apply lookup_lt_Some in Hl|].
  pose proof (Forall_lookup_1 _ _ _ _ Ht Hl) as Hf. rewrite Forall_forall in Hf. by apply Hf.
Qed.

(** Kahn's traversal visits every node exactly when the graph has no cycle,
    and then in a topological order. *)
Lemma kahn_complete adj :
  targets_ok adj -> (Z.of_nat (total_edges adj) < 2 ^ 32)%Z -> acyclic adj ->
  (Kahn.run adj).1 = length adj.
Proof.
  intros Ht Hb Hac. destruct (kahn_run adj Ht Hb) as (owed & d & R & Hrun & Hinv).
  rewrite Hrun. simpl. pose proof (kahn_ready_bound _ _ _ _ _ _ Hinv).
  destruct (decide (length R = length adj)) as [|Hne]; [done|exfalso].
  assert (Hex : exists i, i < length adj /\ i ∉ R).
  { destruct (decide (Forall (fun i => i ∈ R) (seq 0 (length adj)))) as [Hall|Hn].
    - assert (Hle : length (seq 0 (length adj)) <= length R).
      { apply submseteq_length, NoDup_submseteq; [apply NoDup_seq|]. by rewrite Forall_forall in Hall. }
      rewrite length_seq in Hle. lia.
    - apply not_Forall_Exists in Hn; [|intros ?; apply _].
      apply Exists_exists in Hn as (i & Hi%elem_of_seq & Hn). exists i. split; [lia|done]. }
  destruct Hex as (i & Hi & HiR).
  apply (backward_closed_cycle adj (fun j => j < length adj /\ j ∉ R) i); [done|by intros j []| |done].
  intros j [Hj HjR]. pose proof (ki_ready _ _ _ _ _ _ Hinv j) as Hr.
  assert (Hpos : 0 < occ j owed) by (destruct (decide (occ j owed = 0)); intuition lia).
  apply occ_pos in Hpos as (p & l & Hp & Hin).
  assert (HpR : p ∉ R).
  { intros HpR. rewrite (ki_done _ _ _ _ _ _ Hinv) in Hp; [|by rewrite take_ge by lia|done].
    simplify_eq. by apply not_elem_of_nil in Hin. }
  assert (Hadj : adj !! p = Some l).
  { rewrite <- (ki_pending _ _ _ _ _ _ Hinv p); [done|]. by rewrite take_ge by lia. }
  exists p. split; [|by exists l]. split; [by apply lookup_lt_Some in Hadj|done].
Qed.

Lemma kahn_sound adj :
  targets_ok adj -> (Z.of_nat (total_edges adj) < 2 ^ 32)%Z ->
  (Kahn.run adj).1 = length adj ->
  exists R, Permutation R (seq 0 (length adj)) /\
    (forall k i p, R !! k = Some i -> edge adj p i -> p ∈ take k R).
Proof.
  intros Ht Hb Heq. destruct (kahn_run adj Ht Hb) as (owed & d & R & Hrun & Hinv).
  rewrite Hrun in Heq. simpl in Heq. exists R. split; [|apply Hinv].
  apply submseteq_length_Permutation; [|rewrite length_seq; lia].
  apply NoDup_submseteq; [apply Hinv|]. intros x Hx.
  rewrite (ki_ready _ _ _ _ _ _ Hinv) in Hx. apply elem_of_seq. lia.
Qed.

Lemma topological_acyclic adj R :
  targets_ok adj -> Permutation R (seq 0 (length adj)) ->
  (forall k i p, R !! k = Some i -> edge adj p i -> p ∈ take k R) -> acyclic adj.
Proof.
  intros Ht HR Htopo.
  assert (Hpos : forall p i, tc (edge adj) p i -> forall k, R !! k = Some i ->
    exists j, R !! j = Some p /\ j < k).
  { induction 1 as [p i He|p q i He Htc IH]; intros k Hk.
    - apply Htopo with (p := p) in Hk as (j & ? & ?)%elem_of_take; [by exists j|done].
    - destruct (IH k Hk) as (j & Hj & Hjk).
      apply Htopo with (p := p) in Hj as (j' & ? & ?)%elem_of_take; [|done]. exists j'. split; [done|lia]. }
  intros i Hc. assert (Hi : i ∈ R).
  { rewrite HR. apply elem_of_seq.
    assert (exists q, edge adj i q) as [q Hq] by (inversion Hc; eauto).
    apply edge_bound in Hq; [lia|done]. }
  apply list_elem_of_lookup in Hi as [k Hk]. destruct (Hpos i i Hc k Hk) as (j & Hj & Hjk).
  assert (HndR : NoDup R) by (rewrite HR; apply NoDup_seq).
  pose proof (NoDup_lookup _ _ _ _ HndR Hj Hk). lia.
Qed.

(** Induction along the edges of an acyclic graph. *)
Lemma acyclic_ind adj (P : nat -> Prop) :
  targets_ok adj -> (Z.of_nat (total_edges adj) < 2 ^ 32)%Z -> acyclic adj ->
  (forall i, i < length adj -> (forall p, edge adj p i -> P p) -> P i) ->
  forall i, i < length adj -> P i.
Proof.
  intros Ht Hb Hac IH. destruct (kahn_sound adj Ht Hb (kahn_complete adj Ht Hb Hac)) as (R & HR & Htopo).
  assert (H : forall m k i, k < m -> R !! k = Some i -> P i).
  { induction m as [|m IHm]; [lia|]. intros k i Hk Hi. apply IH.
    - assert (Hin : i ∈ R) by (by eapply list_elem_of_lookup_2). rewrite HR in Hin.
      apply elem_of_seq in Hin. lia.
    - intros p Hp. pose proof (Htopo k i p Hi Hp) as (j & Hj & Hjk)%elem_of_take.
      apply (IHm j); [lia|done]. }
  intros i Hi. assert (Hin : i ∈ R) by (rewrite HR; apply elem_of_seq; lia).
  apply list_elem_of_lookup in Hin as [k Hk]. apply (H (S k) k); [lia|done].
Qed.
