(* ===== verification/Graph.v ===== *)
(** Validation and the root cache of a pipeline, and the invariant that the
    graph-building operations keep (src/sub0pipeline.cpp). *)
From S2P Require Import Prelude Types EdgeLists SuccessorPool Nodes Kahn.

Definition validate (m : Impl) : Outcome :=
  let n := length (nodes_ m) in
  let visited := (Kahn.run (adjacency m)).1 in
  if negb (u32 (Z.of_nat visited) =? u32 (Z.of_nat n))
  then Unexpected kCyclicDependency else success.

(** The part of [runImpl] that refreshes the root cache: validation, then the
    nodes without predecessors that are not on demand, in node order. *)
Definition isRoot (nd : Node) : bool := (predecessorCount_ nd =? 0) && negb (isOnDemand nd).
Definition isRootAt (m : Impl) (i : nat) : bool :=
  match nodes_ m !! i with Some nd => isRoot nd | None => false end.
Definition computeRoots (m : Impl) : list nat :=
  base.filter (fun i => isRootAt m i = true) (seq 0 (length (nodes_ m))).
Definition refreshRoots (m : Impl) : expected Impl PipelineError :=
  if rootsCached_ m then Expected m
  else match validate m with
       | Unexpected e => Unexpected e
       | Expected _ => Expected (set_rootsCached true (set_roots (computeRoots m) m))
       end.

(** ** Well-formed implementations *)

Record graph_ok (m : Impl) : Prop := {
  go_count : zlen (nodes_ m) <= 65536;
  go_arena : arena_ok (successors_ <$> nodes_ m) (succPool_ m);
  go_targets : targets_ok (adjacency m);
  go_preds : forall i nd, nodes_ m !! i = Some nd ->
    predecessorCount_ nd = Z.of_nat (occ i (adjacency m));
}.

(** What the cached roots promise: the graph they were computed from is the
    current one, and it was valid. *)
Definition roots_ok (m : Impl) : Prop :=
  rootsCached_ m = true -> validate m = success /\ roots_ m = computeRoots m.

(** Every node has a stop state of its own. *)
Record stops_ok (m : Impl) : Prop := {
  so_bound : forall i nd, nodes_ m !! i = Some nd -> (stopSource_ nd < length (stopStates m))%nat;
  so_inj : forall i j a b, nodes_ m !! i = Some a -> nodes_ m !! j = Some b ->
    stopSource_ a = stopSource_ b -> i = j;
}.

Definition impl_ok (m : Impl) : Prop := graph_ok m /\ roots_ok m /\ stops_ok m.

Lemma length_adjacency m : length (adjacency m) = length (nodes_ m).
Proof. apply length_fmap. Qed.

Lemma adjacency_lookup m i :
  adjacency m !! i = succ_ids m <$> nodes_ m !! i.
Proof. apply list_lookup_fmap. Qed.

Lemma length_range pool s : list_ok pool s -> Z.of_nat (length (Succ.range s pool)) = Succ.count s.
Proof.
  intros (Hl & n & [H|H]).
  - destruct (inline_mode_read _ _ H) as [-> _]. rewrite (range_inline _ _ _ H), length_take.
    destruct H as [H _]. unfold kInlineCap in H. lia.
  - pose proof (pool_mode_read _ _ _ H) as (Hn & -> & _). rewrite (range_pool _ _ _ H).
    destruct H as (_ & _ & _ & Hle & H0 & Hin). unfold entries, kCountMask in *.
    rewrite length_slice by (unfold zlen in *; lia). lia.
Qed.

Lemma count_le pool s : list_ok pool s -> Succ.count s <= kCountMask.
Proof.
  intros (_ & n & [H|H]).
  - destruct (inline_mode_read _ _ H) as [-> _]. destruct H as [H _].
    unfold kInlineCap, kCountMask in *. lia.
  - pose proof (pool_mode_read _ _ _ H) as (Hn & -> & _). lia.
Qed.

(** No counter of edges can overflow 32 bits. *)
Lemma graph_edges_bound m : graph_ok m -> Z.of_nat (total_edges (adjacency m)) <= 2 ^ 31.
Proof.
  intros [Hn Ha _ _]. assert (H : Forall (fun l => Z.of_nat (length l) <= 32767) (adjacency m)).
  { unfold adjacency. rewrite Forall_fmap. apply Forall_forall. intros nd Hnd. simpl.
    unfold succ_ids. rewrite length_fmap. pose proof (arena_lists _ _ Ha) as Hl.
    rewrite Forall_fmap, Forall_forall in Hl. specialize (Hl nd Hnd). simpl in Hl.
    pose proof (length_range _ _ Hl). pose proof (count_le _ _ Hl). unfold kCountMask in *. lia. }
  apply total_edges_bound in H. unfold zlen in *. rewrite length_adjacency in H. lia.
Qed.

Lemma validate_iff m : graph_ok m -> (validate m = success <-> acyclic (adjacency m)).
Proof.
  intros Hok. pose proof (graph_edges_bound m Hok) as Hb'. pose proof (go_targets _ Hok) as Ht.
  assert (Hb : Z.of_nat (total_edges (adjacency m)) < 2 ^ 32) by lia.
  pose proof (go_count _ Hok) as Hc. unfold zlen in Hc. unfold validate.
  destruct (kahn_run _ Ht Hb) as (owed & d & R & Hrun & Hinv).
  pose proof (kahn_ready_bound _ _ _ _ _ _ Hinv) as HR. rewrite length_adjacency in HR.
  assert (Hv : (Kahn.run (adjacency m)).1 = length R) by (by rewrite Hrun).
  rewrite Hv, !u32_small by (unfold is_u32; lia). split.
  - destruct (Z.eqb_spec (Z.of_nat (length R)) (Z.of_nat (length (nodes_ m)))) as [He|]; [|done].
    intros _. destruct (kahn_sound _ Ht Hb) as (R' & HR' & Htopo).
    { rewrite Hv, length_adjacency. lia. }
    by eapply topological_acyclic.
  - intros Hac. pose proof (kahn_complete _ Ht Hb Hac) as He. rewrite Hv, length_adjacency in He.
    by rewrite He, Z.eqb_refl.
Qed.

(** *** Invariants of the building operations *)

Lemma nat_of_u16 i : Z.of_nat i < 65536 -> Z.to_nat (u16 (Z.of_nat i)) = i.
Proof. intros H. rewrite u16_small by (unfold is_u16; lia). lia. Qed.

Lemma charges_app ss tt : charges (ss ++ tt) = charges ss + charges tt.
Proof. induction ss; simpl; lia. Qed.

Lemma list_ok_empty pool : list_ok pool PoolSuccessors_empty.
Proof. split; [done|]. exists 0. left. split; [unfold kInlineCap; lia|done]. Qed.

Lemma arena_snoc ss pool :
  arena_ok ss pool -> arena_ok (ss ++ [PoolSuccessors_empty]) pool.
Proof.
  intros [Hl Hd Hs]. split.
  - apply Forall_app. split; [done|]. apply Forall_singleton, list_ok_empty.
  - intros i j s t Hij Hi Hj Hps Hpt.
    apply lookup_app_Some in Hi as [Hi|[_ Hi]]; cycle 1.
    { by apply list_lookup_singleton_Some in Hi as [_ <-]. }
    apply lookup_app_Some in Hj as [Hj|[_ Hj]]; cycle 1.
    { by apply list_lookup_singleton_Some in Hj as [_ <-]. }
    by apply (Hd i j).
  - rewrite charges_app. change (charges [PoolSuccessors_empty]) with 0. lia.
Qed.

Lemma occ_snoc_nil i ll : occ i (ll ++ [[]]) = occ i ll.
Proof. rewrite occ_app. simpl. lia. Qed.

Lemma targets_ok_snoc adj : targets_ok adj -> targets_ok (adj ++ [[]]).
Proof.
  intros H. apply Forall_app. split; [|by repeat constructor].
  eapply Forall_impl; [exact H|]. intros l Hl. eapply Forall_impl; [exact Hl|].
  intros i Hi. rewrite length_app. simpl in *. lia.
Qed.

Lemma occ_out_of_range adj i : targets_ok adj -> (length adj <= i)%nat -> occ i adj = 0%nat.
Proof.
  intros Ht Hi. apply occ_nil_all. intros p l Hl Hin.
  pose proof (Forall_lookup_1 _ _ _ _ Ht Hl) as Hf. rewrite Forall_forall in Hf.
  specialize (Hf i Hin). simpl in Hf. lia.
Qed.

(** A node appended without edges. *)
Definition append_node (nd : Node) (m : Impl) : Impl :=
  set_rootsCached false (set_stopStates (stopStates m ++ [false]) (set_nodes (nodes_ m ++ [nd]) m)).

Lemma adjacency_append nd m :
  successors_ nd = PoolSuccessors_empty -> adjacency (append_node nd m) = adjacency m ++ [[]].
Proof.
  intros Hs. unfold adjacency. simpl. rewrite fmap_app. f_equal. simpl.
  unfold succ_ids at 1. by rewrite Hs.
Qed.

Lemma append_node_ok nd m :
  impl_ok m -> zlen (nodes_ m) < 65536 ->
  successors_ nd = PoolSuccessors_empty -> predecessorCount_ nd = 0 ->
  stopSource_ nd = length (stopStates m) -> impl_ok (append_node nd m).
Proof.
  intros ([Hc Ha Ht Hp] & _ & [Hb Hi]) Hlt Hs Hpc Hst. split; [|split; [done|]].
  - split; simpl.
    + unfold zlen in *. rewrite length_app. simpl. lia.
    + rewrite fmap_app. simpl. rewrite Hs. by apply arena_snoc.
    + rewrite adjacency_append by done. by apply targets_ok_snoc.
    + intros i n Hn. rewrite adjacency_append, occ_snoc_nil by done.
      apply lookup_app_Some in Hn as [Hn|[Hge Hn]]; [by apply Hp|].
      apply list_lookup_singleton_Some in Hn as [Hn <-].
      rewrite Hpc, occ_out_of_range; [done..|]. rewrite length_adjacency. lia.
  - split; simpl.
    + intros i n Hn. rewrite length_app. simpl.
      apply lookup_app_Some in Hn as [Hn%Hb|[_ Hn]]; [lia|].
      apply list_lookup_singleton_Some in Hn as [_ <-]. lia.
    + intros i j a b Hna Hnb Hab.
      apply lookup_app_Some in Hna as [Hna|[Hia Hna]], Hnb as [Hnb|[Hib Hnb]].
      * by eapply Hi.
      * apply list_lookup_singleton_Some in Hnb as [_ <-]. apply Hb in Hna. lia.
      * apply list_lookup_singleton_Some in Hna as [_ <-]. apply Hb in Hnb. lia.
      * apply list_lookup_singleton_Some in Hna as [? _], Hnb as [? _]. lia.
Qed.

Lemma addNode_spec fn prefix flags m :
  impl_ok m ->
  match addNode fn prefix flags m with
  | Return m' idx => impl_ok m' /\ idx = length (nodes_ m) /\
      adjacency m' = adjacency m ++ [[]] /\
      exists nd, nodes_ m' = nodes_ m ++ [nd] /\ fn_ nd = fn /\ flags_ nd = flags /\
        nameStr_ nd = (prefix ++ pretty.pretty idx)%string
  | Throw m' _ => m' = m /\ zlen (nodes_ m) = 65536
  | Undefined => False
  end.
Proof.
  intros Hok. pose proof (go_count _ (proj1 Hok)) as Hc.
  unfold addNode, ensureNodeIndexFitsSuccessorStorage.
  destruct (Z.leb_spec (zlen (nodes_ m)) (2 ^ 16 - 1)); cbn [negb]; [|split; [done|lia]].
  match goal with |- context [nodes_ m ++ [?n]] => set (nd := n) end.
  change (impl_ok (append_node nd m) /\ length (nodes_ m) = length (nodes_ m) /\
    adjacency (append_node nd m) = adjacency m ++ [[]] /\
    exists nd', nodes_ m ++ [nd] = nodes_ m ++ [nd'] /\ fn_ nd' = fn /\ flags_ nd' = flags /\
      nameStr_ nd' = (prefix ++ pretty.pretty (length (nodes_ m)))%string).
  split; [apply append_node_ok; (done || lia)|]. split; [done|].
  split; [by apply adjacency_append|]. by exists nd.
Qed.

(** Updates that touch neither the edges, nor the root set, nor the stop state. *)
Record benign (f : Node -> Node) : Prop := {
  bn_succ : forall nd, successors_ (f nd) = successors_ nd;
  bn_pred : forall nd, predecessorCount_ (f nd) = predecessorCount_ nd;
  bn_stop : forall nd, stopSource_ (f nd) = stopSource_ nd;
  bn_demand : forall nd, isOnDemand (f nd) = isOnDemand nd;
}.

Lemma alter_fmap_id {A B} (g : A -> B) f i (l : list A) :
  (forall x, g (f x) = g x) -> g <$> alter f i l = g <$> l.
Proof.
  intros Hg. apply list_eq. intros j. rewrite !list_lookup_fmap.
  destruct (decide (i = j)) as [<-|].
  - rewrite list_lookup_alter_eq. destruct (l !! i); simpl; [by rewrite Hg|done].
  - by rewrite list_lookup_alter_ne.
Qed.

Lemma list_alter_Some {A} (f : A -> A) i j (l : list A) y :
  alter f i l !! j = Some y -> exists x, l !! j = Some x /\ y = if decide (i = j) then f x else x.
Proof.
  destruct (decide (i = j)) as [<-|].
  - rewrite list_lookup_alter_eq. intros (x & ? & ?)%fmap_Some. by exists x.
  - rewrite list_lookup_alter_ne by done. by exists y.
Qed.

Lemma adjacency_benign f i m : benign f -> adjacency (alter_node f i m) = adjacency m.
Proof.
  intros [Hs _ _ _]. unfold adjacency, alter_node. simpl.
  apply alter_fmap_id. intros nd. unfold succ_ids. simpl. by rewrite Hs.
Qed.

Lemma isRootAt_benign f i j m : benign f -> isRootAt (alter_node f i m) j = isRootAt m j.
Proof.
  intros [_ Hp _ Hd]. unfold isRootAt, alter_node. simpl.
  destruct (decide (i = j)) as [<-|]; [|by rewrite list_lookup_alter_ne].
  rewrite list_lookup_alter_eq. destruct (nodes_ m !! i); simpl; [|done].
  unfold isRoot. by rewrite Hp, Hd.
Qed.

Lemma alter_node_benign f i m : benign f -> impl_ok m -> impl_ok (alter_node f i m).
Proof.
  intros Hf ([Hc Ha Ht Hp] & Hr & [Hb Hi]).
  assert (Hadj : adjacency (alter_node f i m) = adjacency m) by (by apply adjacency_benign).
  pose proof Hf as [Fs Fp Fst _].
  assert (Hlen : length (nodes_ (alter_node f i m)) = length (nodes_ m)) by apply length_alter.
  split; [|split].
  - split.
    + unfold zlen in *. by rewrite Hlen.
    + simpl. by rewrite alter_fmap_id.
    + by rewrite Hadj.
    + simpl. intros j nd (x & Hx & ->)%list_alter_Some. rewrite Hadj, <- (Hp j x Hx).
      case_decide; [apply Fp|done].
  - intros Hcached. destruct (Hr Hcached) as [Hv Hroots]. split.
    + unfold validate in *. by rewrite Hlen, Hadj.
    + simpl. rewrite Hroots. unfold computeRoots. rewrite Hlen.
      apply list_filter_iff. intros j. by rewrite isRootAt_benign.
  - split; simpl.
    + intros j nd (x & Hx & ->)%list_alter_Some. case_decide; [rewrite Fst|]; by eapply Hb.
    + intros j k a b (x & Hx & ->)%list_alter_Some (y & Hy & ->)%list_alter_Some Hab.
      apply (Hi j k x y Hx Hy). revert Hab. repeat case_decide; by rewrite ?Fst.
Qed.

(** Appending [to] to [from]'s list in an arena, read as adjacency lists. *)
Lemma adjacency_push m from to fromNode s pool :
  nodes_ m !! from = Some fromNode -> Z.of_nat to < 65536 ->
  Succ.range s pool = Succ.range (successors_ fromNode) (succPool_ m) ++ [u16 (Z.of_nat to)] ->
  (forall j t, j <> from -> (successors_ <$> nodes_ m) !! j = Some t ->
     Succ.range t pool = Succ.range t (succPool_ m)) ->
  adjacency (set_succPool pool (alter_node (set_successors s) from m)) =
    alter (fun l => l ++ [to]) from (adjacency m).
Proof.
  intros Hf Hto Hr Hfr. apply list_eq. intros j. rewrite adjacency_lookup.
  unfold alter_node. cbn [nodes_ set_succPool set_nodes].
  destruct (decide (from = j)) as [<-|Hne].
  - rewrite !list_lookup_alter_eq, adjacency_lookup, Hf. simpl. f_equal.
    unfold succ_ids. simpl. rewrite Hr, fmap_app. simpl. by rewrite nat_of_u16.
  - rewrite !list_lookup_alter_ne, adjacency_lookup by done.
    destruct (nodes_ m !! j) as [nd|] eqn:Hj; [|done]. simpl. f_equal. unfold succ_ids. simpl. f_equal.
    apply (Hfr j); [done|]. by rewrite list_lookup_fmap, Hj.
Qed.

Lemma successors_alter s (from : nat) (nds : list Node) :
  successors_ <$> alter (set_successors s) from nds = alter (fun _ => s) from (successors_ <$> nds).
Proof.
  apply list_eq. intros j. rewrite list_lookup_fmap. destruct (decide (from = j)) as [<-|].
  - rewrite !list_lookup_alter_eq, list_lookup_fmap. by destruct (nds !! from).
  - by rewrite !list_lookup_alter_ne, list_lookup_fmap.
Qed.

Lemma alter_const_insert {A} (l : list A) i x : alter (fun _ => x) i l = <[i := x]> l.
Proof.
  apply list_eq. intros j. destruct (decide (i = j)) as [<-|].
  - rewrite list_lookup_alter_eq. destruct (l !! i) eqn:E; simpl.
    + symmetry. apply list_lookup_insert_eq. by apply lookup_lt_Some in E.
    + symmetry. apply lookup_ge_None. rewrite length_insert. by apply lookup_ge_None.
  - by rewrite list_lookup_alter_ne, list_lookup_insert_ne.
Qed.

Lemma targets_ok_push adj from to :
  targets_ok adj -> (to < length adj)%nat -> targets_ok (alter (fun l => l ++ [to]) from adj).
Proof.
  intros Ht Hto. unfold targets_ok. rewrite length_alter. apply Forall_lookup.
  intros j l (k & Hk & ->)%list_alter_Some.
  pose proof (Forall_lookup_1 _ _ _ _ Ht Hk) as Hf. case_decide; [|done].
  apply Forall_app. split; [done|]. by apply Forall_singleton.
Qed.

(** The result of recording and counting the edge [from -> to]. *)
Lemma edge_added_ok m from to fromNode s pool (bump : Node -> Node) :
  impl_ok m -> nodes_ m !! from = Some fromNode -> (to < length (nodes_ m))%nat ->
  arena_ok (<[from := s]> (successors_ <$> nodes_ m)) pool ->
  Succ.range s pool = Succ.range (successors_ fromNode) (succPool_ m) ++ [u16 (Z.of_nat to)] ->
  (forall j t, j <> from -> (successors_ <$> nodes_ m) !! j = Some t ->
     Succ.range t pool = Succ.range t (succPool_ m)) ->
  bump = (fun nd => set_predecessorCount (u32 (predecessorCount_ nd + 1)) nd) ->
  let m' := alter_node bump to (set_succPool pool (alter_node (set_successors s) from
              (set_rootsCached false m))) in
  impl_ok m' /\ adjacency m' = alter (fun l => l ++ [to]) from (adjacency m).
Proof.
  intros ([Hc Ha Ht Hp] & _ & [Hb Hi]) Hf Hto Har Hr Hfr ->. cbv zeta.
  set (bump := fun nd => _). set (m1 := set_succPool pool _). set (m' := alter_node bump to m1).
  assert (Hto' : Z.of_nat to < 65536) by (unfold zlen in Hc; lia).
  assert (Hadj1 : adjacency m1 = alter (fun l => l ++ [to]) from (adjacency m))
    by (by eapply (adjacency_push (set_rootsCached false m))).
  assert (Hadj : adjacency m' = adjacency m1) by (apply alter_fmap_id; done).
  assert (Hlen : length (nodes_ m') = length (nodes_ m)) by (simpl; by rewrite !length_alter).
  assert (Hadjf : adjacency m !! from = Some (succ_ids m fromNode)) by (by rewrite adjacency_lookup, Hf).
  assert (Hok' : graph_ok m').
  { split.
    - unfold zlen in *. by rewrite Hlen.
    - simpl. rewrite (alter_fmap_id successors_) by done.
      by rewrite successors_alter, alter_const_insert.
    - rewrite Hadj, Hadj1. apply targets_ok_push; [done|]. by rewrite length_adjacency.
    - intros j nd (x & (y & Hy & ->)%list_alter_Some & ->)%list_alter_Some.
      rewrite Hadj, Hadj1, (occ_snoc _ _ _ _ _ Hadjf).
      assert (Hpy : predecessorCount_ y = Z.of_nat (occ j (adjacency m))) by (by apply Hp).
      assert (Hbound : Z.of_nat (occ j (adjacency m)) + 1 < 2 ^ 32).
      { pose proof (graph_edges_bound m (Build_graph_ok _ Hc Ha Ht Hp)).
        pose proof (occ_le_total j (adjacency m)). lia. }
      repeat case_decide; subst; simpl; rewrite ?Hpy, ?u32_small by (unfold is_u32; lia); try done; lia. }
  split; [|by rewrite Hadj].
  split; [done|]. split; [done|]. split.
  - intros j nd (x & (y & Hy & ->)%list_alter_Some & ->)%list_alter_Some.
    simpl. specialize (Hb j y Hy). by repeat case_decide.
  - intros j k a b (x & (x' & Hx & ->)%list_alter_Some & ->)%list_alter_Some
      (y & (y' & Hy & ->)%list_alter_Some & ->)%list_alter_Some Hab.
    apply (Hi j k x' y' Hx Hy). revert Hab. by repeat case_decide.
Qed.

(** The whole edge operation: recorded and counted, or refused unchanged. *)
Lemma addEdge_ok m from to :
  impl_ok m -> (from < length (nodes_ m))%nat -> (to < length (nodes_ m))%nat ->
  match addEdge from to m with
  | Return m' _ => impl_ok m' /\ rootsCached_ m' = false /\
      adjacency m' = alter (fun l => l ++ [to]) from (adjacency m)
  | Throw m' _ => m' = set_rootsCached false m /\
      length (default [] (adjacency m !! from)) = Z.to_nat kCountMask
  | Undefined => False
  end.
Proof.
  intros Hok Hfrom Hto. pose proof Hok as ([Hc Ha Ht Hp] & _ & _). unfold addEdge.
  destruct (lookup_lt_is_Some_2 _ _ Hfrom) as [fromNode Hf].
  destruct (lookup_lt_is_Some_2 _ _ Hto) as [toNode Hton]. rewrite Hf, Hton.
  assert (Hs : (successors_ <$> nodes_ m) !! from = Some (successors_ fromNode))
    by (by rewrite list_lookup_fmap, Hf).
  assert (Hc' : zlen (successors_ <$> nodes_ m) <= 65536) by (unfold zlen in *; by rewrite length_fmap).
  pose proof (push_back_arena _ _ _ _ (u16 (Z.of_nat to)) Ha Hc' Hs) as Hpush.
  cbn [succPool_ set_rootsCached].
  destruct (Succ.push_back _ _ _) as [[s pool] u|[s pool] msg|]; [| |done].
  - destruct Hpush as (_ & Har & Hr & Hfr).
    destruct (edge_added_ok m from to fromNode s pool _ Hok Hf Hto Har Hr Hfr eq_refl) as [Hok' Hadj].
    split; [exact Hok'|]. split; [done|exact Hadj].
  - destruct Hpush as [[= -> ->] Hcount]. split.
    + unfold set_succPool, alter_node, set_nodes, set_rootsCached; simpl. f_equal.
      apply list_eq. intros j. destruct (decide (from = j)) as [<-|].
      * rewrite list_lookup_alter_eq, Hf. by destruct fromNode.
      * by rewrite list_lookup_alter_ne.
    + rewrite adjacency_lookup, Hf. simpl. unfold succ_ids. rewrite length_fmap.
      pose proof (arena_lists _ _ Ha) as Hl. pose proof (Forall_lookup_1 _ _ _ _ Hl Hs) as Hlo.
      pose proof (length_range _ _ Hlo). lia.
Qed.

Lemma set_rootsCached_false_ok m : impl_ok m -> impl_ok (set_rootsCached false m).
Proof. intros (Hg & Hr & Hs). split; [by destruct Hg|]. split; [done|by destruct Hs]. Qed.

Lemma impl_new_ok : impl_ok Impl_new.
Proof.
  split; [|split; [done|by split]]. split; [done| |by apply Forall_nil_2|done].
  split; [by apply Forall_nil_2|done|done].
Qed.
