(* ===== verification/Pipeline.v ===== *)
(** Pipeline objects, job handles, graph construction through them, and the
    status queries (include/sub0pipeline/job.hpp, job_group.hpp, pipeline.hpp and
    their definitions in src/sub0pipeline.cpp). *)
From stdpp Require Import pretty.
From S2P Require Import Prelude Types EdgeLists SuccessorPool Nodes Kahn Graph.

(** ** Objects and handles

    A [Pipeline] object holds a pointer to its [Impl], which names the object
    in its [owner] field; a [Job] holds a pointer to the [Impl] (its anchor),
    which does not move when the object is moved. *)

Record Cell := { owner : option nat; impl : Impl }.

Record World := {
  heap : gmap nat Cell;             (* live Impl objects by address *)
  objects : gmap nat (option nat);  (* Pipeline objects by address: impl_ *)
  next_address : nat;
}.

Definition set_heap (h : gmap nat Cell) (w : World) : World :=
  {| heap := h; objects := objects w; next_address := next_address w |}.
Definition set_objects (o : gmap nat (option nat)) (w : World) : World :=
  {| heap := heap w; objects := o; next_address := next_address w |}.

Definition cInvalid : Z := 2 ^ 32 - 1.

Record Job := { idx_ : Z; anchor_ : option nat }.

#[export] Instance Job_eq_dec : EqDecision Job.
Proof. solve_decision. Defined.

Definition Job_default : Job := {| idx_ := cInvalid; anchor_ := None |}.
Definition valid (j : Job) : bool := negb (idx_ j =? cInvalid).
Definition job_eqb (a b : Job) : bool := bool_decide (idx_ a = idx_ b) && bool_decide (anchor_ a = anchor_ b).
Definition id (j : Job) : Z := idx_ j.

(** [Job::pipeline()]: the outer option is [None] when the anchor dangles. *)
Definition pipeline (w : World) (j : Job) : option (option nat) :=
  match anchor_ j with
  | None => Some None
  | Some a => owner <$> heap w !! a
  end.

(** The [impl_] pointer of a Pipeline object. *)
Definition impl_ptr (w : World) (p : nat) : option nat := mjoin (objects w !! p).

(** [impl_] followed to the object it points at. *)
Definition impl_of (w : World) (p : nat) : option (nat * Impl) :=
  a ← impl_ptr w p; c ← heap w !! a; Some (a, impl c).

Definition put_impl (w : World) (a : nat) (m : Impl) : World :=
  set_heap (alter (fun c => {| owner := owner c; impl := m |}) a (heap w)) w.

(** Runs an operation on the [Impl] at [a]. *)
Definition on_impl {A} (w : World) (a : nat) (m : Impl) (f : Impl -> exec Impl A) : exec World A :=
  match f m with
  | Return m' x => Return (put_impl w a m') x
  | Throw m' msg => Throw (put_impl w a m') msg
  | Undefined => Undefined
  end.

(** [if (pipeline() && valid()) ... pipeline()->node(idx_) ...] *)
Definition with_node {A} (w : World) (j : Job) (dflt : A) (f : Impl -> nat -> Node -> exec Impl A)
  : exec World A :=
  match pipeline w j with
  | None => Undefined
  | Some None => Return w dflt
  | Some (Some p) =>
      if negb (valid j) then Return w dflt
      else match impl_of w p with
           | None => Undefined
           | Some (a, m) =>
               match nodes_ m !! Z.to_nat (idx_ j) with
               | None => Undefined
               | Some nd => on_impl w a m (fun m => f m (Z.to_nat (idx_ j)) nd)
               end
           end
  end.

Definition update_job (f : Node -> Node) (w : World) (j : Job) : exec World unit :=
  with_node w j tt (fun m i _ => Return (alter_node f i m) tt).

(** ** Builder methods of [Job] *)
Definition Job_name (n : string) := update_job (set_nameStr n).
Definition Job_timeout (t : Z) := update_job (set_timeout t).
Definition Job_stack (bytes : Z) := update_job (set_stackBytes bytes).
Definition Job_core (c : Z) := update_job (set_coreAffinity c).
Definition Job_priority (p : Z) := update_job (set_priority p).
Definition Job_optional (opt : bool) := update_job (fun nd =>
  set_flags (if opt then u8 (Z.lor (flags_ nd) kFlagOptional)
             else Z.land (flags_ nd) (u8 (Z.lnot kFlagOptional))) nd).
Definition Job_statusText (text : option string) := update_job (set_statusText text).

(** [Job::cancel]: requests stop on the node's shared stop state. *)
Definition request_stop (k : nat) (m : Impl) : Impl := set_stopStates (<[k := true]> (stopStates m)) m.
Definition Job_cancel (w : World) (j : Job) : exec World unit :=
  with_node w j tt (fun m _ nd => Return (request_stop (stopSource_ nd) m) tt).

(** [Job::succeed(Job)] and [Job::precede(Job)]: both nodes are looked up in
    this job's pipeline, whatever pipeline [other] belongs to. *)
Definition Job_succeed (w : World) (self other : Job) : exec World unit :=
  if negb (valid other) then
    match pipeline w self with None => Undefined | Some _ => Return w tt end
  else with_node w self tt (fun m i _ => addEdge (Z.to_nat (idx_ other)) i m).
Definition Job_precede (w : World) (self other : Job) : exec World unit :=
  if negb (valid other) then
    match pipeline w self with None => Undefined | Some _ => Return w tt end
  else with_node w self tt (fun m i _ => addEdge i (Z.to_nat (idx_ other)) m).

(** The variadic overloads, and the overloads on a group. *)
Definition Job_succeed_all (w : World) (self : Job) (others : list Job) : exec World unit :=
  exec_for others (fun w o => Job_succeed w self o) w.
Definition Job_precede_all (w : World) (self : Job) (others : list Job) : exec World unit :=
  exec_for others (fun w o => Job_precede w self o) w.

(** ** [JobGroup] *)
Record JobGroup := { jobs_ : list Job }.
Definition JobGroup_empty : JobGroup := {| jobs_ := [] |}.
Definition JobGroup_pair (first second : Job) : JobGroup := {| jobs_ := [first; second] |}.
Definition JobGroup_add (g : JobGroup) (j : Job) : JobGroup := {| jobs_ := jobs_ g ++ [j] |}.
Definition parallel (l : list Job) : JobGroup := foldl JobGroup_add JobGroup_empty l.

Definition Job_succeed_group (w : World) (self : Job) (g : JobGroup) : exec World unit :=
  exec_for (jobs_ g) (fun w j => Job_succeed w self j) w.
Definition Job_precede_group (w : World) (self : Job) (g : JobGroup) : exec World unit :=
  exec_for (jobs_ g) (fun w j => Job_precede w self j) w.

Definition JobGroup_succeed (w : World) (g : JobGroup) (other : Job) : exec World unit :=
  exec_for (jobs_ g) (fun w j => Job_succeed w j other) w.
Definition JobGroup_succeed_group (w : World) (g other : JobGroup) : exec World unit :=
  exec_for (jobs_ g) (fun w j => exec_for (jobs_ other) (fun w o => Job_succeed w j o) w) w.
Definition JobGroup_succeed_all (w : World) (g : JobGroup) (others : list Job) : exec World unit :=
  exec_for others (fun w o => JobGroup_succeed w g o) w.
Definition JobGroup_precede (w : World) (g : JobGroup) (other : Job) : exec World unit :=
  exec_for (jobs_ g) (fun w j => Job_precede w j other) w.
Definition JobGroup_precede_group (w : World) (g other : JobGroup) : exec World unit :=
  exec_for (jobs_ g) (fun w j => exec_for (jobs_ other) (fun w o => Job_precede w j o) w) w.
Definition JobGroup_precede_all (w : World) (g : JobGroup) (others : list Job) : exec World unit :=
  exec_for others (fun w o => JobGroup_precede w g o) w.

(** ** Object lifetime

    [p] is the storage of a [Pipeline] object. Destroying an [Impl] ends its
    heap cell; its nodes' threads are joined by [joinOrphans] (Run.v). *)

Definition World_empty : World := {| heap := ∅; objects := ∅; next_address := 0 |}.

(** [impl_ = std::make_unique<Impl>(); impl_->owner = this] *)
Definition make_impl (w : World) (p : nat) : World * nat :=
  let a := next_address w in
  ({| heap := <[a := {| owner := Some p; impl := Impl_new |}]> (heap w);
      objects := <[p := Some a]> (objects w); next_address := S a |}, a).

Definition Pipeline_ctor (w : World) (p : nat) : World := (make_impl w p).1.

(** The [unique_ptr] releases its [Impl]. *)
Definition delete_impl (w : World) (a : option nat) : World :=
  match a with None => w | Some a => set_heap (delete a (heap w)) w end.
Definition Pipeline_dtor (w : World) (p : nat) : World :=
  let w' := delete_impl w (impl_ptr w p) in set_objects (delete p (objects w')) w'.

(** [if (impl_) impl_->owner = this] *)
Definition take_ownership (w : World) (p : nat) : World :=
  match impl_ptr w p with
  | None => w
  | Some a => set_heap (alter (fun c => {| owner := Some p; impl := impl c |}) a (heap w)) w
  end.

Definition Pipeline_move_ctor (w : World) (p other : nat) : World :=
  let a := impl_ptr w other in
  take_ownership (set_objects (<[p := a]> (<[other := None]> (objects w))) w) p.

(** [impl_ = std::move(other.impl_)] is [reset(other.impl_.release())]: the
    pointer is released first, and the Impl held before is deleted. *)
Definition Pipeline_move_assign (w : World) (p other : nat) : World :=
  let a := impl_ptr w other in
  let w := set_objects (<[other := None]> (objects w)) w in
  let old := impl_ptr w p in
  take_ownership (delete_impl (set_objects (<[p := a]> (objects w)) w) old) p.

(** [Impl::ensure]: a moved-from object gets a new [Impl]. *)
Definition ensure (w : World) (p : nat) : World * nat :=
  match impl_ptr w p with Some a => (w, a) | None => make_impl w p end.

(** An operation on the ensured [Impl] of [p] that makes a job. *)
Definition emplace_with (w : World) (p : nat) (f : Impl -> exec Impl nat) : exec World Job :=
  let '(w, a) := ensure w p in
  match heap w !! a with
  | None => Undefined
  | Some c =>
      let! (w, idx) := on_impl w a (impl c) f in
      Return w {| idx_ := u32 (Z.of_nat idx); anchor_ := Some a |}
  end.

Definition emplacePlain (w : World) (p : nat) (fn : JobFn) : exec World Job :=
  emplace_with w p (addNode (Some fn) "job_" 0).
(** The overloads of [emplace]: a [std::function], a callable returning void or
    a result (templates), and a callable taking a stop token. *)
Definition emplace (w : World) (p : nat) (fn : Callable) : exec World Job :=
  emplacePlain w p (IgnoringStop fn).
Definition emplaceVoid (w : World) (p : nat) (fn : Callable) : exec World Job :=
  emplacePlain w p (VoidFn fn).
Definition emplaceCancellable (w : World) (p : nat) (fn : Callable) : exec World Job :=
  emplace_with w p (addNode (Some (TokenFn fn)) "job_" kFlagCancellable).
Definition emplaceDeferred (w : World) (p : nat) (start : Callable) : exec World Job :=
  emplace_with w p (addDeferred start).
Definition addOnDemand (w : World) (p : nat) (fn : Callable) : exec World Job :=
  emplace_with w p (addNode (Some (IgnoringStop fn)) "on_demand_" kFlagOnDemand).
Definition addOnDemandCancellable (w : World) (p : nat) (fn : Callable) : exec World Job :=
  emplace_with w p (addNode (Some (TokenFn fn)) "on_demand_" (Z.lor kFlagOnDemand kFlagCancellable)).

(** Operations on the ensured [Impl] that add no job. *)
Definition ensure_with (w : World) (p : nat) (f : Impl -> Impl) : World :=
  let '(w, a) := ensure w p in
  match heap w !! a with None => w | Some c => put_impl w a (f (impl c)) end.
Definition reserve (w : World) (p : nat) (jobCount : Z) : World := ensure_with w p (fun m => m).
Definition setDeadlineService (w : World) (p : nat) (service : option nat) : World :=
  ensure_with w p (set_deadlines service).
Definition arm (w : World) (p : nat) (executor : nat) (observer : option nat) : World :=
  ensure_with w p (set_armed (Some executor) observer).

(** ** Queries *)

Definition node_of (w : World) (p : nat) (j : Job) : option Node :=
  match impl_of w p with
  | None => None
  | Some (_, m) =>
      if bool_decide (pipeline w j = Some (Some p)) && valid j && (idx_ j <? zlen (nodes_ m))
      then nodes_ m !! Z.to_nat (idx_ j) else None
  end.
Definition status (w : World) (p : nat) (j : Job) : JobStatus :=
  match node_of w p j with Some nd => jobStatus_ nd | None => kPending end.
Definition name (w : World) (p : nat) (j : Job) : string :=
  match node_of w p j with Some nd => nameStr_ nd | None => "" end.

Definition size (w : World) (p : nat) : Z :=
  match impl_of w p with Some (_, m) => zlen (nodes_ m) | None => 0 end.

(** The queries by [JobId], on an [impl_] that may be null. *)
Definition node_by_id (m : option Impl) (i : nat) : option Node := m ← m; nodes_ m !! i.
Definition name_by_id (m : option Impl) (i : nat) : string :=
  match node_by_id m i with Some nd => nameStr_ nd | None => "" end.
Definition statusText (m : option Impl) (i : nat) : string :=
  match node_by_id m i with Some nd => default "" (statusText_ nd) | None => "" end.
Definition firstFailureName (m : option Impl) : string :=
  match m with Some m => failedJobName_ m | None => "" end.

(** [Pipeline::successors] as the list its [DependencyRange] iterates: each
    edge's target with its name. *)
Definition successors (m : option Impl) (i : nat) : list (nat * string) :=
  match m, node_by_id m i with
  | Some m', Some nd => (fun s => (s, name_by_id m s)) <$> succ_ids m' nd
  | _, _ => []
  end.

Record JobSnapshot := { sn_name : string; sn_status : JobStatus; sn_statusText : string }.
Definition snapshot (m : option Impl) : list JobSnapshot :=
  match m with
  | None => []
  | Some m => (fun nd => {| sn_name := nameStr_ nd; sn_status := jobStatus_ nd;
                            sn_statusText := default "" (statusText_ nd) |}) <$> nodes_ m
  end.

Definition newline : string := String (Ascii.ascii_of_nat 10) "".
Definition dump_node (m : Impl) (i : nat) (nd : Node) : string :=
  ("  [" ++ pretty i ++ "] " ++ nameStr_ nd ++ " (predecessors: " ++ pretty (predecessorCount_ nd)
   ++ ") -> (" ++ String.concat "" ((fun s => " " ++ name_by_id (Some m) s) <$> succ_ids m nd)
   ++ ")" ++ newline)%string.
Definition dumpText (m : option Impl) : string :=
  match m with
  | None => ""
  | Some m => ("Pipeline DAG (" ++ pretty (length (nodes_ m)) ++ " jobs):" ++ newline
               ++ String.concat "" (imap (dump_node m) (nodes_ m)))%string
  end.
