(* ===== verification/Construction.v ===== *)
(** What graph construction through pipeline objects and job handles keeps:
    every program of public build calls leaves well-formed pipelines, handles
    follow moves, and an edge is recorded and counted or not at all. *)
From stdpp Require Import pretty.
From S2P Require Import Prelude Types EdgeLists SuccessorPool Nodes Kahn Graph Pipeline.

(** ** The public build calls *)

Inductive BuildCall : Set :=
  | CConstruct (p : nat) | CDestroy (p : nat)
  | CMoveConstruct (p other : nat) | CMoveAssign (p other : nat)
  | CEmplace (p : nat) (fn : Callable) | CEmplaceVoid (p : nat) (fn : Callable)
  | CEmplaceCancellable (p : nat) (fn : Callable) | CEmplaceDeferred (p : nat) (start : Callable)
  | CAddOnDemand (p : nat) (fn : Callable) | CAddOnDemandCancellable (p : nat) (fn : Callable)
  | CReserve (p : nat) (n : Z) | CSetDeadlineService (p : nat) (s : option nat)
  | CArm (p : nat) (executor : nat) (observer : option nat)
  | CName (j : Job) (n : string) | CTimeout (j : Job) (t : Z) | CStack (j : Job) (b : Z)
  | CCore (j : Job) (c : Z) | CPriority (j : Job) (p : Z) | COptional (j : Job) (opt : bool)
  | CStatusText (j : Job) (t : option string) | CCancel (j : Job)
  | CSucceed (j other : Job) | CPrecede (j other : Job)
  | CSucceedGroup (j : Job) (g : JobGroup) | CPrecedeGroup (j : Job) (g : JobGroup)
  | CGroupSucceed (g : JobGroup) (j : Job) | CGroupPrecede (g : JobGroup) (j : Job)
  | CGroupSucceedGroup (g h : JobGroup) | CGroupPrecedeGroup (g h : JobGroup).

Definition is_object (w : World) (p : nat) : bool :=
  match objects w !! p with Some _ => true | None => false end.

(** An object is constructed in free storage; a call on an object needs one. *)
Definition fresh_storage (w : World) (p : nat) (w' : World) : exec World unit :=
  if is_object w p then Undefined else Return w' tt.
Definition on_object (w : World) (p : nat) {A} (x : exec World A) : exec World unit :=
  if is_object w p then let! (w, _a) := x in Return w tt else Undefined.

Definition call (w : World) (c : BuildCall) : exec World unit :=
  match c with
  | CConstruct p => fresh_storage w p (Pipeline_ctor w p)
  | CDestroy p => on_object w p (Return (Pipeline_dtor w p) tt)
  | CMoveConstruct p o =>
      if is_object w o then fresh_storage w p (Pipeline_move_ctor w p o) else Undefined
  | CMoveAssign p o =>
      if is_object w o then on_object w p (Return (Pipeline_move_assign w p o) tt) else Undefined
  | CEmplace p f => on_object w p (emplace w p f)
  | CEmplaceVoid p f => on_object w p (emplaceVoid w p f)
  | CEmplaceCancellable p f => on_object w p (emplaceCancellable w p f)
  | CEmplaceDeferred p f => on_object w p (emplaceDeferred w p f)
  | CAddOnDemand p f => on_object w p (addOnDemand w p f)
  | CAddOnDemandCancellable p f => on_object w p (addOnDemandCancellable w p f)
  | CReserve p n => on_object w p (Return (reserve w p n) tt)
  | CSetDeadlineService p s => on_object w p (Return (setDeadlineService w p s) tt)
  | CArm p x o => on_object w p (Return (arm w p x o) tt)
  | CName j n => Job_name n w j
  | CTimeout j t => Job_timeout t w j
  | CStack j b => Job_stack b w j
  | CCore j c => Job_core c w j
  | CPriority j p => Job_priority p w j
  | COptional j o => Job_optional o w j
  | CStatusText j t => Job_statusText t w j
  | CCancel j => Job_cancel w j
  | CSucceed j o => Job_succeed w j o
  | CPrecede j o => Job_precede w j o
  | CSucceedGroup j g => Job_succeed_group w j g
  | CPrecedeGroup j g => Job_precede_group w j g
  | CGroupSucceed g j => JobGroup_succeed w g j
  | CGroupPrecede g j => JobGroup_precede w g j
  | CGroupSucceedGroup g h => JobGroup_succeed_group w g h
  | CGroupPrecedeGroup g h => JobGroup_precede_group w g h
  end.

(** A program of build calls; it ends at its first throw. *)
Definition calls (cs : list BuildCall) (w : World) : exec World unit := exec_for cs call w.

(** ** Well-formed worlds *)

Record world_ok (w : World) : Prop := {
  wo_heap : forall a c, heap w !! a = Some c -> impl_ok (impl c) /\ (a < next_address w)%nat /\
    exists p, owner c = Some p /\ objects w !! p = Some (Some a);
  wo_objects : forall p a, objects w !! p = Some (Some a) ->
    exists c, heap w !! a = Some c /\ owner c = Some p;
}.

Lemma impl_ptr_Some w p a : impl_ptr w p = Some a <-> objects w !! p = Some (Some a).
Proof. unfold impl_ptr. destruct (objects w !! p) as [[b|]|]; simpl; naive_solver. Qed.

Lemma impl_ok_ext m m' :
  nodes_ m' = nodes_ m -> succPool_ m' = succPool_ m -> roots_ m' = roots_ m ->
  rootsCached_ m' = rootsCached_ m -> length (stopStates m') = length (stopStates m) ->
  impl_ok m -> impl_ok m'.
Proof.
  intros Hn Hp Hr Hc Hs (Hg & Hro & [Hb Hi]).
  assert (Ha : adjacency m' = adjacency m).
  { unfold adjacency. rewrite Hn. apply list_fmap_ext. intros ? nd _. unfold succ_ids. by rewrite Hp. }
  split; [|split].
  - destruct Hg. split; rewrite ?Ha, ?Hn, ?Hp; done.
  - unfold roots_ok, validate, computeRoots in *. rewrite Hc, Ha, Hn, Hr.
    intros Hx. destruct (Hro Hx) as [Hv ->]. split; [done|].
    apply list_filter_iff. intros i. unfold isRootAt. by rewrite Hn.
  - split; rewrite ?Hn, ?Hs; done.
Qed.

Lemma put_impl_world_ok w a m : world_ok w -> impl_ok m -> world_ok (put_impl w a m).
Proof.
  intros [Hh Ho] Hm. unfold put_impl, set_heap. split; cbn [heap objects next_address].
  - intros b c Hb. apply lookup_alter_Some in Hb as [(<- & c' & Hc & ->)|[_ Hb]]; [|by apply Hh].
    split; [done|]. by apply (Hh a c').
  - intros p b Hp. destruct (Ho p b Hp) as (c & Hc & Hoc).
    destruct (decide (a = b)) as [<-|]; [|rewrite lookup_alter_ne by done; eauto].
    rewrite lookup_alter_eq, Hc. simpl. eauto.
Qed.

Lemma on_impl_leaves {A} w a m (f : Impl -> exec Impl A) :
  world_ok w -> leaves impl_ok (f m) -> leaves world_ok (on_impl w a m f).
Proof. unfold on_impl. destruct (f m); simpl; auto using put_impl_world_ok. Qed.

Lemma impl_of_ok w p a m : world_ok w -> impl_of w p = Some (a, m) -> impl_ok m.
Proof.
  unfold impl_of. intros [Hh _] H. apply bind_Some in H as (b & _ & H).
  apply bind_Some in H as (c & Hc & [= <- <-]). by apply (Hh b).
Qed.

Lemma with_node_leaves w j (f : Impl -> nat -> Node -> exec Impl unit) :
  world_ok w ->
  (forall m i nd, impl_ok m -> nodes_ m !! i = Some nd -> leaves impl_ok (f m i nd)) ->
  leaves world_ok (with_node w j tt f).
Proof.
  intros Hw Hf. unfold with_node. destruct (pipeline w j) as [[p|]|]; [|done|done].
  destruct (valid j); [|done]. simpl. destruct (impl_of w p) as [[a m]|] eqn:E; [|done].
  destruct (nodes_ m !! _) as [nd|] eqn:En; [|done].
  apply on_impl_leaves; [done|]. eapply (Hf m _ nd); [by eapply impl_of_ok|done].
Qed.

Lemma update_job_leaves f w j : benign f -> world_ok w -> leaves world_ok (update_job f w j).
Proof.
  intros Hf Hw. apply with_node_leaves; [done|]. intros m i nd Hm _. simpl. by apply alter_node_benign.
Qed.

Lemma benign_optional (opt : bool) : benign (fun nd =>
  set_flags (if opt then u8 (Z.lor (flags_ nd) kFlagOptional)
             else Z.land (flags_ nd) (u8 (Z.lnot kFlagOptional))) nd).
Proof.
  split; try done. intros nd. unfold isOnDemand. cbn [flags_ set_flags]. do 2 f_equal.
  apply Z.bits_inj'. intros k Hk. destruct (decide (k = 1)) as [->|].
  - destruct opt; rewrite !Z.land_spec; unfold u8; rewrite ?Z.mod_pow2_bits_low by lia;
      rewrite ?Z.lor_spec; unfold kFlagOptional, kFlagOnDemand; simpl;
      by rewrite ?orb_false_r, ?andb_true_r.
  - assert (Hz : Z.testbit kFlagOnDemand k = false).
    { unfold kFlagOnDemand. destruct (decide (k = 0)) as [->|]; [done|].
      apply Z.bits_above_log2; [lia|]. change (Z.log2 2) with 1. lia. }
    by rewrite !Z.land_spec, Hz, !andb_false_r.
Qed.

Lemma benign_field (f : Node -> Node) :
  (forall nd, successors_ (f nd) = successors_ nd /\ predecessorCount_ (f nd) = predecessorCount_ nd /\
     stopSource_ (f nd) = stopSource_ nd /\ flags_ (f nd) = flags_ nd) -> benign f.
Proof. intros H. split; intros nd; destruct (H nd) as (? & ? & ? & E); unfold isOnDemand; congruence. Qed.

Ltac benign_field := apply benign_field; by intros [].

Lemma request_stop_impl_ok k m : impl_ok m -> impl_ok (request_stop k m).
Proof. apply impl_ok_ext; try done. apply length_insert. Qed.

Lemma addEdge_leaves from to m : impl_ok m -> leaves impl_ok (addEdge from to m).
Proof.
  intros Hm. destruct (decide (from < length (nodes_ m))%nat) as [Hf|Hf];
    [destruct (decide (to < length (nodes_ m))%nat) as [Ht|Ht]|].
  - pose proof (addEdge_ok m from to Hm Hf Ht) as H. unfold leaves.
    destruct (addEdge from to m); [by destruct H| |done].
    destruct H as [-> _]. by apply set_rootsCached_false_ok.
  - unfold addEdge. rewrite (proj2 (lookup_ge_None _ to)) by lia. by destruct (nodes_ m !! from).
  - unfold addEdge. by rewrite (proj2 (lookup_ge_None _ from)) by lia.
Qed.

Lemma Job_succeed_leaves w j o : world_ok w -> leaves world_ok (Job_succeed w j o).
Proof.
  intros Hw. unfold Job_succeed. destruct (valid o); simpl; [|by destruct (pipeline w j)].
  apply with_node_leaves; [done|]. intros. by apply addEdge_leaves.
Qed.
Lemma Job_precede_leaves w j o : world_ok w -> leaves world_ok (Job_precede w j o).
Proof.
  intros Hw. unfold Job_precede. destruct (valid o); simpl; [|by destruct (pipeline w j)].
  apply with_node_leaves; [done|]. intros. by apply addEdge_leaves.
Qed.
Create HintDb world.
#[export] Hint Resolve Job_succeed_leaves Job_precede_leaves : world.

Lemma addNode_leaves fn prefix flags m : impl_ok m -> leaves impl_ok (addNode fn prefix flags m).
Proof.
  intros Hm. pose proof (addNode_spec fn prefix flags m Hm) as H. unfold leaves.
  destruct (addNode fn prefix flags m); [by destruct H| |done]. by destruct H as [-> _].
Qed.

Lemma addDeferred_leaves start m : impl_ok m -> leaves impl_ok (addDeferred start m).
Proof.
  intros Hm. apply leaves_bind; [by apply addNode_leaves|]. intros m' i Hm'. simpl.
  eapply impl_ok_ext; cycle -1.
  - apply (alter_node_benign (set_deferred (Some start)) i); [benign_field|exact Hm'].
  - done.
  - done.
  - done.
  - done.
  - done.
Qed.

(** *** Object lifetime *)

(** Well formed except that the Impl at [d] is owned by no object. *)
Record world_but (d : option nat) (w : World) : Prop := {
  wb_heap : forall a c, heap w !! a = Some c -> impl_ok (impl c) /\ (a < next_address w)%nat /\
    (d <> Some a -> exists p, owner c = Some p /\ objects w !! p = Some (Some a));
  wb_objects : forall p a, objects w !! p = Some (Some a) -> d <> Some a /\
    exists c, heap w !! a = Some c /\ owner c = Some p;
  wb_detached : forall a, d = Some a -> is_Some (heap w !! a);
}.

Lemma world_but_None w : world_ok w <-> world_but None w.
Proof.
  split.
  - intros [Hh Ho]. split; [|naive_solver|done]. intros a c Hc. destruct (Hh a c Hc) as (? & ? & ?). eauto.
  - intros [Hh Ho _]. split; [|naive_solver]. intros a c Hc.
    destruct (Hh a c Hc) as (? & ? & H). split; [done|]. split; [done|]. by apply H.
Qed.

Lemma release_ok w other :
  world_ok w -> world_but (impl_ptr w other) (set_objects (<[other := None]> (objects w)) w).
Proof.
  intros [Hh Ho]. split; cbn [heap objects next_address set_objects].
  - intros a c Hc. destruct (Hh a c Hc) as (Hm & Ha & p & Hp & Hop). split; [done|]. split; [done|].
    intros Hd. exists p. split; [done|]. rewrite lookup_insert_ne; [done|].
    intros ->. by apply Hd, impl_ptr_Some.
  - intros p a Hp. destruct (decide (other = p)) as [<-|]; [by rewrite lookup_insert_eq in Hp|].
    rewrite lookup_insert_ne in Hp by done. split; [|by apply Ho].
    intros Hd%impl_ptr_Some. destruct (Ho _ _ Hd) as (c & Hc & Hoc), (Ho _ _ Hp) as (c' & Hc' & Hoc').
    congruence.
  - intros a Hd%impl_ptr_Some. destruct (Ho _ _ Hd) as (c & Hc & _). eauto.
Qed.

Lemma assign_ok d w p :
  world_but d w ->
  world_ok (take_ownership (delete_impl (set_objects (<[p := d]> (objects w)) w) (impl_ptr w p)) p).
Proof.
  intros [Hh Ho Hd]. set (w' := delete_impl _ _).
  assert (Hp' : objects w' = <[p := d]> (objects w)) by (unfold w'; by destruct (impl_ptr w p)).
  assert (Hn' : next_address w' = next_address w) by (unfold w'; by destruct (impl_ptr w p)).
  assert (Hh' : forall a c, heap w' !! a = Some c <-> heap w !! a = Some c /\ impl_ptr w p <> Some a).
  { intros a c. unfold w'. destruct (impl_ptr w p) as [o|]; simpl; [|naive_solver].
    rewrite lookup_delete_Some. naive_solver. }
  assert (Hptr : impl_ptr w' p = d) by (unfold impl_ptr; by rewrite Hp', lookup_insert_eq).
  assert (Hdp : forall a, d = Some a -> impl_ptr w p <> Some a).
  { intros a Ha Hi%impl_ptr_Some. by destruct (Ho _ _ Hi). }
  unfold take_ownership. rewrite Hptr.
  assert (Hrest : forall a c, heap w' !! a = Some c -> d <> Some a ->
    exists q, owner c = Some q /\ objects w' !! q = Some (Some a)).
  { intros a c [Hc Hnp]%Hh' Ha. destruct (Hh _ _ Hc) as (_ & _ & Hown).
    destruct (Hown Ha) as (q & Hq & Hoq). exists q. split; [done|]. rewrite Hp', lookup_insert_ne; [done|].
    intros ->. by apply Hnp, impl_ptr_Some. }
  assert (Hobj : forall q a, objects w' !! q = Some (Some a) -> q <> p ->
    d <> Some a /\ exists c, heap w' !! a = Some c /\ owner c = Some q).
  { intros q a Hq Hqp. rewrite Hp', lookup_insert_ne in Hq by done.
    destruct (Ho _ _ Hq) as (Hda & c & Hc & Hoc). split; [done|]. exists c. split; [|done].
    apply Hh'. split; [done|]. intros Hi%impl_ptr_Some.
    destruct (Ho _ _ Hi) as (_ & c' & Hc' & Hoc'). congruence. }
  destruct d as [a0|].
  - assert (Ha0 : is_Some (heap w' !! a0)).
    { destruct (Hd a0 eq_refl) as [c Hc]. exists c. apply Hh'. auto. }
    split; cbn [heap objects next_address set_heap]; rewrite ?Hn'.
    + intros a c [(<- & c' & Hc & ->)|[Hne Hc]]%lookup_alter_Some.
      * pose proof (Hh a0 c' (proj1 (proj1 (Hh' _ _) Hc))) as (Hm & Hlt & _).
        split; [done|]. split; [done|]. exists p. split; [done|]. by rewrite Hp', lookup_insert_eq.
      * pose proof (Hh a c (proj1 (proj1 (Hh' _ _) Hc))) as (Hm & Hlt & _).
        split; [done|]. split; [done|]. apply Hrest; [done|congruence].
    + intros q a Hq. destruct (decide (q = p)) as [->|Hqp].
      * rewrite Hp', lookup_insert_eq in Hq. injection Hq as <-.
        destruct Ha0 as [c Hc]. rewrite lookup_alter_eq, Hc. simpl. eauto.
      * destruct (Hobj q a Hq Hqp) as (Hne & c & Hc & Hoc). exists c.
        rewrite lookup_alter_ne by congruence. done.
  - split; rewrite ?Hn'.
    + intros a c Hc. pose proof (Hh a c (proj1 (proj1 (Hh' _ _) Hc))) as (Hm & Hlt & _).
      split; [done|]. split; [done|]. by apply Hrest.
    + intros q a Hq. destruct (decide (q = p)) as [->|Hqp].
      * by rewrite Hp', lookup_insert_eq in Hq.
      * by apply Hobj.
Qed.

Lemma move_assign_ok w p other : world_ok w -> world_ok (Pipeline_move_assign w p other).
Proof. intros Hw. by apply assign_ok, release_ok. Qed.

Lemma move_ctor_ok w p other :
  world_ok w -> objects w !! p = None -> is_Some (objects w !! other) ->
  world_ok (Pipeline_move_ctor w p other).
Proof.
  intros Hw Hp [x Ho]. assert (Hne : other <> p) by (intros ->; congruence).
  pose proof (assign_ok _ _ p (release_ok w other Hw)) as H. revert H.
  unfold Pipeline_move_ctor. unfold impl_ptr at 2. cbn [objects set_objects].
  rewrite lookup_insert_ne, Hp by done. by destruct w.
Qed.

Lemma dtor_ok w p : world_ok w -> world_ok (Pipeline_dtor w p).
Proof.
  intros [Hh Ho]. unfold Pipeline_dtor. destruct (impl_ptr w p) as [a|] eqn:E.
  - apply impl_ptr_Some in E. split; cbn [heap objects next_address set_objects set_heap delete_impl].
    + intros b c [Hne Hb]%lookup_delete_Some. destruct (Hh b c Hb) as (Hm & Hlt & q & Hq & Hoq).
      split; [done|]. split; [done|]. exists q. split; [done|]. rewrite lookup_delete_ne; [done|].
      intros ->. congruence.
    + intros q b [Hne Hq]%lookup_delete_Some. destruct (Ho q b Hq) as (c & Hc & Hoc).
      exists c. split; [|done]. apply lookup_delete_Some. split; [|done]. intros ->.
      destruct (Ho p b E) as (c' & Hc' & Hoc'). congruence.
  - split; cbn [heap objects next_address set_objects delete_impl].
    + intros b c Hb. destruct (Hh b c Hb) as (Hm & Hlt & q & Hq & Hoq).
      split; [done|]. split; [done|]. exists q. split; [done|]. rewrite lookup_delete_ne; [done|].
      intros ->. apply impl_ptr_Some in Hoq. congruence.
    + intros q b [Hne Hq]%lookup_delete_Some. by apply Ho.
Qed.

Lemma make_impl_ok w p : world_ok w -> impl_ptr w p = None -> world_ok (make_impl w p).1.
Proof.
  intros [Hh Ho] Hp. assert (Hf : heap w !! next_address w = None).
  { destruct (heap w !! next_address w) eqn:E; [|done]. destruct (Hh _ _ E) as (_ & ? & _). lia. }
  split; cbn [heap objects next_address make_impl fst].
  - intros a c [[<- <-]|[Hne Hc]]%lookup_insert_Some.
    + split; [apply impl_new_ok|]. split; [lia|]. exists p. by rewrite lookup_insert_eq.
    + destruct (Hh a c Hc) as (Hm & Hlt & q & Hq & Hoq). split; [done|]. split; [lia|].
      exists q. split; [done|]. rewrite lookup_insert_ne; [done|]. intros ->.
      apply impl_ptr_Some in Hoq. congruence.
  - intros q a [[<- [= <-]]|[Hne Hq]]%lookup_insert_Some.
    + eexists. by rewrite lookup_insert_eq.
    + destruct (Ho q a Hq) as (c & Hc & Hoc). exists c.
      rewrite lookup_insert_ne; [done|]. intros <-. congruence.
Qed.

Lemma ensure_ok w p w' a : world_ok w -> ensure w p = (w', a) ->
  world_ok w' /\ exists c, heap w' !! a = Some c /\ owner c = Some p /\ impl_ok (impl c).
Proof.
  intros Hw He. assert (Hw' : world_ok w').
  { unfold ensure in He. destruct (impl_ptr w p) eqn:E; [by injection He as <- <-|].
    pose proof (make_impl_ok w p Hw E) as H. by rewrite He in H. }
  split; [done|]. assert (Hptr : objects w' !! p = Some (Some a)).
  { unfold ensure in He. destruct (impl_ptr w p) eqn:E.
    - injection He as <- <-. by apply impl_ptr_Some.
    - injection He as <- <-. apply lookup_insert_eq. }
  destruct (wo_objects _ Hw' _ _ Hptr) as (c & Hc & Ho). exists c.
  destruct (wo_heap _ Hw' _ _ Hc) as [? _]. done.
Qed.

Lemma emplace_with_leaves w p f :
  (forall m, impl_ok m -> leaves impl_ok (f m)) -> world_ok w -> leaves world_ok (emplace_with w p f).
Proof.
  intros Hf Hw. unfold emplace_with. destruct (ensure w p) as [w' a] eqn:E.
  destruct (ensure_ok _ _ _ _ Hw E) as (Hw' & c & Hc & _ & Hm). rewrite Hc.
  apply leaves_bind; [|done]. apply on_impl_leaves; auto.
Qed.

Lemma ensure_with_ok w p f :
  (forall m, impl_ok m -> impl_ok (f m)) -> world_ok w -> world_ok (ensure_with w p f).
Proof.
  intros Hf Hw. unfold ensure_with. destruct (ensure w p) as [w' a] eqn:E.
  destruct (ensure_ok _ _ _ _ Hw E) as (Hw' & c & Hc & _ & Hm). rewrite Hc.
  apply put_impl_world_ok; auto.
Qed.

Lemma fresh_storage_leaves w p w' :
  (objects w !! p = None -> world_ok w') -> leaves world_ok (fresh_storage w p w').
Proof. unfold fresh_storage, is_object. destruct (objects w !! p) eqn:E; [done|]. simpl. auto. Qed.

Lemma on_object_leaves w p {A} (x : exec World A) :
  leaves world_ok x -> leaves world_ok (on_object w p x).
Proof. unfold on_object. destruct (is_object w p); [|done]. by destruct x. Qed.

#[export] Hint Resolve addNode_leaves addDeferred_leaves dtor_ok move_assign_ok : world.
#[export] Hint Extern 1 (benign _) => (apply benign_optional || benign_field) : world.
#[export] Hint Extern 4 (impl_ok (_ _)) => (eapply impl_ok_ext; cycle -1; [eassumption|done..]) : world.
#[export] Hint Extern 1 (leaves world_ok (exec_for _ _ _)) => (apply leaves_for; [intros ? ? _ ?|]) : world.

(** The induction behind the construction theorems. *)
Lemma call_leaves w c : world_ok w -> leaves world_ok (call w c).
Proof.
  intros Hw. destruct c; cbn [call];
    try (apply on_object_leaves); try (apply update_job_leaves; [auto with world|done]);
    try (apply emplace_with_leaves; [auto with world|done]);
    try (apply ensure_with_ok; [auto with world|done]).
  - apply fresh_storage_leaves. intros Hp. apply make_impl_ok; [done|]. unfold impl_ptr. by rewrite Hp.
  - by apply dtor_ok.
  - unfold is_object. destruct (objects w !! other) eqn:Eo; [|done].
    apply fresh_storage_leaves. intros Hp. apply move_ctor_ok; [done|done|by rewrite Eo].
  - destruct (is_object w other); [|done]. by apply on_object_leaves, move_assign_ok.
  - apply with_node_leaves; [done|]. intros m i nd Hm _. by apply request_stop_impl_ok.
  - auto with world.
  - auto with world.
  - unfold Job_succeed_group. auto with world.
  - unfold Job_precede_group. auto with world.
  - unfold JobGroup_succeed. auto with world.
  - unfold JobGroup_precede. auto with world.
  - unfold JobGroup_succeed_group. auto 6 with world.
  - unfold JobGroup_precede_group. auto 6 with world.
Qed.

Lemma world_empty_ok : world_ok World_empty.
Proof. split; intros *; cbn; by rewrite lookup_empty. Qed.

Lemma calls_leaves cs : leaves world_ok (calls cs World_empty).
Proof. apply leaves_for; [|apply world_empty_ok]. intros c w _ Hw. by apply call_leaves. Qed.

(** Worlds a program of build calls can leave, also by throwing. *)
Definition built (w : World) : Prop :=
  exists cs, leaves (fun w' => w' = w) (calls cs World_empty) /\ calls cs World_empty <> Undefined.
Lemma built_ok w : built w -> world_ok w.
Proof.
  intros (cs & H & Hd). pose proof (calls_leaves cs) as Hl.
  destruct (calls cs World_empty); simpl in *; by subst.
Qed.

(** ** Handles of one pipeline *)

Definition handle (a i : nat) : Job := {| idx_ := Z.of_nat i; anchor_ := Some a |}.

Lemma impl_of_Some w p a m : world_ok w ->
  impl_of w p = Some (a, m) <-> heap w !! a = Some {| owner := Some p; impl := m |}.
Proof.
  intros [Hh Ho]. unfold impl_of. split.
  - intros (b & Hb%impl_ptr_Some & H)%bind_Some. apply bind_Some in H as ([o m'] & Hc & [= <- <-]).
    destruct (Ho _ _ Hb) as (c & Hc' & Hoc). rewrite Hc in Hc'. injection Hc' as <-.
    simpl in Hoc. by subst.
  - intros Hc. destruct (Hh _ _ Hc) as (_ & _ & q & [= <-] & Hq).
    apply bind_Some. exists a. split; [by apply impl_ptr_Some|]. apply bind_Some. eauto.
Qed.

Lemma valid_handle a m i : impl_ok m -> (i < length (nodes_ m))%nat -> valid (handle a i) = true.
Proof.
  intros ([Hc _ _ _] & _ & _) Hi. unfold valid, handle, cInvalid. simpl.
  unfold zlen in Hc. destruct (Z.eqb_spec (Z.of_nat i) (2 ^ 32 - 1)); [lia|done].
Qed.

Lemma with_node_handle {A} w p a m i nd (d : A) f :
  world_ok w -> impl_of w p = Some (a, m) -> nodes_ m !! i = Some nd ->
  with_node w (handle a i) d f = on_impl w a m (fun m => f m i nd).
Proof.
  intros Hw Hp Hi. pose proof (impl_of_ok _ _ _ _ Hw Hp) as Hm.
  pose proof (proj1 (impl_of_Some _ _ _ _ Hw) Hp) as Hc. unfold with_node.
  rewrite (valid_handle a m i Hm) by (by eapply lookup_lt_Some).
  unfold pipeline, handle. cbn [anchor_ idx_]. rewrite Hc. cbn. rewrite Hp, Nat2Z.id, Hi. done.
Qed.

(** [precede] on handles of one pipeline is the edge operation on its [Impl]. *)
Lemma precede_handle w p a m i k :
  world_ok w -> impl_of w p = Some (a, m) -> (i < length (nodes_ m))%nat -> (k < length (nodes_ m))%nat ->
  Job_precede w (handle a i) (handle a k) = on_impl w a m (addEdge i k).
Proof.
  intros Hw Hp Hi Hk. pose proof (impl_of_ok _ _ _ _ Hw Hp) as Hm.
  destruct (lookup_lt_is_Some_2 _ _ Hi) as [nd Hnd]. unfold Job_precede.
  rewrite (valid_handle a m k) by done. cbn [negb].
  rewrite (with_node_handle w p a m i nd) by done. cbn [idx_ handle]. by rewrite Nat2Z.id.
Qed.
Lemma succeed_handle w p a m i k :
  world_ok w -> impl_of w p = Some (a, m) -> (i < length (nodes_ m))%nat -> (k < length (nodes_ m))%nat ->
  Job_succeed w (handle a k) (handle a i) = on_impl w a m (addEdge i k).
Proof.
  intros Hw Hp Hi Hk. pose proof (impl_of_ok _ _ _ _ Hw Hp) as Hm.
  destruct (lookup_lt_is_Some_2 _ _ Hk) as [nd Hnd]. unfold Job_succeed.
  rewrite (valid_handle a m i) by done. cbn [negb].
  rewrite (with_node_handle w p a m k nd) by done. cbn [idx_ handle]. by rewrite Nat2Z.id.
Qed.

Lemma impl_of_put w p a m m' :
  world_ok w -> impl_of w p = Some (a, m) -> impl_ok m' -> impl_of (put_impl w a m') p = Some (a, m').
Proof.
  intros Hw Hp Hm'. apply impl_of_Some; [by apply put_impl_world_ok|].
  apply impl_of_Some in Hp; [|done]. unfold put_impl. cbn [heap set_heap].
  by rewrite lookup_alter_eq, Hp.
Qed.

Lemma put_impl_put w a m m' : put_impl (put_impl w a m) a m' = put_impl w a m'.
Proof.
  unfold put_impl, set_heap. cbn. f_equal. apply map_eq. intros b.
  destruct (decide (a = b)) as [<-|]; [|by rewrite !lookup_alter_ne].
  rewrite !lookup_alter_eq. by destruct (heap w !! a).
Qed.

(** Edges [(from, to)] added one after the other to adjacency lists. *)
Definition add_edges (es : list (nat * nat)) (adj : list (list nat)) : list (list nat) :=
  foldl (fun adj e => alter (fun l => l ++ [e.2]) e.1 adj) adj es.

(** The outcome of wiring [es] in pipeline [p]: all of it, or a prefix up to an
    edge whose origin's list is full. *)
Definition wired (w : World) (a : nat) (m : Impl) (es : list (nat * nat)) (x : exec World unit) : Prop :=
  match x with
  | Return w' _ => exists m', w' = put_impl w a m' /\ impl_ok m' /\
      adjacency m' = add_edges es (adjacency m)
  | Throw w' _ => exists m' pre e post, w' = put_impl w a m' /\ impl_ok m' /\ es = pre ++ e :: post /\
      adjacency m' = add_edges pre (adjacency m) /\
      length (default [] (adjacency m' !! e.1)) = Z.to_nat kCountMask
  | Undefined => False
  end.

Lemma put_impl_same w p a m : world_ok w -> impl_of w p = Some (a, m) -> put_impl w a m = w.
Proof.
  intros Hw Hp. apply impl_of_Some in Hp; [|done]. destruct w as [h o n].
  unfold put_impl, set_heap. cbn in *. f_equal. apply map_eq. intros b.
  destruct (decide (a = b)) as [<-|]; [|by rewrite lookup_alter_ne]. by rewrite lookup_alter_eq, Hp.
Qed.

Lemma wired_nil w p a m : world_ok w -> impl_of w p = Some (a, m) -> wired w a m [] (Return w tt).
Proof.
  intros Hw Hp. exists m. split; [by rewrite (put_impl_same w p)|].
  split; [by eapply impl_of_ok|done].
Qed.

Lemma add_edges_length es adj : length (add_edges es adj) = length adj.
Proof. revert adj. induction es as [|e es IH]; intros adj; [done|].
  change (add_edges (e :: es) adj) with (add_edges es (alter (fun l => l ++ [e.2]) e.1 adj)).
  by rewrite IH, length_alter. Qed.

Lemma wired_edge w p a m i k :
  world_ok w -> impl_of w p = Some (a, m) -> (i < length (nodes_ m))%nat -> (k < length (nodes_ m))%nat ->
  wired w a m [(i, k)] (on_impl w a m (addEdge i k)).
Proof.
  intros Hw Hp Hi Hk. pose proof (impl_of_ok _ _ _ _ Hw Hp) as Hm.
  pose proof (addEdge_ok m i k Hm Hi Hk) as H. unfold on_impl.
  destruct (addEdge i k m) as [m' []|m' msg|]; simpl; [| |done].
  - destruct H as (Hm' & _ & Ha). eauto.
  - destruct H as [-> Hl]. exists (set_rootsCached false m), [], (i, k), [].
    split; [done|]. split; [by apply set_rootsCached_false_ok|]. done.
Qed.

Lemma wired_bind w p a m es fs x (f : World -> exec World unit) :
  world_ok w -> impl_of w p = Some (a, m) -> wired w a m es x ->
  (forall w' m', world_ok w' -> impl_of w' p = Some (a, m') ->
     length (nodes_ m') = length (nodes_ m) -> wired w' a m' fs (f w')) ->
  wired w a m (es ++ fs) (exec_bind x (fun w _ => f w)).
Proof.
  intros Hw Hp Hx Hf. destruct x as [w' []|w' msg|]; simpl in *; [| |done].
  - destruct Hx as (m' & -> & Hm' & Ha). 
    assert (Hlen : length (nodes_ m') = length (nodes_ m)).
    { rewrite <- !length_adjacency, Ha. apply add_edges_length. }
    specialize (Hf (put_impl w a m') m' (put_impl_world_ok _ _ _ Hw Hm') (impl_of_put _ _ _ _ _ Hw Hp Hm') Hlen).
    unfold wired in *. destruct (f _) as [w'' []|w'' msg|]; [| |done].
    + destruct Hf as (m'' & -> & Hm'' & Ha'). exists m''. rewrite put_impl_put.
      split; [done|]. split; [done|]. by rewrite Ha', Ha; unfold add_edges; rewrite foldl_app.
    + destruct Hf as (m'' & pre & e & post & -> & Hm'' & -> & Ha' & Hl).
      exists m'', (es ++ pre), e, post. rewrite put_impl_put, app_assoc. split; [done|].
      split; [done|]. split; [done|]. split; [|done].
      by rewrite Ha', Ha; unfold add_edges; rewrite foldl_app.
  - destruct Hx as (m' & pre & e & post & -> & Hm' & -> & Ha & Hl).
    exists m', pre, e, (post ++ fs). rewrite <- app_assoc. auto.
Qed.

Lemma wired_for {X} (l : list X) (es : X -> list (nat * nat)) (f : World -> X -> exec World unit) w p a m :
  world_ok w -> impl_of w p = Some (a, m) ->
  (forall x w' m', x ∈ l -> world_ok w' -> impl_of w' p = Some (a, m') ->
     length (nodes_ m') = length (nodes_ m) -> wired w' a m' (es x) (f w' x)) ->
  wired w a m (l ≫= es) (exec_for l f w).
Proof.
  revert w m. induction l as [|x l IH]; intros w m Hw Hp Hf; [by eapply wired_nil|].
  cbn [exec_for mbind list_bind]. eapply wired_bind; [done|done|apply Hf; [set_solver|done..]|].
  intros w' m' Hw' Hp' Hlen. apply IH; [done|done|]. intros y w'' m'' Hy Hw'' Hp'' Hlen'.
  apply Hf; [set_solver|done|done|congruence].
Qed.

(** ** Theorems *)

(** C5. Whatever program of build calls ran, also one that threw, every
    pipeline is well formed: at most 65536 jobs, an edge arena that 32-bit block
    starts can address, edges only to jobs that exist, each job's predecessor
    count equal to the number of edges into it, and edge counters below 2^32. *)
Theorem built_graph_wellformed w p a m :
  built w -> impl_of w p = Some (a, m) ->
  zlen (nodes_ m) <= 65536 /\ zlen (succPool_ m) < 2 ^ 32 /\ targets_ok (adjacency m) /\
  Z.of_nat (total_edges (adjacency m)) < 2 ^ 32 /\
  (forall i nd, nodes_ m !! i = Some nd -> predecessorCount_ nd = Z.of_nat (occ i (adjacency m))).
Proof.
  intros Hw%built_ok Hp. destruct (impl_of_ok _ _ _ _ Hw Hp) as (Hg & _ & _).
  pose proof (graph_edges_bound _ Hg) as Hb. destruct Hg as [Hc Ha Ht Hpr].
  assert (Hs : zlen (successors_ <$> nodes_ m) <= 65536) by (unfold zlen in *; by rewrite length_fmap).
  pose proof (arena_addressable _ _ Ha Hs). repeat (split; [done || lia|]). done.
Qed.

(** C6. Validation decides acyclicity: on every pipeline that build calls can
    make, [validate] succeeds exactly when no job can reach itself. *)
Theorem validate_decides_acyclicity w p a m :
  built w -> impl_of w p = Some (a, m) -> (validate m = success <-> acyclic (adjacency m)).
Proof. intros Hw%built_ok Hp. apply validate_iff. by destruct (impl_of_ok _ _ _ _ Hw Hp). Qed.

(** The roots a run starts from: with the cache or without it, the refresh
    fails exactly on a cyclic graph, and otherwise yields exactly the jobs
    without predecessors that are not on demand, in index order. *)
Theorem refreshRoots_correct w p a m :
  built w -> impl_of w p = Some (a, m) ->
  match refreshRoots m with
  | Unexpected e => e = kCyclicDependency /\ ~ acyclic (adjacency m)
  | Expected m' => acyclic (adjacency m) /\ roots_ m' = computeRoots m /\ rootsCached_ m' = true /\
      adjacency m' = adjacency m /\ (forall i, i ∈ roots_ m' <->
        exists nd, nodes_ m !! i = Some nd /\ occ i (adjacency m) = 0%nat /\ isOnDemand nd = false)
  end.
Proof.
  intros Hw%built_ok Hp. destruct (impl_of_ok _ _ _ _ Hw Hp) as (Hg & Hr & _).
  pose proof (validate_iff _ Hg) as Hv.
  assert (Hroots : forall i, i ∈ computeRoots m <->
    exists nd, nodes_ m !! i = Some nd /\ occ i (adjacency m) = 0%nat /\ isOnDemand nd = false).
  { intros i. unfold computeRoots. rewrite list_elem_of_filter, elem_of_seq. unfold isRootAt, isRoot.
    destruct (nodes_ m !! i) as [nd|] eqn:E.
    - apply lookup_lt_Some in E as Hi. rewrite (go_preds _ Hg _ _ E), andb_true_iff, negb_true_iff, Z.eqb_eq.
      split; [intros [[? ?] _]; exists nd; auto with lia|].
      intros (nd' & [= <-] & H0 & Hd). rewrite H0. split; [done|lia].
    - naive_solver. }
  unfold refreshRoots. destruct (rootsCached_ m) eqn:Ec.
  - destruct (Hr Ec) as [Hs Hro]. rewrite Hro. split; [by apply Hv|]. repeat (split; [done|]). done.
  - destruct (validate m) as [[]|e] eqn:Ev.
    + split; [by apply Hv|]. repeat (split; [done|]). done.
    + split; [|by intros ?%Hv]. unfold validate in Ev. by destruct (negb _); [injection Ev as <-|].
Qed.

(** [precede], and [succeed] with the operands exchanged, on two jobs of a
    pipeline either appends the one edge at the end of the first job's list and
    counts it at the second, or throws because that list holds its maximum of
    32767 entries, and then no edge and no dependency count is left behind. *)
Theorem precede_records_edge w p a m i k :
  built w -> impl_of w p = Some (a, m) -> (i < length (nodes_ m))%nat -> (k < length (nodes_ m))%nat ->
  Job_succeed w (handle a k) (handle a i) = Job_precede w (handle a i) (handle a k) /\
  match Job_precede w (handle a i) (handle a k) with
  | Return w' _ => exists m', w' = put_impl w a m' /\ rootsCached_ m' = false /\
      adjacency m' = alter (fun l => l ++ [k]) i (adjacency m) /\
      (forall j nd nd', nodes_ m !! j = Some nd -> nodes_ m' !! j = Some nd' ->
         predecessorCount_ nd' = predecessorCount_ nd + (if decide (j = k) then 1 else 0))
  | Throw w' _ => w' = put_impl w a (set_rootsCached false m) /\
      length (default [] (adjacency m !! i)) = Z.to_nat kCountMask
  | Undefined => False
  end.
Proof.
  intros Hw%built_ok Hp Hi Hk. pose proof (impl_of_ok _ _ _ _ Hw Hp) as Hm.
  rewrite (succeed_handle w p a m i k), (precede_handle w p a m i k) by done. split; [done|].
  pose proof (addEdge_ok m i k Hm Hi Hk) as H. unfold on_impl.
  destruct (addEdge i k m) as [m' []|m' msg|]; [|by destruct H as [-> ?]|done].
  destruct H as (Hm' & Hc & Ha). exists m'. repeat (split; [done|]).
  intros j nd nd' Hj Hj'. rewrite (go_preds _ (proj1 Hm') _ _ Hj'), (go_preds _ (proj1 Hm) _ _ Hj), Ha.
  destruct (lookup_lt_is_Some_2 (adjacency m) i) as [l Hl]; [by rewrite length_adjacency|].
  rewrite (occ_snoc _ _ _ _ _ Hl). case_decide; case_decide; subst; lia || done.
Qed.

Lemma JobGroup_precede_group_wired w p a m gs hs :
  world_ok w -> impl_of w p = Some (a, m) ->
  Forall (fun i => i < length (nodes_ m))%nat gs -> Forall (fun i => i < length (nodes_ m))%nat hs ->
  wired w a m (gs ≫= fun i => (fun k => (i, k)) <$> hs)
    (JobGroup_precede_group w {| jobs_ := handle a <$> gs |} {| jobs_ := handle a <$> hs |}).
Proof.
  intros Hw Hp Hg Hh. unfold JobGroup_precede_group. cbn [jobs_].
  rewrite Forall_forall in Hg, Hh.
  replace (gs ≫= _) with ((handle a <$> gs) ≫= fun j => (fun k => (Z.to_nat (idx_ j), k)) <$> hs).
  2:{ clear. induction gs as [|i gs IH]; [done|]. cbn. rewrite Nat2Z.id. f_equal. apply IH. }
  eapply (wired_for (handle a <$> gs) (fun j => (fun k => (Z.to_nat (idx_ j), k)) <$> hs)); [done|done|].
  intros j w1 m1 (i & -> & Hi)%list_elem_of_fmap Hw1 Hp1 Hl1. cbn [idx_ handle]. rewrite Nat2Z.id.
  replace ((fun k => (i, k)) <$> hs) with ((handle a <$> hs) ≫= fun o => [(i, Z.to_nat (idx_ o))]).
  2:{ clear. induction hs as [|k hs IH]; [done|]. cbn. rewrite Nat2Z.id. f_equal. apply IH. }
  eapply (wired_for (handle a <$> hs) (fun o => [(i, Z.to_nat (idx_ o))])); [done|done|].
  intros o w2 m2 (k & -> & Hk)%list_elem_of_fmap Hw2 Hp2 Hl2. cbn [idx_ handle]. rewrite Nat2Z.id.
  assert (i < length (nodes_ m2))%nat by (rewrite Hl2, Hl1; by apply Hg).
  assert (k < length (nodes_ m2))%nat by (rewrite Hl2, Hl1; by apply Hh).
  change {| idx_ := Z.of_nat i; anchor_ := Some a |} with (handle a i).
  rewrite (precede_handle w2 p a m2 i k) by done. by eapply wired_edge.
Qed.

(** [g.precede(h)] on groups of one pipeline adds exactly the cross product
    of edges, every member of [g] to every member of [h], in iteration order; a
    throw leaves exactly the edges before the one that did not fit. *)
Theorem group_precede_cross_product w p a m gs hs :
  built w -> impl_of w p = Some (a, m) ->
  Forall (fun i => i < length (nodes_ m))%nat gs -> Forall (fun i => i < length (nodes_ m))%nat hs ->
  wired w a m (gs ≫= fun i => (fun k => (i, k)) <$> hs)
    (JobGroup_precede_group w {| jobs_ := handle a <$> gs |} {| jobs_ := handle a <$> hs |}).
Proof. intros Hw%built_ok. by apply JobGroup_precede_group_wired. Qed.

(** A new job: every [emplace] and [addOnDemand] returns a handle that the
    pipeline recognises, with the next index, pending, named by its index and
    without edges, or throws on the 65537th job and leaves the graph as it was. *)
Theorem emplace_appends w p a m fn prefix flags :
  built w -> impl_of w p = Some (a, m) ->
  match emplace_with w p (addNode (Some fn) prefix flags) with
  | Return w' j => exists m', impl_of w' p = Some (a, m') /\ j = handle a (length (nodes_ m)) /\
      valid j = true /\ pipeline w' j = Some (Some p) /\ size w' p = size w p + 1 /\
      status w' p j = kPending /\ name w' p j = (prefix ++ pretty (length (nodes_ m)))%string /\
      adjacency m' = adjacency m ++ [[]] /\ rootsCached_ m' = false
  | Throw w' _ => w' = w /\ size w p = 65536
  | Undefined => False
  end.
Proof.
  intros Hw%built_ok Hp. pose proof (impl_of_ok _ _ _ _ Hw Hp) as Hm.
  pose proof (proj1 (impl_of_Some _ _ _ _ Hw) Hp) as Hc. unfold emplace_with, ensure.
  assert (Hptr : impl_ptr w p = Some a).
  { unfold impl_of in Hp. apply bind_Some in Hp as (b & Hb & H). apply bind_Some in H as (? & _ & [= <- _]). done. }
  rewrite Hptr, Hc. cbn [impl]. pose proof (addNode_spec (Some fn) prefix flags m Hm) as H.
  pose proof (addNode_leaves (Some fn) prefix flags m Hm) as Hlv.
  assert (Hsz : size w p = zlen (nodes_ m)) by (unfold size; by rewrite Hp).
  unfold on_impl. destruct (addNode (Some fn) prefix flags m) as [m' idx|m' msg|] eqn:E; [| |done].
  - destruct H as (Hm' & -> & Ha & nd & Hnd & _ & _ & Hname). cbn [exec_bind].
    pose proof (go_count _ (proj1 Hm')) as Hc'. rewrite Hnd in Hc'. unfold zlen in Hc'.
    rewrite length_app in Hc'. simpl in Hc'.
    rewrite u32_small by (unfold is_u32; lia). pose proof (impl_of_put w p a m m' Hw Hp Hm') as Hp'.
    exists m'. split; [done|]. split; [done|].
    assert (Hv : valid (handle a (length (nodes_ m))) = true).
    { apply (valid_handle a m'); [done|]. rewrite Hnd, length_app. simpl. lia. }
    assert (Hpl : pipeline (put_impl w a m') (handle a (length (nodes_ m))) = Some (Some p)).
    { unfold pipeline, put_impl. cbn [anchor_ handle heap set_heap]. by rewrite lookup_alter_eq, Hc. }
    change {| idx_ := Z.of_nat (length (nodes_ m)); anchor_ := Some a |} with (handle a (length (nodes_ m))).
    split; [exact Hv|]. split; [exact Hpl|].
    assert (Hno : node_of (put_impl w a m') p (handle a (length (nodes_ m))) = Some nd).
    { unfold node_of. rewrite Hp', Hpl, Hv, bool_decide_true by done. cbn [idx_ handle andb].
      rewrite Hnd. unfold zlen. rewrite length_app. destruct (Z.ltb_spec (Z.of_nat (length (nodes_ m))) (Z.of_nat (length (nodes_ m) + length [nd]))); [|simpl in *; lia].
      rewrite Nat2Z.id. by apply list_lookup_middle. }
    unfold status, name. rewrite Hno. unfold size at 1. rewrite Hp', Hsz, Hnd. unfold zlen. rewrite length_app.
    split; [simpl; lia|]. revert E. unfold addNode. destruct (negb _); [done|]. intros [= <-].
    simpl in Hnd. apply app_inj_tail in Hnd as [_ <-]. done.
  - destruct H as [-> H]. cbn. split; [by apply (put_impl_same w p)|by rewrite Hsz].
Qed.

Lemma node_of_handle w p a m i :
  world_ok w -> impl_of w p = Some (a, m) -> (i < length (nodes_ m))%nat ->
  pipeline w (handle a i) = Some (Some p) /\ node_of w p (handle a i) = nodes_ m !! i.
Proof.
  intros Hw Hp Hi. pose proof (impl_of_ok _ _ _ _ Hw Hp) as Hm.
  pose proof (proj1 (impl_of_Some _ _ _ _ Hw) Hp) as Hc.
  assert (Hpl : pipeline w (handle a i) = Some (Some p)) by (unfold pipeline; simpl; by rewrite Hc).
  split; [done|]. unfold node_of. rewrite Hp, Hpl, (valid_handle a m i), bool_decide_true by done.
  cbn [idx_ handle andb]. unfold zlen. rewrite Nat2Z.id.
  destruct (Z.ltb_spec (Z.of_nat i) (Z.of_nat (length (nodes_ m)))); [done|lia].
Qed.

Lemma impl_of_object w p a m : world_ok w -> impl_of w p = Some (a, m) <->
  objects w !! p = Some (Some a) /\ exists c, heap w !! a = Some c /\ impl c = m.
Proof.
  intros Hw. rewrite impl_of_Some by done. split.
  - intros H. split; [|eauto]. destruct (wo_heap _ Hw _ _ H) as (_ & _ & q & [= <-] & ?). done.
  - intros (Ho & c & Hc & <-). destruct (wo_objects _ Hw _ _ Ho) as (c' & Hc' & Hoc).
    rewrite Hc in Hc'. injection Hc' as <-. destruct c. simpl in *. by subst.
Qed.

(** The cell that a move leaves under its new owner. *)
Lemma move_assign_impl w p q a m :
  world_ok w -> impl_of w p = Some (a, m) -> impl_of (Pipeline_move_assign w q p) q = Some (a, m).
Proof.
  intros Hw Hp. apply impl_of_object; [by apply move_assign_ok|].
  pose proof (proj1 (impl_of_object _ _ _ _ Hw) Hp) as (Ho & c & Hc & <-).
  unfold Pipeline_move_assign. assert (Hptr : impl_ptr w p = Some a) by (by apply impl_ptr_Some).
  cbv zeta. rewrite Hptr. set (w1 := set_objects (<[p := None]> (objects w)) w).
  assert (Hne : impl_ptr w1 q <> Some a).
  { intros Hi%impl_ptr_Some. pose proof (release_ok w p Hw) as Hr. rewrite Hptr in Hr.
    by destruct (wb_objects _ _ Hr _ _ Hi). }
  unfold take_ownership. set (w2 := delete_impl _ _).
  assert (Ho2 : objects w2 !! q = Some (Some a)).
  { unfold w2. destruct (impl_ptr w1 q); cbn; apply lookup_insert_eq. }
  assert (Hc2 : heap w2 !! a = Some c).
  { unfold w2. destruct (impl_ptr w1 q) as [b|]; cbn; [|done]. rewrite lookup_delete_ne; [done|congruence]. }
  rewrite (proj2 (impl_ptr_Some w2 q a) Ho2). cbn [objects heap set_heap].
  split; [done|]. eexists. by rewrite lookup_alter_eq, Hc2.
Qed.

Lemma move_assign_other w p q r : r <> q -> r <> p ->
  impl_ptr (Pipeline_move_assign w q p) r = impl_ptr w r.
Proof.
  intros Hq Hp. unfold Pipeline_move_assign, take_ownership.
  repeat match goal with |- context [match impl_ptr ?x ?y with _ => _ end] => destruct (impl_ptr x y) end;
    unfold impl_ptr, delete_impl; repeat case_match; cbn; by rewrite !lookup_insert_ne.
Qed.

Lemma move_ctor_assign w q p : q <> p -> objects w !! q = None ->
  Pipeline_move_ctor w q p = Pipeline_move_assign w q p.
Proof.
  intros Hne Hq. unfold Pipeline_move_ctor, Pipeline_move_assign. cbv zeta.
  change (impl_ptr (set_objects (<[p := None]> (objects w)) w) q) with (mjoin (<[p := None]> (objects w) !! q)).
  rewrite lookup_insert_ne, Hq by done. by destruct w.
Qed.

(** Job handles follow their pipeline: after a move, by construction or by
    assignment, each handle names the new object with the same status and name,
    the source is empty, handles of the Impl that an assignment replaced dangle,
    and a self-move changes nothing for the handles. *)
Theorem handles_follow_moves w p q a m :
  built w -> impl_of w p = Some (a, m) ->
  let w' := Pipeline_move_assign w q p in
  impl_of w' q = Some (a, m) /\
  (objects w !! q = None -> Pipeline_move_ctor w q p = w') /\
  (forall i, (i < length (nodes_ m))%nat ->
     pipeline w' (handle a i) = Some (Some q) /\
     status w' q (handle a i) = status w p (handle a i) /\
     name w' q (handle a i) = name w p (handle a i)) /\
  (q <> p -> impl_of w' p = None /\
     forall b n i, impl_of w q = Some (b, n) -> pipeline w' (handle b i) = None).
Proof.
  intros Hw%built_ok Hp w'. pose proof (move_assign_impl w p q a m Hw Hp) as Hp'.
  pose proof (move_assign_ok w q p Hw) as Hw'. fold w' in Hp', Hw'.
  pose proof (proj1 (impl_of_object _ _ _ _ Hw) Hp) as (Ho & c & Hc & Hcm).
  split; [done|]. split.
  { intros Hq. apply move_ctor_assign; [|done]. intros ->. congruence. }
  split.
  { intros i Hi. destruct (node_of_handle w p a m i) as [_ Hn]; [done..|].
    destruct (node_of_handle w' q a m i) as [Hpl Hn']; [done..|].
    split; [done|]. unfold status, name. by rewrite Hn, Hn'. }
  intros Hqp. assert (Hptr : impl_ptr w p = Some a) by (by apply impl_ptr_Some).
  assert (Hobj : forall r, r <> q -> objects w' !! r = <[p := None]> (objects w) !! r).
  { intros r Hr. unfold w', Pipeline_move_assign, take_ownership. 
    repeat match goal with |- context [match impl_ptr ?x ?y with _ => _ end] => destruct (impl_ptr x y) end;
      unfold delete_impl; repeat case_match; cbn; by rewrite lookup_insert_ne. }
  split.
  - unfold impl_of, impl_ptr. by rewrite (Hobj p), lookup_insert_eq.
  - intros b n i Hb. pose proof (proj1 (impl_of_object _ _ _ _ Hw) Hb) as (Hob & cb & Hcb & _).
    unfold pipeline, handle. cbn [anchor_]. destruct (heap w' !! b) as [c'|] eqn:E; [exfalso|done].
    destruct (wo_heap _ Hw' _ _ E) as (_ & _ & r & _ & Hr).
    destruct (decide (r = q)) as [->|Hrq].
    + pose proof (proj1 (impl_of_object _ _ _ _ Hw') Hp') as (Hq' & _). rewrite Hq' in Hr. injection Hr as ->.
      destruct (wo_objects _ Hw _ _ Ho) as (? & ? & ?), (wo_objects _ Hw _ _ Hob) as (? & ? & ?). congruence.
    + rewrite Hobj in Hr by done. apply lookup_insert_Some in Hr as [[_ ?]|[_ Hr]]; [done|].
      destruct (wo_objects _ Hw _ _ Hr) as (? & ? & ?), (wo_objects _ Hw _ _ Hob) as (? & ? & ?). congruence.
Qed.

(** ** Witnesses

    Objects 0 and 1; object 0 holds a diamond of four jobs. *)

Definition run_calls (cs : list BuildCall) : World :=
  match calls cs World_empty with Return w _ | Throw w _ => w | Undefined => World_empty end.

Lemma run_calls_built cs : returned (calls cs World_empty) = true -> built (run_calls cs).
Proof.
  intros H. exists cs. unfold run_calls. destruct (calls cs World_empty); [|done|done]. by split.
Qed.

Definition diamond_calls : list BuildCall :=
  [CConstruct 0; CConstruct 1; CEmplace 0 0; CEmplaceVoid 0 1; CEmplaceCancellable 0 2;
   CEmplaceDeferred 0 3; CEmplace 1 4;
   CPrecedeGroup (handle 0 0) {| jobs_ := [handle 0 1; handle 0 2] |};
   CGroupPrecede {| jobs_ := [handle 0 1; handle 0 2] |} (handle 0 3); CAddOnDemand 0 5]%nat.
Definition diamond_world : World := run_calls diamond_calls.
Definition diamond_impl : Impl := match impl_of diamond_world 0 with Some (_, m) => m | None => Impl_new end.

Example diamond_adjacency : adjacency diamond_impl = [[1; 2]; [3]; [3]; []; []]%nat.
Proof. vm_compute. reflexivity. Qed.
Lemma diamond_built : built diamond_world.
Proof. apply run_calls_built. by vm_compute. Qed.
Lemma diamond_at : impl_of diamond_world 0 = Some (0%nat, diamond_impl).
Proof. by vm_compute. Qed.

Lemma diamond_size : length (nodes_ diamond_impl) = 5%nat.
Proof. vm_compute. reflexivity. Qed.

Lemma built_graph_wellformed_witness :
  targets_ok (adjacency diamond_impl) /\ total_edges (adjacency diamond_impl) = 4%nat.
Proof.
  split; [|by vm_compute].
  exact (proj1 (proj2 (proj2 (built_graph_wellformed _ _ _ _ diamond_built diamond_at)))).
Defined.

Lemma validate_decides_acyclicity_witness : acyclic (adjacency diamond_impl).
Proof. apply (validate_decides_acyclicity _ _ _ _ diamond_built diamond_at). by vm_compute. Defined.

Lemma refreshRoots_correct_witness : computeRoots diamond_impl = [0%nat] /\ acyclic (adjacency diamond_impl).
Proof.
  split; [by vm_compute|].
  pose proof (refreshRoots_correct _ _ _ _ diamond_built diamond_at) as H.
  assert (E : exists m', refreshRoots diamond_impl = Expected m') by (vm_compute; eauto).
  destruct E as [m' E]. rewrite E in H. exact (proj1 H).
Defined.

Lemma precede_records_edge_witness :
  Job_succeed diamond_world (handle 0 4)%nat (handle 0 3)%nat = Job_precede diamond_world (handle 0 3) (handle 0 4).
Proof.
  assert (H3 : (3 < length (nodes_ diamond_impl))%nat) by (rewrite diamond_size; lia).
  assert (H4 : (4 < length (nodes_ diamond_impl))%nat) by (rewrite diamond_size; lia).
  destruct (precede_records_edge _ _ _ _ 3 4 diamond_built diamond_at H3 H4) as [H _]. exact H.
Defined.

Lemma group_precede_cross_product_witness :
  wired diamond_world 0 diamond_impl [(1, 3); (1, 4); (2, 3); (2, 4)]%nat
    (JobGroup_precede_group diamond_world {| jobs_ := handle 0 <$> [1; 2] |} {| jobs_ := handle 0 <$> [3; 4] |})%nat.
Proof.
  refine (group_precede_cross_product _ 0 _ _ [1; 2] [3; 4] diamond_built diamond_at _ _)%nat;
    rewrite diamond_size; repeat constructor; lia.
Defined.

Lemma emplace_appends_witness :
  exists w' j, emplace_with diamond_world 0 (addNode (Some (VoidFn 7%nat)) "job_" 0) = Return w' j /\
    size w' 0 = 6 /\ name w' 0 j = "job_5"%string.
Proof.
  pose proof (emplace_appends _ _ _ _ (VoidFn 7%nat) "job_" 0 diamond_built diamond_at) as H.
  assert (Hr : returned (emplace_with diamond_world 0 (addNode (Some (VoidFn 7%nat)) "job_" 0)) = true)
    by (vm_compute; reflexivity).
  assert (Hsz : size diamond_world 0 = 5) by (vm_compute; reflexivity).
  assert (Hnm : ("job_" ++ pretty (length (nodes_ diamond_impl)))%string = "job_5"%string)
    by (vm_compute; reflexivity).
  destruct (emplace_with _ _ _) as [w' j|w' msg|]; [|discriminate Hr|discriminate Hr].
  destruct H as (m' & _ & _ & _ & _ & Hs & _ & Hn & _). exists w', j. split; [reflexivity|].
  rewrite Hs, Hn, Hsz. split; [reflexivity|exact Hnm].
Defined.

Lemma handles_follow_moves_witness :
  pipeline (Pipeline_move_assign diamond_world 1 0) (handle 0 2) = Some (Some 1%nat) /\
  pipeline (Pipeline_move_assign diamond_world 1 0) (handle 1 0) = None.
Proof.
  pose proof (handles_follow_moves _ _ 1 _ _ diamond_built diamond_at) as (_ & _ & H & Hd).
  split.
  - refine (proj1 (H 2%nat _)). rewrite diamond_size. lia.
  - destruct (Hd ltac:(lia)) as [_ Hd']. eapply (Hd' 1%nat). vm_compute. reflexivity.
Defined.

(** A handle of another pipeline: [other]'s index is looked up in this job's
    pipeline, so the edge goes to an unrelated job. *)
Example foreign_handle_wires_own_node :
  match Job_precede diamond_world (handle 0 3) (handle 1 0) with
  | Return w' _ => match impl_of w' 0 with Some (_, m) => adjacency m = [[1; 2]; [3]; [3]; [0]; []]%nat | None => False end
  | _ => False
  end.
Proof. vm_compute. reflexivity. Qed.
