(* ===== verification/Dsl.v ===== *)
(** The operator layer for building graphs (include/sub0pipeline/dsl.hpp): job
    specs that are emplaced later, and the [>>] and [+] overloads on jobs,
    groups, specs, tuples of jobs and chains of tuples. *)
From stdpp Require Import pretty.
From S2P Require Import Prelude Types EdgeLists SuccessorPool Nodes Kahn Graph Pipeline Construction.

(** ** Job specs *)

Record JobSpec := {
  name_ : string;
  spec_fn_ : JobFn;
  spec_timeout_ : Z;
  spec_priority_ : Z;
  spec_coreAffinity_ : Z;
  spec_stackBytes_ : Z;
  isOptional_ : bool;
}.

Definition JobSpec_make (n : string) (fn : JobFn) : JobSpec := {|
  name_ := n; spec_fn_ := fn; spec_timeout_ := 0; spec_priority_ := 0;
  spec_coreAffinity_ := -1; spec_stackBytes_ := 0; isOptional_ := false |}.

(** ["load"_job(fn)] and [job(fn)] *)
Definition JobNameProxy_call (proxy : string) (fn : JobFn) : JobSpec := JobSpec_make proxy fn.
Definition job (fn : JobFn) : JobSpec := JobSpec_make "" fn.

Definition spec_timeout (t : Z) (s : JobSpec) : JobSpec := {|
  name_ := name_ s; spec_fn_ := spec_fn_ s; spec_timeout_ := t; spec_priority_ := spec_priority_ s;
  spec_coreAffinity_ := spec_coreAffinity_ s; spec_stackBytes_ := spec_stackBytes_ s; isOptional_ := isOptional_ s |}.
Definition spec_priority (p : Z) (s : JobSpec) : JobSpec := {|
  name_ := name_ s; spec_fn_ := spec_fn_ s; spec_timeout_ := spec_timeout_ s; spec_priority_ := p;
  spec_coreAffinity_ := spec_coreAffinity_ s; spec_stackBytes_ := spec_stackBytes_ s; isOptional_ := isOptional_ s |}.
Definition spec_core (c : Z) (s : JobSpec) : JobSpec := {|
  name_ := name_ s; spec_fn_ := spec_fn_ s; spec_timeout_ := spec_timeout_ s; spec_priority_ := spec_priority_ s;
  spec_coreAffinity_ := c; spec_stackBytes_ := spec_stackBytes_ s; isOptional_ := isOptional_ s |}.
Definition spec_stack (b : Z) (s : JobSpec) : JobSpec := {|
  name_ := name_ s; spec_fn_ := spec_fn_ s; spec_timeout_ := spec_timeout_ s; spec_priority_ := spec_priority_ s;
  spec_coreAffinity_ := spec_coreAffinity_ s; spec_stackBytes_ := b; isOptional_ := isOptional_ s |}.
Definition spec_optional (o : bool) (s : JobSpec) : JobSpec := {|
  name_ := name_ s; spec_fn_ := spec_fn_ s; spec_timeout_ := spec_timeout_ s; spec_priority_ := spec_priority_ s;
  spec_coreAffinity_ := spec_coreAffinity_ s; spec_stackBytes_ := spec_stackBytes_ s; isOptional_ := o |}.

(** [p.emplace(fn_)]: the overload that the callable's type selects. *)
Definition emplace_fn (w : World) (p : nat) (fn : JobFn) : exec World Job :=
  match fn with
  | IgnoringStop f => emplace w p f
  | VoidFn f => emplaceVoid w p f
  | TokenFn f => emplaceCancellable w p f
  end.

(** [if (c) f(w)] *)
Definition when (c : bool) (f : World -> exec World unit) (w : World) : exec World unit :=
  if c then f w else Return w tt.

Definition build (s : JobSpec) (w : World) (p : nat) : exec World Job :=
  let! (w, j) := emplace_fn w p (spec_fn_ s) in
  let! (w, _u) := when (negb (name_ s =? "")%string) (fun w => Job_name (name_ s) w j) w in
  let! (w, _u) := when (0 <? spec_timeout_ s) (fun w => Job_timeout (spec_timeout_ s) w j) w in
  let! (w, _u) := when (0 <? spec_priority_ s) (fun w => Job_priority (spec_priority_ s) w j) w in
  let! (w, _u) := when (0 <=? spec_coreAffinity_ s) (fun w => Job_core (spec_coreAffinity_ s) w j) w in
  let! (w, _u) := when (0 <? spec_stackBytes_ s) (fun w => Job_stack (spec_stackBytes_ s) w j) w in
  let! (w, _u) := when (isOptional_ s) (fun w => Job_optional true w j) w in
  Return w j.

(** [JobSpecGroup]: the specs of a tuple, in order. *)
Definition JobSpecGroup : Type := list JobSpec.

(** The specs built one after the other, with their handles in order. *)
Fixpoint build_list (specs : JobSpecGroup) (w : World) (p : nat) : exec World (list Job) :=
  match specs with
  | [] => Return w []
  | s :: specs =>
      let! (w, j) := build s w p in
      let! (w, js) := build_list specs w p in
      Return w (j :: js)
  end.
Definition buildAll (specs : JobSpecGroup) (w : World) (p : nat) : exec World JobGroup :=
  let! (w, js) := build_list specs w p in
  Return w (foldl JobGroup_add JobGroup_empty js).

(** [Pipeline::emplace(specs...)] *)
Definition emplace_specs (specs : list JobSpec) (w : World) (p : nat) : exec World (list Job) :=
  build_list specs w p.

(** Specs grouped without emplacing them. *)
Definition spec_plus_spec (lhs rhs : JobSpec) : JobSpecGroup := [lhs; rhs].
Definition specs_plus_spec (lhs : JobSpecGroup) (rhs : JobSpec) : JobSpecGroup := lhs ++ [rhs].

(** ** Emplaced jobs and groups *)

Definition job_shift_job (w : World) (lhs rhs : Job) : exec World Job :=
  let! (w, _u) := Job_precede w lhs rhs in Return w rhs.
Definition job_plus_job (lhs rhs : Job) : JobGroup := JobGroup_pair lhs rhs.
Definition group_plus_job (lhs : JobGroup) (rhs : Job) : JobGroup := JobGroup_add lhs rhs.
Definition group_plus_group (lhs rhs : JobGroup) : JobGroup := foldl JobGroup_add lhs (jobs_ rhs).
Definition job_shift_group (w : World) (lhs : Job) (rhs : JobGroup) : exec World JobGroup :=
  let! (w, _u) := exec_for (jobs_ rhs) (fun w j => Job_precede w lhs j) w in Return w rhs.
Definition group_shift_job (w : World) (lhs : JobGroup) (rhs : Job) : exec World Job :=
  let! (w, _u) := exec_for (jobs_ lhs) (fun w j => Job_precede w j rhs) w in Return w rhs.

(** Every job of [l] precedes every job of [r]: the nested loop several of the
    operators share. *)
Definition cross (l r : list Job) (w : World) : exec World unit :=
  exec_for l (fun w a => exec_for r (fun w b => Job_precede w a b) w) w.
Definition group_shift_group (w : World) (lhs rhs : JobGroup) : exec World JobGroup :=
  let! (w, _u) := cross (jobs_ lhs) (jobs_ rhs) w in Return w rhs.

(** ** Emplacing with [>>] *)

(** [*lhs.pipeline()] *)
Definition deref_pipeline {A} (w : World) (lhs : Job) (f : nat -> exec World A) : exec World A :=
  match pipeline w lhs with Some (Some p) => f p | _ => Undefined end.
(** [*lhs.jobs().front().pipeline()] *)
Definition front_pipeline {A} (w : World) (lhs : list Job) (f : nat -> exec World A) : exec World A :=
  match lhs with j :: _ => deref_pipeline w j f | [] => Undefined end.

Definition pipe_shift_spec (w : World) (pipe : nat) (spec : JobSpec) : exec World Job := build spec w pipe.
Definition job_shift_spec (w : World) (lhs : Job) (rhs : JobSpec) : exec World Job :=
  deref_pipeline w lhs (fun p =>
    let! (w, newJob) := build rhs w p in
    let! (w, _u) := Job_precede w lhs newJob in Return w newJob).

(** [JobTuple<N>]: its jobs, in order. *)
Definition JobTuple : Type := list Job.
Definition JobTuple_group (t : JobTuple) : JobGroup := foldl JobGroup_add JobGroup_empty t.
Definition JobTuple_get (i : nat) (t : JobTuple) : option Job := t !! i.

Definition pipe_shift_specs (w : World) (pipe : nat) (rhs : JobSpecGroup) : exec World JobTuple :=
  build_list rhs w pipe.
Definition job_shift_specs (w : World) (lhs : Job) (rhs : JobSpecGroup) : exec World JobGroup :=
  deref_pipeline w lhs (fun p =>
    let! (w, group) := buildAll rhs w p in
    let! (w, _u) := exec_for (jobs_ group) (fun w j => Job_precede w lhs j) w in Return w group).
Definition group_shift_specs (w : World) (lhs : JobGroup) (rhs : JobSpecGroup) : exec World JobGroup :=
  front_pipeline w (jobs_ lhs) (fun p =>
    let! (w, rhsGroup) := buildAll rhs w p in
    let! (w, _u) := cross (jobs_ lhs) (jobs_ rhsGroup) w in Return w rhsGroup).
Definition group_shift_spec (w : World) (lhs : JobGroup) (rhs : JobSpec) : exec World Job :=
  front_pipeline w (jobs_ lhs) (fun p =>
    let! (w, newJob) := build rhs w p in
    let! (w, _u) := exec_for (jobs_ lhs) (fun w j => Job_precede w j newJob) w in Return w newJob).

(** The operators on a tuple give back the tuple, to be captured. *)
Definition tuple_shift_job (w : World) (lhs : JobTuple) (rhs : Job) : exec World JobTuple :=
  let! (w, _u) := exec_for lhs (fun w j => Job_precede w j rhs) w in Return w lhs.
Definition tuple_shift_spec (w : World) (lhs : JobTuple) (rhs : JobSpec) : exec World JobTuple :=
  front_pipeline w lhs (fun p =>
    let! (w, newJob) := build rhs w p in
    let! (w, _u) := exec_for lhs (fun w j => Job_precede w j newJob) w in Return w lhs).

(** [JobTupleChain]: the layers before the last, and the last one. *)
Record JobTupleChain := { layers_before : list JobTuple; last_layer : JobTuple }.
Definition chain_layers (c : JobTupleChain) : list JobTuple := layers_before c ++ [last_layer c].
Definition append (c : JobTupleChain) (newLayer : JobTuple) : JobTupleChain :=
  {| layers_before := chain_layers c; last_layer := newLayer |}.

Definition tuple_shift_specs (w : World) (lhs : JobTuple) (rhs : JobSpecGroup) : exec World JobTupleChain :=
  front_pipeline w lhs (fun p =>
    let! (w, newLayer) := build_list rhs w p in
    let! (w, _u) := cross lhs newLayer w in
    Return w {| layers_before := [lhs]; last_layer := newLayer |}).
Definition chain_shift_job (w : World) (lhs : JobTupleChain) (rhs : Job) : exec World JobTupleChain :=
  let! (w, _u) := exec_for (last_layer lhs) (fun w j => Job_precede w j rhs) w in Return w lhs.
Definition chain_shift_spec (w : World) (lhs : JobTupleChain) (rhs : JobSpec) : exec World JobTupleChain :=
  front_pipeline w (last_layer lhs) (fun p =>
    let! (w, newJob) := build rhs w p in
    let! (w, _u) := exec_for (last_layer lhs) (fun w j => Job_precede w j newJob) w in Return w lhs).
Definition chain_shift_specs (w : World) (lhs : JobTupleChain) (rhs : JobSpecGroup) : exec World JobTupleChain :=
  front_pipeline w (last_layer lhs) (fun p =>
    let! (w, newLayer) := build_list rhs w p in
    let! (w, _u) := cross (last_layer lhs) newLayer w in
    Return w (append lhs newLayer)).

(** ** What building a spec does *)

(** [w] is [w0] with the one node [nd] appended to pipeline [p]. *)
Definition appended (w0 : World) (a : nat) (m : Impl) (w : World) (nd : Node) : Prop :=
  exists m', w = put_impl w0 a m' /\ impl_ok m' /\ nodes_ m' = nodes_ m ++ [nd] /\
    adjacency m' = adjacency m ++ [[]].

Lemma alter_last {A} (f : A -> A) (l : list A) x : alter f (length l) (l ++ [x]) = l ++ [f x].
Proof. induction l as [|y l IH]; [done|]. cbn. by f_equal. Qed.

Lemma appended_update w0 p a m w nd (c : bool) f :
  world_ok w0 -> impl_of w0 p = Some (a, m) -> appended w0 a m w nd -> benign f ->
  exists w', when c (fun w => update_job f w (handle a (length (nodes_ m)))) w = Return w' tt /\
    appended w0 a m w' (if c then f nd else nd).
Proof.
  intros Hw Hp (m' & -> & Hm' & Hn & Ha) Hf. destruct c; simpl; [|by eexists; split; [done|exists m']].
  pose proof (impl_of_put _ _ _ _ _ Hw Hp Hm') as Hp'.
  pose proof (put_impl_world_ok _ a _ Hw Hm') as Hw'. unfold update_job.
  rewrite (with_node_handle _ p a m' (length (nodes_ m)) nd);
    [|done|done|rewrite Hn; by apply list_lookup_middle].
  eexists. split; [reflexivity|]. exists (alter_node f (length (nodes_ m)) m'). rewrite put_impl_put.
  split; [done|]. split; [by apply alter_node_benign|]. split; [|by rewrite adjacency_benign].
  cbn. rewrite Hn. apply alter_last.
Qed.

(** The node a spec asks for, on top of the node [emplace] makes. *)
Definition spec_node (s : JobSpec) (nd : Node) : Node :=
  let nd := if negb (name_ s =? "")%string then set_nameStr (name_ s) nd else nd in
  let nd := if 0 <? spec_timeout_ s then set_timeout (spec_timeout_ s) nd else nd in
  let nd := if 0 <? spec_priority_ s then set_priority (spec_priority_ s) nd else nd in
  let nd := if 0 <=? spec_coreAffinity_ s then set_coreAffinity (spec_coreAffinity_ s) nd else nd in
  let nd := if 0 <? spec_stackBytes_ s then set_stackBytes (spec_stackBytes_ s) nd else nd in
  if isOptional_ s then set_flags (u8 (Z.lor (flags_ nd) kFlagOptional)) nd else nd.

Definition fn_flags (fn : JobFn) : Z := match fn with TokenFn _ => kFlagCancellable | _ => 0 end.
Definition fn_node (fn : JobFn) (n stop : nat) : Node :=
  set_nameStr ("job_" ++ pretty n)%string (set_flags (fn_flags fn) (set_fn (Some fn) (Node_default stop))).

Lemma emplace_fn_spec w p a m fn :
  world_ok w -> impl_of w p = Some (a, m) ->
  match emplace_fn w p fn with
  | Return w' j => j = handle a (length (nodes_ m)) /\
      appended w a m w' (fn_node fn (length (nodes_ m)) (length (stopStates m)))
  | Throw w' _ => w' = w /\ zlen (nodes_ m) = 65536
  | Undefined => False
  end.
Proof.
  intros Hw Hp. pose proof (impl_of_ok _ _ _ _ Hw Hp) as Hm.
  replace (emplace_fn w p fn) with (emplace_with w p (addNode (Some fn) "job_" (fn_flags fn))) by (by destruct fn).
  unfold emplace_with, ensure. pose proof (proj1 (impl_of_object _ _ _ _ Hw) Hp) as (Ho & c & Hc & <-).
  rewrite (proj2 (impl_ptr_Some _ _ _) Ho), Hc. pose proof (addNode_spec (Some fn) "job_" (fn_flags fn) _ Hm) as H.
  unfold on_impl. destruct (addNode _ _ _ _) as [m' idx|m' msg|] eqn:E; [| |done].
  - destruct H as (Hm' & -> & Ha & _). pose proof (go_count _ (proj1 Hm')) as Hc'. revert E.
    unfold addNode. destruct (negb _); [done|]. intros [= <-]. cbn [nodes_ set_rootsCached set_stopStates set_nodes] in Hc'.
    unfold zlen in Hc'. rewrite length_app in Hc'. simpl in Hc'. cbn [exec_bind].
    rewrite u32_small by (unfold is_u32; lia). split; [done|]. eexists. split; [reflexivity|]. done.
  - destruct H as [-> H]. split; [by apply (put_impl_same w p)|done].
Qed.

Lemma build_spec s w p a m :
  world_ok w -> impl_of w p = Some (a, m) ->
  match build s w p with
  | Return w' j => j = handle a (length (nodes_ m)) /\
      appended w a m w' (spec_node s (fn_node (spec_fn_ s) (length (nodes_ m)) (length (stopStates m))))
  | Throw w' _ => w' = w /\ zlen (nodes_ m) = 65536
  | Undefined => False
  end.
Proof.
  intros Hw Hp. unfold build. pose proof (emplace_fn_spec w p a m (spec_fn_ s) Hw Hp) as H.
  destruct (emplace_fn w p (spec_fn_ s)) as [w1 j|w1 msg|]; [|done|done].
  destruct H as [-> H]. cbn [exec_bind]. set (nd := fn_node _ _ _) in *. unfold spec_node.
  unfold Job_name, Job_timeout, Job_priority, Job_core, Job_stack, Job_optional.
  repeat match goal with
  | H : appended w a m ?w1 ?nd |- context [when ?c (fun w => update_job ?f w _) ?w1] =>
      destruct (appended_update w p a m w1 nd c f Hw Hp H) as (? & -> & ?);
        [first [benign_field | apply (benign_optional true)]|]; cbn [exec_bind]; clear H
  end.
  split; [done|]. destruct (isOptional_ s); done.
Qed.

(** ** Layers *)

(** The edges [cross] makes between indices. *)
Definition cross_edges (l r : list nat) : list (nat * nat) := l ≫= fun i => (fun k => (i, k)) <$> r.

Lemma cross_handles w p a m l r :
  world_ok w -> impl_of w p = Some (a, m) ->
  Forall (fun i => i < length (nodes_ m))%nat l -> Forall (fun i => i < length (nodes_ m))%nat r ->
  wired w a m (cross_edges l r) (cross (handle a <$> l) (handle a <$> r) w).
Proof. intros. eapply JobGroup_precede_group_wired; done. Qed.

(** [k] new jobs without edges at the end of pipeline [a]. *)
Definition grown (w0 : World) (a : nat) (m : Impl) (w : World) (k : nat) : Prop :=
  exists m', w = put_impl w0 a m' /\ impl_ok m' /\ length (nodes_ m') = (length (nodes_ m) + k)%nat /\
    adjacency m' = adjacency m ++ replicate k [].

Lemma build_list_spec specs w p a m :
  world_ok w -> impl_of w p = Some (a, m) ->
  match build_list specs w p with
  | Return w' js => js = handle a <$> seq (length (nodes_ m)) (length specs) /\ grown w a m w' (length specs)
  | Throw _ _ => True
  | Undefined => False
  end.
Proof.
  revert w m. induction specs as [|s specs IH]; intros w m Hw Hp; cbn [build_list length].
  - split; [done|]. exists m. rewrite (put_impl_same w p) by done. split; [done|].
    split; [by eapply impl_of_ok|]. split; [lia|]. by rewrite app_nil_r.
  - pose proof (build_spec s w p a m Hw Hp) as H.
    destruct (build s w p) as [w1 j|w1 msg|]; cbn [exec_bind]; [|done|done].
    destruct H as (-> & m1 & -> & Hm1 & Hn1 & Ha1).
    pose proof (put_impl_world_ok _ a _ Hw Hm1) as Hw1. pose proof (impl_of_put _ _ _ _ _ Hw Hp Hm1) as Hp1.
    specialize (IH _ _ Hw1 Hp1). destruct (build_list _ _ _) as [w2 js|w2 msg|]; cbn [exec_bind]; [|done|done].
    destruct IH as (-> & m2 & -> & Hm2 & Hn2 & Ha2). rewrite Hn1, length_app in *. simpl in Hn2.
    split; [cbn; by rewrite Nat.add_1_r|]. exists m2. rewrite put_impl_put. split; [done|]. split; [done|].
    split; [lia|]. rewrite Ha2, Ha1, <- app_assoc. done.
Qed.

(** Building a layer and wiring a front of existing jobs to all of it. *)
Lemma layer_spec specs w p a m front :
  world_ok w -> impl_of w p = Some (a, m) -> Forall (fun i => i < length (nodes_ m))%nat front ->
  match (let! (w, js) := build_list specs w p in
         let! (w, _u) := cross (handle a <$> front) js w in Return w js) with
  | Return w' js => js = handle a <$> seq (length (nodes_ m)) (length specs) /\
      exists m', impl_of w' p = Some (a, m') /\ impl_ok m' /\
        adjacency m' = add_edges (cross_edges front (seq (length (nodes_ m)) (length specs)))
                         (adjacency m ++ replicate (length specs) [])
  | Throw _ _ => True
  | Undefined => False
  end.
Proof.
  intros Hw Hp Hf. pose proof (build_list_spec specs w p a m Hw Hp) as H.
  destruct (build_list specs w p) as [w1 js|w1 msg|]; cbn [exec_bind]; [|done|done].
  destruct H as (-> & m1 & -> & Hm1 & Hn1 & Ha1).
  pose proof (put_impl_world_ok _ a _ Hw Hm1) as Hw1. pose proof (impl_of_put _ _ _ _ _ Hw Hp Hm1) as Hp1.
  pose proof (cross_handles _ p a m1 front (seq (length (nodes_ m)) (length specs)) Hw1 Hp1) as Hx.
  assert (Hf1 : Forall (fun i => i < length (nodes_ m1))%nat front)
    by (eapply Forall_impl; [exact Hf|]; simpl; lia).
  assert (Hs1 : Forall (fun i => i < length (nodes_ m1))%nat (seq (length (nodes_ m)) (length specs)))
    by (apply Forall_forall; intros i Hi%elem_of_seq; lia).
  specialize (Hx Hf1 Hs1). unfold wired in Hx. destruct (cross _ _ _) as [w2 []|w2 msg|]; cbn [exec_bind]; [|done|done].
  destruct Hx as (m2 & -> & Hm2 & Ha2). split; [done|]. exists m2.
  split; [by eapply impl_of_put|]. split; [done|]. by rewrite Ha2, Ha1.
Qed.

Lemma front_pipeline_handles {A} w p a m l (f : nat -> exec World A) :
  world_ok w -> impl_of w p = Some (a, m) -> l <> [] -> Forall (fun i => i < length (nodes_ m))%nat l ->
  front_pipeline w (handle a <$> l) f = f p.
Proof.
  intros Hw Hp Hl Hf. destruct l as [|i l]; [done|]. cbn. unfold deref_pipeline.
  apply Forall_cons in Hf as [Hi _]. by destruct (node_of_handle w p a m i Hw Hp Hi) as [-> _].
Qed.

(** A chain of layers built with [>>] wires exactly consecutive layers: the
    new layer's jobs are the next indices in spec order, each job of the last
    layer precedes each of them, no other edge is added, and the chain keeps all
    its layers for capture. *)
Theorem chain_wires_consecutive_layers w p a m before front specs :
  built w -> impl_of w p = Some (a, m) -> front <> [] ->
  Forall (fun i => i < length (nodes_ m))%nat front ->
  match chain_shift_specs w {| layers_before := before; last_layer := handle a <$> front |} specs with
  | Return w' c =>
      let fresh := seq (length (nodes_ m)) (length specs) in
      chain_layers c = before ++ [handle a <$> front; handle a <$> fresh] /\
      exists m', impl_of w' p = Some (a, m') /\ impl_ok m' /\
        adjacency m' = add_edges (cross_edges front fresh) (adjacency m ++ replicate (length specs) [])
  | Throw _ _ => True
  | Undefined => False
  end.
Proof.
  intros Hw%built_ok Hp Hne Hf. unfold chain_shift_specs. cbn [last_layer].
  erewrite front_pipeline_handles by done. pose proof (layer_spec specs w p a m front Hw Hp Hf) as H.
  destruct (build_list specs w p) as [w1 js|w1 msg|]; cbn [exec_bind] in *; [|done|done].
  destruct (cross _ _ _) as [w2 []|w2 msg|]; cbn [exec_bind] in *; [|done|done].
  destruct H as (-> & H). split; [|done]. unfold chain_layers, append. cbn. by rewrite <- app_assoc.
Qed.

(** Building a spec applies its options and nothing else: each option left
    at its "unset" value keeps the default of a new job. *)
Theorem build_applies_options s w p a m :
  built w -> impl_of w p = Some (a, m) ->
  match build s w p with
  | Return w' j => j = handle a (length (nodes_ m)) /\
      exists m' nd, impl_of w' p = Some (a, m') /\ nodes_ m' = nodes_ m ++ [nd] /\
        fn_ nd = Some (spec_fn_ s) /\
        nameStr_ nd = (if decide (name_ s = "") then "job_" ++ pretty (length (nodes_ m)) else name_ s)%string /\
        timeout_ nd = (if 0 <? spec_timeout_ s then spec_timeout_ s else milliseconds_max) /\
        priority_ nd = (if 0 <? spec_priority_ s then spec_priority_ s else 5) /\
        coreAffinity_ nd = Z.max (-1) (spec_coreAffinity_ s) /\
        stackBytes_ nd = (if 0 <? spec_stackBytes_ s then spec_stackBytes_ s else 8192) /\
        isOptional nd = isOptional_ s /\ isOnDemand nd = false /\ isDeferred nd = false /\
        isCancellable nd = match spec_fn_ s with TokenFn _ => true | _ => false end
  | Throw w' _ => w' = w /\ size w p = 65536
  | Undefined => False
  end.
Proof.
  intros Hw%built_ok Hp. pose proof (build_spec s w p a m Hw Hp) as H.
  destruct (build s w p) as [w' j|w' msg|]; [| |done].
  - destruct H as (-> & m' & -> & Hm' & Hn & _). split; [done|]. eexists m', _.
    split; [by eapply impl_of_put|]. split; [exact Hn|]. unfold spec_node, fn_node.
    assert (Hname : forall x y : string, (if negb (name_ s =? "")%string then x else y)
      = if decide (name_ s = "") then y else x).
    { intros x y. destruct (String.eqb_spec (name_ s) ""); case_decide; done. }
    assert (Hcore : (if 0 <=? spec_coreAffinity_ s then spec_coreAffinity_ s else -1)
      = Z.max (-1) (spec_coreAffinity_ s)) by (destruct (Z.leb_spec 0 (spec_coreAffinity_ s)); lia).
    rewrite <- Hname, <- Hcore.
    destruct (negb (name_ s =? "")%string), (0 <? spec_timeout_ s), (0 <? spec_priority_ s),
      (0 <=? spec_coreAffinity_ s), (0 <? spec_stackBytes_ s), (isOptional_ s), (spec_fn_ s); done.
  - destruct H as [-> H]. split; [done|]. unfold size. by rewrite Hp.
Qed.

Definition sample_specs : JobSpecGroup :=
  spec_plus_spec (spec_timeout 500 (JobNameProxy_call "parse" (VoidFn 1%nat)))
                 (spec_optional true (job (TokenFn 2%nat))).

Lemma chain_wires_consecutive_layers_witness :
  exists w' c m', chain_shift_specs diamond_world
      {| layers_before := []; last_layer := [handle 0 2; handle 0 3] |} sample_specs = Return w' c /\
    impl_of w' 0 = Some (0%nat, m') /\
    adjacency m' = [[1; 2]; [3]; [3; 5; 6]; [5; 6]; []; []; []]%nat.
Proof.
  assert (Hf : Forall (fun i => i < length (nodes_ diamond_impl))%nat [2; 3]%nat)
    by (rewrite diamond_size; repeat constructor; lia).
  pose proof (chain_wires_consecutive_layers _ _ _ _ [] [2; 3]%nat sample_specs diamond_built diamond_at
    ltac:(discriminate) Hf) as H.
  assert (Hr : returned (chain_shift_specs diamond_world
    {| layers_before := []; last_layer := handle 0 <$> [2; 3]%nat |} sample_specs) = true)
    by (vm_compute; reflexivity).
  assert (Ha : add_edges (cross_edges [2; 3]%nat (seq (length (nodes_ diamond_impl)) 2))
    (adjacency diamond_impl ++ replicate 2 []) = [[1; 2]; [3]; [3; 5; 6]; [5; 6]; []; []; []]%nat)
    by (vm_compute; reflexivity).
  change [handle 0 2; handle 0 3] with (handle 0 <$> [2; 3]%nat).
  destruct (chain_shift_specs _ _ _) as [w' c|w' msg|]; [|discriminate Hr|discriminate Hr].
  destruct H as (_ & m' & Hp & _ & Hadj). exists w', c, m'. split; [reflexivity|]. split; [exact Hp|].
  rewrite <- Ha. exact Hadj.
Defined.

Lemma build_applies_options_witness :
  match build (spec_optional true (job (TokenFn 2%nat))) diamond_world 0 with
  | Return w' j => j = handle 0 5
  | _ => False
  end.
Proof.
  pose proof (build_applies_options (spec_optional true (job (TokenFn 2%nat))) _ _ _ _ diamond_built diamond_at) as H.
  assert (Hr : returned (build (spec_optional true (job (TokenFn 2%nat))) diamond_world 0) = true)
    by (vm_compute; reflexivity).
  destruct (build _ _ _) as [w' j|w' msg|]; [|discriminate Hr|discriminate Hr].
  destruct H as [H _]. rewrite diamond_size in H. exact H.
Defined.
