(* ===== verification/Run.v ===== *)
(** The beginning of a run (Pipeline::runImpl up to the dispatch, with
    renewStopState, hasOrphans and joinOrphans, src/sub0pipeline.cpp): the entry
    checks, the root cache, and the per-node initialisation. *)
From S2P Require Import Prelude Types EdgeLists SuccessorPool Nodes Kahn Graph Pipeline.

Definition stop_requested (m : Impl) (nd : Node) : bool := default false (stopStates m !! stopSource_ nd).

(** A node whose stop state an earlier run can reach gets a new one. *)
Definition renewStopState (i : nat) (m : Impl) : Impl :=
  match nodes_ m !! i with
  | None => m
  | Some nd =>
      if isCancellable nd || isDeferred nd || stop_requested m nd
      then alter_node (set_stopSource (length (stopStates m))) i
             (set_stopStates (stopStates m ++ [false]) m)
      else m
  end.

(** One iteration of the initialisation loop. *)
Definition init_fields (nd : Node) : Node :=
  set_jobStatus (if (predecessorCount_ nd =? 0) && negb (isOnDemand nd) then kReady else kPending)
    (set_unmetDeps (predecessorCount_ nd) nd).
Definition init_node (m : Impl) (i : nat) : Impl := alter_node init_fields i (renewStopState i m).
Definition init_nodes (m : Impl) : Impl := foldl init_node m (seq 0 (length (nodes_ m))).

Definition hasOrphans (m : Impl) : bool :=
  negb (pendingOrphans_ m =? 0) || negb (deferredOrphans_ m =? 0).
(** [joinOrphans] returns once every retained thread has been joined and every
    orphaned Completion released; its result says whether there was any. *)
Definition joinOrphans (m : Impl) : Impl * bool := (set_orphans 0 0 m, hasOrphans m).

(** How [runImpl] begins: it returns at once, or the dispatch starts. *)
Inductive Begun : Type :=
  | RunReturns (m : Impl) (result : Outcome)
  | RunStarts (m : Impl).

Definition begin_run (m : Impl) : Begun :=
  if bool_decide (nodes_ m = []) then RunReturns m success
  else if running_ m then RunReturns m (Unexpected kBusy)
  else
    let m := if hasOrphans m then (joinOrphans m).1 else m in
    let m := set_completedCount 0 (set_running true m) in
    match refreshRoots m with
    | Unexpected e => RunReturns (set_running false m) (Unexpected e)
    | Expected m => RunStarts (set_failedJobName "" (init_nodes m))
    end.

(** ** The state a run starts from *)

Definition status_at (m : Impl) (i : nat) : JobStatus :=
  match nodes_ m !! i with Some nd => jobStatus_ nd | None => kPending end.
Definition unmet_at (m : Impl) (i : nat) : Z :=
  match nodes_ m !! i with Some nd => unmetDeps_ nd | None => 0 end.
Definition optional_at (m : Impl) (i : nat) : bool :=
  match nodes_ m !! i with Some nd => isOptional nd | None => false end.
Definition ondemand_at (m : Impl) (i : nat) : bool :=
  match nodes_ m !! i with Some nd => isOnDemand nd | None => false end.
Definition name_at (m : Impl) (i : nat) : string :=
  match nodes_ m !! i with Some nd => nameStr_ nd | None => "" end.

#[global] Arguments status_at : simpl never.
#[global] Arguments unmet_at : simpl never.
#[global] Arguments optional_at : simpl never.
#[global] Arguments ondemand_at : simpl never.
#[global] Arguments name_at : simpl never.

(** What never changes during a run. *)
Record same_graph (m m' : Impl) : Prop := {
  sg_adjacency : adjacency m' = adjacency m;
  sg_length : length (nodes_ m') = length (nodes_ m);
  sg_optional : forall i, optional_at m' i = optional_at m i;
  sg_ondemand : forall i, ondemand_at m' i = ondemand_at m i;
  sg_name : forall i, name_at m' i = name_at m i;
}.

#[export] Instance same_graph_refl : Reflexive same_graph.
Proof. by split. Qed.
#[export] Instance same_graph_trans : Transitive same_graph.
Proof. intros m1 m2 m3 [] []. split; intros; congruence. Qed.

(** An update of one node that keeps its edges, flags and name. *)
Record quiet (f : Node -> Node) : Prop := {
  qt_succ : forall nd, successors_ (f nd) = successors_ nd;
  qt_flags : forall nd, flags_ (f nd) = flags_ nd;
  qt_name : forall nd, nameStr_ (f nd) = nameStr_ nd;
}.

Lemma lookup_alter_node f i m j :
  nodes_ (alter_node f i m) !! j = (if decide (i = j) then f <$> nodes_ m !! j else nodes_ m !! j).
Proof.
  unfold alter_node. cbn [nodes_ set_nodes]. case_decide as Hd; [subst; apply list_lookup_alter_eq|].
  by apply list_lookup_alter_ne.
Qed.

Lemma alter_node_quiet f i m : quiet f -> same_graph m (alter_node f i m).
Proof.
  intros [Hs Hf Hn]. split.
  - unfold adjacency, alter_node. cbn [nodes_ set_nodes succPool_].
    apply alter_fmap_id. intros nd. unfold succ_ids. cbn. by rewrite Hs.
  - apply length_alter.
  - intros j. unfold optional_at, isOptional. rewrite lookup_alter_node.
    case_decide; [|done]. destruct (nodes_ m !! j); simpl; [by rewrite Hf|done].
  - intros j. unfold ondemand_at, isOnDemand. rewrite lookup_alter_node.
    case_decide; [|done]. destruct (nodes_ m !! j); simpl; [by rewrite Hf|done].
  - intros j. unfold name_at. rewrite lookup_alter_node.
    case_decide; [|done]. destruct (nodes_ m !! j); simpl; [by rewrite Hn|done].
Qed.

Lemma quiet_init : quiet init_fields.
Proof. split; by intros []. Qed.

Lemma renewStopState_graph i m : same_graph m (renewStopState i m).
Proof.
  unfold renewStopState. destruct (nodes_ m !! i) eqn:E; [|done]. destruct (_ || _); [|done].
  transitivity (set_stopStates (stopStates m ++ [false]) m); [by split|].
  apply alter_node_quiet. split; by intros [].
Qed.

Lemma init_node_graph m i : same_graph m (init_node m i).
Proof. etransitivity; [apply renewStopState_graph|]. apply alter_node_quiet, quiet_init. Qed.

Lemma foldl_init_graph l m : same_graph m (foldl init_node m l).
Proof.
  revert m. induction l as [|i l IH]; intros m; [done|]. cbn.
  etransitivity; [apply init_node_graph|apply IH].
Qed.

Lemma renewStopState_lookup i m j :
  exists f, nodes_ (renewStopState i m) !! j = f <$> nodes_ m !! j /\
    forall nd, jobStatus_ (f nd) = jobStatus_ nd /\ unmetDeps_ (f nd) = unmetDeps_ nd /\
      predecessorCount_ (f nd) = predecessorCount_ nd /\ isOnDemand (f nd) = isOnDemand nd.
Proof.
  unfold renewStopState. destruct (nodes_ m !! i) eqn:E.
  2:{ exists (fun x => x). rewrite option_fmap_id. auto. }
  destruct (_ || _). 2:{ exists (fun x => x). rewrite option_fmap_id. auto. }
  rewrite lookup_alter_node. case_decide.
  - eexists (set_stopSource (length (stopStates m))). cbn. split; [done|by intros []].
  - exists (fun x => x). rewrite option_fmap_id. auto.
Qed.

Definition initial_status (pred : Z) (demand : bool) : JobStatus :=
  if (pred =? 0) && negb demand then kReady else kPending.

Lemma init_nodes_lookup_gen l m j nd :
  NoDup l -> nodes_ m !! j = Some nd ->
  exists nd', nodes_ (foldl init_node m l) !! j = Some nd' /\
    predecessorCount_ nd' = predecessorCount_ nd /\ isOnDemand nd' = isOnDemand nd /\
    (if decide (j ∈ l)
     then unmetDeps_ nd' = predecessorCount_ nd /\
          jobStatus_ nd' = initial_status (predecessorCount_ nd) (isOnDemand nd)
     else unmetDeps_ nd' = unmetDeps_ nd /\ jobStatus_ nd' = jobStatus_ nd).
Proof.
  revert m nd. induction l as [|i l IH]; intros m nd Hnd Hj; [by exists nd|].
  apply NoDup_cons in Hnd as [Hi Hnd]. cbn [foldl].
  destruct (renewStopState_lookup i m j) as (f & Hf & Hfs). rewrite Hj in Hf. cbn in Hf.
  destruct (Hfs nd) as (Fs & Fu & Fp & Fd).
  destruct (decide (i = j)) as [->|Hij].
  - assert (Hj1 : nodes_ (init_node m j) !! j = Some (init_fields (f nd)))
      by (unfold init_node; rewrite lookup_alter_node, decide_True, Hf by done; done).
    destruct (IH _ _ Hnd Hj1) as (nd' & H1 & H2 & H3 & H4). exists nd'. split; [done|].
    rewrite decide_False in H4 by done. rewrite decide_True by set_solver.
    destruct H4 as [H4 H5]. rewrite H2, H3, H4, H5. unfold initial_status. cbn. by rewrite Fp, Fd.
  - assert (Hj1 : nodes_ (init_node m i) !! j = Some (f nd))
      by (unfold init_node; rewrite lookup_alter_node, decide_False, Hf by done; done).
    destruct (IH _ _ Hnd Hj1) as (nd' & H1 & H2 & H3 & H4). exists nd'.
    split; [done|]. rewrite H2, H3, Fp, Fd. split; [done|]. split; [done|].
    destruct (decide (j ∈ l)).
    + rewrite decide_True by set_solver. by rewrite Fp, Fd in H4.
    + rewrite decide_False by set_solver. by rewrite Fs, Fu in H4.
Qed.

(** Every node's counter starts at its predecessor count, and exactly the roots
    start ready. *)
Lemma init_nodes_spec m :
  same_graph m (init_nodes m) /\
  forall i nd, nodes_ m !! i = Some nd ->
    unmet_at (init_nodes m) i = predecessorCount_ nd /\
    status_at (init_nodes m) i = initial_status (predecessorCount_ nd) (isOnDemand nd).
Proof.
  split; [apply foldl_init_graph|]. intros i nd Hi.
  destruct (init_nodes_lookup_gen (seq 0 (length (nodes_ m))) m i nd (NoDup_seq _ _) Hi)
    as (nd' & H1 & _ & _ & H4).
  rewrite decide_True in H4 by (apply elem_of_seq; apply lookup_lt_Some in Hi; lia).
  unfold unmet_at, status_at. unfold init_nodes. by rewrite H1.
Qed.
