(* ===== verification/Dispatch.v ===== *)
(** The scheduler core of [Pipeline::runImpl]: [DispatchContext] and the root
    submission loop (src/sub0pipeline.cpp), as the interleaving of threads that
    execute one atomic access, one lock acquisition or one call out of the
    library per step.

    A thread is a stack of operations; each operation is a program point of
    dispatchJob, startDeferred, finishJob, skipNode, submissionFailed or the root
    loop, with the locals it still needs. The environment decides what a job
    returns, when a deferred job's outcome arrives, and whether the executor
    accepts a submission; an accepted submission is a thread that runs
    [dispatchJob] once, at any later time. *)
From S2P Require Import Prelude Types EdgeLists SuccessorPool Nodes Kahn Graph Pipeline Run.

(** Calls an observer sees (on jobs; progress is the count it is computed from). *)
Inductive Event : Set :=
  | onJobStart (i : nat)
  | onJobAwaiting (i : nat)
  | onJobFinish (i : nat) (s : JobStatus) (done : Z)
  | onJobFailure (i : nat) (e : PipelineError)
  | onDependenciesResolved (i : nat) (targets : list nat).

#[export] Instance Event_eq_dec : EqDecision Event.
Proof. solve_decision. Defined.

(** What follows the claims made under the skip lock. *)
Inductive AfterClaims : Set :=
  | Gate                      (* skipNode: drain unless another thread does *)
  | CountOf (idx : nat).      (* in the drain loop: count the popped node *)

Inductive op : Set :=
  (* root submission loop of runImpl *)
  | ORoots (l : list nat)
  (* dispatchJob and startDeferred *)
  | ODispatchJob (i : nat) | OClaim (i : nat) | OInvoke (i : nat)
  | OAwait (i : nat) | ODeliver (i : nat)
  (* finishJob *)
  | OFinish (i : nat) (r : Outcome) | OCount (i : nat) (r : Outcome) | OAfter (i : nat) (r : Outcome)
  | OFatal (i : nat) (e : PipelineError) (l : list nat)
  | ORelease (i : nat) (l : list nat) | OSub (i s : nat) (l : list nat)
  | OReadyCas (i s : nat) (l : list nat) | OSubmit (i s : nat) (l : list nat)
  (* submissionFailed *)
  | OSubmissionFailed (i : nat) | OSubRecord (i : nat) (failed : bool) | OSubCount (i : nat)
  (* skipNode, and loops that call it *)
  | OSkips (l : list nat) | OSkipEnter (i : nat)
  | OSkipClaims (l : list nat) (k : AfterClaims) | OSkipLoop | OSkipRelock
  (* an observer call *)
  | OObserve (e : Event).

Record DispatchContext := {
  impl_ : Impl;
  hasFatalFailure : bool;
  fatalError : PipelineError;
  skipped_ : list nat;
  skipRead : nat;
  drainingSkips : bool;
  skipMutex : bool;           (* held? *)
  trace : list Event;
}.

Definition with_impl (m : Impl) (c : DispatchContext) : DispatchContext :=
  {| impl_ := m; hasFatalFailure := hasFatalFailure c; fatalError := fatalError c;
     skipped_ := skipped_ c; skipRead := skipRead c; drainingSkips := drainingSkips c;
     skipMutex := skipMutex c; trace := trace c |}.
Definition with_skips (q : list nat) (r : nat) (d m : bool) (c : DispatchContext) : DispatchContext :=
  {| impl_ := impl_ c; hasFatalFailure := hasFatalFailure c; fatalError := fatalError c;
     skipped_ := q; skipRead := r; drainingSkips := d; skipMutex := m; trace := trace c |}.
Definition observe (e : Event) (c : DispatchContext) : DispatchContext :=
  {| impl_ := impl_ c; hasFatalFailure := hasFatalFailure c; fatalError := fatalError c;
     skipped_ := skipped_ c; skipRead := skipRead c; drainingSkips := drainingSkips c;
     skipMutex := skipMutex c; trace := trace c ++ [e] |}.

Definition store_status (i : nat) (s : JobStatus) (m : Impl) : Impl := alter_node (set_jobStatus s) i m.
Definition store_unmet (i : nat) (z : Z) (m : Impl) : Impl := alter_node (set_unmetDeps z) i m.

Definition succs (m : Impl) (i : nat) : list nat := default [] (adjacency m !! i).

#[global] Arguments store_status : simpl never.
#[global] Arguments store_unmet : simpl never.
#[global] Arguments succs : simpl never.

(** [recordFailure], a critical section of [fatalMtx]. *)
Definition recordFailure (idx : nat) (error : PipelineError) (c : DispatchContext) : DispatchContext :=
  if hasFatalFailure c then c
  else {| impl_ := set_failedJobName (name_at (impl_ c) idx) (impl_ c); hasFatalFailure := true;
          fatalError := error; skipped_ := skipped_ c; skipRead := skipRead c;
          drainingSkips := drainingSkips c; skipMutex := skipMutex c; trace := trace c |}.

(** [completedCount_.fetch_add(1) + 1] *)
Definition count_one (c : DispatchContext) : DispatchContext * Z :=
  let done := u32 (completedCount_ (impl_ c) + 1) in
  (with_impl (set_completedCount done (impl_ c)) c, done).

(** [notifyDependencies]: called when there are successors. *)
Definition notifyDependencies (m : Impl) (i : nat) : list op :=
  match succs m i with [] => [] | l => [OObserve (onDependenciesResolved i l)] end.

(** [enqueueSkip]: a pending or ready node is claimed and queued. *)
Definition enqueueSkip (idx : nat) (c : DispatchContext) : DispatchContext :=
  match status_at (impl_ c) idx with
  | kPending | kReady =>
      with_skips (skipped_ c ++ [idx]) (skipRead c) (drainingSkips c) (skipMutex c)
        (with_impl (store_status idx kSkipped (impl_ c)) c)
  | _ => c
  end.

(** A result that blocks dependents and ends the run. *)
Definition fatal_result (optional : bool) (r : Outcome) : option PipelineError :=
  match r with
  | Expected _ => None
  | Unexpected e => if negb optional || bool_decide (e = kCancelledError) then Some e else None
  end.

(** The environment's part of a step. *)
Inductive choice : Set :=
  | CNone
  | CResult (r : Outcome)     (* the job, or its Completion, delivers [r] *)
  | CAwait                    (* the deferred body returned with no outcome yet *)
  | CPending                  (* ... with an outcome that is yet to be delivered *)
  | CSubmit (accepted : bool).

Definition all_jobs (m : Impl) : list nat := seq 0 (length (nodes_ m)).

(** One step of the thread at operation [o]: the new context, the operations
    that take [o]'s place, and the tasks handed to the executor. *)
Definition run_op (ch : choice) (o : op) (c : DispatchContext)
  : option (DispatchContext * list op * list (list op)) :=
  let m := impl_ c in
  match o, ch with
  | ORoots [], CNone => Some (c, [], [])
  | ORoots (i :: l), CSubmit accepted =>
      if hasFatalFailure c then Some (c, [OSkipEnter i; ORoots l], [])
      else if accepted then Some (c, [ORoots l], [[ODispatchJob i]])
      else Some (c, [OSubmissionFailed i], [])
  | ODispatchJob i, CNone =>
      if hasFatalFailure c then Some (c, [OSkipEnter i], []) else Some (c, [OClaim i], [])
  | OClaim i, CNone =>
      match status_at m i with
      | kReady => Some (with_impl (store_status i kRunning m) c, [OObserve (onJobStart i); OInvoke i], [])
      | _ => Some (c, [], [])
      end
  | OInvoke i, CResult r => Some (c, [OFinish i r], [])
  | OInvoke i, CAwait => Some (c, [OAwait i], [])
  | OInvoke i, CPending => Some (c, [ODeliver i], [])
  | OAwait i, CNone =>
      Some (with_impl (store_status i kAwaiting m) c, [OObserve (onJobAwaiting i); ODeliver i], [])
  | ODeliver i, CResult r => Some (c, [OFinish i r], [])
  | OFinish i r, CNone => Some (with_impl (store_status i (statusOf r) m) c, [OCount i r], [])
  | OCount i r, CNone =>
      let '(c, done) := count_one c in
      Some (c, OObserve (onJobFinish i (statusOf r) done) :: notifyDependencies m i ++ [OAfter i r], [])
  | OAfter i r, CNone =>
      match fatal_result (optional_at m i) r with
      | Some e => Some (c, [OObserve (onJobFailure i e); OFatal i e (succs m i)], [])
      | None => Some (c, [ORelease i (succs m i)], [])
      end
  | OFatal i e l, CNone => Some (recordFailure i e c, [OSkips l], [])
  | ORelease i [], CNone => Some (c, [], [])
  | ORelease i (s :: l), CNone =>
      if hasFatalFailure c then Some (c, [OSkipEnter s; ORelease i l], [])
      else Some (c, [OSub i s l], [])
  | OSub i s l, CNone =>
      let remaining := u32 (unmet_at m s - 1) in
      Some (with_impl (store_unmet s remaining m) c,
            [if remaining =? 0 then OReadyCas i s l else ORelease i l], [])
  | OReadyCas i s l, CNone =>
      match status_at m s with
      | kPending => Some (with_impl (store_status s kReady m) c, [OSubmit i s l], [])
      | _ => Some (c, [ORelease i l], [])
      end
  | OSubmit i s l, CSubmit accepted =>
      if accepted then Some (c, [ORelease i l], [[ODispatchJob s]])
      else Some (c, [OSubmissionFailed s], [])
  | OSubmissionFailed i, CNone =>
      match status_at m i with
      | kReady => Some (with_impl (store_status i kFailed m) c, [OSubRecord i true], [])
      | _ => Some (c, [OSubRecord i false], [])
      end
  | OSubRecord i failed, CNone =>
      Some (recordFailure i kJobFailed c, [if failed then OSubCount i else OSkips (all_jobs m)], [])
  | OSubCount i, CNone =>
      let '(c, done) := count_one c in
      Some (c, OObserve (onJobFinish i kFailed done) :: OObserve (onJobFailure i kJobFailed)
                 :: notifyDependencies m i ++ [OSkips (all_jobs m)], [])
  | OSkips [], CNone => Some (c, [], [])
  | OSkips (s :: l), CNone => Some (c, [OSkipEnter s; OSkips l], [])
  | OSkipEnter i, CNone =>
      if skipMutex c then None
      else Some (with_skips (skipped_ c) (skipRead c) (drainingSkips c) true c, [OSkipClaims [i] Gate], [])
  | OSkipClaims (i :: l) k, CNone => Some (enqueueSkip i c, [OSkipClaims l k], [])
  | OSkipClaims [] Gate, CNone =>
      if drainingSkips c
      then Some (with_skips (skipped_ c) (skipRead c) true false c, [], [])
      else Some (with_skips (skipped_ c) (skipRead c) true true c, [OSkipLoop], [])
  | OSkipClaims [] (CountOf idx), CNone =>
      let '(c, done) := count_one c in
      Some (with_skips (skipped_ c) (skipRead c) (drainingSkips c) false c,
            OObserve (onJobFinish idx kSkipped done) :: notifyDependencies m idx ++ [OSkipRelock], [])
  | OSkipRelock, CNone =>
      if skipMutex c then None
      else Some (with_skips (skipped_ c) (skipRead c) (drainingSkips c) true c, [OSkipLoop], [])
  | OSkipLoop, CNone =>
      match skipped_ c !! skipRead c with
      | Some idx =>
          Some (with_skips (skipped_ c) (S (skipRead c)) (drainingSkips c) (skipMutex c) c,
                [OSkipClaims (succs m idx) (CountOf idx)], [])
      | None => Some (with_skips (skipped_ c) (skipRead c) false false c, [], [])
      end
  | OObserve e, CNone => Some (observe e c, [], [])
  | _, _ => None
  end.

(** The threads of a run: the run thread and the executor's tasks. *)
Record RunState := { ctx : DispatchContext; threads : list (list op) }.

(** Thread [k] takes a step. *)
Definition step_thread (k : nat) (ch : choice) (s : RunState) : option RunState :=
  match threads s !! k with
  | Some (o :: rest) =>
      match run_op ch o (ctx s) with
      | Some (c, ops, spawned) =>
          Some {| ctx := c; threads := <[k := ops ++ rest]> (threads s) ++ spawned |}
      | None => None
      end
  | _ => None
  end.

Definition step (s s' : RunState) : Prop := exists k ch, step_thread k ch s = Some s'.

Definition quiescent (s : RunState) : Prop := Forall (fun t => t = []) (threads s).

(** The context made from the initialised [Impl], and the two ways to start. *)
Definition make_context (m : Impl) : DispatchContext := {|
  impl_ := m; hasFatalFailure := false; fatalError := kJobFailed; skipped_ := []; skipRead := 0;
  drainingSkips := false; skipMutex := false; trace := [] |}.
Definition start_threaded (m : Impl) : RunState :=
  {| ctx := make_context m; threads := [[ORoots (roots_ m)]] |}.
(** An inline run takes the roots as its ready list. *)
Definition start_inline (m : Impl) : RunState :=
  {| ctx := make_context m; threads := (fun i => [ODispatchJob i]) <$> roots_ m |}.

(** What [runImpl] returns when the executor has gone quiet. *)
Definition run_result (c : DispatchContext) : Outcome :=
  if hasFatalFailure c then Unexpected (fatalError c) else success.
