(* ===== verification/Scheduler.v ===== *)
(** The invariant of a run's interleavings. *)
From S2P Require Import Prelude Types EdgeLists SuccessorPool Nodes Kahn Graph Pipeline Run Dispatch.

(** ** Counting operations in the pool of threads *)

Definition b2n (b : bool) : nat := if b then 1 else 0.
Definition cntl (f : op -> nat) (l : list op) : nat := sum_list_with f l.
Definition cnt (f : op -> nat) (p : list (list op)) : nat := sum_list_with (cntl f) p.
Definition in_pool (o : op) (p : list (list op)) : Prop := exists t, t ∈ p /\ o ∈ t.

Lemma cntl_app f l k : cntl f (l ++ k) = (cntl f l + cntl f k)%nat.
Proof. apply sum_list_with_app. Qed.
Lemma cnt_app f p q : cnt f (p ++ q) = (cnt f p + cnt f q)%nat.
Proof. apply sum_list_with_app. Qed.

Lemma cnt_insert f p k t t' : p !! k = Some t ->
  (cnt f (<[k := t']> p) + cntl f t = cnt f p + cntl f t')%nat.
Proof. apply sum_list_insert. Qed.

Lemma cnt_zero f p : cnt f p = 0%nat <-> forall o, in_pool o p -> f o = 0%nat.
Proof.
  unfold cnt, in_pool. induction p as [|t p IH]; cbn.
  - split; [intros _ o (t & H & _); set_solver|done].
  - assert (Ht : cntl f t = 0%nat <-> forall o, o ∈ t -> f o = 0%nat).
    { unfold cntl. clear. induction t as [|o t IH]; cbn; [split; [set_solver|done]|].
      rewrite Nat.eq_add_0, IH. set_solver. }
    rewrite Nat.eq_add_0, Ht, IH. set_solver.
Qed.

Lemma cnt_pos f p : (0 < cnt f p)%nat -> exists o, in_pool o p /\ (0 < f o)%nat.
Proof.
  intros H. destruct (decide (Exists (fun o => 0 < f o)%nat (mjoin p))) as [E|E].
  - apply Exists_exists in E as (o & (t & Ht & Hp)%list_elem_of_join & Ho). exists o. split; [|done]. by exists t.
  - exfalso. assert (cnt f p = 0)%nat; [|lia]. apply cnt_zero. intros o (t & Ht & Ho).
    destruct (decide (0 < f o)%nat) as [Hf|]; [|lia]. destruct E. apply Exists_exists.
    exists o. split; [|done]. apply list_elem_of_join. eauto.
Qed.

Lemma cnt_le_pool f p o : in_pool o p -> (f o <= cnt f p)%nat.
Proof.
  intros (t & Ht & Ho). unfold cnt. apply list_elem_of_split in Ht as (l1 & l2 & ->).
  apply list_elem_of_split in Ho as (k1 & k2 & ->).
  rewrite sum_list_with_app. cbn. rewrite cntl_app. cbn. lia.
Qed.

(** How the pool changes when operation [o] is replaced by [new]. *)
Record pool_change (o : op) (new : list op) (p p' : list (list op)) : Prop := {
  pc_here : in_pool o p;
  pc_cnt : forall f, (cnt f p' + f o = cnt f p + cntl f new)%nat;
  pc_old : forall x, in_pool x p' -> x ∈ new \/ in_pool x p;
  pc_keep : forall x, in_pool x p -> x = o \/ in_pool x p';
  pc_new : forall x, x ∈ new -> in_pool x p';
}.

Lemma step_change k o rest ops sp p : p !! k = Some (o :: rest) ->
  pool_change o (ops ++ mjoin sp) p (<[k := ops ++ rest]> p ++ sp).
Proof.
  intros Hk. pose proof (list_elem_of_lookup_2 _ _ _ Hk) as Hin.
  pose proof (lookup_lt_Some _ _ _ Hk) as Hlt.
  assert (Hins : forall t, t ∈ <[k := ops ++ rest]> p -> t = ops ++ rest \/ t ∈ p).
  { intros t [j Hj]%list_elem_of_lookup_1. destruct (decide (k = j)) as [<-|].
    - rewrite list_lookup_insert_eq in Hj by done. left. congruence.
    - rewrite list_lookup_insert_ne in Hj by done. right. by eapply list_elem_of_lookup_2. }
  assert (Hnew : ops ++ rest ∈ <[k := ops ++ rest]> p).
  { apply list_elem_of_lookup_2 with k. by apply list_lookup_insert_eq. }
  split.
  - exists (o :: rest). split; [done|set_solver].
  - intros f. rewrite cnt_app, cntl_app. pose proof (cnt_insert f p k _ (ops ++ rest) Hk) as H.
    rewrite cntl_app in H. assert (Hj : cnt f sp = cntl f (mjoin sp)).
    { clear. induction sp as [|t sp IH]; [done|]. cbn. unfold cnt in *. cbn. rewrite cntl_app. f_equal. exact IH. }
    unfold cntl at 1 in H. cbn in H. fold (cntl f rest) in H. lia.
  - intros x (t & Ht & Hx). apply elem_of_app in Ht as [Ht|Ht].
    + destruct (Hins t Ht) as [->|Ht']; [|right; by exists t].
      apply elem_of_app in Hx as [Hx|Hx]; [left; set_solver|].
      right. exists (o :: rest). split; [done|set_solver].
    + left. apply elem_of_app. right. apply list_elem_of_join. eauto.
  - intros x (t & Ht & Hx). apply list_elem_of_lookup_1 in Ht as [j Hj].
    destruct (decide (k = j)) as [<-|].
    + rewrite Hk in Hj. injection Hj as <-. apply elem_of_cons in Hx as [->|Hx]; [by left|].
      right. exists (ops ++ rest). split; [apply elem_of_app; by left|set_solver].
    + right. exists t. split; [|done]. apply elem_of_app. left. apply list_elem_of_lookup_2 with j.
      by rewrite list_lookup_insert_ne.
  - intros x Hx. apply elem_of_app in Hx as [Hx|Hx].
    + exists (ops ++ rest). split; [apply elem_of_app; by left|set_solver].
    + apply list_elem_of_join in Hx as (t & Hx & Ht). exists t. split; [apply elem_of_app; by right|done].
Qed.

(** ** Reading the node states *)

Lemma status_store_status i x m j : (i < length (nodes_ m))%nat ->
  status_at (store_status i x m) j = if decide (i = j) then x else status_at m j.
Proof.
  intros Hi. unfold status_at, store_status. rewrite lookup_alter_node. case_decide as Hd; [|done].
  subst. destruct (lookup_lt_is_Some_2 _ _ Hi) as [nd ->]. done.
Qed.
Lemma status_store_unmet i z m j : status_at (store_unmet i z m) j = status_at m j.
Proof.
  unfold status_at, store_unmet. rewrite lookup_alter_node. case_decide; [|done].
  by destruct (nodes_ m !! j) as [[]|].
Qed.
Lemma unmet_store_status i x m j : unmet_at (store_status i x m) j = unmet_at m j.
Proof.
  unfold unmet_at, store_status. rewrite lookup_alter_node. case_decide; [|done].
  by destruct (nodes_ m !! j) as [[]|].
Qed.
Lemma unmet_store_unmet i z m j : (i < length (nodes_ m))%nat ->
  unmet_at (store_unmet i z m) j = if decide (i = j) then z else unmet_at m j.
Proof.
  intros Hi. unfold unmet_at, store_unmet. rewrite lookup_alter_node. case_decide as Hd; [|done].
  subst. destruct (lookup_lt_is_Some_2 _ _ Hi) as [nd ->]. done.
Qed.
Lemma quiet_status x : quiet (set_jobStatus x).
Proof. split; by intros []. Qed.
Lemma quiet_unmet z : quiet (set_unmetDeps z).
Proof. split; by intros []. Qed.
Lemma store_status_graph i x m : same_graph m (store_status i x m).
Proof. apply alter_node_quiet, quiet_status. Qed.
Lemma store_unmet_graph i z m : same_graph m (store_unmet i z m).
Proof. apply alter_node_quiet, quiet_unmet. Qed.
Lemma set_completed_graph z m : same_graph m (set_completedCount z m).
Proof. by split. Qed.
Lemma set_failed_graph z m : same_graph m (set_failedJobName z m).
Proof. by split. Qed.
Create HintDb sched.
#[export] Hint Resolve store_status_graph store_unmet_graph set_completed_graph set_failed_graph : sched.

Lemma enqueueSkip_graph i c : same_graph (impl_ c) (impl_ (enqueueSkip i c)).
Proof. unfold enqueueSkip. case_match; cbn; auto with sched; done. Qed.
Lemma recordFailure_graph i e c : same_graph (impl_ c) (impl_ (recordFailure i e c)).
Proof. unfold recordFailure. case_match; cbn; auto with sched; done. Qed.

(** No step changes the graph. *)
Lemma run_op_graph ch o c c' ops sp : run_op ch o c = Some (c', ops, sp) -> same_graph (impl_ c) (impl_ c').
Proof.
  intros H. destruct o; cbn in H; repeat (case_match; try discriminate); simplify_eq; cbn;
    auto using enqueueSkip_graph, recordFailure_graph with sched; done.
Qed.

(** ** Tokens *)

Definition at1 (i j : nat) : nat := if decide (i = j) then 1 else 0.

(** [o] holds the right to dispatch node [i], which is ready. *)
Definition claimN (i : nat) (o : op) : nat :=
  match o with
  | ODispatchJob j | OClaim j | OSubmissionFailed j => at1 i j
  | OSubmit _ s _ => at1 i s
  | ORoots l => occ1 i l
  | _ => 0
  end.
(** [o] runs node [i], up to the store of its final status. *)
Definition runN (i : nat) (o : op) : nat :=
  match o with OInvoke j | OAwait j | ODeliver j | OFinish j _ => at1 i j | _ => 0 end.
(** How often [o] has still to account the edge [p -> i] of a finished [p]. *)
Definition remN (adj : list (list nat)) (p i : nat) (o : op) : nat :=
  match o with
  | OCount q _ | OAfter q _ => if decide (p = q) then occ1 i (default [] (adj !! p)) else 0
  | ORelease q l => if decide (p = q) then occ1 i l else 0
  | OSub q s l => if decide (p = q) then occ1 i (s :: l) else 0
  | OReadyCas q _ l | OSubmit q _ l => if decide (p = q) then occ1 i l else 0
  | _ => 0
  end.
(** [o] has still to report the finish of node [i]. *)
Definition finN (i : nat) (o : op) : nat :=
  match o with
  | OCount j _ | OSubCount j | OSubRecord j true | OSkipClaims _ (CountOf j)
  | OObserve (onJobFinish j _ _) => at1 i j
  | _ => 0
  end.
(** [o] has still to count a finished node. *)
Definition pendN (o : op) : nat :=
  match o with
  | OCount _ _ | OSubCount _ | OSubRecord _ true | OSkipClaims _ (CountOf _) => 1
  | _ => 0
  end.
Definition startN (i : nat) (o : op) : nat :=
  match o with OObserve (onJobStart j) => at1 i j | _ => 0 end.
(** [o] holds the skip lock; [o] belongs to the draining thread. *)
Definition csN (o : op) : nat := match o with OSkipClaims _ _ | OSkipLoop => 1 | _ => 0 end.
Definition drainN (o : op) : nat :=
  match o with OSkipClaims _ (CountOf _) | OSkipLoop | OSkipRelock => 1 | _ => 0 end.

(** [o] will skip node [i] if it is still pending or ready. *)
Definition skipcov (i : nat) (o : op) : bool :=
  match o with
  | OFatal _ _ l | OSkips l | OSkipClaims l _ => bool_decide (i ∈ l)
  | OSkipEnter j => bool_decide (i = j)
  | OSubmissionFailed _ | OSubRecord _ _ | OSubCount _ => true
  | _ => false
  end.

(** What the tokens of a node are in each status. *)
Definition tokens_ok (s : JobStatus) (claims runs : nat) : Prop :=
  match s with
  | kPending => claims = 0 /\ runs = 0
  | kReady | kSkipped => claims <= 1 /\ runs = 0
  | kRunning | kAwaiting => claims = 0 /\ runs = 1
  | _ => claims = 0 /\ runs = 0
  end%nat.

Definition starts_ok (s : JobStatus) (starts : nat) : Prop :=
  match s with
  | kPending | kReady | kSkipped => starts = 0
  | kFailed => starts <= 1
  | _ => starts = 1
  end%nat.

Definition is_start (i : nat) (e : Event) : nat := match e with onJobStart j => at1 i j | _ => 0 end.
Definition is_finish (i : nat) (e : Event) : nat := match e with onJobFinish j _ _ => at1 i j | _ => 0 end.
Definition events (f : Event -> nat) (c : DispatchContext) : nat := sum_list_with f (trace c).
Definition queue (c : DispatchContext) : list nat := drop (skipRead c) (skipped_ c).
Definition terminals (m : Impl) : nat := sum_list_with (fun nd => b2n (terminal (jobStatus_ nd))) (nodes_ m).

Section invariant.
Context (m0 : Impl).
Abbreviation adj := (adjacency m0).
Abbreviation n := (length (nodes_ m0)).
Abbreviation st c i := (status_at (impl_ c) i).

(** A finished node whose dependents may run. *)
Definition released (c : DispatchContext) (p : nat) : Prop :=
  st c p = kDone \/ (optional_at m0 p = true /\ (st c p = kFailed \/ st c p = kTimedOut)).

Definition in_range (l : list nat) : Prop := Forall (fun i => i < n)%nat l.

Definition op_ok (c : DispatchContext) (o : op) : Prop :=
  match o with
  | ORoots l => in_range l
  | ODispatchJob i | OClaim i | OSubmissionFailed i | OInvoke i | OAwait i | ODeliver i | OFinish i _ => i < n
  | OCount p r | OAfter p r => p < n /\ st c p = statusOf r
  | OFatal p e l => p < n /\ st c p = statusOf (Unexpected e) /\ in_range l /\
      (optional_at m0 p = false \/ e = kCancelledError)
  | ORelease p l => p < n /\ released c p /\ in_range l
  | OSub p s l => p < n /\ released c p /\ s < n /\ in_range l
  | OReadyCas p s l => p < n /\ released c p /\ s < n /\ in_range l /\ unmet_at (impl_ c) s = 0%Z
  | OSubmit p s l => p < n /\ released c p /\ s < n /\ in_range l
  | OSubRecord i true => i < n /\ st c i = kFailed
  | OSubRecord i false => hasFatalFailure c = true
  | OSubCount i => i < n /\ st c i = kFailed /\ hasFatalFailure c = true
  | OSkips l => in_range l /\ hasFatalFailure c = true
  | OSkipEnter i => i < n /\ hasFatalFailure c = true
  | OSkipClaims l Gate => in_range l /\ hasFatalFailure c = true
  | OSkipClaims l (CountOf p) => in_range l /\ hasFatalFailure c = true /\ p < n /\ st c p = kSkipped
  | OSkipLoop | OSkipRelock => hasFatalFailure c = true
  | OObserve _ => True
  end%nat.

(** [o] will record the failure of the finished node [p]. *)
Definition willfail (p : nat) (o : op) : Prop :=
  match o with
  | OCount q r | OAfter q r => q = p /\ fatal_result (optional_at m0 p) r <> None
  | OFatal q _ _ | OSubRecord q true => q = p
  | _ => False
  end.

Definition owed_at (owed : list (list nat)) (p : nat) : list nat := default [] (owed !! p).

Record inv (owed : list (list nat)) (s : RunState) : Prop := {
  i_graph : same_graph m0 (impl_ (ctx s));
  i_ops : forall o, in_pool o (threads s) -> op_ok (ctx s) o;
  i_tokens : forall i, tokens_ok (st (ctx s) i) (cnt (claimN i) (threads s)) (cnt (runN i) (threads s));
  (* dependency accounting *)
  i_owed_len : length owed = n;
  i_le : forall i, (occ i owed <= occ i adj)%nat;
  i_unmet : forall i, (i < n)%nat -> unmet_at (impl_ (ctx s)) i = Z.of_nat (occ i owed);
  i_owed : forall p, ~ released (ctx s) p -> owed_at owed p = owed_at adj p;
  i_rem : forall p i, (cnt (remN adj p i) (threads s) <= occ1 i (owed_at owed p))%nat;
  i_cover : forall p i, (i < n)%nat -> terminal (st (ctx s) p) = true -> st (ctx s) i = kPending ->
    (occ1 i (owed_at owed p) <= cnt (remN adj p i) (threads s))%nat \/
    p ∈ queue (ctx s) \/ exists o, in_pool o (threads s) /\ skipcov i o = true;
  i_started : forall i, (i < n)%nat -> st (ctx s) i <> kPending -> st (ctx s) i <> kSkipped -> occ i owed = 0%nat;
  i_pending : forall i, (i < n)%nat -> st (ctx s) i = kPending -> occ i owed = 0%nat ->
    (ondemand_at m0 i = true /\ occ i adj = 0%nat) \/ exists p l, in_pool (OReadyCas p i l) (threads s);
  i_ready : forall i, (i < n)%nat -> st (ctx s) i = kReady ->
    exists o, in_pool o (threads s) /\ ((0 < claimN i o)%nat \/ skipcov i o = true);
  (* failure *)
  i_skipped : forall i, st (ctx s) i = kSkipped -> hasFatalFailure (ctx s) = true;
  i_success : forall p, (p < n)%nat -> hasFatalFailure (ctx s) = false -> terminal (st (ctx s) p) = true ->
    released (ctx s) p \/ exists o, in_pool o (threads s) /\ willfail p o;
  i_cause : hasFatalFailure (ctx s) = true -> exists p, (p < n)%nat /\
    failedJobName_ (impl_ (ctx s)) = name_at m0 p /\ st (ctx s) p = statusOf (Unexpected (fatalError (ctx s))) /\
    (optional_at m0 p = false \/ fatalError (ctx s) = kCancelledError \/ fatalError (ctx s) = kJobFailed);
  (* reports *)
  i_starts : forall i, starts_ok (st (ctx s) i) (events (is_start i) (ctx s) + cnt (startN i) (threads s));
  i_finishes : forall i, (events (is_finish i) (ctx s) + cnt (finN i) (threads s) + occ1 i (queue (ctx s)) =
    b2n (terminal (st (ctx s) i)))%nat;
  i_count : completedCount_ (impl_ (ctx s)) + Z.of_nat (cnt pendN (threads s)) + Z.of_nat (length (queue (ctx s)))
    = Z.of_nat (terminals (impl_ (ctx s))) /\ 0 <= completedCount_ (impl_ (ctx s));
  (* the skip lock and queue *)
  i_mutex : cnt csN (threads s) = b2n (skipMutex (ctx s));
  i_drain : cnt drainN (threads s) = b2n (drainingSkips (ctx s));
  i_gate : drainingSkips (ctx s) = false -> queue (ctx s) <> [] -> exists l, in_pool (OSkipClaims l Gate) (threads s);
  i_read : (skipRead (ctx s) <= length (skipped_ (ctx s)))%nat;
  i_queue : forall p, p ∈ skipped_ (ctx s) -> (p < n)%nat /\ st (ctx s) p = kSkipped;
  i_heads : forall t, t ∈ threads s -> Forall (fun o => csN o = 0%nat) (tail t);
}.

End invariant.
