(* ===== verification/SchedulerStep.v ===== *)
(** The steps of a run as rules, and their effect on node statuses. *)
From S2P Require Import Prelude Types EdgeLists SuccessorPool Nodes Kahn Graph Pipeline Run Dispatch Scheduler.

Abbreviation st c i := (status_at (impl_ c) i).

Definition is_dep (o : op) : Prop := match o with OObserve (onDependenciesResolved _ _) => True | _ => False end.

Definition first_failure (i : nat) (e : PipelineError) (c : DispatchContext) : DispatchContext :=
  {| impl_ := set_failedJobName (name_at (impl_ c) i) (impl_ c); hasFatalFailure := true;
     fatalError := e; skipped_ := skipped_ c; skipRead := skipRead c;
     drainingSkips := drainingSkips c; skipMutex := skipMutex c; trace := trace c |}.

(** [rule c o c' new]: in context [c], operation [o] gives way to [new] (in its
    own thread or in a submitted task). *)
Inductive rule (c : DispatchContext) : op -> DispatchContext -> list op -> Prop :=
  | r_roots_nil : rule c (ORoots []) c []
  | r_roots_fatal i l : hasFatalFailure c = true -> rule c (ORoots (i :: l)) c [OSkipEnter i; ORoots l]
  | r_roots_submit i l : rule c (ORoots (i :: l)) c [ORoots l; ODispatchJob i]
  | r_roots_reject i l : rule c (ORoots (i :: l)) c [OSubmissionFailed i]
  | r_dispatch_fatal i : hasFatalFailure c = true -> rule c (ODispatchJob i) c [OSkipEnter i]
  | r_dispatch i : rule c (ODispatchJob i) c [OClaim i]
  | r_claim i : st c i = kReady ->
      rule c (OClaim i) (with_impl (store_status i kRunning (impl_ c)) c) [OObserve (onJobStart i); OInvoke i]
  | r_claim_lost i : st c i <> kReady -> rule c (OClaim i) c []
  | r_invoke i r : rule c (OInvoke i) c [OFinish i r]
  | r_invoke_await i : rule c (OInvoke i) c [OAwait i]
  | r_invoke_pending i : rule c (OInvoke i) c [ODeliver i]
  | r_await i : rule c (OAwait i) (with_impl (store_status i kAwaiting (impl_ c)) c)
      [OObserve (onJobAwaiting i); ODeliver i]
  | r_deliver i r : rule c (ODeliver i) c [OFinish i r]
  | r_finish i r : rule c (OFinish i r) (with_impl (store_status i (statusOf r) (impl_ c)) c) [OCount i r]
  | r_count i r ns : Forall is_dep ns -> (length ns <= 1)%nat -> rule c (OCount i r) (count_one c).1
      (OObserve (onJobFinish i (statusOf r) (count_one c).2) :: ns ++ [OAfter i r])
  | r_after_fatal i r e : fatal_result (optional_at (impl_ c) i) r = Some e ->
      rule c (OAfter i r) c [OObserve (onJobFailure i e); OFatal i e (succs (impl_ c) i)]
  | r_after i r : fatal_result (optional_at (impl_ c) i) r = None ->
      rule c (OAfter i r) c [ORelease i (succs (impl_ c) i)]
  | r_fatal_first i e l : hasFatalFailure c = false -> rule c (OFatal i e l) (first_failure i e c) [OSkips l]
  | r_fatal i e l : hasFatalFailure c = true -> rule c (OFatal i e l) c [OSkips l]
  | r_release_nil i : rule c (ORelease i []) c []
  | r_release_fatal i s l : hasFatalFailure c = true ->
      rule c (ORelease i (s :: l)) c [OSkipEnter s; ORelease i l]
  | r_release i s l : rule c (ORelease i (s :: l)) c [OSub i s l]
  | r_sub_last i s l : u32 (unmet_at (impl_ c) s - 1) = 0 ->
      rule c (OSub i s l) (with_impl (store_unmet s (u32 (unmet_at (impl_ c) s - 1)) (impl_ c)) c) [OReadyCas i s l]
  | r_sub i s l : u32 (unmet_at (impl_ c) s - 1) <> 0 ->
      rule c (OSub i s l) (with_impl (store_unmet s (u32 (unmet_at (impl_ c) s - 1)) (impl_ c)) c) [ORelease i l]
  | r_ready i s l : st c s = kPending ->
      rule c (OReadyCas i s l) (with_impl (store_status s kReady (impl_ c)) c) [OSubmit i s l]
  | r_ready_lost i s l : st c s <> kPending -> rule c (OReadyCas i s l) c [ORelease i l]
  | r_submit i s l : rule c (OSubmit i s l) c [ORelease i l; ODispatchJob s]
  | r_submit_reject i s l : rule c (OSubmit i s l) c [OSubmissionFailed s]
  | r_subfail i : st c i = kReady ->
      rule c (OSubmissionFailed i) (with_impl (store_status i kFailed (impl_ c)) c) [OSubRecord i true]
  | r_subfail_lost i : st c i <> kReady -> rule c (OSubmissionFailed i) c [OSubRecord i false]
  | r_subrecord_first i : hasFatalFailure c = false ->
      rule c (OSubRecord i true) (first_failure i kJobFailed c) [OSubCount i]
  | r_subrecord i : hasFatalFailure c = true -> rule c (OSubRecord i true) c [OSubCount i]
  | r_subrecord_lost_first i : hasFatalFailure c = false ->
      rule c (OSubRecord i false) (first_failure i kJobFailed c) [OSkips (all_jobs (impl_ c))]
  | r_subrecord_lost i : hasFatalFailure c = true ->
      rule c (OSubRecord i false) c [OSkips (all_jobs (impl_ c))]
  | r_subcount i ns : Forall is_dep ns -> (length ns <= 1)%nat -> rule c (OSubCount i) (count_one c).1
      (OObserve (onJobFinish i kFailed (count_one c).2) :: OObserve (onJobFailure i kJobFailed)
         :: ns ++ [OSkips (all_jobs (impl_ c))])
  | r_skips_nil : rule c (OSkips []) c []
  | r_skips i l : rule c (OSkips (i :: l)) c [OSkipEnter i; OSkips l]
  | r_skip_enter i : skipMutex c = false ->
      rule c (OSkipEnter i) (with_skips (skipped_ c) (skipRead c) (drainingSkips c) true c) [OSkipClaims [i] Gate]
  | r_skip_claim i l k : st c i = kPending \/ st c i = kReady ->
      rule c (OSkipClaims (i :: l) k)
        (with_skips (skipped_ c ++ [i]) (skipRead c) (drainingSkips c) (skipMutex c)
          (with_impl (store_status i kSkipped (impl_ c)) c)) [OSkipClaims l k]
  | r_skip_lost i l k : st c i <> kPending -> st c i <> kReady ->
      rule c (OSkipClaims (i :: l) k) c [OSkipClaims l k]
  | r_gate_leave : drainingSkips c = true ->
      rule c (OSkipClaims [] Gate) (with_skips (skipped_ c) (skipRead c) true false c) []
  | r_gate_drain : drainingSkips c = false ->
      rule c (OSkipClaims [] Gate) (with_skips (skipped_ c) (skipRead c) true true c) [OSkipLoop]
  | r_skip_count i ns : Forall is_dep ns -> (length ns <= 1)%nat -> rule c (OSkipClaims [] (CountOf i))
      (with_skips (skipped_ c) (skipRead c) (drainingSkips c) false (count_one c).1)
      (OObserve (onJobFinish i kSkipped (count_one c).2) :: ns ++ [OSkipRelock])
  | r_relock : skipMutex c = false ->
      rule c OSkipRelock (with_skips (skipped_ c) (skipRead c) (drainingSkips c) true c) [OSkipLoop]
  | r_loop_pop i : skipped_ c !! skipRead c = Some i ->
      rule c OSkipLoop (with_skips (skipped_ c) (S (skipRead c)) (drainingSkips c) (skipMutex c) c)
        [OSkipClaims (succs (impl_ c) i) (CountOf i)]
  | r_loop_end : skipped_ c !! skipRead c = None ->
      rule c OSkipLoop (with_skips (skipped_ c) (skipRead c) false false c) []
  | r_observe e : rule c (OObserve e) (observe e c) [].

Lemma notify_deps m i : Forall is_dep (notifyDependencies m i).
Proof. unfold notifyDependencies. destruct (succs m i); repeat constructor. Qed.

(** [notifyDependencies] is at most one call. *)
Lemma notify_short m i : (length (notifyDependencies m i) <= 1)%nat.
Proof. unfold notifyDependencies. destruct (succs m i); cbn; lia. Qed.

Create HintDb rules.
#[local] Hint Constructors rule : rules.
#[local] Hint Resolve notify_deps notify_short : rules.

Lemma run_op_rule ch o c c' ops sp :
  run_op ch o c = Some (c', ops, sp) -> rule c o c' (ops ++ mjoin sp).
Proof.
  destruct (run_op ch o c) as [[[d k] q]|] eqn:H; [|done]. intros [= <- <- <-].
  destruct o; cbn [run_op] in H; destruct ch; try discriminate H;
    repeat match type of H with
    | context [match ?x with _ => _ end] => let E := fresh "E" in destruct x eqn:E; try discriminate H
    end; injection H as <- <- <-;
    try (rewrite app_nil_r || cbn [mjoin list_join app]); unfold enqueueSkip, recordFailure;
    repeat match goal with H : ?x = _ |- context [?x] => rewrite H end;
    eauto with rules;
    try match goal with E : st _ _ = _ |- _ =>
      first [apply r_claim_lost; congruence | apply r_ready_lost; congruence | apply r_subfail_lost; congruence]
    end;
    try match goal with E : count_one _ = (?d, ?z) |- _ => injection E as <- <- end;
    try match goal with |- context [if hasFatalFailure ?c then _ else _] =>
      destruct (hasFatalFailure c) eqn:Ef end.
  - apply (r_count c i r); auto with rules.
  - by apply r_fatal.
  - by apply r_fatal_first.
  - apply (r_sub_last c i s l). lia.
  - apply (r_sub c i s l). lia.
  - by apply (r_subrecord c i).
  - by apply (r_subrecord_first c i).
  - by apply (r_subrecord_lost c i).
  - by apply (r_subrecord_lost_first c i).
  - apply (r_subcount c i); auto with rules.
  - apply (r_skip_count c idx); auto with rules.
  - destruct (st c n) eqn:Es; first [apply r_skip_claim; auto; fail | apply r_skip_lost; congruence].
Qed.
