(* ===== verification/SchedulerInv.v ===== *)
(** Every step keeps the invariant of a run. *)
From S2P Require Import Prelude Types EdgeLists SuccessorPool Nodes Kahn Graph Pipeline Run Dispatch Scheduler SchedulerStep.

(** How the status of a job may change in one step. *)
Inductive moves : JobStatus -> JobStatus -> Prop :=
  | mv_ready : moves kPending kReady
  | mv_run : moves kReady kRunning
  | mv_await : moves kRunning kAwaiting
  | mv_finish r : moves kRunning (statusOf r)
  | mv_deliver r : moves kAwaiting (statusOf r)
  | mv_reject : moves kReady kFailed
  | mv_skip_pending : moves kPending kSkipped
  | mv_skip_ready : moves kReady kSkipped.
Create HintDb moves.
#[export] Hint Constructors moves : moves.

Lemma moves_not_terminal s t : moves s t -> terminal s = false.
Proof. by destruct 1. Qed.

Lemma status_set_completed z m i : status_at (set_completedCount z m) i = status_at m i.
Proof. done. Qed.
Lemma status_set_failed z m i : status_at (set_failedJobName z m) i = status_at m i.
Proof. done. Qed.
Lemma unmet_set_completed z m i : unmet_at (set_completedCount z m) i = unmet_at m i.
Proof. done. Qed.
Lemma unmet_set_failed z m i : unmet_at (set_failedJobName z m) i = unmet_at m i.
Proof. done. Qed.
Create Rewrite HintDb st_rw.
#[export] Hint Rewrite status_set_completed status_set_failed status_store_unmet unmet_set_completed
  unmet_set_failed unmet_store_status : st_rw.

(** What [op_ok] says of an operation only gets truer. *)
Lemma op_ok_mono m0 (c c' : DispatchContext) x :
  (forall i, terminal (st c i) = true -> st c' i = st c i) ->
  (hasFatalFailure c = true -> hasFatalFailure c' = true) ->
  (forall j, (j < length (nodes_ m0))%nat -> unmet_at (impl_ c) j = 0 -> unmet_at (impl_ c') j = 0) ->
  op_ok m0 c x -> op_ok m0 c' x.
Proof.
  intros Ht Hf Hu.
  assert (Hst : forall i r, st c i = statusOf r -> st c' i = statusOf r).
  { intros i r H. rewrite Ht; [done|]. rewrite H. apply statusOf_terminal. }
  assert (Hr : forall i, released m0 c i -> released m0 c' i).
  { intros i H. assert (E : st c' i = st c i) by (apply Ht; by destruct H as [-> | (_ & [-> | ->])]).
    unfold released in *. by rewrite E. }
  assert (Hk : forall i, st c i = kFailed -> st c' i = kFailed) by (intros i H; rewrite Ht; rewrite H; done).
  assert (Hw : forall i, st c i = kSkipped -> st c' i = kSkipped) by (intros i H; rewrite Ht; rewrite H; done).
  clear Ht. destruct x; cbn; try (intuition (auto; fail)).
  - intros (? & H & ?). split; [done|]. split; [|done]. by apply (Hst i (Unexpected e)).
  - destruct failed; intuition.
  - destruct k; intuition.
Qed.

Lemma fatal_result_inv b r e :
  fatal_result b r = Some e -> r = Unexpected e /\ (b = false \/ e = kCancelledError).
Proof.
  unfold fatal_result. destruct r as [|e']; [done|]. destruct b; cbn; [|intros [= ->]; auto].
  case_bool_decide; [intros [= ->]; auto|done].
Qed.

(** [l] without its first [x]. *)
Fixpoint remove1 (x : nat) (l : list nat) : list nat :=
  match l with [] => [] | y :: l => if decide (x = y) then l else y :: remove1 x l end.

Lemma occ1_remove1 x i l : x ∈ l ->
  (occ1 i (remove1 x l) + (if decide (x = i) then 1 else 0))%nat = occ1 i l.
Proof.
  induction l as [|y l IH]; [set_solver|]. intros Hx. cbn.
  destruct (decide (x = y)) as [->|Hne]; cbn; [lia|].
  apply elem_of_cons in Hx as [->|Hx]; [done|]. specialize (IH Hx). lia.
Qed.

(** The ledger after the step: a counted edge is struck out. *)
Definition owed_after (o : op) (owed : list (list nat)) : list (list nat) :=
  match o with OSub i j _ => <[i := remove1 j (owed_at owed i)]> owed | _ => owed end.

Section preserve.
Context (m0 : Impl) (owed : list (list nat)) (s : RunState) (o : op) (c' : DispatchContext)
  (new : list op) (p' : list (list op)).
Abbreviation adj := (adjacency m0).
Abbreviation n := (length (nodes_ m0)).
Abbreviation c := (ctx s).
Abbreviation p := (threads s).

Record stepped : Prop := {
  sp_inv : inv m0 owed s;
  sp_rule : rule c o c' new;
  sp_pool : pool_change o new p p';
}.

Lemma stepped_op : stepped -> op_ok m0 c o.
Proof. intros [Hi _ Hp]. apply (i_ops _ _ _ Hi), (pc_here _ _ _ _ Hp). Qed.

Ltac open Hs :=
  pose proof (stepped_op Hs) as Hop; destruct Hs as [Hinv Hrule Hpc];
  pose proof (i_graph _ _ _ Hinv) as Hgr; pose proof (sg_length _ _ Hgr) as Hlen.

(** The range facts of a claim, whatever follows it. *)
Lemma op_ok_claim cc i l k : op_ok m0 cc (OSkipClaims (i :: l) k) -> (i < n)%nat /\ in_range m0 l.
Proof. destruct k; cbn; intros [H _]; by apply Forall_cons in H. Qed.
Ltac rules Hrule Hop := destruct Hrule; try (destruct (op_ok_claim _ _ _ _ Hop) as [Hi0 Hl0]).

Lemma step_graph : stepped -> same_graph m0 (impl_ c').
Proof.
  intros Hs. open Hs. transitivity (impl_ c); [done|].
  destruct Hrule; cbn; auto with sched; done.
Qed.

Ltac st_simpl Hlen := autorewrite with st_rw; rewrite ?status_store_status by (rewrite Hlen; first [assumption | tauto]).

Lemma tokens_here i : stepped ->
  tokens_ok (st c i) (cnt (claimN i) p) (cnt (runN i) p) /\
  (claimN i o <= cnt (claimN i) p)%nat /\ (runN i o <= cnt (runN i) p)%nat.
Proof.
  intros Hs. open Hs. pose proof (pc_here _ _ _ _ Hpc). split; [apply (i_tokens _ _ _ Hinv)|].
  split; by apply cnt_le_pool.
Qed.

Lemma at1_same i : at1 i i = 1%nat.
Proof. unfold at1. by rewrite decide_True. Qed.

Lemma run_status i : stepped -> (0 < runN i o)%nat -> st c i = kRunning \/ st c i = kAwaiting.
Proof.
  intros Hs H. destruct (tokens_here i Hs) as (Ht & _ & Hr).
  unfold tokens_ok in Ht. destruct (st c i); auto; lia.
Qed.
Lemma claim_status i : stepped -> (0 < claimN i o)%nat -> st c i = kReady \/ st c i = kSkipped.
Proof.
  intros Hs H. destruct (tokens_here i Hs) as (Ht & Hc & _).
  unfold tokens_ok in Ht. destruct (st c i); auto; lia.
Qed.

(** Statuses only move along [moves]. *)
Lemma step_status i : stepped -> st c' i = st c i \/ moves (st c i) (st c' i).
Proof.
  intros Hs. pose proof (run_status i Hs) as Hrun. open Hs.
  rules Hrule Hop; cbn in Hop, Hrun |- *; st_simpl Hlen; try (by left);
    case_decide as Hd; try (by left); subst; rewrite ?at1_same in Hrun.
  - right. rewrite H. constructor.
  - destruct Hrun as [-> | ->]; [lia|right; constructor|by left].
  - destruct Hrun as [-> | ->]; [lia|right; constructor|right; constructor].
  - right. rewrite H. constructor.
  - right. rewrite H. constructor.
  - destruct H as [-> | ->]; right; constructor.
Qed.

Lemma step_terminal i : stepped -> terminal (st c i) = true -> st c' i = st c i.
Proof.
  intros Hs Ht. destruct (step_status i Hs) as [H|H]; [done|].
  apply moves_not_terminal in H. congruence.
Qed.

Lemma released_terminal cc i : released m0 cc i -> terminal (st cc i) = true.
Proof. intros [-> | (_ & [-> | ->])]; done. Qed.

Lemma step_released i : stepped -> released m0 c i -> released m0 c' i.
Proof.
  intros Hs H. pose proof (step_terminal i Hs (released_terminal _ _ H)) as E.
  unfold released in *. by rewrite E.
Qed.

Lemma released_result cc i r :
  fatal_result (optional_at m0 i) r = None -> st cc i = statusOf r -> released m0 cc i.
Proof.
  unfold released, fatal_result. intros H ->. destruct r as [|e]; [by left|].
  destruct (optional_at m0 i); cbn in H; [|done]. case_bool_decide as Hb; [done|].
  destruct e; cbn; auto; done.
Qed.

Lemma step_fatal : stepped -> hasFatalFailure c = true -> hasFatalFailure c' = true.
Proof. intros Hs Hf. open Hs. destruct Hrule; cbn; congruence. Qed.

Lemma succs_range i : stepped -> targets_ok adj -> in_range m0 (succs (impl_ c) i).
Proof.
  intros Hs Ht. open Hs. unfold succs. rewrite (sg_adjacency _ _ Hgr).
  destruct (adj !! i) as [l|] eqn:E; [|by apply Forall_nil_2]. cbn.
  pose proof (Forall_lookup_1 _ _ _ _ Ht E) as H. eapply Forall_impl; [exact H|].
  cbn. intros j. by rewrite length_adjacency.
Qed.

(** ** Tokens *)

Lemma step_tokens i : stepped -> tokens_ok (st c' i) (cnt (claimN i) p') (cnt (runN i) p').
Proof.
  intros Hs. destruct (tokens_here i Hs) as (Ht & Hcl & Hrl). open Hs.
  pose proof (pc_cnt _ _ _ _ Hpc (claimN i)) as Hc. pose proof (pc_cnt _ _ _ _ Hpc (runN i)) as Hr.
  assert (Hdep : forall ns, Forall is_dep ns -> cntl (claimN i) ns = 0%nat /\ cntl (runN i) ns = 0%nat).
  { clear. induction 1 as [|x l Hx _ [IH1 IH2]]; [done|]. unfold cntl in *. cbn.
    rewrite IH1, IH2. by destruct x as [| | | | | | | | | | | | | | | | | | | | | |[]]. }
  rules Hrule Hop; cbn in Hop, Hc, Hr, Hcl, Hrl |- *; st_simpl Hlen;
    try match goal with H : Forall is_dep _ |- _ => destruct (Hdep _ H) as [Hd1 Hd2];
      rewrite cntl_app, ?Hd1 in Hc; rewrite cntl_app, ?Hd2 in Hr; cbn in Hc, Hr end;
    unfold at1 in *; repeat case_decide; subst;
    repeat match goal with H : st _ _ = _ |- _ => rewrite H in Ht end;
    try congruence;
    try match goal with H : Forall is_dep _ |- _ => clear H end;
    try match goal with H : _ \/ _ |- _ => destruct H end;
    try match type of Ht with tokens_ok ?x _ _ => unfold tokens_ok in *; destruct x; first [congruence | lia] end.
  - unfold tokens_ok in *. destruct r as [|[]], (st c i0); simpl; lia.
Qed.

(** ** Dependency counters *)

Lemma owed_lookup i : inv m0 owed s -> (i < n)%nat -> owed !! i = Some (owed_at owed i).
Proof.
  intros Hi Hn. unfold owed_at. destruct (owed !! i) eqn:E; [done|].
  apply lookup_ge_None in E. rewrite (i_owed_len _ _ _ Hi) in E. lia.
Qed.

Lemma owed_occ i j : inv m0 owed s -> (i < n)%nat -> (occ1 j (owed_at owed i) <= occ j owed)%nat.
Proof. intros Hi Hn. by eapply occ_lookup_le, owed_lookup. Qed.

(** An edge that is about to be counted down is still owed. *)
Lemma sub_owed i j l : stepped -> o = OSub i j l -> Z.of_nat (total_edges adj) < 2 ^ 32 ->
  (i < n)%nat /\ (j < n)%nat /\ (1 <= occ1 j (owed_at owed i))%nat /\
  1 <= unmet_at (impl_ c) j < 2 ^ 32.
Proof.
  intros Hs Ho Hb. open Hs. rewrite Ho in Hop, Hpc. cbn in Hop. destruct Hop as (Hi & _ & Hj & _).
  pose proof (i_rem _ _ _ Hinv i j) as Hr. pose proof (cnt_le_pool (remN adj i j) _ _ (pc_here _ _ _ _ Hpc)) as Hl.
  cbn in Hl. rewrite !decide_True in Hl by done.
  pose proof (owed_occ i j Hinv Hi). pose proof (i_le _ _ _ Hinv j). pose proof (occ_le_total j adj).
  rewrite (i_unmet _ _ _ Hinv j Hj). lia.
Qed.

Lemma step_unmet_zero j : stepped -> Z.of_nat (total_edges adj) < 2 ^ 32 -> (j < n)%nat ->
  unmet_at (impl_ c) j = 0 -> unmet_at (impl_ c') j = 0.
Proof.
  intros Hs Hb Hj H0. pose proof (fun i j l H => sub_owed i j l Hs H Hb) as Hsub. open Hs.
  rules Hrule Hop; cbn in Hop |- *; autorewrite with st_rw; try done.
  all: rewrite unmet_store_unmet by (rewrite Hlen; tauto); case_decide as Hd; [subst|done];
    destruct (Hsub _ _ _ eq_refl) as (_ & _ & _ & ?); lia.
Qed.

Lemma op_ok_stable x : stepped -> Z.of_nat (total_edges adj) < 2 ^ 32 -> op_ok m0 c x -> op_ok m0 c' x.
Proof.
  intros Hs Hb. apply op_ok_mono.
  - intros i. by apply step_terminal.
  - by apply step_fatal.
  - intros j Hj. by apply step_unmet_zero.
Qed.

Lemma deps_ok cc ns x : Forall is_dep ns -> x ∈ ns -> op_ok m0 cc x.
Proof. rewrite Forall_forall. intros H Hx%H. by destruct x as [| | | | | | | | | | | | | | | | | | | | | |[]]. Qed.

Lemma all_jobs_range : same_graph m0 (impl_ c) -> in_range m0 (all_jobs (impl_ c)).
Proof.
  intros Hg. unfold all_jobs. apply Forall_forall. intros i Hi%elem_of_seq.
  pose proof (sg_length _ _ Hg). lia.
Qed.

Ltac in_new H :=
  repeat (rewrite ?elem_of_cons, ?elem_of_app, ?elem_of_nil in H); 
  repeat match type of H with _ \/ _ => destruct H as [H|H] end; try (by destruct H); subst.

Lemma step_ops x : stepped -> targets_ok adj -> Z.of_nat (total_edges adj) < 2 ^ 32 ->
  in_pool x p' -> op_ok m0 c' x.
Proof.
  intros Hs Ht Hb Hx.
  destruct (pc_old _ _ _ _ (sp_pool Hs) x Hx) as [Hn|Ho];
    [|by apply op_ok_stable, (i_ops _ _ _ (sp_inv Hs))].
  pose proof (fun i => succs_range i Hs Ht) as Hsucc. pose proof (fun i => step_released i Hs) as Hrel.
  pose proof (fun i => claim_status i Hs) as Hcl.
  open Hs. pose proof (all_jobs_range Hgr) as Hall. pose proof (sg_optional _ _ Hgr) as Hopt.
  rules Hrule Hop; cbn in Hop; in_new Hn; cbn in Hcl |- *; try done; try (by eapply deps_ok);
    st_simpl Hlen; rewrite ?(decide_True (P := _ = _)) by done; unfold in_range in *;
    rewrite ?Forall_cons in Hop; try rewrite Forall_singleton; try (intuition (auto; fail)).
  - apply fatal_result_inv in H as [-> Hor]. rewrite Hopt in Hor. destruct Hop. auto.
  - destruct Hop as [? Hst]. rewrite Hopt in H. eauto using released_result.
  - destruct Hop as (? & ? & ? & ?). rewrite unmet_store_unmet, decide_True by (rewrite ?Hlen; auto). auto.
  - destruct (Hcl i) as [?|Hk]; [rewrite at1_same; lia|done|]. by apply (i_skipped _ _ _ Hinv i).
  - destruct k; [tauto|]. destruct Hop as (? & ? & ? & ?). st_simpl Hlen. case_decide; auto.
  - destruct k; tauto.
  - destruct (i_queue _ _ _ Hinv i) as [? ?]; [by eapply list_elem_of_lookup_2|]. auto.
Qed.

(** ** Ledger of owed edges *)

Lemma owed_after_at q j : stepped -> Z.of_nat (total_edges adj) < 2 ^ 32 ->
  (occ1 j (owed_at (owed_after o owed) q) + match o with OSub i k _ => if decide (i = q /\ k = j) then 1 else 0 | _ => 0 end
   = occ1 j (owed_at owed q))%nat.
Proof.
  intros Hs Hb. pose proof (fun i j l H => sub_owed i j l Hs H Hb) as Hsub. pose proof (sp_inv Hs) as Hinv.
  unfold owed_after. destruct o; try lia.
  destruct (Hsub _ _ _ eq_refl) as (Hi & _ & Hocc & _). pose proof (i_owed_len _ _ _ Hinv) as Hl.
  unfold owed_at at 1. destruct (decide (i = q)) as [<-|Hne].
  - rewrite list_lookup_insert_eq by lia. cbn.
    assert (Hin : s0 ∈ owed_at owed i) by (apply occ1_elem; lia).
    pose proof (occ1_remove1 s0 j _ Hin). repeat case_decide; subst; try tauto; lia.
  - rewrite list_lookup_insert_ne by done. rewrite decide_False by tauto. unfold owed_at. lia.
Qed.

Lemma owed_after_occ j : stepped -> Z.of_nat (total_edges adj) < 2 ^ 32 ->
  (occ j (owed_after o owed) + match o with OSub _ k _ => if decide (k = j) then 1 else 0 | _ => 0 end = occ j owed)%nat.
Proof.
  intros Hs Hb. pose proof (fun i j l H => sub_owed i j l Hs H Hb) as Hsub. pose proof (sp_inv Hs) as Hinv.
  unfold owed_after. destruct o; try lia.
  destruct (Hsub _ _ _ eq_refl) as (Hi & _ & Hocc & _).
  pose proof (occ_insert j _ _ _ (remove1 s0 (owed_at owed i)) (owed_lookup i Hinv Hi)).
  assert (Hin : s0 ∈ owed_at owed i) by (apply occ1_elem; lia).
  pose proof (occ1_remove1 s0 j _ Hin). repeat case_decide; lia.
Qed.

Lemma step_owed_len : stepped -> length (owed_after o owed) = n.
Proof.
  intros [Hinv _ _]. pose proof (i_owed_len _ _ _ Hinv). unfold owed_after. destruct o; try done.
  by rewrite length_insert.
Qed.

Lemma step_le j : stepped -> Z.of_nat (total_edges adj) < 2 ^ 32 -> (occ j (owed_after o owed) <= occ j adj)%nat.
Proof.
  intros Hs Hb. pose proof (owed_after_occ j Hs Hb). pose proof (i_le _ _ _ (sp_inv Hs) j). lia.
Qed.

Lemma step_unmet j : stepped -> Z.of_nat (total_edges adj) < 2 ^ 32 -> (j < n)%nat ->
  unmet_at (impl_ c') j = Z.of_nat (occ j (owed_after o owed)).
Proof.
  intros Hs Hb Hj. pose proof (fun i j l H => sub_owed i j l Hs H Hb) as Hsub.
  pose proof (owed_after_occ j Hs Hb) as Ho. open Hs. pose proof (i_unmet _ _ _ Hinv j Hj) as Hu.
  rules Hrule Hop; cbn in Hop, Ho |- *; autorewrite with st_rw; try lia.
  all: destruct (Hsub _ _ _ eq_refl) as (_ & Hk & _ & Hr);
    rewrite unmet_store_unmet by (rewrite Hlen; done); repeat case_decide; subst; try lia.
  all: rewrite u32_small by (unfold is_u32; lia); lia.
Qed.

Lemma step_owed q : stepped -> Z.of_nat (total_edges adj) < 2 ^ 32 ->
  ~ released m0 c' q -> owed_at (owed_after o owed) q = owed_at adj q.
Proof.
  intros Hs Hb Hn. assert (Hn' : ~ released m0 c q) by (intros ?; by apply Hn, step_released).
  rewrite <- (i_owed _ _ _ (sp_inv Hs) q Hn'). pose proof (stepped_op Hs) as Hop.
  unfold owed_after. destruct o; try done. cbn in Hop. unfold owed_at.
  rewrite list_lookup_insert_ne; [done|]. intros ->. tauto.
Qed.

Lemma step_started j : stepped -> Z.of_nat (total_edges adj) < 2 ^ 32 -> (j < n)%nat ->
  st c' j <> kPending -> st c' j <> kSkipped -> occ j (owed_after o owed) = 0%nat.
Proof.
  intros Hs Hb Hj Hp Hk. pose proof (owed_after_occ j Hs Hb) as Ho. pose proof (run_status j Hs) as Hrun.
  assert (Hz : occ j owed = 0%nat -> occ j (owed_after o owed) = 0%nat) by lia. clear Ho.
  destruct (decide (st c j = kPending)) as [E|E].
  - open Hs. pose proof (i_unmet _ _ _ Hinv j Hj) as Hu. apply Hz. clear Hz.
    rules Hrule Hop; cbn in Hop, Hp, Hk, Hrun; revert Hp Hk; st_simpl Hlen; try done; case_decide; subst; try done; try congruence.
    + rewrite at1_same in Hrun. destruct Hrun; [lia|congruence..].
    + rewrite at1_same in Hrun. destruct Hrun; [lia|congruence..].
    + intros _ _. destruct Hop as (_ & _ & _ & _ & ?). lia.
  - apply Hz, (i_started _ _ _ (sp_inv Hs) j Hj E). intros E'. apply Hk.
    rewrite (step_terminal j Hs); [done|]. by rewrite E'.
Qed.
End preserve.
