(* ===== verification/SchedulerKeep.v ===== *)
(** Every step keeps the invariant of a run (continued): what is still owed to
    dependents, failure containment, reports and the skip queue. *)
From S2P Require Import Prelude Types EdgeLists SuccessorPool Nodes Kahn Graph Pipeline Run Dispatch Scheduler SchedulerStep SchedulerInv.

Lemma deps_cntl f ns : (forall i l, f (OObserve (onDependenciesResolved i l)) = 0%nat) ->
  Forall is_dep ns -> cntl f ns = 0%nat.
Proof.
  intros Hf. induction 1 as [|x l Hx _ IH]; [done|]. unfold cntl in *. cbn. rewrite IH.
  destruct x as [| | | | | | | | | | | | | | | | | | | | | |[]]; try done. by rewrite Hf.
Qed.

Lemma terminals_store i x m : (i < length (nodes_ m))%nat ->
  (terminals (store_status i x m) + b2n (terminal (status_at m i)) = terminals m + b2n (terminal x))%nat.
Proof.
  unfold terminals, store_status, alter_node, status_at. cbn [nodes_ set_nodes].
  generalize (nodes_ m). intros l. revert i. induction l as [|nd l IH]; intros [|i] Hi; cbn in *; try lia.
  pose proof (f_equal (Nat.add (b2n (terminal (jobStatus_ nd)))) (IH i ltac:(lia))) as H.
  rewrite !Nat.add_assoc in H. exact H.
Qed.
Lemma terminals_le m : (terminals m <= length (nodes_ m))%nat.
Proof.
  unfold terminals. induction (nodes_ m) as [|nd l IH]; cbn; [lia|].
  destruct (terminal (jobStatus_ nd)); cbn; lia.
Qed.
Lemma terminals_store_unmet i z m : terminals (store_unmet i z m) = terminals m.
Proof.
  unfold terminals, store_unmet, alter_node. cbn [nodes_ set_nodes].
  generalize (nodes_ m). intros l. revert i. induction l as [|nd l IH]; intros [|i]; cbn; [done..| |].
  - by destruct nd.
  - f_equal. apply IH.
Qed.

Section keep.
Context (m0 : Impl) (owed : list (list nat)) (s : RunState) (o : op) (c' : DispatchContext)
  (new : list op) (p' : list (list op)).
Abbreviation adj := (adjacency m0).
Abbreviation n := (length (nodes_ m0)).
Abbreviation c := (ctx s).
Abbreviation p := (threads s).
Abbreviation stepped := (stepped m0 owed s o c' new p').
Context (Hbound : Z.of_nat (total_edges adj) < 2 ^ 32).

Ltac open Hs :=
  pose proof (stepped_op _ _ _ _ _ _ _ Hs) as Hop; destruct Hs as [Hinv Hrule Hpc];
  pose proof (i_graph _ _ _ Hinv) as Hgr; pose proof (sg_length _ _ Hgr) as Hlen.
Ltac rules Hrule Hop := destruct Hrule; try (destruct (op_ok_claim _ _ _ _ _ Hop) as [Hi0 Hl0]).
Ltac st_simpl Hlen := autorewrite with st_rw;
  rewrite ?status_store_status by (rewrite Hlen; first [assumption | tauto]).
(** The count of [f] in the new pool, for each rule. *)
Ltac deps Hc :=
  try match goal with H : Forall is_dep ?ns |- _ =>
    repeat rewrite ?cntl_app in Hc; rewrite ?(deps_cntl _ ns (fun _ _ => eq_refl) H) in Hc; cbn in Hc end.

Lemma succs_adj i : stepped -> succs (impl_ c) i = owed_at adj i.
Proof. intros Hs. open Hs. unfold succs, owed_at. by rewrite (sg_adjacency _ _ Hgr). Qed.

Lemma rem_terminal x q j : op_ok m0 c x -> (0 < remN adj q j x)%nat -> terminal (st c q) = true.
Proof.
  destruct x; cbn; try lia; case_decide; subst; try lia; intros Hx _;
    try (destruct Hx as (_ & Hr & _); by apply released_terminal in Hr);
    destruct Hx as (_ & ->); apply statusOf_terminal.
Qed.

Lemma step_rem q j : stepped -> (cnt (remN adj q j) p' <= occ1 j (owed_at (owed_after o owed) q))%nat.
Proof.
  intros Hs. pose proof (owed_after_at _ _ _ _ _ _ _ q j Hs Hbound) as Ho.
  pose proof (run_status _ _ _ _ _ _ _ q Hs) as Hrun. pose proof (succs_adj q Hs) as Hsucc.
  open Hs. pose proof (i_rem _ _ _ Hinv q j) as Hr. pose proof (pc_cnt _ _ _ _ Hpc (remN adj q j)) as Hc.
  rules Hrule Hop; cbn in Ho, Hc, Hrun, Hop |- *; deps Hc; try lia;
    repeat (case_decide; subst; try tauto; try lia).
  - rewrite at1_same in Hrun. assert (Hnt : terminal (st c i) = false) by (destruct Hrun as [-> | ->]; [lia|done|done]).
    assert (Hz : cnt (remN adj i j) p = 0%nat).
    { apply cnt_zero. intros x Hx. destruct (decide (remN adj i j x = 0%nat)) as [|Hnz]; [done|].
      pose proof (rem_terminal x i j (i_ops _ _ _ Hinv x Hx)). rewrite Hnt in *. lia || (exfalso; enough (false = true) by done; apply H; lia). }
    rewrite (i_owed _ _ _ Hinv i) in * by (intros Hrel%released_terminal; congruence).
    unfold owed_at. lia.
  - rewrite Hsucc in Hc. unfold owed_at in *. lia.
Qed.

(** ** Skip responsibility *)

Lemma pending_before j : stepped -> st c' j = kPending -> st c j = kPending.
Proof.
  intros Hs H. destruct (step_status _ _ _ _ _ _ _ j Hs) as [E|E]; [congruence|].
  rewrite H in E. inversion E. destruct r as [|[]]; done. destruct r as [|[]]; done.
Qed.

Lemma cov_kept j x : stepped -> (j < n)%nat -> st c' j = kPending \/ st c' j = kReady ->
  in_pool x p -> skipcov j x = true -> exists y, in_pool y p' /\ skipcov j y = true.
Proof.
  intros Hs Hj Hst Hx Hcov. destruct (pc_keep _ _ _ _ (sp_pool _ _ _ _ _ _ _ Hs) x Hx) as [->|Hk]; [|eauto].
  open Hs. pose proof (pc_new _ _ _ _ Hpc) as Hn.
  assert (Hall : bool_decide (j ∈ all_jobs (impl_ c)) = true).
  { apply bool_decide_true. unfold all_jobs. apply elem_of_seq. lia. }
  rules Hrule Hop; cbn in Hcov; try done;
    try (eexists; split; [apply Hn; rewrite ?elem_of_cons, ?elem_of_app, ?elem_of_cons; eauto 6|cbn; assumption]; fail);
    try (eexists; split; [apply Hn; apply elem_of_list_here|cbn; done]; fail).
  - apply bool_decide_eq_true, elem_of_cons in Hcov as [->|Hin].
    + exists (OSkipEnter i). split; [apply Hn; set_solver|]. cbn. by apply bool_decide_true.
    + exists (OSkips l). split; [apply Hn; set_solver|]. cbn. by apply bool_decide_true.
  - apply bool_decide_eq_true in Hcov as ->. exists (OSkipClaims [i] Gate).
    split; [apply Hn; set_solver|]. cbn. apply bool_decide_true. set_solver.
  - exists (OSkipClaims l k). split; [apply Hn; set_solver|]. cbn. apply bool_decide_true.
    apply bool_decide_eq_true, elem_of_cons in Hcov as [->|Hin]; [|done]. exfalso.
    cbn in Hst. revert Hst. st_simpl Hlen. rewrite decide_True by done. by intros [|].
  - exists (OSkipClaims l k). split; [apply Hn; set_solver|]. cbn. apply bool_decide_true.
    apply bool_decide_eq_true, elem_of_cons in Hcov as [->|Hin]; [|done]. by destruct Hst.
Qed.

Lemma queue_nonempty cc i : (skipped_ cc !! skipRead cc) = Some i -> queue cc = i :: drop (S (skipRead cc)) (skipped_ cc).
Proof. intros H. unfold queue. by apply drop_S. Qed.

Lemma queue_skipped q : inv m0 owed s -> q ∈ queue c -> (q < n)%nat /\ st c q = kSkipped.
Proof.
  intros Hinv Hq. apply (i_queue _ _ _ Hinv q). unfold queue in Hq.
  apply list_elem_of_lookup_1 in Hq as [k Hk]. rewrite lookup_drop in Hk. by eapply list_elem_of_lookup_2.
Qed.

Lemma queue_claim cc i d m mm : (skipRead cc <= length (skipped_ cc))%nat ->
  queue (with_skips (skipped_ cc ++ [i]) (skipRead cc) d m (with_impl mm cc)) = queue cc ++ [i].
Proof. intros H. unfold queue. cbn. by rewrite drop_app_le. Qed.

(** A queued node stays queued until the drain loop takes it. *)
Lemma queue_kept q : stepped -> q ∈ queue c ->
  q ∈ queue c' \/ (q :: queue c' = queue c /\ OSkipClaims (succs (impl_ c) q) (CountOf q) ∈ new).
Proof.
  intros Hs Hq. open Hs. pose proof (i_read _ _ _ Hinv) as Hrd.
  rules Hrule Hop; try (left; exact Hq).
  - left. rewrite queue_claim by done. set_solver.
  - apply queue_nonempty in H. rewrite H in Hq. apply elem_of_cons in Hq as [->|Hq]; [|by left].
    right. split; [by rewrite H|set_solver].
Qed.

(** An edge whose job finished and whose target still waits is in somebody's care. *)
Lemma step_cover q j : stepped -> (j < n)%nat -> terminal (st c' q) = true -> st c' j = kPending ->
  (occ1 j (owed_at (owed_after o owed) q) <= cnt (remN adj q j) p')%nat \/
  q ∈ queue c' \/ exists x, in_pool x p' /\ skipcov j x = true.
Proof.
  intros Hs Hj Htq Hpj. pose proof (pending_before j Hs Hpj) as Hpj0.
  pose proof (owed_after_at _ _ _ _ _ _ _ q j Hs Hbound) as Ho.
  pose proof (queue_kept q Hs) as Hq'. pose proof (run_status _ _ _ _ _ _ _ q Hs) as Hrun.
  pose proof (fun x => cov_kept j x Hs Hj (or_introl Hpj)) as Hkeep. pose proof (succs_adj q Hs) as Hsucc.
  pose proof (step_status _ _ _ _ _ _ _ q Hs) as Hmv. pose proof (pc_new _ _ _ _ (sp_pool _ _ _ _ _ _ _ Hs)) as Hn.
  open Hs. pose proof (pc_cnt _ _ _ _ Hpc (remN adj q j)) as Hc.
  assert (Hold : terminal (st c q) = true ->
    (occ1 j (owed_at owed q) <= cnt (remN adj q j) p)%nat \/
    q ∈ queue c \/ exists x, in_pool x p' /\ skipcov j x = true).
  { intros Ht. destruct (i_cover _ _ _ Hinv q j Hj Ht Hpj0) as [?|[?|(x & Hx & Hcx)]]; eauto. }
  destruct (terminal (st c q)) eqn:Ht0.
  - specialize (Hold eq_refl). destruct Hold as [Hle|[Hq|?]]; [| |auto].
    + rules Hrule Hop; cbn in Ho, Hc |- *; deps Hc; try (left; lia); repeat (case_decide; subst; try (left; lia)).
      * destruct (decide (j ∈ succs (impl_ c) i)) as [Hin|Hin].
        -- right. right. exists (OFatal i e (succs (impl_ c) i)). split; [apply Hn; set_solver|].
           cbn. by apply bool_decide_true.
        -- left. rewrite <- occ1_elem, Hsucc in Hin. unfold owed_at in *. lia.
      * rewrite Hsucc in Hc. unfold owed_at in Hc at 1. left. lia.
      * right. right. exists (OSkipEnter j). split; [apply Hn; set_solver|]. cbn. by apply bool_decide_true.
      * right. right. exists (OSubmissionFailed s0). split; [apply Hn; set_solver|done].
    + destruct (queue_skipped q Hinv Hq) as [Hqn Hqs].
      destruct (Hq' Hq) as [?|[_ Hq2]]; [auto|]. destruct (decide (j ∈ succs (impl_ c) q)) as [Hin|Hin].
      * right. right. eexists. split; [by apply Hn, Hq2|]. cbn. by apply bool_decide_true.
      * left. rewrite <- occ1_elem, Hsucc, <- (i_owed _ _ _ Hinv q) in Hin; [lia|].
        unfold released. rewrite Hqs. intros [?|(_ & [?|?])]; done.
  - rules Hrule Hop; cbn in Htq, Hop, Hrun, Ho, Hc |- *; revert Htq; st_simpl Hlen; try congruence;
      repeat case_decide; subst; try congruence; try done; intros _.
    + left. rewrite (i_owed _ _ _ Hinv i) by (intros ?%released_terminal; congruence).
      unfold owed_at in *. lia.
    + right. right. exists (OSubRecord q true). split; [apply Hn; set_solver|done].
    + right. left. change (q ∈ queue (with_skips (skipped_ c ++ [q]) (skipRead c) (drainingSkips c) (skipMutex c)
        (with_impl (store_status q kSkipped (impl_ c)) c))).
      rewrite queue_claim by (apply (i_read _ _ _ Hinv)). set_solver.
Qed.

Lemma step_pending j : stepped -> (j < n)%nat -> st c' j = kPending -> occ j (owed_after o owed) = 0%nat ->
  (ondemand_at m0 j = true /\ occ j adj = 0%nat) \/ exists q l, in_pool (OReadyCas q j l) p'.
Proof.
  intros Hs Hj Hp Ho. pose proof (pending_before j Hs Hp) as Hp0.
  pose proof (owed_after_occ _ _ _ _ _ _ _ j Hs Hbound) as Hocc.
  pose proof (step_unmet _ _ _ _ _ _ _ j Hs Hbound Hj) as Hu.
  open Hs. destruct (decide (occ j owed = 0%nat)) as [H0|H0].
  - destruct (i_pending _ _ _ Hinv j Hj Hp0 H0) as [?|(q & l & Hq)]; [by left|].
    right. destruct (pc_keep _ _ _ _ Hpc _ Hq) as [E|?]; [|eauto].
    rules Hrule Hop; simplify_eq.
    + cbn in Hp, Hop. revert Hp. st_simpl Hlen. by rewrite decide_True.
  - right. rules Hrule Hop; cbn in Hocc, Hu, Ho; try lia; case_decide; subst; try lia;
      rewrite unmet_store_unmet, decide_True in Hu by (rewrite ?Hlen; done).
    + exists i, l. apply (pc_new _ _ _ _ Hpc). set_solver.
    + lia.
Qed.

Lemma step_ready j : stepped -> (j < n)%nat -> st c' j = kReady ->
  exists x, in_pool x p' /\ ((0 < claimN j x)%nat \/ skipcov j x = true).
Proof.
  intros Hs Hj Hp. pose proof (fun x => cov_kept j x Hs Hj (or_intror Hp)) as Hkeep.
  pose proof (pc_new _ _ _ _ (sp_pool _ _ _ _ _ _ _ Hs)) as Hn.
  pose proof (run_status _ _ _ _ _ _ _ j Hs) as Hrun.
  open Hs. destruct (decide (st c j = kReady)) as [E|E].
  - destruct (i_ready _ _ _ Hinv j Hj E) as (x & Hx & [Hcl|Hcov]).
    2:{ destruct (Hkeep x Hx Hcov) as (y & ? & ?). eauto. }
    destruct (pc_keep _ _ _ _ Hpc _ Hx) as [->|?]; [|eauto].
    assert (Hgive : forall y, y ∈ new -> claimN j y <> 0%nat \/ skipcov j y = true ->
      exists x, in_pool x p' /\ ((0 < claimN j x)%nat \/ skipcov j x = true)).
    { intros y Hy [?|?]; exists y; (split; [by apply Hn|]); [left; lia|by right]. }
    clear Hn. rules Hrule Hop; cbn in Hcl, Hop; try lia.
    + case_decide; subst.
      * apply (Hgive (OSkipEnter j)); [set_solver|]. right. cbn. by apply bool_decide_true.
      * apply (Hgive (ORoots l)); [set_solver|]. left. cbn. lia.
    + case_decide; subst.
      * apply (Hgive (ODispatchJob j)); [set_solver|]. left. cbn. by rewrite at1_same.
      * apply (Hgive (ORoots l)); [set_solver|]. left. cbn. lia.
    + apply (Hgive (OSubmissionFailed i)); [set_solver|by right].
    + apply (Hgive (OSkipEnter i)); [set_solver|]. right. cbn. apply bool_decide_true.
      unfold at1 in Hcl. case_decide; [done|lia].
    + apply (Hgive (OClaim i)); [set_solver|]. left. cbn. lia.
    + exfalso. unfold at1 in Hcl. case_decide; [subst|lia]. cbn in Hp. revert Hp. st_simpl Hlen. by rewrite decide_True.
    + exfalso. unfold at1 in Hcl. case_decide; [subst|lia]. done.
    + apply (Hgive (ODispatchJob s0)); [set_solver|]. left. cbn. lia.
    + apply (Hgive (OSubmissionFailed s0)); [set_solver|by right].
    + apply (Hgive (OSubRecord i true)); [set_solver|by right].
    + apply (Hgive (OSubRecord i false)); [set_solver|by right].
  - assert (Hmv : st c j = kPending /\ exists i l, OSubmit i j l ∈ new).
    { rules Hrule Hop; cbn in Hp, Hop, Hrun; revert Hp; st_simpl Hlen; try done; try (case_decide; subst; done).
      - case_decide; subst; [|done]. by destruct r as [|[]].
      - case_decide; subst; [|done]. intros _. split; [done|]. exists i, l. set_solver. }
    destruct Hmv as (_ & i & l & Hnew). exists (OSubmit i j l). split; [by apply Hn|]. left. cbn. rewrite at1_same. lia.
Qed.

Lemma step_skipped i : stepped -> st c' i = kSkipped -> hasFatalFailure c' = true.
Proof.
  intros Hs Hk. destruct (decide (st c i = kSkipped)) as [E|E].
  { apply (step_fatal _ _ _ _ _ _ _ Hs). by apply (i_skipped _ _ _ (sp_inv _ _ _ _ _ _ _ Hs) i). }
  open Hs. rules Hrule Hop; cbn in Hk, Hop |- *; revert Hk; st_simpl Hlen; try done;
    try (case_decide; subst; try done; by destruct r as [|[]]).
  destruct k; tauto.
Qed.

Lemma step_success q : stepped -> (q < n)%nat -> hasFatalFailure c' = false -> terminal (st c' q) = true ->
  released m0 c' q \/ exists x, in_pool x p' /\ willfail m0 q x.
Proof.
  intros Hs Hq Hf Ht. pose proof (pc_new _ _ _ _ (sp_pool _ _ _ _ _ _ _ Hs)) as Hn.
  assert (Hf0 : hasFatalFailure c = false).
  { destruct (hasFatalFailure c) eqn:E; [|done]. rewrite (step_fatal _ _ _ _ _ _ _ Hs E) in Hf. done. }
  pose proof (step_released _ _ _ _ _ _ _ q Hs) as Hrel.
  destruct (terminal (st c q)) eqn:Ht0.
  - destruct (i_success _ _ _ (sp_inv _ _ _ _ _ _ _ Hs) q Hq Hf0 Ht0) as [?|(x & Hx & Hw)]; [auto|].
    destruct (pc_keep _ _ _ _ (sp_pool _ _ _ _ _ _ _ Hs) _ Hx) as [->|?]; [|eauto].
    open Hs. right. pose proof (sg_optional _ _ Hgr) as Hopt.
    rules Hrule Hop; cbn in Hw, Hf; try done;
      try match type of Hw with _ /\ _ => destruct Hw as [-> Hw] end; subst.
    + exists (OAfter q r). split; [apply Hn|by split].
      rewrite elem_of_cons, elem_of_app. set_solver.
    + exists (OFatal q e (succs (impl_ c) q)). split; [apply Hn; set_solver|done].
    + by rewrite Hopt in H.
    + congruence.
    + congruence.
  - open Hs. rules Hrule Hop; cbn in Ht, Hop |- *; revert Ht; st_simpl Hlen; try congruence;
      repeat case_decide; subst; try congruence; try done; intros _.
    + destruct (fatal_result (optional_at m0 q) r) eqn:E.
      * right. exists (OCount q r). split; [apply Hn; set_solver|]. split; [done|congruence].
      * left. apply released_result with r; [done|]. cbn. st_simpl Hlen. by rewrite decide_True.
    + right. exists (OSubRecord q true). split; [apply Hn; set_solver|done].
    + exfalso. destruct k; cbn in Hf; destruct Hop as (? & ?); intuition congruence.
Qed.

Lemma step_cause : stepped -> hasFatalFailure c' = true -> exists q, (q < n)%nat /\
  failedJobName_ (impl_ c') = name_at m0 q /\ st c' q = statusOf (Unexpected (fatalError c')) /\
  (optional_at m0 q = false \/ fatalError c' = kCancelledError \/ fatalError c' = kJobFailed).
Proof.
  intros Hs Hf. pose proof (fun i => step_terminal _ _ _ _ _ _ _ i Hs) as Ht.
  destruct (hasFatalFailure c) eqn:E.
  - destruct (i_cause _ _ _ (sp_inv _ _ _ _ _ _ _ Hs) E) as (q & Hq & Hname & Hst & Hw). exists q.
    assert (Hst' : st c' q = st c q) by (apply Ht; rewrite Hst; apply statusOf_terminal).
    split; [done|]. rewrite Hst', Hst. clear Ht Hst Hst'. open Hs.
    assert (failedJobName_ (impl_ c') = failedJobName_ (impl_ c) /\ fatalError c' = fatalError c) as [-> ->]; [|done].
    destruct Hrule; cbn; try done; congruence.
  - open Hs. pose proof (sg_name _ _ Hgr) as Hnm. rules Hrule Hop; cbn in Hop, Hf |- *; try congruence.
    + exists i. rewrite Hnm. destruct Hop as (? & Hi & _ & ?). split; [done|]. split; [done|]. split; [done|]. tauto.
    + exists i. rewrite Hnm. destruct Hop as (? & Hi). split; [done|]. split; [done|]. split; [done|]. tauto.
Qed.

(** ** Reports *)

Lemma step_starts i : stepped -> starts_ok (st c' i) (events (is_start i) c' + cnt (startN i) p').
Proof.
  intros Hs. pose proof (run_status _ _ _ _ _ _ _ i Hs) as Hrun.
  open Hs. pose proof (i_starts _ _ _ Hinv i) as Ht. pose proof (pc_cnt _ _ _ _ Hpc (startN i)) as Hc.
  unfold events in *.
  rules Hrule Hop; cbn in Hc, Hop, Hrun |- *; deps Hc; st_simpl Hlen;
    try (assert (Hsame : cnt (startN i) p' = cnt (startN i) p) by lia; rewrite Hsame; exact Ht).
  - assert (Hsame : cnt (startN i) p' = (cnt (startN i) p + at1 i i0)%nat) by lia. rewrite Hsame.
    case_decide; subst; [|unfold at1; rewrite decide_False, Nat.add_0_r by done; exact Ht].
    rewrite H in Ht. rewrite at1_same. cbn in Ht |- *. lia.
  - assert (Hsame : cnt (startN i) p' = cnt (startN i) p) by lia. rewrite Hsame.
    case_decide; subst; [|exact Ht]. rewrite at1_same in Hrun.
    destruct Hrun as [E|E]; [lia|rewrite E in Ht; exact Ht..].
  - assert (Hsame : cnt (startN i) p' = cnt (startN i) p) by lia. rewrite Hsame.
    case_decide; subst; [|exact Ht]. rewrite at1_same in Hrun.
    destruct Hrun as [E|E]; [lia|rewrite E in Ht; cbn in Ht;
      destruct r as [|[]]; cbn; lia..].
  - assert (Hsame : cnt (startN i) p' = cnt (startN i) p) by lia. rewrite Hsame.
    case_decide; subst; [|exact Ht]. rewrite H in Ht. exact Ht.
  - assert (Hsame : cnt (startN i) p' = cnt (startN i) p) by lia. rewrite Hsame.
    case_decide; subst; [|exact Ht]. rewrite H in Ht. cbn in Ht |- *. lia.
  - assert (Hsame : cnt (startN i) p' = cnt (startN i) p) by lia. rewrite Hsame.
    case_decide; subst; [|exact Ht]. destruct H as [H|H]; rewrite H in Ht; exact Ht.
  - assert (Hsame : (cnt (startN i) p' + is_start i e = cnt (startN i) p)%nat) by (destruct e; cbn in Hc |- *; lia).
    rewrite sum_list_with_app, <- Nat.add_assoc. cbn [sum_list_with].
    rewrite Nat.add_0_r, (Nat.add_comm (is_start i e)), Hsame. exact Ht.
Qed.

Lemma step_finishes i : stepped -> (events (is_finish i) c' + cnt (finN i) p' + occ1 i (queue c') =
  b2n (terminal (st c' i)))%nat.
Proof.
  intros Hs. pose proof (run_status _ _ _ _ _ _ _ i Hs) as Hrun.
  open Hs. pose proof (i_finishes _ _ _ Hinv i) as Ht. pose proof (pc_cnt _ _ _ _ Hpc (finN i)) as Hc.
  pose proof (i_read _ _ _ Hinv) as Hrd.
  unfold events in *.
  rules Hrule Hop; rewrite ?queue_claim by done; cbn in Hc, Hop, Hrun |- *; deps Hc; st_simpl Hlen;
    try (assert (Hsame : cnt (finN i) p' = cnt (finN i) p) by lia; rewrite Hsame; exact Ht).
  all: change (drop (skipRead c) (skipped_ c)) with (queue c); unfold at1 in *.
  - case_decide; subst; [rewrite H in Ht; cbn in Ht |- *|]; lia.
  - repeat case_decide; subst; try done; [|lia].
    destruct Hrun as [E|E]; [lia|rewrite E in Ht; cbn in Ht |- *; lia..].
  - repeat case_decide; subst; try done; [|lia].
    destruct Hrun as [E|E]; [lia|rewrite E in Ht; rewrite statusOf_terminal; cbn in Ht |- *; lia..].
  - case_decide; subst; [rewrite H in Ht; cbn in Ht |- *|]; lia.
  - repeat case_decide; subst; try done; [rewrite H in Ht; cbn in Ht |- *|]; lia.
  - rewrite occ1_app. cbn. case_decide; subst; [|lia].
    destruct H as [H|H]; rewrite H in Ht; cbn in Ht |- *; lia.
  - pose proof (queue_nonempty _ _ H) as Hq. rewrite Hq in Ht. cbn in Ht.
    repeat case_decide; subst; try done; lia.
  - rewrite sum_list_with_app. cbn. destruct e; cbn in Hc |- *; unfold at1 in *; lia.
Qed.

Lemma step_count : stepped -> Z.of_nat n < 2 ^ 32 ->
  completedCount_ (impl_ c') + Z.of_nat (cnt pendN p') + Z.of_nat (length (queue c'))
    = Z.of_nat (terminals (impl_ c')) /\ 0 <= completedCount_ (impl_ c').
Proof.
  intros Hs Hn. pose proof (fun i => run_status _ _ _ _ _ _ _ i Hs) as Hrun.
  open Hs. destruct (i_count _ _ _ Hinv) as [Ht H0]. pose proof (pc_cnt _ _ _ _ Hpc pendN) as Hc.
  pose proof (i_read _ _ _ Hinv) as Hrd. pose proof (terminals_le (impl_ c)) as Hle. rewrite Hlen in Hle.
  assert (Hu : (0 < cnt pendN p)%nat -> u32 (completedCount_ (impl_ c) + 1) = completedCount_ (impl_ c) + 1).
  { intros ?. apply u32_small. unfold is_u32. lia. }
  rules Hrule Hop; rewrite ?queue_claim by done; cbn in Hc, Hop, Hrun |- *; deps Hc;
    try (split; [|done]; assert (Hsame : cnt pendN p' = cnt pendN p) by lia; rewrite Hsame; exact Ht).
  all: change (drop (skipRead c) (skipped_ c)) with (queue c);
    repeat match goal with
    | |- context [completedCount_ (store_status ?i ?x ?m)] =>
        change (completedCount_ (store_status i x m)) with (completedCount_ m)
    | |- context [completedCount_ (store_unmet ?i ?x ?m)] =>
        change (completedCount_ (store_unmet i x m)) with (completedCount_ m)
    end; try (rewrite terminals_store_unmet; lia);
    try match goal with |- context [terminals (store_status ?i ?x ?m)] =>
      pose proof (terminals_store i x m ltac:(rewrite Hlen; first [assumption | tauto])) as Hts;
      try match goal with H : st _ _ = _ |- _ => rewrite H in Hts end
    end; try (cbn in Hts; lia).
  - specialize (Hrun i). rewrite at1_same in Hrun. destruct Hrun as [E|E]; [lia|rewrite E in Hts; cbn in Hts; lia..].
  - specialize (Hrun i). rewrite at1_same, statusOf_terminal in *.
    destruct Hrun as [E|E]; [lia|rewrite E in Hts; cbn in Hts; lia..].
  - fold (terminals (impl_ c)). lia.
  - fold (terminals (impl_ c)). lia.
  - rewrite length_app. cbn. destruct H as [H|H]; rewrite H in Hts; cbn in Hts; lia.
  - fold (terminals (impl_ c)). lia.
  - pose proof (queue_nonempty _ _ H) as Hq. rewrite Hq in Ht. cbn in Ht. lia.
Qed.

(** ** The skip lock and queue *)

Lemma step_locks : stepped ->
  cnt csN p' = b2n (skipMutex c') /\ cnt drainN p' = b2n (drainingSkips c') /\
  (drainingSkips c' = false -> queue c' <> [] -> exists l, in_pool (OSkipClaims l Gate) p') /\
  (skipRead c' <= length (skipped_ c'))%nat.
Proof.
  intros Hs. pose proof (pc_new _ _ _ _ (sp_pool _ _ _ _ _ _ _ Hs)) as Hn. open Hs.
  pose proof (i_mutex _ _ _ Hinv) as Hm. pose proof (i_drain _ _ _ Hinv) as Hd.
  pose proof (i_gate _ _ _ Hinv) as Hg. pose proof (i_read _ _ _ Hinv) as Hrd.
  pose proof (pc_cnt _ _ _ _ Hpc csN) as Hc. pose proof (pc_cnt _ _ _ _ Hpc drainN) as Hc2.
  pose proof (cnt_le_pool csN _ _ (pc_here _ _ _ _ Hpc)) as Hle.
  pose proof (cnt_le_pool drainN _ _ (pc_here _ _ _ _ Hpc)) as Hle2.
  assert (Hkeep : (forall l, o <> OSkipClaims l Gate) -> drainingSkips c = false -> queue c <> [] ->
    exists l, in_pool (OSkipClaims l Gate) p').
  { intros Hno Hdr Hq. destruct (Hg Hdr Hq) as [l Hl]. exists l.
    destruct (pc_keep _ _ _ _ Hpc _ Hl) as [E|?]; [by destruct (Hno l)|done]. }
  clear Hg. rules Hrule Hop; rewrite ?queue_claim by done; cbn in Hc, Hc2, Hle, Hle2 |- *; deps Hc; deps Hc2;
    change (drop (skipRead c) (skipped_ c)) with (queue c);
    try (split; [lia|]; split; [lia|]; split; [apply Hkeep; done|done]; fail).
  all: assert (Hb : forall b, (b2n b <= 1)%nat) by (intros []; cbn; lia);
    pose proof (Hb (skipMutex c)) as Hb1; pose proof (Hb (drainingSkips c)) as Hb2; clear Hb;
    try rewrite H in Hm; try rewrite H in Hd; cbn in Hm, Hd.
  - split; [lia|]. split; [lia|]. split; [by apply Hkeep|done].
  - split; [lia|]. split; [lia|]. split; [|rewrite length_app; lia]. intros Hdr _. destruct k.
    + exists l. apply Hn. set_solver.
    + rewrite Hdr in Hd. cbn in Hd. lia.
  - split; [lia|]. split; [lia|]. split; [|done]. intros Hdr Hq. destruct k.
    + exists l. apply Hn. set_solver.
    + by apply Hkeep.
  - split; [lia|]. split; [lia|]. done.
  - split; [lia|]. split; [lia|]. done.
  - split; [lia|]. split; [lia|]. split; [by apply Hkeep|done].
  - split; [lia|]. split; [lia|]. split; [by apply Hkeep|done].
  - split; [lia|]. split; [lia|]. split.
    + intros Hdr. rewrite Hdr in Hd. cbn in Hd. lia.
    + apply lookup_lt_Some in H. lia.
  - split; [lia|]. split; [lia|]. split; [|done]. intros _ Hq. destruct Hq. unfold queue.
    apply drop_ge. by apply lookup_ge_None.
Qed.

Lemma step_queue q : stepped -> q ∈ skipped_ c' -> (q < n)%nat /\ st c' q = kSkipped.
Proof.
  intros Hs Hq. assert (Hold : q ∈ skipped_ c -> (q < n)%nat /\ st c' q = kSkipped).
  { intros H. destruct (i_queue _ _ _ (sp_inv _ _ _ _ _ _ _ Hs) q H) as [? E]. split; [done|].
    rewrite (step_terminal _ _ _ _ _ _ _ q Hs); [done|]. by rewrite E. }
  open Hs. rules Hrule Hop; try (apply Hold; exact Hq).
  cbn in Hq, Hop |- *. apply elem_of_app in Hq as [Hq|Hq%list_elem_of_singleton]; [by apply Hold|subst].
  split; [done|]. st_simpl Hlen. by rewrite decide_True.
Qed.

(** The invariant after a step, apart from the shape of the stacks. *)
Lemma step_inv : stepped -> targets_ok adj -> Z.of_nat n < 2 ^ 32 ->
  (forall t, t ∈ p' -> Forall (fun x => csN x = 0%nat) (tail t)) ->
  inv m0 (owed_after o owed) {| ctx := c'; threads := p' |}.
Proof.
  intros Hs Ht Hn Hheads. destruct (step_locks Hs) as (? & ? & ? & ?).
  split; cbn [ctx threads]; auto; intros;
    eauto using step_graph, step_ops, step_tokens, step_owed_len, step_le, step_unmet, step_owed, step_rem,
      step_cover, step_started, step_pending, step_ready, step_skipped, step_success, step_cause, step_starts,
      step_finishes, step_count, step_queue.
Qed.
End keep.
