(* ===== verification/Termination.v ===== *)
(** A measure that every step of a run decreases. *)
From S2P Require Import Prelude Types EdgeLists SuccessorPool Nodes Kahn Graph Pipeline Run Dispatch Scheduler SchedulerStep SchedulerInv SchedulerKeep.

Definition rank (s : JobStatus) : nat :=
  match s with kPending => 4 | kReady => 3 | kRunning => 2 | kAwaiting => 1 | _ => 0 end.
Definition ranks (m : Impl) : nat := sum_list_with (fun nd => rank (jobStatus_ nd)) (nodes_ m).

Lemma ranks_store i x m : (i < length (nodes_ m))%nat ->
  (ranks (store_status i x m) + rank (status_at m i) = ranks m + rank x)%nat.
Proof.
  unfold ranks, store_status, alter_node, status_at. cbn [nodes_ set_nodes].
  generalize (nodes_ m). intros l. revert i. induction l as [|nd l IH]; intros [|i] Hi; cbn in *; try lia.
  pose proof (f_equal (Nat.add (rank (jobStatus_ nd))) (IH i ltac:(lia))) as H.
  rewrite !Nat.add_assoc in H. exact H.
Qed.
Lemma ranks_store_unmet i z m : ranks (store_unmet i z m) = ranks m.
Proof.
  unfold ranks, store_unmet, alter_node. cbn [nodes_ set_nodes].
  generalize (nodes_ m). intros l. revert i. induction l as [|nd l IH]; intros [|i]; cbn; [done..| |].
  - by destruct nd.
  - f_equal. apply IH.
Qed.

(** What an operation can still do without a status change, at most. *)
Definition weight (n : nat) (adj : list (list nat)) (o : op) : nat :=
  let deg i := length (owed_at adj i) in
  let sweep := (5 * n + 1)%nat in
  match o with
  | ORoots l => 6 * length l + sweep + 7
  | ODispatchJob _ => 5 | OClaim _ => 1
  | OInvoke _ => 5 | OAwait _ => 4 | ODeliver _ => 2 | OFinish _ _ => 1
  | OCount i _ => 5 * deg i + 8 | OAfter i _ => 5 * deg i + 5 | OFatal _ _ l => 5 * length l + 2
  | ORelease _ l => 5 * length l + 1
  | OSub _ _ l => 5 * length l + 3
  | OReadyCas _ _ l => 5 * length l + 2
  | OSubmit _ _ l => 5 * length l + 1 + sweep + 12
  | OSubmissionFailed _ => sweep + 6 | OSubRecord _ _ => sweep + 5 | OSubCount _ => sweep + 4
  | OSkips l => 5 * length l + 1
  | OSkipEnter _ => 4
  | OSkipClaims l Gate => length l + 2
  | OSkipClaims l (CountOf _) => length l + 5
  | OSkipLoop => 1 | OSkipRelock => 2
  | OObserve _ => 1
  end%nat.

Definition queue_weight (adj : list (list nat)) (q : list nat) : nat :=
  sum_list_with (fun i => length (owed_at adj i) + 5)%nat q.

#[global] Arguments ranks : simpl never.
#[global] Arguments queue_weight : simpl never.

(** Pays for whatever a status change lets happen. *)
Definition price (n : nat) (adj : list (list nat)) : nat := (5 * n + 5 * total_edges adj + 30)%nat.

Definition measure (m0 : Impl) (s : RunState) : nat :=
  let adj := adjacency m0 in let n := length (nodes_ m0) in
  (price n adj * ranks (impl_ (ctx s)) + queue_weight adj (queue (ctx s)) + cnt (weight n adj) (threads s))%nat.

Lemma deg_total adj i : (length (owed_at adj i) <= total_edges adj)%nat.
Proof.
  unfold owed_at. revert i. induction adj as [|l adj IH]; intros [|i]; cbn; try lia. specialize (IH i). etransitivity; [exact IH|lia].
Qed.

Lemma ranks_set_completed z m : ranks (set_completedCount z m) = ranks m.
Proof. done. Qed.
Lemma ranks_set_failed z m : ranks (set_failedJobName z m) = ranks m.
Proof. done. Qed.

Section decrease.
Context (m0 : Impl) (owed : list (list nat)) (s : RunState) (o : op) (c' : DispatchContext)
  (new : list op) (p' : list (list op)).
Abbreviation adj := (adjacency m0).
Abbreviation n := (length (nodes_ m0)).
Abbreviation c := (ctx s).
Abbreviation p := (threads s).


Lemma queue_weight_app q r : queue_weight adj (q ++ r) = (queue_weight adj q + queue_weight adj r)%nat.
Proof. apply sum_list_with_app. Qed.

Lemma deps_weight ns : Forall is_dep ns -> (cntl (weight n adj) ns <= length ns)%nat.
Proof.
  induction 1 as [|x l Hx _ IH]; [done|].
  destruct x as [| | | | | | | | | | | | | | | | | | | | | |[]]; try done. exact (le_n_S _ _ IH).
Qed.

Lemma step_measure : stepped m0 owed s o c' new p' ->
  (measure m0 {| ctx := c'; threads := p' |} < measure m0 s)%nat.
Proof.
  intros Hs. pose proof (fun i => run_status _ _ _ _ _ _ _ i Hs) as Hrun.
  pose proof (fun i => succs_adj _ _ _ _ _ _ _ i Hs) as Hsucc.
  pose proof (stepped_op _ _ _ _ _ _ _ Hs) as Hop. destruct Hs as [Hinv Hrule Hpc].
  pose proof (i_graph _ _ _ Hinv) as Hgr. pose proof (sg_length _ _ Hgr) as Hlen.
  pose proof (pc_cnt _ _ _ _ Hpc (weight n adj)) as Hc. pose proof (i_read _ _ _ Hinv) as Hrd.
  unfold measure. cbn [ctx threads]. cbv zeta.
  assert (HK : (5 * n + 5 * total_edges adj + 30 <= price n adj)%nat) by (unfold price; lia).
  assert (Hall : length (all_jobs (impl_ c)) = n) by (unfold all_jobs; by rewrite length_seq, Hlen).
  set (K := price n adj) in *. clearbody K.
  assert (Hpay : forall R R', (R' + 1 <= R -> K * R' + K <= K * R)%nat) by (intros; nia).
  assert (Hdeg : forall i, (length (owed_at adj i) <= total_edges adj)%nat) by apply deg_total.
  destruct Hrule; try (destruct (op_ok_claim _ _ _ _ _ Hop) as [Hi0 Hl0]);
    rewrite ?queue_claim, ?queue_weight_app by done; cbn in Hc, Hop, Hrun |- *;
    try match goal with H : Forall is_dep ?ns |- _ =>
      rewrite cntl_app in Hc; pose proof (deps_weight _ H); cbn in Hc end;
    change (drop (skipRead c) (skipped_ c)) with (queue c) in *;
    rewrite ?Hsucc, ?length_app in Hc; rewrite ?ranks_store_unmet, ?ranks_set_completed, ?ranks_set_failed; rewrite ?Hall in Hc; try lia;
    try match goal with |- context [ranks (store_status ?i ?x ?m)] =>
      pose proof (ranks_store i x m ltac:(rewrite Hlen; first [assumption | tauto])) as Hts;
      specialize (Hpay (ranks m) (ranks (store_status i x m)));
      specialize (Hdeg i);
      try match goal with H : st _ _ = _ |- _ => rewrite H in Hts end
    end; try (cbn in Hts; lia).
  - destruct (Hrun i) as [E|E]; [rewrite at1_same; lia|rewrite E in Hts; cbn in Hts..]; [lia|].
    assert (Hsame : ranks (store_status i kAwaiting (impl_ c)) = ranks (impl_ c)) by lia. rewrite Hsame. lia.
  - pose proof (statusOf_terminal r) as Hr.
    assert (Hz : rank (statusOf r) = 0%nat) by (destruct (statusOf r); done). rewrite Hz in Hts.
    destruct (Hrun i) as [E|E]; [rewrite at1_same; lia|rewrite E in Hts; cbn in Hts; lia..].
  - unfold queue_weight at 2. cbn. destruct k, H as [H|H]; rewrite H in Hts; cbn in Hts, Hc; lia.
  - destruct k; cbn in Hc; lia.
  - pose proof (queue_nonempty _ _ H) as Hq. rewrite Hq. unfold queue_weight. cbn. lia.
Qed.
End decrease.
