(* ===== verification/RunCorrect.v ===== *)
(** What every interleaving of a run guarantees: safety of job starts, failure
    containment, complete and exact reports, progress and termination. *)
From S2P Require Import Prelude Types EdgeLists SuccessorPool Nodes Kahn Graph Pipeline Run Dispatch Scheduler SchedulerStep SchedulerInv SchedulerKeep Termination Construction.

(** ** The state a run starts from *)

Record start_ok (m : Impl) : Prop := {
  so_targets : targets_ok (adjacency m);
  so_edges : Z.of_nat (total_edges (adjacency m)) < 2 ^ 32;
  so_count : Z.of_nat (length (nodes_ m)) < 2 ^ 32;
  so_acyclic : acyclic (adjacency m);
  so_unmet : forall i, (i < length (nodes_ m))%nat -> unmet_at m i = Z.of_nat (occ i (adjacency m));
  so_status : forall i, (i < length (nodes_ m))%nat -> status_at m i =
    if bool_decide (occ i (adjacency m) = 0%nat) && negb (ondemand_at m i) then kReady else kPending;
  so_roots : forall i, i ∈ roots_ m <-> status_at m i = kReady;
  so_nodup : NoDup (roots_ m);
  so_completed : completedCount_ m = 0;
}.

Lemma roots_init l m : roots_ (foldl init_node m l) = roots_ m.
Proof.
  revert m. induction l as [|i l IH]; intros m; [done|]. cbn. rewrite IH. unfold init_node. cbn.
  unfold renewStopState. destruct (nodes_ m !! i); [|done]. by destruct (_ || _).
Qed.
Lemma completed_init l m : completedCount_ (foldl init_node m l) = completedCount_ m.
Proof.
  revert m. induction l as [|i l IH]; intros m; [done|]. cbn. rewrite IH. unfold init_node. cbn.
  unfold renewStopState. destruct (nodes_ m !! i); [|done]. by destruct (_ || _).
Qed.

(** Joining orphans, marking the run and resetting the counter keep the graph. *)
Lemma entered_ok m : impl_ok m ->
  impl_ok (set_completedCount 0 (set_running true (if hasOrphans m then (joinOrphans m).1 else m))).
Proof. intros Hm. eapply impl_ok_ext; cycle -1; [exact Hm|by destruct (hasOrphans m)..]. Qed.

Lemma init_start_ok m :
  impl_ok m -> validate m = success -> roots_ m = computeRoots m -> completedCount_ m = 0 ->
  start_ok (set_failedJobName "" (init_nodes m)).
Proof.
  intros ([Hc Ha Ht Hp] & _ & _) Hv Hr H0. pose proof (Build_graph_ok _ Hc Ha Ht Hp) as Hg.
  destruct (init_nodes_spec m) as [Hsg Hinit]. pose proof (graph_edges_bound _ Hg).
  pose proof (sg_adjacency _ _ Hsg) as Eadj. pose proof (sg_length _ _ Hsg) as Elen.
  assert (Hst : forall i, (i < length (nodes_ m))%nat -> status_at (init_nodes m) i =
    if bool_decide (occ i (adjacency m) = 0%nat) && negb (ondemand_at m i) then kReady else kPending).
  { intros i Hi. destruct (lookup_lt_is_Some_2 _ _ Hi) as [nd Hnd]. destruct (Hinit i nd Hnd) as [_ ->].
    unfold initial_status, ondemand_at. rewrite Hnd, (Hp i nd Hnd).
    replace (Z.of_nat (occ i (adjacency m)) =? 0) with (bool_decide (occ i (adjacency m) = 0%nat)); [done|].
    destruct (decide (occ i (adjacency m) = 0%nat)) as [E|E].
    - by rewrite bool_decide_true, E.
    - rewrite bool_decide_false by done. symmetry. apply Z.eqb_neq. lia. }
  split; cbn [nodes_ roots_ completedCount_ set_failedJobName]; change (adjacency (set_failedJobName "" (init_nodes m))) with (adjacency (init_nodes m));
    rewrite ?Eadj, ?Elen.
  - done.
  - lia.
  - unfold zlen in Hc. lia.
  - by apply validate_iff.
  - intros i Hi. destruct (lookup_lt_is_Some_2 _ _ Hi) as [nd Hnd]. destruct (Hinit i nd Hnd) as [E _].
    rewrite unmet_set_failed, E. by apply Hp.
  - intros i Hi. rewrite status_set_failed, (Hst i Hi).
    change (ondemand_at (set_failedJobName "" (init_nodes m)) i) with (ondemand_at (init_nodes m) i).
    by rewrite (sg_ondemand _ _ Hsg).
  - intros i. unfold init_nodes. rewrite roots_init, Hr. fold (init_nodes m). unfold computeRoots.
    rewrite list_elem_of_filter, elem_of_seq, status_set_failed.
    destruct (decide (i < length (nodes_ m))%nat) as [Hi|Hi].
    + rewrite (Hst i Hi). destruct (lookup_lt_is_Some_2 _ _ Hi) as [nd Hnd].
      unfold isRootAt, isRoot, ondemand_at. rewrite Hnd, (Hp i nd Hnd).
      destruct (decide (occ i (adjacency m) = 0%nat)) as [E|E].
      * rewrite bool_decide_true, E by done. cbn. destruct (isOnDemand nd); cbn; naive_solver lia.
      * rewrite bool_decide_false by done. replace (Z.of_nat (occ i (adjacency m)) =? 0) with false by lia.
        cbn. naive_solver lia.
    + unfold status_at. rewrite (proj2 (lookup_ge_None (nodes_ (init_nodes m)) i)) by lia.
      split; [lia|done].
  - unfold init_nodes. rewrite roots_init, Hr. apply NoDup_filter, NoDup_seq.
  - unfold init_nodes. by rewrite completed_init.
Qed.

(** Beginning a run on a well-formed pipeline. *)
Lemma begin_run_starts m m' : impl_ok m -> begin_run m = RunStarts m' -> start_ok m'.
Proof.
  intros Hm. unfold begin_run. case_bool_decide; [done|]. destruct (running_ m); [done|].
  pose proof (entered_ok m Hm) as Hm2. set (m2 := set_completedCount 0 _) in *.
  assert (H0 : completedCount_ m2 = 0) by done. clearbody m2.
  pose proof (proj1 (proj2 Hm2)) as Hr. unfold refreshRoots.
  destruct (rootsCached_ m2) eqn:Ec.
  - intros [= <-]. destruct (Hr Ec) as [Hv Hroots]. by apply init_start_ok.
  - destruct (validate m2) as [[]|e] eqn:Ev; [|done]. intros [= <-].
    apply (init_start_ok (set_rootsCached true (set_roots (computeRoots m2) m2))); [|done..].
    destruct Hm2 as (Hg & _ & Hs). split; [by destruct Hg|]. split; [done|by destruct Hs].
Qed.

(** ** The invariant holds initially *)

Lemma occ1_NoDup i l : NoDup l -> (occ1 i l <= 1)%nat.
Proof.
  induction 1 as [|x l Hx Hl IH]; cbn; [lia|]. case_decide; [subst|lia].
  assert (occ1 i l = 0)%nat; [|lia]. destruct (decide (occ1 i l = 0%nat)) as [|E]; [done|].
  destruct Hx. apply occ1_elem. lia.
Qed.

Lemma cnt_all_zero f p : (forall o, in_pool o p -> f o = 0%nat) -> cnt f p = 0%nat.
Proof. apply cnt_zero. Qed.

Lemma events_start f m : events f (make_context m) = 0%nat.
Proof. done. Qed.

Section start.
Context (m : Impl) (Hm : start_ok m) (p : list (list op)).
Abbreviation adj := (adjacency m).
(** The pool holds exactly the roots, as a loop or as tasks. *)
Context (Hpool : forall o, in_pool o p -> (exists l, o = ORoots l /\ in_range m l) \/ (exists i, o = ODispatchJob i /\ (i < length (nodes_ m))%nat))
  (Hclaims : forall i, cnt (claimN i) p = occ1 i (roots_ m))
  (Htails : forall t, t ∈ p -> tail t = []).

Lemma start_status i : status_at m i = kReady \/ status_at m i = kPending.
Proof.
  destruct (decide (i < length (nodes_ m))%nat) as [Hi|Hi].
  - rewrite (so_status _ Hm i Hi). destruct (_ && _); auto.
  - right. unfold status_at. by rewrite (proj2 (lookup_ge_None _ i)) by lia.
Qed.
Lemma start_not_terminal i : terminal (status_at m i) = false.
Proof. by destruct (start_status i) as [-> | ->]. Qed.
Lemma start_zero f : (forall l, f (ORoots l) = 0%nat) -> (forall i, f (ODispatchJob i) = 0%nat) -> cnt f p = 0%nat.
Proof.
  intros H1 H2. apply cnt_zero. intros o Ho. destruct (Hpool o Ho) as [(l & -> & _)|(i & -> & _)]; auto.
Qed.
Lemma start_terminals : terminals m = 0%nat.
Proof.
  unfold terminals. assert (H : forall i nd, nodes_ m !! i = Some nd -> terminal (jobStatus_ nd) = false).
  { intros i nd Hi. pose proof (start_not_terminal i) as H. unfold status_at in H. by rewrite Hi in H. }
  revert H. generalize (nodes_ m). induction l as [|nd l IH]; intros H; [done|]. cbn.
  rewrite (H 0%nat nd eq_refl). cbn. apply IH. intros i. apply (H (S i)).
Qed.

Lemma start_inv : inv m adj {| ctx := make_context m; threads := p |}.
Proof.
  split; cbn [ctx threads impl_ make_context].
  - done.
  - intros o Ho. destruct (Hpool o Ho) as [(l & -> & ?)|(i & -> & ?)]; done.
  - intros i. rewrite (start_zero (runN i)), Hclaims by done. pose proof (occ1_NoDup i _ (so_nodup _ Hm)).
    destruct (start_status i) as [E|E]; rewrite E; cbn; [lia|]. split; [|done].
    destruct (decide (occ1 i (roots_ m) = 0%nat)) as [|Hn]; [done|].
    assert (Hin : i ∈ roots_ m) by (apply occ1_elem; lia). apply (so_roots _ Hm) in Hin. congruence.
  - apply length_adjacency.
  - done.
  - apply (so_unmet _ Hm).
  - done.
  - intros q i. by rewrite start_zero by done; lia.
  - intros q i _ H. by rewrite start_not_terminal in H.
  - intros i Hi Hp _. rewrite (so_status _ Hm i Hi) in Hp. case_bool_decide; [done|]. by destruct Hp.
  - intros i Hi Hp Ho. left. rewrite (so_status _ Hm i Hi) in Hp. rewrite bool_decide_true in Hp by done.
    split; [|done]. by destruct (ondemand_at m i).
  - intros i _ Hr. apply (so_roots _ Hm), occ1_elem in Hr. rewrite <- Hclaims in Hr.
    apply cnt_pos in Hr as (o & ? & ?). eauto.
  - intros i H. by destruct (start_status i) as [E|E]; rewrite E in H.
  - intros i _ _ H. by rewrite start_not_terminal in H.
  - done.
  - intros i. rewrite events_start, (start_zero (startN i)) by done.
    by destruct (start_status i) as [-> | ->].
  - intros i. rewrite events_start, (start_zero (finN i)), start_not_terminal by done. done.
  - rewrite (start_zero pendN), start_terminals by done. cbn. rewrite (so_completed _ Hm). lia.
  - by apply start_zero.
  - by apply start_zero.
  - done.
  - done.
  - cbn. set_solver.
  - intros t Ht. rewrite (Htails t Ht). constructor.
Qed.
End start.

Lemma roots_range m : start_ok m -> in_range m (roots_ m).
Proof.
  intros Hm. apply Forall_forall. intros i Hi%(so_roots _ Hm).
  destruct (decide (i < length (nodes_ m))%nat) as [|Hn]; [done|].
  unfold status_at in Hi. by rewrite (proj2 (lookup_ge_None _ i)) in Hi by lia.
Qed.

Lemma start_threaded_inv m : start_ok m -> inv m (adjacency m) (start_threaded m).
Proof.
  intros Hm. apply start_inv; [done|..].
  - intros o (t & ->%list_elem_of_singleton & ->%list_elem_of_singleton). left.
    eexists. split; [done|]. by apply roots_range.
  - intros i. unfold cnt, cntl. cbn. lia.
  - by intros t ->%list_elem_of_singleton.
Qed.

Lemma start_inline_inv m : start_ok m -> inv m (adjacency m) (start_inline m).
Proof.
  intros Hm. apply start_inv; [done|..].
  - intros o (t & (i & -> & Hi)%list_elem_of_fmap & ->%list_elem_of_singleton). right.
    exists i. split; [done|]. pose proof (roots_range m Hm) as Hr. unfold in_range in Hr.
    rewrite Forall_forall in Hr. by apply Hr.
  - intros i. unfold cnt, cntl. induction (roots_ m) as [|j l IH]; [done|]. cbn in *. unfold at1 at 1.
    rewrite IH. case_decide; case_decide; subst; lia || done.
  - by intros t (i & -> & _)%list_elem_of_fmap.
Qed.

(** ** The invariant holds throughout *)

Lemma run_op_shape ch o c c' ops sp : run_op ch o c = Some (c', ops, sp) ->
  Forall (fun x => csN x = 0%nat) (tail ops) /\ (forall t, t ∈ sp -> tail t = []).
Proof.
  assert (Hdep : forall m i x l, csN x = 0%nat -> Forall (fun x => csN x = 0%nat) l ->
    Forall (fun x => csN x = 0%nat) (notifyDependencies m i ++ x :: l)).
  { intros m i x l Hx Hl. apply Forall_app. split; [|by constructor].
    unfold notifyDependencies. destruct (succs m i); repeat constructor. }
  assert (Hno : forall t : list op, t ∈ ([] : list (list op)) -> tail t = []) by (intros t Ht; set_solver).
  assert (Hone : forall i t, t ∈ [[ODispatchJob i]] -> tail t = []) by (by intros i t ->%list_elem_of_singleton).
  intros H. destruct o, ch; cbn in H; try discriminate H;
    repeat (case_match; try discriminate); simplify_eq;
    (split; [cbn; repeat constructor; try (apply Hdep; repeat constructor)|eauto]).
Qed.

Lemma thread_stepped m owed s k ch o rest c' ops sp : inv m owed s -> threads s !! k = Some (o :: rest) ->
  run_op ch o (ctx s) = Some (c', ops, sp) ->
  stepped m owed s o c' (ops ++ mjoin sp) (<[k := ops ++ rest]> (threads s) ++ sp).
Proof. intros Hi Hk Hr. split; [done|by eapply run_op_rule|by apply step_change]. Qed.

Lemma step_keeps_inv m owed s s' : start_ok m -> inv m owed s -> step s s' ->
  exists owed', inv m owed' s' /\ (measure m s' < measure m s)%nat.
Proof.
  intros Hm Hinv (k & ch & Hk). unfold step_thread in Hk.
  destruct (threads s !! k) as [[|o rest]|] eqn:Et; [done| |done].
  destruct (run_op ch o (ctx s)) as [[[c' ops] sp]|] eqn:Er; [|done]. injection Hk as <-.
  pose proof (thread_stepped _ _ _ _ _ _ _ _ _ _ Hinv Et Er) as Hs.
  exists (owed_after o owed). split.
  - eapply step_inv; [exact (so_edges _ Hm)|exact Hs|exact (so_targets _ Hm)|exact (so_count _ Hm)|].
    destruct (run_op_shape _ _ _ _ _ _ Er) as [Hops Hsp].
    pose proof (i_heads _ _ _ Hinv) as Hh.
    pose proof (Hh _ (list_elem_of_lookup_2 _ _ _ Et)) as Hrest. cbn in Hrest.
    intros t [Ht|Ht]%elem_of_app.
    + apply list_elem_of_lookup_1 in Ht as [j Hj]. destruct (decide (k = j)) as [<-|].
      * rewrite list_lookup_insert_eq in Hj by (by eapply lookup_lt_Some). injection Hj as <-.
        destruct ops as [|x ops]; cbn in *; [destruct rest; cbn; [done|by apply Forall_cons in Hrest as [_ ?]]|].
        by apply Forall_app.
      * rewrite list_lookup_insert_ne in Hj by done. by eapply Hh, list_elem_of_lookup_2.
    + rewrite (Hsp t Ht). constructor.
  - eapply step_measure; exact Hs.
Qed.

(** States that a run of pipeline [m] can reach, on a threaded or an inline
    executor, under any schedule and any behaviour of jobs and executor. *)
Definition started (m : Impl) (m' : Impl) (s : RunState) : Prop :=
  impl_ok m /\ begin_run m = RunStarts m' /\ (s = start_threaded m' \/ s = start_inline m').
Definition reachable (m : Impl) (s : RunState) : Prop :=
  exists m' s0, started m m' s0 /\ rtc step s0 s.

Lemma begin_run_graph m m' : begin_run m = RunStarts m' -> same_graph m m'.
Proof.
  unfold begin_run. case_bool_decide; [done|]. destruct (running_ m); [done|].
  set (m2 := set_completedCount 0 _). assert (H2 : same_graph m m2) by (unfold m2; by destruct (hasOrphans m)).
  intros H'. unfold refreshRoots in H'. transitivity m2; [done|]. destruct (rootsCached_ m2).
  - injection H' as <-. transitivity (init_nodes m2); [apply init_nodes_spec|done].
  - destruct (validate m2); [|done]. injection H' as <-.
    transitivity (set_rootsCached true (set_roots (computeRoots m2) m2)); [done|].
    etransitivity; [apply init_nodes_spec|done].
Qed.

Lemma reachable_inv m s : reachable m s -> exists m' owed,
  same_graph m m' /\ start_ok m' /\ inv m' owed s.
Proof.
  intros (m' & s0 & (Hm & Hb & Hs0) & Hr). exists m'.
  pose proof (begin_run_starts m m' Hm Hb) as Hok.
  assert (H0 : exists owed, inv m' owed s0).
  { destruct Hs0 as [-> | ->]; eauto using start_threaded_inv, start_inline_inv. }
  assert (H : exists owed, inv m' owed s).
  { clear Hs0. induction Hr as [|s0 s1 s2 Hstep _ IH]; [done|]. apply IH. destruct H0 as [owed Hi].
    destruct (step_keeps_inv m' owed s0 s1 Hok Hi Hstep) as (owed' & ? & _). eauto. }
  destruct H as [owed H]. exists owed. split; [by apply begin_run_graph|done].
Qed.

(** A job is released to its dependents: done, or optional and failed or timed out. *)
Definition released_in (m : Impl) (c : DispatchContext) (p : nat) : Prop :=
  st c p = kDone \/ (optional_at m p = true /\ (st c p = kFailed \/ st c p = kTimedOut)).

Lemma quiescent_empty s o : quiescent s -> ~ in_pool o (threads s).
Proof.
  unfold quiescent. rewrite Forall_forall. intros H (t & Ht & Ho). rewrite (H t Ht) in Ho. set_solver.
Qed.
Lemma quiescent_cnt s f : quiescent s -> cnt f (threads s) = 0%nat.
Proof. intros H. apply cnt_zero. intros o Ho. by destruct (quiescent_empty s o H). Qed.

Lemma is_start_trace i c : onJobStart i ∈ trace c -> (1 <= events (is_start i) c)%nat.
Proof.
  unfold events. intros H. apply list_elem_of_split in H as (l1 & l2 & ->).
  rewrite sum_list_with_app. cbn. unfold at1. rewrite decide_True by done. lia.
Qed.

Lemma edge_occ adj p i : edge adj p i <-> exists l, adj !! p = Some l /\ i ∈ l.
Proof. done. Qed.

Lemma released_same m m' c p : same_graph m m' -> released m' c p -> released_in m c p.
Proof. intros Hg H. unfold released, released_in in *. by rewrite <- (sg_optional _ _ Hg). Qed.

Lemma started_released m owed s p i : start_ok m -> inv m owed s ->
  st (ctx s) i <> kPending -> st (ctx s) i <> kSkipped -> edge (adjacency m) p i -> released m (ctx s) p.
Proof.
  intros Hok Hinv Hp Hk He. destruct (edge_bound _ _ _ (so_targets _ Hok) He) as [Hlt Hr].
  rewrite !length_adjacency in *. pose proof (i_started _ _ _ Hinv i Hr Hp Hk) as Hz.
  destruct (decide (released m (ctx s) p)) as [|Hn]; [done|exfalso]. destruct He as (l & Hl & Hil).
  pose proof (i_owed _ _ _ Hinv p Hn) as Ho. pose proof (owed_occ m owed s p i Hinv Hlt) as Hle.
  rewrite Ho in Hle. unfold owed_at in Hle. rewrite Hl in Hle. apply occ1_elem in Hil. cbn in Hle. lia.
Qed.

(** ** Theorems *)

(** C1. In every interleaving a job body is entered at most once per run, and
    only after each predecessor has finished with a status that releases its
    dependents (done, or optional and failed or timed out). *)
Theorem jobs_start_once_after_predecessors m s i :
  reachable m s ->
  (events (is_start i) (ctx s) <= 1)%nat /\
  (onJobStart i ∈ trace (ctx s) -> forall p, edge (adjacency m) p i -> released_in m (ctx s) p).
Proof.
  intros (m' & owed & Hg & Hok & Hinv)%reachable_inv.
  pose proof (i_starts _ _ _ Hinv i) as Hs. unfold starts_ok in Hs.
  split; [destruct (st (ctx s) i); lia|].
  intros Hin%is_start_trace p (l & Hl & Hil).
  assert (Hst : st (ctx s) i <> kPending /\ st (ctx s) i <> kSkipped) by (destruct (st (ctx s) i); split; (lia || done)).
  destruct Hst. apply (released_same m m'); [done|]. apply (started_released m' owed s p i); [done..|].
  exists l. by rewrite (sg_adjacency _ _ Hg).
Qed.

Lemma quiescent_waiting m' owed s i : inv m' owed s -> quiescent s -> (i < length (nodes_ m'))%nat ->
  terminal (st (ctx s) i) = false -> st (ctx s) i = kPending.
Proof.
  intros Hinv Hq Hi Ht. pose proof (i_tokens _ _ _ Hinv i) as Htok.
  rewrite !(quiescent_cnt s) in Htok by done. destruct (st (ctx s) i) eqn:E; try done; cbn in Htok; try lia.
  destruct (i_ready _ _ _ Hinv i Hi E) as (o & Ho & _). by destruct (quiescent_empty s o Hq).
Qed.

Lemma quiescent_queue m' owed s : inv m' owed s -> quiescent s -> queue (ctx s) = [].
Proof.
  intros Hinv Hq. destruct (queue (ctx s)) eqn:E; [done|exfalso].
  pose proof (i_drain _ _ _ Hinv) as Hd. rewrite (quiescent_cnt s) in Hd by done.
  destruct (drainingSkips (ctx s)) eqn:Ed; [done|].
  destruct (i_gate _ _ _ Hinv Ed) as [g Hl]; [congruence|]. by apply (quiescent_empty s) in Hl.
Qed.

(** A job that still waits at the end waits for a job of the same kind, or is a
    dependency-free on-demand job. *)
Lemma quiescent_blocked m' owed s i : inv m' owed s -> quiescent s -> (i < length (nodes_ m'))%nat ->
  st (ctx s) i = kPending ->
  (ondemand_at m' i = true /\ occ i (adjacency m') = 0%nat) \/
  exists q, (q < length (nodes_ m'))%nat /\ st (ctx s) q = kPending /\ edge (adjacency m') q i.
Proof.
  intros Hinv Hq Hi Hp. destruct (decide (occ i owed = 0%nat)) as [H0|H0].
  - destruct (i_pending _ _ _ Hinv i Hi Hp H0) as [?|(q & l & H)]; [by left|].
    by apply (quiescent_empty s) in H.
  - right. assert (Hpos : (0 < occ i owed)%nat) by lia. apply occ_pos in Hpos as (q & ll & Hl & Hil).
    assert (Hqn : (q < length (nodes_ m'))%nat).
    { rewrite <- (i_owed_len _ _ _ Hinv). by eapply lookup_lt_Some. }
    assert (How : owed_at owed q = ll) by (unfold owed_at; by rewrite Hl).
    assert (Hnt : terminal (st (ctx s) q) = false).
    { destruct (terminal (st (ctx s) q)) eqn:E; [|done]. exfalso.
      destruct (i_cover _ _ _ Hinv q i Hi E Hp) as [Hle|[Hin|(o & Ho & _)]].
      - rewrite (quiescent_cnt s), How in Hle by done. apply occ1_elem in Hil. lia.
      - rewrite (quiescent_queue _ _ _ Hinv Hq) in Hin. set_solver.
      - by apply (quiescent_empty s) in Ho. }
    exists q. split; [done|]. split; [by eapply quiescent_waiting|].
    assert (Hnr : ~ released m' (ctx s) q) by (intros ?%released_terminal; congruence).
    pose proof (i_owed _ _ _ Hinv q Hnr) as Ha. rewrite How in Ha. unfold owed_at in Ha.
    destruct (adjacency m' !! q) as [l'|] eqn:E; cbn in Ha; rewrite Ha in Hil; [|by apply elem_of_nil in Hil].
    by exists l'.

Qed.

(** A job that is not finished at the end is pending, because of an on-demand job
    without predecessors at or upstream of it. *)
Lemma quiescent_pending m s i :
  reachable m s -> quiescent s -> (i < length (nodes_ m))%nat -> terminal (st (ctx s) i) = false ->
  st (ctx s) i = kPending /\ exists j, ondemand_at m j = true /\ st (ctx s) j = kPending /\ rtc (edge (adjacency m)) j i.
Proof.
  intros (m' & owed & Hg & Hok & Hinv)%reachable_inv Hq. rewrite <- (sg_length _ _ Hg).
  rewrite <- (sg_adjacency _ _ Hg). intros Hi Ht.
  pose proof (quiescent_waiting _ _ _ i Hinv Hq Hi Ht) as Hp. split; [done|]. revert Hp.
  apply (acyclic_ind (adjacency m') (fun i => st (ctx s) i = kPending -> exists j, ondemand_at m j = true /\
    st (ctx s) j = kPending /\ rtc (edge (adjacency m')) j i)); [apply Hok..| |by rewrite length_adjacency].
  clear i Hi Ht. intros k Hk IH Hp. rewrite length_adjacency in Hk.
  destruct (quiescent_blocked _ _ _ k Hinv Hq Hk Hp) as [[Hd H0]|(q & Hqn & Hpq & He)].
  - exists k. rewrite <- (sg_ondemand _ _ Hg). auto using rtc_refl.
  - destruct (IH q He Hpq) as (j & ? & ? & Hr). exists j. repeat (split; [done|]). by eapply rtc_r.
Qed.

(** ** Jobs a run leaves alone *)

Section untouched.
Context (j : nat).

(** The jobs that [o] may go on to dispatch, run or report as started. *)
Definition dispatches (o : op) : list nat :=
  match o with
  | ORoots l => l
  | ODispatchJob i | OClaim i | OInvoke i | OAwait i | ODeliver i | OFinish i _ | OSubmissionFailed i => [i]
  | ORelease _ l => l
  | OSub _ s l | OReadyCas _ s l | OSubmit _ s l => s :: l
  | OObserve (onJobStart i) => [i]
  | _ => []
  end.
Record untouched (s : RunState) : Prop := {
  un_ops : forall o, in_pool o (threads s) -> j ∉ dispatches o;
  un_status : st (ctx s) j = kPending \/ st (ctx s) j = kSkipped;
  un_trace : onJobStart j ∉ trace (ctx s);
}.

Lemma status_store_other i x m : i <> j -> status_at (store_status i x m) j = status_at m j.
Proof. intros H. unfold status_at, store_status. rewrite lookup_alter_node. by rewrite decide_False. Qed.
Lemma status_claimed i m : status_at m j = kPending \/ status_at m j = kSkipped ->
  status_at (store_status i kSkipped m) j = kPending \/ status_at (store_status i kSkipped m) j = kSkipped.
Proof.
  intros H. destruct (decide (i = j)) as [->|Hne]; [|by rewrite status_store_other].
  destruct (decide (j < length (nodes_ m))%nat) as [Hj|Hj].
  - right. rewrite status_store_status by done. by rewrite decide_True.
  - left. unfold status_at. rewrite (proj2 (lookup_ge_None _ j)); [done|]. unfold store_status, alter_node. cbn. rewrite length_alter. lia.
Qed.
Lemma deps_dispatch_nothing ns o : Forall is_dep ns -> o ∈ ns -> dispatches o = [].
Proof. rewrite Forall_forall. intros H Ho. specialize (H o Ho). destruct o; try done. by destruct e. Qed.

Lemma rule_untouched c o c' new : rule c o c' new -> (forall p, j ∉ succs (impl_ c) p) -> j ∉ dispatches o ->
  (st c j = kPending \/ st c j = kSkipped) -> onJobStart j ∉ trace c ->
  (forall x, x ∈ new -> j ∉ dispatches x) /\ (st c' j = kPending \/ st c' j = kSkipped) /\ onJobStart j ∉ trace c'.
Proof.
  intros Hr Hs Ho Hst Ht.
  assert (Hnew : forall l, Forall (fun x => j ∉ dispatches x) l -> forall x, x ∈ l -> j ∉ dispatches x) by (intros l; by rewrite Forall_forall).
  assert (Hdeps : forall ns, Forall is_dep ns -> Forall (fun x => j ∉ dispatches x) ns).
  { intros ns Hns. apply Forall_forall. intros x Hx. rewrite (deps_dispatch_nothing ns x Hns Hx). apply not_elem_of_nil. }
  destruct Hr; cbn [dispatches] in Ho; (split; [apply Hnew; rewrite ?Forall_app, ?Forall_cons; cbn [dispatches]; split_and?; try set_solver; auto|]).
  all: try (split; [cbn [impl_ ctx count_one fst with_impl with_skips observe first_failure]; try done|try done]).
  all: try (rewrite status_store_other by set_solver; done).
  all: try (by rewrite status_store_unmet).
  all: try (by apply status_claimed).
  all: cbn [trace observe]; try done.
  all: try (apply Forall_app; split; [by apply Hdeps|apply Forall_singleton; cbn; apply not_elem_of_nil]).
  rewrite not_elem_of_app. split; [done|]. destruct e; cbn in Ho; set_solver.
Qed.
End untouched.

Lemma occ_succs m j p : occ j (adjacency m) = 0%nat -> j ∉ succs m p.
Proof.
  intros H Hin. unfold succs in Hin. destruct (adjacency m !! p) as [l|] eqn:E; [|by apply elem_of_nil in Hin]. cbn in Hin.
  assert (0 < occ j (adjacency m))%nat; [|lia]. apply occ_pos. by exists p, l.
Qed.

(** A job that has no predecessor and is not a root is not dispatched. *)
Lemma reachable_untouched m s j : reachable m s -> ondemand_at m j = true -> occ j (adjacency m) = 0%nat ->
  untouched j s.
Proof.
  intros (m' & s0 & (Hm & Hb & Hs0) & Hr) Hd H0. pose proof (begin_run_starts m m' Hm Hb) as Hok.
  pose proof (begin_run_graph m m' Hb) as Hg. rewrite <- (sg_adjacency _ _ Hg) in H0. rewrite <- (sg_ondemand _ _ Hg) in Hd.
  assert (Hst : status_at m' j = kPending).
  { destruct (decide (j < length (nodes_ m'))%nat) as [Hj|Hj]; [rewrite (so_status _ Hok j Hj), Hd, andb_false_r; done|].
    unfold status_at. by rewrite (proj2 (lookup_ge_None _ j)) by lia. }
  assert (Hroot : j ∉ roots_ m') by (rewrite (so_roots _ Hok), Hst; done).
  assert (Hstart : untouched j s0 /\ same_graph m' (impl_ (ctx s0))).
  { split; [|by destruct Hs0 as [-> | ->]]. split; [|destruct Hs0 as [-> | ->]; by left|destruct Hs0 as [-> | ->]; apply not_elem_of_nil].
    intros o (t & Ht & Ho). destruct Hs0 as [-> | ->]; cbn in Ht.
    - apply list_elem_of_singleton in Ht as ->. by apply list_elem_of_singleton in Ho as ->.
    - apply list_elem_of_fmap in Ht as (i & -> & Hi). apply list_elem_of_singleton in Ho as ->. cbn. set_solver. }
  clear Hs0. induction Hr as [|s0 s1 s2 (k & ch & Hk) _ IH]; [by destruct Hstart|]. apply IH. clear IH.
  destruct Hstart as [[Ho Hs Ht] Hsg]. unfold step_thread in Hk.
  destruct (threads s0 !! k) as [[|o rest]|] eqn:Et; [done| |done].
  destruct (run_op ch o (ctx s0)) as [[[c' ops] sp]|] eqn:Er; [|done]. injection Hk as <-.
  pose proof (step_change k o rest ops sp _ Et) as Hc.
  destruct (rule_untouched j _ _ _ _ (run_op_rule _ _ _ _ _ _ Er)) as (H1 & H2 & H3); [|by apply Ho, (pc_here _ _ _ _ Hc)|done|done|].
  - intros p. apply occ_succs. by rewrite (sg_adjacency _ _ Hsg).
  - split; [|cbn; etransitivity; [exact Hsg|by eapply run_op_graph]]. split; cbn; [|done|done].
    intros x [Hx|Hx]%(pc_old _ _ _ _ Hc); [by apply H1|by apply Ho].
Qed.

(** C2. In a pipeline whose on-demand jobs have no predecessors: when a run has
    gone quiet it has started no on-demand job, and every other job has a final
    status, or is pending because of an on-demand job upstream of it, which the run
    does not start; in particular a pipeline without on-demand jobs always finishes
    all its jobs, also after failures and rejected submissions. (An on-demand job is
    left pending, or skipped with everything else after a rejected submission.) *)
Theorem quiescent_run_complete m s i :
  (forall j, ondemand_at m j = true -> occ j (adjacency m) = 0%nat) ->
  reachable m s -> quiescent s -> (i < length (nodes_ m))%nat ->
  if ondemand_at m i then (~ onJobStart i ∈ trace (ctx s) /\ (st (ctx s) i = kPending \/ st (ctx s) i = kSkipped))
  else
    (terminal (st (ctx s) i) = true \/
    (st (ctx s) i = kPending /\ exists j, ondemand_at m j = true /\ st (ctx s) j = kPending /\ tc (edge (adjacency m)) j i)).
Proof.
  intros Hfree Hreach Hq Hi. destruct (ondemand_at m i) eqn:Hd.
  { destruct (reachable_untouched m s i Hreach Hd (Hfree i Hd)). done. }
  destruct (terminal (st (ctx s) i)) eqn:Ht; [by left|right].
  destruct (quiescent_pending m s i Hreach Hq Hi Ht) as (Hp & j & Hj & Hpj & Hr). split; [done|]. exists j. split; [done|]. split; [done|].
  apply rtc_tc in Hr as [->|Hr]; [congruence|done].
Qed.

(** The record of the first failure. *)
Lemma step_keeps_failure s s' : step s s' -> hasFatalFailure (ctx s) = true ->
  hasFatalFailure (ctx s') = true /\ fatalError (ctx s') = fatalError (ctx s) /\
  failedJobName_ (impl_ (ctx s')) = failedJobName_ (impl_ (ctx s)).
Proof.
  intros (k & ch & Hk) Hf. unfold step_thread in Hk. destruct (threads s !! k) as [[|o rest]|]; [done| |done].
  destruct (run_op ch o (ctx s)) as [[[c' ops] sp]|] eqn:Er; [|done]. injection Hk as <-. cbn.
  apply run_op_rule in Er. destruct Er; cbn; try done; congruence.
Qed.
Lemma steps_keep_failure s s' : rtc step s s' -> hasFatalFailure (ctx s) = true ->
  run_result (ctx s') = Unexpected (fatalError (ctx s)) /\ failedJobName_ (impl_ (ctx s')) = failedJobName_ (impl_ (ctx s)).
Proof.
  intros H Hf. unfold run_result. enough (E : hasFatalFailure (ctx s') = true /\ fatalError (ctx s') = fatalError (ctx s) /\
    failedJobName_ (impl_ (ctx s')) = failedJobName_ (impl_ (ctx s))) by (destruct E as (-> & -> & ->); done).
  induction H as [s|s s1 s' Hs _ IH]; [done|]. destruct (step_keeps_failure s s1 Hs Hf) as (Hf1 & E1 & E2).
  destruct (IH Hf1) as (? & ? & ?). split; [done|]. split; congruence.
Qed.

(** C3. What [run()] returns. Success means no job failed fatally: each is done,
    or optional and failed or timed out, or was not started. An error is the one
    recorded first: whatever had been recorded at any moment of the run is what
    [run()] returns and [firstFailureName] names, and both belong to one job, which
    has the matching status and is required, or was cancelled, or whose error is
    [kJobFailed]. *)
Theorem run_result_correct m s :
  reachable m s -> quiescent s ->
  (forall s0, reachable m s0 -> rtc step s0 s -> hasFatalFailure (ctx s0) = true ->
     run_result (ctx s) = Unexpected (fatalError (ctx s0)) /\
     failedJobName_ (impl_ (ctx s)) = failedJobName_ (impl_ (ctx s0))) /\
  match run_result (ctx s) with
  | Expected _ => forall i, (i < length (nodes_ m))%nat ->
      released_in m (ctx s) i \/ st (ctx s) i = kPending
  | Unexpected e => exists p, (p < length (nodes_ m))%nat /\
      failedJobName_ (impl_ (ctx s)) = name_at m p /\ st (ctx s) p = statusOf (Unexpected e) /\
      (optional_at m p = false \/ e = kCancelledError \/ e = kJobFailed)
  end.
Proof.
  intros (m' & owed & Hg & Hok & Hinv)%reachable_inv Hq. split; [intros s0 _; apply steps_keep_failure|]. unfold run_result.
  destruct (hasFatalFailure (ctx s)) eqn:Hf.
  - destruct (i_cause _ _ _ Hinv Hf) as (p & Hp & Hn & Hs & Hw). exists p.
    rewrite (sg_length _ _ Hg), (sg_name _ _ Hg), (sg_optional _ _ Hg) in *. done.
  - cbn. intros i Hi. rewrite <- (sg_length _ _ Hg) in Hi.
    destruct (terminal (st (ctx s) i)) eqn:Ht.
    + destruct (i_success _ _ _ Hinv i Hi Hf Ht) as [Hr|(o & Ho & _)]; [left; by eapply released_same|].
      by apply (quiescent_empty s) in Ho.
    + right. by eapply quiescent_waiting.
Qed.

(** C14. Reports are exact: when a run has gone quiet the observer has seen one
    onJobFinish for every job with a final status and none for another, one
    onJobStart for every job that is done, timed out or cancelled and none for a
    skipped or pending one, and the progress counter equals the number of
    finished jobs. *)
Theorem run_reports_exact m s i :
  reachable m s -> quiescent s ->
  events (is_finish i) (ctx s) = b2n (terminal (st (ctx s) i)) /\
  starts_ok (st (ctx s) i) (events (is_start i) (ctx s)) /\
  completedCount_ (impl_ (ctx s)) = Z.of_nat (terminals (impl_ (ctx s))).
Proof.
  intros (m' & owed & Hg & Hok & Hinv)%reachable_inv Hq.
  pose proof (i_finishes _ _ _ Hinv i) as Hf. pose proof (i_starts _ _ _ Hinv i) as Hs.
  destruct (i_count _ _ _ Hinv) as [Hc _]. rewrite (quiescent_cnt s), (quiescent_queue _ _ _ Hinv Hq) in * by done.
  rewrite Nat.add_0_r in Hs. cbn in *. split; [lia|]. split; [done|]. lia.
Qed.

(** A choice that leaves nothing to a Completion. *)
Definition prompt (ch : choice) : Prop := ch <> CAwait /\ ch <> CPending.

(** An operation can be executed unless it waits for a lock that is held; a
    submission is then refused. *)
Lemma enabled o c : skipMutex c = false \/ csN o = 1%nat -> exists ch c' ops, prompt ch /\ run_op ch o c = Some (c', ops, []).
Proof.
  intros Hm.
  assert (H : exists ch, prompt ch /\ exists r, run_op ch o c = Some r /\ snd r = []).
  { destruct o as [[|? ?]| | | | | | | | | |? []| | | | | | |[]| |[|? ?] []| | | ];
      (exists CNone; split; [done|]; cbn; repeat case_match; eauto; fail) ||
      (exists (CSubmit false); split; [done|]; cbn; repeat case_match; eauto; fail) ||
      (exists (CResult success); split; [done|]; cbn; eauto; fail) || idtac.
    - exists CNone. cbn. destruct Hm as [->|Hm]; [split; [done|eauto]|done].
    - exists CNone. cbn. destruct Hm as [->|Hm]; [split; [done|eauto]|done]. }
  destruct H as (ch & Hp & [[c' ops] sp] & H & Hsp). cbn in Hsp. subst sp. eauto 6.
Qed.

(** A thread with work left can move, or the holder of the skip lock can. *)
Lemma some_mover m' owed s k o rest : inv m' owed s -> threads s !! k = Some (o :: rest) ->
  exists k' o' rest', threads s !! k' = Some (o' :: rest') /\ (k' = k \/ csN o' = 1%nat) /\
    (skipMutex (ctx s) = false \/ csN o' = 1%nat).
Proof.
  intros Hinv Hk. destruct (skipMutex (ctx s)) eqn:Em; [|by exists k, o, rest; auto].
  pose proof (i_mutex _ _ _ Hinv) as Hm. rewrite Em in Hm. cbn in Hm.
  destruct (cnt_pos csN (threads s)) as (x & (t & Ht & Hx) & Hcs); [lia|].
  pose proof (i_heads _ _ _ Hinv t Ht) as Hh. apply list_elem_of_lookup_1 in Ht as [k' Hk'].
  destruct t as [|y rest']; [set_solver|]. assert (Hy : csN y = 1%nat).
  { apply elem_of_cons in Hx as [->|Hx]; [by destruct y; cbn in *; lia|].
    cbn in Hh. rewrite Forall_forall in Hh. specialize (Hh x Hx). lia. }
  exists k', y, rest'. auto.
Qed.

(** C8. No deadlock: as long as some thread has work left, some thread can take
    a step, whatever lock is held. *)
Theorem run_progress m s : reachable m s -> ~ quiescent s -> exists s', step s s'.
Proof.
  intros (m' & owed & Hg & Hok & Hinv)%reachable_inv Hq.
  apply not_Forall_Exists in Hq; [|intros t; destruct t; [left|right]; done].
  apply Exists_exists in Hq as (t & Ht & Hn). apply list_elem_of_lookup_1 in Ht as [k Hk].
  destruct t as [|o rest]; [by destruct Hn|].
  destruct (some_mover _ _ _ _ _ _ Hinv Hk) as (k' & o' & rest' & Hk' & _ & Hm).
  destruct (enabled o' (ctx s) Hm) as (ch & c' & ops & _ & Hr). eexists. exists k', ch. unfold step_thread. by rewrite Hk', Hr.
Qed.

(** C7. Every run terminates: no schedule goes on for ever, so repeating any
    possible steps reaches a quiet state (job bodies are one step each here). *)
Theorem run_terminates m s : reachable m s -> sn step s.
Proof.
  intros (m' & owed & Hg & Hok & Hinv)%reachable_inv.
  apply (sn_by_measure step (fun s => exists owed, inv m' owed s) (measure m')); [|by eauto].
  intros s1 s2 [owed1 H1] Hstep. destruct (step_keeps_inv m' owed1 s1 s2 Hok H1 Hstep) as (owed2 & ? & ?). eauto.
Qed.

(** C15. The job state machine: in one step of a run a job's status stays or
    moves along pending, ready, running, (awaiting,) final, with skipping only
    from pending and ready; a final status never changes again. *)
Theorem job_state_machine m s s' i :
  reachable m s -> step s s' ->
  (st (ctx s') i = st (ctx s) i \/ moves (st (ctx s) i) (st (ctx s') i)) /\
  (terminal (st (ctx s) i) = true -> st (ctx s') i = st (ctx s) i).
Proof.
  intros (m' & owed & Hg & Hok & Hinv)%reachable_inv (k & ch & Hk). unfold step_thread in Hk.
  destruct (threads s !! k) as [[|o rest]|] eqn:Et; [done| |done].
  destruct (run_op ch o (ctx s)) as [[[c' ops] sp]|] eqn:Er; [|done]. injection Hk as <-.
  pose proof (thread_stepped _ _ _ _ _ _ _ _ _ _ Hinv Et Er) as Hs.
  cbn [ctx]. split; [by eapply step_status|by eapply step_terminal].
Qed.
