(* ===== verification/Inline.v ===== *)
(** Runs on the calling thread (Pipeline::runInline, InlineExecutor, the inline
    branch of runImpl and finishAwaitedInline): the schedule that takes ready
    jobs in the order they became ready and drains delivered deferred jobs when
    none is ready, and what it leaves behind for the next run. *)
From S2P Require Import Prelude Types EdgeLists SuccessorPool Nodes Kahn Graph Pipeline Run Dispatch Scheduler SchedulerStep SchedulerInv SchedulerKeep Termination RunCorrect Construction.

(** What a job does when it is invoked: it returns a result, or, for a deferred
    job, its body returns before or after its outcome is known. *)
Inductive Plan : Set :=
  | Returns (r : Outcome)
  | Awaits (r : Outcome)      (* the outcome arrives after the body returned *)
  | Signals (r : Outcome).    (* the outcome arrived while the body ran *)

Definition plan_result (p : Plan) : Outcome := match p with Returns r | Awaits r | Signals r => r end.

(** The choice the environment makes at an operation: the inline ready list
    accepts every submission. *)
Definition inline_choice (plan : nat -> Plan) (o : op) : choice :=
  match o with
  | ORoots (_ :: _) | OSubmit _ _ _ => CSubmit true
  | OInvoke i => match plan i with Returns r => CResult r | Awaits _ => CAwait | Signals _ => CPending end
  | ODeliver i => CResult (plan_result (plan i))
  | _ => CNone
  end.

Definition delivers (t : list op) : bool := match t with ODeliver _ :: _ => true | _ => false end.
Definition busy (t : list op) : bool := match t with [] => false | _ => negb (delivers t) end.

(** The first entry of the ready list that is not finished; when only awaited
    jobs are left, the first of those. *)
Fixpoint find_index (f : list op -> bool) (ts : list (list op)) : option nat :=
  match ts with
  | [] => None
  | t :: ts => if f t then Some 0%nat else S <$> find_index f ts
  end.
Definition next_thread (ts : list (list op)) : option nat :=
  match find_index busy ts with Some k => Some k | None => find_index delivers ts end.

(** The run loop; [None] when the fuel runs out. *)
Fixpoint inline_loop (fuel : nat) (plan : nat -> Plan) (s : RunState) : option RunState :=
  match next_thread (threads s), fuel with
  | None, _ => Some s
  | Some _, O => None
  | Some k, S fuel =>
      match threads s !! k with
      | Some (o :: _) =>
          match step_thread k (inline_choice plan o) s with
          | Some s' => inline_loop fuel plan s'
          | None => None
          end
      | _ => None
      end
  end.

(** [runInline]: the pipeline's state afterwards and the result. *)
Definition runInline (fuel : nat) (plan : nat -> Plan) (m : Impl) : option (DispatchContext * Outcome) :=
  match begin_run m with
  | RunReturns m r => Some (make_context m, r)
  | RunStarts m =>
      match inline_loop fuel plan (start_inline m) with
      | Some s => Some (with_impl (set_running false (impl_ (ctx s))) (ctx s), run_result (ctx s))
      | None => None
      end
  end.

(** ** The schedule is a schedule, and it finishes *)

Lemma find_index_Some f ts k : find_index f ts = Some k -> exists t, ts !! k = Some t /\ f t = true.
Proof.
  revert k. induction ts as [|t ts IH]; intros k; cbn; [done|].
  destruct (f t) eqn:E; [intros [= <-]; by exists t|].
  destruct (find_index f ts); cbn; [|done]. intros [= <-]. by apply IH.
Qed.
Lemma find_index_None f ts : find_index f ts = None -> forall t, t ∈ ts -> f t = false.
Proof.
  induction ts as [|t ts IH]; cbn; [set_solver|]. destruct (f t) eqn:E; [done|].
  destruct (find_index f ts); cbn; [done|]. intros _ u [->|Hu]%elem_of_cons; [done|]. by apply IH.
Qed.

Lemma next_thread_None s : next_thread (threads s) = None -> quiescent s.
Proof.
  unfold next_thread, quiescent. destruct (find_index busy _) eqn:Eb; [done|]. intros Ed.
  apply Forall_forall. intros t Ht. pose proof (find_index_None _ _ Eb t Ht) as Hb.
  pose proof (find_index_None _ _ Ed t Ht) as Hd. destruct t; [done|]. unfold busy in Hb. by rewrite Hd in Hb.
Qed.

Lemma next_thread_Some ts k : next_thread ts = Some k -> exists o rest, ts !! k = Some (o :: rest).
Proof.
  unfold next_thread. destruct (find_index busy ts) as [j|] eqn:E.
  - intros [= <-]. apply find_index_Some in E as ([|o rest] & ? & ?); [done|]. eauto.
  - intros H. apply find_index_Some in H as ([|o rest] & ? & ?); [done|]. eauto.
Qed.

(** Only the entry being run can hold the skip lock: no entry before it is busy. *)
Definition lock_first (s : RunState) : Prop :=
  forall k o rest, threads s !! k = Some (o :: rest) -> csN o = 1%nat ->
  forall j t, (j < k)%nat -> threads s !! j = Some t -> busy t = false.

Lemma find_index_before f ts k j t :
  find_index f ts = Some k -> (j < k)%nat -> ts !! j = Some t -> f t = false.
Proof.
  revert k j. induction ts as [|u ts IH]; intros k j; cbn; [done|]. destruct (f u) eqn:E; [intros [= <-]; lia|].
  destruct (find_index f ts) as [k'|]; cbn; [|done]. intros [= <-] Hj Ht.
  destruct j as [|j]; cbn in Ht; [by injection Ht as <-|]. apply (IH k' j); [done|lia|done].
Qed.

Lemma next_thread_before ts k j t :
  next_thread ts = Some k -> (j < k)%nat -> ts !! j = Some t -> busy t = false.
Proof.
  unfold next_thread. destruct (find_index busy ts) as [b|] eqn:E.
  - intros [= <-]. by apply find_index_before.
  - intros _ _ Ht. by eapply find_index_None, list_elem_of_lookup_2.
Qed.

Lemma busy_cs o rest : csN o = 1%nat -> busy (o :: rest) = true.
Proof. by destruct o. Qed.

Lemma next_thread_cs s k o rest :
  lock_first s -> threads s !! k = Some (o :: rest) -> csN o = 1%nat -> next_thread (threads s) = Some k.
Proof.
  intros Hl Hk Ho. pose proof (Hl k o rest Hk Ho) as Hb. clear Hl. unfold next_thread.
  enough (find_index busy (threads s) = Some k) as -> by done.
  revert k Hk Hb. induction (threads s) as [|t ts IH]; intros [|k] Hk Hb; cbn in *; try done.
  - injection Hk as ->. by rewrite busy_cs.
  - rewrite (Hb 0%nat t) by (lia || done). rewrite (IH k); [done|done|].
    intros j u Hj Hu. apply (Hb (S j)); [lia|done].
Qed.

Lemma run_op_spawned ch o c c' ops sp : run_op ch o c = Some (c', ops, sp) ->
  forall x rest, (x :: rest) ∈ sp -> csN x = 0%nat.
Proof.
  intros H. assert (Hsp : sp = [] \/ exists i, sp = [[ODispatchJob i]]).
  { destruct o, ch; cbn in H; try discriminate H; repeat (case_match; try discriminate); simplify_eq; eauto. }
  intros x rest Hin. destruct Hsp as [->|[i ->]]; [set_solver|].
  apply list_elem_of_singleton in Hin. by injection Hin as -> ->.
Qed.

Lemma lock_first_step s s' k ch :
  lock_first s -> next_thread (threads s) = Some k -> step_thread k ch s = Some s' -> lock_first s'.
Proof.
  intros Hl Hn Hk. unfold step_thread in Hk.
  destruct (threads s !! k) as [[|o rest]|] eqn:Et; [done| |done].
  destruct (run_op ch o (ctx s)) as [[[c' ops] sp]|] eqn:Er; [|done]. injection Hk as <-.
  intros j x r Hj Hx i t Hi Ht. cbn [threads] in *.
  assert (Hlt : (k < length (threads s))%nat) by (by eapply lookup_lt_Some).
  apply lookup_app_Some in Hj as [Hj|[_ Hj]].
  2:{ apply list_elem_of_lookup_2 in Hj. apply (run_op_spawned _ _ _ _ _ _ Er) in Hj. lia. }
  destruct (decide (k = j)) as [<-|Hne].
  - apply lookup_app_Some in Ht as [Ht|[Hge _]]; [|rewrite length_insert in Hge; lia].
    rewrite list_lookup_insert_ne in Ht by lia. by eapply next_thread_before.
  - rewrite list_lookup_insert_ne in Hj by done.
    rewrite (next_thread_cs s j x r Hl Hj Hx) in Hn. congruence.
Qed.

Lemma enabled_inline plan o c :
  skipMutex c = false \/ csN o = 1%nat -> exists r, run_op (inline_choice plan o) o c = Some r.
Proof.
  intros Hm. destruct o; cbn;
    repeat (case_match; simplify_eq); eauto; destruct Hm as [Hm|Hm]; congruence || discriminate Hm.
Qed.

(** Every step of the loop is possible, and there are at most [measure] of them. *)
Lemma inline_loop_total m' owed plan s fuel :
  start_ok m' -> inv m' owed s -> lock_first s -> (measure m' s <= fuel)%nat ->
  exists s', inline_loop fuel plan s = Some s' /\ rtc step s s' /\ quiescent s'.
Proof.
  intros Hok. revert s owed. induction fuel as [|fuel IH]; intros s owed Hinv Hl Hf; cbn;
    (destruct (next_thread (threads s)) as [k|] eqn:En; [|exists s; split; [done|]; split; [done|by apply next_thread_None]]);
    destruct (next_thread_Some _ _ En) as (o & rest & Hk).
  all: assert (Hen : exists s', step_thread k (inline_choice plan o) s = Some s').
  1,3: assert (Hlock : skipMutex (ctx s) = false \/ csN o = 1%nat).
  1,3: destruct (skipMutex (ctx s)) eqn:Em; [right|by left];
    pose proof (i_mutex _ _ _ Hinv) as Hmx; rewrite Em in Hmx; cbn in Hmx;
    destruct (cnt_pos csN (threads s)) as (x & (t & Ht & Hx) & Hcs); [lia|];
    pose proof (i_heads _ _ _ Hinv t Ht) as Hh; apply list_elem_of_lookup_1 in Ht as [j Hj];
    (destruct t as [|y r]; [by apply elem_of_nil in Hx|]); apply elem_of_cons in Hx as [->|Hx];
    [|cbn in Hh; rewrite Forall_forall in Hh; specialize (Hh x Hx); lia];
    assert (Hy : csN y = 1%nat) by (destruct y; cbn in *; lia);
    rewrite (next_thread_cs s j y r Hl Hj Hy) in En; injection En as ->; congruence.
  1,2: destruct (enabled_inline plan o (ctx s) Hlock) as [[[c' ops] sp] Hr];
    unfold step_thread; rewrite Hk, Hr; eauto.
  - destruct Hen as [s' Hs]. destruct (step_keeps_inv m' owed s s' Hok Hinv) as (? & _ & ?); [by exists k, (inline_choice plan o)|lia].
  - rewrite Hk. destruct Hen as [s' Hs]. rewrite Hs.
    assert (Hstep : step s s') by (by exists k, (inline_choice plan o)).
    destruct (step_keeps_inv m' owed s s' Hok Hinv Hstep) as (owed' & Hinv' & Hlt).
    destruct (IH s' owed' Hinv' (lock_first_step _ _ _ _ Hl En Hs)) as (s'' & H1 & H2 & H3); [lia|].
    exists s''. split; [done|]. split; [by eapply rtc_l|done].
Qed.

Lemma start_inline_lock m : lock_first (start_inline m).
Proof.
  intros k o rest Hk Ho. apply list_elem_of_lookup_2 in Hk. cbn in Hk.
  apply list_elem_of_fmap in Hk as (i & [= -> ->] & _). done.
Qed.

(** C22. An inline run always returns: with the stated fuel the loop ends, in a
    quiet state that the run can reach, for every behaviour of the jobs. *)
Theorem runInline_terminates m m' plan :
  impl_ok m -> begin_run m = RunStarts m' ->
  exists c, reachable m c /\ quiescent c /\
    runInline (measure m' (start_inline m')) plan m =
      Some (with_impl (set_running false (impl_ (ctx c))) (ctx c), run_result (ctx c)).
Proof.
  intros Hm Hb. pose proof (begin_run_starts m m' Hm Hb) as Hok.
  destruct (inline_loop_total m' _ plan (start_inline m') (measure m' (start_inline m')) Hok
    (start_inline_inv m' Hok) (start_inline_lock m')) as (s & Hs & Hr & Hq); [lia|].
  exists s. split; [|split; [done|]].
  - exists m', (start_inline m'). split; [|done]. split; [done|]. split; [done|]. by right.
  - unfold runInline. by rewrite Hb, Hs.
Qed.

(** ** The pipeline after a run *)

Lemma benign_status x : benign (set_jobStatus x).
Proof. benign_field. Qed.
Lemma benign_unmet z : benign (set_unmetDeps z).
Proof. benign_field. Qed.
Lemma benign_init : benign init_fields.
Proof. benign_field. Qed.

Lemma renewStopState_ok i m : impl_ok m -> impl_ok (renewStopState i m).
Proof.
  intros Hm. unfold renewStopState. destruct (nodes_ m !! i) as [nd|] eqn:Ei; [|done].
  destruct (_ || _); [|done]. destruct Hm as (Hg & Hr & [Hb Hi]).
  set (m1 := set_stopStates (stopStates m ++ [false]) m).
  assert (Hsg : same_graph m1 (alter_node (set_stopSource (length (stopStates m))) i m1))
    by (apply alter_node_quiet; split; by intros []).
  assert (Hpr : forall j nd', nodes_ (alter_node (set_stopSource (length (stopStates m))) i m1) !! j = Some nd' ->
    exists nd0, nodes_ m !! j = Some nd0 /\ nd' = if decide (i = j) then set_stopSource (length (stopStates m)) nd0 else nd0).
  { intros j nd' Hj. unfold alter_node in Hj. cbn in Hj. by apply list_alter_Some in Hj. }
  pose proof (sg_adjacency _ _ Hsg) as Ha. change (adjacency m1) with (adjacency m) in Ha.
  pose proof (sg_length _ _ Hsg) as Hn. change (nodes_ m1) with (nodes_ m) in Hn.
  split; [|split].
  - destruct Hg as [Hc Har Ht Hp]. split; rewrite ?Ha.
    + unfold zlen in *. by rewrite Hn.
    + unfold alter_node. cbn. by rewrite (alter_fmap_id successors_).
    + done.
    + intros j nd' (nd0 & Hj & ->)%Hpr. rewrite <- (Hp j nd0 Hj). by case_decide.
  - intros Hcd. destruct (Hr Hcd) as [Hv Hro]. unfold validate, computeRoots in *. rewrite Ha, Hn.
    split; [done|]. change (roots_ (alter_node _ _ m1)) with (roots_ m). rewrite Hro. apply list_filter_iff.
    intros j. unfold isRootAt. rewrite lookup_alter_node. cbn.
    case_decide; [subst|done]. by destruct (nodes_ m !! j) as [[]|].
  - assert (Hls : length (stopStates (alter_node (set_stopSource (length (stopStates m))) i m1)) = S (length (stopStates m)))
      by (cbn; rewrite length_app; cbn; lia).
    split.
    + intros j nd' (nd0 & Hj & ->)%Hpr. rewrite Hls. specialize (Hb j nd0 Hj). case_decide; cbn; lia.
    + intros j k a b (a0 & Hja & ->)%Hpr (b0 & Hkb & ->)%Hpr Hab.
      pose proof (Hb j a0 Hja). pose proof (Hb k b0 Hkb).
      repeat case_decide; subst; cbn in Hab; try done; try lia. by eapply Hi.
Qed.

Lemma init_nodes_ok l m : impl_ok m -> impl_ok (foldl init_node m l).
Proof.
  revert m. induction l as [|i l IH]; intros m Hm; [done|]. cbn. apply IH.
  apply alter_node_benign; [apply benign_init|by apply renewStopState_ok].
Qed.

Lemma refreshRoots_ok m m' : impl_ok m -> refreshRoots m = Expected m' -> impl_ok m'.
Proof.
  intros Hm. unfold refreshRoots. destruct (rootsCached_ m); [by intros [= <-]|].
  destruct (validate m) as [[]|] eqn:Ev; [|done]. intros [= <-]. destruct Hm as (Hg & _ & Hs).
  split; [by destruct Hg|]. split; [done|by destruct Hs].
Qed.

Lemma begin_run_ok m : impl_ok m ->
  match begin_run m with RunReturns m' _ | RunStarts m' => impl_ok m' end.
Proof.
  intros Hm. unfold begin_run. case_bool_decide; [done|]. destruct (running_ m); [done|].
  pose proof (entered_ok m Hm) as H2. destruct (refreshRoots _) as [m1|e] eqn:E.
  - apply refreshRoots_ok in E; [|done].
    pose proof (init_nodes_ok (seq 0 (length (nodes_ m1))) m1 E) as H3.
    eapply impl_ok_ext; cycle -1; [exact H3|done..].
  - eapply impl_ok_ext; cycle -1; [exact H2|done..].
Qed.

Lemma run_op_impl_ok ch o c c' ops sp :
  run_op ch o c = Some (c', ops, sp) -> impl_ok (impl_ c) -> impl_ok (impl_ c').
Proof.
  intros H Hm. destruct (run_op_rule _ _ _ _ _ _ H); cbn; try done;
    try (by apply alter_node_benign; [apply benign_status || apply benign_unmet|]);
    (eapply impl_ok_ext; cycle -1; [exact Hm|done..]).
Qed.

(** A run leaves the pipeline well formed, so pipelines can be run, extended
    and run again: every state of a run keeps the graph, the root cache and the
    separation of the jobs' stop states. *)
Theorem run_keeps_pipeline_ok m s : reachable m s ->
  impl_ok (impl_ (ctx s)) /\ same_graph m (impl_ (ctx s)).
Proof.
  intros Hr. split.
  - destruct Hr as (m' & s0 & (Hm & Hb & Hs0) & Hr). pose proof (begin_run_ok m Hm) as H0. rewrite Hb in H0.
    assert (H : impl_ok (impl_ (ctx s0))) by (by destruct Hs0 as [-> | ->]).
    clear Hs0. induction Hr as [|s0 s1 s2 (k & ch & Hk) _ IH]; [done|]. apply IH.
    unfold step_thread in Hk. destruct (threads s0 !! k) as [[|o rest]|]; [done| |done].
    destruct (run_op ch o (ctx s0)) as [[[c' ops] sp]|] eqn:Er; [|done]. injection Hk as <-.
    by eapply run_op_impl_ok.
  - apply reachable_inv in Hr as (m' & owed & Hg & _ & Hinv). transitivity m'; [done|apply Hinv].
Qed.

(** ** Witnesses: inline runs of the diamond pipeline *)

Lemma inline_loop_reach fuel plan s s' :
  inline_loop fuel plan s = Some s' -> rtc step s s' /\ quiescent s'.
Proof.
  revert s. induction fuel as [|fuel IH]; intros s; cbn;
    (destruct (next_thread (threads s)) as [k|] eqn:En; [|intros [= <-]; split; [done|by apply next_thread_None]]);
    [done|].
  destruct (threads s !! k) as [[|o rest]|]; [done| |done].
  destruct (step_thread k (inline_choice plan o) s) as [s1|] eqn:Es; [|done].
  intros H. destruct (IH s1 H) as [H1 H2]. split; [|done]. eapply rtc_l; [|exact H1]. by exists k, (inline_choice plan o).
Qed.

Definition started_impl (m : Impl) : Impl := match begin_run m with RunStarts m' => m' | RunReturns m' _ => m' end.
Definition end_state (plan : nat -> Plan) (m : Impl) : RunState :=
  default (start_inline m) (inline_loop 400 plan (start_inline (started_impl m))).

Lemma end_state_reachable plan m :
  impl_ok m -> (match begin_run m with RunStarts _ => true | _ => false end) = true ->
  (match inline_loop 400 plan (start_inline (started_impl m)) with Some _ => true | None => false end) = true ->
  reachable m (end_state plan m) /\ quiescent (end_state plan m).
Proof.
  intros Hm Hb Hl. unfold end_state. destruct (begin_run m) as [|m'] eqn:Eb; [done|].
  assert (Es : started_impl m = m') by (unfold started_impl; by rewrite Eb). rewrite Es in *.
  destruct (inline_loop _ _ _) as [s|] eqn:E; [|done]. apply inline_loop_reach in E as [Hr Hq].
  split; [|done]. exists m', (start_inline m'). split; [|done]. split; [done|]. split; [done|]. by right.
Qed.

(** Job 2 of the diamond fails; job 3 is deferred. *)
Definition fail_plan (i : nat) : Plan :=
  if decide (i = 2)%nat then Returns (Unexpected kJobFailed) else if decide (i = 3)%nat then Awaits success else Returns success.
Definition good_plan (i : nat) : Plan := if decide (i = 3)%nat then Awaits success else Returns success.
Definition failed_run : RunState := end_state fail_plan diamond_impl.
Definition good_run : RunState := end_state good_plan diamond_impl.

Lemma diamond_ok : impl_ok diamond_impl.
Proof. exact (impl_of_ok _ _ _ _ (built_ok _ diamond_built) diamond_at). Qed.
Lemma failed_run_reachable : reachable diamond_impl failed_run /\ quiescent failed_run.
Proof. apply end_state_reachable; [exact diamond_ok|by vm_compute|by vm_compute]. Qed.
Lemma good_run_reachable : reachable diamond_impl good_run /\ quiescent good_run.
Proof. apply end_state_reachable; [exact diamond_ok|by vm_compute|by vm_compute]. Qed.

Example failed_run_statuses : jobStatus_ <$> nodes_ (impl_ (ctx failed_run)) =
  [kDone; kDone; kFailed; kSkipped; kPending].
Proof. vm_compute. reflexivity. Qed.
Example good_run_statuses : jobStatus_ <$> nodes_ (impl_ (ctx good_run)) =
  [kDone; kDone; kDone; kDone; kPending].
Proof. vm_compute. reflexivity. Qed.

Lemma jobs_start_once_after_predecessors_witness :
  onJobStart 3 ∈ trace (ctx good_run) /\ released_in diamond_impl (ctx good_run) 2.
Proof.
  assert (H : onJobStart 3 ∈ trace (ctx good_run)).
  { apply (bool_decide_unpack _). vm_compute. exact I. }
  split; [exact H|].
  apply (proj2 (jobs_start_once_after_predecessors _ _ 3 (proj1 good_run_reachable)) H).
  exists [3%nat]. split; [vm_compute; reflexivity|apply list_elem_of_singleton; reflexivity].
Defined.

Lemma diamond_ondemand j : ondemand_at diamond_impl j = true -> occ j (adjacency diamond_impl) = 0%nat.
Proof.
  intros H. destruct (decide (j < 5)%nat) as [Hj|Hj].
  - assert (Hall : Forall (fun j => (negb (ondemand_at diamond_impl j) || (occ j (adjacency diamond_impl) =? 0)%nat) = true) (seq 0 5)).
    { apply Forall_lookup. intros i x Hx. do 5 (destruct i as [|i]; [injection Hx as <-; vm_compute; reflexivity|]). discriminate Hx. }
    rewrite Forall_forall in Hall. specialize (Hall j). rewrite H in Hall. apply Nat.eqb_eq, Hall, elem_of_seq. lia.
  - exfalso. unfold ondemand_at in H. rewrite (proj2 (lookup_ge_None _ j)) in H; [done|]. rewrite diamond_size. lia.
Qed.

Lemma quiescent_run_complete_witness :
  terminal (st (ctx failed_run) 3) = true /\
  onJobStart 4 ∉ trace (ctx failed_run).
Proof.
  assert (E3 : ondemand_at diamond_impl 3 = false) by (vm_compute; reflexivity).
  assert (E4 : ondemand_at diamond_impl 4 = true) by (vm_compute; reflexivity).
  assert (Ep : bool_decide (st (ctx failed_run) 3 = kPending) = false) by (vm_compute; reflexivity).
  split.
  - pose proof (quiescent_run_complete diamond_impl failed_run 3 diamond_ondemand (proj1 failed_run_reachable) (proj2 failed_run_reachable)) as H.
    rewrite diamond_size, E3 in H. destruct (H ltac:(lia)) as [Ht|[Hp _]]; [exact Ht|]. apply bool_decide_eq_false in Ep. destruct (Ep Hp).
  - pose proof (quiescent_run_complete diamond_impl failed_run 4 diamond_ondemand (proj1 failed_run_reachable) (proj2 failed_run_reachable)) as H.
    rewrite diamond_size, E4 in H. exact (proj1 (H ltac:(lia))).
Defined.

(** The failure is recorded before the run is over, and stays the one returned. *)
Lemma run_result_correct_witness : exists p, (p < 5)%nat /\
  failedJobName_ (impl_ (ctx failed_run)) = name_at diamond_impl p /\ st (ctx failed_run) p = kFailed.
Proof.
  pose proof (run_result_correct _ _ (proj1 failed_run_reachable) (proj2 failed_run_reachable)) as [_ H].
  assert (E : run_result (ctx failed_run) = Unexpected kJobFailed) by (vm_compute; reflexivity).
  rewrite E, diamond_size in H. destruct H as (p & Hp & Hn & Hs & _). exists p. split; [exact Hp|]. split; [exact Hn|exact Hs].
Defined.

Lemma run_reports_exact_witness :
  events (is_finish 3) (ctx failed_run) = 1%nat /\ completedCount_ (impl_ (ctx failed_run)) = 4.
Proof.
  destruct (run_reports_exact _ _ 3 (proj1 failed_run_reachable) (proj2 failed_run_reachable)) as (H & _ & Hc).
  assert (E : b2n (terminal (st (ctx failed_run) 3)) = 1%nat) by (vm_compute; reflexivity).
  assert (Ec : terminals (impl_ (ctx failed_run)) = 4%nat) by (vm_compute; reflexivity).
  rewrite E in H. rewrite Ec in Hc. split; [exact H|exact Hc].
Defined.

(** The start of the run is not quiet, so it can go on, and it ends. *)
Lemma diamond_started : reachable diamond_impl (start_inline (started_impl diamond_impl)).
Proof.
  assert (E : begin_run diamond_impl = RunStarts (started_impl diamond_impl)) by (vm_compute; reflexivity).
  exists (started_impl diamond_impl), (start_inline (started_impl diamond_impl)).
  split; [|apply rtc_refl]. split; [exact diamond_ok|]. split; [exact E|by right].
Qed.

Lemma run_progress_witness : exists s', step (start_inline (started_impl diamond_impl)) s'.
Proof.
  apply (run_progress _ _ diamond_started). intros H. unfold quiescent in H.
  assert (E : threads (start_inline (started_impl diamond_impl)) = [[ODispatchJob 0]]) by (vm_compute; reflexivity).
  rewrite E in H. inversion H. discriminate.
Defined.

Lemma run_terminates_witness : sn step (start_inline (started_impl diamond_impl)).
Proof. exact (run_terminates _ _ diamond_started). Defined.

Lemma job_state_machine_witness :
  exists s', step (start_inline (started_impl diamond_impl)) s' /\
    (st (ctx s') 0 = kReady \/ moves kReady (st (ctx s') 0)).
Proof.
  assert (E : exists s', step_thread 0 CNone (start_inline (started_impl diamond_impl)) = Some s')
    by (vm_compute; eexists; reflexivity).
  destruct E as [s' E]. assert (Hs : step (start_inline (started_impl diamond_impl)) s') by (exists 0%nat, CNone; exact E).
  exists s'. split; [exact Hs|]. destruct (job_state_machine _ _ _ 0 diamond_started Hs) as [H _].
  assert (E0 : st (ctx (start_inline (started_impl diamond_impl))) 0 = kReady) by (vm_compute; reflexivity).
  rewrite E0 in H. exact H.
Defined.

Lemma runInline_terminates_witness :
  exists c, reachable diamond_impl c /\ quiescent c.
Proof.
  assert (E : begin_run diamond_impl = RunStarts (started_impl diamond_impl)) by (vm_compute; reflexivity).
  destruct (runInline_terminates _ _ good_plan diamond_ok E) as (c & Hr & Hq & _). exists c. split; [exact Hr|exact Hq].
Defined.

Lemma run_keeps_pipeline_ok_witness : impl_ok (impl_ (ctx failed_run)).
Proof. exact (proj1 (run_keeps_pipeline_ok _ _ (proj1 failed_run_reachable))). Defined.

(** An on-demand job with a predecessor: [addOnDemand] is documented as "excluded
    from normal run() execution", but the job becomes ready when its predecessor
    finishes and the run executes it. *)
Definition ondemand_impl : Impl :=
  match impl_of (run_calls [CConstruct 0; CEmplace 0 0; CAddOnDemand 0 1; CPrecede (handle 0 0) (handle 0 1)]%nat) 0 with
  | Some (_, m) => m | None => Impl_new end.
Example ondemand_successor_runs :
  let s := end_state (fun _ => Returns success) ondemand_impl in
  onJobStart 1 ∈ trace (ctx s) /\ jobStatus_ <$> nodes_ (impl_ (ctx s)) = [kDone; kDone] /\
  ondemand_at ondemand_impl 1 = true.
Proof.
  split; [apply (bool_decide_unpack _); vm_compute; exact I|]. split; vm_compute; reflexivity.
Qed.
