(* ===== verification/Invoke.v ===== *)
(** How a job's body is called (Impl::invoke, invokeTimed, invokeWithDeadline and
    retain in src/sub0pipeline.cpp): the cancellation gate, the three ways a timeout
    is enforced, and the registry of the worker threads that outlive one. *)
From S2P Require Import Prelude Types Nodes Run.

(** ** One invocation *)

(** What the environment does during an invocation: stop requests, the deadline
    service, the body, and the races between them as the code observes them. *)
Record Env := {
  stop_at_entry : bool;          (* stop_requested() at the gate *)
  armed : bool;                  (* arm() accepts the deadline *)
  stop_after_arm : bool;         (* token.stop_requested() once armed *)
  body : bool -> Outcome;        (* fn_, by whether it is given the job's token *)
  in_time : bool;                (* the wait for the worker ended with its completion *)
  expired_at_end : bool;         (* the deadline or the watchdog fired before it was stopped *)
}.

(** What an invocation does besides computing its result. *)
Inductive Act : Set :=
  | AArm | ACancelAndWait            (* the deadline registration *)
  | AStartWatchdog | AJoinWatchdog
  | ACall (token : bool)             (* the body, on this thread *)
  | AStartWorker | AJoinWorker       (* the body, on a thread of its own *)
  | ARequestStop | ARetain.

#[export] Instance Act_eq_dec : EqDecision Act.
Proof. solve_decision. Defined.

Definition timed_out (expired : bool) (otherwise : Outcome) : Outcome :=
  if expired then Unexpected kTimeout else otherwise.

Definition invokeWithDeadline (nd : Node) (e : Env) : Outcome * list Act :=
  if negb (armed e) then (Unexpected kDeadlineUnavailable, [])
  else if stop_after_arm e then
    (timed_out (expired_at_end e) (Unexpected kCancelledError), [AArm; ACancelAndWait])
  else if isCancellable nd then
    (timed_out (expired_at_end e) (body e true), [AArm; ACall true; ACancelAndWait])
  else if in_time e then
    (timed_out (expired_at_end e) (body e true), [AArm; AStartWorker; ACancelAndWait; AJoinWorker])
  else (timed_out (expired_at_end e) (Unexpected kCancelledError), [AArm; AStartWorker; ACancelAndWait; ARetain]).

Definition invokeTimed (m : Impl) (nd : Node) (e : Env) : Outcome * list Act :=
  match deadlines_ m with
  | Some _ => invokeWithDeadline nd e
  | None =>
      if isCancellable nd then
        (timed_out (expired_at_end e) (body e true),
         [AStartWatchdog; ACall true] ++ (if expired_at_end e then [ARequestStop] else []) ++ [AJoinWatchdog])
      else if in_time e then (body e true, [AStartWorker; AJoinWorker])
      else (Unexpected kTimeout, [AStartWorker; ARequestStop; ARetain])
  end.

Definition invoke (m : Impl) (nd : Node) (e : Env) : Outcome * list Act :=
  if stop_at_entry e then (Unexpected kCancelledError, [])
  else if timeout_ nd =? milliseconds_max then (body e (isCancellable nd), [ACall (isCancellable nd)])
  else invokeTimed m nd e.

(** The effect of the acts on the pipeline: [retain] counts an orphan, a stop
    request reaches the node's stop state. *)
Definition act (nd : Node) (m : Impl) (a : Act) : Impl :=
  match a with
  | ARetain => set_orphans (pendingOrphans_ m + 1) (deferredOrphans_ m) m
  | ARequestStop => set_stopStates (<[stopSource_ nd := true]> (stopStates m)) m
  | _ => m
  end.
Definition invoke_effect (m : Impl) (nd : Node) (e : Env) : Impl := foldl (act nd) m (invoke m nd e).2.

Definition starts_body (a : Act) : bool := match a with ACall _ | AStartWorker => true | _ => false end.
Definition body_returned (a : Act) : bool := match a with ACall _ | AJoinWorker => true | _ => false end.
Definition retains (a : Act) : bool := match a with ARetain => true | _ => false end.
Definition arms (a : Act) : bool := match a with AArm => true | _ => false end.
Definition cancels (a : Act) : bool := match a with ACancelAndWait => true | _ => false end.
Definition count_acts (f : Act -> bool) (l : list Act) : nat := length (List.filter f l).

(** ** The registry of retained threads *)

(** A thread in [retain] or in [joinOrphanThreads]. *)
Inductive Registrar : Set :=
  | RPush (t : nat) | RCount         (* under orphanMtx_ from the push on *)
  | JCheck | JLock | JSwap | JJoin (batch : list nat) (reaped : nat) | JSub (reaped : nat)
  | RDone | JReturned (reaped : bool).

Record Registry := {
  orphanThreads_ : list nat;
  pending : Z;                       (* pendingOrphans_ *)
  orphanMtx_ : bool; joinMtx_ : bool;
  registrars : list Registrar;
  ended : list nat;                  (* threads whose body has returned *)
  joined : list nat;
  retained : list nat;               (* ghost: every thread pushed so far *)
}.

Definition with_registrars (l : list Registrar) (g : Registry) : Registry :=
  {| orphanThreads_ := orphanThreads_ g; pending := pending g; orphanMtx_ := orphanMtx_ g;
     joinMtx_ := joinMtx_ g; registrars := l; ended := ended g; joined := joined g; retained := retained g |}.
Definition with_registry (l : list nat) (n : Z) (o j : bool) (g : Registry) : Registry :=
  {| orphanThreads_ := l; pending := n; orphanMtx_ := o; joinMtx_ := j;
     registrars := registrars g; ended := ended g; joined := joined g; retained := retained g |}.
Definition push_thread (t : nat) (g : Registry) : Registry :=
  {| orphanThreads_ := orphanThreads_ g ++ [t]; pending := pending g; orphanMtx_ := true;
     joinMtx_ := joinMtx_ g; registrars := registrars g; ended := ended g; joined := joined g;
     retained := retained g ++ [t] |}.
Definition join_thread (t : nat) (g : Registry) : Registry :=
  {| orphanThreads_ := orphanThreads_ g; pending := pending g; orphanMtx_ := orphanMtx_ g;
     joinMtx_ := joinMtx_ g; registrars := registrars g; ended := ended g; joined := joined g ++ [t]; retained := retained g |}.
Definition end_thread (t : nat) (g : Registry) : Registry :=
  {| orphanThreads_ := orphanThreads_ g; pending := pending g; orphanMtx_ := orphanMtx_ g;
     joinMtx_ := joinMtx_ g; registrars := registrars g; ended := t :: ended g; joined := joined g; retained := retained g |}.

Definition registrar_step (r : Registrar) (g : Registry) : option (Registry * Registrar) :=
  match r with
  | RPush t =>
      if orphanMtx_ g then None else Some (push_thread t g, RCount)
  | RCount => Some (with_registry (orphanThreads_ g) (u64 (pending g + 1)) false (joinMtx_ g) g, RDone)
  | JCheck => Some (g, if pending g =? 0 then JReturned false else JLock)
  | JLock =>
      if joinMtx_ g then None
      else Some (with_registry (orphanThreads_ g) (pending g) (orphanMtx_ g) true g, JSwap)
  | JSwap =>
      if orphanMtx_ g then None
      else Some (with_registry [] (pending g) false (joinMtx_ g) g,
                 JJoin (orphanThreads_ g) (length (orphanThreads_ g)))
  | JJoin [] n => Some (g, JSub n)
  | JJoin (t :: ts) n => if bool_decide (t ∈ ended g) then Some (join_thread t g, JJoin ts n) else None
  | JSub n => Some (with_registry (orphanThreads_ g) (u64 (pending g - Z.of_nat n)) (orphanMtx_ g) false g,
                    JReturned (negb (bool_decide (n = 0%nat))))
  | RDone | JReturned _ => None
  end.

(** A registrar moves, a call of [retain] or of [joinOrphanThreads] begins, or a
    retained thread's body returns. *)
Inductive RegistryMove : Set :=
  | GStep (k : nat) | GRetain (t : nat) | GJoin | GEnds (t : nat).

Definition registry_move (mv : RegistryMove) (g : Registry) : option Registry :=
  match mv with
  | GStep k =>
      r ← registrars g !! k;
      '(g, r) ← registrar_step r g;
      Some (with_registrars (<[k := r]> (registrars g)) g)
  | GRetain t => Some (with_registrars (registrars g ++ [RPush t]) g)
  | GJoin => Some (with_registrars (registrars g ++ [JCheck]) g)
  | GEnds t => Some (end_thread t g)
  end.

Fixpoint registry_moves (l : list RegistryMove) (g : Registry) : option Registry :=
  match l with [] => Some g | mv :: l => g ← registry_move mv g; registry_moves l g end.

Definition Registry_empty : Registry :=
  {| orphanThreads_ := []; pending := 0; orphanMtx_ := false; joinMtx_ := false; registrars := [];
     ended := []; joined := []; retained := [] |}.

(** ** The registry's invariant *)

Definition counting_one (r : Registrar) : nat := match r with RCount => 1 | _ => 0 end.
Definition joining (r : Registrar) : nat := match r with JSwap | JJoin _ _ | JSub _ => 1 | _ => 0 end.
Definition taken (r : Registrar) : nat := match r with JJoin _ n | JSub n => n | _ => 0 end.
Definition batch (r : Registrar) : list nat := match r with JJoin l _ => l | _ => [] end.
Definition batches (l : list Registrar) : list nat := l ≫= batch.

Record registry_inv (n : Z) (g : Registry) : Prop := {
  ri_pending : pending g + Z.of_nat (sum_list_with counting_one (registrars g))
               = zlen (orphanThreads_ g) + Z.of_nat (sum_list_with taken (registrars g));
  ri_orphan_lock : sum_list_with counting_one (registrars g) = if orphanMtx_ g then 1%nat else 0%nat;
  ri_join_lock : sum_list_with joining (registrars g) = if joinMtx_ g then 1%nat else 0%nat;
  ri_threads : joined g ++ batches (registrars g) ++ orphanThreads_ g ≡ₚ retained g;
  ri_taken : Forall (fun r => length (batch r) <= taken r)%nat (registrars g);
  ri_joined : Forall (fun t => t ∈ ended g) (joined g);
  ri_bound : zlen (retained g) <= n /\ 0 <= pending g;
  ri_pushed : orphanMtx_ g = true -> orphanThreads_ g <> [];
  ri_total : zlen (orphanThreads_ g) + Z.of_nat (sum_list_with taken (registrars g)) <= zlen (retained g);
}.


Lemma batches_app l k : batches (l ++ k) = batches l ++ batches k.
Proof. apply bind_app. Qed.
Lemma batches_cons r l : batches (r :: l) = batch r ++ batches l.
Proof. done. Qed.

(** Closes the fields that count, the list of threads and the two per-element
    fields after a move. *)
Ltac registry_close :=
  match goal with
  | Ht : _ ≡ₚ retained ?g |- _ ≡ₚ _ =>
      rewrite <- Ht; change (?l ≫= batch) with (batches l);
      rewrite ?batches_app, ?batches_cons; cbn [batch app]; solve_Permutation
  | |- Forall _ (_ ++ _ :: _) => apply Forall_app; split; [done|apply Forall_cons; split; [cbn in *; lia|done]]
  | |- Forall _ _ => done
  | |- _ -> _ => try done; intros ?; by destruct orphanThreads_
  | _ => unfold zlen in *; rewrite ?sum_list_with_app, ?length_app in *; cbn in *; try lia
  end.

(** One move of a registrar [r], among the others [l1] and [l2]. *)
Lemma registrar_step_inv n g l1 l2 r g' r' :
  n < 2 ^ 63 -> registrars g = l1 ++ r :: l2 -> registry_inv n g -> registrar_step r g = Some (g', r') ->
  registry_inv (n + 1) (with_registrars (l1 ++ r' :: l2) g').
Proof.
  intros Hn Hl [Hp Ho Hj Ht Hk He [Hb Hb'] Hne Htot] H. rewrite Hl in *.
  rewrite batches_app, batches_cons in Ht. apply Forall_app in Hk as [Hk1 [Hk2 Hk3]%Forall_cons].
  destruct r as [t| | | | |[|t ts] m|m| |]; cbn in H; try done.
  - (* RPush *) destruct (orphanMtx_ g) eqn:Eo; [done|]. simplify_eq/=. split; cbn; try registry_close.
  - (* RCount *) destruct (orphanMtx_ g) eqn:Eo; [|rewrite sum_list_with_app in Ho; cbn in Ho; lia].
    assert (u64 (pending g + 1) = pending g + 1) as Hu by (apply u64_small; unfold is_u64; registry_close).
    simplify_eq/=. split; cbn; rewrite ?Hu; try registry_close.
  - (* JCheck *) destruct (pending g =? 0); simplify_eq/=; split; cbn; try registry_close.
  - (* JLock *) destruct (joinMtx_ g) eqn:Ej; [done|]. simplify_eq/=. split; cbn; try registry_close.
  - (* JSwap *) destruct (orphanMtx_ g) eqn:Eo; [done|]. simplify_eq/=. split; cbn; try registry_close.
  - (* JJoin [] *) simplify_eq/=. split; cbn; try registry_close.
  - (* JJoin *) case_bool_decide; [|done]. simplify_eq/=. split; cbn; try registry_close.
    apply Forall_app. by split; [|apply Forall_singleton].
  - (* JSub *)
    assert (Z.of_nat m <= pending g) as Hm.
    { rewrite sum_list_with_app in Ho, Hp. cbn in Ho, Hp. unfold zlen in Hp. rewrite sum_list_with_app in Hp. cbn in Hp.
      destruct (orphanMtx_ g); [|lia]. specialize (Hne eq_refl). destruct (orphanThreads_ g); [done|]. cbn in *. lia. }
    assert (u64 (pending g - Z.of_nat m) = pending g - Z.of_nat m) as Hu by (apply u64_small; unfold is_u64; registry_close).
    simplify_eq/=. destruct (joinMtx_ g); [|rewrite sum_list_with_app in Hj; cbn in Hj; lia].
    split; cbn; rewrite ?Hu; try registry_close.
Qed.

Lemma registry_move_inv n mv g g' :
  n < 2 ^ 63 -> registry_inv n g -> registry_move mv g = Some g' -> registry_inv (n + 1) g'.
Proof.
  intros Hn I H. destruct mv as [k|t| |t]; cbn in H.
  - destruct (registrars g !! k) as [r|] eqn:Hk; [|done]. cbn in H.
    destruct (registrar_step r g) as [[g1 r1]|] eqn:Hr; [|done]. simplify_eq/=.
    destruct (lookup_insert_split _ _ _ Hk) as (l1 & l2 & Hl & Hi).
    assert (registrars g1 = registrars g) as E by (destruct r as [| | | | |[]| | |]; cbn in Hr; repeat case_match; by simplify_eq/=).
    rewrite E, Hi. exact (registrar_step_inv n g l1 l2 r g1 r1 Hn Hl I Hr).
  - simplify_eq. destruct I as [? ? ? ? ? ? [? ?] ? ?]. split; cbn; try registry_close.
  - simplify_eq. destruct I as [? ? ? ? ? ? [? ?] ? ?]. split; cbn; try registry_close.
  - simplify_eq. destruct I as [? ? ? ? ? Hj [? ?] ? ?]. split; cbn; try registry_close.
    eapply Forall_impl; [exact Hj|]. intros x Hx. by apply elem_of_cons; right.
Qed.

Lemma registry_moves_inv l n g g' :
  n + zlen l < 2 ^ 63 -> registry_inv n g -> registry_moves l g = Some g' -> registry_inv (n + zlen l) g'.
Proof.
  revert n g. induction l as [|mv l IH]; unfold zlen in *; cbn; intros n g Hn I H.
  - simplify_eq. by rewrite Z.add_0_r.
  - destruct (registry_move mv g) as [g1|] eqn:Hm; [|done]. cbn in H.
    replace (n + Z.of_nat (S (length l))) with (n + 1 + Z.of_nat (length l)) by lia.
    apply (IH (n + 1) g1); [lia| |done]. apply (registry_move_inv n mv g); [lia|done..].
Qed.

Lemma registry_empty_inv : registry_inv 0 Registry_empty.
Proof. split; cbn; unfold zlen; cbn; try done; try lia. Qed.

Lemma no_batches l :
  sum_list_with taken l = 0%nat -> Forall (fun r => length (batch r) <= taken r)%nat l -> batches l = [].
Proof.
  induction l as [|r l IH]; cbn; [done|]. intros Hs [Hr Hl]%Forall_cons.
  change (l ≫= batch) with (batches l). rewrite IH by (lia || done).
  destruct (batch r); cbn in *; [done|lia].
Qed.

(** ** Properties *)

(** C21. Every body an invocation starts has either returned on the calling
    thread or been joined there, or its thread is retained for joinOrphans and
    counted: none is detached, and at most one is started. A deadline armed is
    cancelled once, on every path. A stop requested before entry keeps the body from
    being called, and the result is kCancelled; so does a stop requested by the time
    the deadline is armed, with kTimeout if that expired meanwhile and kCancelled
    otherwise. *)
Theorem invoke_accounts_for_body m nd e :
  let '(r, acts) := invoke m nd e in
  (count_acts starts_body acts <= 1)%nat /\
  count_acts starts_body acts =
    (count_acts body_returned acts + count_acts retains acts)%nat /\
  (count_acts arms acts <= 1)%nat /\
  count_acts cancels acts = count_acts arms acts /\
  pendingOrphans_ (invoke_effect m nd e) =
    pendingOrphans_ m + Z.of_nat (count_acts retains acts) /\
  (stop_at_entry e = true -> r = Unexpected kCancelledError /\ count_acts starts_body acts = 0%nat) /\
  (count_acts arms acts = 1%nat -> stop_after_arm e = true ->
     r = Unexpected (if expired_at_end e then kTimeout else kCancelledError) /\ count_acts starts_body acts = 0%nat).
Proof.
  unfold invoke_effect, invoke, invokeTimed, invokeWithDeadline.
  unfold timed_out. repeat case_match; simplify_eq/=; unfold count_acts; cbn; repeat split; try done; try lia; congruence.
Qed.

Ltac not_retained :=
  let H := fresh in intros H; repeat (apply elem_of_cons in H as [H|H]; [discriminate H|]);
  by apply elem_of_nil in H.

(** What an invocation reports. Success means that the body ran to its end,
    returned success, and no deadline expired on it; a body's own result is
    reported otherwise unless a deadline or a stop overrides it with kTimeout or
    kCancelled; and a body is abandoned only when it is a plain timed job, which
    is then reported as timed out or cancelled. *)
Theorem invoke_reports m nd e :
  let '(r, acts) := invoke m nd e in
  (r = success ->
     count_acts body_returned acts = 1%nat /\ (exists token, body e token = success) /\
     (timeout_ nd <> milliseconds_max -> (isCancellable nd = true \/ deadlines_ m <> None) -> expired_at_end e = false)) /\
  ((exists token, count_acts body_returned acts = 1%nat /\ r = body e token) \/
   r = Unexpected kTimeout \/ r = Unexpected kCancelledError \/ r = Unexpected kDeadlineUnavailable) /\
  (ARetain ∈ acts ->
     isCancellable nd = false /\ timeout_ nd <> milliseconds_max /\ in_time e = false /\
     (r = Unexpected kTimeout \/ r = Unexpected kCancelledError)).
Proof.
  unfold invoke, invokeTimed, invokeWithDeadline, timed_out.
  destruct (Z.eqb_spec (timeout_ nd) milliseconds_max) as [Hmax|Hmax];
    repeat case_match; simplify_eq/=; unfold count_acts; cbn; (split; [|split]).
  all: try solve [intros [=] | not_retained | left; by eexists | by auto
    | intros _; split_and!; by auto | intros ?; split_and!; [done|by eexists|done]].
  intros Hb. split_and!; [done|by eexists|]. by intros _ [|].
Qed.

(** A body abandoned by its invocation is never lost: whatever the
    interleaving of retain, joinOrphans and the bodies' ends, every retained
    thread is in the registry, in the batch of the one active joiner, or joined;
    only ended threads are joined; and when the pending count reads zero with no
    retain in progress, all of them have been. *)
Theorem orphans_never_lost l g :
  zlen l < 2 ^ 63 -> registry_moves l Registry_empty = Some g ->
  joined g ++ batches (registrars g) ++ orphanThreads_ g ≡ₚ retained g /\
  Forall (fun t => t ∈ ended g) (joined g) /\
  (pending g = 0 -> orphanMtx_ g = false -> joined g ≡ₚ retained g).
Proof.
  intros Hl H. pose proof (registry_moves_inv l 0 _ _ Hl registry_empty_inv H) as I.
  split; [exact (ri_threads _ g I)|]. split; [exact (ri_joined _ g I)|]. intros Hp Ho.
  pose proof (ri_pending _ g I) as Hc. rewrite (ri_orphan_lock _ g I), Ho, Hp in Hc. unfold zlen in Hc.
  pose proof (ri_threads _ g I) as Ht.
  rewrite (no_batches (registrars g)) in Ht by (lia || exact (ri_taken _ g I)).
  destruct (orphanThreads_ g); [by rewrite !app_nil_r in Ht|cbn in Hc; lia].
Qed.

(** One retained thread, joined by one of two concurrent joiners. *)
Definition registry_sample : list RegistryMove :=
  [GRetain 4; GStep 0; GStep 0; GJoin; GJoin; GStep 1; GStep 2; GStep 1; GStep 1; GEnds 4; GStep 1; GStep 1; GStep 1].

Lemma orphans_never_lost_witness :
  exists g, registry_moves registry_sample Registry_empty = Some g /\ pending g = 0 /\ joined g ≡ₚ retained g
            /\ joined g = [4%nat].
Proof.
  eexists. split; [vm_compute; reflexivity|]. split; [reflexivity|]. split; [|reflexivity].
  destruct (orphans_never_lost registry_sample _ ltac:(vm_compute; reflexivity) ltac:(vm_compute; reflexivity)) as (_ & _ & H).
  apply H; reflexivity.
Defined.
