(* ===== verification/RunScope.v ===== *)
(** Stops from outside a run: the external token that runImpl forwards to every
    node (ForwardStop, src/sub0pipeline.cpp), and RunScope
    (include/sub0pipeline/run_scope.hpp), which owns a run's thread. *)
From S2P Require Import Prelude Types Nodes Pipeline Run Invoke.

(** ** ForwardStop *)

Abbreviation request_stops := (foldl (fun m k => request_stop k m)).
Definition ForwardStop (m : Impl) : Impl := request_stops m (stopSource_ <$> nodes_ m).

Lemma request_stops_spec l m : nodes_ (request_stops m l) = nodes_ m /\
  length (stopStates (request_stops m l)) = length (stopStates m) /\
  forall i, stopStates (request_stops m l) !! i = if decide (i ∈ l) then (fun _ => true) <$> stopStates m !! i else stopStates m !! i.
Proof.
  revert m. induction l as [|s l IH]; intros m; [done|]. cbn. destruct (IH (request_stop s m)) as (H1 & H2 & H3).
  split; [by rewrite H1|]. split; [rewrite H2; apply length_insert|]. intros i. rewrite H3. cbn.
  destruct (decide (i = s)) as [->|Hne].
  - rewrite (decide_True (P := s ∈ s :: l)) by set_solver. destruct (stopStates m !! s) as [b|] eqn:E.
    + rewrite list_lookup_insert_eq by (by eapply lookup_lt_Some). by case_decide.
    + rewrite (lookup_ge_None_2 (<[s := true]> (stopStates m))) by (rewrite length_insert; by apply lookup_ge_None). by case_decide.
  - rewrite list_lookup_insert_ne by done. destruct (decide (i ∈ l)).
    + rewrite decide_True by set_solver. done.
    + rewrite decide_False by set_solver. done.
Qed.

(** It reaches every node, and changes nothing else of them; a job that was not
    started is then refused at the gate, and its body not called. *)
Lemma forward_stop_reaches m i nd e : nodes_ m !! i = Some nd -> (stopSource_ nd < length (stopStates m))%nat ->
  stop_at_entry e = stop_requested (ForwardStop m) nd ->
  nodes_ (ForwardStop m) = nodes_ m /\ stop_requested (ForwardStop m) nd = true /\
  invoke (ForwardStop m) nd e = (Unexpected kCancelledError, []).
Proof.
  intros Hi Hs He. destruct (request_stops_spec (stopSource_ <$> nodes_ m) m) as (H1 & _ & H3).
  assert (Hreq : stop_requested (ForwardStop m) nd = true).
  { unfold stop_requested, ForwardStop. rewrite H3, decide_True by (apply list_elem_of_fmap; exists nd; split; [done|by eapply list_elem_of_lookup_2]).
    by destruct (lookup_lt_is_Some_2 _ _ Hs) as [b ->]. }
  split; [done|]. split; [done|]. unfold invoke. by rewrite He, Hreq.
Qed.

(** ** RunScope *)

(** The runner thread: in [run], in [joinOrphans], before its last store, gone. *)
Inductive RunnerPc : Set := SRunning | SOrphans | SStores | SEnded.
#[export] Instance RunnerPc_eq_dec : EqDecision RunnerPc.
Proof. solve_decision. Defined.

(** [scoped] is the pipeline's state as the runner leaves it, [joins_] what calls
    of [join] returned. *)
Record RunScope := mkScope {
  scoped : Impl; runner_ : RunnerPc; stop_ : bool; complete_ : bool; result_ : Outcome; joins_ : list Outcome
}.
Definition scope_begin (m : Impl) : RunScope := mkScope m SRunning false false success [].

(** [run] returns, leaving the pipeline [m]; the runner goes on; request_stop and
    join are called. *)
Inductive ScopeMove : Type := MReturns (m : Impl) (r : Outcome) | MOrphans | MStores | MRequestStop | MJoin.

Definition scope_move (mv : ScopeMove) (s : RunScope) : option RunScope :=
  match mv, runner_ s with
  | MReturns m r, SRunning =>
      Some (mkScope m (if bool_decide (r = Unexpected kBusy) then SStores else SOrphans) (stop_ s) (complete_ s) r (joins_ s))
  | MOrphans, SOrphans => Some (mkScope (joinOrphans (scoped s)).1 SStores (stop_ s) (complete_ s) (result_ s) (joins_ s))
  | MStores, SStores => Some (mkScope (scoped s) SEnded (stop_ s) true (result_ s) (joins_ s))
  | MRequestStop, _ => Some (mkScope (scoped s) (runner_ s) true (complete_ s) (result_ s) (joins_ s))
  | MJoin, SEnded => Some (mkScope (scoped s) (runner_ s) (stop_ s) (complete_ s) (result_ s) (joins_ s ++ [result_ s]))
  | _, _ => None
  end.
Fixpoint scope_moves (l : list ScopeMove) (s : RunScope) : option RunScope :=
  match l with [] => Some s | mv :: l => s ← scope_move mv s; scope_moves l s end.
(** [~RunScope]: a stop, and a join. *)
Definition destroy : list ScopeMove := [MRequestStop; MJoin].

(** What [run] returned to the scope. *)
Definition returned (l : list ScopeMove) : list Outcome := omap (fun mv => match mv with MReturns _ r => Some r | _ => None end) l.

Record scope_inv (rs : list Outcome) (s : RunScope) : Prop := {
  sc_result : runner_ s = SRunning /\ rs = [] \/ runner_ s <> SRunning /\ rs = [result_ s];
  sc_complete : complete_ s = bool_decide (runner_ s = SEnded);
  sc_orphans : runner_ s = SStores \/ runner_ s = SEnded -> result_ s <> Unexpected kBusy -> hasOrphans (scoped s) = false;
  sc_joins : Forall (fun r => runner_ s = SEnded /\ r = result_ s) (joins_ s)
}.

Lemma scope_move_inv rs mv s s' : scope_inv rs s -> scope_move mv s = Some s' -> scope_inv (rs ++ returned [mv]) s'.
Proof.
  intros [H1 H2 H3 H4] H. unfold scope_move in H. destruct mv, (runner_ s) eqn:E; try done; injection H as <-; cbn; rewrite ?app_nil_r.
  all: split; cbn; rewrite ?E in *; try done; try (by destruct H1 as [[]|[]]; eauto); try (by intros [|]).
  - right. destruct H1 as [[_ ->]|[]]; [|done]. split; [intros Hx; destruct (bool_decide _) in Hx; discriminate Hx|done].
  - rewrite H2. by destruct (bool_decide (r = _)).
  - destruct (bool_decide (r = _)) eqn:Eb; [by apply bool_decide_eq_true in Eb|]. intros [Hx|Hx]; discriminate Hx.
  - destruct (joins_ s) as [|x l]; [done|]. by inversion_clear H4 as [|? ? []].
  - destruct (joins_ s) as [|x l]; [done|]. by inversion_clear H4 as [|? ? []].
  - destruct (joins_ s) as [|x l]; [done|]. by inversion_clear H4 as [|? ? []].
  - apply Forall_app. split; [done|]. by repeat constructor.
Qed.

(** However a scope is used, each call of join returns after the run has, with the
    run's result, the orphans joined unless the run was refused as busy. *)
Lemma scope_joins_run l m s r : scope_moves l (scope_begin m) = Some s -> r ∈ joins_ s ->
  returned l = [r] /\ complete_ s = true /\ (r <> Unexpected kBusy -> hasOrphans (scoped s) = false).
Proof.
  assert (Hinv : forall l rs s s', scope_inv rs s -> scope_moves l s = Some s' -> scope_inv (rs ++ returned l) s').
  { induction l0 as [|mv l0 IH]; intros rs s0 s' Hs Hm; cbn in Hm; [injection Hm as <-; by rewrite app_nil_r|].
    apply bind_Some in Hm as (s1 & H1 & H2). pose proof (IH _ _ _ (scope_move_inv _ _ _ _ Hs H1) H2) as H.
    rewrite <- app_assoc in H. unfold returned in *. by rewrite <- omap_app in H. }
  intros Hm Hr. assert (Hs0 : scope_inv [] (scope_begin m)) by (split; [by left|done|by intros [|]|done]).
  destruct (Hinv l [] _ _ Hs0 Hm) as [H1 H2 H3 H4]. rewrite Forall_forall in H4. destruct (H4 r Hr) as [He ->]. cbn in H1.
  split; [by destruct H1 as [[]|[]]; [congruence|]|]. split; [by rewrite H2, bool_decide_true|]. intros Hb. apply H3; [by right|done].
Qed.
