(* ===== verification/OnDemand.v ===== *)
(** On-demand jobs (Pipeline::trigger, src/sub0pipeline.cpp) and the loop that
    repeats a run (Pipeline::runUntil): concurrent callers of [trigger], the tasks
    they hand to the armed executor, and callers of [joinOrphans], one atomic
    access, critical section or call out of the library per step. *)
From S2P Require Import Prelude Types EdgeLists SuccessorPool Nodes Kahn Graph Pipeline Run Dispatch Scheduler Invoke.

(** ** State *)

(** Calls the armed observer sees. *)
Inductive DemandEvent : Set :=
  | dRunStart
  | dJobStart (i : nat)
  | dJobFinish (i : nat) (s : JobStatus)
  | dDependenciesResolved (i : nat) (targets : list nat)
  | dJobFailure (i : nat) (e : PipelineError).

#[export] Instance DemandEvent_eq_dec : EqDecision DemandEvent.
Proof. solve_decision. Defined.

(** Where a caller of [trigger] (T) or a task of the executor (K) is. *)
Inductive Pc : Type :=
  | TEntry (known : bool) (i : nat)       (* the handle, executor and flag tests *)
  | TRunning (i : nat) | TOrphans (i : nat)
  | TLock (i : nat) | TLoad (i : nat) | TStore (i : nat)   (* stopMtx_ held in the last two *)
  | TDispatch (i : nat) | TReject (i : nat)
  | TReturned (i : nat) (r : Outcome)
  | KQueued (i : nat)
  | KStarting (i : nat) (calls : list DemandEvent)
  | KBody (i : nat) (e : Env)             (* inside invoke *)
  | KStore (i : nat) (r : Outcome)
  | KReporting (i : nat) (calls : list DemandEvent).

Record Demand := mkDemand {
  dm_impl : Impl;
  stopMtx_ : bool;              (* held? *)
  pcs : list Pc;
  seen : list DemandEvent;
  strays : list nat             (* ghost: jobs whose body runs in a retained thread *)
}.

Definition with_demand (m : Impl) (d : Demand) : Demand := mkDemand m (stopMtx_ d) (pcs d) (seen d) (strays d).
Definition with_lock (b : bool) (d : Demand) : Demand := mkDemand (dm_impl d) b (pcs d) (seen d) (strays d).
Definition with_pcs (l : list Pc) (d : Demand) : Demand := mkDemand (dm_impl d) (stopMtx_ d) l (seen d) (strays d).
Definition see (e : DemandEvent) (d : Demand) : Demand :=
  mkDemand (dm_impl d) (stopMtx_ d) (pcs d) (seen d ++ [e]) (strays d).
Definition with_strays (l : list nat) (d : Demand) : Demand := mkDemand (dm_impl d) (stopMtx_ d) (pcs d) (seen d) l.

(** ** Steps *)

(** What the environment decides: the executor accepts the task or throws, and
    how an invocation goes. *)
Inductive DemandChoice : Type := DNone | DAccepts (b : bool) | DEnv (e : Env).

(** The handle belongs to the pipeline at [p], and names one of its jobs. *)
Definition trigger_known (w : World) (p : nat) (j : Job) : bool :=
  match impl_of w p with
  | None => false
  | Some (_, m) => bool_decide (pipeline w j = Some (Some p)) && valid j && (idx_ j <? zlen (nodes_ m))
  end.

Definition trigger_refused (m : Impl) (known : bool) (i : nat) : option PipelineError :=
  if negb known then Some kUnknownJob
  else match armedExecutor_ m with
       | None => Some kNotArmed
       | Some _ => if ondemand_at m i then None else Some kNotOnDemand
       end.

Definition claimed (s : JobStatus) : bool := match s with kReady | kRunning => true | _ => false end.

(** The calls are made when an observer is armed. *)
Definition to_observer (m : Impl) (l : list DemandEvent) : list DemandEvent :=
  match armedObserver_ m with Some _ => l | None => [] end.
Definition resolved (m : Impl) (i : nat) : list DemandEvent :=
  match succs m i with [] => [] | l => [dDependenciesResolved i l] end.
Definition failure_report (m : Impl) (i : nat) (r : Outcome) : list DemandEvent :=
  match fatal_result (optional_at m i) r with Some e => [dJobFailure i e] | None => [] end.
Definition finish_report (m : Impl) (i : nat) (r : Outcome) : list DemandEvent :=
  to_observer m (dJobFinish i (statusOf r) :: resolved m i ++ failure_report m i r).

(** One step of a thread at [pc]: the state, where the thread goes, and the tasks
    handed to the executor. *)
Definition pc_step (ch : DemandChoice) (pc : Pc) (d : Demand) : option (Demand * Pc * list Pc) :=
  let m := dm_impl d in
  match pc, ch with
  | TEntry known i, DNone =>
      Some (d, match trigger_refused m known i with Some e => TReturned i (Unexpected e) | None => TRunning i end, [])
  | TRunning i, DNone => Some (d, if running_ m then TReturned i (Unexpected kBusy) else TOrphans i, [])
  | TOrphans i, DNone => Some (d, if hasOrphans m then TReturned i (Unexpected kBusy) else TLock i, [])
  | TLock i, DNone => if stopMtx_ d then None else Some (with_lock true d, TLoad i, [])
  | TLoad i, DNone =>
      if claimed (status_at m i) then Some (with_lock false d, TReturned i (Unexpected kBusy), [])
      else Some (d, TStore i, [])
  | TStore i, DNone =>
      Some (with_lock false (with_demand (store_status i kReady (renewStopState i m)) d), TDispatch i, [])
  | TDispatch i, DAccepts true => Some (d, TReturned i success, [KQueued i])
  | TDispatch i, DAccepts false => Some (d, TReject i, [])
  | TReject i, DNone =>
      Some (with_demand (store_status i kFailed m) d, TReturned i (Unexpected kJobFailed), [])
  | KQueued i, DNone =>
      Some (with_demand (store_status i kRunning m) d, KStarting i (to_observer m [dRunStart; dJobStart i]), [])
  | KStarting i (e :: l), DNone => Some (see e d, KStarting i l, [])
  | KStarting i [], DEnv e => Some (d, KBody i e, [])
  | KBody i e, DNone =>
      match nodes_ m !! i with
      | None => None
      | Some nd =>
          let d := with_demand (invoke_effect m nd e) d in
          Some (if bool_decide (ARetain ∈ (invoke m nd e).2) then with_strays (i :: strays d) d else d,
                KStore i (invoke m nd e).1, [])
      end
  | KStore i r, DNone =>
      Some (with_demand (store_status i (statusOf r) m) d, KReporting i (finish_report m i r), [])
  | KReporting i (e :: l), DNone => Some (see e d, KReporting i l, [])
  | _, _ => None
  end.

(** A thread moves, [trigger] is called, or [joinOrphans] returns. *)
Inductive DemandMove : Type :=
  | DStep (k : nat) (ch : DemandChoice) | DTrigger (known : bool) (i : nat) | DReap.

Definition demand_move (mv : DemandMove) (d : Demand) : option Demand :=
  match mv with
  | DStep k ch =>
      pc ← pcs d !! k;
      '(d, pc, spawned) ← pc_step ch pc d;
      Some (with_pcs (<[k := pc]> (pcs d) ++ spawned) d)
  | DTrigger known i =>
      if known && negb (bool_decide (i < length (nodes_ (dm_impl d)))%nat) then None
      else Some (with_pcs (pcs d ++ [TEntry known i]) d)
  | DReap => Some (with_strays [] (with_demand (joinOrphans (dm_impl d)).1 d))
  end.

Fixpoint demand_moves (l : list DemandMove) (d : Demand) : option Demand :=
  match l with [] => Some d | mv :: l => d ← demand_move mv d; demand_moves l d end.

Definition demand_start (m : Impl) : Demand := mkDemand m false [] [] [].

(** Between runs no job is claimed. *)
Definition idle (m : Impl) : Prop := forall i, claimed (status_at m i) = false.

(** ** Repeated runs *)

(** [runUntil] as a function of the runs' results: what stop_requested() says
    before each, what [onError] is given; [None] is a loop still going on. *)
Fixpoint runUntil (rounds : list (bool * Outcome)) (onError : bool) : option (list Outcome * list PipelineError) :=
  match rounds with
  | [] => None
  | (true, _) :: _ => Some ([], [])
  | (false, result) :: rest =>
      '(rs, es) ← runUntil rest onError;
      Some (result :: rs, match result with Unexpected e => if onError then e :: es else es | _ => es end)
  end.

(** ** Counting *)

Definition at_job (i j : nat) : nat := if decide (i = j) then 1 else 0.
(** Accepted, not yet started; started, result not yet stored. *)
Definition waiting (i : nat) (pc : Pc) : nat :=
  match pc with TDispatch j | TReject j | KQueued j => at_job i j | _ => 0 end.
Definition executing (i : nat) (pc : Pc) : nat :=
  match pc with KStarting j _ | KBody j _ | KStore j _ => at_job i j | _ => 0 end.
Definition in_flight (i : nat) (pc : Pc) : nat := (waiting i pc + executing i pc)%nat.
Definition holding (pc : Pc) : nat := match pc with TLoad _ | TStore _ => 1 | _ => 0 end.
Definition storing (i : nat) (pc : Pc) : nat := match pc with TStore j => at_job i j | _ => 0 end.
(** Calls that returned success, and the tasks they queued. *)
Definition accepted (i : nat) (pc : Pc) : nat :=
  match pc with TReturned j (Expected _) => at_job i j | _ => 0 end.
Definition task_of (i : nat) (pc : Pc) : nat :=
  match pc with KQueued j | KStarting j _ | KBody j _ | KStore j _ | KReporting j _ => at_job i j | _ => 0 end.
Definition refers (n : nat) (pc : Pc) : Prop :=
  match pc with
  | TEntry false _ | TReturned _ _ => True
  | TEntry true i | TRunning i | TOrphans i | TLock i | TLoad i | TStore i | TDispatch i | TReject i
  | KQueued i | KStarting i _ | KBody i _ | KStore i _ | KReporting i _ => (i < n)%nat
  end.
Definition total (f : Pc -> nat) (d : Demand) : nat := sum_list_with f (pcs d).

Record demand_inv (d : Demand) : Prop := {
  di_lock : total holding d = b2n (stopMtx_ d);
  di_waiting : forall i, total (waiting i) d = b2n (bool_decide (status_at (dm_impl d) i = kReady));
  di_executing : forall i, total (executing i) d = b2n (bool_decide (status_at (dm_impl d) i = kRunning));
  di_storing : forall i, claimed (status_at (dm_impl d) i) = true -> total (storing i) d = 0%nat;
  di_accepted : forall i, total (accepted i) d = total (task_of i) d;
  di_refers : Forall (refers (length (nodes_ (dm_impl d)))) (pcs d);
}.

(** ** The invariant is kept *)

Lemma total_step (f : Pc -> nat) k pc pc' new (l : list Pc) : l !! k = Some pc ->
  (sum_list_with f (<[k := pc']> l ++ new) + f pc = sum_list_with f l + f pc' + sum_list_with f new)%nat.
Proof. intros H. rewrite sum_list_with_app. pose proof (sum_list_insert f l k pc pc' H). lia. Qed.

Lemma total_at (f : Pc -> nat) k pc (l : list Pc) : l !! k = Some pc -> (f pc <= sum_list_with f l)%nat.
Proof. intros H. pose proof (sum_list_insert f l k pc pc H). pose proof (lookup_insert_split _ _ _ H) as (l1 & l2 & -> & _).
  rewrite sum_list_with_app. cbn. lia. Qed.

Lemma status_renew i m j : status_at (renewStopState i m) j = status_at m j.
Proof.
  unfold status_at. destruct (renewStopState_lookup i m j) as (f & -> & Hf).
  destruct (nodes_ m !! j); [apply Hf|done].
Qed.
Lemma length_renew i m : length (nodes_ (renewStopState i m)) = length (nodes_ m).
Proof. apply sg_length, renewStopState_graph. Qed.

Lemma act_nodes nd m a : nodes_ (act nd m a) = nodes_ m.
Proof. by destruct a. Qed.
Lemma invoke_effect_nodes m nd e : nodes_ (invoke_effect m nd e) = nodes_ m.
Proof.
  unfold invoke_effect. generalize (invoke m nd e).2. intros l. revert m.
  induction l as [|a l IH]; intros m; [done|]. cbn. by rewrite IH, act_nodes.
Qed.

Lemma claimed_statusOf r : claimed (statusOf r) = false.
Proof. by destruct r as [|[]]. Qed.

(** What a step says of the counts: the lock, the waiting and executing
    invocations of each job against its status, and the accepted calls. *)
Definition counts_ok (l : list Pc) (b : bool) (status : nat -> JobStatus) : Prop :=
  sum_list_with holding l = b2n b /\
  forall i, sum_list_with (waiting i) l = b2n (bool_decide (status i = kReady)) /\
    sum_list_with (executing i) l = b2n (bool_decide (status i = kRunning)) /\
    (claimed (status i) = true -> sum_list_with (storing i) l = 0%nat) /\
    sum_list_with (accepted i) l = sum_list_with (task_of i) l.

Lemma demand_inv_counts d : demand_inv d <->
  counts_ok (pcs d) (stopMtx_ d) (status_at (dm_impl d)) /\ Forall (refers (length (nodes_ (dm_impl d)))) (pcs d).
Proof.
  split.
  - intros [Hl Hw He Hs Ha Hr]. split; [|done]. split; [done|]. intros i.
    split; [apply Hw|]. split; [apply He|]. split; [apply Hs|apply Ha].
  - intros [[H1 H2] H3]. split; try done; intros i; apply (H2 i).
Qed.

(** A thread that goes from [pc] to [pc'] keeps the counts when it changes them as
    it changes the statuses. *)
Lemma counts_step (l : list Pc) k pc pc' new b b' st st' :
  l !! k = Some pc -> counts_ok l b st ->
  (holding pc + b2n b' = holding pc' + b2n b + sum_list_with holding new)%nat ->
  (forall i,
    (sum_list_with (waiting i) new + waiting i pc' + b2n (bool_decide (st i = kReady)) =
       waiting i pc + b2n (bool_decide (st' i = kReady)))%nat /\
    (sum_list_with (executing i) new + executing i pc' + b2n (bool_decide (st i = kRunning)) =
       executing i pc + b2n (bool_decide (st' i = kRunning)))%nat /\
    (sum_list_with (accepted i) new + accepted i pc' + task_of i pc =
       accepted i pc + task_of i pc' + sum_list_with (task_of i) new)%nat /\
    (claimed (st' i) = true -> sum_list_with (storing i) new = 0%nat /\
       (sum_list_with (storing i) l + storing i pc' = storing i pc)%nat)) ->
  counts_ok (<[k := pc']> l ++ new) b' st'.
Proof.
  intros Hk [Hh H] Hl Hi. split.
  { pose proof (total_step holding k pc pc' new l Hk). lia. }
  intros i. destruct (H i) as (Hw & He & Hs & Ha), (Hi i) as (Iw & Ie & Ia & Is).
  pose proof (total_step (waiting i) k pc pc' new l Hk). pose proof (total_step (executing i) k pc pc' new l Hk).
  pose proof (total_step (accepted i) k pc pc' new l Hk). pose proof (total_step (task_of i) k pc pc' new l Hk).
  pose proof (total_step (storing i) k pc pc' new l Hk).
  split; [lia|]. split; [lia|]. split; [|lia]. intros Hc. destruct (Is Hc). lia.
Qed.

(** What a thread's place says of the state. *)
Lemma place_lock l k pc b st : l !! k = Some pc -> counts_ok l b st -> holding pc = 1%nat -> b = true.
Proof. intros Hk [H _] Hp. pose proof (total_at holding k pc l Hk). destruct b; [done|]. cbn in H. lia. Qed.
Lemma place_ready l k pc b st i : l !! k = Some pc -> counts_ok l b st -> waiting i pc = 1%nat -> st i = kReady.
Proof.
  intros Hk [_ H] Hp. destruct (H i) as [E _]. pose proof (total_at (waiting i) k pc l Hk).
  case_bool_decide; [done|]. cbn in E. lia.
Qed.
Lemma place_running l k pc b st i : l !! k = Some pc -> counts_ok l b st -> executing i pc = 1%nat -> st i = kRunning.
Proof.
  intros Hk [_ H] Hp. destruct (H i) as (_ & E & _). pose proof (total_at (executing i) k pc l Hk).
  case_bool_decide; [done|]. cbn in E. lia.
Qed.
Lemma place_storing l k pc b st i : l !! k = Some pc -> counts_ok l b st -> storing i pc = 1%nat ->
  claimed (st i) = false.
Proof.
  intros Hk [_ H] Hp. destruct (H i) as (_ & _ & E & _). pose proof (total_at (storing i) k pc l Hk).
  destruct (claimed (st i)); [|done]. specialize (E eq_refl). lia.
Qed.
(** Only the holder of the lock can be storing. *)
Lemma storing_alone l k pc st i : l !! k = Some pc -> counts_ok l true st -> holding pc = 1%nat ->
  sum_list_with (storing i) l = storing i pc.
Proof.
  intros Hk [H _] Hp. destruct (lookup_insert_split _ _ _ Hk) as (l1 & l2 & -> & _).
  rewrite sum_list_with_app in *. cbn in *.
  assert (Hz : forall t, sum_list_with holding t = 0%nat -> sum_list_with (storing i) t = 0%nat).
  { induction t as [|x t IH]; [done|]. cbn. intros Hx. rewrite IH by lia. by destruct x. }
  rewrite (Hz l1), (Hz l2) by lia. lia.
Qed.

Lemma at_job_self i : at_job i i = 1%nat.
Proof. unfold at_job. by rewrite decide_True. Qed.

Lemma pc_step_pcs ch pc d d' pc' new : pc_step ch pc d = Some (d', pc', new) -> pcs d' = pcs d.
Proof. intros H. destruct pc, ch; cbn in H; repeat case_match; simplify_eq/=; done. Qed.

Lemma pc_step_length ch pc d d' pc' new : pc_step ch pc d = Some (d', pc', new) ->
  length (nodes_ (dm_impl d')) = length (nodes_ (dm_impl d)).
Proof.
  intros H. destruct pc, ch; cbn in H; repeat case_match; simplify_eq/=; try done.
  all: rewrite ?length_alter, ?length_renew, ?invoke_effect_nodes; done.
Qed.

Lemma pc_step_refers n ch pc d d' pc' new : refers n pc -> pc_step ch pc d = Some (d', pc', new) ->
  refers n pc' /\ Forall (refers n) new.
Proof.
  intros Hr H. destruct pc, ch; cbn in H; repeat case_match; simplify_eq/=; try (split; [done|by repeat constructor]).
  all: unfold trigger_refused in *; repeat case_match; simplify_eq/=; split; (done || by repeat constructor).
Qed.

Lemma status_same m m' i : nodes_ m' = nodes_ m -> status_at m' i = status_at m i.
Proof. unfold status_at. by intros ->. Qed.

(** Settles the counts of a step: [st] rewrites the statuses it leaves, [at] is
    what is known of the job it concerns. *)
Ltac counts Hk Hc :=
  eapply counts_step; [exact Hk|exact Hc|cbn; lia|];
  let x := fresh "x" in let Hst := fresh "Hst" in let Hcl := fresh "Hcl" in
  intros x; pose proof (proj1 (proj2 (proj2 (proj2 Hc x)))) as Hst;
  cbn [waiting executing storing accepted task_of sum_list_with fmap list_fmap foldr];
  rewrite ?status_store_status by (rewrite ?length_renew; assumption); rewrite ?status_renew;
  unfold at_job; try match goal with |- context [decide (x = ?a)] => destruct (decide (x = a)) end; simplify_eq/=;
  rewrite ?decide_True by done; rewrite ?decide_False by congruence;
  try match goal with E : status_at _ ?j = _ |- context [status_at _ ?j] => rewrite E in Hst |- *; cbn end;
  (split; [first [lia|reflexivity]|]; split; [first [lia|reflexivity]|]; split; [lia|];
    intros Hcl; split; [done|]; first [lia|congruence|specialize (Hst Hcl); lia]).

Lemma pc_step_counts k ch pc d d' pc' new :
  pcs d !! k = Some pc -> refers (length (nodes_ (dm_impl d))) pc ->
  counts_ok (pcs d) (stopMtx_ d) (status_at (dm_impl d)) -> pc_step ch pc d = Some (d', pc', new) ->
  counts_ok (<[k := pc']> (pcs d) ++ new) (stopMtx_ d') (status_at (dm_impl d')).
Proof.
  intros Hk Hr Hc H.
  destruct pc as [kn i|i|i|i|i|i|i|i|i r|i|i [|e l]|i e|i r|i [|e l]], ch as [|[]|?]; cbn in H; try done.
  - destruct (trigger_refused _ _ _); simplify_eq/=; counts Hk Hc.
  - destruct (running_ _); simplify_eq/=; counts Hk Hc.
  - destruct (hasOrphans _); simplify_eq/=; counts Hk Hc.
  - destruct (stopMtx_ d); simplify_eq/=. counts Hk Hc.
  - pose proof (place_lock _ _ _ _ _ Hk Hc eq_refl) as Hl. rewrite Hl in Hc.
    destruct (claimed _) eqn:E; simplify_eq/=; rewrite ?Hl; counts Hk Hc.
  - pose proof (place_lock _ _ _ _ _ Hk Hc eq_refl) as Hl. rewrite Hl in Hc.
    pose proof (place_storing _ _ _ _ _ i Hk Hc (at_job_self i)) as Hs.
    pose proof (storing_alone _ _ _ _ i Hk Hc eq_refl) as Ha. cbn in Ha. rewrite at_job_self in Ha.
    simplify_eq/=. destruct (status_at (dm_impl d) i) eqn:E; try done; counts Hk Hc.
  - simplify_eq/=; counts Hk Hc.
  - simplify_eq/=; counts Hk Hc.
  - pose proof (place_ready _ _ _ _ _ i Hk Hc (at_job_self i)) as E. simplify_eq/=; counts Hk Hc.
  - pose proof (place_ready _ _ _ _ _ i Hk Hc (at_job_self i)) as E. simplify_eq/=; counts Hk Hc.
  - simplify_eq/=; counts Hk Hc.
  - simplify_eq/=; counts Hk Hc.
  - destruct (nodes_ (dm_impl d) !! i) as [nd|] eqn:E; [|done]. simplify_eq/=.
    assert (Hsame : forall x, status_at (invoke_effect (dm_impl d) nd e) x = status_at (dm_impl d) x)
      by (intros x; apply status_same, invoke_effect_nodes).
    case_bool_decide; cbn; (eapply counts_step; [exact Hk|exact Hc|cbn; lia|]);
      intros x; rewrite Hsame; pose proof (proj1 (proj2 (proj2 (proj2 Hc x)))); cbn;
      (split; [lia|split; [lia|split; [lia|intuition lia]]]).
  - pose proof (place_running _ _ _ _ _ i Hk Hc (at_job_self i)) as E. simplify_eq/=.
    pose proof (claimed_statusOf r) as Hnot. destruct (statusOf r) eqn:Er; try done; counts Hk Hc.
  - simplify_eq/=; counts Hk Hc.
Qed.

Lemma demand_move_inv mv d d' : demand_inv d -> demand_move mv d = Some d' -> demand_inv d'.
Proof.
  rewrite !demand_inv_counts. intros [Hc Hf] H. destruct mv as [k ch|known i|]; cbn in H.
  - destruct (pcs d !! k) as [pc|] eqn:Hk; [|done]. cbn in H.
    destruct (pc_step ch pc d) as [[[d1 pc'] new]|] eqn:Hs; [|done]. simplify_eq/=.
    pose proof (Forall_lookup_1 _ _ _ _ Hf Hk) as Hr.
    rewrite (pc_step_pcs _ _ _ _ _ _ Hs). split; [by eapply pc_step_counts|].
    rewrite (pc_step_length _ _ _ _ _ _ Hs). destruct (pc_step_refers _ _ _ _ _ _ _ Hr Hs).
    apply Forall_app. split; [by apply Forall_insert|done].
  - destruct (known && _) eqn:E; [done|]. simplify_eq/=. split.
    + destruct Hc as [Hh Hi]. split; [rewrite sum_list_with_app; cbn; lia|]. intros j. destruct (Hi j) as (?&?&Hs&?).
      rewrite !sum_list_with_app. cbn. split; [lia|]. split; [lia|]. split; [|lia]. intros Hcl. rewrite (Hs Hcl). lia.
    + apply Forall_app. split; [done|]. constructor; [|done]. destruct known; [|done]. cbn in *.
      by apply negb_false_iff, bool_decide_eq_true in E.
  - simplify_eq/=. done.
Qed.

Lemma demand_moves_inv l d d' : demand_inv d -> demand_moves l d = Some d' -> demand_inv d'.
Proof.
  revert d. induction l as [|mv l IH]; intros d Hd H; cbn in H; [by simplify_eq|].
  destruct (demand_move mv d) as [d1|] eqn:E; [|done]. eapply IH; [by eapply demand_move_inv|done].
Qed.

Lemma demand_start_inv m : idle m -> demand_inv (demand_start m).
Proof.
  intros Hi. split; try done; intros i; cbn; specialize (Hi i); destruct (status_at m i); done.
Qed.

Lemma total_in_flight i d : total (in_flight i) d = (total (waiting i) d + total (executing i) d)%nat.
Proof. unfold total. induction (pcs d) as [|pc l IH]; [done|]. cbn. rewrite IH. unfold in_flight. lia. Qed.

(** What a caller gets that runs from its entry with no other step between. *)
Definition trigger_alone (m : Impl) (known : bool) (i : nat) (accepts : bool) : Outcome :=
  match trigger_refused m known i with
  | Some e => Unexpected e
  | None =>
      if running_ m || hasOrphans m || claimed (status_at m i) then Unexpected kBusy
      else if accepts then success else Unexpected kJobFailed
  end.

Definition caller_choice (accepts : bool) (pc : Pc) : DemandChoice :=
  match pc with TDispatch _ => DAccepts accepts | _ => DNone end.

(** The steps of a caller, while it has any. *)
Fixpoint run_caller (fuel : nat) (accepts : bool) (pc : Pc) (d : Demand) : option (Demand * Outcome) :=
  match pc, fuel with
  | TReturned _ r, _ => Some (d, r)
  | _, O => None
  | _, S fuel =>
      '(d, pc, new) ← pc_step (caller_choice accepts pc) pc d;
      run_caller fuel accepts pc (with_pcs (pcs d ++ new) d)
  end.

Lemma run_caller_step n accepts pc d d1 pc1 new r :
  pc_step (caller_choice accepts pc) pc d = Some (d1, pc1, new) ->
  run_caller n accepts pc1 (with_pcs (pcs d1 ++ new) d1) = r -> run_caller (S n) accepts pc d = r.
Proof. intros H <-. destruct pc; try discriminate H; cbn [run_caller]; by rewrite H. Qed.

Lemma with_pcs_nil d : with_pcs (pcs d ++ []) d = d.
Proof. destruct d. unfold with_pcs. cbn. by rewrite app_nil_r. Qed.

(** Runs a caller alone to its return. *)
Ltac caller_steps :=
  repeat (eapply run_caller_step;
    [cbn; repeat match goal with E : ?x = _ |- context [?x] => rewrite E; cbn end; reflexivity
    |rewrite ?with_pcs_nil]);
  reflexivity.

(** Alone, a call takes at most eight steps and returns as [trigger_alone] says; a
    refused or rejected one queues nothing, and a rejected one leaves the job
    failed. *)
Lemma trigger_returns d known i accepts : stopMtx_ d = false -> (known = true -> i < length (nodes_ (dm_impl d)))%nat ->
  exists d', run_caller 8 accepts (TEntry known i) d = Some (d', trigger_alone (dm_impl d) known i accepts) /\
    stopMtx_ d' = false /\
    pcs d' = pcs d ++ (if has_value (trigger_alone (dm_impl d) known i accepts) then [KQueued i] else []) /\
    status_at (dm_impl d') i =
      match trigger_alone (dm_impl d) known i accepts with
      | Expected _ => kReady
      | Unexpected kJobFailed => kFailed
      | _ => status_at (dm_impl d) i
      end.
Proof.
  intros Hm Hi. unfold trigger_alone.
  destruct (trigger_refused (dm_impl d) known i) as [e|] eqn:E.
  { eexists. split; [caller_steps|]. cbn. rewrite app_nil_r. split; [done|split; [done|]].
    unfold trigger_refused in E. repeat case_match; by simplify_eq. }
  assert (Hlt : (i < length (nodes_ (dm_impl d)))%nat)
    by (unfold trigger_refused in E; destruct known; [by apply Hi|done]).
  destruct (running_ (dm_impl d)) eqn:Er; cbn [orb].
  { eexists. split; [caller_steps|]. cbn. by rewrite app_nil_r. }
  destruct (hasOrphans (dm_impl d)) eqn:Eo; cbn [orb].
  { eexists. split; [caller_steps|]. cbn. by rewrite app_nil_r. }
  destruct (claimed (status_at (dm_impl d) i)) eqn:Ec.
  { eexists. split; [caller_steps|]. cbn. by rewrite app_nil_r. }
  destruct accepts; eexists; (split; [caller_steps|]); cbn; rewrite ?app_nil_r; (split; [done|split; [done|]]);
    rewrite status_store_status by (rewrite ?(sg_length _ _ (store_status_graph _ _ _)), ?length_renew; lia);
    by rewrite decide_True.
Qed.

(** A thread that has nothing left to do. *)
Definition at_rest (pc : Pc) : Prop := match pc with TReturned _ _ | KReporting _ [] => True | _ => False end.
Definition rest_env : Env :=
  {| stop_at_entry := true; Invoke.armed := false; stop_after_arm := false; body := fun _ => success;
     in_time := false; expired_at_end := false |}.

Lemma holding_pos (l : list Pc) : (0 < sum_list_with holding l)%nat -> exists k pc, l !! k = Some pc /\ holding pc = 1%nat.
Proof.
  induction l as [|pc l IH]; cbn; [lia|]. intros H. destruct (decide (holding pc = 1%nat)) as [Hp|Hp].
  - by exists 0%nat, pc.
  - destruct IH as (k & pc' & Hk & Hp'); [destruct pc; cbn in *; lia|]. by exists (S k), pc'.
Qed.

(** While a call or a task is unfinished, some thread can move. *)
Lemma demand_progress d k pc : demand_inv d -> pcs d !! k = Some pc -> ~ at_rest pc ->
  exists k' ch d', demand_move (DStep k' ch) d = Some d'.
Proof.
  intros Hd Hk Hn. pose proof Hd as Hd'. apply demand_inv_counts in Hd' as [[Hh _] Hf].
  assert (Hgo : forall k pc, pcs d !! k = Some pc -> (exists ch x, pc_step ch pc d = Some x) ->
    exists k' ch d', demand_move (DStep k' ch) d = Some d').
  { intros k1 pc1 H1 (ch & [[d1 pc2] new] & H2). exists k1, ch. cbn. rewrite H1. cbn. rewrite H2. by eexists. }
  pose proof (Forall_lookup_1 _ _ _ _ Hf Hk) as Hr.
  destruct (stopMtx_ d) eqn:Hm.
  - destruct (holding_pos (pcs d)) as (k1 & pc1 & H1 & Hp1); [rewrite Hh; cbn; lia|]. apply (Hgo k1 pc1 H1).
    exists DNone. destruct pc1; try done; cbn; [case_match|]; by eexists.
  - apply (Hgo k pc Hk).
    destruct pc as [kn i|i|i|i|i|i|i|i|i r|i|i [|e l]|i e|i r|i [|e l]]; try (by destruct Hn);
      try (exists DNone; cbn; rewrite ?Hm; repeat case_match; by eexists).
    + exists (DAccepts true). by eexists.
    + exists (DEnv rest_env). by eexists.
    + exists DNone. cbn. cbn in Hr. destruct (lookup_lt_is_Some_2 _ _ Hr) as [nd ->]. by eexists.
Qed.

(** [runUntil] reports exactly the failed runs, in order, when it has a callback. *)
Lemma runUntil_reports rounds onError rs es : runUntil rounds onError = Some (rs, es) ->
  es = if onError then omap (fun r => match r with Unexpected e => Some e | _ => None end) rs else [].
Proof.
  revert rs es. induction rounds as [|[[] r] rounds IH]; intros rs es H; cbn in H; [done|by simplify_eq; destruct onError|].
  destruct (runUntil rounds onError) as [[rs' es']|]; [|done]. simplify_eq/=.
  rewrite (IH rs' es' eq_refl). by destruct r, onError.
Qed.

(** ** Property *)

(** C23. However calls of trigger, the tasks they queue and joinOrphans
    interleave, a job has at most one invocation between its acceptance and the
    storing of its result: it has one exactly while its status is kReady or
    kRunning. A caller that takes the lock meanwhile is refused with kBusy, as is one
    that tests for unreaped timeout work while there is some; a caller that takes the
    lock when the job has no invocation and nothing is unreaped goes on to claim the
    job. The calls that returned success are as many as the tasks queued. *)
Theorem ondemand_single_invocation m ms d i :
  idle m -> demand_moves ms (demand_start m) = Some d ->
  total (in_flight i) d = b2n (claimed (status_at (dm_impl d) i)) /\
  (total (in_flight i) d <> 0%nat ->
     pc_step DNone (TLoad i) d = Some (with_lock false d, TReturned i (Unexpected kBusy), [])) /\
  (hasOrphans (dm_impl d) = true -> pc_step DNone (TOrphans i) d = Some (d, TReturned i (Unexpected kBusy), [])) /\
  (total (in_flight i) d = 0%nat -> hasOrphans (dm_impl d) = false ->
     pc_step DNone (TLoad i) d = Some (d, TStore i, [])) /\
  total (accepted i) d = total (task_of i) d.
Proof.
  intros Hm H. pose proof (demand_moves_inv _ _ _ (demand_start_inv _ Hm) H) as [Hl Hw He Hs Ha Hr].
  assert (Hf : total (in_flight i) d = b2n (claimed (status_at (dm_impl d) i)))
    by (rewrite total_in_flight, Hw, He; by destruct (status_at (dm_impl d) i)).
  rewrite Hf. cbn. split; [done|]. split; [by destruct (claimed _)|]. split; [by intros ->|]. split; [by destruct (claimed _)|apply Ha].
Qed.

(** ** Witness *)

Definition demand_impl : Impl :=
  match addNode (Some (IgnoringStop 0%nat)) "on_demand_" kFlagOnDemand Impl_new with
  | Return m _ => set_armed (Some 0%nat) (Some 1%nat) (alter_node (set_timeout 5) 0 m)
  | Throw m _ => m
  | Undefined => Impl_new
  end.
Lemma demand_impl_idle : idle demand_impl.
Proof. by intros [|i]. Qed.

(** The body outlives its timeout. *)
Definition late_env : Env :=
  {| stop_at_entry := false; Invoke.armed := true; stop_after_arm := false; body := fun _ => success;
     in_time := false; expired_at_end := true |}.
(** Two callers pass the busy tests; the second takes the lock while the first's
    task is queued. *)
Definition duplicate_moves : list DemandMove :=
  DTrigger true 0 :: DTrigger true 0 ::
  (flip DStep DNone <$> [0; 1; 0; 1; 0; 1; 0; 0; 0; 1]%nat) ++ [DStep 0 (DAccepts true)].
Definition duplicate_state : Demand :=
  default (demand_start demand_impl) (demand_moves duplicate_moves (demand_start demand_impl)).

Lemma ondemand_single_invocation_witness :
  idle demand_impl /\
  demand_moves duplicate_moves (demand_start demand_impl) = Some duplicate_state /\
  status_at (dm_impl duplicate_state) 0 = kReady /\
  total (in_flight 0) duplicate_state = 1%nat.
Proof.
  assert (H : demand_moves duplicate_moves (demand_start demand_impl) = Some duplicate_state) by (vm_compute; reflexivity).
  split; [exact demand_impl_idle|]. split; [exact H|]. split; [vm_compute; reflexivity|].
  destruct (ondemand_single_invocation demand_impl duplicate_moves duplicate_state 0 demand_impl_idle H) as [Hf _].
  rewrite Hf. vm_compute. reflexivity.
Defined.

(** The orphan test precedes the lock, so a caller that made it while the job was
    running is accepted after the job timed out, although its body still runs in a
    retained thread. *)
Definition stale_moves : list DemandMove :=
  DTrigger true 0 :: (flip DStep DNone <$> [0; 0; 0; 0; 0; 0]%nat) ++ [DStep 0 (DAccepts true)] ++
  (flip DStep DNone <$> [1; 1; 1]%nat) ++ [DStep 1 (DEnv late_env)] ++
  DTrigger true 0 :: (flip DStep DNone <$> [2; 2; 2; 1; 1; 2; 2; 2]%nat) ++ [DStep 2 (DAccepts true)].
Example stale_orphan_test :
  match demand_moves stale_moves (demand_start demand_impl) with
  | Some d => strays d = [0%nat] /\ pendingOrphans_ (dm_impl d) = 1 /\ total (accepted 0) d = 2%nat
  | None => False
  end.
Proof. vm_compute. repeat split; reflexivity. Qed.
