(* ===== verification/Deferred.v ===== *)
(** Deferred jobs (src/sub0pipeline.cpp: DeferredOrphans, DeferredSlot, Completion,
    and DispatchContext::startDeferred, deliverDeferred, finishDeferred): the
    ownership of completion handles, and the protocol by which the body, the
    Completion and the stop source finish one run of one deferred job. *)
From S2P Require Import Prelude Types.

(** ** Completion handles

    A handle holds a slot or nothing; [handles] are the live handles by address.
    An operation returns the signals it sends. *)
Abbreviation Completion := (option nat).
Definition Signal : Type := nat * Outcome * string.

Definition abandon (slot_ : Completion) : list Signal :=
  match slot_ with Some s => [(s, Unexpected kJobFailed, "completion abandoned"%string)] | None => [] end.
Definition complete (slot_ : Completion) (result : Outcome) (message : string) : Completion * list Signal :=
  match slot_ with Some held => (None, [(held, result, message)]) | None => (None, []) end.
Definition succeed (slot_ : Completion) : Completion * list Signal := complete slot_ success "".
Definition fail (slot_ : Completion) (error : PipelineError) (message : string) : Completion * list Signal :=
  complete slot_ (Unexpected error) message.

Inductive HandleCall : Set :=
  | HMoveConstruct (h other : nat) | HMoveAssign (h other : nat) | HDestroy (h : nat)
  | HSucceed (h : nat) | HFail (h : nat) (e : PipelineError) (message : string)
  | HComplete (h : nat) (r : Outcome) (message : string).

(** The handles after a call, with what it signals; [None]: a handle that does
    not exist, or a construction in storage that is in use. *)
Definition handle_call (c : HandleCall) (hs : gmap nat Completion) : option (gmap nat Completion * list Signal) :=
  match c with
  | HMoveConstruct h o =>
      match hs !! o, hs !! h with
      | Some held, None => Some (<[h := held]> (<[o := None]> hs), [])
      | _, _ => None
      end
  | HMoveAssign h o =>
      match hs !! h, hs !! o with
      | Some mine, Some held =>
          if decide (h = o) then Some (hs, [])
          else Some (<[h := held]> (<[o := None]> hs), abandon mine)
      | _, _ => None
      end
  | HDestroy h => held ← hs !! h; Some (delete h hs, abandon held)
  | HSucceed h => held ← hs !! h; let '(s, l) := succeed held in Some (<[h := s]> hs, l)
  | HFail h e t => held ← hs !! h; let '(s, l) := fail held e t in Some (<[h := s]> hs, l)
  | HComplete h r t => held ← hs !! h; let '(s, l) := complete held r t in Some (<[h := s]> hs, l)
  end.

Fixpoint handle_calls (cs : list HandleCall) (hs : gmap nat Completion) : option (gmap nat Completion * list Signal) :=
  match cs with
  | [] => Some (hs, [])
  | c :: cs =>
      '(hs, l) ← handle_call c hs;
      '(hs, l') ← handle_calls cs hs;
      Some (hs, l ++ l')
  end.

(** ** One run of a deferred job *)

Inductive Winner : Set := kNone | kSignalled | kStopped.
Definition kReleased : Z := 0x01.
Definition kOrphaned : Z := 0x02.

Record DeferredSlot := {
  outcome : Winner;
  parties : Z;
  handleFlags : Z;
  result : Outcome;
  message : string;
  deadline : option bool;       (* the registration, and whether it has expired *)
  registered : bool;            (* stopCallback is engaged *)
}.

(** deliverDeferred, by the party that arrives last. *)
Inductive Deliver : Set :=
  | DEnter                      (* before ++deferredInFlight, or the inline push *)
  | DDispatch                   (* before executor.dispatch *)
  | DCall                       (* inside finishDeferred after a rejection *)
  | DLeave.                     (* before --deferredInFlight *)

(** Where startDeferred, the holder of the Completion, the stop callback and the
    finisher are. *)
Inductive Starter : Set :=
  | SCount | SRegister | SBody | SCheck | SAwait | SObserve | SArrive | SDone.
Inductive Holder : Set :=
  | HNone | HHeld | HResult (v : Outcome) (text : string) | HArrive | HDeliver (d : Deliver) | HWon
  | HLate | HRelease | HReleased | HDropped.
Inductive Stopper : Set :=
  | TIdle | TResult | TArrive | TDeliver (d : Deliver) | TWon | TLost.
Inductive Finisher : Set :=
  | FRegistrations (releaseRegistrations : bool) | FOutcome | FLock | FCas | FCount
  | FFinish | FLeave | FEnd.

#[export] Instance Winner_eq_dec : EqDecision Winner.
Proof. solve_decision. Defined.
#[export] Instance Finisher_eq_dec : EqDecision Finisher.
Proof. solve_decision. Defined.

Record SlotRun := {
  slot : DeferredSlot;
  inline : bool;                (* the run calls jobs itself (inlineReady) *)
  deferredInFlight : Z;
  orphans : Z;                  (* DeferredOrphans::count *)
  orphan_mtx : bool;            (* DeferredOrphans::mtx is held *)
  starter : Starter; holder : Holder; stopper : Stopper;
  finishers : list Finisher;
  awaited : bool;               (* kAwaiting was stored *)
  finished : list (Outcome * string);
  (* ghost: what the handle was completed with, and the shares of the other
     deferred jobs in deferredInFlight and in the ledger *)
  sent : option (Outcome * string);
  others : Z * Z;
}.

(** The reset at the start of a run; [timed]: a deadline was armed. *)
Definition reset_slot (timed : bool) : DeferredSlot := {|
  outcome := kNone; parties := 2; handleFlags := 0; result := success; message := "";
  deadline := if timed then Some false else None; registered := false |}.
Definition start_run (inl timed : bool) (elsewhere : Z * Z) : SlotRun := {|
  slot := reset_slot timed; inline := inl; deferredInFlight := elsewhere.1; orphans := elsewhere.2;
  orphan_mtx := false; starter := SCount; holder := HNone; stopper := TIdle; finishers := [];
  awaited := false; finished := []; sent := None; others := elsewhere |}.

Definition set_slot (x : DeferredSlot) (d : SlotRun) : SlotRun := {|
  slot := x; inline := inline d; deferredInFlight := deferredInFlight d; orphans := orphans d;
  orphan_mtx := orphan_mtx d; starter := starter d; holder := holder d; stopper := stopper d;
  finishers := finishers d; awaited := awaited d; finished := finished d; sent := sent d; others := others d |}.
Definition set_ledger (n : Z) (held : bool) (d : SlotRun) : SlotRun := {|
  slot := slot d; inline := inline d; deferredInFlight := deferredInFlight d; orphans := n;
  orphan_mtx := held; starter := starter d; holder := holder d; stopper := stopper d;
  finishers := finishers d; awaited := awaited d; finished := finished d; sent := sent d; others := others d |}.
Definition in_flight (n : Z) (d : SlotRun) : SlotRun := {|
  slot := slot d; inline := inline d; deferredInFlight := u32 (deferredInFlight d + n); orphans := orphans d;
  orphan_mtx := orphan_mtx d; starter := starter d; holder := holder d; stopper := stopper d;
  finishers := finishers d; awaited := awaited d; finished := finished d; sent := sent d; others := others d |}.
Definition at_starter (x : Starter) (d : SlotRun) : SlotRun := {|
  slot := slot d; inline := inline d; deferredInFlight := deferredInFlight d; orphans := orphans d;
  orphan_mtx := orphan_mtx d; starter := x; holder := holder d; stopper := stopper d;
  finishers := finishers d; awaited := awaited d; finished := finished d; sent := sent d; others := others d |}.
Definition at_holder (x : Holder) (d : SlotRun) : SlotRun := {|
  slot := slot d; inline := inline d; deferredInFlight := deferredInFlight d; orphans := orphans d;
  orphan_mtx := orphan_mtx d; starter := starter d; holder := x; stopper := stopper d;
  finishers := finishers d; awaited := awaited d; finished := finished d; sent := sent d; others := others d |}.
Definition at_stopper (x : Stopper) (d : SlotRun) : SlotRun := {|
  slot := slot d; inline := inline d; deferredInFlight := deferredInFlight d; orphans := orphans d;
  orphan_mtx := orphan_mtx d; starter := starter d; holder := holder d; stopper := x;
  finishers := finishers d; awaited := awaited d; finished := finished d; sent := sent d; others := others d |}.
Definition with_finishers (x : list Finisher) (d : SlotRun) : SlotRun := {|
  slot := slot d; inline := inline d; deferredInFlight := deferredInFlight d; orphans := orphans d;
  orphan_mtx := orphan_mtx d; starter := starter d; holder := holder d; stopper := stopper d;
  finishers := x; awaited := awaited d; finished := finished d; sent := sent d; others := others d |}.
Definition set_awaited (d : SlotRun) : SlotRun := {|
  slot := slot d; inline := inline d; deferredInFlight := deferredInFlight d; orphans := orphans d;
  orphan_mtx := orphan_mtx d; starter := starter d; holder := holder d; stopper := stopper d;
  finishers := finishers d; awaited := true; finished := finished d; sent := sent d; others := others d |}.
Definition set_sent (v : Outcome) (t : string) (d : SlotRun) : SlotRun := {|
  slot := slot d; inline := inline d; deferredInFlight := deferredInFlight d; orphans := orphans d;
  orphan_mtx := orphan_mtx d; starter := starter d; holder := holder d; stopper := stopper d;
  finishers := finishers d; awaited := awaited d; finished := finished d; sent := Some (v, t); others := others d |}.
Definition finish_job (d : SlotRun) : SlotRun := {|
  slot := slot d; inline := inline d; deferredInFlight := deferredInFlight d; orphans := orphans d;
  orphan_mtx := orphan_mtx d; starter := starter d; holder := holder d; stopper := stopper d;
  finishers := finishers d; awaited := awaited d;
  finished := finished d ++ [(result (slot d), message (slot d))]; sent := sent d; others := others d |}.

Definition set_others (f o : Z) (d : SlotRun) : SlotRun := {|
  slot := slot d; inline := inline d; deferredInFlight := u32 (deferredInFlight d + (f - (others d).1));
  orphans := u64 (orphans d + (o - (others d).2));
  orphan_mtx := orphan_mtx d; starter := starter d; holder := holder d; stopper := stopper d;
  finishers := finishers d; awaited := awaited d; finished := finished d; sent := sent d; others := (f, o) |}.

Definition set_outcome (w : Winner) (x : DeferredSlot) : DeferredSlot := {|
  outcome := w; parties := parties x; handleFlags := handleFlags x; result := result x;
  message := message x; deadline := deadline x; registered := registered x |}.
Definition set_parties (z : Z) (x : DeferredSlot) : DeferredSlot := {|
  outcome := outcome x; parties := z; handleFlags := handleFlags x; result := result x;
  message := message x; deadline := deadline x; registered := registered x |}.
Definition set_handleFlags (z : Z) (x : DeferredSlot) : DeferredSlot := {|
  outcome := outcome x; parties := parties x; handleFlags := z; result := result x;
  message := message x; deadline := deadline x; registered := registered x |}.
Definition set_result (r : Outcome) (t : string) (x : DeferredSlot) : DeferredSlot := {|
  outcome := outcome x; parties := parties x; handleFlags := handleFlags x; result := r;
  message := t; deadline := deadline x; registered := registered x |}.
Definition set_deadline (e : option bool) (x : DeferredSlot) : DeferredSlot := {|
  outcome := outcome x; parties := parties x; handleFlags := handleFlags x; result := result x;
  message := message x; deadline := e; registered := registered x |}.
Definition set_registered (b : bool) (x : DeferredSlot) : DeferredSlot := {|
  outcome := outcome x; parties := parties x; handleFlags := handleFlags x; result := result x;
  message := message x; deadline := deadline x; registered := b |}.

Definition expired (x : DeferredSlot) : bool := default false (deadline x).

(** [outcome.compare_exchange_strong(none, w)]. *)
Definition win (w : Winner) (x : DeferredSlot) : option DeferredSlot :=
  match outcome x with kNone => Some (set_outcome w x) | _ => None end.

(** The stores of [signal] and of [stop] after a win. *)
Definition signal_result (v : Outcome) (text : string) (x : DeferredSlot) : DeferredSlot :=
  set_result (if expired x then Unexpected kTimeout else v)
    (if negb (has_value v) && negb (bool_decide (text = ""%string)) then text else message x) x.
Definition stop_result (x : DeferredSlot) : DeferredSlot :=
  set_result (Unexpected (if expired x then kTimeout else kCancelledError)) (message x) x.

(** [parties.fetch_sub(1) == 1]: whether this arrival is the last. *)
Definition arrive (x : DeferredSlot) : DeferredSlot * bool :=
  (set_parties (u8 (parties x - 1)) x, parties x =? 1).

(** Steps of deliverDeferred; [None]: the caller's part is over. *)
Definition deliver_step (dl : Deliver) (accepted : bool) (d : SlotRun) : option (SlotRun * option Deliver) :=
  match dl with
  | DEnter =>
      if inline d then Some (with_finishers (finishers d ++ [FRegistrations true]) d, None)
      else Some (in_flight 1 d, Some DDispatch)
  | DDispatch =>
      if accepted then Some (with_finishers (finishers d ++ [FRegistrations true]) d, Some DLeave)
      else Some (with_finishers (finishers d ++ [FRegistrations false]) d, Some DCall)
  | DCall => if bool_decide (Forall (fun f => f = FEnd) (finishers d)) then Some (d, Some DLeave) else None
  | DLeave => Some (in_flight (-1) d, None)
  end.

Definition starter_step (d : SlotRun) : option SlotRun :=
  match starter d with
  | SCount => Some (at_starter SRegister (in_flight 1 d))
  | SRegister => Some (at_starter SBody (set_slot (set_registered true (slot d)) d))
  | SBody => Some (at_starter SCheck d)
  | SCheck => Some (at_starter (match outcome (slot d) with kNone => SAwait | _ => SArrive end) d)
  | SAwait => Some (at_starter SObserve (set_awaited d))
  | SObserve => Some (at_starter SArrive d)
  | SArrive =>
      let '(x, last) := arrive (slot d) in
      let d := at_starter SDone (set_slot x d) in
      Some (if last then with_finishers (finishers d ++ [FRegistrations true]) d else d)
  | SDone => None
  end.

(** The holder after it has begun to signal. *)
Definition holder_step (accepted : bool) (d : SlotRun) : option SlotRun :=
  match holder d with
  | HResult v text => Some (at_holder HArrive (set_slot (signal_result v text (slot d)) d))
  | HArrive =>
      let '(x, last) := arrive (slot d) in
      Some (at_holder (if last then HDeliver DEnter else HWon) (set_slot x d))
  | HDeliver dl =>
      '(d, next) ← deliver_step dl accepted d;
      Some (at_holder (match next with Some dl => HDeliver dl | None => HWon end) d)
  | HLate =>
      (* handleFlags.fetch_or(kReleased) & kOrphaned *)
      let flags := handleFlags (slot d) in
      Some (at_holder (if Z.land flags kOrphaned =? 0 then HDropped else HRelease)
              (set_slot (set_handleFlags (Z.lor flags kReleased) (slot d)) d))
  | HRelease =>
      if orphan_mtx d then None else Some (at_holder HReleased (set_ledger (u64 (orphans d - 1)) false d))
  | _ => None
  end.

(** [signal(value, text)] begins: the race for the outcome. *)
Definition signal (v : Outcome) (text : string) (d : SlotRun) : option SlotRun :=
  match holder d with
  | HHeld =>
      Some (set_sent v text (match win kSignalled (slot d) with
                             | Some x => at_holder (HResult v text) (set_slot x d)
                             | None => at_holder HLate d
                             end))
  | _ => None
  end.

(** [stop()], the registered callback, which runs at most once. *)
Definition stop (d : SlotRun) : option SlotRun :=
  match stopper d with
  | TIdle =>
      if registered (slot d) then
        Some (match win kStopped (slot d) with
              | Some x => at_stopper TResult (set_slot x d)
              | None => at_stopper TLost d
              end)
      else None
  | _ => None
  end.
Definition stopper_step (accepted : bool) (d : SlotRun) : option SlotRun :=
  match stopper d with
  | TResult => Some (at_stopper TArrive (set_slot (stop_result (slot d)) d))
  | TArrive =>
      let '(x, last) := arrive (slot d) in
      Some (at_stopper (if last then TDeliver DEnter else TWon) (set_slot x d))
  | TDeliver dl =>
      '(d, next) ← deliver_step dl accepted d;
      Some (at_stopper (match next with Some dl => TDeliver dl | None => TWon end) d)
  | _ => None
  end.

(** [stopCallback.reset()] waits for a callback in progress. *)
Definition callback_running (t : Stopper) : bool :=
  match t with TResult | TArrive | TDeliver _ => true | _ => false end.

Definition finisher_step (f : Finisher) (d : SlotRun) : option (SlotRun * Finisher) :=
  match f with
  | FRegistrations true =>
      if callback_running (stopper d) then None
      else Some (set_slot (set_registered false (slot d)) d, FOutcome)
  | FRegistrations false => Some (d, FOutcome)
  | FOutcome => Some (d, match outcome (slot d) with kStopped => FLock | _ => FFinish end)
  | FLock => if orphan_mtx d then None else Some (set_ledger (orphans d) true d, FCas)
  | FCas =>
      let flags := handleFlags (slot d) in
      if Z.land flags kReleased =? 0
      then Some (set_slot (set_handleFlags (Z.lor flags kOrphaned) (slot d)) d, FCount)
      else Some (set_ledger (orphans d) false d, FFinish)
  | FCount => Some (set_ledger (u64 (orphans d + 1)) false d, FFinish)
  | FFinish => Some (finish_job d, FLeave)
  | FLeave => Some (in_flight (-1) d, FEnd)
  | FEnd => None
  end.

(** The shares of up to 65536 jobs, two in-flight counts each. *)
Definition share (z : Z) : bool := (0 <=? z) && (z <=? 2 ^ 17).

(** A move of one of the parties. The body hands the Completion out while it
    runs; the deadline may expire at any time; other jobs change the counters,
    the ledger's only under its lock. *)
Inductive Move : Set :=
  | MStarter | MHandOut | MSignal (v : Outcome) (text : string) | MHolder (accepted : bool)
  | MExpire | MStop | MStopper (accepted : bool) | MFinisher (k : nat)
  | MOthers (f o : Z).

Definition move (mv : Move) (d : SlotRun) : option SlotRun :=
  match mv with
  | MStarter =>
      (* the body returns having handed its Completion on *)
      match starter d, holder d with SBody, HNone => None | _, _ => starter_step d end
  | MHandOut =>
      match starter d, holder d with SBody, HNone => Some (at_holder HHeld d) | _, _ => None end
  | MSignal v text => signal v text d
  | MHolder a => holder_step a d
  | MExpire =>
      match deadline (slot d) with
      | Some _ => Some (set_slot (set_deadline (Some true) (slot d)) d)
      | None => None
      end
  | MStop => stop d
  | MStopper a => stopper_step a d
  | MFinisher k =>
      f ← finishers d !! k;
      '(d, f) ← finisher_step f d;
      Some (with_finishers (<[k := f]> (finishers d)) d)
  | MOthers f o =>
      if share f && share o && negb (orphan_mtx d) then Some (set_others f o d) else None
  end.

Fixpoint moves (l : list Move) (d : SlotRun) : option SlotRun :=
  match l with [] => Some d | mv :: l => d ← move mv d; moves l d end.

(** ** A job is signalled once *)

Definition here (s : nat) (x : Completion) : nat := if decide (x = Some s) then 1 else 0.
Definition holds (s : nat) (hs : gmap nat Completion) : nat := size (filter (fun kv => kv.2 = Some s) hs).
Definition signals (s : nat) (l : list Signal) : nat := length (filter (fun g => g.1.1 = s) l).

Lemma here_None s : here s None = 0%nat.
Proof. unfold here. by case_decide. Qed.

Lemma holds_insert_fresh s hs h x :
  hs !! h = None -> holds s (<[h := x]> hs) = (holds s hs + here s x)%nat.
Proof.
  intros Hh. unfold holds, here. rewrite map_filter_insert. cbn.
  repeat case_decide; try congruence.
  - rewrite map_size_insert_None; [lia|]. by apply map_lookup_filter_None_2; left.
  - rewrite delete_id by done. lia.
Qed.

Lemma holds_delete s hs h x :
  hs !! h = Some x -> (holds s (delete h hs) + here s x = holds s hs)%nat.
Proof.
  intros Hh. rewrite <- (insert_delete_id hs h x Hh) at 2.
  by rewrite holds_insert_fresh by apply lookup_delete_eq.
Qed.

Lemma holds_insert s hs h x y :
  hs !! h = Some x -> (holds s (<[h := y]> hs) + here s x = holds s hs + here s y)%nat.
Proof.
  intros Hh. rewrite <- (insert_delete_eq hs h y).
  rewrite holds_insert_fresh by apply lookup_delete_eq. rewrite <- (holds_delete s hs h x Hh). lia.
Qed.

Lemma signals_app s l k : signals s (l ++ k) = (signals s l + signals s k)%nat.
Proof. unfold signals. by rewrite filter_app, length_app. Qed.

Lemma abandon_signals s x : signals s (abandon x) = here s x.
Proof.
  destruct x as [t|]; [|done]. unfold signals, here, abandon. rewrite filter_cons.
  repeat case_decide; cbn in *; congruence.
Qed.

Lemma complete_signals s x r t :
  (signals s (complete x r t).2 + here s (complete x r t).1 = here s x)%nat.
Proof.
  destruct x as [u|]; [|done]. unfold signals, here, complete. cbn [fst snd]. rewrite filter_cons.
  repeat case_decide; cbn in *; congruence.
Qed.

Lemma completes_balance s hs h r t hs' l :
  (held ← hs !! h; let '(x, k) := complete held r t in Some (<[h := x]> hs, k)) = Some (hs', l) ->
  (holds s hs' + signals s l = holds s hs)%nat.
Proof.
  destruct (hs !! h) as [x|] eqn:Hh; cbn; [|done].
  pose proof (complete_signals s x r t) as H. destruct (complete x r t) as [y k].
  intros [= <- <-]. cbn [fst snd] in H. pose proof (holds_insert s hs h x y Hh). lia.
Qed.

Lemma handle_call_balance s c hs hs' l :
  handle_call c hs = Some (hs', l) -> (holds s hs' + signals s l = holds s hs)%nat.
Proof.
  destruct c as [h o|h o|h|h|h e t|h r t]; cbn.
  - destruct (hs !! o) as [held|] eqn:Ho, (hs !! h) eqn:Hh; try done. intros [= <- <-].
    assert (h <> o) by congruence.
    rewrite holds_insert_fresh by (by rewrite lookup_insert_ne by done).
    pose proof (holds_insert s hs o held None Ho) as H0. rewrite here_None in H0.
    change (signals s []) with 0%nat. lia.
  - destruct (hs !! h) as [mine|] eqn:Hh, (hs !! o) as [held|] eqn:Ho; try done. case_decide as Heq.
    + intros [= <- <-]. unfold signals. cbn. lia.
    + intros [= <- <-]. rewrite abandon_signals.
      pose proof (holds_insert s hs o held None Ho) as H1.
      pose proof (holds_insert s (<[o := None]> hs) h mine held) as H2.
      rewrite lookup_insert_ne in H2 by done. specialize (H2 Hh). rewrite here_None in H1. lia.
  - destruct (hs !! h) as [x|] eqn:Hh; cbn; [|done]. intros [= <- <-].
    rewrite abandon_signals. exact (holds_delete s hs h x Hh).
  - apply completes_balance.
  - apply completes_balance.
  - apply completes_balance.
Qed.

Lemma handle_calls_balance s cs hs hs' l :
  handle_calls cs hs = Some (hs', l) -> (holds s hs' + signals s l = holds s hs)%nat.
Proof.
  revert hs hs' l. induction cs as [|c cs IH]; cbn; intros hs hs' l.
  - intros [= <- <-]. unfold signals. cbn. lia.
  - destruct (handle_call c hs) as [[hs1 l1]|] eqn:Hc; cbn; [|done].
    destruct (handle_calls cs hs1) as [[hs2 l2]|] eqn:Hcs; cbn; [|done]. intros [= <- <-].
    rewrite signals_app. apply (handle_call_balance s) in Hc. apply IH in Hcs. lia.
Qed.
