(* ===== verification/DeferredInv.v ===== *)
(** The invariant of the deferred-slot protocol (Deferred.v): how many arrivals
    are still to come, which party won the outcome, what the finisher may do,
    and the slot's shares of the in-flight count and of the orphan ledger. *)
From S2P Require Import Prelude Types Deferred.

(** ** The protocol invariant *)

Definition b2z (b : bool) : Z := if b then 1 else 0.

(** Arrivals still to come. *)
Definition starter_owes (x : Starter) : Z := match x with SDone => 0 | _ => 1 end.
Definition winner_owes (w : Winner) (h : Holder) (t : Stopper) : Z :=
  match w with
  | kNone => 1
  | kSignalled => match h with HResult _ _ | HArrive => 1 | _ => 0 end
  | kStopped => match t with TResult | TArrive => 1 | _ => 0 end
  end.

(** A deliverer that has not yet handed the finish on; one counted in flight. *)
Definition handing (d : Deliver) : Z := match d with DEnter | DDispatch => 1 | _ => 0 end.
Definition entered (d : Deliver) : Z := match d with DEnter => 0 | _ => 1 end.
Definition of_holder (f : Deliver -> Z) (x : Holder) : Z := match x with HDeliver dl => f dl | _ => 0 end.
Definition of_stopper (f : Deliver -> Z) (x : Stopper) : Z := match x with TDeliver dl => f dl | _ => 0 end.

(** Which party won the outcome, and which lost. *)
Definition holder_won (x : Holder) : bool :=
  match x with HResult _ _ | HArrive | HDeliver _ | HWon => true | _ => false end.
Definition holder_lost (x : Holder) : bool :=
  match x with HLate | HRelease | HReleased | HDropped => true | _ => false end.
Definition stopper_won (x : Stopper) : bool :=
  match x with TResult | TArrive | TDeliver _ | TWon => true | _ => false end.

(** The finisher, when the finish has been handed on. *)
Definition fin (d : SlotRun) : option Finisher := head (finishers d).

Definition counting (f : option Finisher) : bool := match f with Some FCount => true | _ => false end.
Definition ended (f : option Finisher) : bool := match f with Some FEnd => true | _ => false end.

(** The slot's share of the ledger. *)
Definition orphan_share (flags : Z) (f : option Finisher) (h : Holder) : Z :=
  b2z (Z.testbit flags 1) - b2z (counting f) - b2z (match h with HReleased => true | _ => false end).
Definition flight_share (x : Starter) (f : option Finisher) (h : Holder) (t : Stopper) : Z :=
  b2z (match x with SCount => false | _ => true end) - b2z (ended f)
  + of_holder entered h + of_stopper entered t.

Definition outcome_of (v : Outcome) (text : string) (r : Outcome) (t : string) (late : bool) : Prop :=
  (r = v \/ r = Unexpected kTimeout /\ late = true) /\
  t = (if negb (has_value v) then text else ""%string).

Definition before_body (x : Starter) : bool := match x with SCount | SRegister => true | _ => false end.
Definition may_hold_back (x : Starter) : bool := match x with SCount | SRegister | SBody => true | _ => false end.
Definition has_released (x : Holder) : bool :=
  match x with HRelease | HReleased | HDropped => true | _ => false end.
(** Past the orphan decision; past the finish. *)
Definition decided (f : option Finisher) : bool := match f with Some (FFinish | FLeave | FEnd) => true | _ => false end.
Definition past_finish (f : option Finisher) : bool := match f with Some (FLeave | FEnd) => true | _ => false end.
Definition in_ledger (f : option Finisher) : bool := match f with Some (FCas | FCount) => true | _ => false end.
Definition orphaning (f : option Finisher) : bool := match f with Some (FLock | FCas | FCount) => true | _ => false end.

Definition winner_ok (w : Winner) (h : Holder) (t : Stopper) : Prop :=
  match w with
  | kNone => holder_won h = false /\ holder_lost h = false /\ t = TIdle
  | kSignalled => holder_won h = true /\ stopper_won t = false
  | kStopped => holder_won h = false /\ stopper_won t = true
  end.
Definition sent_ok (h : Holder) (x : option (Outcome * string)) : Prop :=
  match h with
  | HNone | HHeld => x = None
  | HResult v t => x = Some (v, t)
  | _ => exists v t, x = Some (v, t)
  end.

Record slot_inv (d : SlotRun) : Prop := {
  i_one : (length (finishers d) <= 1)%nat;
  i_parties : parties (slot d) = starter_owes (starter d) + winner_owes (outcome (slot d)) (holder d) (stopper d);
  i_handed : Z.of_nat (length (finishers d)) + of_holder handing (holder d)
             + of_stopper handing (stopper d) = b2z (parties (slot d) =? 0);
  i_winner : winner_ok (outcome (slot d)) (holder d) (stopper d);
  i_early : before_body (starter d) = true ->
            holder d = HNone /\ stopper d = TIdle /\ registered (slot d) = false /\ awaited d = false;
  i_holder : holder d = HNone -> may_hold_back (starter d) = true;
  i_flags : 0 <= handleFlags (slot d) <= 3;
  i_released : Z.testbit (handleFlags (slot d)) 0 = has_released (holder d);
  i_orphaned : Z.testbit (handleFlags (slot d)) 1 = true ->
               (decided (fin d) = true \/ fin d = Some FCount) /\ outcome (slot d) = kStopped
               /\ holder d <> HNone /\ holder d <> HDropped;
  i_releasing : holder d = HRelease \/ holder d = HReleased -> Z.testbit (handleFlags (slot d)) 1 = true;
  i_counting : fin d = Some FCount -> Z.testbit (handleFlags (slot d)) 1 = true /\ holder d <> HReleased;
  i_kept : decided (fin d) = true -> outcome (slot d) = kStopped ->
           Z.testbit (handleFlags (slot d)) 1 = true \/ holder d = HDropped;
  i_orphaning : orphaning (fin d) = true -> outcome (slot d) = kStopped;
  i_lock : orphan_mtx d = in_ledger (fin d);
  i_shares : share (others d).1 = true /\ share (others d).2 = true;
  i_ledger : orphans d = (others d).2 + orphan_share (handleFlags (slot d)) (fin d) (holder d);
  i_flight : deferredInFlight d = (others d).1 + flight_share (starter d) (fin d) (holder d) (stopper d);
  i_callback : registered (slot d) = false -> callback_running (stopper d) = false;
  i_call : holder d = HDeliver DCall \/ stopper d = TDeliver DCall ->
           exists f, fin d = Some f /\ f <> FRegistrations true;
  i_finished : finished d = if past_finish (fin d) then [(result (slot d), message (slot d))] else [];
  i_sent : sent_ok (holder d) (sent d);
  i_message : winner_owes (outcome (slot d)) (holder d) (stopper d) = 1 /\ holder d <> HArrive \/ outcome (slot d) <> kSignalled ->
              message (slot d) = ""%string;
  i_signalled : outcome (slot d) = kSignalled -> (forall v t, holder d <> HResult v t) ->
                exists v t, sent d = Some (v, t) /\ outcome_of v t (result (slot d)) (message (slot d)) (expired (slot d));
  i_stopped : outcome (slot d) = kStopped -> stopper d <> TResult ->
              result (slot d) = Unexpected kTimeout /\ expired (slot d) = true
              \/ result (slot d) = Unexpected kCancelledError;
}.

Lemma start_slot_inv inl timed f o :
  share f = true -> share o = true -> slot_inv (start_run inl timed (f, o)).
Proof. intros Hf Ho. split; cbn; unfold orphan_share, flight_share; cbn; try done; try lia; naive_solver. Qed.

#[local] Arguments Z.testbit : simpl never.
#[local] Arguments Z.lor : simpl never.
#[local] Arguments Z.land : simpl never.
#[local] Arguments u32 : simpl never.
#[local] Arguments u64 : simpl never.
#[local] Arguments u8 : simpl never.
#[local] Arguments share : simpl never.

#[local] Arguments winner_owes : simpl never.
#[local] Arguments orphan_share : simpl never.
#[local] Arguments flight_share : simpl never.
#[local] Arguments winner_ok : simpl never.
#[local] Arguments sent_ok : simpl never.

Lemma share_range z : share z = true -> 0 <= z <= 2 ^ 17.
Proof. unfold share. intros [? ?]%andb_prop. lia. Qed.
Lemma b2z_range b : 0 <= b2z b <= 1.
Proof. destruct b; cbn; lia. Qed.
Lemma entered_range h t : 0 <= of_holder entered h <= 1 /\ 0 <= of_stopper entered t <= 1.
Proof. destruct h as [| | | |[]| | | | |], t as [| | |[]| |]; cbn; lia. Qed.
Lemma handing_range h t : 0 <= of_holder handing h <= 1 /\ 0 <= of_stopper handing t <= 1.
Proof. destruct h as [| | | |[]| | | | |], t as [| | |[]| |]; cbn; lia. Qed.
Lemma not_handed (fs : list Finisher) h t p :
  Z.of_nat (length fs) + of_holder handing h + of_stopper handing t = b2z (p =? 0) -> 0 < p ->
  fs = [] /\ of_holder handing h = 0 /\ of_stopper handing t = 0.
Proof.
  intros H Hp. rewrite (proj2 (Z.eqb_neq p 0)) in H by lia. cbn in H.
  pose proof (handing_range h t). destruct fs; cbn in H; [split; [done|lia]|lia].
Qed.
Lemma winner_owes_range w h t : 0 <= winner_owes w h t <= 1.
Proof. unfold winner_owes. destruct w, h, t; lia. Qed.
Lemma starter_owes_range x : 0 <= starter_owes x <= 1.
Proof. destruct x; cbn; lia. Qed.
Lemma flight_share_range x f h t : x <> SCount -> 0 <= flight_share x f h t <= 3.
Proof.
  intros Hx. unfold flight_share. pose proof (b2z_range (ended f)). pose proof (entered_range h t).
  destruct x; cbn; try done; lia.
Qed.

(** The parts of a state that satisfies the invariant. *)
Ltac open_inv d I :=
  destruct I; destruct d as [[outcome0 parties0 handleFlags0 result0 message0 deadline0 registered0]
    inline0 deferredInFlight0 orphans0 orphan_mtx0 starter0 holder0 stopper0 fs awaited0 finished0 sent0 [z z0]]; unfold fin in *; cbn in *.
Ltac close_inv := split; unfold fin; cbn; try assumption; try done; try tauto.

(** Counters updated modulo their width, in range. *)
Lemma flight_step z x f h t x' f' h' t' k :
  share z = true -> x' <> SCount ->
  flight_share x f h t + k = flight_share x' f' h' t' ->
  u32 (z + flight_share x f h t + k) = z + flight_share x' f' h' t'.
Proof.
  intros Hz%share_range Hx H. pose proof (flight_share_range x' f' h' t' Hx).
  rewrite <- Z.add_assoc, H. apply u32_small. unfold is_u32. lia.
Qed.
Ltac flight := solve [apply flight_step; [tauto|first [discriminate | assumption]|unfold flight_share; cbn; lia]].

Ltac slot_facts :=
  repeat match goal with
  | H : _ /\ _ |- _ => destruct H
  | H : exists _, _ |- _ => destruct H
  | H : ?x = ?x -> _ |- _ => specialize (H eq_refl)
  | H : ?P -> _, H' : ?P |- _ => specialize (H H')
  end; simplify_eq/=; repeat split; try done; try congruence; eauto.
Ltac slot_tac :=
  unfold winner_ok, sent_ok, winner_owes, outcome_of in *; cbn in *; intros; slot_facts;
  repeat match goal with H : _ \/ _ |- _ => destruct H end; slot_facts.

Lemma starter_step_inv d d' :
  slot_inv d -> move MStarter d = Some d' -> slot_inv d'.
Proof.
  intros I H. open_inv d I. destruct starter0; cbn in H.
  - (* SCount *) simplify_eq/=. close_inv. flight.
  - (* SRegister *) simplify_eq/=. close_inv.
  - (* SBody *) destruct holder0; simplify_eq/=; close_inv.
  - (* SCheck *) destruct outcome0; simplify_eq/=; close_inv.
  - (* SAwait *) simplify_eq/=. close_inv.
  - (* SObserve *) simplify_eq/=. close_inv.
  - (* SArrive *) subst parties0.
    pose proof (winner_owes_range outcome0 holder0 stopper0) as Hw.
    assert (0 < 1 + winner_owes outcome0 holder0 stopper0) as Hp by lia.
    destruct (not_handed _ _ _ _ i_handed0 Hp) as (-> & Hh & Ht). cbn in *.
    assert (winner_owes outcome0 holder0 stopper0 = 1 \/ winner_owes outcome0 holder0 stopper0 = 0)
      as [Ho|Ho] by lia; rewrite Ho in *; simplify_eq/=; close_inv.
    + change (u8 (1 + 0 - 1)) with 0. cbn. lia.
    + intros [[|] _]%i_orphaned0; congruence.
    + by intros (? & ? & _)%i_call0.
    + by rewrite Ho.
  - done.
Qed.

Lemma won_by_stop w h t : winner_ok w h t -> stopper_won t = true -> w = kStopped.
Proof. unfold winner_ok. destruct w; intros H Ht; [|by destruct H; congruence|done]. by destruct H as (_ & _ & ->). Qed.
Lemma won_by_holder w h t : winner_ok w h t -> holder_won h = true -> w = kSignalled.
Proof. unfold winner_ok. destruct w; intros H Hh; [|done|]; destruct H; congruence. Qed.
Lemma lost_by_holder w h t : winner_ok w h t -> holder_lost h = true -> w = kStopped.
Proof. unfold winner_ok. destruct w; intros H Hh; [|destruct H, h; done|done]. destruct H as (_ & H & _). congruence. Qed.

Lemma handing_alone (fs : list Finisher) x y c :
  Z.of_nat (length fs) + x + y = b2z c -> 1 <= x + y -> fs = [].
Proof. intros H Hx. pose proof (b2z_range c). destruct fs; cbn in *; [done|lia]. Qed.

(** The ledger updated under its lock. *)
Lemma ledger_step z x f h x' f' h' k :
  share z = true -> orphan_share x f h + k = orphan_share x' f' h' ->
  0 <= orphan_share x' f' h' <= 1 ->
  u64 (z + orphan_share x f h + k) = z + orphan_share x' f' h'.
Proof.
  intros Hz%share_range H Hr. rewrite <- Z.add_assoc, H. apply u64_small. unfold is_u64. lia.
Qed.
Ltac ledger := solve [apply ledger_step; [tauto| |]; unfold orphan_share; simplify_eq/=;
  repeat match goal with E : _ = true |- _ => rewrite E | E : _ = false |- _ => rewrite E end; cbn; lia].

Lemma u8_back x : 0 <= x <= 1 -> u8 (x + 1 - 1) = x.
Proof. intros. rewrite u8_small; unfold is_u8; lia. Qed.

(** Nothing is handed on before both parties have arrived. *)
Lemma unarrived d :
  slot_inv d -> 0 < starter_owes (starter d) + winner_owes (outcome (slot d)) (holder d) (stopper d) ->
  finishers d = [] /\ of_holder handing (holder d) = 0 /\ of_stopper handing (stopper d) = 0.
Proof.
  intros I H. pose proof (i_parties d I) as Hp. rewrite <- Hp in H.
  exact (not_handed _ _ _ _ (i_handed d I) H).
Qed.

Lemma hand_out_inv d d' : slot_inv d -> move MHandOut d = Some d' -> slot_inv d'.
Proof.
  intros I H. open_inv d I. destruct starter0; try done. destruct holder0; try done.
  simplify_eq/=. close_inv. all: slot_tac.
Qed.

Lemma signal_inv d d' v text : slot_inv d -> move (MSignal v text) d = Some d' -> slot_inv d'.
Proof.
  intros I H. open_inv d I. unfold signal, win in H. cbn in H. destruct holder0; try done.
  destruct outcome0; simplify_eq/=; close_inv. all: slot_tac.
Qed.

Lemma expire_inv d d' : slot_inv d -> move MExpire d = Some d' -> slot_inv d'.
Proof.
  intros I H. open_inv d I. destruct deadline0; simplify_eq/=; close_inv. all: slot_tac.
  all: do 2 eexists; repeat split; eauto.
Qed.

Lemma stop_inv d d' : slot_inv d -> move MStop d = Some d' -> slot_inv d'.
Proof.
  intros I H. pose proof (unarrived d I) as Hnone.
  open_inv d I. unfold stop, win in H. cbn in H. destruct stopper0; try done.
  destruct registered0; try done. pose proof (starter_owes_range starter0).
  destruct outcome0; simplify_eq/=; close_inv. all: slot_tac.
  all: destruct Hnone as [-> _]; [lia|done].
Qed.

Lemma stopper_inv d d' a : slot_inv d -> move (MStopper a) d = Some d' -> slot_inv d'.
Proof.
  intros I H. pose proof (unarrived d I) as Hnone.
  open_inv d I. pose proof (won_by_stop _ _ _ i_winner0) as Hw. pose proof (starter_owes_range starter0).
  unfold stopper_step in H. cbn in H. destruct stopper0 as [| | |dl| |]; try done; specialize (Hw eq_refl); subst.
  - destruct Hnone as [-> _]; [unfold winner_owes; cbn; lia|]. simplify_eq/=. close_inv. all: slot_tac.
    unfold stop_result, expired. cbn. destruct deadline0 as [[]|]; cbn; eauto.
  - cbn in *. destruct Hnone as (-> & Hh & _); [unfold winner_owes; cbn; lia|].
    change (winner_owes kStopped holder0 TArrive) with 1 in *.
    assert (starter_owes starter0 = 0 \/ starter_owes starter0 = 1) as [Ho|Ho] by lia; rewrite Ho in *.
    all: simplify_eq/=; close_inv; rewrite ?Ho, ?u8_back by lia; try done.
    all: slot_tac. cbn. lia.
  - assert (handing dl = 1 -> fs = []) as Hfs.
    { intros Hd. apply (handing_alone _ _ _ _ i_handed0).
      pose proof (handing_range holder0 TIdle). cbn in *. lia. }
    assert (starter0 <> SCount) as Hx by (intros ->; destruct (i_early0 eq_refl) as (_ & ? & _); done).
    destruct dl; cbn in H.
    + destruct inline0; simplify_eq/=; rewrite ?(Hfs eq_refl) in *.
      * close_inv; slot_tac. all: cbn in *; lia. 
      * close_inv; first [flight|slot_tac].
    + rewrite (Hfs eq_refl) in *. destruct a; simplify_eq/=; close_inv; first [flight|slot_tac]. all: cbn in *; lia.
    + case_bool_decide; simplify_eq/=. close_inv; first [flight|slot_tac].
    + simplify_eq/=. close_inv; first [flight|slot_tac].
Qed.

Lemma flags_cases x : 0 <= x <= 3 -> x = 0 \/ x = 1 \/ x = 2 \/ x = 3.
Proof. lia. Qed.

Lemma holder_inv d d' a : slot_inv d -> move (MHolder a) d = Some d' -> slot_inv d'.
Proof.
  intros I H. pose proof (unarrived d I) as Hnone.
  open_inv d I. pose proof (won_by_holder _ _ _ i_winner0) as Hw.
  pose proof (lost_by_holder _ _ _ i_winner0) as Hl. pose proof (starter_owes_range starter0).
  unfold holder_step in H. cbn in H.
  destruct holder0 as [| |v text| |dl| | | | |]; try done; try specialize (Hw eq_refl);
    try specialize (Hl eq_refl); subst.
  - destruct Hnone as [-> _]; [unfold winner_owes; cbn; lia|]. simplify_eq/=. close_inv. all: slot_tac.
    exists v, text. rewrite i_message0 by (left; done).
    destruct v, deadline0 as [[]|]; cbn; repeat split; eauto; by case_bool_decide; subst.
  - destruct Hnone as (-> & _ & Ht); [unfold winner_owes; cbn; lia|].
    change (winner_owes kSignalled HArrive stopper0) with 1 in *. cbn in *.
    assert (starter_owes starter0 = 0 \/ starter_owes starter0 = 1) as [Ho|Ho] by lia; rewrite Ho in *.
    all: simplify_eq/=; close_inv; rewrite ?Ho, ?u8_back by lia; try done.
    all: slot_tac. cbn. lia.
  - assert (handing dl = 1 -> fs = []) as Hfs.
    { intros Hd. apply (handing_alone _ _ _ _ i_handed0).
      pose proof (handing_range HNone stopper0). cbn in *. lia. }
    assert (starter0 <> SCount) as Hx by (intros ->; destruct (i_early0 eq_refl) as (? & _); done).
    destruct dl; cbn in H.
    + destruct inline0; simplify_eq/=; rewrite ?(Hfs eq_refl) in *.
      * close_inv; slot_tac. all: cbn in *; lia.
      * close_inv; first [flight|slot_tac].
    + rewrite (Hfs eq_refl) in *. destruct a; simplify_eq/=; close_inv; first [flight|slot_tac]. all: cbn in *; lia.
    + case_bool_decide; simplify_eq/=. close_inv; first [flight|slot_tac].
    + simplify_eq/=. close_inv; first [flight|slot_tac].
  - assert (handleFlags0 = 0 \/ handleFlags0 = 2) as [-> | ->].
    { destruct (flags_cases _ i_flags0) as [-> | [-> | [-> | ->]]]; auto; by cbv in i_released0. }
    all: vm_compute (Z.land _ _ =? 0) in H; simplify_eq/=; close_inv; slot_tac.
  - destruct (in_ledger (head fs)) eqn:Hl'; [done|]. simplify_eq/=.
    pose proof (i_releasing0 (or_introl eq_refl)) as Hb.
    assert (counting (head fs) = false) as Hc by (destruct (head fs) as [[]|]; done).
    close_inv; try ledger; slot_tac; by match goal with E : _ = Some FCount |- _ => rewrite E in Hc end.
Qed.

Ltac flag_bits :=
  change (Z.testbit 0 0) with false in *; change (Z.testbit 0 1) with false in *;
  change (Z.testbit 1 0) with true in *; change (Z.testbit 1 1) with false in *;
  change (Z.testbit 2 0) with false in *; change (Z.testbit 2 1) with true in *;
  change (Z.testbit 3 0) with true in *; change (Z.testbit 3 1) with true in *.

(** When the finish has been handed on, both parties have arrived. *)
Lemma arrived d :
  slot_inv d -> finishers d <> [] ->
  starter d = SDone /\ winner_owes (outcome (slot d)) (holder d) (stopper d) = 0 /\ holder d <> HNone.
Proof.
  intros I H. pose proof (starter_owes_range (starter d)) as Hs.
  pose proof (winner_owes_range (outcome (slot d)) (holder d) (stopper d)) as Hw.
  pose proof (unarrived d I) as Hu.
  destruct (decide (starter_owes (starter d) + winner_owes (outcome (slot d)) (holder d) (stopper d) = 0)) as [Hz|Hz].
  - assert (starter d = SDone) as Hd by (destruct (starter d); cbn in *; try lia; done).
    split; [done|]. split; [lia|]. intros Hh. by pose proof (i_holder d I Hh); rewrite Hd in *.
  - destruct Hu as [Hf _]; [lia|done].
Qed.

Lemma finisher_inv d d' k : slot_inv d -> move (MFinisher k) d = Some d' -> slot_inv d'.
Proof.
  intros I H. pose proof (arrived d I) as Harr.
  open_inv d I. destruct fs as [|f [|]]; cbn in *; [done| |lia].
  destruct (Harr ltac:(done)) as (-> & Hw & Hh). clear Harr.
  destruct k; [|done]. cbn in H. destruct f as [b| | | | | | |]; cbn in H; try done.
  - destruct b.
    + destruct (callback_running stopper0) eqn:Hc; [done|]. simplify_eq/=. close_inv; slot_tac.
    + simplify_eq/=. close_inv; slot_tac.
  - destruct outcome0; simplify_eq/=; close_inv; slot_tac.
  - subst. cbn in H. simplify_eq/=. close_inv; slot_tac.
  - destruct (flags_cases _ i_flags0) as [-> | [-> | [-> | ->]]];
      vm_compute (Z.land _ _ =? 0) in H; flag_bits; simplify_eq/=.
    + change (Z.lor 0 kOrphaned) with 2. close_inv; flag_bits; slot_tac; by intros ->.
    + destruct holder0; try done. all: close_inv; flag_bits; slot_tac.
    + destruct (i_orphaned0 eq_refl) as [[|] _]; done.
    + destruct (i_orphaned0 eq_refl) as [[|] _]; done.
  - destruct (i_counting0 eq_refl) as [Hb Hr].
    assert (match holder0 with HReleased => true | _ => false end = false) as Hm by (destruct holder0; done).
    simplify_eq/=. close_inv; try ledger; slot_tac.
  - simplify_eq/=. close_inv; slot_tac.
  - simplify_eq/=. close_inv; try flight; slot_tac.
Qed.

(** The slot's shares of the counters are small and not negative. *)
Lemma shares_range d :
  slot_inv d ->
  0 <= orphan_share (handleFlags (slot d)) (fin d) (holder d) <= 1 /\
  0 <= flight_share (starter d) (fin d) (holder d) (stopper d) <= 3.
Proof.
  intros I. split.
  - pose proof (i_counting d I) as Hc. pose proof (i_releasing d I) as Hr. unfold orphan_share.
    destruct (Z.testbit (handleFlags (slot d)) 1).
    + destruct (fin d) as [[]|]; cbn; try (destruct (holder d); cbn; lia).
      destruct (Hc eq_refl) as [_ Hh]. destruct (holder d); cbn; try lia. done.
    + assert (counting (fin d) = false) as -> by (destruct (fin d) as [[]|]; try done; by destruct (Hc eq_refl)).
      destruct (holder d); cbn; try lia. by specialize (Hr (or_intror eq_refl)).
  - assert (starter d = SCount \/ starter d <> SCount) as [Hs|Hs] by (destruct (starter d); auto);
      [|by apply flight_share_range].
    destruct (i_early d I) as (Hh & Ht & _); [by rewrite Hs|].
    assert (finishers d = []) as Hf.
    { destruct (finishers d) eqn:Hf; [done|]. destruct (arrived d I) as (Ha & _); [by rewrite Hf|]. congruence. }
    unfold fin, flight_share. rewrite Hs, Hh, Ht, Hf. cbn. lia.
Qed.

Lemma others_inv d d' f o : slot_inv d -> move (MOthers f o) d = Some d' -> slot_inv d'.
Proof.
  intros I H. destruct (shares_range d I) as [Hr1 Hr2].
  open_inv d I. destruct (share f) eqn:Hf, (share o) eqn:Ho; try done. cbn in H.
  apply share_range in Hf as Hf', Ho as Ho'.
  destruct orphan_mtx0; simplify_eq/=. close_inv.
  - rewrite u64_small; [lia|]. unfold is_u64. lia.
  - rewrite u32_small; [lia|]. unfold is_u32. lia.
Qed.

Lemma move_inv mv d d' : slot_inv d -> move mv d = Some d' -> slot_inv d'.
Proof.
  intros I. destruct mv; [apply starter_step_inv|apply hand_out_inv|apply signal_inv|apply holder_inv
    |apply expire_inv|apply stop_inv|apply stopper_inv|apply finisher_inv|apply others_inv]; done.
Qed.

Lemma moves_inv l d d' : slot_inv d -> moves l d = Some d' -> slot_inv d'.
Proof.
  revert d. induction l as [|mv l IH]; cbn; intros d I H; [by simplify_eq|].
  destruct (move mv d) as [d1|] eqn:Hm; [|done]. exact (IH d1 (move_inv _ _ _ I Hm) H).
Qed.

(** The states a run of a deferred job can reach. *)
Definition slot_reachable (inl timed : bool) (d : SlotRun) : Prop :=
  exists f o l, share f = true /\ share o = true /\ moves l (start_run inl timed (f, o)) = Some d.

Lemma slot_reachable_inv inl timed d : slot_reachable inl timed d -> slot_inv d.
Proof. intros (f & o & l & Hf & Ho & H). exact (moves_inv _ _ _ (start_slot_inv inl timed f o Hf Ho) H). Qed.
