(* ===== verification/DeferredCorrect.v ===== *)
(** What the deferred-slot protocol (Deferred.v) guarantees: a job finishes
    exactly once, with the result of whichever of the Completion and the stop
    came first; no party is left stuck; the orphan ledger counts exactly the
    Completions that outlive their job, and once it is settled the next run may
    reset the slot. *)
From S2P Require Import Prelude Types Deferred DeferredInv.

#[local] Arguments Z.testbit : simpl never.

(** ** Progress *)

(** The moves the library and the body make on their own, with an executor that
    accepts. *)
Definition internal : list Move := [MStarter; MHandOut; MHolder true; MStopper true; MFinisher 0].
Definition stuck (d : SlotRun) : Prop := forall mv, mv ∈ internal -> move mv d = None.

(** Where each party is when nothing can move. *)
Record settled (d : SlotRun) : Prop := {
  settled_starter : starter d = SDone;
  settled_holder : match holder d with HHeld | HWon | HReleased | HDropped => True | _ => False end;
  settled_stopper : match stopper d with TIdle | TWon | TLost => True | _ => False end;
  settled_finisher : finishers d = [] \/ finishers d = [FEnd];
}.

Lemma stuck_starter d : stuck d -> starter d = SDone.
Proof.
  intros H. pose proof (H MStarter ltac:(set_solver)) as H1. pose proof (H MHandOut ltac:(set_solver)) as H2.
  cbn in H1, H2. unfold starter_step in H1.
  destruct (starter d); try done; destruct (holder d); done.
Qed.

Lemma stuck_finisher d :
  slot_inv d -> stuck d -> fin d = None \/ fin d = Some FEnd \/
  fin d = Some (FRegistrations true) /\ callback_running (stopper d) = true.
Proof.
  intros I H. pose proof (H (MFinisher 0) ltac:(set_solver)) as Hf. cbn in Hf.
  pose proof (i_lock d I) as Hl. unfold fin in *. destruct (finishers d) as [|f fs]; [by left|]. right.
  cbn in *. destruct f as [[]| | | | | | |]; cbn in Hf; try done; auto.
  - destruct (callback_running (stopper d)); [auto|done].
  - rewrite Hl in Hf. done.
  - by destruct (Z.land (handleFlags (slot d)) kReleased =? 0).
Qed.

Lemma stuck_deliver d dl :
  slot_inv d -> stuck d -> deliver_step dl true d = None ->
  dl = DCall /\ fin d = Some (FRegistrations true).
Proof.
  intros I H Hd. pose proof (i_one d I). destruct (stuck_finisher d I H) as [Hf|[Hf|[Hf _]]]; unfold fin in *.
  all: destruct dl; cbn in Hd; try (by destruct (inline d)); try done.
  - destruct (finishers d); [|done]. by rewrite bool_decide_true in Hd by constructor.
  - destruct (finishers d) as [|f [|]]; try done; [|cbn in *; lia]. cbn in Hf. simplify_eq.
Qed.

Lemma stuck_settled d : slot_inv d -> stuck d -> settled d.
Proof.
  intros I H. pose proof (stuck_starter d H) as Hs.
  assert (forall dl, deliver_step dl true d = None -> holder d = HDeliver DCall \/ stopper d = TDeliver DCall -> False) as Hcall.
  { intros dl Hd Hc. destruct (stuck_deliver d dl I H Hd) as [_ Hf].
    destruct (i_call d I Hc) as (f & Hf' & Hne). congruence. }
  assert (match stopper d with TIdle | TWon | TLost => True | _ => False end) as Ht.
  { pose proof (H (MStopper true) ltac:(set_solver)) as Hm. cbn in Hm. unfold stopper_step in Hm.
    destruct (stopper d) as [| | |dl| |] eqn:Hst; try done.
    destruct (deliver_step dl true d) as [[]|] eqn:Hd; [done|].
    destruct (stuck_deliver d dl I H Hd) as [-> _]. apply (Hcall _ Hd). by right. }
  assert (finishers d = [] \/ finishers d = [FEnd]) as Hf.
  { pose proof (i_one d I). destruct (stuck_finisher d I H) as [Hf|[Hf|[_ Hf]]]; unfold fin in *.
    - left. by destruct (finishers d).
    - right. destruct (finishers d) as [|f [|]]; cbn in *; [done|by simplify_eq|lia].
    - by destruct (stopper d). }
  split; try done.
  pose proof (H (MHolder true) ltac:(set_solver)) as Hm. cbn in Hm. unfold holder_step in Hm.
  destruct (holder d) as [| |v t| |dl| | | | |] eqn:Hh; try done.
  - pose proof (i_holder d I Hh) as Hb. by rewrite Hs in Hb.
  - destruct (deliver_step dl true d) as [[]|] eqn:Hd; [done|].
    destruct (stuck_deliver d dl I H Hd) as [-> _]. apply (Hcall _ Hd). by left.
  - rewrite (i_lock d I) in Hm. unfold fin in Hm. by destruct Hf as [Hf|Hf]; rewrite Hf in Hm.
Qed.

Lemma settled_finished d :
  slot_inv d -> settled d -> outcome (slot d) <> kNone -> fin d = Some FEnd.
Proof.
  intros I [Hs Hh Ht Hf] Hw. pose proof (i_handed d I) as Hd. pose proof (i_parties d I) as Hp.
  pose proof (i_winner d I) as Hok. unfold fin.
  assert (winner_owes (outcome (slot d)) (holder d) (stopper d) = 0) as Ho.
  { unfold winner_ok, winner_owes in *. destruct (outcome (slot d)); [done| |].
    - destruct Hok. by destruct (holder d).
    - destruct Hok. by destruct (stopper d). }
  rewrite Hp, Ho, Hs in Hd. change (b2z (starter_owes SDone + 0 =? 0)) with 1 in Hd.
  destruct Hf as [Hf|Hf]; rewrite Hf in *; [|done].
  by destruct (holder d), (stopper d).
Qed.

(** Every move but an expiry and the other jobs' moves brings some party forward. *)
Definition starter_left (x : Starter) : nat :=
  match x with
  | SCount => 17 | SRegister => 16 | SBody => 15 | SCheck => 14 | SAwait => 13 | SObserve => 12
  | SArrive => 11 | SDone => 0
  end.
Definition deliver_left (dl : Deliver) : nat :=
  match dl with DEnter => 13 | DDispatch => 12 | DCall => 2 | DLeave => 1 end.
Definition holder_left (x : Holder) : nat :=
  match x with
  | HNone => 18 | HHeld => 17 | HResult _ _ => 16 | HArrive => 15 | HDeliver dl => deliver_left dl
  | HLate => 3 | HRelease => 2 | HWon | HReleased | HDropped => 0
  end.
Definition stopper_left (x : Stopper) : nat :=
  match x with
  | TIdle => 17 | TResult => 16 | TArrive => 15 | TDeliver dl => deliver_left dl | TWon | TLost => 0
  end.
Definition finisher_left (f : Finisher) : nat :=
  match f with
  | FRegistrations _ => 8 | FOutcome => 7 | FLock => 6 | FCas => 5 | FCount => 4 | FFinish => 3
  | FLeave => 2 | FEnd => 0
  end.
Definition moves_left (d : SlotRun) : nat :=
  (starter_left (starter d) + holder_left (holder d) + stopper_left (stopper d)
   + sum_list_with finisher_left (finishers d))%nat.

Definition brings_forward (mv : Move) : bool :=
  match mv with MExpire | MOthers _ _ => false | _ => true end.

Lemma deliver_left_decrease dl a d d' next :
  deliver_step dl a d = Some (d', next) ->
  (moves_left d' + match next with Some dl' => deliver_left dl' | None => 0 end
   < moves_left d + deliver_left dl)%nat /\
  starter d' = starter d /\ holder d' = holder d /\ stopper d' = stopper d.
Proof.
  unfold moves_left.
  destruct dl; cbn; intros H; [destruct (inline d)|destruct a|case_bool_decide|]; simplify_eq/=;
    rewrite ?sum_list_with_app; cbn; repeat split; lia.
Qed.

Lemma moves_left_decrease mv d d' :
  brings_forward mv = true -> move mv d = Some d' -> (moves_left d' < moves_left d)%nat.
Proof.
  destruct mv as [| |v t|a| | |a|k|]; cbn; try done; intros _ H.
  - assert (starter_step d = Some d') as H' by (by destruct (starter d), (holder d)). clear H.
    unfold starter_step, arrive in H'. unfold moves_left.
    destruct (starter d); simplify_eq/=; try lia.
    + destruct (outcome (slot d)); cbn; lia.
    + case_match; cbn; rewrite ?sum_list_with_app; cbn; lia.
  - destruct (starter d) eqn:Hs, (holder d) eqn:Hh; simplify_eq/=. unfold moves_left. cbn. rewrite Hs, Hh. cbn. lia.
  - unfold signal in H. destruct (holder d) eqn:Hh; simplify_eq/=. unfold moves_left.
    destruct (win kSignalled (slot d)); cbn; rewrite Hh; cbn; lia.
  - unfold holder_step, arrive in H. destruct (holder d) as [| |v t| |dl| | | | |] eqn:Hh; simplify_eq/=.
    + unfold moves_left. cbn. rewrite Hh. cbn. lia.
    + unfold moves_left. cbn. rewrite Hh. case_match; cbn; lia.
    + destruct (deliver_step dl a d) as [[d1 next]|] eqn:Hd; [|done]. simplify_eq/=.
      apply deliver_left_decrease in Hd as (Hlt & Hst & Hho & Hsp). unfold moves_left in *.
      rewrite Hst, Hho, Hsp, Hh in Hlt. destruct next; cbn in *; rewrite ?Hst, ?Hho, ?Hsp, ?Hh; cbn; lia.
    + unfold moves_left. cbn. rewrite Hh. case_match; cbn; lia.
    + destruct (orphan_mtx d); simplify_eq. unfold moves_left. cbn. rewrite Hh. cbn. lia.
  - unfold stop in H. destruct (stopper d) eqn:Hh; try done. destruct (registered (slot d)); simplify_eq.
    unfold moves_left. destruct (win kStopped (slot d)); cbn; rewrite Hh; cbn; lia.
  - unfold stopper_step, arrive in H. destruct (stopper d) as [| | |dl| |] eqn:Hh; simplify_eq/=.
    + unfold moves_left. cbn. rewrite Hh. cbn. lia.
    + unfold moves_left. cbn. rewrite Hh. case_match; cbn; lia.
    + destruct (deliver_step dl a d) as [[d1 next]|] eqn:Hd; [|done]. simplify_eq/=.
      apply deliver_left_decrease in Hd as (Hlt & Hst & Hho & Hsp). unfold moves_left in *.
      rewrite Hst, Hho, Hsp, Hh in Hlt. destruct next; cbn in *; rewrite ?Hst, ?Hho, ?Hsp, ?Hh; cbn; lia.
  - destruct (finishers d !! k) as [f|] eqn:Hk; [|done]. cbn in H.
    destruct (finisher_step f d) as [[d1 f']|] eqn:Hf; [|done]. simplify_eq/=.
    assert (starter d1 = starter d /\ holder d1 = holder d /\ stopper d1 = stopper d
            /\ finishers d1 = finishers d /\ (finisher_left f' < finisher_left f)%nat) as (E1 & E2 & E3 & E4 & Hlt).
    { destruct f as [[]| | | | | | |]; cbn in Hf; repeat case_match; simplify_eq/=; repeat split; lia. }
    unfold moves_left. cbn. rewrite E1, E2, E3, E4.
    pose proof (sum_list_insert finisher_left _ _ _ f' Hk). lia.
Qed.

(** ** The end of a job *)

Lemma orphans_at_end d :
  slot_inv d -> fin d = Some FEnd ->
  orphans d - (others d).2 =
    match outcome (slot d), holder d with
    | kStopped, (HHeld | HLate | HRelease) => 1
    | _, _ => 0
    end.
Proof.
  intros I Hf. rewrite (i_ledger d I), Hf. unfold orphan_share. cbn.
  pose proof (i_kept d I) as Hk. pose proof (i_orphaned d I) as Ho.
  pose proof (i_releasing d I) as Hr. pose proof (i_winner d I) as Hw. unfold winner_ok in Hw.
  pose proof (arrived d I) as Ha. rewrite Hf in Hk, Ho.
  destruct Ha as (_ & Hz & Hnone); [by intros E; unfold fin in Hf; rewrite E in Hf|].
  destruct (Z.testbit (handleFlags (slot d)) 1).
  - destruct (Ho eq_refl) as (_ & E & _ & Hd). rewrite E in *.
    destruct (holder d); cbn; try lia; try done; by destruct Hw.
  - destruct (outcome (slot d)) eqn:E.
    + by cbn in Hz.
    + destruct Hw as [Hw _]. destruct (holder d); cbn in *; try done; lia.
    + destruct (Hk eq_refl eq_refl) as [|E']; [done|]. rewrite E'. cbn. lia.
Qed.

(** A party whose slot is finished, out of flight and off the ledger is done. *)
Lemma quiet_parties d :
  slot_inv d -> starter d = SDone -> deferredInFlight d = (others d).1 -> orphans d = (others d).2 ->
  fin d = Some FEnd /\
  match holder d with HWon | HReleased | HDropped => True | _ => False end /\
  match stopper d with TIdle | TWon | TLost => True | _ => False end.
Proof.
  intros I Hs Hfl Hor. pose proof (i_flight d I) as Hf. unfold flight_share in Hf. rewrite Hs in Hf.
  pose proof (entered_range (holder d) (stopper d)) as He. cbn in Hf.
  assert (fin d = Some FEnd) as Hend by (destruct (fin d) as [[]|]; cbn in Hf; try lia; done).
  rewrite Hend in Hf. cbn in Hf. split; [done|].
  pose proof (orphans_at_end d I Hend) as Ho. rewrite Hor, Z.sub_diag in Ho.
  assert (finishers d <> []) as Hne by (intros E; unfold fin in Hend; by rewrite E in Hend).
  destruct (arrived d I Hne) as (_ & Hw & Hh).
  assert (of_holder handing (holder d) = 0 /\ of_stopper handing (stopper d) = 0) as [Hd1 Hd2].
  { pose proof (i_handed d I) as Hd. pose proof (b2z_range (parties (slot d) =? 0)).
    pose proof (handing_range (holder d) (stopper d)). destruct (finishers d); cbn in *; [done|lia]. }
  pose proof (i_winner d I) as Hok. unfold winner_ok, winner_owes in *.
  destruct (outcome (slot d)); [done| |]; destruct Hok as [Hok1 Hok2].
  - split; [destruct (holder d) as [| | | |[]| | | | |]; cbn in *; try done; lia|].
    by destruct (stopper d).
  - split; [by destruct (holder d)|].
    destruct (stopper d) as [| | |[]| |]; cbn in *; try done; lia.
Qed.

(** ** Who wrote the result, and when *)

Definition later (d d' : SlotRun) : Prop := exists l, moves l d = Some d'.
Lemma moves_app l k d : moves (l ++ k) d = (d ← moves l d; moves k d).
Proof. revert d. induction l as [|mv l IH]; intros d; [done|]. cbn. destruct (move mv d); [apply IH|done]. Qed.

(** A move leaves the result to whoever has won, or is the winner's store. *)
Definition leaves_result (d d' : SlotRun) : Prop :=
  result (slot d') = result (slot d) /\ message (slot d') = message (slot d) /\
  (outcome (slot d') = outcome (slot d) \/
   outcome (slot d') = kStopped /\ stopper d' = TResult \/
   outcome (slot d') = kSignalled /\ exists v text, holder d' = HResult v text) /\
  (stopper d = TResult -> stopper d' = TResult) /\
  (forall v text, holder d = HResult v text -> holder d' = HResult v text).
Definition signal_stores (d d' : SlotRun) : Prop :=
  exists v text, holder d = HResult v text /\ holder d' = HArrive /\ slot d' = signal_result v text (slot d).
Definition stop_stores (d d' : SlotRun) : Prop := stopper d = TResult /\ stopper d' = TArrive /\ slot d' = stop_result (slot d).

Lemma deliver_leaves dl a d d' next : deliver_step dl a d = Some (d', next) ->
  slot d' = slot d /\ holder d' = holder d /\ stopper d' = stopper d.
Proof. destruct dl; cbn; intros H; [destruct (inline d)|destruct a|case_bool_decide|]; by simplify_eq/=. Qed.

Lemma move_result mv d d' : move mv d = Some d' -> leaves_result d d' \/ signal_stores d d' \/ stop_stores d d'.
Proof.
  unfold leaves_result. destruct mv as [| |v t|a| | |a|k|f o]; cbn [move]; intros H.
  - left. assert (starter_step d = Some d') as H' by (by destruct (starter d), (holder d)). clear H.
    unfold starter_step in H'. destruct (starter d); simplify_eq/=; try (by split_and!; auto).
    case_match; by split_and!; auto.
  - left. destruct (starter d), (holder d) eqn:Hh; simplify_eq/=. by split_and!; auto.
  - left. unfold signal in H. destruct (holder d) eqn:Hh; simplify_eq/=.
    unfold win. destruct (outcome (slot d)) eqn:Ho; cbn; rewrite ?Ho; split_and!; try done; auto.
    right. right. split; [done|]. by exists v, t.
  - unfold holder_step in H. destruct (holder d) as [| |v t| |dl| | | | |] eqn:Hh; simplify_eq/=; try (left; by split_and!; auto).
    + right. left. by exists v, t.
    + destruct (deliver_step dl a d) as [[d1 next]|] eqn:Hd; [|done]. simplify_eq/=.
      apply deliver_leaves in Hd as (E1 & E2 & E3). left. rewrite E1, E3. by split_and!; auto.
    + left. destruct (orphan_mtx d); simplify_eq/=. by split_and!; auto.
  - left. destruct (deadline (slot d)); simplify_eq/=. by split_and!; auto.
  - left. unfold stop in H. destruct (stopper d) eqn:Ht; try done. destruct (registered (slot d)); simplify_eq/=.
    unfold win. destruct (outcome (slot d)) eqn:Ho; cbn; rewrite ?Ho; by split_and!; auto.
  - unfold stopper_step in H. destruct (stopper d) as [| | |dl| |] eqn:Ht; simplify_eq/=.
    + right. right. by split.
    + left. by split_and!; auto.
    + destruct (deliver_step dl a d) as [[d1 next]|] eqn:Hd; [|done]. simplify_eq/=.
      apply deliver_leaves in Hd as (E1 & E2 & E3). left. rewrite E1, E2. by split_and!; auto.
  - left. destruct (finishers d !! k) as [f|]; [|done]. cbn in H.
    destruct (finisher_step f d) as [[d1 f']|] eqn:Hf; [|done]. simplify_eq/=.
    destruct f as [[]| | | | | | |]; cbn in Hf; repeat case_match; simplify_eq/=; by split_and!; auto.
  - left. destruct (share f && share o && negb (orphan_mtx d)); simplify_eq/=. by split_and!; auto.
Qed.

(** The step from [d0] to [d1] in which the stop callback, or the Completion's call,
    stored the result that the job has in [d]. *)
Definition stopped_at (d0 d1 d : SlotRun) : Prop :=
  stopper d0 = TResult /\ stopper d1 = TArrive /\ result (slot d) = Unexpected (if expired (slot d0) then kTimeout else kCancelledError).
Definition signalled_at (d0 d1 d : SlotRun) : Prop :=
  exists v text, sent d0 = Some (v, text) /\ holder d0 = HResult v text /\ holder d1 = HArrive /\
    result (slot d) = (if expired (slot d0) then Unexpected kTimeout else v) /\
    message (slot d) = (if has_value v then "" else text)%string.

Definition accounted (inl timed : bool) (d : SlotRun) : Prop :=
  (outcome (slot d) = kStopped -> stopper d <> TResult ->
    exists d0 mv d1, slot_reachable inl timed d0 /\ move mv d0 = Some d1 /\ later d1 d /\ stopped_at d0 d1 d) /\
  (outcome (slot d) = kSignalled -> (forall v t, holder d <> HResult v t) ->
    exists d0 mv d1, slot_reachable inl timed d0 /\ move mv d0 = Some d1 /\ later d1 d /\ signalled_at d0 d1 d).

Lemma reachable_later inl timed d d' : slot_reachable inl timed d -> later d d' -> slot_reachable inl timed d'.
Proof. intros (f & o & l & H1 & H2 & H) [k Hk]. exists f, o, (l ++ k). by rewrite moves_app, H. Qed.
Lemma later_step d0 d mv d' : later d0 d -> move mv d = Some d' -> later d0 d'.
Proof. intros [l Hl] H. exists (l ++ [mv]). rewrite moves_app, Hl. cbn. by rewrite H. Qed.

Lemma accounted_step inl timed mv d d' : slot_reachable inl timed d -> accounted inl timed d -> move mv d = Some d' ->
  accounted inl timed d'.
Proof.
  intros R [As Ag] H. pose proof (slot_reachable_inv _ _ _ R) as I. pose proof (i_winner d I) as Hw.
  assert (Hl : later d' d') by (by exists []).
  destruct (move_result mv d d' H) as [(Er & Em & Ho & Ht & Hh)|[(v & text & Hv & Hv1 & Es)|(Ht & Ht1 & Es)]]; split; intros Ho' Hn.
  - destruct Ho as [Ho|[[_ Ht']|[Ho _]]]; [|congruence|congruence].
    destruct As as (d0 & mv0 & d1 & R0 & M0 & L0 & S0); [congruence|by intros ?%Ht|]. exists d0, mv0, d1. split; [done|]. split; [done|]. split; [by eapply later_step|].
    unfold stopped_at in *. by rewrite Er.
  - destruct Ho as [Ho|[[Ho _]|[_ (v & text & Hv)]]]; [|congruence|by destruct (Hn v text)].
    destruct Ag as (d0 & mv0 & d1 & R0 & M0 & L0 & S0); [congruence|intros v t Hv; by destruct (Hn v t); apply Hh|].
    exists d0, mv0, d1. split; [done|]. split; [done|]. split; [by eapply later_step|]. unfold signalled_at in *. by rewrite Er, Em.
  - rewrite Es in Ho'. cbn in Ho'. unfold winner_ok in Hw. rewrite Ho', Hv in Hw. by destruct Hw.
  - exists d, mv, d'. split; [done|]. split; [done|]. split; [done|]. exists v, text. pose proof (i_sent d I) as Hs. rewrite Hv in Hs. cbn in Hs.
    split; [done|]. split; [done|]. split; [done|]. rewrite Es. cbn. split; [done|]. rewrite Es in Ho'. cbn in Ho'.
    rewrite (i_message d I) by (left; rewrite Ho', Hv; done). destruct (has_value v); [done|]. cbn.
    by case_bool_decide.
  - exists d, mv, d'. split; [done|]. split; [done|]. split; [done|]. split; [done|]. split; [done|]. by rewrite Es.
  - rewrite Es in Ho'. cbn in Ho'. unfold winner_ok in Hw. rewrite Ho', Ht in Hw. by destruct Hw.
Qed.

Lemma slot_accounted inl timed d : slot_reachable inl timed d -> accounted inl timed d.
Proof.
  intros (f & o & l & Hf & Ho & H). revert d H. induction l as [|mv l IH] using rev_ind; intros d H.
  - cbn in H. injection H as <-. by split.
  - rewrite moves_app in H. destruct (moves l _) as [d1|] eqn:E; [|done]. cbn in H.
    destruct (move mv d1) as [d2|] eqn:Em; [|done]. injection H as <-.
    apply (accounted_step inl timed mv d1); [by exists f, o, l|by apply IH|done].
Qed.

(** ** Properties *)

(** C10. Whatever the interleaving of the body, the Completion's holder, the
    stop callback, the deadline and the continuation, a deferred job finishes at
    most once in a run, only after its body has returned, and with the result
    and message of the party that won the race. If the Completion did, they are the
    value and message it was completed with, or kTimeout if the deadline had expired
    when the result was stored; if the stop did, the result is kTimeout when the
    deadline had expired at the store and kCancelled when it had not, and there is
    no message. ([d0] to [d1] is the winner's store.) *)
Theorem deferred_finishes_once inl timed d :
  slot_reachable inl timed d ->
  (length (finished d) <= 1)%nat /\
  forall r t, (r, t) ∈ finished d ->
    starter d = SDone /\ exists d0 mv d1, slot_reachable inl timed d0 /\ move mv d0 = Some d1 /\ later d1 d /\
    ((outcome (slot d) = kSignalled /\
        exists v text, sent d0 = Some (v, text) /\ holder d0 = HResult v text /\ holder d1 = HArrive /\
        r = (if expired (slot d0) then Unexpected kTimeout else v) /\ t = (if has_value v then "" else text)%string) \/
     (outcome (slot d) = kStopped /\ stopper d0 = TResult /\ stopper d1 = TArrive /\ t = ""%string /\
        r = Unexpected (if expired (slot d0) then kTimeout else kCancelledError))).
Proof.
  intros R. pose proof (slot_reachable_inv _ _ _ R) as I. pose proof (i_finished d I) as Hf.
  split; [rewrite Hf; destruct (past_finish _); cbn; lia|].
  intros r t Hin. rewrite Hf in Hin. destruct (past_finish (fin d)) eqn:Hp; [|by apply elem_of_nil in Hin].
  apply list_elem_of_singleton in Hin. simplify_eq.
  assert (finishers d <> []) as Hne by (intros E; unfold fin in Hp; by rewrite E in Hp).
  destruct (arrived d I Hne) as (Hs & Hw & Hh). split; [done|]. destruct (slot_accounted _ _ _ R) as [As Ag].
  pose proof (i_winner d I) as Hok. unfold winner_ok, winner_owes in *.
  destruct (outcome (slot d)) eqn:Ho; [done| |].
  - destruct Ag as (d0 & mv & d1 & R0 & M0 & L0 & v & text & ?); [done|intros v u E; by rewrite E in Hw|]. exists d0, mv, d1. split; [done|].
    split; [done|]. split; [done|]. left. split; [done|]. by exists v, text.
  - destruct As as (d0 & mv & d1 & R0 & M0 & L0 & Ht & Ht1 & Hr); [done|intros E; by rewrite E in Hw|]. exists d0, mv, d1. split; [done|].
    split; [done|]. split; [done|]. right. split; [done|]. split; [done|]. split; [done|]. split; [apply (i_message d I); right; congruence|done].
Qed.

(** C12. No party of a deferred job gets stuck: the moves the library makes on
    its own, with the body and the holder's, are bounded in number, and when none
    is left while the Completion was completed or the stop requested, the job
    has finished, exactly once. *)
Theorem deferred_always_finishes inl timed d :
  slot_reachable inl timed d ->
  (forall mv d', brings_forward mv = true -> move mv d = Some d' -> (moves_left d' < moves_left d)%nat) /\
  (stuck d -> outcome (slot d) <> kNone ->
   fin d = Some FEnd /\ finished d = [(result (slot d), message (slot d))]).
Proof.
  intros I%slot_reachable_inv. split; [intros mv d'; apply moves_left_decrease|].
  intros Hs Ho. pose proof (settled_finished d I (stuck_settled d I Hs) Ho) as Hf.
  split; [done|]. by rewrite (i_finished d I), Hf.
Qed.

(** A finished job is counted in the orphan ledger exactly while its
    Completion, beaten by the stop, is still out: completing or destroying it
    takes the count back, which never underflows whatever the order. *)
Theorem orphan_ledger_exact inl timed d :
  slot_reachable inl timed d -> fin d = Some FEnd ->
  orphans d - (others d).2 =
    match outcome (slot d), holder d with
    | kStopped, (HHeld | HLate | HRelease) => 1
    | _, _ => 0
    end.
Proof. intros I%slot_reachable_inv. by apply orphans_at_end. Qed.

(** Once a job has finished, nothing it started is in flight and the ledger
    holds no share of it, no party will touch its slot again: the next run may
    reset the slot, and the run may end. *)
Theorem slot_quiet_for_next_run inl timed d :
  slot_reachable inl timed d ->
  starter d = SDone -> deferredInFlight d = (others d).1 -> orphans d = (others d).2 ->
  length (finished d) = 1%nat /\ stuck d /\ (forall v text, signal v text d = None).
Proof.
  intros I%slot_reachable_inv Hs Hfl Hor. destruct (quiet_parties d I Hs Hfl Hor) as (Hf & Hh & Ht).
  assert (finishers d = [FEnd]) as Hfs.
  { pose proof (i_one d I). unfold fin in Hf. destruct (finishers d) as [|f [|]]; cbn in *; [done| |lia].
    by simplify_eq. }
  split; [by rewrite (i_finished d I), Hf|]. split.
  - intros mv Hmv. unfold internal in Hmv.
    repeat (apply elem_of_cons in Hmv as [->|Hmv]); [..|by apply elem_of_nil in Hmv]; cbn;
      unfold starter_step, holder_step, stopper_step; rewrite ?Hs, ?Hfs; cbn; try done;
      [by destruct (holder d)|by destruct (stopper d)].
  - intros v text. unfold signal. by destruct (holder d).
Qed.

(** A deferred job's Completion completes it exactly once: whatever moves,
    assignments, completions and destructions are done to the handles, as long
    as a handle holds the job nothing has been signalled, and when none does,
    exactly one signal was sent. *)
Theorem completion_signals_once s h cs hs l :
  handle_calls cs {[h := Some s]} = Some (hs, l) ->
  (holds s hs + signals s l = 1)%nat /\ (hs = ∅ -> signals s l = 1%nat).
Proof.
  intros H%(handle_calls_balance s). assert (holds s {[h := Some s]} = 1%nat) as H1.
  { unfold holds. rewrite map_filter_singleton_True by done. apply map_size_singleton. }
  rewrite H1 in H. split; [done|]. intros ->. unfold holds in H. rewrite map_filter_empty, map_size_empty in H. done.
Qed.

(** ** Concrete runs *)

Definition await_moves : list Move := [MStarter; MStarter; MHandOut; MStarter; MStarter; MStarter; MStarter; MStarter].
Definition finish_moves : list Move := replicate 7 (MFinisher 0).
(** The deadline expires while the job awaits; its Completion comes late. *)
Definition timeout_moves : list Move :=
  await_moves ++ [MExpire; MStop; MStopper true; MStopper true; MStopper true; MStopper true; MStopper true]
  ++ finish_moves.
Definition late_moves : list Move := timeout_moves ++ [MSignal success ""; MHolder true; MHolder true].
Definition run_slot (l : list Move) : SlotRun :=
  let d := start_run false true (0, 0) in default d (moves l d).

Lemma run_slot_reachable l :
  (if moves l (start_run false true (0, 0)) is Some _ then true else false) = true ->
  slot_reachable false true (run_slot l).
Proof.
  intros H. exists 0, 0, l. split_and!; [done..|]. unfold run_slot.
  by destruct (moves l (start_run false true (0, 0))).
Qed.

Example timeout_run :
  finished (run_slot timeout_moves) = [(Unexpected kTimeout, ""%string)] /\ orphans (run_slot timeout_moves) = 1
  /\ orphans (run_slot late_moves) = 0 /\ deferredInFlight (run_slot late_moves) = 0.
Proof. vm_compute. done. Qed.

(** The orphaned flag is visible before the count rises; the ledger's lock is
    what keeps a releasing Completion from decrementing in between. *)
Example orphan_flag_before_count :
  exists l, let d := run_slot l in
    slot_reachable false true d /\ Z.testbit (handleFlags (slot d)) 1 = true /\ orphans d = 0
    /\ holder d = HRelease /\ move (MHolder true) d = None.
Proof.
  exists (take 19 timeout_moves ++ [MSignal success ""; MHolder true]).
  split; [by apply run_slot_reachable; vm_compute|]. vm_compute. done.
Qed.

Lemma deferred_finishes_once_witness :
  slot_reachable false true (run_slot late_moves) /\
  starter (run_slot late_moves) = SDone.
Proof.
  assert (slot_reachable false true (run_slot late_moves)) as R by (apply run_slot_reachable; vm_compute; reflexivity).
  split; [exact R|].
  destruct (deferred_finishes_once false true (run_slot late_moves) R) as [_ H].
  destruct (H (Unexpected kTimeout) ""%string) as [Hs _]; [|exact Hs].
  assert (finished (run_slot late_moves) = [(Unexpected kTimeout, ""%string)]) as -> by (vm_compute; reflexivity).
  apply list_elem_of_singleton. reflexivity.
Defined.

Lemma deferred_always_finishes_witness :
  slot_reachable false true (run_slot late_moves) /\
  (stuck (run_slot late_moves) -> outcome (slot (run_slot late_moves)) <> kNone ->
   fin (run_slot late_moves) = Some FEnd).
Proof.
  assert (slot_reachable false true (run_slot late_moves)) as R by (apply run_slot_reachable; vm_compute; reflexivity).
  split; [exact R|]. intros Hs Ho.
  destruct (deferred_always_finishes false true (run_slot late_moves) R) as [_ H].
  destruct (H Hs Ho) as [Hf _]. exact Hf.
Defined.

Lemma orphan_ledger_exact_witness :
  fin (run_slot timeout_moves) = Some FEnd /\
  orphans (run_slot timeout_moves) - (others (run_slot timeout_moves)).2 = 1.
Proof.
  assert (slot_reachable false true (run_slot timeout_moves)) as R by (apply run_slot_reachable; vm_compute; reflexivity).
  assert (fin (run_slot timeout_moves) = Some FEnd) as F by (vm_compute; reflexivity).
  split; [exact F|]. rewrite (orphan_ledger_exact false true (run_slot timeout_moves) R F).
  vm_compute. reflexivity.
Defined.

Lemma slot_quiet_for_next_run_witness :
  slot_reachable false true (run_slot late_moves) /\ stuck (run_slot late_moves).
Proof.
  assert (slot_reachable false true (run_slot late_moves)) as R by (apply run_slot_reachable; vm_compute; reflexivity).
  split; [exact R|].
  destruct (slot_quiet_for_next_run false true (run_slot late_moves) R) as (_ & H & _);
    [vm_compute; reflexivity..|exact H].
Defined.

Definition sample_calls : list HandleCall := [HMoveConstruct 1 0; HDestroy 0; HFail 1 kTimeout "late"; HDestroy 1].
Definition sample_signals : list Signal := [(7%nat, Unexpected kTimeout, "late"%string)].

Lemma completion_signals_once_witness :
  handle_calls sample_calls {[0%nat := Some 7%nat]} = Some (∅, sample_signals) /\
  signals 7 sample_signals = 1%nat.
Proof.
  assert (handle_calls sample_calls {[0%nat := Some 7%nat]} = Some (∅, sample_signals)) as H by (vm_compute; reflexivity).
  split; [exact H|]. destruct (completion_signals_once 7 0 sample_calls ∅ sample_signals H) as [_ H1].
  apply H1. reflexivity.
Defined.
