(* ===== verification/DeferredSim.v ===== *)
(** The scheduler's view of a deferred job: Dispatch.v leaves to its environment
    when a deferred body returns and when its outcome is delivered; here the slot
    protocol of Deferred.v is shown to be one of those environments, move by move. *)
From S2P Require Import Prelude Types Nodes Pipeline Run Dispatch Deferred DeferredInv.

(** The operations of the scheduler thread that runs job [i], from startDeferred's
    call of the body up to finishJob. *)
Definition view (i : nat) (d : SlotRun) : list op :=
  if past_finish (fin d) then [OFinish i (result (slot d))] else
  match starter d with
  | SCount | SRegister | SBody | SCheck => [OInvoke i]
  | SAwait => [OAwait i]
  | SObserve => [OObserve (onJobAwaiting i); ODeliver i]
  | SArrive => if awaited d then [ODeliver i] else [OInvoke i]
  | SDone => [ODeliver i]
  end.

(** What the move does to the run: the scheduler's part of it. *)
Definition effect (i : nat) (d : SlotRun) (mv : Move) (c : DispatchContext) : DispatchContext :=
  match mv, starter d with
  | MStarter, SAwait => with_impl (store_status i kAwaiting (impl_ c)) c
  | MStarter, SObserve => observe (onJobAwaiting i) c
  | _, _ => c
  end.

(** Whether the await was stored, by the starter's position. *)
Definition await_ok (d : SlotRun) : Prop :=
  match starter d with
  | SObserve => awaited d = true
  | SArrive | SDone => True
  | _ => awaited d = false
  end.

Lemma past_finish_app l b : past_finish (head (l ++ [FRegistrations b])) = past_finish (head l).
Proof. by destruct l. Qed.

Lemma deliver_step_await dl a d d' next :
  deliver_step dl a d = Some (d', next) -> starter d' = starter d /\ awaited d' = awaited d
  /\ past_finish (fin d') = past_finish (fin d) /\ slot d' = slot d.
Proof.
  unfold fin. destruct dl; cbn; intros H; repeat case_match; simplify_eq/=;
    rewrite ?past_finish_app; done.
Qed.

Lemma await_ok_move mv d d' : await_ok d -> move mv d = Some d' -> await_ok d'.
Proof.
  intros A H. assert (mv = MStarter \/ starter d' = starter d /\ awaited d' = awaited d) as [->|[Es Ea]].
  { destruct mv as [| |v t|a| | |a|k|f o]; [by left|right..]; cbn in H.
    - by destruct (starter d) eqn:?, (holder d); simplify_eq/=.
    - unfold signal in H. destruct (holder d); simplify_eq/=. by destruct (win _ _).
    - unfold holder_step, arrive in H. destruct (holder d) as [| |v t| |dl| | | | |]; simplify_eq/=; try done.
      + destruct (deliver_step dl a d) as [[d1 nx]|] eqn:Hd; [|done]. simplify_eq/=.
        by destruct (deliver_step_await _ _ _ _ _ Hd) as (? & ? & _).
      + by destruct (orphan_mtx d); simplify_eq/=.
    - by destruct (deadline (slot d)); simplify_eq/=.
    - unfold stop in H. destruct (stopper d); try done. destruct (registered (slot d)); simplify_eq/=.
      by destruct (win _ _).
    - unfold stopper_step, arrive in H. destruct (stopper d) as [| | |dl| |]; simplify_eq/=; try done.
      destruct (deliver_step dl a d) as [[d1 nx]|] eqn:Hd; [|done]. simplify_eq/=.
      by destruct (deliver_step_await _ _ _ _ _ Hd) as (? & ? & _).
    - destruct (finishers d !! k) as [f|]; [|done]. cbn in H.
      destruct (finisher_step f d) as [[d1 f']|] eqn:Hf; [|done]. simplify_eq/=.
      destruct f as [[]| | | | | | |]; cbn in Hf; repeat case_match; by simplify_eq/=.
    - by repeat case_match; simplify_eq/=. }
  - unfold await_ok in *. cbn in H.
    assert (starter_step d = Some d') as H' by (by destruct (starter d), (holder d)). clear H.
    unfold starter_step, arrive in H'. destruct (starter d) eqn:Hs; simplify_eq/=; try done.
    + destruct (outcome (slot d)); done.
    + by destruct (parties (slot d) =? 1).
  - unfold await_ok in *. by rewrite Es, Ea.
Qed.

Lemma await_ok_reachable inl timed d : slot_reachable inl timed d -> await_ok d.
Proof.
  intros (f & o & l & _ & _ & H).
  assert (await_ok (start_run inl timed (f, o))) as A by done. revert A H.
  generalize (start_run inl timed (f, o)). induction l as [|mv l IH]; cbn; intros s A H; [by simplify_eq|].
  destruct (move mv s) as [s1|] eqn:Hm; [|done]. exact (IH s1 (await_ok_move _ _ _ A Hm) H).
Qed.

(** ** The simulation *)

(** A move of no concern to the scheduler: no party's position that [view] shows
    changes. *)
Lemma view_same i d d' :
  starter d' = starter d -> awaited d' = awaited d -> past_finish (fin d') = past_finish (fin d) ->
  (past_finish (fin d) = true -> result (slot d') = result (slot d)) -> view i d' = view i d.
Proof.
  unfold view. intros -> -> -> H. destruct (past_finish (fin d)) eqn:Hp; [|done]. by rewrite (H eq_refl).
Qed.

(** The parties whose moves leave the view alone. *)
Lemma quiet_move i mv d d' :
  slot_inv d -> (forall k, mv <> MFinisher k) -> mv <> MStarter -> move mv d = Some d' -> view i d' = view i d.
Proof.
  intros I Hf Hs H.
  assert (past_finish (fin d) = true -> winner_owes (outcome (slot d)) (holder d) (stopper d) = 0) as Hp.
  { intros Hp. assert (finishers d <> []) as Hne by (intros E; unfold fin in Hp; by rewrite E in Hp).
    by destruct (arrived d I Hne) as (_ & ? & _). }
  destruct mv as [| |v t|a| | |a|k|f o]; try done; cbn in H.
  - destruct (starter d) eqn:Es, (holder d); simplify_eq/=. by apply view_same.
  - unfold signal, win in H. destruct (holder d); simplify_eq/=.
    by destruct (outcome (slot d)) eqn:Eo; apply view_same.
  - unfold holder_step, arrive in H. destruct (holder d) as [| |v t| |dl| | | | |] eqn:Eh; simplify_eq/=.
    + apply view_same; try done. intros Hq. pose proof (Hp Hq) as Hw.
      pose proof (won_by_holder _ _ _ (i_winner d I)) as Ho. rewrite Eh in Ho. rewrite (Ho eq_refl) in Hw. done.
    + by apply view_same.
    + destruct (deliver_step dl a d) as [[d1 nx]|] eqn:Hd; [|done]. simplify_eq/=.
      destruct (deliver_step_await _ _ _ _ _ Hd) as (E1 & E2 & E3 & E4). apply view_same; try done. cbn. by rewrite E4.
    + by apply view_same.
    + destruct (orphan_mtx d); [done|]. simplify_eq. by apply view_same.
  - destruct (deadline (slot d)); simplify_eq/=. by apply view_same.
  - unfold stop, win in H. destruct (stopper d); try done. destruct (registered (slot d)); simplify_eq/=.
    by destruct (outcome (slot d)) eqn:Eo; apply view_same.
  - unfold stopper_step, arrive in H. destruct (stopper d) as [| | |dl| |] eqn:Eh; simplify_eq/=.
    + apply view_same; try done. intros Hq. pose proof (Hp Hq) as Hw.
      pose proof (won_by_stop _ _ _ (i_winner d I)) as Ho. rewrite Eh in Ho. rewrite (Ho eq_refl) in Hw. done.
    + by apply view_same.
    + destruct (deliver_step dl a d) as [[d1 nx]|] eqn:Hd; [|done]. simplify_eq/=.
      destruct (deliver_step_await _ _ _ _ _ Hd) as (E1 & E2 & E3 & E4). apply view_same; try done. cbn. by rewrite E4.
  - by destruct (Hf k).
  - destruct (share f && share o && negb (orphan_mtx d)); simplify_eq. by apply view_same.
Qed.

Lemma starter_or mv : mv = MStarter \/ (exists k, mv = MFinisher k) \/ ((forall k, mv <> MFinisher k) /\ mv <> MStarter).
Proof. destruct mv; eauto; right; right; split; congruence. Qed.

Definition one_thread (c : DispatchContext) (t : list op) : RunState := {| ctx := c; threads := [t] |}.

(** C11. Refinement: along every run of a deferred job's slot, each move is
    either invisible to the scheduler or is one step of the scheduler's thread
    for that job, with the same effect on the run: the store of kAwaiting, the
    onJobAwaiting call, and the delivery of the slot's result to finishJob. So
    what holds of every run of the scheduler holds with deferred jobs. *)
Theorem slot_refines_scheduler inl timed i d mv d' c :
  slot_reachable inl timed d -> move mv d = Some d' ->
  (view i d' = view i d /\ effect i d mv c = c) \/
  exists ch, step_thread 0 ch (one_thread c (view i d)) = Some (one_thread (effect i d mv c) (view i d')).
Proof.
  intros R H. pose proof (slot_reachable_inv _ _ _ R) as I. pose proof (await_ok_reachable _ _ _ R) as A.
  destruct (starter_or mv) as [-> | [[k ->] | [Hf Hs]]].
  - (* the starter *)
    cbn in H. assert (starter_step d = Some d') as H' by (by destruct (starter d), (holder d)). clear H.
    assert (starter d <> SDone -> finishers d = []) as Hfin.
    { intros Hne. destruct (finishers d) eqn:E; [done|].
      destruct (arrived d I) as (? & _); [by rewrite E|done]. }
    unfold starter_step, arrive in H'. unfold await_ok in A.
    unfold view, effect, step_thread, one_thread, fin.
    destruct (starter d) eqn:Es; try done; rewrite (Hfin ltac:(done)); simplify_eq/=;
      rewrite ?(Hfin ltac:(done)); cbn.
    1-3: by left.
    + (* SCheck *) destruct (outcome (slot d)); cbn; [right; by exists CAwait|rewrite A; by left..].
    + (* SAwait *) right. by exists CNone.
    + (* SObserve *) rewrite A. right. by exists CNone.
    + (* SArrive *) destruct (parties (slot d) =? 1); cbn; rewrite ?(Hfin ltac:(done)); cbn;
        (destruct (awaited d); [by left|right; by exists CPending]).
  - (* the finisher *)
    cbn in H. pose proof (i_one d I). pose proof (arrived d I) as Ha.
    destruct (finishers d) as [|f [|]] eqn:Efs; cbn in *; [done| |lia].
    destruct (Ha ltac:(done)) as (Es & _ & _).
    destruct k; [|done]. cbn in H. destruct (finisher_step f d) as [[d1 f']|] eqn:Hf; [|done]. simplify_eq/=.
    unfold view, effect, step_thread, one_thread, fin. rewrite Efs, Es. cbn.
    destruct f as [[]| | | | | | |]; cbn in Hf;
      [destruct (callback_running (stopper d))| |destruct (outcome (slot d))|destruct (orphan_mtx d)
      |destruct (Z.land (handleFlags (slot d)) kReleased =? 0)| | | |];
      simplify_eq/=; rewrite ?Es, ?Efs; cbn; try by left.
    right. by exists (CResult (result (slot d))).
  - left. split; [exact (quiet_move i mv d d' I Hf Hs H)|]. unfold effect. by destruct mv.
Qed.

Lemma slot_refines_scheduler_witness :
  exists ch, step_thread 0 ch (one_thread (make_context Impl_new) [OInvoke 0])
    = Some (one_thread (make_context Impl_new) [OAwait 0]).
Proof.
  set (d := default (start_run false true (0, 0))
              (moves [MStarter; MStarter; MHandOut; MStarter] (start_run false true (0, 0)))).
  assert (slot_reachable false true d) as R.
  { exists 0, 0, [MStarter; MStarter; MHandOut; MStarter]. vm_compute. done. }
  assert (move MStarter d = Some (at_starter SAwait d)) as H by (vm_compute; reflexivity).
  destruct (slot_refines_scheduler false true 0 d MStarter _ (make_context Impl_new) R H) as [[E _]|E].
  - vm_compute in E. discriminate E.
  - exact E.
Defined.
