(* ===== verification/Timer.v ===== *)
(** The deadline timer of a Pipeline (TimerService, src/sub0pipeline.cpp): one
    thread that expires registrations in order of their time.

    Every step is one section under the service's mutex, or one action outside
    it: the thread's expiry runs unlocked, and cancelAndWait() returns in a later
    step than the one that removes the registration. *)
From stdpp Require Import sorting.
From S2P Require Import Prelude Types.

(** ** Time

    [steady_clock] time points are signed 64-bit counts of nanoseconds. *)
Definition time_max : Z := 2 ^ 63 - 1.
Definition ns_per_ms : Z := 1000000.

(** When a delay of [delay] milliseconds from [now] is over; never past the clock's end. *)
Definition deadline_at (now delay : Z) : Z :=
  let headroom := (time_max - now) / ns_per_ms in
  if headroom <=? delay then time_max else now + delay * ns_per_ms.

Lemma deadline_at_bounds now delay : 0 <= now <= time_max -> 0 <= delay ->
  now <= deadline_at now delay <= time_max /\
  (deadline_at now delay = now + delay * ns_per_ms \/ deadline_at now delay = time_max /\ time_max - now < (delay + 1) * ns_per_ms).
Proof.
  intros Hn Hd. unfold deadline_at, ns_per_ms.
  pose proof (Z.div_mod (time_max - now) 1000000). pose proof (Z.mod_pos_bound (time_max - now) 1000000).
  destruct (Z.leb_spec ((time_max - now) / 1000000) delay); split; [lia|right; split; [done|nia]|nia|by left].
Qed.

(** ** The service *)

(** Where the timer's thread is: taking the next registration, about to expire
    the one it took, or about to clear [firing_]. *)
Inductive LoopPc : Set := Waiting | Expiring (d : nat) | Expired (d : nat).

(** What happened, in order: [arm] registered a deadline for a time, the thread
    expired one at a time, and [cancelAndWait] returned for one. *)
Inductive Log : Set := LogArm (d : nat) (at_ : Z) | LogExpire (d : nat) (t : Z) | LogReturn (d : nat).

Record TimerService := mkTimer {
  now : Z;
  queue_ : list (Z * nat);   (* std::multimap, in key order *)
  index_ : gset nat;
  loop_pc : LoopPc;
  cancelling : list nat;     (* callers inside cancelAndWait, past its removal *)
  log : list Log
}.

Definition TimerService_init : TimerService := mkTimer 0 [] ∅ Waiting [] [].

(** [firing_] *)
Definition firing_ (t : TimerService) : option nat :=
  match loop_pc t with Waiting => None | Expiring d | Expired d => Some d end.

(** [multimap::emplace]: after the entries with the same key. *)
Fixpoint queue_emplace (at_ : Z) (d : nat) (q : list (Z * nat)) : list (Z * nat) :=
  match q with
  | [] => [(at_, d)]
  | (a, x) :: rest => if at_ <? a then (at_, d) :: q else (a, x) :: queue_emplace at_ d rest
  end.
Definition queue_erase (d : nat) (q : list (Z * nat)) : list (Z * nat) := filter (fun e => e.2 <> d) q.

(** Whether the two allocations of [arm] succeed. *)
Inductive ArmAllocation : Set := ArmOk | QueueFails | IndexFails.

(** [arm]: [read] is the clock's value the caller read before it took the lock.
    The result is what it returns. *)
Definition arm (t : TimerService) (d : nat) (delay read : Z) (a : ArmAllocation) : TimerService * bool :=
  let at_ := deadline_at read delay in
  match a with
  | ArmOk => (mkTimer (now t) (queue_emplace at_ d (queue_ t)) ({[ d ]} ∪ index_ t) (loop_pc t) (cancelling t)
                      (log t ++ [LogArm d at_]), true)
  | QueueFails => (t, false)
  | IndexFails => (mkTimer (now t) (queue_emplace at_ d (queue_ t)) (index_ t) (loop_pc t) (cancelling t) (log t), false)
  end.

(** [cancelAndWait] up to its wait, and its return. *)
Definition cancel_remove (t : TimerService) (d : nat) : TimerService :=
  if decide (d ∈ index_ t)
  then mkTimer (now t) (queue_erase d (queue_ t)) (index_ t ∖ {[ d ]}) (loop_pc t) (d :: cancelling t) (log t)
  else mkTimer (now t) (queue_ t) (index_ t) (loop_pc t) (d :: cancelling t) (log t).
Definition cancel_return (t : TimerService) (d : nat) : option TimerService :=
  if decide (d ∈ cancelling t /\ firing_ t <> Some d)
  then Some (mkTimer (now t) (queue_ t) (index_ t) (loop_pc t) (filter (fun x => x <> d) (cancelling t)) (log t ++ [LogReturn d]))
  else None.

(** One round of [loop]: it waits while the queue is empty or its first entry
    lies ahead, and otherwise takes that entry. *)
Definition loop_step (t : TimerService) : option TimerService :=
  match loop_pc t with
  | Waiting =>
    match queue_ t with
    | [] => None
    | (at_, d) :: rest =>
      if now t <? at_ then None
      else Some (mkTimer (now t) rest (index_ t ∖ {[ d ]}) (Expiring d) (cancelling t) (log t))
    end
  | Expiring d => Some (mkTimer (now t) (queue_ t) (index_ t) (Expired d) (cancelling t) (log t ++ [LogExpire d (now t)]))
  | Expired d => Some (mkTimer (now t) (queue_ t) (index_ t) Waiting (cancelling t) (log t))
  end.

(** What can happen next: time passes, a caller arms or cancels, a cancel returns,
    the thread moves. *)
Inductive TimerMove : Type :=
  | Tick (t : Z) | Arm (d : nat) (delay read : Z) (a : ArmAllocation) | Cancel (d : nat) | CancelReturn (d : nat) | Loop.

(** The registration's last state in a log: its time, and whether it expired. *)
Definition registered_step (d : nat) (st : option (Z * bool)) (l : Log) : option (Z * bool) :=
  match l with
  | LogArm x at_ => if decide (x = d) then Some (at_, false) else st
  | LogExpire x _ => if decide (x = d) then ((fun p => (p.1, true)) <$> st) else st
  | LogReturn x => if decide (x = d) then None else st
  end.
Definition registered (d : nat) (l : list Log) : option (Z * bool) := foldl (registered_step d) None l.
Arguments registered : simpl never.

(** A caller arms a deadline only when it is not registered, and cancels it before
    it registers it again or destroys it. *)
Definition timer_move (t : TimerService) (m : TimerMove) : option TimerService :=
  match m with
  | Tick n => if now t <=? n then Some (mkTimer n (queue_ t) (index_ t) (loop_pc t) (cancelling t) (log t)) else None
  | Arm d delay read a =>
    if decide (registered d (log t) = None /\ (d ∉ cancelling t) /\ 0 <= read <= now t) then Some (arm t d delay read a).1 else None
  | Cancel d => if decide (d ∉ cancelling t) then Some (cancel_remove t d) else None
  | CancelReturn d => cancel_return t d
  | Loop => loop_step t
  end.

Fixpoint timer_moves (t : TimerService) (ms : list TimerMove) : option TimerService :=
  match ms with
  | [] => Some t
  | m :: rest => match timer_move t m with Some t => timer_moves t rest | None => None end
  end.

(** No registration loses its index entry for want of memory. *)
Definition allocates (m : TimerMove) : Prop := match m with Arm _ _ _ IndexFails => False | _ => True end.

(** ** Invariant *)

Definition sorted_queue (q : list (Z * nat)) : Prop := StronglySorted (fun x y => x.1 <= y.1) q.

(** Every expiry was of a registration in force, not yet expired, and due. *)
Definition log_ok (l : list Log) : Prop :=
  forall l1 d t l2, l = l1 ++ LogExpire d t :: l2 -> exists at_, registered d l1 = Some (at_, false) /\ at_ <= t.

Record timer_ok (t : TimerService) : Prop := {
  to_sorted : sorted_queue (queue_ t);
  to_nodup : NoDup (queue_ t).*2;
  to_index : forall d, d ∈ index_ t <-> d ∈ ((queue_ t).*2);
  to_queue : forall at_ d, (at_, d) ∈ queue_ t -> registered d (log t) = Some (at_, false) /\ d ∉ cancelling t;
  to_firing : match loop_pc t with
              | Expiring d => (d ∉ ((queue_ t).*2)) /\ exists at_, registered d (log t) = Some (at_, false) /\ at_ <= now t
              | Expired d => (d ∉ ((queue_ t).*2)) /\ exists at_, registered d (log t) = Some (at_, true)
              | Waiting => True
              end;
  to_log : log_ok (log t)
}.

Lemma registered_snoc d l x : registered d (l ++ [x]) = registered_step d (registered d l) x.
Proof. unfold registered. by rewrite foldl_app. Qed.

Lemma registered_other d l x : (match x with LogArm y _ | LogExpire y _ | LogReturn y => y <> d end) ->
  registered d (l ++ [x]) = registered d l.
Proof. intros H. rewrite registered_snoc. by destruct x; cbn; rewrite decide_False. Qed.

Lemma log_ok_snoc l x : log_ok l ->
  (forall d t, x = LogExpire d t -> exists at_, registered d l = Some (at_, false) /\ at_ <= t) -> log_ok (l ++ [x]).
Proof.
  intros Hl Hx l1 d t l2 E. destruct l2 as [|y l2] using rev_ind.
  - apply app_inj_tail in E as [-> ->]. by apply Hx.
  - rewrite app_comm_cons, app_assoc in E. apply app_inj_tail in E as [-> _]. by eapply Hl.
Qed.

Lemma queue_emplace_perm a d q : queue_emplace a d q ≡ₚ (a, d) :: q.
Proof.
  induction q as [|[b x] q IH]; cbn; [done|]. destruct (a <? b); [done|]. rewrite IH. apply Permutation_swap.
Qed.
Lemma queue_emplace_sorted a d q : sorted_queue q -> sorted_queue (queue_emplace a d q).
Proof.
  unfold sorted_queue. induction q as [|[b x] q IH]; intros Hq; cbn; [by repeat constructor|].
  apply StronglySorted_inv in Hq as [Hq Hb]. destruct (Z.ltb_spec a b).
  - constructor; [by constructor|]. constructor; [cbn; lia|]. eapply Forall_impl; [exact Hb|]. cbn. lia.
  - constructor; [by apply IH|]. rewrite queue_emplace_perm. constructor; [done|done].
Qed.
Lemma queue_erase_sorted d q : sorted_queue q -> sorted_queue (queue_erase d q).
Proof.
  unfold sorted_queue, queue_erase. induction 1 as [|e q Hq IH He]; [constructor|].
  rewrite filter_cons. case_decide; [|done]. constructor; [done|].
  apply Forall_forall. intros x [_ Hx]%list_elem_of_filter. rewrite Forall_forall in He. by apply He.
Qed.
Lemma queue_erase_elem d q x : x ∈ (queue_erase d q).*2 <-> x <> d /\ x ∈ q.*2.
Proof.
  unfold queue_erase. rewrite !list_elem_of_fmap. split.
  - intros (e & -> & [Hd He]%list_elem_of_filter). split; [done|]. by exists e.
  - intros (Hd & e & -> & He). exists e. split; [done|]. by apply list_elem_of_filter.
Qed.

Lemma queue_ids_nodup_erase d q : NoDup q.*2 -> NoDup (queue_erase d q).*2.
Proof.
  unfold queue_erase. induction q as [|e q IH]; [done|].
  intros [He Hq]%NoDup_cons. rewrite filter_cons.
  case_decide; [|by apply IH]. rewrite fmap_cons. apply NoDup_cons. split; [|by apply IH].
  intros (x & Hx & [_ Hin]%list_elem_of_filter)%list_elem_of_fmap. apply He, list_elem_of_fmap. by exists x.
Qed.

Lemma arm_ok t d delay read a : timer_ok t -> a <> IndexFails -> registered d (log t) = None -> d ∉ cancelling t ->
  timer_ok (arm t d delay read a).1.
Proof.
  intros Hok Ha Hd Hc. destruct a; [|done|done]. pose proof Hok as [H1 H2 H3 H4 H5 H6]. cbn.
  set (at_ := deadline_at read delay).
  assert (Hdq : d ∉ ((queue_ t).*2)).
  { intros ((x & y) & -> & Hx)%list_elem_of_fmap. apply H4 in Hx as [Hx _]. cbn in *. congruence. }
  assert (Hp : (queue_emplace at_ d (queue_ t)).*2 ≡ₚ d :: (queue_ t).*2) by by rewrite queue_emplace_perm.
  split; cbn.
  - by apply queue_emplace_sorted.
  - rewrite Hp. by apply NoDup_cons.
  - intros x. rewrite Hp, elem_of_cons, <- H3. set_solver.
  - intros b x. rewrite queue_emplace_perm, elem_of_cons. intros [[= -> ->]|Hx].
    + split; [|done]. rewrite registered_snoc. cbn. by rewrite decide_True.
    + destruct (H4 b x Hx) as [Hr Hn]. split; [|done]. rewrite registered_other; [done|]. intros <-. congruence.
  - destruct (loop_pc t) as [|x|x]; [done| |]; destruct H5 as (Hx & b & Hb); rewrite Hp, not_elem_of_cons;
      (destruct (decide (d = x)) as [->|]; [destruct_and?; congruence|]); (split; [done|]); exists b;
      by rewrite registered_other.
  - apply log_ok_snoc; [done|]. by intros.
Qed.

Lemma cancel_remove_ok t d : timer_ok t -> timer_ok (cancel_remove t d).
Proof.
  intros Hok. pose proof Hok as [H1 H2 H3 H4 H5 H6]. unfold cancel_remove. case_decide as Hd; split; cbn; try done.
  - by apply queue_erase_sorted.
  - by apply queue_ids_nodup_erase.
  - intros x. rewrite queue_erase_elem, <- H3. set_solver.
  - intros b x [Hx Hin]%list_elem_of_filter. cbn in Hx. destruct (H4 b x Hin). split; [done|].
    apply not_elem_of_cons. by split.
  - destruct (loop_pc t); [done| |]; destruct H5 as [Hx Hb]; (split; [|exact Hb]); rewrite queue_erase_elem; tauto.
  - intros b x Hin. destruct (H4 b x Hin). split; [done|]. apply not_elem_of_cons. split; [|done]. intros ->.
    apply Hd, H3, list_elem_of_fmap. by exists (b, d).
Qed.

Lemma cancel_return_ok t d t' : timer_ok t -> cancel_return t d = Some t' -> timer_ok t'.
Proof.
  intros Hok. unfold cancel_return. case_decide as Hd; [|done]. destruct Hd as [Hc Hf]. intros [= <-].
  pose proof Hok as [H1 H2 H3 H4 H5 H6]. split; cbn; try done.
  - intros b x Hin. destruct (H4 b x Hin) as [Hr Hn]. split.
    + rewrite registered_other; [done|]. intros ->. done.
    + intros [_ Hx]%list_elem_of_filter. done.
  - unfold firing_ in Hf. destruct (loop_pc t) as [|x|x]; [done| |]; destruct H5 as (Hx & b & Hb); (split; [done|]); exists b;
      (rewrite registered_other by congruence); done.
  - apply log_ok_snoc; [done|]. by intros.
Qed.

Lemma loop_step_ok t t' : timer_ok t -> loop_step t = Some t' -> timer_ok t'.
Proof.
  intros Hok. unfold loop_step. pose proof Hok as [H1 H2 H3 H4 H5 H6]. destruct (loop_pc t) as [|d|d] eqn:Epc.
  - destruct (queue_ t) as [|[a d] q] eqn:Eq; [done|]. destruct (Z.ltb_spec (now t) a) as [|Hdue]; [done|].
    intros [= <-]. unfold sorted_queue in H1. apply StronglySorted_inv in H1 as [H1 _]. cbn in H2.
    apply NoDup_cons in H2 as [Hd H2]. split; cbn; try done.
    + intros x. cbn in H3. specialize (H3 x). rewrite elem_of_cons in H3.
      destruct (decide (x = d)) as [->|]; [|set_solver]. split; [set_solver|]. intros Hin. exfalso. by apply Hd.
    + intros b x Hin. apply (H4 b x). by apply list_elem_of_further.
    + split; [done|]. exists a. split; [|done]. by apply (H4 a d), list_elem_of_here.
  - intros [= <-]. destruct H5 as (Hd & a & Ha & Hdue). split; cbn; try done.
    + intros b x Hin. destruct (H4 b x Hin) as [Hr Hn]. split; [|done]. rewrite registered_other; [done|].
      intros <-. apply Hd, list_elem_of_fmap. by exists (b, d).
    + split; [done|]. exists a. rewrite registered_snoc, Ha. cbn. by rewrite decide_True.
    + apply log_ok_snoc; [done|]. intros x s [= <- <-]. by exists a.
  - intros [= <-]. by split.
Qed.

Lemma timer_move_ok t m t' : timer_ok t -> allocates m -> timer_move t m = Some t' -> timer_ok t'.
Proof.
  intros Hok Ha. destruct m as [n|d delay read a|d|d|]; cbn.
  - destruct (Z.leb_spec (now t) n); [|done]. intros [= <-]. destruct Hok as [H1 H2 H3 H4 H5 H6]. split; cbn; try done.
    destruct (loop_pc t); [done| |done]. destruct H5 as (Hd & b & Hb & Hle). split; [done|]. exists b. split; [done|lia].
  - case_decide as Hd; [|done]. intros [= <-]. apply arm_ok; try tauto. intros ->. done.
  - case_decide; [|done]. intros [= <-]. by apply cancel_remove_ok.
  - by apply cancel_return_ok.
  - by apply loop_step_ok.
Qed.

Lemma timer_init_ok : timer_ok TimerService_init.
Proof.
  split; cbn; try done.
  - constructor.
  - by apply NoDup_nil_2.
  - intros d. rewrite elem_of_nil. set_solver.
  - intros a d Hin. by apply elem_of_nil in Hin.
  - intros l1 d t l2 E. by destruct l1.
Qed.

Lemma timer_moves_ok ms t t' : timer_ok t -> Forall allocates ms -> timer_moves t ms = Some t' -> timer_ok t'.
Proof.
  intros Hok Hms. revert t Hok. induction Hms as [|m ms Hm Hms IH]; intros t Hok; cbn; [by intros [= <-]|].
  destruct (timer_move t m) as [t1|] eqn:E; [|done]. apply IH. by eapply timer_move_ok.
Qed.

(** C30. As long as no allocation of an index entry fails inside arm() (the queue's
    may), and callers arm a deadline only when it is not registered: however they and
    the timer's thread interleave, a deadline expires at most once for each time it is
    armed, never before its time, and never after cancelAndWait() has returned for
    it; what the thread takes next is due no later than anything else that is
    registered, and the index lists exactly what is in the queue. *)
Theorem timer_expires_once_in_time ms t :
  timer_moves TimerService_init ms = Some t -> Forall allocates ms ->
  (forall l1 d s l2, log t = l1 ++ LogExpire d s :: l2 ->
     exists at_, registered d l1 = Some (at_, false) /\ at_ <= s) /\
  (forall at_ d rest, queue_ t = (at_, d) :: rest -> Forall (fun e => at_ <= e.1) rest) /\
  (forall d, d ∈ index_ t <-> d ∈ ((queue_ t).*2)).
Proof.
  intros Hms Ha. destruct (timer_moves_ok ms _ _ timer_init_ok Ha Hms) as [H1 H2 H3 H4 H5 H6].
  split; [exact H6|]. split; [|exact H3]. intros a d rest E. rewrite E in H1.
  by apply StronglySorted_inv in H1 as [_ H1].
Qed.

(** The timer's thread serves a due registration in three of its own steps. *)
Lemma timer_serves t at_ d rest : loop_pc t = Waiting -> queue_ t = (at_, d) :: rest -> at_ <= now t ->
  exists t', timer_moves t [Loop; Loop; Loop] = Some t' /\ loop_pc t' = Waiting /\ queue_ t' = rest /\
    log t' = log t ++ [LogExpire d (now t)].
Proof.
  intros Hpc Hq Hle. cbn. unfold loop_step at 1. rewrite Hpc, Hq, (proj2 (Z.ltb_ge _ _)) by done.
  cbn. eexists. done.
Qed.

(** Two deadlines armed out of order; one expires while its caller cancels. *)
Definition sample_moves : list TimerMove :=
  [Arm 1 5 0 ArmOk; Arm 2 3 0 ArmOk; Tick 4000000; Loop; Cancel 2; Loop; Loop; CancelReturn 2; Tick 6000000; Cancel 1; CancelReturn 1].
Definition sample_timer : TimerService := default TimerService_init (timer_moves TimerService_init sample_moves).

Lemma timer_expires_once_in_time_witness :
  timer_moves TimerService_init sample_moves = Some sample_timer /\
  log sample_timer = [LogArm 1 5000000; LogArm 2 3000000; LogExpire 2 4000000; LogReturn 2; LogReturn 1] /\
  (forall l1 d s l2, log sample_timer = l1 ++ LogExpire d s :: l2 ->
     exists at_, registered d l1 = Some (at_, false) /\ at_ <= s).
Proof.
  assert (H : timer_moves TimerService_init sample_moves = Some sample_timer) by (vm_compute; reflexivity).
  split; [exact H|]. split; [vm_compute; reflexivity|].
  destruct (timer_expires_once_in_time sample_moves sample_timer H) as (Hlog & _).
  - unfold sample_moves. repeat (apply Forall_cons; split); try exact I. by apply Forall_nil.
  - exact Hlog.
Defined.

(** When the index's allocation fails, arm() reports that nothing is registered
    and leaves the entry in the queue: cancelAndWait() finds no registration, and
    the thread expires the deadline after it has returned. *)
Example failed_arm_still_expires :
  log <$> timer_moves TimerService_init
    [Arm 1 5 0 IndexFails; Cancel 1; CancelReturn 1; Tick 6000000; Loop; Loop] = Some [LogReturn 1; LogExpire 1 6000000] /\
  (arm TimerService_init 1 5 0 IndexFails).2 = false.
Proof. split; vm_compute; reflexivity. Qed.
