(* ===== verification/Bytes.v ===== *)
(** Bytes, little-endian integers and character strings.

    The byte-level conversions the remote protocol and the payload strategies
    share: [std::byte] against [uint8_t], the loops that store an integer least
    significant byte first and read it back, and a [std::string]'s characters as
    bytes. *)
From S2P Require Import Prelude.

#[export] Instance byte_eq_decision : EqDecision byte := Byte.byte_eq_dec.

(** [std::to_integer<uint8_t>(b)] and [static_cast<std::byte>(v)]. *)
Definition to_integer (b : byte) : Z := Z.of_N (Byte.to_N b).
Definition to_byte (v : Z) : byte := default x00 (Byte.of_N (Z.to_N (u8 v))).

Lemma to_integer_range b : is_u8 (to_integer b).
Proof. by destruct b. Qed.
#[export] Hint Resolve to_integer_range : words.

Lemma to_byte_to_integer b : to_byte (to_integer b) = b.
Proof. by destruct b. Qed.

Lemma to_integer_to_byte v : to_integer (to_byte v) = u8 v.
Proof.
  unfold to_integer, to_byte. pose proof (u8_range v) as [H0 H1].
  destruct (Byte.of_N (Z.to_N (u8 v))) as [b|] eqn:E; cbn.
  - apply Byte.to_of_N in E. rewrite E. lia.
  - apply Byte.of_N_None_iff in E. lia.
Qed.

Lemma to_byte_mod v : to_byte (u8 v) = to_byte v.
Proof. unfold to_byte, u8. by rewrite Z.mod_mod. Qed.

Create Rewrite HintDb bytes.

(** ** Little-endian integers

    [for (i = 0; i < n; ++i) out.push_back((v >> (8 * i)) & 0xFF)] *)
Definition le_bytes (n : nat) (v : Z) : list byte :=
  (fun i => to_byte (Z.land (Z.shiftr v (8 * Z.of_nat i)) 255)) <$> seq 0 n.

(** [for (i = 0; i < n; ++i) v |= uint64_t(in[i]) << (8 * i)], from [v] and [i]. *)
Fixpoint le_read (v : Z) (i : Z) (bytes : list byte) : Z :=
  match bytes with
  | [] => v
  | b :: rest => le_read (Z.lor v (Z.shiftl (to_integer b) (8 * i))) (i + 1) rest
  end.
Definition le_value (bytes : list byte) : Z := le_read 0 0 bytes.

Lemma length_le_bytes n v : length (le_bytes n v) = n.
Proof. unfold le_bytes. by rewrite length_fmap, length_seq. Qed.

Lemma le_bytes_succ n v : le_bytes (S n) v = to_byte v :: le_bytes n (Z.shiftr v 8).
Proof.
  unfold le_bytes. rewrite <- cons_seq, fmap_cons, <- fmap_S_seq, <- list_fmap_compose. f_equal.
  - rewrite Z.shiftr_0_r. change 255 with (Z.ones 8). rewrite Z.land_ones by lia. apply to_byte_mod.
  - apply list_fmap_ext. intros i x _. cbn. rewrite Z.shiftr_shiftr by lia. do 3 f_equal. lia.
Qed.

(** What the reading loop adds to an accumulator below the bytes still to come. *)
Lemma le_read_spec bytes v i :
  0 <= i -> 0 <= v < 2 ^ (8 * i) -> le_read v i bytes = v + 2 ^ (8 * i) * le_value bytes.
Proof.
  unfold le_value. revert v i.
  assert (Hgen : forall bytes v i, 0 <= i -> 0 <= v < 2 ^ (8 * i) ->
    exists x, forall w j, 0 <= j -> 0 <= w < 2 ^ (8 * j) -> le_read w j bytes = w + 2 ^ (8 * j) * x).
  { clear. intros bytes _ _ _ _. induction bytes as [|b rest [x IH]].
    - exists 0. intros w j _ _. cbn. lia.
    - exists (to_integer b + 256 * x). intros w j Hj Hw. cbn [le_read].
      pose proof (to_integer_range b) as [H0 H1]. rewrite lor_shift_add by lia.
      rewrite IH by (replace (8 * (j + 1)) with (8 * j + 8) by lia; try rewrite Z.pow_add_r by lia; nia).
      replace (8 * (j + 1)) with (8 * j + 8) by lia. rewrite Z.pow_add_r by lia. lia. }
  intros v i Hi Hv. destruct (Hgen bytes v i Hi Hv) as [x Hx].
  rewrite (Hx v i), (Hx 0 0) by (cbn; lia). cbn. lia.
Qed.

Lemma le_value_cons b rest : le_value (b :: rest) = to_integer b + 256 * le_value rest.
Proof.
  unfold le_value at 1. cbn [le_read]. pose proof (to_integer_range b) as [H0 H1].
  rewrite Z.lor_0_l, Z.mul_0_r, Z.shiftl_0_r, le_read_spec by (cbn; lia). done.
Qed.

Lemma le_value_range bytes : 0 <= le_value bytes < 2 ^ (8 * zlen bytes).
Proof.
  unfold zlen. induction bytes as [|b rest IH]; [done|]. rewrite le_value_cons. cbn [length].
  pose proof (to_integer_range b) as [H0 H1].
  replace (8 * Z.of_nat (S (length rest))) with (8 * Z.of_nat (length rest) + 8) by lia.
  rewrite Z.pow_add_r by lia. change (2 ^ 8) with 256. nia.
Qed.

Theorem le_value_bytes n v : le_value (le_bytes n v) = v mod 2 ^ (8 * Z.of_nat n).
Proof.
  revert v. induction n as [|n IH]; intros v; [by rewrite Z.mod_1_r|].
  rewrite le_bytes_succ, le_value_cons, IH, to_integer_to_byte. unfold u8.
  rewrite Z.shiftr_div_pow2 by lia. change (2 ^ 8) with 256.
  replace (8 * Z.of_nat (S n)) with (8 + 8 * Z.of_nat n) by lia. rewrite Z.pow_add_r by lia.
  change (2 ^ 8) with 256. rewrite Z.rem_mul_r by lia. done.
Qed.

Lemma le_bytes_value bytes : le_bytes (length bytes) (le_value bytes) = bytes.
Proof.
  induction bytes as [|b rest IH]; [done|]. cbn [length]. rewrite le_bytes_succ, le_value_cons.
  pose proof (to_integer_range b) as [H0 H1]. rewrite Z.shiftr_div_pow2 by lia. change (2 ^ 8) with 256 in *.
  rewrite Z.mul_comm, Z.div_add, Z.div_small, Z.add_0_l, IH by lia. f_equal.
  rewrite <- to_byte_mod. unfold u8. change (2 ^ 8) with 256. by rewrite Z.mod_add, Z.mod_small, to_byte_to_integer by lia.
Qed.
Lemma le_value_u16 v : is_u16 v -> le_value (le_bytes 2 v) = v.
Proof. intros H. rewrite le_value_bytes. by apply Z.mod_small. Qed.
Lemma le_value_u32 v : is_u32 v -> le_value (le_bytes 4 v) = v.
Proof. intros H. rewrite le_value_bytes. by apply Z.mod_small. Qed.
Lemma le_value_u64 v : is_u64 v -> le_value (le_bytes 8 v) = v.
Proof. intros H. rewrite le_value_bytes. by apply Z.mod_small. Qed.
Lemma le_bytes_u32 v : le_bytes 4 (u32 v) = le_bytes 4 v.
Proof.
  unfold le_bytes. apply list_fmap_ext. intros i x [-> Hi]%lookup_seq. cbn. f_equal.
  change 255 with (Z.ones 8). apply Z.bits_inj'. intros k Hk.
  rewrite !Z.land_spec, !Z.shiftr_spec by lia. destruct (decide (k < 8)) as [Hlt|Hge].
  - unfold u32. by rewrite Z.mod_pow2_bits_low by lia.
  - by rewrite Z.ones_spec_high, !andb_false_r by lia.
Qed.
#[export] Hint Rewrite length_le_bytes @length_app @length_take @length_drop : bytes.

(** ** Character strings *)

Definition chars (s : string) : list byte := Stdlib.Strings.String.list_byte_of_string s.
Definition string_of (bytes : list byte) : string := Stdlib.Strings.String.string_of_list_byte bytes.
(** [s.size()] *)
Definition str_size (s : string) : nat := Stdlib.Strings.String.length s.
Definition UINT16_MAX : nat := Z.to_nat 65535.
(** [std::string_view{s}.substr(0, n)] *)
Definition truncated (n : nat) (s : string) : string := Stdlib.Strings.String.substring 0 n s.

Lemma string_of_chars s : string_of (chars s) = s.
Proof. apply Stdlib.Strings.String.string_of_list_byte_of_string. Qed.
Lemma chars_string_of l : chars (string_of l) = l.
Proof. apply Stdlib.Strings.String.list_byte_of_string_of_list_byte. Qed.
Lemma length_chars s : length (chars s) = str_size s.
Proof. unfold chars, Stdlib.Strings.String.list_byte_of_string. rewrite List.length_map. induction s; cbn; auto. Qed.

Lemma truncated_size n s : (str_size (truncated n s) <= n)%nat.
Proof. unfold str_size, truncated. revert n. induction s as [|c s IH]; intros [|n]; cbn; try lia. specialize (IH n). lia. Qed.
Lemma truncated_short n s : (str_size s <= n)%nat -> truncated n s = s.
Proof.
  unfold str_size, truncated. revert n. induction s as [|c s IH]; intros [|n] H; cbn in *; try done; [lia|].
  by rewrite IH by lia.
Qed.
Lemma truncated_truncated n s : truncated n (truncated n s) = truncated n s.
Proof. apply truncated_short, truncated_size. Qed.
#[export] Hint Rewrite length_chars : bytes.
