(* ===== verification/Payload.v ===== *)
(** Payloads (include/sub0pipeline/remote/payload.hpp): a job's input or output
    bytes, owned or viewed, or an opaque key. *)
From S2P Require Import Prelude Bytes.

Inductive PayloadKind : Set := kNone | kInline | kHandle | kReference.
#[export] Instance PayloadKind_eq_dec : EqDecision PayloadKind.
Proof. solve_decision. Defined.

Definition PayloadKind_u8 (k : PayloadKind) : Z :=
  match k with kNone => 0 | kInline => 1 | kHandle => 2 | kReference => 3 end.

Definition kMaxHandleBytes : nat := 64.

(** [view_] is what the span shows and [owner_] what keeps it alive; a payload
    with an owner shows the view and one without shows the bytes it holds. The
    storage behind a view must not change while its owner lives, so the view is
    its contents; who releases the storage is the strategies' concern. *)
Record Payload := mkPayload {
  kind_ : PayloadKind;
  bytes_ : list byte;
  view_ : list byte;
  owner_ : option positive
}.
#[export] Instance Payload_eq_dec : EqDecision Payload.
Proof. solve_decision. Defined.

Definition Payload_empty : Payload := mkPayload kNone [] [] None.
Definition inlineBytes (bytes : list byte) : Payload := mkPayload kInline bytes [] None.
Definition view (bytes : list byte) (owner : option positive) : Payload := mkPayload kInline [] bytes owner.
Definition handle (key : list byte) : Payload := mkPayload kHandle key [] None.
Definition reference (r : list byte) : Payload := mkPayload kReference r [] None.

Definition kind (p : Payload) : PayloadKind := kind_ p.
Definition bytes (p : Payload) : list byte :=
  match owner_ p with Some _ => view_ p | None => bytes_ p end.

(** [operator==]: kind and byte content, whoever owns the bytes. *)
Definition Payload_eqb (a b : Payload) : bool :=
  bool_decide (kind_ a = kind_ b) && bool_decide (bytes a = bytes b).

#[export] Instance Payload_equiv : Equiv Payload := fun a b => kind_ a = kind_ b /\ bytes a = bytes b.
#[export] Instance Payload_equivalence : Equivalence (≡@{Payload}).
Proof. split; [by intros p|by intros p q [? ?]|intros p q r [? ?] [? ?]; split; congruence]. Qed.
#[export] Instance kind_proper : Proper ((≡@{Payload}) ==> (=)) kind.
Proof. by intros p q []. Qed.
#[export] Instance bytes_proper : Proper ((≡@{Payload}) ==> (=)) bytes.
Proof. by intros p q []. Qed.

Lemma Payload_eqb_equiv a b : Payload_eqb a b = true <-> a ≡ b.
Proof. unfold Payload_eqb. rewrite andb_true_iff, !bool_decide_eq_true. done. Qed.

(** The payload with the same content that holds its own bytes: what decoding a
    payload produces. *)
Definition owned (p : Payload) : Payload := mkPayload (kind_ p) (bytes p) [] None.
Lemma owned_equiv p : owned p ≡ p.
Proof. done. Qed.
#[export] Instance owned_proper : Proper ((≡@{Payload}) ==> (=)) owned.
Proof. intros p q [Hk Hb]. unfold owned. by rewrite Hk, Hb. Qed.

(** What every public constructor ensures: an empty payload shows no bytes. *)
Definition payload_ok (p : Payload) : Prop := kind_ p = kNone -> bytes p = [].
#[export] Instance payload_ok_proper : Proper ((≡@{Payload}) ==> iff) payload_ok.
Proof. intros p q [Hk Hb]. unfold payload_ok. by rewrite Hk, Hb. Qed.

Lemma Payload_empty_ok : payload_ok Payload_empty.
Proof. done. Qed.
Lemma inlineBytes_ok b : payload_ok (inlineBytes b).
Proof. done. Qed.
Lemma view_ok b o : payload_ok (view b o).
Proof. done. Qed.
Lemma handle_ok b : payload_ok (handle b).
Proof. done. Qed.
Lemma reference_ok b : payload_ok (reference b).
Proof. done. Qed.
Create HintDb payloads.
#[export] Hint Resolve Payload_empty_ok inlineBytes_ok view_ok handle_ok reference_ok : payloads.
