(* ===== verification/SubGraph.v ===== *)
(** Requests and replies (include/sub0pipeline/remote/subgraph.hpp): jobs of
    registered kinds and the edges between them, and one result per job. *)
From S2P Require Import Prelude Types Bytes Payload.

Record JobKindId := mkKind { kname : string; kversion : Z }.
#[export] Instance JobKindId_eq_dec : EqDecision JobKindId.
Proof. solve_decision. Defined.

Record RequestJob := mkRequestJob { jkind : JobKindId; input : Payload; exported : bool }.
Record Edge := mkEdge { from : Z; to : Z }.
Record SubGraphRequest := mkRequest { jobs_ : list RequestJob; edges_ : list Edge }.

Definition jobs (r : SubGraphRequest) : list RequestJob := jobs_ r.
Definition edges (r : SubGraphRequest) : list Edge := edges_ r.
Definition SubGraphRequest_empty : SubGraphRequest := mkRequest [] [].

(** [add]: the request and the new job's index. *)
Definition add (r : SubGraphRequest) (kind : JobKindId) (input : Payload) (exported : bool) :
    SubGraphRequest * Z :=
  let js := jobs_ r ++ [mkRequestJob kind input exported] in
  (mkRequest js (edges_ r), u32 (zlen js - 1)).

(** [edge]: refuses an index out of range and a job's edge to itself. *)
Definition edge (r : SubGraphRequest) (f t : Z) : SubGraphRequest * bool :=
  if (zlen (jobs_ r) <=? f) || (zlen (jobs_ r) <=? t) || (f =? t) then (r, false)
  else (mkRequest (jobs_ r) (edges_ r ++ [mkEdge f t]), true).

Definition exportOutput (r : SubGraphRequest) (job : Z) : SubGraphRequest :=
  if job <? zlen (jobs_ r)
  then mkRequest (alter (fun j => mkRequestJob (jkind j) (input j) true) (Z.to_nat job) (jobs_ r)) (edges_ r)
  else r.

(** Values a field of the C++ type can hold; [edge] keeps the rest. *)
Definition kind_typed (k : JobKindId) : Prop := is_u32 (kversion k).
Definition edge_ok (jobs : list RequestJob) (e : Edge) : Prop :=
  0 <= from e < zlen jobs /\ 0 <= to e < zlen jobs /\ from e <> to e.
Record request_ok (r : SubGraphRequest) : Prop := {
  ro_jobs : Forall (fun j => kind_typed (jkind j) /\ payload_ok (input j)) (jobs_ r);
  ro_edges : Forall (edge_ok (jobs_ r)) (edges_ r)
}.

Lemma request_empty_ok : request_ok SubGraphRequest_empty.
Proof. by split. Qed.

Lemma edge_ok_grow js ks e : edge_ok js e -> edge_ok (js ++ ks) e.
Proof. unfold edge_ok, zlen. rewrite length_app. lia. Qed.

Lemma add_ok r k p x : request_ok r -> kind_typed k -> payload_ok p -> request_ok (add r k p x).1.
Proof.
  intros [Hj He] Hk Hp. split; cbn.
  - by apply Forall_app_2; [|apply Forall_singleton].
  - eapply Forall_impl; [exact He|]. intros e. apply edge_ok_grow.
Qed.

Lemma edge_checks r f t :
  0 <= f -> 0 <= t -> (edge r f t).2 = true <-> edge_ok (jobs_ r) (mkEdge f t).
Proof.
  intros Hf Ht. unfold edge, edge_ok. cbn.
  destruct (zlen (jobs_ r) <=? f) eqn:E1; destruct (zlen (jobs_ r) <=? t) eqn:E2; destruct (f =? t) eqn:E3; cbn;
    (split; [|intros (? & ? & ?)]); try done; lia.
Qed.

Lemma edge_true r f t : 0 <= f -> 0 <= t -> edge_ok (jobs_ r) (mkEdge f t) ->
  edge r f t = (mkRequest (jobs_ r) (edges_ r ++ [mkEdge f t]), true).
Proof.
  intros Hf Ht He. apply edge_checks in He as Ht2; [|done..]. unfold edge in *. revert Ht2.
  by destruct ((_ || _) || _).
Qed.

Lemma edge_keeps_ok r f t : 0 <= f -> 0 <= t -> request_ok r -> request_ok (edge r f t).1.
Proof.
  intros Hf Ht [Hj He]. pose proof (edge_checks r f t Hf Ht) as Hc. unfold edge in *.
  destruct ((_ || _) || _); [by split|]. cbn in *. split; cbn; [done|].
  apply Forall_app_2; [done|]. apply Forall_singleton. by apply Hc.
Qed.

(** ** Replies *)

(** The statuses and errors of a result are enumerations whose underlying type
    is [uint8_t], filled with whatever byte a peer sent, so they are kept as
    that byte. *)
Record JobResult := mkResult { status : Z; error : Z; message : string; output : Payload }.
Definition JobResult_default : JobResult :=
  mkResult (JobStatus_u8 kPending) (PipelineError_u8 kJobFailed) EmptyString Payload_empty.
Record SubGraphReply := mkReply { results : list JobResult }.

Definition is_failure (r : JobResult) : bool :=
  (status r =? JobStatus_u8 kFailed) || (status r =? JobStatus_u8 kCancelled)
  || (status r =? JobStatus_u8 kTimedOut).

Fixpoint first_failure_from (i : nat) (l : list JobResult) : option nat :=
  match l with
  | [] => None
  | r :: rest => if is_failure r then Some i else first_failure_from (S i) rest
  end.
Definition firstFailure (reply : SubGraphReply) : option nat := first_failure_from 0 (results reply).

Lemma first_failure_from_spec l i :
  match first_failure_from i l with
  | Some k => exists j r, k = (i + j)%nat /\ l !! j = Some r /\ is_failure r = true /\
      forall j' r', (j' < j)%nat -> l !! j' = Some r' -> is_failure r' = false
  | None => Forall (fun r => is_failure r = false) l
  end.
Proof.
  revert i. induction l as [|r l IH]; intros i; cbn; [constructor|]. destruct (is_failure r) eqn:E.
  - exists 0%nat, r. repeat split; [lia|done|]. intros; lia.
  - specialize (IH (S i)). destruct (first_failure_from (S i) l) as [k|].
    + destruct IH as (j & x & -> & Hj & Hx & Hlt). exists (S j), x. repeat split; [lia|done..|].
      intros [|j'] r' ? Hr; simplify_eq/=; [done|]. eapply Hlt; [|done]. lia.
    + by constructor.
Qed.
