(* ===== verification/Wire.v ===== *)
(** The remote protocol's frames (include/sub0pipeline/remote/wire.hpp,
    src/remote/wire.cpp): the writer and the bounds-checked reader, and the
    encoding and decoding of every frame. *)
From S2P Require Import Prelude Types Bytes Payload SubGraph.

Definition kProtocolMajor : Z := 1.
Definition kProtocolMinor : Z := 1.
Definition kProtocolMagic : Z := 0x4C503053.
Definition kMaxJobs : Z := 65536.
Definition UINT8_MAX : nat := 255.

(** [FrameReader::kHeaderBytes]: the u32 body length and the u8 type. *)
Definition kHeaderBytes : nat := 5.

Inductive FrameType : Set :=
  | kHello | kHelloAck | kHelloReject | kRequest | kReply | kCancel | kPayload.
#[export] Instance FrameType_eq_dec : EqDecision FrameType.
Proof. solve_decision. Defined.

Definition FrameType_u8 (t : FrameType) : Z :=
  match t with
  | kHello => 1 | kHelloAck => 2 | kHelloReject => 3 | kRequest => 4
  | kReply => 5 | kCancel => 6 | kPayload => 7
  end.

(** [static_cast<FrameType>] of a byte the caller has range-checked. *)
Definition FrameType_of (v : Z) : option FrameType :=
  match v with
  | 1 => Some kHello | 2 => Some kHelloAck | 3 => Some kHelloReject | 4 => Some kRequest
  | 5 => Some kReply | 6 => Some kCancel | 7 => Some kPayload | _ => None
  end.

Record StrategyOffer := mkOffer { offer_name : string; setup : list byte }.
Record Hello := mkHello {
  major : Z; minor : Z; fingerprint : Z; maxInFlight : Z; maxInlineBytes : Z;
  strategies : list StrategyOffer
}.
Definition kVersion : Z := 1.
Definition kFingerprint : Z := 2.
Record HelloReject := mkReject { reason : Z; detail : string }.

(** ** Writer *)

Abbreviation Writer := (list byte).

Definition new_writer (type : FrameType) : Writer :=
  <[4%nat := to_byte (FrameType_u8 type)]> (replicate kHeaderBytes x00).

Definition little (w : Writer) (v : Z) (n : nat) : Writer := w ++ le_bytes n v.
Definition put_u8 (w : Writer) (v : Z) : Writer := w ++ [to_byte v].
Definition put_u16 (w : Writer) (v : Z) : Writer := little w v 2.
Definition put_u32 (w : Writer) (v : Z) : Writer := little w v 4.
Definition put_u64 (w : Writer) (v : Z) : Writer := little w v 8.
Definition put_string (w : Writer) (s : string) : Writer :=
  put_u16 w (u16 (Z.of_nat (str_size s))) ++ chars s.
Definition put_blob (w : Writer) (b : list byte) : Writer := put_u32 w (u32 (zlen b)) ++ b.
Definition put_payload (w : Writer) (p : Payload) : Writer :=
  put_blob (put_u8 w (PayloadKind_u8 (kind p))) (bytes p).

(** [finish]: the body length goes into the first four bytes. *)
Definition finish (w : Writer) : list byte :=
  let body := u32 (zlen w - Z.of_nat kHeaderBytes) in
  foldl (fun out i => <[i := to_byte (Z.land (Z.shiftr body (8 * Z.of_nat i)) 255)]> out) w (seq 0 4).

(** ** Reader

    Bounds-checked reads; a failed read latches and every later read fails. *)
Record Reader := mkReader { body_ : list byte; pos_ : nat; ok_ : bool }.
Definition new_reader (body : list byte) : Reader := mkReader body 0 true.
Definition ok (r : Reader) : bool := ok_ r.
Definition remaining (r : Reader) : nat := if ok_ r then length (body_ r) - pos_ r else 0.

Definition take_bytes (r : Reader) (n : nat) : bool * Reader :=
  if negb (ok_ r) || (length (body_ r) - pos_ r <? n)%nat
  then (false, mkReader (body_ r) (pos_ r) false)
  else (true, mkReader (body_ r) (pos_ r + n) (ok_ r)).

(** The [n] bytes that end at the position. *)
Definition taken (r : Reader) (n : nat) : list byte := slice (body_ r) (pos_ r - n) n.

Definition read_little (n : nat) (r : Reader) : Z * Reader :=
  let '(t, r) := take_bytes r n in if t then (le_value (taken r n), r) else (0, r).
Definition get_u8 : Reader -> Z * Reader := read_little 1.
Definition get_u16 : Reader -> Z * Reader := read_little 2.
Definition get_u32 : Reader -> Z * Reader := read_little 4.
Definition get_u64 : Reader -> Z * Reader := read_little 8.

Definition get_string (r : Reader) : string * Reader :=
  let '(n, r) := get_u16 r in
  let '(t, r) := take_bytes r (Z.to_nat n) in
  (if t then string_of (taken r (Z.to_nat n)) else EmptyString, r).

Definition get_blob (r : Reader) : list byte * Reader :=
  let '(n, r) := get_u32 r in
  let '(t, r) := take_bytes r (Z.to_nat n) in
  (if t then taken r (Z.to_nat n) else [], r).

Definition get_payload (r : Reader) : option Payload * Reader :=
  let '(kind, r) := get_u8 r in
  let '(data, r) := get_blob r in
  if negb (ok_ r) then (None, r) else
  match kind with
  | 0 => (if bool_decide (data = []) then Some Payload_empty else None, r)
  | 1 => (Some (inlineBytes data), r)
  | 2 => (if (kMaxHandleBytes <? length data)%nat then None else Some (handle data), r)
  | 3 => (Some (reference data), r)
  | _ => (None, r)
  end.

(** ** Frames *)

Definition frameType (frame : list byte) : option FrameType :=
  if (length frame <? kHeaderBytes)%nat then None else
  let body := le_value (take 4 frame) in
  if negb (body =? zlen frame - Z.of_nat kHeaderBytes) then None else
  let type := to_integer (default x00 (frame !! 4%nat)) in
  if (type <? FrameType_u8 kHello) || (FrameType_u8 kPayload <? type) then None
  else FrameType_of type.

Definition bodyOf (frame : list byte) (type : FrameType) : option (list byte) :=
  if bool_decide (frameType frame = Some type) then Some (drop kHeaderBytes frame) else None.

Definition fits (p : Payload) : bool :=
  match kind p with
  | kHandle => (length (bytes p) <=? kMaxHandleBytes)%nat
  | _ => zlen (bytes p) <=? 2 ^ 32 - 1
  end.

(** A non-null entry of [overrides] is encoded instead of the job's payload. *)
Definition overridden (overrides : list (option Payload)) (i : nat) (p : Payload) : Payload :=
  match overrides !! i with Some (Some q) => q | _ => p end.

Definition put_offer (w : Writer) (o : StrategyOffer) : Writer :=
  put_blob (put_string w (truncated UINT16_MAX (offer_name o))) (setup o).

(** A hello lists its offers; an ack carries the chosen strategy or an empty name. *)
Definition encodeHello (type : FrameType) (hello : Hello) : list byte :=
  let w := new_writer type in
  let w := put_u32 w kProtocolMagic in
  let w := put_u16 w (major hello) in
  let w := put_u16 w (minor hello) in
  let w := put_u64 w (fingerprint hello) in
  let w := put_u32 w (maxInFlight hello) in
  let w := put_u32 w (maxInlineBytes hello) in
  let w :=
    match type with
    | kHello =>
      let count := Nat.min (length (strategies hello)) UINT8_MAX in
      foldl put_offer (put_u8 w (u8 (Z.of_nat count))) (take count (strategies hello))
    | _ =>
      match strategies hello with
      | chosen :: _ => put_offer w chosen
      | [] => put_blob (put_string w EmptyString) []
      end
    end in
  finish w.

Definition encodeReject (reject : HelloReject) : list byte :=
  finish (put_string (put_u8 (new_writer kHelloReject) (reason reject))
                     (truncated UINT16_MAX (detail reject))).

Definition put_request_job (w : Writer) (job : RequestJob) (input : Payload) : option Writer :=
  if (UINT16_MAX <? str_size (kname (jkind job)))%nat || negb (fits input) then None else
  let w := put_string w (kname (jkind job)) in
  let w := put_u32 w (kversion (jkind job)) in
  let w := put_u8 w (if exported job then 1 else 0) in
  Some (put_payload w input).

(** The loop over the request's jobs from index [i]. *)
Fixpoint put_request_jobs (w : Writer) (jobs : list RequestJob) (overrides : list (option Payload)) (i : nat) :
    option Writer :=
  match jobs with
  | [] => Some w
  | job :: rest =>
    match put_request_job w job (overridden overrides i (input job)) with
    | None => None
    | Some w => put_request_jobs w rest overrides (S i)
    end
  end.

Definition put_edge (w : Writer) (e : Edge) : Writer := put_u32 (put_u32 w (from e)) (to e).

Definition encodeRequest (id : Z) (request : SubGraphRequest) (overrides : list (option Payload)) :
    option (list byte) :=
  if kMaxJobs <? zlen (jobs request) then None else
  if negb (bool_decide (overrides = [])) && negb (length overrides =? length (jobs request))%nat then None else
  let w := put_u64 (new_writer kRequest) id in
  let w := put_u32 w (u32 (zlen (jobs request))) in
  match put_request_jobs w (jobs request) overrides 0 with
  | None => None
  | Some w =>
    let w := put_u32 w (u32 (zlen (edges request))) in
    Some (finish (foldl put_edge w (edges request)))
  end.

Definition put_result (w : Writer) (r : JobResult) (output : Payload) : Writer :=
  let w := put_u8 w (status r) in
  let w := put_u8 w (error r) in
  let w := put_string w (truncated UINT16_MAX (message r)) in
  put_payload w output.

Fixpoint put_results (w : Writer) (results : list JobResult) (overrides : list (option Payload)) (i : nat) :
    Writer :=
  match results with
  | [] => w
  | r :: rest => put_results (put_result w r (overridden overrides i (output r))) rest overrides (S i)
  end.

Definition encodeReply (id : Z) (reply : SubGraphReply) (overrides : list (option Payload)) : list byte :=
  let w := put_u64 (new_writer kReply) id in
  let w := put_u32 w (u32 (zlen (results reply))) in
  finish (put_results w (results reply) overrides 0).

(** The five header bytes of a payload frame. *)
Definition payloadFrameHeader (bodyBytes : Z) : list byte :=
  le_bytes 4 bodyBytes ++ [to_byte (FrameType_u8 kPayload)].

Definition encodeCancel (id : Z) : list byte := finish (put_u64 (new_writer kCancel) id).

Fixpoint get_offers (n : nat) (r : Reader) (acc : list StrategyOffer) : list StrategyOffer * Reader :=
  match n with
  | O => (acc, r)
  | S n =>
    let '(name, r) := get_string r in
    let '(setup, r) := get_blob r in
    get_offers n r (acc ++ [mkOffer name setup])
  end.

Definition decodeHello (frame : list byte) : option Hello :=
  let type := frameType frame in
  if negb (bool_decide (type = Some kHello)) && negb (bool_decide (type = Some kHelloAck)) then None else
  let r := new_reader (drop kHeaderBytes frame) in
  let '(magic, r) := get_u32 r in
  if negb (magic =? kProtocolMagic) then None else
  let '(major, r) := get_u16 r in
  let '(minor, r) := get_u16 r in
  let '(fingerprint, r) := get_u64 r in
  let '(maxInFlight, r) := get_u32 r in
  let '(maxInlineBytes, r) := get_u32 r in
  if negb (ok r) then None else
  let hello := mkHello major minor fingerprint maxInFlight maxInlineBytes in
  if (1 <=? minor) && (0 <? remaining r)%nat then
    let '(offers, r) :=
      if bool_decide (type = Some kHello) then
        let '(count, r) := get_u8 r in get_offers (Z.to_nat count) r []
      else
        let '(name, r) := get_string r in
        let '(setup, r) := get_blob r in
        (if String.eqb name EmptyString then [] else [mkOffer name setup], r) in
    if negb (ok r) then None else Some (hello offers)
  else Some (hello []).

Definition decodeReject (frame : list byte) : option HelloReject :=
  match bodyOf frame kHelloReject with
  | None => None
  | Some body =>
    let '(reason, r) := get_u8 (new_reader body) in
    let '(detail, r) := get_string r in
    if negb (ok r) then None else Some (mkReject reason detail)
  end.

Fixpoint get_request_jobs (n : nat) (r : Reader) (request : SubGraphRequest) :
    option (SubGraphRequest * Reader) :=
  match n with
  | O => Some (request, r)
  | S n =>
    let '(name, r) := get_string r in
    let '(version, r) := get_u32 r in
    let '(e, r) := get_u8 r in
    let '(input, r) := get_payload r in
    if negb (ok r) then None else
    match input with
    | None => None
    | Some input =>
      get_request_jobs n r (add request (mkKind name version) input (negb (e =? 0))).1
    end
  end.

Fixpoint get_edges (n : nat) (r : Reader) (request : SubGraphRequest) : option (SubGraphRequest * Reader) :=
  match n with
  | O => Some (request, r)
  | S n =>
    let '(f, r) := get_u32 r in
    let '(t, r) := get_u32 r in
    if negb (ok r) then None else
    let '(request, added) := edge request f t in
    if negb added then None else get_edges n r request
  end.

Definition decodeRequest (frame : list byte) : option (Z * SubGraphRequest) :=
  match bodyOf frame kRequest with
  | None => None
  | Some body =>
    let '(id, r) := get_u64 (new_reader body) in
    let '(jobs, r) := get_u32 r in
    if negb (ok r) || (kMaxJobs <? jobs) then None else
    match get_request_jobs (Z.to_nat jobs) r SubGraphRequest_empty with
    | None => None
    | Some (request, r) =>
      let '(edges, r) := get_u32 r in
      if negb (ok r) || (Z.of_nat (remaining r) / 8 <? edges) then None else
      match get_edges (Z.to_nat edges) r request with
      | None => None
      | Some (request, r) => if negb (ok r) then None else Some (id, request)
      end
    end
  end.

Fixpoint get_results (n : nat) (r : Reader) (acc : list JobResult) : option (list JobResult * Reader) :=
  match n with
  | O => Some (acc, r)
  | S n =>
    let '(status, r) := get_u8 r in
    let '(error, r) := get_u8 r in
    let '(message, r) := get_string r in
    let '(output, r) := get_payload r in
    if negb (ok r) then None else
    match output with
    | None => None
    | Some output => get_results n r (acc ++ [mkResult status error message output])
    end
  end.

Definition decodeReply (frame : list byte) : option (Z * SubGraphReply) :=
  match bodyOf frame kReply with
  | None => None
  | Some body =>
    let '(id, r) := get_u64 (new_reader body) in
    let '(count, r) := get_u32 r in
    if negb (ok r) || (kMaxJobs <? count) then None else
    match get_results (Z.to_nat count) r [] with
    | None => None
    | Some (results, _) => Some (id, mkReply results)
    end
  end.

Definition decodeCancel (frame : list byte) : option Z :=
  match bodyOf frame kCancel with
  | None => None
  | Some body =>
    let '(id, r) := get_u64 (new_reader body) in
    if negb (ok r) then None else Some id
  end.
