(* ===== verification/WireCodec.v ===== *)
(** The contract between the writer and the reader: what an operation of the
    writer appends, the matching operation of the reader takes off again. The
    frames' round trips are proved from this interface alone. *)
From S2P Require Import Prelude Types Bytes Payload SubGraph Wire.

(** [bs] is what the reader has still to read. *)
Definition ahead (r : Reader) (bs : list byte) : Prop :=
  ok_ r = true /\ (pos_ r <= length (body_ r))%nat /\ drop (pos_ r) (body_ r) = bs.

Lemma ahead_new body : ahead (new_reader body) body.
Proof. split; [done|]. split; [cbn; lia|done]. Qed.

Lemma ahead_ok r bs : ahead r bs -> ok r = true.
Proof. by intros []. Qed.

Lemma ahead_remaining r bs : ahead r bs -> remaining r = length bs.
Proof. intros (Hok & Hp & <-). unfold remaining. rewrite Hok, length_drop. done. Qed.

Lemma ahead_take r bs rest : ahead r (bs ++ rest) ->
  exists r', take_bytes r (length bs) = (true, r') /\ ahead r' rest /\ taken r' (length bs) = bs.
Proof.
  intros (Hok & Hp & Hd). unfold take_bytes. rewrite Hok. cbn [negb orb].
  assert (Hl : (length (body_ r) - pos_ r = length (bs ++ rest))%nat) by (by rewrite <- Hd, length_drop).
  rewrite Hl, length_app, (proj2 (Nat.ltb_ge _ _)) by lia.
  eexists. split; [reflexivity|]. rewrite length_app in Hl. split.
  - split; [done|]. cbn. split; [lia|]. by rewrite <- drop_drop, Hd, drop_app_length.
  - unfold taken, slice. cbn. rewrite Nat.add_sub, Hd. by rewrite take_app_length.
Qed.

(** A value of type [A] that the writer appends with [put] and the reader reads
    with [get], as the value [view a] of type [B]. *)
Class Codec {A B : Type} (put : Writer -> A -> Writer) (get : Reader -> B * Reader) := {
  codec_bytes : A -> list byte;
  codec_fits : A -> Prop;
  codec_view : A -> B;
  codec_put : forall w a, put w a = w ++ codec_bytes a;
  codec_get : forall r a rest, codec_fits a -> ahead r (codec_bytes a ++ rest) ->
    exists r', get r = (codec_view a, r') /\ ahead r' rest
}.

Lemma read_little_ahead n r v rest : ahead r (le_bytes n v ++ rest) ->
  le_value (le_bytes n v) = v -> exists r', read_little n r = (v, r') /\ ahead r' rest.
Proof.
  intros (r' & Ht & Ha & Hb)%ahead_take Hv. rewrite length_le_bytes in *. exists r'.
  unfold read_little. by rewrite Ht, Hb, Hv.
Qed.

#[export] Instance u16_codec : Codec put_u16 get_u16.
Proof.
  refine {| codec_bytes := le_bytes 2; codec_fits := is_u16; codec_view := fun v => v |}; [done|].
  intros r v rest Hv Ha. by apply (read_little_ahead _ _ _ _ Ha), le_value_u16.
Defined.
#[export] Instance u32_codec : Codec put_u32 get_u32.
Proof.
  refine {| codec_bytes := le_bytes 4; codec_fits := is_u32; codec_view := fun v => v |}; [done|].
  intros r v rest Hv Ha. by apply (read_little_ahead _ _ _ _ Ha), le_value_u32.
Defined.
#[export] Instance u64_codec : Codec put_u64 get_u64.
Proof.
  refine {| codec_bytes := le_bytes 8; codec_fits := is_u64; codec_view := fun v => v |}; [done|].
  intros r v rest Hv Ha. by apply (read_little_ahead _ _ _ _ Ha), le_value_u64.
Defined.

Lemma le_bytes_1 v : le_bytes 1 v = [to_byte v].
Proof. by rewrite le_bytes_succ. Qed.
Lemma le_value_u8 v : is_u8 v -> le_value (le_bytes 1 v) = v.
Proof. intros H. rewrite le_value_bytes. by apply Z.mod_small. Qed.

#[export] Instance u8_codec : Codec put_u8 get_u8.
Proof.
  refine {| codec_bytes := fun v => [to_byte v]; codec_fits := is_u8; codec_view := fun v => v |}; [done|].
  intros r v rest Hv Ha. rewrite <- le_bytes_1 in Ha. by apply (read_little_ahead _ _ _ _ Ha), le_value_u8.
Defined.

#[export] Instance string_codec : Codec put_string get_string.
Proof.
  refine {| codec_bytes := fun s => le_bytes 2 (u16 (Z.of_nat (str_size s))) ++ chars s;
            codec_fits := fun s => (str_size s <= UINT16_MAX)%nat; codec_view := fun s => s |}.
  - intros w s. unfold put_string, put_u16, little. by rewrite app_assoc.
  - intros r s rest Hs Ha. rewrite <- app_assoc in Ha. unfold UINT16_MAX in Hs.
    assert (Hn : is_u16 (Z.of_nat (str_size s))) by (unfold is_u16; lia).
    rewrite u16_small in Ha by done.
    destruct (@codec_get _ _ _ _ u16_codec r _ _ Hn Ha) as (r1 & H1 & Ha1). cbn in H1.
    apply ahead_take in Ha1 as (r2 & H2 & Ha2 & Hb). rewrite length_chars in H2, Hb.
    exists r2. split; [|done]. unfold get_string. rewrite H1, Nat2Z.id, H2, Hb. by rewrite string_of_chars.
Defined.

#[export] Instance blob_codec : Codec put_blob get_blob.
Proof.
  refine {| codec_bytes := fun b => le_bytes 4 (u32 (zlen b)) ++ b;
            codec_fits := fun b => zlen b < 2 ^ 32; codec_view := fun b => b |}.
  - intros w b. unfold put_blob, put_u32, little. by rewrite app_assoc.
  - intros r b rest Hb Ha. rewrite <- app_assoc in Ha.
    assert (Hn : is_u32 (zlen b)) by (unfold is_u32, zlen in *; lia).
    rewrite u32_small in Ha by done.
    destruct (@codec_get _ _ _ _ u32_codec r _ _ Hn Ha) as (r1 & H1 & Ha1). cbn in H1.
    apply ahead_take in Ha1 as (r2 & H2 & Ha2 & Ht).
    exists r2. split; [|done]. unfold get_blob. rewrite H1. unfold zlen. by rewrite Nat2Z.id, H2, Ht.
Defined.

(** A payload comes back holding its own bytes. *)
#[export] Instance payload_codec : Codec put_payload get_payload.
Proof.
  refine {| codec_bytes := fun p =>
              codec_bytes (put := put_u8) (get := get_u8) (PayloadKind_u8 (kind p)) ++
              codec_bytes (put := put_blob) (get := get_blob) (bytes p);
            codec_fits := fun p => payload_ok p /\ fits p = true;
            codec_view := fun p => Some (owned p) |}.
  - intros w p. unfold put_payload. by rewrite (codec_put (put := put_blob)), (codec_put (put := put_u8)), <- app_assoc.
  - intros r p rest [Hok Hf] Ha. rewrite <- app_assoc in Ha.
    assert (Hk : is_u8 (PayloadKind_u8 (kind p))) by (by destruct (kind p)).
    destruct (@codec_get _ _ _ _ u8_codec r _ _ Hk Ha) as (r1 & H1 & Ha1).
    assert (Hb : zlen (bytes p) < 2 ^ 32).
    { unfold fits, kMaxHandleBytes, zlen in *. destruct (kind p); try lia. apply Nat.leb_le in Hf. lia. }
    destruct (@codec_get _ _ _ _ blob_codec r1 _ _ Hb Ha1) as (r2 & H2 & Ha2).
    exists r2. split; [|done]. unfold get_payload. rewrite H1, H2. cbn [codec_view u8_codec blob_codec].
    rewrite (ahead_ok _ _ Ha2 : ok_ r2 = true). cbn [negb]. unfold owned, payload_ok, fits, kind in *.
    destruct (kind_ p); cbn [PayloadKind_u8]; try done.
    + by rewrite (Hok eq_refl).
    + apply Nat.leb_le in Hf. by rewrite (proj2 (Nat.ltb_ge _ _) Hf).
Defined.
#[global] Arguments codec_bytes : simpl never.

(** [reads H as r by tac]: [H] says a codec's bytes are ahead of the reader; the
    goal's read of them is replaced by its value and [H] moves past it. *)
Tactic Notation "reads" hyp(H) "as" ident(r') "by" tactic3(t) :=
  lazymatch type of H with
  | ahead ?r (@codec_bytes _ _ _ _ ?C ?a ++ ?rest) =>
    let E := fresh "E" in let F := fresh "F" in let H' := fresh H in
    assert (F : @codec_fits _ _ _ _ C a) by t;
    destruct (@codec_get _ _ _ _ C r a rest F H) as (r' & E & H');
    rewrite E; clear E F H; rename H' into H;
    cbn [codec_view u8_codec u16_codec u32_codec u64_codec string_codec blob_codec payload_codec]
  end.

(** ** The reader stays inside its buffer *)

Definition in_bounds (r : Reader) : Prop := (pos_ r <= length (body_ r))%nat.

Lemma take_bytes_bounds r n : in_bounds r ->
  in_bounds (take_bytes r n).2 /\ body_ (take_bytes r n).2 = body_ r /\
  ((take_bytes r n).1 = true -> length (taken (take_bytes r n).2 n) = n).
Proof.
  unfold in_bounds, take_bytes. intros Hp.
  destruct (negb (ok_ r)); cbn [orb]; [by repeat split|].
  destruct (Nat.ltb_spec (length (body_ r) - pos_ r) n); [by repeat split|].
  cbn [fst snd body_ pos_]. split; [lia|]. split; [done|]. intros _.
  unfold taken. apply length_slice. cbn. lia.
Qed.
