(* ===== verification/WireCorrect.v ===== *)
(** Round trips of the remote protocol's frames, and what a decoder guarantees
    of whatever bytes a peer sent. *)
From S2P Require Import Prelude Types Bytes Payload SubGraph Wire WireCodec.

Abbreviation enc_u8 := (codec_bytes (put := put_u8) (get := get_u8)).
Abbreviation enc_u16 := (codec_bytes (put := put_u16) (get := get_u16)).
Abbreviation enc_u32 := (codec_bytes (put := put_u32) (get := get_u32)).
Abbreviation enc_u64 := (codec_bytes (put := put_u64) (get := get_u64)).
Abbreviation enc_string := (codec_bytes (put := put_string) (get := get_string)).
Abbreviation enc_blob := (codec_bytes (put := put_blob) (get := get_blob)).
Abbreviation enc_payload := (codec_bytes (put := put_payload) (get := get_payload)).

Lemma put_u8_enc w v : put_u8 w v = w ++ enc_u8 v.
Proof. apply (codec_put (put := put_u8)). Qed.
Lemma put_u16_enc w v : put_u16 w v = w ++ enc_u16 v.
Proof. apply (codec_put (put := put_u16)). Qed.
Lemma put_u32_enc w v : put_u32 w v = w ++ enc_u32 v.
Proof. apply (codec_put (put := put_u32)). Qed.
Lemma put_u64_enc w v : put_u64 w v = w ++ enc_u64 v.
Proof. apply (codec_put (put := put_u64)). Qed.
Lemma put_string_enc w s : put_string w s = w ++ enc_string s.
Proof. apply (codec_put (put := put_string)). Qed.
Lemma put_blob_enc w b : put_blob w b = w ++ enc_blob b.
Proof. apply (codec_put (put := put_blob)). Qed.
Lemma put_payload_enc w p : put_payload w p = w ++ enc_payload p.
Proof. apply (codec_put (put := put_payload)). Qed.
Create Rewrite HintDb codecs.
#[export] Hint Rewrite put_u8_enc put_u16_enc put_u32_enc put_u64_enc put_string_enc put_blob_enc put_payload_enc
  : codecs.
#[export] Hint Rewrite <- @app_assoc : codecs.

(** ** The frame around a body *)

(** [finish] writes the length over the first four bytes, whatever they are. *)
Lemma finish_header h c b : length h = 4%nat -> finish (h ++ c :: b) = le_bytes 4 (zlen b) ++ c :: b.
Proof.
  destruct h as [|h0 [|h1 [|h2 [|h3 [|]]]]]; try done. intros _.
  unfold finish, kHeaderBytes. rewrite <- (le_bytes_u32 (zlen b)).
  replace (zlen ([h0; h1; h2; h3] ++ c :: b) - Z.of_nat 5) with (zlen b); [done|].
  unfold zlen. cbn [length app]. lia.
Qed.

Lemma finish_spec t b :
  finish (new_writer t ++ b) = le_bytes 4 (zlen b) ++ to_byte (FrameType_u8 t) :: b.
Proof. by apply (finish_header [x00; x00; x00; x00]). Qed.

Lemma FrameType_of_u8 t : FrameType_of (FrameType_u8 t) = Some t.
Proof. by destruct t. Qed.

Lemma frame_frameType t b : zlen b < 2 ^ 32 -> frameType (finish (new_writer t ++ b)) = Some t.
Proof.
  intros Hb. rewrite finish_spec. unfold frameType, kHeaderBytes.
  pose proof (length_le_bytes 4 (zlen b)) as Hl.
  rewrite (proj2 (Nat.ltb_ge _ _)) by (rewrite length_app, Hl; cbn; lia).
  rewrite <- Hl at 1. rewrite take_app_length, le_value_u32 by (unfold is_u32, zlen in *; lia).
  replace (zlen (_ ++ _) - Z.of_nat 5) with (zlen b)
    by (unfold zlen in *; rewrite length_app, Hl; cbn [length]; lia).
  rewrite Z.eqb_refl. cbn [negb]. rewrite lookup_app_r, Hl by lia.
  change (default x00 ((to_byte (FrameType_u8 t) :: b) !! (4 - 4)%nat)) with (to_byte (FrameType_u8 t)).
  rewrite to_integer_to_byte. by destruct t.
Qed.

Lemma frame_drop t b : drop kHeaderBytes (finish (new_writer t ++ b)) = b.
Proof. rewrite finish_spec. done. Qed.

Lemma frame_bodyOf t b : zlen b < 2 ^ 32 -> bodyOf (finish (new_writer t ++ b)) t = Some b.
Proof. intros Hb. unfold bodyOf. by rewrite frame_frameType, bool_decide_true, frame_drop. Qed.

Lemma length_frame t b : zlen (finish (new_writer t ++ b)) = zlen b + 5.
Proof. rewrite finish_spec. unfold zlen. rewrite length_app, length_le_bytes. cbn [length]. lia. Qed.

(** ** Requests *)

Definition job_bytes (job : RequestJob) (p : Payload) : list byte :=
  enc_string (kname (jkind job)) ++ enc_u32 (kversion (jkind job)) ++
  enc_u8 (if exported job then 1 else 0) ++ enc_payload p.

Fixpoint jobs_bytes (jobs : list RequestJob) (ov : list (option Payload)) (i : nat) : list byte :=
  match jobs with
  | [] => []
  | job :: rest => job_bytes job (overridden ov i (input job)) ++ jobs_bytes rest ov (S i)
  end.
Definition edge_bytes (e : Edge) : list byte := enc_u32 (from e) ++ enc_u32 (to e).

(** The job fits the format: its name's length and its payload's. *)
Definition job_fits (job : RequestJob) (p : Payload) : Prop :=
  (str_size (kname (jkind job)) <= UINT16_MAX)%nat /\ fits p = true.
Fixpoint jobs_fit (jobs : list RequestJob) (ov : list (option Payload)) (i : nat) : Prop :=
  match jobs with
  | [] => True
  | job :: rest => job_fits job (overridden ov i (input job)) /\ jobs_fit rest ov (S i)
  end.

(** The request as the peer receives it: the overriding payloads in place, and
    every payload holding its own bytes. *)
Definition as_sent (r : SubGraphRequest) (ov : list (option Payload)) : SubGraphRequest :=
  mkRequest (imap (fun i j => mkRequestJob (jkind j) (owned (overridden ov i (input j))) (exported j)) (jobs_ r))
            (edges_ r).

Lemma put_request_job_iff w job p w' :
  put_request_job w job p = Some w' <-> job_fits job p /\ w' = w ++ job_bytes job p.
Proof.
  unfold put_request_job, job_fits.
  destruct (Nat.ltb_spec UINT16_MAX (str_size (kname (jkind job)))); cbn [orb]; [split; [done|intros [[] _]; lia]|].
  destruct (fits p) eqn:Hf; cbn [negb]; [|split; [done|by intros [[] _]]].
  unfold job_bytes. autorewrite with codecs. split; [intros [= <-]; auto|]. by intros [_ ->].
Qed.

Lemma put_request_jobs_iff w jobs ov i w' :
  put_request_jobs w jobs ov i = Some w' <-> jobs_fit jobs ov i /\ w' = w ++ jobs_bytes jobs ov i.
Proof.
  revert w i. induction jobs as [|job rest IH]; intros w i; cbn.
  - rewrite app_nil_r. naive_solver.
  - destruct (put_request_job w job (overridden ov i (input job))) as [w1|] eqn:E.
    + apply put_request_job_iff in E as [Hf ->]. rewrite IH, <- app_assoc. naive_solver.
    + split; [done|]. intros [[Hf _] _].
      assert (Hw : put_request_job w job (overridden ov i (input job)) = Some (w ++ job_bytes job (overridden ov i (input job))))
        by by apply put_request_job_iff.
      by rewrite Hw in E.
Qed.

Lemma put_edges_bytes w es : foldl put_edge w es = w ++ concat (edge_bytes <$> es).
Proof.
  revert w. induction es as [|e es IH]; intros w; cbn; [by rewrite app_nil_r|].
  rewrite IH. unfold put_edge, edge_bytes. by autorewrite with codecs.
Qed.

Definition request_body (id : Z) (r : SubGraphRequest) (ov : list (option Payload)) : list byte :=
  enc_u64 id ++ enc_u32 (u32 (zlen (jobs_ r))) ++ jobs_bytes (jobs_ r) ov 0 ++
  enc_u32 (u32 (zlen (edges_ r))) ++ concat (edge_bytes <$> edges_ r).

(** The request fits the format, as [encodeRequest] checks it. *)
Record request_fits (r : SubGraphRequest) (ov : list (option Payload)) : Prop := {
  rf_jobs : zlen (jobs_ r) <= kMaxJobs;
  rf_overrides : ov = [] \/ length ov = length (jobs_ r);
  rf_each : jobs_fit (jobs_ r) ov 0
}.

Lemma encodeRequest_iff id r ov frame :
  encodeRequest id r ov = Some frame <->
  request_fits r ov /\ frame = finish (new_writer kRequest ++ request_body id r ov).
Proof.
  unfold encodeRequest, jobs, edges.
  destruct (Z.ltb_spec kMaxJobs (zlen (jobs_ r))); [split; [done|intros [[] _]; lia]|].
  destruct (decide (ov = [] \/ length ov = length (jobs_ r))) as [Ho|Ho].
  - assert (Hc : negb (bool_decide (ov = [])) && negb (length ov =? length (jobs_ r))%nat = false).
    { destruct Ho as [->| ->]; [done|]. by rewrite Nat.eqb_refl, andb_false_r. }
    rewrite Hc. autorewrite with codecs.
    destruct (put_request_jobs _ _ ov 0) as [w|] eqn:E.
    + apply put_request_jobs_iff in E as [Hf ->].
      rewrite put_u32_enc, put_edges_bytes. autorewrite with codecs. unfold request_body.
      split; [intros [= <-]|intros [_ ->]; done]. by repeat split.
    + split; [done|]. intros [[_ _ Hf] _].
      match type of E with put_request_jobs ?w _ _ _ = _ =>
        assert (Hw : put_request_jobs w (jobs_ r) ov 0 = Some (w ++ jobs_bytes (jobs_ r) ov 0))
          by by apply put_request_jobs_iff end.
      by rewrite Hw in E.
  - rewrite bool_decide_false by tauto. rewrite (proj2 (Nat.eqb_neq _ _)) by tauto. cbn.
    split; [done|]. by intros [[_ Ho' _] _].
Qed.

(** ** Reading a request back *)

Lemma get_request_jobs_bytes jobs ov i r req rest :
  Forall (fun j => kind_typed (jkind j)) jobs ->
  Forall (fun j => payload_ok (input j)) jobs -> Forall (fun o => from_option payload_ok True o) ov ->
  jobs_fit jobs ov i -> ahead r (jobs_bytes jobs ov i ++ rest) ->
  exists r', get_request_jobs (length jobs) r req =
      Some (mkRequest (jobs_ req ++ imap (fun k j => mkRequestJob (jkind j)
              (owned (overridden ov (i + k) (input j))) (exported j)) jobs) (edges_ req), r') /\
    ahead r' rest.
Proof.
  intros Hk Hp Hov. revert i r req. induction jobs as [|job js IH]; intros i r req Hf Ha.
  - exists r. cbn in *. rewrite app_nil_r. by destruct req.
  - cbn in Hf, Ha. destruct Hf as [[Hn Hfit] Hf]. apply Forall_cons in Hk as [Hk Hks].
    apply Forall_cons in Hp as [Hp Hps]. unfold job_bytes in Ha. rewrite <- !app_assoc in Ha.
    assert (Hok : payload_ok (overridden ov i (input job))).
    { unfold overridden. destruct (ov !! i) as [[q|]|] eqn:E; [|done..].
      apply (Forall_lookup_1 _ _ _ _ Hov) in E. done. }
    cbn [length get_request_jobs]. reads Ha as r1 by exact Hn. reads Ha as r2 by exact Hk.
    reads Ha as r3 by (cbn; unfold is_u8; destruct (exported job); lia).
    reads Ha as r4 by by split. rewrite (ahead_ok _ _ Ha). cbn [negb].
    destruct (IH Hks Hps (S i) r4 (add req (jkind job) (owned (overridden ov i (input job))) (exported job)).1 Hf Ha)
      as (r5 & E & Ha5). exists r5. split; [|done].
    replace (negb ((if exported job then 1 else 0) =? 0)) with (exported job) by by destruct (exported job).
    replace (mkKind (kname (jkind job)) (kversion (jkind job))) with (jkind job) by by destruct (jkind job).
    rewrite E. cbn. rewrite <- app_assoc, Nat.add_0_r. do 4 f_equal. cbn. f_equal.
    apply imap_ext. intros k j _. unfold compose. by replace (i + S k)%nat with (S i + k)%nat by lia.
Qed.

Lemma get_edges_bytes es r req rest :
  zlen (jobs_ req) <= 2 ^ 32 -> Forall (edge_ok (jobs_ req)) es -> ahead r (concat (edge_bytes <$> es) ++ rest) ->
  exists r', get_edges (length es) r req = Some (mkRequest (jobs_ req) (edges_ req ++ es), r') /\ ahead r' rest.
Proof.
  intros Hn. revert r req Hn. induction es as [|e es IH]; intros r req Hn He Ha.
  - exists r. cbn in *. rewrite app_nil_r. by destruct req.
  - apply Forall_cons in He as [He Hes]. cbn in Ha. unfold edge_bytes at 1 in Ha. rewrite <- !app_assoc in Ha.
    destruct He as (Hfr & Hto & Hne). cbn [length get_edges].
    reads Ha as r1 by (unfold codec_fits; cbn; unfold is_u32; lia).
    reads Ha as r2 by (unfold codec_fits; cbn; unfold is_u32; lia).
    rewrite (ahead_ok _ _ Ha), edge_true by (done || lia). cbn [negb].
    destruct (IH r2 (mkRequest (jobs_ req) (edges_ req ++ [mkEdge (from e) (to e)])) Hn Hes Ha) as (r3 & E & Ha3).
    exists r3. split; [|done]. rewrite E. cbn. rewrite <- app_assoc. by destruct e.
Qed.

Lemma length_edges_bytes es : length (concat (edge_bytes <$> es)) = (8 * length es)%nat.
Proof.
  induction es as [|e es IH]; [done|]. cbn. rewrite length_app, IH. unfold edge_bytes.
  rewrite length_app. change (length (enc_u32 (from e))) with (length (le_bytes 4 (from e))).
  change (length (enc_u32 (to e))) with (length (le_bytes 4 (to e))). rewrite !length_le_bytes. lia.
Qed.

Lemma request_body_edges id r ov : 8 * zlen (edges_ r) <= zlen (request_body id r ov).
Proof.
  unfold request_body. rewrite !zlen_app. unfold zlen. rewrite length_edges_bytes. lia.
Qed.

(** Within the length field's range the decoder reads back what was sent. *)
Lemma request_reads_back id r ov frame :
  is_u64 id -> request_ok r -> Forall (fun o => from_option payload_ok True o) ov ->
  encodeRequest id r ov = Some frame -> zlen frame - 5 < 2 ^ 32 ->
  decodeRequest frame = Some (id, as_sent r ov).
Proof.
  intros Hid [Hj He] Hov [[Hn _ Hf] ->]%encodeRequest_iff Hlen.
  rewrite length_frame in Hlen. apply Forall_and in Hj as [Hk Hp]. pose proof (request_body_edges id r ov) as Hed.
  unfold decodeRequest. rewrite frame_bodyOf by lia.
  pose proof (ahead_new (request_body id r ov)) as Ha. unfold request_body at 2 in Ha.
  unfold kMaxJobs in *. pose proof (zlen_nonneg (jobs_ r)). pose proof (zlen_nonneg (edges_ r)).
  rewrite !u32_small in Ha by (unfold is_u32; lia).
  reads Ha as r1 by exact Hid. reads Ha as r2 by (cbn; unfold is_u32; lia).
  rewrite (ahead_ok _ _ Ha), (proj2 (Z.ltb_ge _ _)) by (unfold kMaxJobs; lia). cbn [negb orb].
  unfold zlen at 1. rewrite Nat2Z.id.
  destruct (get_request_jobs_bytes (jobs_ r) ov 0 r2 SubGraphRequest_empty _ Hk Hp Hov Hf Ha) as (r3 & -> & Ha3).
  reads Ha3 as r4 by (cbn; unfold is_u32; lia).
  rewrite (ahead_ok _ _ Ha3), (ahead_remaining _ _ Ha3), length_edges_bytes.
  rewrite (proj2 (Z.ltb_ge _ _)) by (apply Z.div_le_lower_bound; unfold zlen; lia). cbn [negb orb].
  unfold zlen. rewrite Nat2Z.id. rewrite <- (app_nil_r (concat _)) in Ha3.
  eapply get_edges_bytes in Ha3 as (r5 & -> & Ha5); cbn.
  - by rewrite (ahead_ok _ _ Ha5).
  - unfold zlen. rewrite length_imap. unfold zlen in *. lia.
  - eapply Forall_impl; [exact He|]. intros e. unfold edge_ok, zlen. by rewrite length_imap.
Qed.

(** ** What a decoder guarantees *)

Lemma read_little_range n r : 0 <= (read_little n r).1 < 2 ^ (8 * Z.of_nat n).
Proof.
  unfold read_little. destruct (take_bytes r n) as [[] r']; cbn [fst]; [|split; [done|apply Z.pow_pos_nonneg; lia]].
  pose proof (le_value_range (taken r' n)) as [H0 H1]. split; [done|]. eapply Z.lt_le_trans; [exact H1|].
  apply Z.pow_le_mono_r; [lia|]. unfold zlen, taken, slice. rewrite length_take. lia.
Qed.

Lemma length_taken r n : (length (taken r n) <= n)%nat.
Proof. unfold taken, slice. rewrite length_take. lia. Qed.

Lemma get_string_fits r : (str_size (get_string r).1 <= UINT16_MAX)%nat.
Proof.
  unfold get_string, get_u16. pose proof (read_little_range 2 r) as [H0 H1].
  destruct (read_little 2 r) as [n r1]. cbn [fst] in *. destruct (take_bytes r1 (Z.to_nat n)) as [[] r2]; cbn [fst];
    [|cbn; lia]. rewrite <- length_chars, chars_string_of. pose proof (length_taken r2 (Z.to_nat n)).
  unfold UINT16_MAX. lia.
Qed.

Lemma get_blob_fits r : zlen (get_blob r).1 < 2 ^ 32.
Proof.
  unfold get_blob, get_u32. pose proof (read_little_range 4 r) as [H0 H1].
  destruct (read_little 4 r) as [n r1]. cbn [fst] in *.
  destruct (take_bytes r1 (Z.to_nat n)) as [[] r2]; cbn [fst]; [|done].
  pose proof (length_taken r2 (Z.to_nat n)). unfold zlen. lia.
Qed.

Lemma get_payload_ok r p : (get_payload r).1 = Some p -> payload_ok p /\ fits p = true.
Proof.
  unfold get_payload. destruct (get_u8 r) as [k r1]. pose proof (get_blob_fits r1) as Hb.
  destruct (get_blob r1) as [data r2]. cbn [fst] in Hb. destruct (negb (ok_ r2)); [done|].
  assert (Hz : (zlen data <=? 2 ^ 32 - 1) = true) by (apply Z.leb_le; lia).
  destruct k as [|[[| |]|[| |]|]|]; try done; cbn [fst].
  - case_bool_decide; intros [= <-]; auto with payloads.
  - intros [= <-]. auto with payloads.
  - destruct (Nat.ltb_spec kMaxHandleBytes (length data)); intros [= <-].
    split; [auto with payloads|]. by apply Nat.leb_le.
  - intros [= <-]. auto with payloads.
Qed.

(** No read leaves more than there was. *)
Lemma take_bytes_remaining r n : (remaining (take_bytes r n).2 <= remaining r)%nat.
Proof.
  unfold take_bytes, remaining. destruct (ok_ r); cbn [negb orb]; [|done].
  destruct (Nat.ltb_spec (length (body_ r) - pos_ r) n); cbn; lia.
Qed.
Lemma read_little_remaining n r : (remaining (read_little n r).2 <= remaining r)%nat.
Proof.
  unfold read_little. pose proof (take_bytes_remaining r n). by destruct (take_bytes r n) as [[] r'].
Qed.
Lemma get_string_remaining r : (remaining (get_string r).2 <= remaining r)%nat.
Proof.
  unfold get_string, get_u16. pose proof (read_little_remaining 2 r).
  destruct (read_little 2 r) as [n r1]. pose proof (take_bytes_remaining r1 (Z.to_nat n)).
  destruct (take_bytes r1 _) as [[] r2]; cbn in *; lia.
Qed.
Lemma get_payload_remaining r : (remaining (get_payload r).2 <= remaining r)%nat.
Proof.
  unfold get_payload, get_blob, get_u8, get_u32. pose proof (read_little_remaining 1 r).
  destruct (read_little 1 r) as [k r1]. pose proof (read_little_remaining 4 r1).
  destruct (read_little 4 r1) as [n r2]. pose proof (take_bytes_remaining r2 (Z.to_nat n)).
  destruct (take_bytes r2 _) as [t r3]. cbn [fst snd] in *. destruct (negb (ok_ r3)); cbn [snd]; [lia|].
  destruct k as [|[[| |]|[| |]|]|]; cbn [snd]; lia.
Qed.

(** Every job the decoder accepts has values of its fields' types and fits the format. *)
Definition received_job (j : RequestJob) : Prop :=
  kind_typed (jkind j) /\ payload_ok (input j) /\ job_fits j (input j).

Lemma jobs_fit_each jobs i : Forall received_job jobs -> jobs_fit jobs [] i.
Proof.
  revert i. induction jobs as [|j js IH]; intros i H; [done|].
  apply Forall_cons in H as [(_ & _ & Hj) H]. by split; [|apply IH].
Qed.

Lemma get_request_jobs_ok n r req req' r' :
  get_request_jobs n r req = Some (req', r') -> Forall received_job (jobs_ req) ->
  Forall received_job (jobs_ req') /\ zlen (jobs_ req') = zlen (jobs_ req) + Z.of_nat n /\
  edges_ req' = edges_ req /\ (remaining r' <= remaining r)%nat.
Proof.
  revert r req. induction n as [|n IH]; intros r req; cbn [get_request_jobs].
  { intros [= -> ->] H. split; [done|]. split; [lia|done]. }
  pose proof (get_string_fits r) as Hn. pose proof (get_string_remaining r). destruct (get_string r) as [name r1].
  pose proof (read_little_range 4 r1) as Hv. pose proof (read_little_remaining 4 r1).
  unfold get_u32, get_u8. destruct (read_little 4 r1) as [v r2]. pose proof (read_little_remaining 1 r2).
  destruct (read_little 1 r2) as [e r3]. pose proof (get_payload_ok r3) as Hp. pose proof (get_payload_remaining r3).
  destruct (get_payload r3) as [[p|] r4]; cbn [fst] in *; destruct (ok r4); cbn [negb]; try done.
  intros Hrec Hj. destruct (Hp p eq_refl) as [Hpo Hpf].
  destruct (IH _ _ Hrec) as (H4 & H5 & H6 & H7).
  { cbn. apply Forall_app_2; [done|]. apply Forall_singleton. split; [exact Hv|]. split; [exact Hpo|]. by split. }
  cbn in H, H0, H1, H2, H6. split; [done|]. split; [|split; [done|lia]].
  rewrite H5. unfold add. cbn [fst jobs_]. rewrite zlen_app. unfold zlen. cbn [length]. lia.
Qed.

Lemma get_edges_ok n r req req' r' :
  get_edges n r req = Some (req', r') -> Forall (edge_ok (jobs_ req)) (edges_ req) ->
  jobs_ req' = jobs_ req /\ Forall (edge_ok (jobs_ req')) (edges_ req') /\
  zlen (edges_ req') = zlen (edges_ req) + Z.of_nat n.
Proof.
  revert r req. induction n as [|n IH]; intros r req; cbn [get_edges].
  { intros [= -> ->] H. split; [done|]. split; [done|lia]. }
  pose proof (read_little_range 4 r) as Hf. unfold get_u32. destruct (read_little 4 r) as [f r1].
  pose proof (read_little_range 4 r1) as Ht. destruct (read_little 4 r1) as [t r2]. cbn [fst] in *.
  destruct (ok r2); cbn [negb]; [|done]. pose proof (edge_checks req f t) as Hc.
  destruct (edge req f t) as [req1 []] eqn:E; cbn [negb]; [|done].
  assert (He : edge_ok (jobs_ req) (mkEdge f t)) by (apply Hc; [lia..|done]).
  rewrite edge_true in E by (done || lia). injection E as <-.
  intros H Hj. destruct (IH _ _ H) as (H1 & H2 & H3); cbn in *.
  { apply Forall_app_2; [done|]. by apply Forall_singleton. }
  rewrite zlen_app in H3. unfold zlen in *. cbn [length] in *. split; [done|]. split; [done|lia].
Qed.

Lemma decoded_request_ok frame id req :
  decodeRequest frame = Some (id, req) ->
  is_u64 id /\ request_ok req /\ request_fits req [] /\ 8 * zlen (edges_ req) <= zlen frame.
Proof.
  unfold decodeRequest, bodyOf. case_bool_decide; [|done].
  set (r0 := new_reader (drop kHeaderBytes frame)).
  pose proof (read_little_range 8 r0) as Hid. pose proof (read_little_remaining 8 r0) as Hr1. unfold get_u64.
  destruct (read_little 8 _) as [i r1]. pose proof (read_little_remaining 4 r1) as Hr2. destruct (get_u32 r1) as [n r2] eqn:En. cbn [fst] in Hid.
  pose proof (read_little_range 4 r1) as Hn. unfold get_u32 in En. rewrite En in Hn, Hr2. cbn [fst] in Hn.
  destruct (ok r2); cbn [negb orb]; [|done]. destruct (Z.ltb_spec kMaxJobs n); [done|].
  destruct (get_request_jobs _ r2 _) as [[req1 r3]|] eqn:Ej; [|done].
  apply get_request_jobs_ok in Ej as (Hj & Hl & He & Hr3); [|constructor]. change (zlen (jobs_ SubGraphRequest_empty)) with 0 in Hl. cbn in He.
  pose proof (read_little_range 4 r3) as Hm. pose proof (read_little_remaining 4 r3) as Hr4.
  destruct (get_u32 r3) as [m r4] eqn:Em. unfold get_u32 in Em. rewrite Em in Hm, Hr4. cbn [fst] in Hm. destruct (ok r4) eqn:Eo; cbn [negb orb]; [|done].
  destruct (Z.ltb_spec (Z.of_nat (remaining r4) / 8) m); [done|].
  destruct (get_edges _ r4 req1) as [[req2 r5]|] eqn:Ee; [|done].
  apply get_edges_ok in Ee as (Hjs & Hes & Hle); [|by rewrite He]. rewrite He in Hle. change (zlen (@nil Edge)) with 0 in Hle.
  destruct (ok r5); cbn [negb]; [|done]. intros [= <- <-]. split; [done|]. split; [|split].
  - split; [|done]. rewrite Hjs. eapply Forall_impl; [exact Hj|]. by intros j (? & ? & ?).
  - split; [rewrite Hjs; lia|by left|]. rewrite Hjs. by apply jobs_fit_each.
  - assert (Hr0 : (remaining r0 <= length frame)%nat) 
      by (change (remaining r0) with (length (drop kHeaderBytes frame) - 0)%nat; rewrite length_drop; lia).
    cbn [fst snd] in *. assert (8 * m <= Z.of_nat (remaining r4)).
    { pose proof (Z.mul_div_le (Z.of_nat (remaining r4)) 8). lia. }
    unfold zlen in *. lia.
Qed.

(** C33. Whatever bytes a peer sends as a request, what the decoder accepts is a
    well-formed request: at most 65,536 jobs, every name, version and payload
    within the format's limits, an empty payload carrying no bytes, and every edge
    between two different jobs of the request, so that a worker may index its
    jobs by an edge's ends. In particular it could be encoded again. *)
Theorem decoded_request_wellformed frame id req :
  decodeRequest frame = Some (id, req) ->
  is_u64 id /\ request_ok req /\ request_fits req [] /\ 8 * zlen (edges_ req) <= zlen frame /\
  exists frame', encodeRequest id req [] = Some frame'.
Proof.
  intros H. destruct (decoded_request_ok _ _ _ H) as (H1 & H2 & H3 & H4). repeat (split; [done|]).
  eexists. by apply encodeRequest_iff.
Qed.

(** A frame too long for its length field is not one the decoder recognises. *)
Lemma oversized_frameType t b : 2 ^ 32 <= zlen b -> frameType (finish (new_writer t ++ b)) = None.
Proof.
  intros Hb. rewrite finish_spec. unfold frameType, kHeaderBytes.
  pose proof (length_le_bytes 4 (zlen b)) as Hl.
  rewrite (proj2 (Nat.ltb_ge _ _)) by (rewrite length_app, Hl; cbn; lia).
  rewrite <- Hl at 1. rewrite take_app_length, le_value_bytes.
  replace (zlen (_ ++ _) - Z.of_nat 5) with (zlen b)
    by (unfold zlen in *; rewrite length_app, Hl; cbn [length]; lia).
  pose proof (Z.mod_pos_bound (zlen b) (2 ^ (8 * Z.of_nat 4)) ltac:(lia)) as Hm.
  rewrite (proj2 (Z.eqb_neq _ _)); [done|]. change (2 ^ (8 * Z.of_nat 4)) with (2 ^ 32) in *. lia.
Qed.

Lemma oversized_request_unreadable id r ov frame :
  encodeRequest id r ov = Some frame -> 2 ^ 32 <= zlen frame - 5 -> decodeRequest frame = None.
Proof.
  intros [_ ->]%encodeRequest_iff Hl. rewrite length_frame in Hl. unfold decodeRequest, bodyOf.
  by rewrite oversized_frameType, bool_decide_false by (done || lia).
Qed.

(** C32. Whatever request the encoder accepts, the decoder reads back: a frame
    shorter than the format's 4 GiB limit decodes to the same id and the same
    request, with the overriding payloads in place of the inputs they replace
    and every payload holding its own bytes; a longer one is refused. *)
Theorem request_roundtrip id r ov frame :
  is_u64 id -> request_ok r -> Forall (fun o => from_option payload_ok True o) ov -> encodeRequest id r ov = Some frame ->
  decodeRequest frame = if zlen frame - 5 <? 2 ^ 32 then Some (id, as_sent r ov) else None.
Proof.
  intros Hid Hr Hov He. destruct (Z.ltb_spec (zlen frame - 5) (2 ^ 32)); [by apply request_reads_back|].
  by eapply oversized_request_unreadable.
Qed.

(** ** Replies *)

Definition result_bytes (r : JobResult) (p : Payload) : list byte :=
  enc_u8 (status r) ++ enc_u8 (error r) ++ enc_string (truncated UINT16_MAX (message r)) ++ enc_payload p.
Fixpoint results_bytes (rs : list JobResult) (ov : list (option Payload)) (i : nat) : list byte :=
  match rs with
  | [] => []
  | r :: rest => result_bytes r (overridden ov i (output r)) ++ results_bytes rest ov (S i)
  end.
Definition reply_body (id : Z) (reply : SubGraphReply) (ov : list (option Payload)) : list byte :=
  enc_u64 id ++ enc_u32 (u32 (zlen (results reply))) ++ results_bytes (results reply) ov 0.

(** The result's bytes are bytes, and the payload sent for it fits the format. *)
Definition result_ok (ov : list (option Payload)) (i : nat) (r : JobResult) : Prop :=
  is_u8 (status r) /\ is_u8 (error r) /\ payload_ok (overridden ov i (output r)) /\
  fits (overridden ov i (output r)) = true.

(** The reply as the peer receives it: messages cut to 65,535 bytes. *)
Definition result_as_sent (ov : list (option Payload)) (i : nat) (r : JobResult) : JobResult :=
  mkResult (status r) (error r) (truncated UINT16_MAX (message r)) (owned (overridden ov i (output r))).
Definition reply_as_sent (reply : SubGraphReply) (ov : list (option Payload)) : SubGraphReply :=
  mkReply (imap (result_as_sent ov) (results reply)).

Lemma put_results_bytes w rs ov i : put_results w rs ov i = w ++ results_bytes rs ov i.
Proof.
  revert w i. induction rs as [|r rs IH]; intros w i; cbn; [by rewrite app_nil_r|].
  rewrite IH. unfold put_result, result_bytes. by autorewrite with codecs.
Qed.

Lemma encodeReply_bytes id reply ov : encodeReply id reply ov = finish (new_writer kReply ++ reply_body id reply ov).
Proof. unfold encodeReply. rewrite put_results_bytes. by autorewrite with codecs. Qed.

Lemma get_results_bytes rs ov i r acc rest :
  (forall k x, rs !! k = Some x -> result_ok ov (i + k) x) -> ahead r (results_bytes rs ov i ++ rest) ->
  exists r', get_results (length rs) r acc = Some (acc ++ imap (fun k => result_as_sent ov (i + k)) rs, r') /\
    ahead r' rest.
Proof.
  revert i r acc. induction rs as [|x rs IH]; intros i r acc Hok Ha.
  - exists r. cbn in *. by rewrite app_nil_r.
  - pose proof (Hok 0%nat x eq_refl) as (Hs & He & Hp & Hf). rewrite Nat.add_0_r in *.
    cbn [results_bytes] in Ha. unfold result_bytes in Ha. rewrite <- !app_assoc in Ha. cbn [length get_results].
    reads Ha as r1 by exact Hs. reads Ha as r2 by exact He. reads Ha as r3 by apply truncated_size.
    reads Ha as r4 by by split. rewrite (ahead_ok _ _ Ha). cbn [negb].
    destruct (IH (S i) r4 (acc ++ [result_as_sent ov i x])) as (r5 & E & Ha5); [|exact Ha|].
    { intros k y Hy. replace (S i + k)%nat with (i + S k)%nat by lia. by apply Hok. }
    exists r5. split; [|done]. unfold result_as_sent at 1 in E. rewrite E, <- app_assoc. cbn.
    rewrite Nat.add_0_r. do 4 f_equal. apply imap_ext. intros k y _. unfold compose.
    by replace (i + S k)%nat with (S i + k)%nat by lia.
Qed.

Lemma reply_reads_back id reply ov :
  is_u64 id -> zlen (results reply) <= kMaxJobs ->
  (forall i r, results reply !! i = Some r -> result_ok ov i r) ->
  zlen (encodeReply id reply ov) - 5 < 2 ^ 32 ->
  decodeReply (encodeReply id reply ov) = Some (id, reply_as_sent reply ov).
Proof.
  intros Hid Hn Hok. rewrite encodeReply_bytes, length_frame. intros Hlen.
  unfold decodeReply. rewrite frame_bodyOf by lia.
  pose proof (ahead_new (reply_body id reply ov)) as Ha. unfold reply_body at 2 in Ha.
  unfold kMaxJobs in Hn. pose proof (zlen_nonneg (results reply)).
  rewrite u32_small in Ha by (unfold is_u32; lia).
  reads Ha as r1 by exact Hid. reads Ha as r2 by (cbn; unfold is_u32; lia).
  rewrite (ahead_ok _ _ Ha), (proj2 (Z.ltb_ge _ _)) by (unfold kMaxJobs; lia). cbn [negb orb].
  unfold zlen. rewrite Nat2Z.id. rewrite <- (app_nil_r (results_bytes _ _ _)) in Ha.
  apply (get_results_bytes _ _ _ _ []) in Ha as (r3 & -> & _); [done|]. exact Hok.
Qed.

Lemma oversized_reply_unreadable id reply ov : 2 ^ 32 <= zlen (encodeReply id reply ov) - 5 -> decodeReply (encodeReply id reply ov) = None.
Proof.
  rewrite encodeReply_bytes, length_frame. intros Hl. unfold decodeReply, bodyOf.
  by rewrite oversized_frameType, bool_decide_false by (done || lia).
Qed.

(** C34. A reply the worker encodes is the reply the coordinator decodes: the
    same id, one result per job in the same order with its status and error,
    messages cut to the format's length and the overriding payloads in place,
    provided the reply has at most 65,536 results and its outputs fit the format;
    a frame over 4 GiB is refused. *)
Theorem reply_roundtrip id reply ov :
  is_u64 id -> zlen (results reply) <= kMaxJobs -> (forall i r, results reply !! i = Some r -> result_ok ov i r) ->
  decodeReply (encodeReply id reply ov) =
    if zlen (encodeReply id reply ov) - 5 <? 2 ^ 32 then Some (id, reply_as_sent reply ov) else None.
Proof.
  intros Hid Hn Hok. destruct (Z.ltb_spec (zlen (encodeReply id reply ov) - 5) (2 ^ 32)).
  - by apply reply_reads_back.
  - by apply oversized_reply_unreadable.
Qed.

(** ** Handshakes *)

Record hello_ok (h : Hello) : Prop := {
  ho_major : is_u16 (major h);
  ho_minor : is_u16 (minor h);
  ho_fingerprint : is_u64 (fingerprint h);
  ho_inflight : is_u32 (maxInFlight h);
  ho_inline : is_u32 (maxInlineBytes h);
  ho_setups : Forall (fun o => zlen (setup o) < 2 ^ 32) (strategies h)
}.

Definition offer_as_sent (o : StrategyOffer) : StrategyOffer :=
  mkOffer (truncated UINT16_MAX (offer_name o)) (setup o).
(** The strategies the peer reads: none from a minor-0 sender, up to 255 offers
    from a hello, and from an ack the chosen one if it has a name. *)
Definition strategies_as_sent (t : FrameType) (h : Hello) : list StrategyOffer :=
  if minor h <? 1 then [] else
  match t with
  | kHello => offer_as_sent <$> take UINT8_MAX (strategies h)
  | _ => match strategies h with
         | chosen :: _ => if String.eqb (offer_name chosen) EmptyString then [] else [offer_as_sent chosen]
         | [] => []
         end
  end.
Definition hello_as_sent (t : FrameType) (h : Hello) : Hello :=
  mkHello (major h) (minor h) (fingerprint h) (maxInFlight h) (maxInlineBytes h) (strategies_as_sent t h).

(** A frame as a newer minor version would send it: the same fields and more. *)
Definition with_more_fields (frame more : list byte) : list byte := finish (frame ++ more).

Definition offer_bytes (o : StrategyOffer) : list byte :=
  enc_string (truncated UINT16_MAX (offer_name o)) ++ enc_blob (setup o).
Definition strategies_bytes (t : FrameType) (l : list StrategyOffer) : list byte :=
  match t with
  | kHello => enc_u8 (u8 (Z.of_nat (Nat.min (length l) UINT8_MAX))) ++
              concat (offer_bytes <$> take (Nat.min (length l) UINT8_MAX) l)
  | _ => match l with chosen :: _ => offer_bytes chosen | [] => enc_string EmptyString ++ enc_blob [] end
  end.
Definition hello_body (t : FrameType) (h : Hello) : list byte :=
  enc_u32 kProtocolMagic ++ enc_u16 (major h) ++ enc_u16 (minor h) ++ enc_u64 (fingerprint h) ++
  enc_u32 (maxInFlight h) ++ enc_u32 (maxInlineBytes h) ++ strategies_bytes t (strategies h).

Lemma put_offer_bytes w o : put_offer w o = w ++ offer_bytes o.
Proof. unfold put_offer, offer_bytes. by autorewrite with codecs. Qed.
Lemma put_offers_bytes w l : foldl put_offer w l = w ++ concat (offer_bytes <$> l).
Proof.
  revert w. induction l as [|o l IH]; intros w; cbn; [by rewrite app_nil_r|].
  by rewrite IH, put_offer_bytes, <- app_assoc.
Qed.

Lemma encodeHello_bytes t h : encodeHello t h = finish (new_writer t ++ hello_body t h).
Proof.
  unfold encodeHello, hello_body, strategies_bytes. autorewrite with codecs. f_equal.
  destruct t, (strategies h); rewrite ?put_offers_bytes, ?put_offer_bytes; by autorewrite with codecs.
Qed.

Lemma get_offers_bytes l r acc rest :
  Forall (fun o => zlen (setup o) < 2 ^ 32) l -> ahead r (concat (offer_bytes <$> l) ++ rest) ->
  exists r', get_offers (length l) r acc = (acc ++ (offer_as_sent <$> l), r') /\ ahead r' rest.
Proof.
  intros Hl. revert r acc. induction l as [|o l IH]; intros r acc Ha.
  - exists r. cbn in *. by rewrite app_nil_r.
  - apply Forall_cons in Hl as [Ho Hl]. cbn [fmap list_fmap concat] in Ha. unfold offer_bytes at 1 in Ha.
    rewrite <- !app_assoc in Ha. cbn [length get_offers].
    reads Ha as r1 by apply truncated_size. reads Ha as r2 by exact Ho.
    destruct (IH Hl r2 (acc ++ [offer_as_sent o]) Ha) as (r3 & E & Ha3). exists r3. split; [|done].
    unfold offer_as_sent at 1 in E. by rewrite E, <- app_assoc.
Qed.

Lemma truncated_empty s : String.eqb (truncated UINT16_MAX s) EmptyString = String.eqb s EmptyString.
Proof.
  destruct s as [|c s]; [done|]. unfold truncated.
  assert (exists n, UINT16_MAX = S n) as [n ->] by (exists (Z.to_nat 65534); unfold UINT16_MAX; lia). done.
Qed.

Lemma strategies_bytes_nonempty t l more : (0 < length (strategies_bytes t l ++ more))%nat.
Proof.
  rewrite length_app. destruct t; cbn; try lia; destruct l as [|o l]; unfold offer_bytes, codec_bytes; cbn; lia.
Qed.

Lemma take_min {A} (l : list A) n : take (Nat.min (length l) n) l = take n l.
Proof.
  destruct (decide (length l <= n)%nat).
  - rewrite Nat.min_l by done. by rewrite !take_ge by lia.
  - by rewrite Nat.min_r by lia.
Qed.

(** Reading the strategies of a minor-1 hello or ack. *)
Lemma decode_strategies t h r more :
  t = kHello \/ t = kHelloAck -> Forall (fun o => zlen (setup o) < 2 ^ 32) (strategies h) -> 1 <= minor h ->
  ahead r (strategies_bytes t (strategies h) ++ more) ->
  exists r', (if bool_decide (Some t = Some kHello) then
        let '(count, r) := get_u8 r in get_offers (Z.to_nat count) r []
      else
        let '(name, r) := get_string r in
        let '(setup, r) := get_blob r in
        (if String.eqb name EmptyString then [] else [mkOffer name setup], r)) = (strategies_as_sent t h, r') /\
    ok r' = true.
Proof.
  intros Ht Hl Hm Ha. unfold strategies_as_sent. rewrite (proj2 (Z.ltb_ge _ _)) by lia.
  destruct Ht as [-> | ->]; cbn [strategies_bytes] in Ha.
  - rewrite bool_decide_true by done. rewrite <- app_assoc in Ha.
    set (n := Nat.min (length (strategies h)) UINT8_MAX) in *.
    assert (Hn : is_u8 (Z.of_nat n)) by (unfold is_u8, n, UINT8_MAX; lia).
    rewrite u8_small in Ha by done. reads Ha as r1 by exact Hn. rewrite Nat2Z.id.
    assert (length (take n (strategies h)) = n) as Hlen by (rewrite length_take; unfold n; lia).
    replace (get_offers n r1 []) with (get_offers (length (take n (strategies h))) r1 []) by by rewrite Hlen.
    apply (get_offers_bytes _ _ []) in Ha as (r2 & -> & Ha); [|by apply Forall_take].
    exists r2. split; [|by apply ahead_ok in Ha]. cbn. unfold n. by rewrite take_min.
  - rewrite bool_decide_false by done. destruct (strategies h) as [|o l].
    + rewrite <- app_assoc in Ha. reads Ha as r1 by (cbn; lia). reads Ha as r2 by done.
      exists r2. split; [done|]. by apply ahead_ok in Ha.
    + apply Forall_cons in Hl as [Ho _]. unfold offer_bytes in Ha. rewrite <- app_assoc in Ha.
      reads Ha as r1 by apply truncated_size. reads Ha as r2 by exact Ho. exists r2. rewrite truncated_empty.
      split; [|by apply ahead_ok in Ha]. by destruct (String.eqb (offer_name o) EmptyString).
Qed.

(** A hello or an ack decodes to the values it was built from, its strategies
    as the format carries them; fields a newer minor version appends are skipped,
    so the peer still reads the fields it knows. *)
Theorem hello_roundtrip t h more :
  t = kHello \/ t = kHelloAck -> hello_ok h -> zlen (hello_body t h ++ more) < 2 ^ 32 ->
  decodeHello (with_more_fields (encodeHello t h) more) = Some (hello_as_sent t h).
Proof.
  intros Ht [H1 H2 H3 H4 H5 H6] Hlen.
  assert (Hfr : with_more_fields (encodeHello t h) more = finish (new_writer t ++ hello_body t h ++ more)).
  { unfold with_more_fields. rewrite encodeHello_bytes, !finish_spec, <- app_assoc. cbn [app].
    apply finish_header, length_le_bytes. }
  rewrite Hfr. unfold decodeHello. rewrite frame_frameType, frame_drop by done.
  assert (Hty : negb (bool_decide (Some t = Some kHello)) && negb (bool_decide (Some t = Some kHelloAck)) = false).
  { by destruct Ht as [-> | ->]. }
  rewrite Hty. pose proof (ahead_new (hello_body t h ++ more)) as Ha. unfold hello_body at 2 in Ha.
  rewrite <- !app_assoc in Ha. reads Ha as r1 by done. rewrite Z.eqb_refl. cbn [negb].
  reads Ha as r2 by exact H1. reads Ha as r3 by exact H2. reads Ha as r4 by exact H3.
  reads Ha as r5 by exact H4. reads Ha as r6 by exact H5. rewrite (ahead_ok _ _ Ha). cbn [negb].
  pose proof (strategies_bytes_nonempty t (strategies h) more) as Hne.
  rewrite (ahead_remaining _ _ Ha), (proj2 (Nat.ltb_lt _ _)), andb_true_r by done.
  destruct (Z.leb_spec 1 (minor h)) as [Hm|Hm].
  - destruct (decode_strategies t h r6 more Ht H6 Hm Ha) as (r7 & -> & Hok). by rewrite Hok.
  - unfold hello_as_sent, strategies_as_sent. by rewrite (proj2 (Z.ltb_lt _ _)) by lia.
Qed.

(** The two short frames. *)
Lemma reject_roundtrip rj : is_u8 (reason rj) ->
  decodeReject (encodeReject rj) = Some (mkReject (reason rj) (truncated UINT16_MAX (detail rj))).
Proof.
  intros Hr. unfold encodeReject. autorewrite with codecs. unfold decodeReject.
  set (s := truncated UINT16_MAX (detail rj)). assert (Hs : (str_size s <= UINT16_MAX)%nat) by apply truncated_size.
  rewrite frame_bodyOf.
  - pose proof (ahead_new (enc_u8 (reason rj) ++ enc_string s)) as Ha.
    rewrite <- (app_nil_r (enc_string s)) in Ha at 2. reads Ha as r1 by exact Hr. reads Ha as r2 by exact Hs.
    by rewrite (ahead_ok _ _ Ha).
  - rewrite zlen_app. unfold zlen. change (enc_u8 (reason rj)) with [to_byte (reason rj)].
    change (enc_string s) with (le_bytes 2 (u16 (Z.of_nat (str_size s))) ++ chars s).
    rewrite length_app, length_le_bytes, length_chars. cbn [length]. unfold UINT16_MAX in Hs. lia.
Qed.

Lemma cancel_roundtrip id : is_u64 id -> decodeCancel (encodeCancel id) = Some id.
Proof.
  intros Hid. unfold encodeCancel. autorewrite with codecs. unfold decodeCancel.
  rewrite frame_bodyOf by done. pose proof (ahead_new (enc_u64 id)) as Ha.
  rewrite <- (app_nil_r (enc_u64 id)) in Ha at 2. reads Ha as r1 by exact Hid. by rewrite (ahead_ok _ _ Ha).
Qed.

(** ** Concrete frames *)

Definition sample_request : SubGraphRequest :=
  mkRequest [mkRequestJob (mkKind "decode" 2) (inlineBytes [x01; x02]) false;
             mkRequestJob (mkKind "render" 1) (handle [xff]) true]
            [mkEdge 0 1].
(** The first job's input travels as a strategy reference. *)
Definition sample_overrides : list (option Payload) := [Some (reference [x00; x07]); None].
Definition sample_frame : list byte := default [] (encodeRequest 77 sample_request sample_overrides).

Lemma sample_request_ok : request_ok sample_request.
Proof.
  split; cbn; repeat (apply Forall_cons; split); try apply Forall_nil; try done.
Qed.

Lemma request_roundtrip_witness :
  encodeRequest 77 sample_request sample_overrides = Some sample_frame /\
  decodeRequest sample_frame = Some (77, as_sent sample_request sample_overrides).
Proof.
  assert (He : encodeRequest 77 sample_request sample_overrides = Some sample_frame) by (vm_compute; reflexivity).
  split; [exact He|]. rewrite (request_roundtrip 77 sample_request sample_overrides sample_frame).
  - vm_compute. reflexivity.
  - unfold is_u64. lia.
  - apply sample_request_ok.
  - repeat (apply Forall_cons; split); by try apply Forall_nil.
  - exact He.
Defined.

Lemma decoded_request_wellformed_witness :
  decodeRequest sample_frame = Some (77, as_sent sample_request sample_overrides) /\
  request_ok (as_sent sample_request sample_overrides).
Proof.
  assert (Hd : decodeRequest sample_frame = Some (77, as_sent sample_request sample_overrides))
    by (vm_compute; reflexivity).
  split; [exact Hd|]. destruct (decoded_request_wellformed _ _ _ Hd) as (_ & H & _). exact H.
Defined.

Definition sample_reply : SubGraphReply :=
  mkReply [mkResult (JobStatus_u8 kDone) 1 "" (inlineBytes [x2a]); mkResult (JobStatus_u8 kFailed) 1 "bad input" Payload_empty].

Lemma reply_roundtrip_witness :
  decodeReply (encodeReply 9 sample_reply []) = Some (9, reply_as_sent sample_reply []).
Proof.
  rewrite (reply_roundtrip 9 sample_reply []).
  - vm_compute. reflexivity.
  - unfold is_u64. lia.
  - vm_compute. discriminate.
  - intros [|[|i]] r Hr; cbn in Hr; simplify_eq; unfold result_ok, is_u8; cbn; (split; [lia|split; [lia|by split]]).
Defined.

Definition sample_hello : Hello := mkHello 1 1 99 4 65536 [mkOffer "shm" [x03]; mkOffer "stream" []].

Lemma hello_roundtrip_witness :
  decodeHello (with_more_fields (encodeHello kHelloAck sample_hello) [x01]) = Some (hello_as_sent kHelloAck sample_hello).
Proof.
  apply (hello_roundtrip kHelloAck sample_hello [x01]).
  - by right.
  - split; unfold is_u16, is_u32, is_u64; cbn; try lia.
    repeat (apply Forall_cons; split); by try apply Forall_nil.
  - vm_compute. reflexivity.
Defined.

(** A reply that carries a handle longer than the format's limit is encoded all
    the same, and the peer cannot read it. *)
Example long_handle_reply_unreadable :
  let reply := mkReply [mkResult (JobStatus_u8 kDone) 1 "" (handle (replicate 65 x00))] in
  decodeReply (encodeReply 1 reply []) = None.
Proof. vm_compute. reflexivity. Qed.
