(* ===== verification/Frames.v ===== *)
(** Frames on a byte stream (include/sub0pipeline/remote/transport.hpp,
    src/remote/payload_sender.hpp): the reader that splits received bytes into
    frames, and the payload frames a strategy sends. *)
From S2P Require Import Prelude Types Bytes Payload SubGraph Wire WireCodec WireCorrect.

Inductive TransportError : Set := kClosed | kIoError | kProtocol.

(** [ITransport::sendParts], the default: the parts as one frame. *)
Definition sendParts (parts : list (list byte)) : list byte := concat parts.

(** [TransportPayloadSender::sendPayloadFrame]: the frame given to the
    transport, or the refusal. *)
Definition kMaxParts : nat := 8.
Definition sendPayloadFrame (parts : list (list byte)) : expected (list byte) TransportError :=
  if (kMaxParts <? length parts + 1)%nat then Unexpected kProtocol else
  let body := Z.of_nat (sum_list_with length parts) in
  if 2 ^ 32 - 1 <? body then Unexpected kProtocol else
  Expected (sendParts (payloadFrameHeader body :: parts)).

Lemma sum_length_concat {A} (ls : list (list A)) : sum_list_with length ls = length (concat ls).
Proof. induction ls as [|l ls IH]; cbn; [done|]. by rewrite length_app, IH. Qed.

Lemma payload_frame_sent parts frame :
  sendPayloadFrame parts = Expected frame ->
  frame = finish (new_writer kPayload ++ concat parts) /\ zlen (concat parts) < 2 ^ 32.
Proof.
  unfold sendPayloadFrame. destruct (_ <? _)%nat; [done|]. rewrite sum_length_concat. fold (zlen (concat parts)).
  destruct (Z.ltb_spec (2 ^ 32 - 1) (zlen (concat parts))); [done|]. intros [= <-].
  rewrite finish_spec. split; [|lia]. done.
Qed.

Lemma payload_frame_type parts frame :
  sendPayloadFrame parts = Expected frame ->
  frameType frame = Some kPayload /\ drop kHeaderBytes frame = concat parts.
Proof. intros [-> Hl]%payload_frame_sent. by rewrite frame_frameType, frame_drop. Qed.

(** ** FrameReader *)

Record FrameReader := mkFrameReader { maxBodyBytes_ : Z; buffer_ : list byte }.
Definition new_frame_reader (max : Z) : FrameReader := mkFrameReader max [].

(** The loop of [feed] from [offset]: its result, the frames it has passed on and
    the offset it stops at; [None] when the fuel runs out. *)
Fixpoint feed_loop (fuel : nat) (max : Z) (buffer : list byte) (offset : nat) (frames : list (list byte)) :
    option (bool * list (list byte) * nat) :=
  match fuel with
  | O => None
  | S fuel =>
    if (length buffer - offset <? kHeaderBytes)%nat then Some (true, frames, offset) else
    let body := le_value (slice buffer offset 4) in
    if max <? body then Some (false, frames, offset) else
    let frameBytes := (kHeaderBytes + Z.to_nat body)%nat in
    if (length buffer - offset <? frameBytes)%nat then Some (true, frames, offset) else
    feed_loop fuel max buffer (offset + frameBytes) (frames ++ [slice buffer offset frameBytes])
  end.

(** Every round but the last consumes at least a header, so the buffer's length is
    fuel enough. *)
Definition feed (r : FrameReader) (bytes : list byte) : option (bool * list (list byte) * FrameReader) :=
  let buffer := buffer_ r ++ bytes in
  match feed_loop (S (length buffer)) (maxBodyBytes_ r) buffer 0 [] with
  | Some (true, frames, offset) => Some (true, frames, mkFrameReader (maxBodyBytes_ r) (drop offset buffer))
  | Some (false, frames, _) => Some (false, frames, mkFrameReader (maxBodyBytes_ r) buffer)
  | None => None
  end.

(** A transport feeds what it receives until a feed refuses. *)
Fixpoint feeds (r : FrameReader) (chunks : list (list byte)) : option (bool * list (list byte) * FrameReader) :=
  match chunks with
  | [] => Some (true, [], r)
  | c :: rest =>
    match feed r c with
    | Some (true, frames, r) =>
      match feeds r rest with
      | Some (b, more, r) => Some (b, frames ++ more, r)
      | None => None
      end
    | other => other
    end
  end.

(** ** Reassembly *)

(** One whole frame within the limit, and a beginning of one. *)
Definition framed (max : Z) (f : list byte) : Prop :=
  (kHeaderBytes <= length f)%nat /\ le_value (take 4 f) <= max /\
  length f = (kHeaderBytes + Z.to_nat (le_value (take 4 f)))%nat.
Definition partial (max : Z) (f : list byte) : Prop :=
  (length f < kHeaderBytes)%nat \/
  (le_value (take 4 f) <= max /\ (length f < kHeaderBytes + Z.to_nat (le_value (take 4 f)))%nat).

Lemma framed_frame max t b : zlen b <= max -> zlen b < 2 ^ 32 -> framed max (finish (new_writer t ++ b)).
Proof.
  intros Hm Hb. rewrite finish_spec. unfold framed, kHeaderBytes.
  pose proof (length_le_bytes 4 (zlen b)) as Hl.
  assert (Ht : le_value (take 4 (le_bytes 4 (zlen b) ++ to_byte (FrameType_u8 t) :: b)) = zlen b).
  { rewrite <- Hl at 1. rewrite take_app_length. apply le_value_u32. unfold is_u32, zlen in *. lia. }
  rewrite Ht, length_app, Hl. unfold zlen in *. cbn [length]. lia.
Qed.

Lemma take_4_app (f rest : list byte) : (kHeaderBytes <= length f)%nat -> take 4 (f ++ rest) = take 4 f.
Proof. intros H. unfold kHeaderBytes in H. by rewrite take_app_le by lia. Qed.

Lemma feed_loop_frames frames rest max : Forall (framed max) frames -> partial max rest ->
  forall buffer offset acc fuel, drop offset buffer = concat frames ++ rest -> (offset <= length buffer)%nat ->
    (length buffer - offset < fuel)%nat ->
    feed_loop fuel max buffer offset acc = Some (true, acc ++ frames, (offset + length (concat frames))%nat).
Proof.
  intros Hf Hr. induction Hf as [|f fs Hf Hfs IH]; intros buffer offset acc fuel Hd Ho Hfuel;
    (destruct fuel as [|fuel]; [lia|]); cbn [feed_loop].
  all: pose proof (length_drop buffer offset) as Hl; rewrite Hd in Hl; unfold slice; rewrite Hd.
  - cbn [concat app] in *. rewrite app_nil_r, Nat.add_0_r, <- Hl. destruct Hr as [Hr|[Hm Hr]].
    + by rewrite (proj2 (Nat.ltb_lt _ _)).
    + destruct (_ <? kHeaderBytes)%nat; [done|]. rewrite (proj2 (Z.ltb_ge _ _)) by done.
      by rewrite (proj2 (Nat.ltb_lt _ _)).
  - destruct Hf as (H5 & Hm & Hlen). cbn [concat] in *. rewrite <- app_assoc in *.
    rewrite take_4_app, <- Hlen, take_app_length by done. rewrite length_app in Hl.
    rewrite (proj2 (Nat.ltb_ge _ _)), (proj2 (Z.ltb_ge _ _)), (proj2 (Nat.ltb_ge _ _)) by lia.
    unfold kHeaderBytes in H5. rewrite IH.
    + by rewrite <- app_assoc, length_app, Nat.add_assoc.
    + by rewrite <- drop_drop, Hd, drop_app_length.
    + lia.
    + lia.
Qed.

(** A prefix of a stream of frames is some of them and the beginning of the next. *)
Lemma frames_prefix frames rest max p q : Forall (framed max) frames -> partial max rest ->
  p ++ q = concat frames ++ rest ->
  exists fs gs part, frames = fs ++ gs /\ p = concat fs ++ part /\ partial max part /\ part ++ q = concat gs ++ rest.
Proof.
  intros Hf Hr. revert p. induction Hf as [|f fs Hf Hfs IH]; intros p Hp.
  - exists [], [], p. repeat (split; [done|]). cbn in Hp. split; [|done]. subst rest.
    unfold partial in *. rewrite length_app in Hr. destruct (decide (length p < kHeaderBytes)%nat) as [|H5]; [by left|].
    rewrite take_4_app in Hr by lia. right. lia.
  - cbn [concat] in Hp. destruct (decide (length f <= length p)%nat) as [Hle|Hgt].
    + assert (Hsplit : p = f ++ drop (length f) p).
      { rewrite <- (take_drop (length f) p) at 1. f_equal.
        apply (f_equal (take (length f))) in Hp. rewrite <- app_assoc, take_app_length, take_app_le in Hp by done. done. }
      rewrite Hsplit, <- !app_assoc in Hp. apply app_inv_head in Hp.
      destruct (IH _ Hp) as (gs & hs & part & -> & Hpp & Hpart & Hq).
      exists (f :: gs), hs, part. rewrite Hsplit, Hpp. cbn [concat]. by rewrite <- app_assoc.
    + exists [], (f :: fs), p. repeat (split; [done|]). split; [|done].
      assert (Hpre : p = take (length p) f).
      { apply (f_equal (take (length p))) in Hp. rewrite <- app_assoc, take_app_length, take_app_le in Hp by lia. done. }
      destruct Hf as (H5 & Hm & Hlen). unfold partial.
      destruct (decide (length p < kHeaderBytes)%nat) as [|H5']; [by left|]. right.
      replace (take 4 p) with (take 4 f); [lia|].
      rewrite Hpre, take_take. f_equal. unfold kHeaderBytes in H5'. lia.
Qed.

Lemma partial_nil max : partial max [].
Proof. left. unfold kHeaderBytes. cbn. lia. Qed.

Lemma feeds_frames max chunks : forall buffer frames rest, Forall (framed max) frames -> partial max buffer ->
  partial max rest -> buffer ++ concat chunks = concat frames ++ rest ->
  feeds (mkFrameReader max buffer) chunks = Some (true, frames, mkFrameReader max rest).
Proof.
  induction chunks as [|c chunks IH]; intros buffer frames rest Hf Hb Hr Heq.
  - cbn in *. rewrite app_nil_r in Heq. subst buffer.
    destruct frames as [|f fs]; [done|]. exfalso. apply Forall_cons in Hf as [(H5 & Hm & Hlen) _].
    cbn [concat] in Hb. rewrite <- app_assoc in Hb. unfold partial in Hb.
    rewrite take_4_app, length_app in Hb by done. lia.
  - cbn [concat] in Heq. rewrite app_assoc in Heq.
    destruct (frames_prefix _ _ _ _ _ Hf Hr Heq) as (fs & gs & part & -> & Hbc & Hpart & Hrest).
    apply Forall_app in Hf as [Hfs Hgs]. cbn [feeds]. unfold feed. cbn [buffer_ maxBodyBytes_].
    rewrite (feed_loop_frames fs part max Hfs Hpart) by (rewrite ?drop_0; done || lia).
    rewrite Hbc at 1. rewrite Nat.add_0_l, drop_app_length.
    by rewrite (IH part gs rest Hgs Hpart Hr Hrest).
Qed.

(** However the transport cuts the stream, the reader passes on exactly the
    frames that were sent, in order, and keeps the bytes of an unfinished one. *)
Theorem frames_reassembled max chunks frames rest :
  Forall (framed max) frames -> partial max rest -> concat chunks = concat frames ++ rest ->
  feeds (new_frame_reader max) chunks = Some (true, frames, mkFrameReader max rest).
Proof. intros Hf Hr Heq. apply feeds_frames; [done|apply partial_nil|done..]. Qed.

(** A header that announces more than the limit stops the reader after the frames before it. *)
Lemma oversized_stream_refused max frames h : Forall (framed max) frames ->
  (kHeaderBytes <= length h)%nat -> max < le_value (take 4 h) ->
  feed (new_frame_reader max) (concat frames ++ h) =
    Some (false, frames, mkFrameReader max (concat frames ++ h)).
Proof.
  intros Hf H5 Hm. unfold feed. cbn [buffer_ maxBodyBytes_ new_frame_reader app].
  assert (Hgen : forall buffer offset acc fuel, drop offset buffer = concat frames ++ h -> (offset <= length buffer)%nat ->
    (length buffer - offset < fuel)%nat -> exists o, feed_loop fuel max buffer offset acc = Some (false, acc ++ frames, o)).
  { induction Hf as [|f fs Hf Hfs IH]; intros buffer offset acc fuel Hd Ho Hfuel;
      (destruct fuel as [|fuel]; [lia|]); cbn [feed_loop].
    all: pose proof (length_drop buffer offset) as Hl; rewrite Hd in Hl; unfold slice; rewrite Hd.
    - cbn [concat app] in *. exists offset. rewrite app_nil_r, <- Hl, (proj2 (Nat.ltb_ge _ _)) by done.
      by rewrite (proj2 (Z.ltb_lt _ _)).
    - destruct Hf as (Hf5 & Hfm & Hlen). cbn [concat] in *. rewrite <- app_assoc in *.
      rewrite take_4_app, <- Hlen, take_app_length by done. rewrite length_app in Hl.
      rewrite (proj2 (Nat.ltb_ge _ _)), (proj2 (Z.ltb_ge _ _)), (proj2 (Nat.ltb_ge _ _)) by lia.
      unfold kHeaderBytes in Hf5.
      destruct (IH buffer (offset + length f)%nat (acc ++ [f]) fuel) as [o Hoo].
      + by rewrite <- drop_drop, Hd, drop_app_length.
      + lia.
      + lia.
      + exists o. by rewrite Hoo, <- app_assoc. }
  destruct (Hgen (concat frames ++ h) 0%nat [] (S (length (concat frames ++ h)))) as [o ->]; [done|lia|lia|done].
Qed.

(** Two frames cut in the middle of a header and of a body, with the beginning of a third. *)
Definition sample_chunks : list (list byte) :=
  [take 3 (encodeCancel 5); drop 3 (encodeCancel 5) ++ take 9 (encodeCancel 6); drop 9 (encodeCancel 6) ++ [x08]].

Lemma frames_reassembled_witness :
  feeds (new_frame_reader 1024) sample_chunks =
    Some (true, [encodeCancel 5; encodeCancel 6], mkFrameReader 1024 [x08]).
Proof.
  apply (frames_reassembled 1024 sample_chunks [encodeCancel 5; encodeCancel 6] [x08]).
  - assert (H : forall id, framed 1024 (encodeCancel id)) by (intros id; by apply (framed_frame 1024 kCancel (le_bytes 8 id))).
    repeat (apply Forall_cons; split); [apply H..|by apply Forall_nil].
  - left. unfold kHeaderBytes. cbn. lia.
  - vm_compute. reflexivity.
Defined.
