(* ===== verification/Loopback.v ===== *)
(** The contract of a transport (include/sub0pipeline/remote/transport.hpp), one
    direction of a connection at a time, and the in-memory transport that keeps it
    (src/remote/loopback_transport.cpp): one critical section or call of the sink per
    step. *)
From S2P Require Import Prelude Types Bytes Payload SubGraph Wire WireCodec WireCorrect Frames.

Abbreviation Frame := (list byte).

(** What a client relies on, for frames sent towards a sink: the frames whose send
    succeeded, those the sink was called with, its calls of [onClosed], and whether
    a send failed halfway, after which the stream is no longer the frames sent. *)
Class ITransport (S M : Type) := {
  tr_move : M -> S -> option S;
  tr_inv : S -> Prop;
  tr_sent : S -> list Frame;
  tr_got : S -> list Frame;
  tr_closed : S -> nat;
  tr_torn : S -> bool;
  tr_keeps : forall m s s', tr_inv s -> tr_move m s = Some s' -> tr_inv s';
  (* in order, nothing else, each once *)
  tr_order : forall s, tr_inv s -> tr_torn s = false -> tr_got s `prefix_of` tr_sent s;
  (* onClosed is the last call, once *)
  tr_once : forall s, tr_inv s -> (tr_closed s <= 1)%nat;
  tr_last : forall m s s', tr_inv s -> tr_move m s = Some s' -> tr_closed s = 1%nat -> tr_got s' = tr_got s;
}.

(** ** LoopbackTransport *)

(** The delivery thread of a side: not started, at the wait, blocked in it, in
    [onFrameBuffer], about to call [onClosed], done. *)
Inductive Delivery : Set := LIdle | LLooks | LBlocked | LDelivers (f : Frame) | LCloses | LDone.

(** A side, with the frames accepted for it, those its sink was given, and the calls
    of [onClosed]. *)
Record Side := mkSide { inbox : list Frame; delivery_ : Delivery; accepted : list Frame; given : list Frame; closings : nat }.
Record Shared := mkShared { closed : bool; sides : list Side }.

Definition side_new : Side := mkSide [] LIdle [] [] 0.
Definition pair : Shared := mkShared false [side_new; side_new].

Inductive LMove : Set := LStart (s : nat) | LSend (s : nat) (parts : list (list byte)) | LClose | LStep (s : nat) | LSpurious (s : nat).

Definition with_delivery (x : Delivery) (a : Side) : Side := mkSide (inbox a) x (accepted a) (given a) (closings a).
(** [changed.notify_all]: it wakes the threads of both sides. *)
Definition notified (a : Side) : Side := match delivery_ a with LBlocked => with_delivery LLooks a | _ => a end.

(** [sendParts] of side [s], to the peer's inbox. *)
Definition loop_send (s : nat) (parts : list (list byte)) (h : Shared) : expected Shared TransportError :=
  if closed h then Unexpected kClosed
  else
    let frame := concat parts in
    Expected (mkShared (closed h)
      (notified <$> alter (fun a => mkSide (inbox a ++ [frame]) (delivery_ a) (accepted a ++ [frame]) (given a) (closings a)) (1 - s)%nat (sides h))).

Definition loop_close (h : Shared) : Shared := mkShared true (notified <$> sides h).

(** A step of a side's delivery thread. *)
Definition delivery_step (closed : bool) (a : Side) : option Side :=
  match delivery_ a with
  | LLooks =>
      match inbox a with
      | f :: rest => Some (mkSide rest (LDelivers f) (accepted a) (given a) (closings a))
      | [] => Some (with_delivery (if closed then LCloses else LBlocked) a)
      end
  | LDelivers f => Some (mkSide (inbox a) LLooks (accepted a) (given a ++ [f]) (closings a))
  | LCloses => Some (mkSide (inbox a) LDone (accepted a) (given a) (S (closings a)))
  | _ => None
  end.

Definition loop_move (m : LMove) (h : Shared) : option Shared :=
  match m with
  | LStart s => match delivery_ <$> sides h !! s with Some LIdle => Some (mkShared (closed h) (alter (with_delivery LLooks) s (sides h))) | _ => None end
  | LSend s parts =>
      if (s <? 2)%nat then match loop_send s parts h with Expected h' => Some h' | Unexpected _ => Some h end else None
  | LClose => Some (loop_close h)
  | LStep s =>
      a ← sides h !! s; a' ← delivery_step (closed h) a; Some (mkShared (closed h) (<[s := a']> (sides h)))
  | LSpurious s => match delivery_ <$> sides h !! s with Some LBlocked => Some (mkShared (closed h) (alter (with_delivery LLooks) s (sides h))) | _ => None end
  end.
Fixpoint loop_moves (l : list LMove) (h : Shared) : option Shared :=
  match l with [] => Some h | m :: l => h ← loop_move m h; loop_moves l h end.

Definition in_hand (a : Side) : list Frame := match delivery_ a with LDelivers f => [f] | _ => [] end.

(** What was accepted is what the sink has had, then the frame in hand, then the
    inbox; a thread that closes or is done has nothing left; nobody sleeps on a
    frame or a close. *)
Record side_ok (closed : bool) (a : Side) : Prop := {
  sd_order : accepted a = given a ++ in_hand a ++ inbox a;
  sd_closings : closings a = match delivery_ a with LDone => 1%nat | _ => 0%nat end;
  sd_done : delivery_ a = LCloses \/ delivery_ a = LDone -> closed = true /\ inbox a = [];
  sd_blocked : delivery_ a = LBlocked -> closed = false /\ inbox a = [];
}.
Definition loop_ok (h : Shared) : Prop := length (sides h) = 2%nat /\ Forall (side_ok (closed h)) (sides h).

Lemma pair_ok : loop_ok pair.
Proof. split; [done|]. assert (H : side_ok false side_new) by (by split; try done; intros [|]). by do 2 (constructor; [exact H|]). Qed.

(** A blocked thread that looks again. *)
Lemma looks_ok c a : side_ok c a -> delivery_ a = LBlocked \/ delivery_ a = LIdle -> side_ok c (with_delivery LLooks a).
Proof.
  intros [H1 H2 H3 H4] Hd. unfold in_hand in H1. split; cbn; try done; [..|by intros [|]].
  - unfold in_hand. cbn. by destruct Hd as [E|E]; rewrite E in H1.
  - by destruct Hd as [E|E]; rewrite E in H2.
Qed.
Lemma notified_ok c a : side_ok c a -> side_ok c (notified a).
Proof. intros Ha. unfold notified. destruct (delivery_ a) eqn:E; try done. apply looks_ok; auto. Qed.
Lemma notified_awake a : delivery_ (notified a) <> LBlocked.
Proof. unfold notified. by destruct (delivery_ a) eqn:E; rewrite ?E. Qed.

(** A frame arrives, or the connection closes, and the thread is woken. *)
Lemma arrives_ok a f : side_ok false a ->
  side_ok false (notified (mkSide (inbox a ++ [f]) (delivery_ a) (accepted a ++ [f]) (given a) (closings a))).
Proof.
  intros [H1 H2 H3 H4]. unfold in_hand, notified in *. cbn. destruct (delivery_ a) eqn:E; split; cbn; unfold in_hand; cbn; try done;
    try (by rewrite H1, <- ?app_assoc); try (by intros [|]); try (by destruct H3; [auto|]).
Qed.
Lemma closed_ok c a : side_ok c a -> side_ok true (notified a).
Proof.
  intros Ha%notified_ok. pose proof (notified_awake a) as Hn. destruct Ha as [H1 H2 H3 H4]. split; try done. intros Hd. by apply H3 in Hd as [_ ?].
Qed.

Lemma delivery_ok c a a' : side_ok c a -> delivery_step c a = Some a' -> side_ok c a'.
Proof.
  intros [H1 H2 H3 H4] Hs. unfold delivery_step in Hs. unfold in_hand in H1. destruct (delivery_ a) eqn:E; try done.
  - destruct (inbox a) as [|f rest] eqn:Ei; injection Hs as <-; split; cbn; unfold in_hand; cbn; try done; rewrite ?Ei; try done; by destruct c; try intros [|].
  - injection Hs as <-. split; cbn; unfold in_hand; cbn; try done; [by rewrite H1, <- app_assoc|by intros [|]].
  - injection Hs as <-. destruct H3 as [-> Hi]; [by left|]. split; cbn; unfold in_hand; cbn; try done. by rewrite H2.
Qed.

Lemma loop_move_ok m h h' : loop_ok h -> loop_move m h = Some h' -> loop_ok h'.
Proof.
  intros [Hl Hok] Hm. destruct m as [s|s parts| |s|s]; cbn [loop_move] in Hm.
  - destruct (sides h !! s) as [a|] eqn:Es; [|done]. cbn in Hm. destruct (delivery_ a) eqn:Ed; try done. injection Hm as <-.
    split; cbn; [by rewrite length_alter|]. apply Forall_alter; [done|]. intros b Hb _. simplify_eq. apply looks_ok; [|auto].
    rewrite Forall_lookup in Hok. by eapply Hok.
  - destruct (s <? 2)%nat; [|done]. unfold loop_send in Hm. destruct (closed h) eqn:Ec; injection Hm as <-; [by split; rewrite ?Ec|].
    split; cbn; [by rewrite length_fmap, length_alter|]. apply Forall_fmap, Forall_lookup. intros k b Hb.
    rewrite Forall_lookup in Hok. rewrite list_lookup_alter in Hb. case_decide.
    + apply fmap_Some in Hb as (y & Hy & ->). apply arrives_ok. by eapply Hok.
    + apply notified_ok. by eapply Hok.
  - injection Hm as <-. split; cbn; [by rewrite length_fmap|]. apply Forall_fmap. eapply Forall_impl; [exact Hok|]. intros a. apply closed_ok.
  - apply bind_Some in Hm as (a & Ha & Hm). apply bind_Some in Hm as (a' & Hs & [= <-]). split; cbn; [by rewrite length_insert|].
    apply Forall_insert; [done|]. rewrite Forall_lookup in Hok. eapply delivery_ok; [|exact Hs]. by eapply Hok.
  - destruct (sides h !! s) as [a|] eqn:Es; [|done]. cbn in Hm. destruct (delivery_ a) eqn:Ed; try done. injection Hm as <-.
    split; cbn; [by rewrite length_alter|]. apply Forall_alter; [done|]. intros b Hb _. simplify_eq. apply looks_ok; [|auto].
    rewrite Forall_lookup in Hok. by eapply Hok.
Qed.

Lemma loop_moves_ok l h h' : loop_ok h -> loop_moves l h = Some h' -> loop_ok h'.
Proof.
  revert h. induction l as [|m l IH]; intros h Hok Hl; [by injection Hl as <-|].
  cbn in Hl. apply bind_Some in Hl as (h1 & H1 & Hl). eapply IH; [|exact Hl]. by eapply loop_move_ok.
Qed.

(** A sink that has been closed is not called again: nothing is accepted for it. *)
Lemma done_stays m h h' k a : loop_ok h -> loop_move m h = Some h' -> sides h !! k = Some a -> delivery_ a = LDone ->
  exists a', sides h' !! k = Some a' /\ given a' = given a /\ closings a' = closings a.
Proof.
  intros [Hl Hok] Hm Ha Hd. rewrite Forall_lookup in Hok. pose proof (sd_done _ _ (Hok k a Ha) (or_intror Hd)) as [Hc _].
  assert (Hn : given (notified a) = given a /\ closings (notified a) = closings a) by (unfold notified; by rewrite Hd).
  destruct m as [s|s parts| |s|s]; cbn [loop_move] in Hm.
  - destruct (sides h !! s) as [b|] eqn:Es; [|done]. cbn in Hm. destruct (delivery_ b) eqn:Eb; try done. injection Hm as <-. cbn.
    rewrite list_lookup_alter. case_decide; [subst s; rewrite Ha; by exists (with_delivery LLooks a)|by exists a].
  - destruct (s <? 2)%nat; [|done]. unfold loop_send in Hm. rewrite Hc in Hm. injection Hm as <-. by exists a.
  - injection Hm as <-. cbn. rewrite list_lookup_fmap, Ha. by exists (notified a).
  - apply bind_Some in Hm as (b & Hb & Hm). apply bind_Some in Hm as (b' & Hs & [= <-]). cbn. destruct (decide (s = k)) as [->|Hne].
    + assert (b = a) as -> by congruence. unfold delivery_step in Hs. by rewrite Hd in Hs.
    + rewrite list_lookup_insert_ne by done. by exists a.
  - destruct (sides h !! s) as [b|] eqn:Es; [|done]. cbn in Hm. destruct (delivery_ b) eqn:Eb; try done. injection Hm as <-. cbn.
    rewrite list_lookup_alter. case_decide; [subst s; rewrite Ha; by exists (with_delivery LLooks a)|by exists a].
Qed.

(** The direction towards side [k] as a transport. *)
Section direction.
Context (k : nat) (Hk : (k < 2)%nat).
Definition side_at (h : Shared) : Side := default side_new (sides h !! k).

Lemma side_at_is h : loop_ok h -> sides h !! k = Some (side_at h).
Proof. intros [Hl _]. unfold side_at. destruct (lookup_lt_is_Some_2 (sides h) k) as [a ->]; [lia|done]. Qed.
Lemma side_at_ok h : loop_ok h -> side_ok (closed h) (side_at h).
Proof. intros Hok. pose proof Hok as [_ Hf]. rewrite Forall_lookup in Hf. by eapply Hf, side_at_is. Qed.

#[export, refine] Instance loopback : ITransport Shared LMove := {|
  tr_move := loop_move; tr_inv := loop_ok; tr_sent h := accepted (side_at h); tr_got h := given (side_at h);
  tr_closed h := closings (side_at h); tr_torn _ := false |}.
Proof.
  - apply loop_move_ok.
  - intros h Hok _. rewrite (sd_order _ _ (side_at_ok h Hok)). by apply prefix_app_r.
  - intros h Hok. rewrite (sd_closings _ _ (side_at_ok h Hok)). destruct (delivery_ _); lia.
  - intros m h h' Hok Hm Hc. pose proof (side_at_ok h Hok) as Ha. rewrite (sd_closings _ _ Ha) in Hc.
    destruct (done_stays m h h' k _ Hok Hm (side_at_is h Hok)) as (a' & Ha' & E & _); [by destruct (delivery_ _)|].
    unfold side_at at 1. by rewrite Ha'.
Defined.
End direction.

(** ** Delivery *)

Definition thread_step (h h' : Shared) : Prop := exists s, loop_move (LStep s) h = Some h'.
Definition side_weight (c : bool) (a : Side) : nat :=
  (3 * length (inbox a) + match delivery_ a with LDelivers _ => 4 | LLooks => if c then 3 else 2 | LCloses => 1 | _ => 0 end)%nat.

Lemma delivery_less c a a' : delivery_step c a = Some a' -> (side_weight c a' < side_weight c a)%nat.
Proof.
  unfold delivery_step, side_weight. intros Hs. destruct (delivery_ a) eqn:E; try done.
  - destruct (inbox a) as [|f rest] eqn:Ei; injection Hs as <-; cbn; rewrite ?Ei; destruct c; cbn; lia.
  - injection Hs as <-. cbn. destruct c; lia.
  - injection Hs as <-. cbn. lia.
Qed.

Lemma thread_halts h : sn thread_step h.
Proof.
  apply (sn_by_measure thread_step (fun _ => True) (fun h => sum_list_with (side_weight (closed h)) (sides h))); [|done].
  intros x y _ [s Hs]. split; [done|]. cbn [loop_move] in Hs. apply bind_Some in Hs as (a & Ha & Hs). apply bind_Some in Hs as (a' & Hd & [= <-]).
  cbn. pose proof (sum_list_insert (side_weight (closed x)) _ _ _ a' Ha). pose proof (delivery_less _ _ _ Hd). lia.
Qed.

(** Once a side has called onClosed its sink is never called again. *)
Lemma closed_is_last k l h h' : (k < 2)%nat -> loop_ok h -> loop_moves l h = Some h' -> closings (side_at k h) = 1%nat ->
  given (side_at k h') = given (side_at k h) /\ closings (side_at k h') = 1%nat.
Proof.
  intros Hk. revert h. induction l as [|m l IH]; intros h Hok Hl Hc; [by injection Hl as <-|].
  cbn in Hl. apply bind_Some in Hl as (h1 & H1 & Hl). pose proof (loop_move_ok _ _ _ Hok H1) as Hok1.
  pose proof (tr_last (ITransport := loopback k Hk) m h h1 Hok H1 Hc) as Hg. cbn in Hg.
  assert (Hc1 : closings (side_at k h1) = 1%nat); [|by destruct (IH h1 Hok1 Hl Hc1) as [-> ->]].
  pose proof (side_at_ok k Hk h Hok) as Ha. rewrite (sd_closings _ _ Ha) in Hc.
  destruct (done_stays m h h1 k _ Hok H1 (side_at_is k Hk h Hok)) as (a' & Ha' & _ & E); [by destruct (delivery_ _)|].
  unfold side_at. rewrite Ha'. cbn. rewrite E, (sd_closings _ _ Ha). by destruct (delivery_ _).
Qed.

(** C39. The in-memory transport delivers: whatever its users do, each sink has been
    given a beginning of the frames accepted for it, in order, each once; onClosed is
    called at most once, when every accepted frame has been delivered, and the sink
    is not called again after it; and left alone each started side comes to rest,
    every accepted frame delivered, and after a close with onClosed called. *)
Theorem loopback_delivers l h k : loop_moves l pair = Some h -> (k < 2)%nat ->
  given (side_at k h) `prefix_of` accepted (side_at k h) /\ (closings (side_at k h) <= 1)%nat /\
  (closings (side_at k h) = 1%nat -> given (side_at k h) = accepted (side_at k h) /\
     forall more h', loop_moves more h = Some h' ->
       given (side_at k h') = given (side_at k h) /\ closings (side_at k h') = 1%nat) /\
  sn thread_step h /\
  forall h', rtc thread_step h h' -> (forall h'', ~ thread_step h' h'') -> delivery_ (side_at k h') <> LIdle ->
    given (side_at k h') = accepted (side_at k h') /\ (closed h' = true -> closings (side_at k h') = 1%nat).
Proof.
  intros Hl Hk. pose proof (loop_moves_ok _ _ _ pair_ok Hl) as Hok.
  split; [apply (tr_order (ITransport := loopback k Hk) h Hok eq_refl)|]. split; [apply (tr_once (ITransport := loopback k Hk) h Hok)|].
  split.
  { intros Hc. split; [|intros more h' Hm; by eapply closed_is_last]. pose proof (side_at_ok k Hk h Hok) as [H1 H2 H3 _].
    rewrite H2 in Hc. unfold in_hand in H1. destruct (delivery_ (side_at k h)); try done.
    destruct (H3 (or_intror eq_refl)) as [_ Hi]. by rewrite Hi, !app_nil_r in H1. }
  split; [apply thread_halts|]. intros h' Hr Hstuck Hidle.
  assert (Hok' : loop_ok h').
  { clear Hl Hstuck Hidle. induction Hr as [|h1 h2 h3 [s Hs] _ IH]; [done|]. apply IH. by eapply (loop_move_ok (LStep s)). }
  pose proof (side_at_is k Hk h' Hok') as Hs. pose proof (side_at_ok k Hk h' Hok') as [H1 H2 H3 H4].
  assert (Hnone : delivery_step (closed h') (side_at k h') = None).
  { destruct (delivery_step _ _) as [a'|] eqn:E; [|done]. destruct (Hstuck (mkShared (closed h') (<[k := a']> (sides h')))).
    exists k. cbn [loop_move]. rewrite Hs. cbn. by rewrite E. }
  unfold delivery_step in Hnone. unfold in_hand in H1. destruct (delivery_ (side_at k h')) eqn:E; try done.
  - by destruct (inbox _).
  - destruct (H4 eq_refl) as [Hc Hi]. rewrite Hi, !app_nil_r in H1. by rewrite Hc.
  - destruct (H3 (or_intror eq_refl)) as [Hc Hi]. rewrite Hi, !app_nil_r in H1. by rewrite H1, H2.
Qed.

(** Two frames to side 1, one while it delivers, a close, and a frame too late. *)
Definition loop_sample : list LMove :=
  [LSend 0 [[x01]; [x02]]; LStart 1; LStep 1; LSend 0 [[x03]]; LStep 1; LClose; LSend 0 [[x04]]; LStep 1; LStep 1; LStep 1; LStep 1]%nat.
Definition loop_end : Shared := default pair (loop_moves loop_sample pair).

Example loop_sample_end : given (side_at 1 loop_end) = [[x01; x02]; [x03]] /\ closings (side_at 1 loop_end) = 1%nat /\
  loop_send 0 [[x05]] loop_end = Unexpected kClosed.
Proof. vm_compute. split_and!; reflexivity. Qed.

Lemma loopback_delivers_witness : given (side_at 1 loop_end) `prefix_of` accepted (side_at 1 loop_end).
Proof. apply (loopback_delivers loop_sample loop_end 1); [apply default_reached; vm_compute; reflexivity|lia]. Defined.
