(* ===== verification/Pipe.v ===== *)
(** Frames over two byte streams (src/remote/pipe_transport.cpp): the writes of a
    frame's parts under the write mutex, the reader thread and the sink it calls, the
    destructor, the pool of frame buffers, and a connection of two ends. What the
    operating system answers to a read or a write is the environment's. *)
From S2P Require Import Prelude Types Bytes Payload SubGraph Wire WireCodec WireCorrect Frames Loopback.

Definition kMaxBodyBytes : Z := 2 ^ 31 - 1.

(** ** Writing *)

(** The answers to [write]: EINTR, a count (of at least one byte), an error. A write
    that blocks has none yet. *)
Inductive WriteAnswer : Set := WInterrupted | WWrote (more : nat) | WFailed.

(** The leading parts that go out with one write: at most 256 bytes, never the last. *)
Fixpoint staged (gathered : nat) (parts : list (list byte)) : list byte * list (list byte) :=
  match parts with
  | p :: (_ :: _) as rest =>
      if (gathered + length p <=? 256)%nat then let '(st, unused) := staged (gathered + length p) rest in (p ++ st, unused)
      else ([], parts)
  | _ => ([], parts)
  end.

(** What [writeAll] is called with, one after the other. Nothing is written of a part
    that has no bytes. *)
Definition writes (parts : list (list byte)) : list (list byte) :=
  let '(st, rest) := staged 0 parts in filter (.≠ []) (st :: rest).

(** A send that holds [writeMtx_]: its frame, the bytes it has still to write, and
    whether the reader thread is in it, from its sink. *)
Record Writing := mkWriting { w_frame : Frame; w_rest : list (list byte); w_sink : bool }.

(** The writing side of an end: who holds [writeMtx_], what was written, the frames
    whose send succeeded, and whether a send failed or was not of a frame that the
    peer accepts. *)
Record Out := mkOut {
  writeClosed_ : bool; writer_ : option Writing; written : list byte; sent : list Frame; broken : bool
}.

Definition frame_ok (f : Frame) : bool :=
  (kHeaderBytes <=? length f)%nat && (le_value (take 4 f) <=? kMaxBodyBytes) &&
  (length f =? kHeaderBytes + Z.to_nat (le_value (take 4 f)))%nat.

(** The rest of [sendParts]: it returns, and releases the mutex, or writes again. *)
Definition advance (w : Writing) (o : Out) : option (expected unit TransportError) * Out :=
  match w_rest w with
  | [] => (Some (Expected tt), mkOut (writeClosed_ o) None (written o) (sent o ++ [w_frame w]) (broken o))
  | _ => (None, mkOut (writeClosed_ o) (Some w) (written o) (sent o) (broken o))
  end.

(** [sendParts] up to its first write: its result if it has one, [None] while it waits
    for the mutex. *)
Definition pipe_send (parts : list (list byte)) (sink : bool) (o : Out) : option (option (expected unit TransportError) * Out) :=
  match writer_ o with
  | Some _ => None
  | None =>
      if writeClosed_ o then Some (Some (Unexpected kClosed), o)
      else Some (advance (mkWriting (concat parts) (writes parts) sink)
                   (mkOut false None (written o) (sent o) (broken o || negb (frame_ok (concat parts)))))
  end.

(** [writeAll] and [sendParts] after an answer of [write]. *)
Definition pipe_write (a : WriteAnswer) (o : Out) : option (option (expected unit TransportError) * Out) :=
  w ← writer_ o;
  match a, w_rest w with
  | WInterrupted, _ => Some (None, o)
  | WWrote more, bytes :: rest =>
      let left := match drop (S more) bytes with [] => rest | unwritten => unwritten :: rest end in
      Some (advance (mkWriting (w_frame w) left (w_sink w))
              (mkOut (writeClosed_ o) None (written o ++ take (S more) bytes) (sent o) (broken o)))
  | WWrote _, [] => None
  | WFailed, _ => Some (Some (Unexpected kClosed), mkOut (writeClosed_ o) None (written o) (sent o) true)
  end.

(** [close]: it waits for the mutex. *)
Definition pipe_close (o : Out) : option Out :=
  match writer_ o with
  | Some _ => None
  | None => Some (mkOut true None (written o) (sent o) (broken o))
  end.

(** ** Reading *)

(** The answers to [poll] and [read]: EINTR, the wake handle, bytes, an error. A read
    of a stream that is empty and closed is its end. *)
Inductive ReadAnswer : Set := RInterrupted | RWake | RBytes (more : nat) | RFailed.

(** The reader: not started, filling the header, filling the body, in the sink's
    [onFrameBuffer], about to close, in [onClosed], done. *)
Inductive Reader : Set :=
  | RIdle | RHeader (buf : list byte) | RBody (header : list byte) (body : nat) (buf : list byte) | RSink (f : Frame)
  | RCloses (e : TransportError) | RReports (e : TransportError) | RDone.

(** What follows a complete header, and a complete body. *)
Definition header_read (h : list byte) : Reader :=
  let body := le_value (take 4 h) in
  if kMaxBodyBytes <? body then RCloses kProtocol
  else if body =? 0 then RSink h
  else RBody h (Z.to_nat body) [].
Definition fill (r : Reader) (chunk : list byte) : Reader :=
  match r with
  | RHeader buf => let buf := buf ++ chunk in if (length buf <? kHeaderBytes)%nat then RHeader buf else header_read buf
  | RBody h body buf => let buf := buf ++ chunk in if (length buf <? body)%nat then RBody h body buf else RSink (h ++ buf)
  | _ => r
  end.
Definition wanted (r : Reader) : nat :=
  match r with RHeader buf => kHeaderBytes - length buf | RBody _ body buf => body - length buf | _ => 0 end.

(** The reading side of an end: the reader, the bytes it has read, the frames its sink
    was called with, the calls of [onClosed], whether it saw the end of the stream. *)
Record In := mkIn { reader_ : Reader; position : nat; passed : list Frame; closed_calls : nat; saw_end : bool }.

Definition reading (r : Reader) : bool := match r with RHeader _ | RBody _ _ _ => true | _ => false end.
Definition stops (saw : bool) (i : In) : In := mkIn (RCloses kClosed) (position i) (passed i) (closed_calls i) saw.

(** The reader goes on, and calls the sink if it has a frame. *)
Definition goes_on (r : Reader) (n : nat) (i : In) : In :=
  mkIn r (position i + n) (match r with RSink f => passed i ++ [f] | _ => passed i end) (closed_calls i) (saw_end i).

(** A turn of [readAll], with the wake handle and what the peer has written. *)
Definition pipe_read (a : ReadAnswer) (wake : option bool) (peer : Out) (i : In) : option In :=
  if reading (reader_ i) then
    match a with
    | RInterrupted => Some i
    | RWake => if default false wake then Some (stops (saw_end i) i) else None
    | RFailed => Some (stops (saw_end i) i)
    | RBytes more =>
        match drop (position i) (written peer) with
        | [] => if writeClosed_ peer then Some (stops true i) else None
        | ready => let chunk := take (S more `min` wanted (reader_ i)) ready in Some (goes_on (fill (reader_ i) chunk) (length chunk) i)
        end
    end
  else None.

(** ** A connection of two ends *)

(** The destructor: not called, in [close], at the join, returned. *)
Inductive Destructor : Set := DAlive | DCloses | DJoins | DGone.

(** An end, with its wake pipe: none if the system gave none, else whether its byte is
    written. *)
Record End := mkEnd { out_ : Out; in_ : In; wake_ : option bool; dtor_ : Destructor }.
Definition end_new (wake : bool) : End :=
  mkEnd (mkOut false None [] [] false) (mkIn RIdle 0 [] 0 false) (if wake then Some false else None) DAlive.

Definition with_out (o : Out) (e : End) : End := mkEnd o (in_ e) (wake_ e) (dtor_ e).
Definition with_in (i : In) (e : End) : End := mkEnd (out_ e) i (wake_ e) (dtor_ e).
Definition with_reader (r : Reader) (i : In) : In := mkIn r (position i) (passed i) (closed_calls i) (saw_end i).

(** [start], on an end not being destroyed. *)
Definition pipe_start (e : End) : option End :=
  match dtor_ e, reader_ (in_ e) with DAlive, RIdle => Some (with_in (with_reader (RHeader []) (in_ e)) e) | _, _ => None end.

(** The sink returns, unless it is in a send of its own. *)
Definition sink_returns (e : End) : option End :=
  match reader_ (in_ e) with
  | RSink _ => if default false (w_sink <$> writer_ (out_ e)) then None else Some (with_in (with_reader (RHeader []) (in_ e)) e)
  | RReports _ => Some (with_in (with_reader RDone (in_ e)) e)
  | _ => None
  end.

(** The reader's [close], and its call of [onClosed]. *)
Definition pipe_closes (e : End) : option End :=
  match reader_ (in_ e) with
  | RCloses r =>
      o ← pipe_close (out_ e);
      Some (mkEnd o (mkIn (RReports r) (position (in_ e)) (passed (in_ e)) (S (closed_calls (in_ e))) (saw_end (in_ e))) (wake_ e) (dtor_ e))
  | _ => None
  end.

(** [~PipeTransport]: the call of [close], which waits for the mutex, then the byte to
    the wake pipe and the join, if a reader was started. *)
Definition joins (r : Reader) : bool := match r with RIdle | RDone => true | _ => false end.
Definition destroy_step (e : End) : option End :=
  match dtor_ e with
  | DAlive => Some (mkEnd (out_ e) (in_ e) (wake_ e) DCloses)
  | DCloses =>
      o ← pipe_close (out_ e);
      Some (mkEnd o (in_ e) (match reader_ (in_ e) with RIdle => wake_ e | _ => (fun _ => true) <$> wake_ e end) DJoins)
  | DJoins => if joins (reader_ (in_ e)) then Some (mkEnd (out_ e) (in_ e) (wake_ e) DGone) else None
  | DGone => None
  end.

(** The calls at an end [s], by the sink or by any other thread, the answers of the
    system, and the turns of its reader, its sink and its destructor. *)
Inductive PMove : Set :=
  | PStart (s : nat) | PSend (s : nat) (sink : bool) (parts : list (list byte)) | PWrite (s : nat) (a : WriteAnswer) | PClose (s : nat)
  | PRead (s : nat) (a : ReadAnswer) | PReturns (s : nat) | PCloses (s : nat) | PDestroys (s : nat).

Definition on_end (s : nat) (f : End -> End -> option End) (l : list End) : option (list End) :=
  e ← l !! s; peer ← l !! (1 - s)%nat; e' ← f peer e; Some (<[s := e']> l).

Definition on_out (f : Out -> option Out) (_ e : End) : option End := o ← f (out_ e); Some (with_out o e).

Definition pipe_move (m : PMove) (l : list End) : option (list End) :=
  match m with
  | PStart s => on_end s (fun _ => pipe_start) l
  | PSend s sink parts =>
      on_end s (fun _ e =>
        if negb sink || match reader_ (in_ e) with RSink _ => true | _ => false end
        then o ← snd <$> pipe_send parts sink (out_ e); Some (with_out o e) else None) l
  | PWrite s a => on_end s (on_out (fun o => snd <$> pipe_write a o)) l
  | PClose s => on_end s (on_out pipe_close) l
  | PRead s a => on_end s (fun peer e => i ← pipe_read a (wake_ e) (out_ peer) (in_ e); Some (with_in i e)) l
  | PReturns s => on_end s (fun _ => sink_returns) l
  | PCloses s => on_end s (fun _ => pipe_closes) l
  | PDestroys s => on_end s (fun _ => destroy_step) l
  end.
Fixpoint pipe_moves (l : list PMove) (p : list End) : option (list End) :=
  match l with [] => Some p | m :: l => p ← pipe_move m p; pipe_moves l p end.
Definition pipe_pair (wake : nat -> bool) : list End := [end_new (wake 0%nat); end_new (wake 1%nat)].

(** The turns of the reader, sink and destructor of end [s]. *)
Definition own_move (s : nat) (m : PMove) : Prop :=
  m = PRead s RWake \/ m = PReturns s \/ m = PCloses s \/ m = PDestroys s.

(** ** What is written *)

Lemma staged_cons g p q parts : staged g (p :: q :: parts) =
  if (g + length p <=? 256)%nat then let '(st, unused) := staged (g + length p) (q :: parts) in (p ++ st, unused) else ([], p :: q :: parts).
Proof. done. Qed.

Lemma staged_spec parts : forall gathered, (staged gathered parts).1 ++ concat (staged gathered parts).2 = concat parts /\
  (gathered <= 256 -> gathered + length (staged gathered parts).1 <= 256)%nat.
Proof.
  induction parts as [|p parts IH]; intros g; [cbn; split; [done|lia]|]. destruct parts as [|q parts]; [cbn; split; [done|lia]|]. rewrite staged_cons.
  destruct (Nat.leb_spec (g + length p) 256) as [Hle|Hle]; [|cbn; split; [done|lia]].
  specialize (IH (g + length p)%nat). destruct (staged _ (q :: parts)) as [st rest]. cbn in *. destruct IH as [IH1 IH2].
  split; [by rewrite <- app_assoc, IH1|]. rewrite length_app. lia.
Qed.

Lemma concat_nonempty {A} (l : list (list A)) : concat (filter (.≠ []) l) = concat l.
Proof. induction l as [|[|x p] l IH]; [done|by rewrite filter_cons_False by auto|]. rewrite filter_cons_True by done. cbn. by rewrite IH. Qed.

Lemma writes_spec parts : concat (writes parts) = concat parts /\ Forall (.≠ []) (writes parts).
Proof.
  unfold writes. pose proof (staged_spec parts 0) as [E _]. destruct (staged 0 parts) as [st rest].
  split; [by rewrite concat_nonempty|]. apply Forall_forall. by intros p [Hp _]%list_elem_of_filter.
Qed.

(** What an end has written: the frames sent, and of the one being sent what is not
    left. *)
Definition out_parts (o : Out) (part : list byte) : Prop :=
  written o = concat (sent o) ++ part /\ Forall (framed kMaxBodyBytes) (sent o) /\
  match writer_ o with None => part = [] | Some w => w_frame w = part ++ concat (w_rest w) /\ framed kMaxBodyBytes (w_frame w) end.
Record out_ok (o : Out) : Prop := {
  ou_closed : writeClosed_ o = true -> writer_ o = None;
  ou_writer : forall w, writer_ o = Some w -> w_rest w <> [] /\ Forall (.≠ []) (w_rest w);
  ou_written : broken o = false -> exists part, out_parts o part;
}.

Lemma frame_ok_framed f : frame_ok f = true <-> framed kMaxBodyBytes f.
Proof. unfold frame_ok, framed. rewrite !andb_true_iff, Nat.leb_le, Z.leb_le, Nat.eqb_eq. tauto. Qed.

(** Either side's steps keep the other side's stream: more is written, nothing else. *)
Definition grows (o o' : Out) : Prop :=
  written o `prefix_of` written o' /\ (writeClosed_ o = true -> writeClosed_ o' = true /\ written o' = written o).

Lemma advance_ok w o part : writeClosed_ o = false -> Forall (.≠ []) (w_rest w) ->
  (broken o = false -> written o = concat (sent o) ++ part /\ Forall (framed kMaxBodyBytes) (sent o) /\
     w_frame w = part ++ concat (w_rest w) /\ framed kMaxBodyBytes (w_frame w)) ->
  out_ok (advance w o).2 /\ written (advance w o).2 = written o.
Proof.
  intros Hc Hne Hb. unfold advance. destruct (w_rest w) as [|p rest] eqn:Er; cbn; (split; [|done]); split; cbn; try congruence.
  - intros H. destruct (Hb H) as (E & Hs & Hw & Hf). exists []. unfold out_parts. cbn. rewrite E, concat_app, app_nil_r. cbn in *.
    rewrite app_nil_r in Hw |- *. rewrite Hw. split; [done|]. split; [|done]. apply Forall_app. rewrite <- Hw. split; [done|by apply Forall_singleton].
  - intros w' [= <-]. by rewrite Er.
  - intros H. destruct (Hb H) as (E & Hs & Hw & Hf). exists part. unfold out_parts. cbn [written sent writer_]. by rewrite Er.
Qed.

Lemma pipe_send_ok parts sink o r o' : out_ok o -> pipe_send parts sink o = Some (r, o') -> out_ok o' /\ grows o o'.
Proof.
  intros Ho Hs. unfold pipe_send in Hs. destruct (writer_ o) eqn:Ew; [done|]. destruct (writeClosed_ o) eqn:Ec; [by injection Hs as <- <-|].
  injection Hs as Hs. destruct (writes_spec parts) as [Hcat Hne]. set (o1 := mkOut false None _ _ _) in Hs.
  set (w := mkWriting (concat parts) (writes parts) sink) in Hs. destruct (advance_ok w o1 []) as [H1 H2]; [done|done| |].
  - cbn. intros [Hb Hf]%orb_false_iff. apply negb_false_iff, frame_ok_framed in Hf. destruct (ou_written _ Ho Hb) as (part & E & Hsent & Hp).
    rewrite Ew in Hp. subst part. by rewrite Hcat.
  - rewrite Hs in H1, H2. cbn in H1, H2. split; [done|]. unfold grows. rewrite H2, Ec. by split.
Qed.

Lemma pipe_write_ok a o r o' : out_ok o -> pipe_write a o = Some (r, o') -> out_ok o' /\ grows o o'.
Proof.
  intros Ho Hs. unfold pipe_write in Hs. apply bind_Some in Hs as (w & Ew & Hs). destruct (ou_writer _ Ho w Ew) as [Hr Hne].
  assert (Hc : writeClosed_ o = false) by (destruct (writeClosed_ o) eqn:Ec; [|done]; rewrite (ou_closed _ Ho Ec) in Ew; done).
  destruct a as [|more|]; [by injection Hs as <- <-| |].
  - destruct (w_rest w) as [|bytes rest] eqn:Er; [done|]. injection Hs as Hs. apply Forall_cons in Hne as [Hb Hne].
    set (left := match drop (S more) bytes with [] => rest | unwritten => unwritten :: rest end) in Hs.
    assert (Hleft : concat left = drop (S more) bytes ++ concat rest /\ Forall (.≠ []) left).
    { unfold left. destruct (drop (S more) bytes); [by split|]. split; [done|by constructor]. }
    set (o1 := mkOut _ None _ _ _) in Hs. set (w1 := mkWriting _ left _) in Hs.
    assert (Hadv : out_ok (advance w1 o1).2 /\ written (advance w1 o1).2 = written o1).
    { destruct (broken o) eqn:Eb.
      - apply (advance_ok w1 o1 []); [done|apply Hleft|]. unfold o1. cbn. congruence.
      - destruct (ou_written _ Ho Eb) as (part & E & Hsent & Hp). rewrite Ew, Er in Hp. destruct Hp as [Hp Hf].
        apply (advance_ok w1 o1 (part ++ take (S more) bytes)); [done|apply Hleft|]. intros _. unfold o1, w1. cbn. rewrite (proj1 Hleft), E, Hp, <- !app_assoc.
        split; [done|]. split; [done|]. split; [|by rewrite <- Hp]. f_equal. cbn [concat]. by rewrite !app_assoc, take_drop. }
    rewrite Hs in Hadv. cbn in Hadv. destruct Hadv as [H1 H2]. split; [done|]. unfold grows. rewrite H2, Hc. split; [by apply prefix_app_r|done].
  - injection Hs as <- <-. split; [|by split]. by split.
Qed.

Lemma pipe_close_ok o o' : out_ok o -> pipe_close o = Some o' -> out_ok o' /\ grows o o' /\ o' = mkOut true None (written o) (sent o) (broken o).
Proof.
  intros Ho Hs. unfold pipe_close in Hs. destruct (writer_ o) eqn:Ew; [done|]. injection Hs as <-. split; [|by split].
  split; cbn; try done. intros Hb. destruct (ou_written _ Ho Hb) as (part & E & Hsent & Hp). rewrite Ew in Hp. exists part. by split.
Qed.

(** ** What is read *)

(** Whole frames are cut off a stream in one way. *)
Lemma frames_unique max gs fs x : Forall (framed max) gs -> Forall (framed max) fs -> concat gs ++ x = concat fs ->
  exists fs', fs = gs ++ fs' /\ x = concat fs'.
Proof.
  intros Hg. revert fs. induction Hg as [|g gs Hg Hgs IH]; intros fs Hf E; [by exists fs|].
  destruct Hg as (H5 & Hm & Hlen). destruct Hf as [|f fs Hf Hfs]; cbn in E.
  { exfalso. apply (f_equal length) in E. rewrite !length_app in E. unfold kHeaderBytes in H5. cbn in E. lia. }
  destruct Hf as (F5 & Fm & Flen). rewrite <- app_assoc in E.
  assert (E4 : take 4 g = take 4 f) by (rewrite <- (take_4_app g (concat gs ++ x)), E, take_4_app by done; done).
  rewrite E4, <- Flen in Hlen. apply app_inj_1 in E as [-> E]; [|done]. destruct (IH fs Hfs E) as (fs' & -> & ->). by exists fs'.
Qed.

Lemma partial_concat max fs : Forall (framed max) fs -> partial max (concat fs) -> fs = [].
Proof.
  intros Hf Hp. destruct Hf as [|f fs (H5 & Hm & Hlen) _]; [done|]. exfalso. unfold partial in Hp. cbn [concat] in Hp.
  rewrite take_4_app, length_app in Hp by done. lia.
Qed.

Definition oversized (l : list byte) : Prop := (kHeaderBytes <= length l)%nat /\ kMaxBodyBytes < le_value (take 4 l).

(** The bytes read since the last frame. *)
Definition tail_ok (r : Reader) (tail : list byte) : Prop :=
  match r with
  | RIdle | RSink _ => tail = []
  | RHeader buf => tail = buf /\ (length buf < kHeaderBytes)%nat
  | RBody h body buf => tail = h ++ buf /\ length h = kHeaderBytes /\ 0 < le_value (take 4 h) <= kMaxBodyBytes /\
      body = Z.to_nat (le_value (take 4 h)) /\ (length buf < body)%nat
  | _ => partial kMaxBodyBytes tail \/ oversized tail
  end.

Lemma reading_partial r tail : tail_ok r tail -> reading r = true -> partial kMaxBodyBytes tail.
Proof.
  destruct r as [|buf|h body buf| | | |]; cbn [tail_ok reading]; intros H Hr; try done.
  - destruct H as [-> H]. by left.
  - destruct H as (-> & Hl & Hm & -> & Hb). right. rewrite take_4_app, length_app, Hl by (by rewrite Hl). lia.
Qed.

(** The frame a reader is about to give its sink. *)
Definition handed (r : Reader) : list Frame := match r with RSink f => [f] | _ => [] end.

Lemma header_read_spec h : length h = kHeaderBytes ->
  Forall (framed kMaxBodyBytes) (handed (header_read h)) /\
  exists tail, h = concat (handed (header_read h)) ++ tail /\ tail_ok (header_read h) tail.
Proof.
  intros Hh. unfold header_read. pose proof (proj1 (le_value_range (take 4 h))) as Hv. destruct (Z.ltb_spec kMaxBodyBytes (le_value (take 4 h))) as [Hm|Hm].
  { split; [constructor|]. exists h. split; [done|]. right. split; [lia|done]. }
  destruct (Z.eqb_spec (le_value (take 4 h)) 0) as [Hz|Hz].
  - split; [apply Forall_singleton; unfold framed; lia|]. exists []. cbn. by rewrite !app_nil_r.
  - split; [constructor|]. exists h. split; [done|]. cbn [tail_ok]. rewrite app_nil_r. split_and!; try done; cbn; lia.
Qed.

Lemma fill_spec r chunk tail : tail_ok r tail -> reading r = true -> (length chunk <= wanted r)%nat ->
  Forall (framed kMaxBodyBytes) (handed (fill r chunk)) /\
  exists tail', tail ++ chunk = concat (handed (fill r chunk)) ++ tail' /\ tail_ok (fill r chunk) tail'.
Proof.
  intros Ht Hr Hw. destruct r as [|buf|h body buf| | | |]; try done; cbn [wanted] in Hw.
  - destruct Ht as [-> Hl]. cbn [fill]. destruct (Nat.ltb_spec (length (buf ++ chunk)) kHeaderBytes) as [Hs|Hs].
    + split; [constructor|]. by exists (buf ++ chunk).
    + apply header_read_spec. rewrite length_app in *. lia.
  - destruct Ht as (-> & Hl & Hm & -> & Hb). cbn [fill]. destruct (Nat.ltb_spec (length (buf ++ chunk)) (Z.to_nat (le_value (take 4 h)))) as [Hs|Hs].
    + split; [constructor|]. exists (h ++ buf ++ chunk). rewrite <- app_assoc. done.
    + rewrite length_app in Hs. split.
      * apply Forall_singleton. unfold framed. rewrite take_4_app, !length_app, Hl by (by rewrite Hl). lia.
      * exists []. cbn. by rewrite !app_nil_r, <- app_assoc.
Qed.

Lemma fill_reads r chunk : reading r = true -> match fill r chunk with RReports _ | RDone => False | _ => True end.
Proof. destruct r; try done; intros _; unfold fill, header_read; by repeat case_match. Qed.

(** ** A connection's invariant *)

(** What the reader of an end has made of what its peer wrote. *)
Record read_ok (peer : Out) (i : In) : Prop := {
  rd_position : (position i <= length (written peer))%nat;
  rd_stream : exists tail, take (position i) (written peer) = concat (passed i) ++ tail /\ tail_ok (reader_ i) tail /\
    (saw_end i = true -> partial kMaxBodyBytes tail);
  rd_passed : Forall (framed kMaxBodyBytes) (passed i);
  rd_calls : closed_calls i = match reader_ i with RReports _ | RDone => 1%nat | _ => 0%nat end;
  rd_end : saw_end i = true -> writeClosed_ peer = true /\ position i = length (written peer) /\
    match reader_ i with RCloses _ | RReports _ | RDone => True | _ => False end;
}.
Definition pipe_ok (l : list End) : Prop :=
  exists a b, l = [a; b] /\ (out_ok (out_ a) /\ out_ok (out_ b)) /\ read_ok (out_ a) (in_ b) /\ read_ok (out_ b) (in_ a).

Lemma pipe_pair_ok wake : pipe_ok (pipe_pair wake).
Proof.
  assert (Ho : forall a, out_ok (out_ (end_new a))) by (intros a; split; cbn; try done; intros _; by exists []).
  assert (Hr : forall a b, read_ok (out_ (end_new a)) (in_ (end_new b))) by (intros a b; split; cbn; try done; by exists []).
  by do 2 eexists.
Qed.

Lemma read_ok_grows o o' i : read_ok o i -> grows o o' -> read_ok o' i.
Proof.
  intros [H1 (tail & Ht & Hk & Hp) H3 H4 H5] [[more E] Hc]. split; try done.
  - rewrite E, length_app. lia.
  - exists tail. by rewrite E, take_app_le by done.
  - intros He. destruct (H5 He) as (Hw & Hpos & Hr). destruct (Hc Hw) as [Hw' ->]. by split.
Qed.

Lemma take_length_take {A} n (l : list A) : take (length (take n l)) l = take n l.
Proof. revert l. induction n as [|n IH]; intros [|x l]; cbn; f_equal; auto. Qed.

(** A read that fails, is woken or has ended. *)
Lemma stops_ok peer i saw : read_ok peer i -> reading (reader_ i) = true ->
  (saw = true -> writeClosed_ peer = true /\ position i = length (written peer)) -> read_ok peer (stops saw i).
Proof.
  intros [H1 (tail & Ht & Hk & Hp) H3 H4 H5] Hr Hsaw. split; cbn; try done.
  - pose proof (reading_partial _ _ Hk Hr) as Hpart. exists tail. split; [done|]. split; [by left|done].
  - rewrite H4. by destruct (reader_ i).
  - intros He. by destruct (Hsaw He).
Qed.

Lemma pipe_read_ok a wake peer i i' : read_ok peer i -> pipe_read a wake peer i = Some i' -> read_ok peer i'.
Proof.
  intros Hok Hs. unfold pipe_read in Hs. destruct (reading (reader_ i)) eqn:Hr; [|done].
  assert (Hns : saw_end i = false).
  { destruct (saw_end i) eqn:E; [|done]. destruct (rd_end _ _ Hok E) as (_ & _ & Hx). by destruct (reader_ i). }
  destruct a as [| |more|].
  - by injection Hs as <-.
  - destruct (default false wake); [|done]. injection Hs as <-. apply stops_ok; [done|done|congruence].
  - destruct (drop (position i) (written peer)) as [|b ready] eqn:Ed.
    + destruct (writeClosed_ peer) eqn:Ec; [|done]. injection Hs as <-. apply stops_ok; [done|done|]. intros _. split; [done|].
      apply (f_equal length) in Ed. rewrite length_drop in Ed. cbn in Ed. pose proof (rd_position _ _ Hok). lia.
    + cbv zeta in Hs. set (chunk := take _ (b :: ready)) in *. injection Hs as <-.
      destruct Hok as [H1 (tail & Ht & Hk & Hp) H3 H4 H5].
      assert (Hlen : (length chunk <= length (b :: ready))%nat /\ (length chunk <= wanted (reader_ i))%nat) by (unfold chunk; rewrite length_take; lia).
      destruct (fill_spec (reader_ i) chunk tail Hk Hr (proj2 Hlen)) as (Hfs & tail' & Htail & Hk').
      pose proof (fill_reads (reader_ i) chunk Hr) as Hf.
      assert (Hd : length (written peer) = (position i + length (b :: ready))%nat) by (apply (f_equal length) in Ed; rewrite length_drop in Ed; lia).
      assert (Hpass : passed (goes_on (fill (reader_ i) chunk) (length chunk) i) = passed i ++ handed (fill (reader_ i) chunk)).
      { unfold goes_on, handed. cbn [passed]. destruct (fill (reader_ i) chunk); by rewrite ?app_nil_r. }
      split; rewrite ?Hpass; cbn [goes_on position reader_ closed_calls saw_end]; try done.
      * lia.
      * exists tail'. split; [|split; [done|congruence]]. rewrite <- take_take_drop, Ht, Ed, concat_app, <- !app_assoc. f_equal.
        rewrite <- Htail. f_equal. apply take_length_take.
      * by apply Forall_app.
      * rewrite H4. destruct (fill (reader_ i) chunk); try done; by destruct (reader_ i).
      * congruence.
  - injection Hs as <-. apply stops_ok; [done|done|congruence].
Qed.

(** The steps that move the reader without reading. *)
Lemma reader_ok peer i r n : read_ok peer i -> saw_end i = false \/ n = 1%nat -> (forall tail, tail_ok (reader_ i) tail -> tail_ok r tail) ->
  n = match r with RReports _ | RDone => 1%nat | _ => 0%nat end -> read_ok peer (mkIn r (position i) (passed i) n (saw_end i)).
Proof.
  intros [H1 (tail & Ht & Hk & Hp) H3 H4 H5] Hn Hr Hc. split; cbn; try done.
  - exists tail. auto.
  - intros He. destruct (H5 He) as (? & ? & _). split; [done|]. split; [done|]. destruct Hn as [Hn| ->]; [congruence|]. by destruct r.
Qed.

Lemma not_ended peer i : read_ok peer i -> match reader_ i with RCloses _ | RReports _ | RDone => False | _ => True end -> saw_end i = false.
Proof. intros Hok Hr. destruct (saw_end i) eqn:E; [|done]. destruct (rd_end _ _ Hok E) as (_ & _ & Hx). by destruct (reader_ i). Qed.

(** A side's own steps keep what both sides know. *)
Lemma on_end_ok s f l l' : pipe_ok l -> on_end s f l = Some l' ->
  (forall peer e e', out_ok (out_ e) -> read_ok (out_ peer) (in_ e) -> f peer e = Some e' ->
     (out_ok (out_ e') /\ grows (out_ e) (out_ e')) /\ read_ok (out_ peer) (in_ e')) -> pipe_ok l'.
Proof.
  intros (a & b & -> & [Oa Ob] & Ha & Hb) H Hf. unfold on_end in H. apply bind_Some in H as (e & He & H). apply bind_Some in H as (peer & Hp & H).
  apply bind_Some in H as (e' & Hs & [= <-]). destruct s as [|[|s]]; cbn in He, Hp; simplify_eq.
  - destruct (Hf _ _ _ Oa Hb Hs) as [[? ?] ?]. exists e', peer. split; [done|]. split; [done|]. split; [by eapply read_ok_grows|done].
  - destruct (Hf _ _ _ Ob Ha Hs) as [[? ?] ?]. exists peer, e'. split; [done|]. split; [done|]. split; [done|by eapply read_ok_grows].
Qed.

Lemma grows_refl o : grows o o.
Proof. by split. Qed.

Lemma sink_returns_ok peer e e' : read_ok peer (in_ e) -> sink_returns e = Some e' -> out_ e' = out_ e /\ read_ok peer (in_ e').
Proof.
  intros Hr Hs. unfold sink_returns in Hs. destruct (reader_ (in_ e)) eqn:Er; try done.
  - destruct (default _ _); [done|]. injection Hs as <-. split; [done|]. unfold with_reader. cbn. apply reader_ok; [done|left|..].
    + apply (not_ended peer); [done|by rewrite Er].
    + rewrite Er. cbn. intros tail ->. split; [done|unfold kHeaderBytes; cbn; lia].
    + rewrite (rd_calls _ _ Hr). by rewrite Er.
  - injection Hs as <-. split; [done|]. unfold with_reader. cbn. pose proof (rd_calls _ _ Hr) as Hc. rewrite Er in Hc.
    apply reader_ok; [done|by right| |done]. by rewrite Er.
Qed.

Lemma pipe_closes_ok peer e e' : out_ok (out_ e) -> read_ok peer (in_ e) -> pipe_closes e = Some e' ->
  (out_ok (out_ e') /\ grows (out_ e) (out_ e')) /\ read_ok peer (in_ e').
Proof.
  intros Ho Hr Hs. unfold pipe_closes in Hs. destruct (reader_ (in_ e)) as [| | | |r| |] eqn:Er; try done.
  apply bind_Some in Hs as (o & Hc & [= <-]). destruct (pipe_close_ok _ _ Ho Hc) as (Ho' & Hg & _). split; [by split|]. cbn.
  pose proof (rd_calls _ _ Hr) as Hn. rewrite Er in Hn. apply reader_ok; [done|right; by rewrite Hn| |by rewrite Hn]. by rewrite Er.
Qed.

Lemma destroy_step_ok e e' : out_ok (out_ e) -> destroy_step e = Some e' -> (out_ok (out_ e') /\ grows (out_ e) (out_ e')) /\ in_ e' = in_ e.
Proof.
  intros Ho Hs. unfold destroy_step in Hs. destruct (dtor_ e); try done.
  - injection Hs as <-. cbn. by split; [split; [|apply grows_refl]|].
  - apply bind_Some in Hs as (o & Hc & [= <-]). destruct (pipe_close_ok _ _ Ho Hc) as (Ho' & Hg & _). by split.
  - destruct (joins _); [|done]. injection Hs as <-. cbn. by split; [split; [|apply grows_refl]|].
Qed.

Lemma pipe_start_ok peer e e' : read_ok peer (in_ e) -> pipe_start e = Some e' -> out_ e' = out_ e /\ read_ok peer (in_ e').
Proof.
  intros Hr Hs. unfold pipe_start in Hs. destruct (dtor_ e); try done. destruct (reader_ (in_ e)) eqn:Er; try done. injection Hs as <-.
  split; [done|]. unfold with_reader. cbn. apply reader_ok; [done|left|..].
  - apply (not_ended peer); [done|by rewrite Er].
  - rewrite Er. cbn. intros tail ->. split; [done|unfold kHeaderBytes; cbn; lia].
  - rewrite (rd_calls _ _ Hr). by rewrite Er.
Qed.

Lemma pipe_move_ok m l l' : pipe_ok l -> pipe_move m l = Some l' -> pipe_ok l'.
Proof.
  intros Hok H. destruct m as [s|s sink parts|s a|s|s a|s|s|s]; cbn [pipe_move] in H; eapply on_end_ok; try exact H; try done; intros peer e e' Ho Hr Hs; cbn beta in Hs.
  - destruct (pipe_start_ok _ _ _ Hr Hs) as [-> ?]. split; [split; [done|apply grows_refl]|done].
  - destruct (_ || _); [|done]. apply bind_Some in Hs as (o & Hs & [= <-]). apply fmap_Some in Hs as ([r o'] & Hs & ->).
    split; [by apply (pipe_send_ok _ _ _ _ _ Ho Hs)|done].
  - apply bind_Some in Hs as (o & Hs & [= <-]). apply fmap_Some in Hs as ([r o'] & Hs & ->). split; [by apply (pipe_write_ok _ _ _ _ Ho Hs)|done].
  - apply bind_Some in Hs as (o & Hs & [= <-]). destruct (pipe_close_ok _ _ Ho Hs) as (? & ? & _). by split.
  - apply bind_Some in Hs as (i & Hs & [= <-]). split; [split; [done|apply grows_refl]|by eapply pipe_read_ok].
  - destruct (sink_returns_ok _ _ _ Hr Hs) as [-> ?]. split; [split; [done|apply grows_refl]|done].
  - by eapply pipe_closes_ok.
  - destruct (destroy_step_ok _ _ Ho Hs) as [? ->]. by split.
Qed.

Lemma pipe_moves_ok ms l l' : pipe_ok l -> pipe_moves ms l = Some l' -> pipe_ok l'.
Proof.
  revert l. induction ms as [|m ms IH]; intros l Hok H; [by injection H as <-|].
  cbn in H. apply bind_Some in H as (l1 & H1 & H). eapply IH; [|exact H]. by eapply pipe_move_ok.
Qed.

(** What the sink was given is a beginning of what was sent, and all of it at the end
    of the stream. *)
Lemma read_order peer i : out_ok peer -> read_ok peer i -> broken peer = false ->
  passed i `prefix_of` sent peer /\ (saw_end i = true -> passed i = sent peer).
Proof.
  intros Ho [H1 (tail & Ht & Hk & Hp) H3 H4 H5] Hb. destruct (ou_written _ Ho Hb) as (part & Hw & Hs & Hwr).
  set (next := match writer_ peer with Some w => [w_frame w] | None => [] end).
  set (left := match writer_ peer with Some w => concat (w_rest w) | None => [] end).
  assert (Hall : written peer ++ left = concat (sent peer ++ next) /\ Forall (framed kMaxBodyBytes) (sent peer ++ next)).
  { unfold left, next. destruct (writer_ peer) as [w|].
    - destruct Hwr as [Hp1 Hf]. rewrite Hw, concat_app. cbn. rewrite app_nil_r, Hp1, <- app_assoc. split; [done|]. apply Forall_app.
      split; [done|]. apply Forall_singleton. by rewrite <- Hp1.
    - by rewrite Hw, Hwr, !app_nil_r. }
  assert (E : concat (passed i) ++ (tail ++ drop (position i) (written peer) ++ left) = concat (sent peer ++ next)).
  { by rewrite !app_assoc, <- Ht, take_drop, (proj1 Hall). }
  destruct (frames_unique _ _ _ _ H3 (proj2 Hall) E) as (rest & Er & Et). split.
  - unfold next, left in *. destruct (writer_ peer) as [w|] eqn:Ew; [|rewrite app_nil_r in Er; by exists rest].
    destruct rest as [|f rest _] using rev_ind.
    + exfalso. destruct (ou_writer _ Ho w Ew) as [Hr Hne]. destruct (w_rest w) as [|[|b p] q]; [done|by inversion Hne|].
      apply (f_equal length) in Et. rewrite !length_app in Et. cbn in Et. lia.
    + rewrite app_assoc in Er. apply app_inj_2 in Er as [-> _]; [|done]. by exists rest.
  - intros He. destruct (H5 He) as (Hc & Hpos & _). unfold next, left in *. rewrite (ou_closed _ Ho Hc) in *. rewrite app_nil_r in Er.
    rewrite Hpos, drop_all, !app_nil_r in Et. rewrite Er in Hs. apply Forall_app in Hs as [_ Hrest].
    rewrite Er, (partial_concat _ rest Hrest); [by rewrite app_nil_r|]. rewrite <- Et. by apply Hp.
Qed.

(** The direction towards end [k] as a transport. *)
Section direction.
Context (k : nat) (Hk : (k < 2)%nat).
Definition end_at (l : list End) : End := default (end_new true) (l !! k).
Definition peer_at (l : list End) : End := default (end_new true) (l !! (1 - k)%nat).

Lemma direction_cases : k = 0%nat \/ k = 1%nat.
Proof. lia. Qed.
Lemma direction_ok l : pipe_ok l -> out_ok (out_ (peer_at l)) /\ read_ok (out_ (peer_at l)) (in_ (end_at l)).
Proof. intros (a & b & -> & [Oa Ob] & Ha & Hb). unfold end_at, peer_at. destruct direction_cases as [E|E]; rewrite E; by split. Qed.
Lemma ends_at l : pipe_ok l -> l !! k = Some (end_at l) /\ l !! (1 - k)%nat = Some (peer_at l).
Proof. intros (a & b & -> & _). unfold end_at, peer_at. by destruct direction_cases as [E|E]; rewrite E. Qed.

(** After [onClosed] is called, no frame is. *)
Lemma reported_stays m l l' : pipe_ok l -> pipe_move m l = Some l' -> closed_calls (in_ (end_at l)) = 1%nat ->
  passed (in_ (end_at l')) = passed (in_ (end_at l)).
Proof.
  intros Hok H Hc. rewrite (rd_calls _ _ (proj2 (direction_ok l Hok))) in Hc. destruct (ends_at l Hok) as [He _].
  assert (Hgen : forall s f, on_end s f l = Some l' -> (forall peer e e', f peer e = Some e' ->
            match reader_ (in_ e) with RReports _ | RDone => True | _ => False end -> passed (in_ e') = passed (in_ e)) ->
          passed (in_ (end_at l')) = passed (in_ (end_at l))).
  { intros s f Ho Hf. unfold on_end in Ho. apply bind_Some in Ho as (e & Hs & Ho). apply bind_Some in Ho as (p & _ & Ho).
    apply bind_Some in Ho as (e' & Hs' & [= <-]). unfold end_at at 1. destruct (decide (s = k)) as [->|Hne].
    - rewrite list_lookup_insert_eq by (by eapply lookup_lt_Some). cbn. rewrite He in Hs. injection Hs as <-. eapply Hf; [exact Hs'|].
      by destruct (reader_ (in_ (end_at l))).
    - by rewrite list_lookup_insert_ne, He by done. }
  destruct m as [s|s sink parts|s a|s|s a|s|s|s]; cbn [pipe_move] in H; eapply Hgen; try exact H; intros peer e e' Hs Hr; cbn beta in Hs.
  - unfold pipe_start in Hs. by destruct (dtor_ e), (reader_ (in_ e)).
  - destruct (_ || _); [|done]. by apply bind_Some in Hs as (o & _ & [= <-]).
  - by apply bind_Some in Hs as (o & _ & [= <-]).
  - by apply bind_Some in Hs as (o & _ & [= <-]).
  - apply bind_Some in Hs as (i & Hs & [= <-]). unfold pipe_read in Hs. by destruct (reader_ (in_ e)).
  - unfold sink_returns in Hs. destruct (reader_ (in_ e)); try done. by injection Hs as <-.
  - unfold pipe_closes in Hs. by destruct (reader_ (in_ e)).
  - unfold destroy_step in Hs. destruct (dtor_ e); try done; [by injection Hs as <-|by apply bind_Some in Hs as (o & _ & [= <-])|].
    destruct (joins _); [|done]. by injection Hs as <-.
Qed.

#[export, refine] Instance pipe : ITransport (list End) PMove := {|
  tr_move := pipe_move; tr_inv := pipe_ok; tr_sent l := sent (out_ (peer_at l)); tr_got l := passed (in_ (end_at l));
  tr_closed l := closed_calls (in_ (end_at l)); tr_torn l := broken (out_ (peer_at l)) |}.
Proof.
  - apply pipe_move_ok.
  - intros l Hok Hb. destruct (direction_ok l Hok). by apply read_order.
  - intros l Hok. rewrite (rd_calls _ _ (proj2 (direction_ok l Hok))). by destruct (reader_ _); lia.
  - apply reported_stays.
Defined.
End direction.

(** ** The destructor *)

(** A step of an end alone. *)
Lemma on_end_at l k f e' : pipe_ok l -> (k < 2)%nat -> f (peer_at k l) (end_at k l) = Some e' ->
  on_end k f l = Some (<[k := e']> l) /\ end_at k (<[k := e']> l) = e'.
Proof.
  intros Hok Hk H. destruct (ends_at k Hk l Hok) as [He Hp]. unfold on_end. rewrite He, Hp. cbn. rewrite H. split; [done|].
  unfold end_at. by rewrite list_lookup_insert_eq by (by eapply lookup_lt_Some).
Qed.

(** How many turns the reader has left once it is woken. *)
Definition turns_left (r : Reader) : nat :=
  match r with RIdle | RDone => 0 | RReports _ => 1 | RCloses _ => 2 | RHeader _ | RBody _ _ _ => 3 | RSink _ => 4 end.

(** An end that is being joined: its wake byte is written and it is closed. *)
Definition joining (e : End) : Prop := wake_ e = Some true /\ writer_ (out_ e) = None /\ dtor_ e = DJoins.

Lemma reader_turn l k : pipe_ok l -> (k < 2)%nat -> wake_ (end_at k l) = Some true -> writer_ (out_ (end_at k l)) = None ->
  dtor_ (end_at k l) = DJoins -> turns_left (reader_ (in_ (end_at k l))) <> 0%nat ->
  exists m l', own_move k m /\ pipe_move m l = Some l' /\ joining (end_at k l') /\
    turns_left (reader_ (in_ (end_at k l))) = S (turns_left (reader_ (in_ (end_at k l')))).
Proof.
  intros Hok Hk Hw Ho Hd Ht.
  assert (Hgen : forall m f e', own_move k m -> pipe_move m l = on_end k f l -> f (peer_at k l) (end_at k l) = Some e' -> joining e' ->
            turns_left (reader_ (in_ (end_at k l))) = S (turns_left (reader_ (in_ e'))) ->
          exists m l', own_move k m /\ pipe_move m l = Some l' /\ joining (end_at k l') /\
            turns_left (reader_ (in_ (end_at k l))) = S (turns_left (reader_ (in_ (end_at k l'))))).
  { intros m f e' Hm Hmove Hf Hj Hn. destruct (on_end_at l k f e' Hok Hk Hf) as [H1 H2]. exists m, (<[k := e']> l).
    rewrite Hmove, H2. by split. }
  destruct (reader_ (in_ (end_at k l))) as [|buf|h body buf|f|r|r|] eqn:Er; try done.
  1,2: eapply (Hgen (PRead k RWake)); [by left|done|cbn beta; unfold pipe_read; rewrite Er, Hw; done|done|done].
  1: eapply (Hgen (PReturns k)); [by right; left|done|cbn beta; unfold sink_returns; rewrite Er, Ho; done|done|done].
  1: eapply (Hgen (PCloses k)); [by right; right; left|done|cbn beta; unfold pipe_closes, pipe_close; rewrite Er, Ho; done|done|done].
  1: eapply (Hgen (PReturns k)); [by right; left|done|cbn beta; unfold sink_returns; rewrite Er; done|done|done].
Qed.

Lemma reader_joins n : forall l k, pipe_ok l -> (k < 2)%nat -> joining (end_at k l) -> turns_left (reader_ (in_ (end_at k l))) = n ->
  exists more l', pipe_moves more l = Some l' /\ Forall (own_move k) more /\ (length more <= S n)%nat /\ dtor_ (end_at k l') = DGone.
Proof.
  induction n as [|n IH]; intros l k Hok Hk (Hw & Ho & Hd) Hn.
  - assert (Hj : destroy_step (end_at k l) = Some (mkEnd (out_ (end_at k l)) (in_ (end_at k l)) (wake_ (end_at k l)) DGone)).
    { unfold destroy_step. rewrite Hd. by destruct (reader_ (in_ (end_at k l))). }
    destruct (on_end_at l k (fun _ => destroy_step) _ Hok Hk Hj) as [H1 H2]. eexists [PDestroys k], _. cbn [pipe_moves pipe_move]. rewrite H1.
    split; [done|]. rewrite H2. split; [apply Forall_singleton; by right; right; right|]. by split; [cbn; lia|].
  - destruct (reader_turn l k Hok Hk Hw Ho Hd) as (m & l1 & Hm & H1 & Hj & Ht); [lia|].
    destruct (IH l1 k (pipe_move_ok _ _ _ Hok H1) Hk Hj) as (more & l' & H & Ha & Hl & Hg); [lia|].
    exists (m :: more), l'. cbn [pipe_moves]. rewrite H1. split; [done|]. split; [by constructor|]. by split; [cbn; lia|].
Qed.

(** A destructor called while no send holds the mutex returns. *)
Lemma destroy_returns l k : pipe_ok l -> (k < 2)%nat -> is_Some (wake_ (end_at k l)) -> writer_ (out_ (end_at k l)) = None ->
  dtor_ (end_at k l) = DAlive ->
  exists more l', pipe_moves more l = Some l' /\ Forall (own_move k) more /\ (length more <= 7)%nat /\ dtor_ (end_at k l') = DGone.
Proof.
  intros Hok Hk [w Hw] Ho Hd. set (e := end_at k l) in *. assert (Hown : own_move k (PDestroys k)) by (by right; right; right).
  assert (Hs1 : destroy_step e = Some (mkEnd (out_ e) (in_ e) (wake_ e) DCloses)) by (unfold destroy_step; by rewrite Hd).
  destruct (on_end_at l k (fun _ => destroy_step) _ Hok Hk Hs1) as [H1 E1]. set (l1 := <[k := _]> l) in *. set (e1 := mkEnd _ _ _ DCloses) in *.
  pose proof (pipe_move_ok (PDestroys k) _ _ Hok H1) as Hok1.
  set (wake2 := match reader_ (in_ e) with RIdle => wake_ e | _ => (fun _ => true) <$> wake_ e end).
  set (e2 := mkEnd (mkOut true None (written (out_ e)) (sent (out_ e)) (broken (out_ e))) (in_ e) wake2 DJoins).
  assert (Hs2 : destroy_step (end_at k l1) = Some e2) by (rewrite E1; cbn; unfold pipe_close; by rewrite Ho).
  destruct (on_end_at l1 k (fun _ => destroy_step) _ Hok1 Hk Hs2) as [H2 E2]. set (l2 := <[k := e2]> l1) in *.
  pose proof (pipe_move_ok (PDestroys k) _ _ Hok1 H2) as Hok2.
  assert (Hlast : exists more l', pipe_moves more l2 = Some l' /\ Forall (own_move k) more /\ (length more <= 5)%nat /\ dtor_ (end_at k l') = DGone).
  { destruct (reader_ (in_ e)) as [| | | | | |] eqn:Er.
    { assert (Hj : destroy_step (end_at k l2) = Some (mkEnd (out_ e2) (in_ e2) (wake_ e2) DGone)) by (rewrite E2; cbn; by rewrite Er).
      destruct (on_end_at l2 k (fun _ => destroy_step) _ Hok2 Hk Hj) as [H3 E3]. eexists [PDestroys k], _. cbn [pipe_moves pipe_move]. rewrite H3.
      split; [done|]. rewrite E3. by split; [apply Forall_singleton|split; [cbn; lia|]]. }
    all: destruct (reader_joins _ l2 k Hok2 Hk ltac:(rewrite E2; split; [cbn; unfold wake2; by rewrite ?Er, Hw|done]) eq_refl) as (more & l' & H & Ha & Hl & Hg).
    all: exists more, l'; split; [done|]; split; [done|]; split; [|done]; rewrite E2 in Hl; cbn in Hl; rewrite Er in Hl; cbn in Hl; lia. }
  destruct Hlast as (more & l' & H & Ha & Hl & Hg). exists (PDestroys k :: PDestroys k :: more), l'.
  cbn [pipe_moves]. rewrite (H1 : pipe_move (PDestroys k) l = Some l1). cbn [mbind option_bind].
  rewrite (H2 : pipe_move (PDestroys k) l1 = Some l2). split; [done|].
  split; [by repeat constructor|]. by split; [cbn; lia|].
Qed.

(** C40. Over a pair of byte streams, however the system cuts reads and writes or
    blocks them, whatever the ends do and wherever their sinks send from: as long as no
    send failed halfway and every frame sent is one, at most 2^31-1 bytes long, the
    sink is given a beginning of the frames sent, in order, each once; at the end of the
    stream, all of them; and onClosed is called at most once, with no frame after it. An
    end that no send is in the middle of can be destroyed at any time, if the system
    gave it a wake pipe: whatever its reader waits for, and provided the sink it may be
    in returns, the destructor has returned after at most seven turns of its own and of
    the reader. *)
Theorem pipe_delivers ms l k wake : pipe_moves ms (pipe_pair wake) = Some l -> (k < 2)%nat ->
  ((closed_calls (in_ (end_at k l)) <= 1)%nat /\
   forall m l', pipe_move m l = Some l' -> closed_calls (in_ (end_at k l)) = 1%nat ->
     passed (in_ (end_at k l')) = passed (in_ (end_at k l))) /\
  (broken (out_ (peer_at k l)) = false ->
     passed (in_ (end_at k l)) `prefix_of` sent (out_ (peer_at k l)) /\
     (saw_end (in_ (end_at k l)) = true -> passed (in_ (end_at k l)) = sent (out_ (peer_at k l)))) /\
  (is_Some (wake_ (end_at k l)) -> writer_ (out_ (end_at k l)) = None -> dtor_ (end_at k l) = DAlive ->
     exists more l', pipe_moves more l = Some l' /\ Forall (own_move k) more /\ (length more <= 7)%nat /\ dtor_ (end_at k l') = DGone).
Proof.
  intros H Hk. pose proof (pipe_moves_ok _ _ _ (pipe_pair_ok wake) H) as Hok. destruct (direction_ok k Hk l Hok) as [Ho Hr].
  split; [split; [by apply (tr_once (ITransport := pipe k Hk))|intros m l' Hm Hc; by apply (reported_stays k Hk m)]|].
  split; [intros Hb; by apply read_order|by apply destroy_returns].
Qed.

(** Two frames in pieces, the second sent while the first waits for a write, a close,
    and the end of the stream. *)
Definition two_frames : list (list byte) := [encodeCancel 5; encodeCancel 6].
Definition pipe_sample : list PMove :=
  [PStart 1; PSend 0 false [take 4 (encodeCancel 5); drop 4 (encodeCancel 5)]; PWrite 0 (WWrote 0); PWrite 0 WInterrupted; PWrite 0 (WWrote 2);
   PRead 1 (RBytes 2); PRead 1 RInterrupted; PWrite 0 (WWrote 99); PSend 0 false [encodeCancel 6]; PRead 1 (RBytes 9); PRead 1 (RBytes 20); PReturns 1;
   PWrite 0 (WWrote 20); PClose 0; PSend 0 false [encodeCancel 7]; PRead 1 (RBytes 20); PRead 1 (RBytes 20); PReturns 1; PRead 1 (RBytes 0);
   PCloses 1; PReturns 1]%nat.
Definition pipe_open : list End := pipe_pair (fun _ => true).
Definition pipe_end : list End := default pipe_open (pipe_moves pipe_sample pipe_open).
Lemma pipe_end_reached : pipe_moves pipe_sample pipe_open = Some pipe_end.
Proof. apply default_reached. vm_compute. reflexivity. Qed.

Lemma pipe_delivers_witness : saw_end (in_ (end_at 1 pipe_end)) = true /\ passed (in_ (end_at 1 pipe_end)) = two_frames.
Proof.
  split; [vm_compute; reflexivity|].
  assert (E : sent (out_ (peer_at 1 pipe_end)) = two_frames) by (vm_compute; reflexivity). rewrite <- E.
  destruct (pipe_delivers pipe_sample pipe_end 1 (fun _ => true) pipe_end_reached ltac:(lia)) as (_ & H & _).
  apply H; vm_compute; reflexivity.
Defined.

(** A send that fails after some bytes leaves the end open: the next one succeeds,
    and its frame is read as the rest of the torn one. *)
Definition torn_sample : list PMove :=
  [PStart 1; PSend 0 false [encodeCancel 5]; PWrite 0 (WWrote 5); PWrite 0 WFailed; PSend 0 false [encodeCancel 6]; PWrite 0 (WWrote 99);
   PRead 1 (RBytes 99); PRead 1 (RBytes 99); PReturns 1; PRead 1 (RBytes 99); PReturns 1]%nat.
Definition torn_end : list End := default pipe_open (pipe_moves torn_sample pipe_open).
Example failed_send_tears_stream : sent (out_ (end_at 0 torn_end)) = [encodeCancel 6] /\ passed (in_ (end_at 1 torn_end)) <> [] /\
  forall f, f ∈ passed (in_ (end_at 1 torn_end)) -> f <> encodeCancel 6.
Proof.
  assert (E : passed (in_ (end_at 1 torn_end)) = [take 6 (encodeCancel 5) ++ take 7 (encodeCancel 6); replicate 5 x00]) by (vm_compute; reflexivity).
  rewrite E. split; [vm_compute; reflexivity|]. split; [done|].
  intros f [->|[->|?%elem_of_nil]%elem_of_cons]%elem_of_cons; [vm_compute; discriminate..|done].
Qed.

(** Without a wake pipe a destructor joins a reader that only the peer, a signal or
    an error can move: the wake is not there to be read. *)
Definition unwoken : list End := default pipe_open (pipe_moves [PStart 0; PDestroys 0; PDestroys 0] (pipe_pair (fun _ => false)))%nat.
Example destructor_waits_for_peer : dtor_ (end_at 0 unwoken) = DJoins /\ pipe_move (PDestroys 0) unwoken = None /\
  forall a, a <> RInterrupted -> a <> RFailed -> pipe_read a (wake_ (end_at 0 unwoken)) (out_ (peer_at 0 unwoken)) (in_ (end_at 0 unwoken)) = None.
Proof. split; [vm_compute; reflexivity|]. split; [vm_compute; reflexivity|]. by intros [| |more|] ??. Qed.

(** A sink that answers a frame while its peer has stopped reading: as long as the
    write blocks, [close] and the destructor wait for the mutex it holds, with the wake
    pipe there, and only an answer of the system to that write can move them. *)
Definition sink_sends : list PMove :=
  [PStart 0; PSend 1 false [encodeCancel 5]; PWrite 1 (WWrote 99); PRead 0 (RBytes 99); PRead 0 (RBytes 99);
   PSend 0 true [encodeCancel 6]; PWrite 0 (WWrote 3); PDestroys 0]%nat.
Definition blocked_end : list End := default pipe_open (pipe_moves sink_sends pipe_open).
Example blocked_send_holds_close : pipe_moves sink_sends pipe_open = Some blocked_end /\ dtor_ (end_at 0 blocked_end) = DCloses /\
  pipe_move (PClose 0) blocked_end = None /\ (forall m, own_move 0 m -> pipe_move m blocked_end = None) /\
  forall a, pipe_move (PRead 0 a) blocked_end = None.
Proof.
  split; [apply default_reached; vm_compute; reflexivity|]. split; [vm_compute; reflexivity|]. split; [vm_compute; reflexivity|].
  split; [intros m [->|[->|[->| ->]]]; vm_compute; reflexivity|]. intros a. vm_compute. reflexivity.
Qed.

(** A payload frame that [sendPayloadFrame] accepts and the reader does not. *)
Lemma large_frame_refused body : 2 ^ 31 <= zlen body < 2 ^ 32 ->
  sendPayloadFrame [body] = Expected (payloadFrameHeader (zlen body) ++ body) /\
  header_read (payloadFrameHeader (zlen body)) = RCloses kProtocol.
Proof.
  intros Hb. unfold sendPayloadFrame. cbn [length Nat.ltb kMaxParts]. cbn [sum_list_with]. rewrite Nat.add_0_r. fold (zlen body).
  rewrite (proj2 (Z.ltb_ge _ _)) by lia. unfold sendParts. cbn [concat]. rewrite app_nil_r. split; [done|].
  unfold header_read, payloadFrameHeader. rewrite take_app_le, take_ge by (rewrite length_le_bytes; lia).
  rewrite le_value_u32 by (unfold is_u32; lia). by rewrite (proj2 (Z.ltb_lt _ _)) by (unfold kMaxBodyBytes; lia).
Qed.

(** ** BufferPool *)

(** Buffers by name and capacity: free ones in order, those still referenced. *)
Record BufferPool := mkBufferPool { free_ : list (nat * Z); pooledBytes_ : Z; live_ : list (nat * Z); made : nat }.
Definition kMaxBuffers : nat := 8.
Definition kMaxPooledBytes : Z := 256 * 1024 * 1024.
Definition pool_new : BufferPool := mkBufferPool [] 0 [] 0.

(** [take]: the first free buffer that is large enough, or a new one. *)
Definition buffer_take (size : Z) (p : BufferPool) : nat * BufferPool :=
  match list_find (fun b => size <= b.2) (free_ p) with
  | Some (i, (b, capacity)) =>
      (b, mkBufferPool (delete i (free_ p)) (u64 (pooledBytes_ p - capacity)) ((b, capacity) :: live_ p) (made p))
  | None => (made p, mkBufferPool (free_ p) (pooledBytes_ p) ((made p, size) :: live_ p) (S (made p)))
  end.
(** [give], by the deleter of the last reference to the [i]-th buffer in use. *)
Definition buffer_give (i : nat) (p : BufferPool) : option BufferPool :=
  '(b, capacity) ← live_ p !! i;
  let live := delete i (live_ p) in
  Some (if (kMaxBuffers <=? length (free_ p))%nat || (kMaxPooledBytes <? u64 (pooledBytes_ p + capacity))
        then mkBufferPool (free_ p) (pooledBytes_ p) live (made p)
        else mkBufferPool (free_ p ++ [(b, capacity)]) (u64 (pooledBytes_ p + capacity)) live (made p)).

Inductive BufferCall : Set := BTake (size : Z) | BGive (i : nat).
Definition buffer_call (c : BufferCall) (p : BufferPool) : option BufferPool :=
  match c with
  | BTake size => if (0 <=? size) && (size <=? 2 ^ 32) then Some (buffer_take size p).2 else None
  | BGive i => buffer_give i p
  end.
Fixpoint buffer_calls (l : list BufferCall) (p : BufferPool) : option BufferPool :=
  match l with [] => Some p | c :: l => p ← buffer_call c p; buffer_calls l p end.

Definition total (l : list (nat * Z)) : Z := foldr (fun b z => b.2 + z) 0 l.
Definition capacities_ok (l : list (nat * Z)) : Prop := Forall (fun b => 0 <= b.2 <= 2 ^ 32) l.

Record pool_ok (p : BufferPool) : Prop := {
  bp_free : (length (free_ p) <= kMaxBuffers)%nat;
  bp_bytes : pooledBytes_ p = total (free_ p) /\ total (free_ p) <= kMaxPooledBytes;
  bp_caps : capacities_ok (free_ p) /\ capacities_ok (live_ p);
  bp_names : NoDup ((free_ p).*1 ++ (live_ p).*1) /\ Forall (fun b => b < made p)%nat ((free_ p).*1 ++ (live_ p).*1);
}.

Lemma total_app l k : total (l ++ k) = total l + total k.
Proof. induction l as [|b l IH]; cbn; [done|]. fold (total (l ++ k)) (total l). lia. Qed.
Lemma total_nonneg l : capacities_ok l -> 0 <= total l.
Proof. induction 1 as [|b l Hb _ IH]; cbn; [done|]. fold (total l). lia. Qed.
Lemma total_delete l i b : l !! i = Some b -> total (delete i l) = total l - b.2.
Proof.
  revert i. induction l as [|x l IH]; intros [|i] H; simplify_eq/=; fold (total l); [lia|].
  fold (total (delete i l)). rewrite (IH i H). lia.
Qed.
Lemma names_delete (l : list (nat * Z)) i b : l !! i = Some b -> l.*1 ≡ₚ b.1 :: (delete i l).*1.
Proof. intros H. by rewrite (delete_Permutation l i b H) at 1. Qed.

Lemma small_u64 z : 0 <= z < 2 ^ 64 -> u64 z = z.
Proof. intros H. unfold u64. by rewrite Z.mod_small. Qed.

Lemma pool_new_ok : pool_ok pool_new.
Proof. split; cbn; [lia|split; [done|unfold kMaxPooledBytes; lia]|split; constructor|split; constructor]. Qed.

Lemma buffer_take_ok size p : pool_ok p -> 0 <= size <= 2 ^ 32 ->
  pool_ok (buffer_take size p).2 /\ exists capacity, live_ (buffer_take size p).2 = ((buffer_take size p).1, capacity) :: live_ p /\
    size <= capacity /\ (buffer_take size p).1 ∉ (live_ p).*1.
Proof.
  intros [H1 [H2 H2'] [H3 H3'] [H4 H4']] Hs. unfold buffer_take. destruct (list_find _ (free_ p)) as [[i [b capacity]]|] eqn:Ef; cbn [fst snd live_].
  - apply list_find_Some in Ef as (Hi & Hc & _). cbn in Hc. pose proof (total_delete _ _ _ Hi) as Ht. cbn in Ht.
    assert (Hd : capacities_ok (delete i (free_ p))) by (by apply Forall_delete).
    pose proof (total_nonneg _ Hd) as Hpos. pose proof (total_nonneg _ H3) as Hpos'. pose proof (Forall_lookup_1 _ _ _ _ H3 Hi) as Hcap. cbn in Hcap.
    pose proof (names_delete _ _ _ Hi) as Hn. cbn in Hn. rewrite Hn in H4, H4'. cbn in H4, H4'. split.
    + split; cbn [free_ pooledBytes_ live_ made]; [rewrite length_delete by (by eexists); lia|..].
      * rewrite small_u64 by (unfold kMaxPooledBytes in *; lia). lia.
      * split; [done|]. constructor; [cbn; lia|done].
      * cbn. rewrite <- Permutation_middle. by split.
    + exists capacity. split; [done|]. split; [done|]. apply NoDup_cons in H4 as [H4 _]. intros Hin. apply H4, elem_of_app. by right.
  - assert (Hf : made p ∉ (free_ p).*1 ++ (live_ p).*1) by (intros Hin; rewrite Forall_forall in H4'; specialize (H4' _ Hin); lia). split.
    + split; cbn [free_ pooledBytes_ live_ made]; [done|done|split; [done|constructor; [cbn; lia|done]]|].
      cbn. rewrite <- Permutation_middle. split; [by apply NoDup_cons|]. constructor; [lia|]. eapply Forall_impl; [exact H4'|cbn; lia].
    + exists size. split; [done|]. split; [lia|]. intros Hin. apply Hf, elem_of_app. by right.
Qed.

Lemma buffer_give_ok i p p' : pool_ok p -> buffer_give i p = Some p' -> pool_ok p'.
Proof.
  intros [H1 [H2 H2'] [H3 H3'] [H4 H4']] Hg. unfold buffer_give in Hg. apply bind_Some in Hg as ([b capacity] & Hi & Hg).
  pose proof (names_delete _ _ _ Hi) as Hn. cbn in Hn. rewrite Hn, <- Permutation_middle in H4, H4'. 
  pose proof (Forall_lookup_1 _ _ _ _ H3' Hi) as Hcap. cbn in Hcap. assert (Hd : capacities_ok (delete i (live_ p))) by (by apply Forall_delete).
  pose proof (total_nonneg _ H3) as Hpos. assert (Hu : u64 (pooledBytes_ p + capacity) = total (free_ p) + capacity).
  { rewrite H2. apply small_u64. unfold kMaxPooledBytes in *. lia. }
  assert (Hdrop : pool_ok (mkBufferPool (free_ p) (pooledBytes_ p) (delete i (live_ p)) (made p))).
  { apply NoDup_cons in H4 as [_ H4]. apply Forall_cons in H4' as [_ H4']. by split. }
  cbv zeta in Hg. rewrite Hu in Hg. destruct (_ || _) eqn:E in Hg; [by injection Hg as <-|].
  apply orb_false_iff in E as [Hlen%Nat.leb_gt Hb%Z.ltb_ge]. injection Hg as <-.
  split; cbn [free_ pooledBytes_ live_ made].
  - rewrite length_app. cbn. lia.
  - rewrite total_app. cbn. lia.
  - split; [|done]. apply Forall_app. split; [done|]. constructor; [cbn; lia|constructor].
  - rewrite fmap_app. cbn. rewrite <- app_assoc. cbn. rewrite <- Permutation_middle. by split.
Qed.

(** Frame buffers are recycled safely: however buffers are taken and given back,
    at most eight and 256 MiB are kept, counted exactly; a taken buffer is large
    enough, and is nobody else's. *)
Theorem buffer_pool_bounded l p size : buffer_calls l pool_new = Some p -> 0 <= size <= 2 ^ 32 ->
  (length (free_ p) <= 8)%nat /\ pooledBytes_ p = total (free_ p) /\ pooledBytes_ p <= 256 * 1024 * 1024 /\
  exists b capacity p', buffer_take size p = (b, p') /\ live_ p' = (b, capacity) :: live_ p /\ size <= capacity /\ b ∉ (live_ p).*1.
Proof.
  intros Hl Hs. assert (Hok : pool_ok p).
  { assert (H : forall q, pool_ok q -> buffer_calls l q = Some p -> pool_ok p); [|by apply (H pool_new pool_new_ok)]. clear Hl.
    induction l as [|c l IH]; intros q Hq H; [by injection H as <-|]. cbn in H. apply bind_Some in H as (q1 & H1 & H). eapply IH; [|exact H].
    destruct c as [sz|i]; cbn in H1; [|by eapply buffer_give_ok]. destruct ((0 <=? sz) && (sz <=? 2 ^ 32)) eqn:E; [|done]. injection H1 as <-.
    apply buffer_take_ok; [done|lia]. }
  destruct (buffer_take_ok size p Hok Hs) as [_ (capacity & E & Hc & Hn)]. destruct Hok as [H1 [H2 H2'] _ _].
  split; [done|]. split; [done|]. split; [by rewrite H2|]. exists (buffer_take size p).1, capacity, (buffer_take size p).2.
  split; [by destruct (buffer_take size p)|done].
Qed.

(** A buffer given back is taken again for a smaller frame, not for a larger one. *)
Definition buffer_sample : list BufferCall := [BTake 100; BTake 50; BGive 1; BTake 60; BGive 1]%nat.
Lemma buffer_pool_bounded_witness : exists b capacity p', buffer_take 80 (default pool_new (buffer_calls buffer_sample pool_new)) = (b, p') /\ 80 <= capacity.
Proof.
  destruct (buffer_pool_bounded buffer_sample (default pool_new (buffer_calls buffer_sample pool_new)) 80) as (_ & _ & _ & b & c & p' & E & _ & Hc & _).
  - apply default_reached. vm_compute. reflexivity.
  - lia.
  - exists b, c, p'. split; [exact E|exact Hc].
Defined.
