(* ===== verification/Stream.v ===== *)
(** The streaming and store payload strategies (src/remote/stream_strategy.cpp,
    src/remote/store_strategy.cpp): payload bytes in chunked payload frames, and
    payload bytes through the consumer's store. *)
From S2P Require Import Prelude Types Bytes Payload.

(** Chunk body: u8 kind | u64 stream | u64 total | u64 offset | bytes. *)
Definition kChunk : Z := 1.
Definition kChunkHeader : nat := 25.
Definition kMaxChunk : Z := 2 ^ 32 - 1 - 64.

Definition encodeU32 (v : Z) : list byte := le_bytes 4 v.
Definition decodeU32 (l : list byte) : option Z := if (length l =? 4)%nat then Some (le_value l) else None.

Lemma decode_encode_u32 v : is_u32 v -> decodeU32 (encodeU32 v) = Some v.
Proof. intros H. unfold decodeU32, encodeU32. by rewrite length_le_bytes, Nat.eqb_refl, le_value_u32. Qed.

Record Partial := mkPartial { storage : option (list byte); total : Z; received : Z }.
Definition Partial_default : Partial := mkPartial None 0 0.

Record StreamStrategy := mkStream {
  chunkBytes_ : Z;
  nextStream_ : Z;
  partial_ : gmap Z Partial;
  complete_ : gmap Z Payload
}.

Definition set_chunkBytes (v : Z) (s : StreamStrategy) : StreamStrategy :=
  mkStream v (nextStream_ s) (partial_ s) (complete_ s).
Definition set_partial (p : gmap Z Partial) (s : StreamStrategy) : StreamStrategy :=
  mkStream (chunkBytes_ s) (nextStream_ s) p (complete_ s).
Definition set_complete (c : gmap Z Payload) (s : StreamStrategy) : StreamStrategy :=
  mkStream (chunkBytes_ s) (nextStream_ s) (partial_ s) c.

Definition new_stream (chunkBytes : Z) : StreamStrategy :=
  mkStream (Z.min (Z.max chunkBytes 1) kMaxChunk) 1 ∅ ∅.
Definition offer (s : StreamStrategy) : list byte := encodeU32 (chunkBytes_ s).

(** The two ends of the negotiation take the smaller chunk size. *)
Definition accept (s : StreamStrategy) (l : list byte) :
    StreamStrategy * expected (list byte) PipelineError :=
  match decodeU32 l with
  | None | Some 0 => (s, Unexpected kJobFailed)
  | Some peer =>
    let s := set_chunkBytes (Z.min (chunkBytes_ s) peer) s in (s, Expected (encodeU32 (chunkBytes_ s)))
  end.
Definition complete (s : StreamStrategy) (l : list byte) : StreamStrategy * expected unit PipelineError :=
  match decodeU32 l with
  | None | Some 0 => (s, Unexpected kJobFailed)
  | Some peer => (set_chunkBytes (Z.min (chunkBytes_ s) peer) s, Expected tt)
  end.

(** ** Sending *)

Definition chunk_header (stream total offset : Z) : list byte :=
  [to_byte kChunk] ++ le_bytes 8 stream ++ le_bytes 8 total ++ le_bytes 8 offset.

(** The sending loop from [offset]: the frame bodies the sender took, and whether
    it took every one; [None] when the fuel runs out. [takes] answers for the
    connection's sender. *)
Fixpoint send_loop (takes : list (list byte) -> bool) (fuel : nat) (chunkBytes stream : Z) (bytes : list byte)
    (offset : nat) (sent : list (list byte)) : option (list (list byte) * bool) :=
  match fuel with
  | O => None
  | S fuel =>
    let length := Nat.min (Z.to_nat chunkBytes) (length bytes - offset) in
    let parts := [chunk_header stream (zlen bytes) (Z.of_nat offset); slice bytes offset length] in
    if negb (takes parts) then Some (sent, false) else
    let sent := sent ++ [concat parts] in
    let offset := (offset + length)%nat in
    if (offset <? List.length bytes)%nat then send_loop takes fuel chunkBytes stream bytes offset sent
    else Some (sent, true)
  end.

(** [send]: a chunk is at least one byte, so the payload's length is fuel enough.
    [sender] is the attached sender, or none. *)
Definition send (sender : option (list (list byte) -> bool)) (s : StreamStrategy) (payload : Payload) :
    option (StreamStrategy * list (list byte) * expected (list byte) PipelineError) :=
  let stream := nextStream_ s in
  let s' := mkStream (chunkBytes_ s) (u64 (stream + 1)) (partial_ s) (complete_ s) in
  match sender with
  | None => Some (s', [], Unexpected kUnavailable)
  | Some takes =>
    match send_loop takes (S (length (bytes payload))) (chunkBytes_ s) stream (bytes payload) 0 [] with
    | None => None
    | Some (sent, false) => Some (s', sent, Unexpected kUnavailable)
    | Some (sent, true) => Some (s', sent, Expected (le_bytes 8 stream))
    end
  end.

(** ** Receiving *)

Definition receive (s : StreamStrategy) (reference : list byte) :
    StreamStrategy * expected Payload PipelineError :=
  if negb (length reference =? 8)%nat then (s, Unexpected kJobFailed) else
  let stream := le_value reference in
  match complete_ s !! stream with
  | None => (s, Unexpected kJobFailed)
  | Some payload => (set_complete (delete stream (complete_ s)) s, Expected payload)
  end.

Definition write_at (storage : list byte) (offset : nat) (chunk : list byte) : list byte :=
  take offset storage ++ chunk ++ drop (offset + length chunk) storage.

Section receiving.
(** What [new std::byte[n]] holds before it is written, and the owner a payload
    that views it shares. *)
Context (fresh : nat -> list byte) (heap_owner : positive).

(** The part of [onPayloadFrame] under the lock: the chunk joins its stream. *)
Definition take_chunk (s : StreamStrategy) (stream total' offset : Z) (chunk : list byte) (owner : option positive) :
    StreamStrategy :=
  if (offset =? 0) && (zlen chunk =? total') && bool_decide (is_Some owner) then
    set_complete (<[stream := view chunk owner]> (complete_ s)) s
  else
    let p := default Partial_default (partial_ s !! stream) in
    let p :=
      match storage p with
      | None => mkPartial (Some (fresh (if total' =? 0 then 1%nat else Z.to_nat total'))) total' (received p)
      | Some _ => p
      end in
    let s := set_partial (<[stream := p]> (partial_ s)) s in
    if negb (total p =? total') then s else
    let memory := write_at (default [] (storage p)) (Z.to_nat offset) chunk in
    let p := mkPartial (Some memory) (total p) (u64 (received p + zlen chunk)) in
    if total p <=? received p
    then set_partial (delete stream (partial_ s))
           (set_complete (<[stream := view (take (Z.to_nat total') memory) (Some heap_owner)]> (complete_ s)) s)
    else set_partial (<[stream := p]> (partial_ s)) s.

Definition onPayloadFrame (s : StreamStrategy) (body : list byte) (owner : option positive) : StreamStrategy :=
  if (length body <? kChunkHeader)%nat || negb (to_integer (default x00 (head body)) =? kChunk) then s else
  let stream := le_value (slice body 1 8) in
  let total' := le_value (slice body 9 8) in
  let offset := le_value (slice body 17 8) in
  let chunk := drop kChunkHeader body in
  if (total' <? offset) || (total' - offset <? zlen chunk) then s else
  take_chunk s stream total' offset chunk owner.

Definition frames_arrive (s : StreamStrategy) (frames : list (list byte * option positive)) : StreamStrategy :=
  foldl (fun s f => onPayloadFrame s f.1 f.2) s frames.
End receiving.

Definition onClosed (s : StreamStrategy) : StreamStrategy := set_complete ∅ (set_partial ∅ s).

(** ** The store strategy *)

Section store.
(** The consumer's [IPayloadStore]. *)
Context (put : list byte -> expected (list byte) PipelineError)
        (get : list byte -> expected (list byte) PipelineError).

Definition store_send (payload : Payload) : expected (list byte) PipelineError :=
  match put (bytes payload) with
  | Expected h => if (kMaxHandleBytes <? length h)%nat then Unexpected kJobFailed else Expected h
  | Unexpected e => Unexpected e
  end.
Definition store_receive (reference : list byte) : expected Payload PipelineError :=
  match get reference with
  | Expected b => Expected (inlineBytes b)
  | Unexpected e => Unexpected e
  end.
End store.

(** ** Delivery *)

(** The chunks of a payload from [offset] on, as [send] cuts them. *)
Inductive chunks_from (stream : Z) (bytes : list byte) : nat -> list (list byte) -> Prop :=
  | last_chunk offset :
      (offset <= length bytes)%nat -> (offset = 0%nat \/ offset < length bytes)%nat ->
      chunks_from stream bytes offset
        [chunk_header stream (zlen bytes) (Z.of_nat offset) ++ drop offset bytes]
  | next_chunk offset n frames :
      (0 < n)%nat -> (offset + n < length bytes)%nat -> chunks_from stream bytes (offset + n) frames ->
      chunks_from stream bytes offset
        ((chunk_header stream (zlen bytes) (Z.of_nat offset) ++ slice bytes offset n) :: frames).

Lemma send_loop_chunks takes c stream bytes : (forall parts, takes parts = true) -> 0 < c ->
  forall fuel offset sent, (length bytes - offset < fuel)%nat -> (offset <= length bytes)%nat ->
    (offset = 0%nat \/ offset < length bytes)%nat ->
    exists frames, send_loop takes fuel c stream bytes offset sent = Some (sent ++ frames, true) /\
      chunks_from stream bytes offset frames.
Proof.
  intros Ht Hc. induction fuel as [|fuel IH]; intros offset sent Hf Ho Hz; [lia|]. cbn [send_loop].
  set (n := Nat.min (Z.to_nat c) (length bytes - offset)). rewrite Ht. cbn [negb concat]. rewrite app_nil_r.
  destruct (Nat.ltb_spec (offset + n) (length bytes)) as [Hlt|Hge].
  - destruct (IH (offset + n)%nat (sent ++ [chunk_header stream (zlen bytes) (Z.of_nat offset) ++ slice bytes offset n]))
      as (frames & -> & Hch); [lia..|]. eexists. split; [by rewrite <- app_assoc|]. constructor; [lia|done..].
  - eexists. split; [done|]. unfold slice. rewrite take_ge by (rewrite length_drop; lia). by constructor.
Qed.

(** The stream a chunk frame belongs to. *)
Definition stream_of (body : list byte) : Z := le_value (slice body 1 8).

Lemma slice_app_at {A} (l k m : list A) n i : length l = i -> length k = n -> slice (l ++ k ++ m) i n = k.
Proof. intros <- <-. unfold slice. by rewrite drop_app_length, take_app_length. Qed.

Lemma length_chunk_header stream t o : length (chunk_header stream t o) = kChunkHeader.
Proof. unfold chunk_header. by rewrite !length_app, !length_le_bytes. Qed.

(** The fields of a chunk frame are those it was made from. *)
Lemma chunk_fields stream t o chunk : is_u64 stream -> is_u64 t -> is_u64 o ->
  let body := chunk_header stream t o ++ chunk in
  (length body <? kChunkHeader)%nat || negb (to_integer (default x00 (head body)) =? kChunk) = false /\
  stream_of body = stream /\ le_value (slice body 9 8) = t /\ le_value (slice body 17 8) = o /\
  drop kChunkHeader body = chunk.
Proof.
  intros Hs Ht Ho body. pose proof (length_chunk_header stream t o) as Hl. unfold body.
  split; [|split; [|split; [|split]]].
  - rewrite length_app, Hl, (proj2 (Nat.ltb_ge _ _)) by lia. done.
  - unfold stream_of, chunk_header. rewrite <- !app_assoc.
    rewrite (slice_app_at [to_byte kChunk] (le_bytes 8 stream)) by (done || apply length_le_bytes). by apply le_value_u64.
  - unfold chunk_header. rewrite <- !app_assoc. rewrite app_assoc.
    rewrite (slice_app_at _ (le_bytes 8 t)) by (rewrite ?length_app, ?length_le_bytes; done). by apply le_value_u64.
  - unfold chunk_header. rewrite <- !app_assoc. rewrite app_assoc, app_assoc.
    rewrite (slice_app_at _ (le_bytes 8 o)) by (rewrite ?length_app, ?length_le_bytes; done). by apply le_value_u64.
  - rewrite <- Hl. apply drop_app_length.
Qed.

Lemma length_write_at memory offset chunk : (offset + length chunk <= length memory)%nat ->
  length (write_at memory offset chunk) = length memory.
Proof. intros H. unfold write_at. rewrite !length_app, length_take, length_drop. lia. Qed.

Lemma take_write_at memory offset chunk : (offset + length chunk <= length memory)%nat ->
  take (offset + length chunk) (write_at memory offset chunk) = take offset memory ++ chunk.
Proof.
  intros H. unfold write_at. rewrite app_assoc. apply take_app_length'.
  rewrite length_app, length_take. lia.
Qed.

Lemma take_slice {A} (l : list A) o n : take o l ++ slice l o n = take (o + n) l.
Proof.
  unfold slice. rewrite <- (take_drop o l) at 3. rewrite take_app.
  destruct (decide (o <= length l)%nat).
  - rewrite length_take, Nat.min_l, take_take, Nat.min_r by lia. do 2 f_equal. lia.
  - rewrite (drop_ge l o), !take_nil, !app_nil_r by lia. rewrite take_take. f_equal. lia.
Qed.

Section delivery.
Context (fresh : nat -> list byte) (heap_owner : positive) (fresh_length : forall n, length (fresh n) = n).
Context (n : Z) (content : list byte) (n_range : is_u64 n) (content_range : is_u64 (zlen content)).

Abbreviation arrive := (onPayloadFrame fresh heap_owner).

(** The receiver has the first [offset] bytes of the stream. *)
Definition got (s : StreamStrategy) (offset : nat) : Prop :=
  if decide (offset = 0%nat) then partial_ s !! n = None
  else exists memory, partial_ s !! n = Some (mkPartial (Some memory) (zlen content) (Z.of_nat offset)) /\
    length memory = length content /\ take offset memory = take offset content.

Lemma other_stream s body owner : stream_of body <> n ->
  partial_ (arrive s body owner) !! n = partial_ s !! n /\ complete_ (arrive s body owner) !! n = complete_ s !! n.
Proof.
  intros Hne. unfold onPayloadFrame, take_chunk. fold (stream_of body).
  destruct (_ || negb _); [done|]. destruct (_ || _); [done|].
  destruct (_ && _); cbn; [by rewrite lookup_insert_ne|].
  match goal with |- context [set_partial (<[_ := ?q]> _) s] => generalize q; intros p end.
  destruct (negb (total p =? _)); cbn; [by rewrite lookup_insert_ne|].
  case_match; cbn; by rewrite ?lookup_delete_ne, ?lookup_insert_ne.
Qed.

Lemma arrive_chunk s offset chunk owner : (offset + length chunk <= length content)%nat ->
  arrive s (chunk_header n (zlen content) (Z.of_nat offset) ++ chunk) owner =
    take_chunk fresh heap_owner s n (zlen content) (Z.of_nat offset) chunk owner.
Proof.
  intros Hle. unfold is_u64, zlen in content_range.
  destruct (chunk_fields n (zlen content) (Z.of_nat offset) chunk) as (H1 & H2 & H3 & H4 & H5);
    [done..|unfold is_u64; lia|].
  unfold onPayloadFrame. rewrite H1. fold (stream_of (chunk_header n (zlen content) (Z.of_nat offset) ++ chunk)).
  rewrite H2, H3, H4, H5, (proj2 (Z.ltb_ge _ _)), (proj2 (Z.ltb_ge _ _)); [done|unfold zlen; lia..].
Qed.

(** The storage a chunk of the stream is written to, and what was written before. *)
Lemma take_partial s offset chunk owner : got s offset -> (offset + length chunk <= length content)%nat ->
  (0 < offset \/ length chunk < length content \/ owner = None)%nat ->
  exists memory, length memory = (if decide (length content = 0) then 1 else length content)%nat /\
    take offset memory = take offset content /\
    take_chunk fresh heap_owner s n (zlen content) (Z.of_nat offset) chunk owner =
      let memory := write_at memory offset chunk in
      if (length content <=? offset + length chunk)%nat
      then set_partial (delete n (partial_ s))
             (set_complete (<[n := view (take (length content) memory) (Some heap_owner)]> (complete_ s)) s)
      else set_partial (<[n := mkPartial (Some memory) (zlen content) (Z.of_nat (offset + length chunk))]> (partial_ s)) s.
Proof.
  intros Hg Hle Hw. unfold take_chunk.
  assert (Hwhole : (Z.of_nat offset =? 0) && (zlen chunk =? zlen content) && bool_decide (is_Some owner) = false).
  { destruct Hw as [Ho|[Ho| ->]].
    - by rewrite (proj2 (Z.eqb_neq (Z.of_nat offset) 0)) by lia.
    - rewrite (proj2 (Z.eqb_neq (zlen chunk) _)) by (unfold zlen; lia). by rewrite andb_false_r.
    - rewrite (bool_decide_false (is_Some None)) by (by intros []). by rewrite andb_false_r. }
  rewrite Hwhole. unfold is_u64 in content_range.
  assert (Hle2 : (zlen content <=? u64 (Z.of_nat offset + zlen chunk)) = (length content <=? offset + length chunk)%nat).
  { rewrite u64_small by (unfold is_u64, zlen in *; lia).
    destruct (Nat.leb_spec (length content) (offset + length chunk)); [apply Z.leb_le|apply Z.leb_gt]; unfold zlen; lia. }
  assert (Hu : u64 (Z.of_nat offset + zlen chunk) = Z.of_nat (offset + length chunk)).
  { rewrite u64_small by (unfold is_u64, zlen in *; lia). unfold zlen. lia. }
  unfold got in Hg. destruct (decide (offset = 0%nat)) as [->|Ho].
  - exists (fresh (if decide (length content = 0) then 1 else length content)%nat). rewrite fresh_length.
    split; [done|]. split; [done|]. rewrite Hg. cbn [default storage received Partial_default total negb].
    replace (if zlen content =? 0 then _ else _) with (if decide (length content = 0) then 1 else length content)%nat
      by (unfold zlen; destruct (Z.eqb_spec (Z.of_nat (length content)) 0); case_decide; lia).
    rewrite Z.eqb_refl. cbn [negb default].
    change (Z.of_nat 0) with 0 in *. rewrite Hle2, Hu. change (Z.to_nat 0) with 0%nat.
    replace (Z.to_nat (zlen content)) with (length content) by (unfold zlen; lia). cbn zeta.
    destruct (_ <=? _)%nat; unfold set_partial, set_complete; cbn;
      rewrite ?delete_insert_eq, ?insert_insert_eq; done.
  - destruct Hg as (memory & Hg & Hlen & Htake). exists memory.
    split; [case_decide; lia|]. split; [done|]. rewrite Hg. cbn [from_option id storage received total].
    rewrite Z.eqb_refl. cbn [negb from_option id]. rewrite Hle2, Hu, Nat2Z.id.
    replace (Z.to_nat (zlen content)) with (length content) by (unfold zlen; lia). cbn zeta.
    destruct (_ <=? _)%nat; unfold set_partial, set_complete; cbn;
      rewrite ?delete_insert_eq, ?insert_insert_eq; done.
Qed.

Definition completed (s : StreamStrategy) : Prop :=
  exists p, complete_ s !! n = Some p /\ kind p = kInline /\ bytes p = content.

Lemma middle_chunk s offset k owner : got s offset -> (0 < k)%nat -> (offset + k < length content)%nat ->
  got (arrive s (chunk_header n (zlen content) (Z.of_nat offset) ++ slice content offset k) owner) (offset + k).
Proof.
  intros Hg Hk Hlt. assert (Hlen : length (slice content offset k) = k) by (apply length_slice; lia).
  rewrite arrive_chunk by lia.
  destruct (take_partial s offset (slice content offset k) owner Hg) as (memory & Hm & Ht & ->); [lia..|].
  rewrite Hlen, (proj2 (Nat.leb_gt _ _)) by lia. cbn. unfold got. rewrite decide_False by lia. cbn.
  rewrite lookup_insert_eq. eexists. split; [done|]. rewrite decide_False in Hm by lia.
  rewrite length_write_at by lia. split; [done|]. rewrite <- Hlen at 1. rewrite take_write_at by lia.
  by rewrite Ht, take_slice.
Qed.

Lemma final_chunk s offset owner : got s offset -> (offset <= length content)%nat ->
  completed (arrive s (chunk_header n (zlen content) (Z.of_nat offset) ++ drop offset content) owner).
Proof.
  intros Hg Ho. assert (Hlen : (offset + length (drop offset content) = length content)%nat) by (rewrite length_drop; lia).
  rewrite arrive_chunk by lia. destruct (decide (offset = 0%nat /\ is_Some owner)) as [[-> Hown]|Hpart].
  - unfold take_chunk. rewrite drop_0, !Z.eqb_refl, bool_decide_true by done. cbn.
    exists (view content owner). cbn. rewrite lookup_insert_eq. split; [done|]. split; [done|]. by destruct Hown as [o ->].
  - destruct (take_partial s offset (drop offset content) owner Hg) as (memory & Hm & Ht & ->); [lia| |].
    { destruct owner; [|by right; right]. destruct (decide (offset = 0%nat)) as [->|]; [|lia].
      exfalso. apply Hpart. by split. }
    rewrite Hlen, (proj2 (Nat.leb_le _ _)) by lia. cbn. eexists. cbn. rewrite lookup_insert_eq.
    split; [done|]. split; [done|]. unfold bytes. cbn. rewrite <- Hlen. rewrite take_write_at.
    + by rewrite Ht, take_drop.
    + case_decide; lia.
Qed.
Lemma chunk_stream_of o chunk : 0 <= o <= zlen content -> stream_of (chunk_header n (zlen content) o ++ chunk) = n.
Proof.
  intros Ho. destruct (chunk_fields n (zlen content) o chunk) as (_ & H & _); [done..| |done].
  unfold is_u64 in *. lia.
Qed.

Abbreviation ours := (filter (fun f : list byte * option positive => stream_of f.1 = n)).

Lemma others_arrive l s : ours l = [] -> completed s -> completed (frames_arrive fresh heap_owner s l).
Proof.
  revert s. induction l as [|f l IH]; intros s Hl (p & Hp & Hk & Hb); [by exists p|].
  rewrite filter_cons in Hl. case_decide as Hf; [done|]. apply IH; [done|]. exists p.
  by rewrite (proj2 (other_stream s f.1 f.2 Hf)).
Qed.

(** The stream's chunks arrive in order among other frames: the payload is complete. *)
Lemma chunks_arrive frames offset : chunks_from n content offset frames ->
  forall l s, (ours l).*1 = frames -> got s offset -> completed (frames_arrive fresh heap_owner s l).
Proof.
  induction 1 as [offset Ho Hz|offset k frames Hk Hlt Hch IH]; intros l;
    (induction l as [|[f o] l IHl]; [done|]); intros s Hl Hg; rewrite filter_cons in Hl; cbn [fst] in Hl.
  - destruct (decide (stream_of f = n)) as [Hf|Hf].
    + cbn in Hl. injection Hl as -> Hl. apply fmap_nil_inv in Hl. cbn. apply others_arrive; [done|].
      by apply final_chunk.
    + cbn. apply IHl; [done|]. unfold got in *. by rewrite (proj1 (other_stream s f o Hf)).
  - destruct (decide (stream_of f = n)) as [Hf|Hf].
    + cbn in Hl. injection Hl as -> Hl. cbn. apply IH; [done|]. by apply middle_chunk.
    + cbn. apply IHl; [done|]. unfold got in *. by rewrite (proj1 (other_stream s f o Hf)).
Qed.
End delivery.

(** A payload sent as a stream arrives whole: the sender always finishes, and
    whatever frames of other streams come between its chunks, and whatever fresh
    memory holds, the receiver resolves the reference to a payload with the same
    bytes, once. *)
Theorem stream_delivers s payload takes :
  0 < chunkBytes_ s -> is_u64 (nextStream_ s) -> is_u64 (zlen (bytes payload)) -> kind payload = kInline ->
  (forall parts, takes parts = true) ->
  exists s' sent reference, send (Some takes) s payload = Some (s', sent, Expected reference) /\
    forall fresh owner arrivals r, (forall k, length (fresh k) = k) -> partial_ r !! nextStream_ s = None ->
      (filter (fun f => stream_of f.1 = nextStream_ s) arrivals).*1 = sent ->
      exists r' received, receive (frames_arrive fresh owner r arrivals) reference = (r', Expected received) /\
        received ≡ payload /\ (receive r' reference).2 = Unexpected kJobFailed.
Proof.
  intros Hc Hn Hl Hk Ht. unfold send.
  destruct (send_loop_chunks takes (chunkBytes_ s) (nextStream_ s) (bytes payload) Ht Hc
              (S (length (bytes payload))) 0 []) as (frames & -> & Hch); [lia..|].
  do 3 eexists. split; [done|]. intros fresh owner arrivals r Hfresh Hr Hsent. cbn [app] in Hsent.
  destruct (chunks_arrive fresh owner Hfresh (nextStream_ s) (bytes payload) Hn Hl _ 0 Hch arrivals r) as (p & Hp & Hpk & Hpb);
    [done..|]. unfold receive. rewrite length_le_bytes, Nat.eqb_refl. cbn [negb].
  rewrite le_value_u64, Hp by done. do 2 eexists. split; [done|]. split; [split; unfold kind in *; congruence|].
  cbn. by rewrite lookup_delete_eq.
Qed.

(** A payload of five bytes in chunks of two, another stream's frame between them. *)
Definition sample_payload : Payload := inlineBytes [x01; x02; x03; x04; x05].
Definition sample_sender : StreamStrategy := new_stream 2.
Definition other_frame : list byte := chunk_header 40 1 0 ++ [xff].

Lemma stream_delivers_witness : exists s' sent reference,
  send (Some (fun _ => true)) sample_sender sample_payload = Some (s', sent, Expected reference) /\
  length sent = 3%nat /\
  exists r' received,
    receive (frames_arrive (fun k => replicate k x00) 1 (new_stream 64)
               [(default [] (sent !! 0%nat), None); (other_frame, None); (default [] (sent !! 1%nat), None);
                (default [] (sent !! 2%nat), Some 9%positive)]) reference = (r', Expected received) /\
  received ≡ sample_payload.
Proof.
  destruct (stream_delivers sample_sender sample_payload (fun _ => true)) as (s' & sent & ref & Hs & H);
    [vm_compute; reflexivity|unfold is_u64; cbn; lia|unfold is_u64; change (zlen (bytes sample_payload)) with 5; lia|done|done|].
  exists s', sent, ref. split; [exact Hs|].
  assert (Hsent : sent = [chunk_header 1 5 0 ++ [x01; x02]; chunk_header 1 5 2 ++ [x03; x04]; chunk_header 1 5 4 ++ [x05]])
    by (vm_compute in Hs; injection Hs as <- <- <-; reflexivity).
  rewrite Hsent in *. split; [done|].
  edestruct (H (fun k => replicate k x00) 1%positive) as (r' & p & Hr & Hp & _); [| | |exists r', p; split; [exact Hr|exact Hp]].
  - intros k. apply length_replicate.
  - vm_compute. reflexivity.
  - vm_compute. reflexivity.
Defined.

(** What the receiver counts are bytes, not coverage: a peer that sends the first
    byte of a two-byte stream twice completes it with a byte never written. *)
Example repeated_chunk_exposes_fresh_memory :
  let fresh := fun k => replicate k xaa in
  let s := frames_arrive fresh 1 (new_stream 64) [(chunk_header 1 2 0 ++ [x01], None); (chunk_header 1 2 0 ++ [x01], None)] in
  bytes (default Payload_empty (complete_ s !! 1)) = [x01; xaa].
Proof. vm_compute. reflexivity. Qed.

Lemma store_delivers put get payload h : kind payload = kInline ->
  (forall b h, put b = Expected h -> get h = Expected b) -> store_send put payload = Expected h ->
  exists p, store_receive get h = Expected p /\ p ≡ payload.
Proof.
  intros Hk Hlaw. unfold store_send, store_receive. destruct (put (bytes payload)) as [h'|] eqn:E; [|done].
  destruct (_ <? _)%nat; [done|]. intros [= <-]. rewrite (Hlaw _ _ E). eexists. split; [done|].
  split; [by unfold kind in *|done].
Qed.
