(* ===== verification/Registry.v ===== *)
(** The job registry and its fingerprint (include/sub0pipeline/remote/registry.hpp,
    src/remote/registry.cpp). *)
From stdpp Require Import sorting.
From S2P Require Import Prelude Types Bytes Payload SubGraph.

(** [JobKindId::operator<=>]: by name, then version. *)
Definition kind_le (a b : JobKindId) : Prop :=
  if decide (kname a = kname b) then kversion a <= kversion b else String.le (kname a) (kname b).
#[export] Instance kind_le_dec : RelDecision kind_le.
Proof. intros a b. unfold kind_le. case_decide; apply _. Defined.

#[export] Instance kind_le_trans : Transitive kind_le.
Proof.
  intros a b c. unfold kind_le. intros Hab Hbc.
  destruct (decide (kname a = kname b)) as [E1|E1], (decide (kname b = kname c)) as [E2|E2];
    destruct (decide (kname a = kname c)) as [E3|E3]; try congruence.
  - lia.
  - exfalso. apply E1. apply (anti_symm String.le); [done|]. by rewrite E3.
  - by transitivity (kname b).
Qed.
#[export] Instance kind_le_antisymm : AntiSymm (=) kind_le.
Proof.
  intros [n v] [m w]. unfold kind_le. cbn. intros H1 H2. destruct (decide (n = m)) as [->|Hne].
  - rewrite decide_True in H2 by done. f_equal. lia.
  - rewrite decide_False in H2 by done. by destruct Hne; apply (anti_symm String.le).
Qed.
#[export] Instance kind_le_total : Total kind_le.
Proof.
  intros [n v] [m w]. unfold kind_le. cbn. destruct (decide (n = m)) as [->|Hne].
  - rewrite decide_True by done. lia.
  - rewrite decide_False by done. apply (total String.le).
Qed.

(** ** Fingerprint: FNV-1a over the sorted kinds *)

Definition kFnvOffset : Z := 0xCBF29CE484222325.
Definition kFnvPrime : Z := 0x00000100000001B3.

Definition mix (hash : Z) (byte : Z) : Z := u64 (Z.lxor hash byte * kFnvPrime).

(** One kind's bytes: u16 length, name bytes, u32 version. *)
Definition kind_mix (hash : Z) (kind : JobKindId) : Z :=
  let length := u16 (Z.of_nat (Nat.min (str_size (kname kind)) UINT16_MAX)) in
  let hash := mix hash (u8 (Z.land length 255)) in
  let hash := mix hash (u8 (Z.shiftr length 8)) in
  let hash := foldl (fun h c => mix h (to_integer c)) hash (take (Z.to_nat length) (chars (kname kind))) in
  foldl (fun h shift => mix h (u8 (Z.land (Z.shiftr (kversion kind) shift) 255))) hash [0; 8; 16; 24].

Definition registryFingerprint (kinds : list JobKindId) : Z :=
  foldl kind_mix kFnvOffset (merge_sort kind_le kinds).

(** ** The registry: a sorted map from kind to function *)

Section registry.
(** A job kind's function; the consumer's code. *)
Context {JobKindFn : Type}.

Abbreviation JobRegistry := (list (JobKindId * JobKindFn)).

(** [map::try_emplace]: nothing changes when the key is there. *)
Fixpoint try_emplace (r : JobRegistry) (kind : JobKindId) (fn : JobKindFn) : JobRegistry * bool :=
  match r with
  | [] => ([(kind, fn)], true)
  | (k, f) :: rest =>
    if decide (k = kind) then (r, false)
    else if decide (kind_le kind k) then ((kind, fn) :: r, true)
    else let '(rest, b) := try_emplace rest kind fn in ((k, f) :: rest, b)
  end.

(** [JobRegistry::add]; [None] is an empty function. *)
Definition registry_add (r : JobRegistry) (kind : JobKindId) (fn : option JobKindFn) : JobRegistry * bool :=
  match fn with None => (r, false) | Some fn => try_emplace r kind fn end.

Fixpoint find (r : JobRegistry) (name : string) (version : Z) : option JobKindFn :=
  match r with
  | [] => None
  | (k, f) :: rest =>
    if (kversion k =? version) && String.eqb (kname k) name then Some f else find rest name version
  end.

Definition kinds (r : JobRegistry) : list JobKindId := r.*1.
Definition fingerprint (r : JobRegistry) : Z := registryFingerprint (kinds r).

Definition registry_ok (r : JobRegistry) : Prop := StronglySorted kind_le (kinds r) /\ NoDup (kinds r).

Lemma try_emplace_kinds r kind fn :
  kinds (try_emplace r kind fn).1 ≡ₚ (if (try_emplace r kind fn).2 then [kind] else []) ++ kinds r.
Proof.
  induction r as [|[k f] r IH]; cbn; [done|]. case_decide; [done|]. case_decide; [done|].
  destruct (try_emplace r kind fn) as [r' b]. cbn in *. rewrite IH.
  destruct b; cbn; [|done]. apply Permutation_swap.
Qed.

Lemma try_emplace_added r kind fn : registry_ok r -> (try_emplace r kind fn).2 = negb (bool_decide (kind ∈ kinds r)).
Proof.
  intros [Hs Hn]. induction r as [|[k f] r IH]; [done|]. cbn [try_emplace kinds fmap list_fmap fst] in *.
  apply StronglySorted_inv in Hs as [Hs Hall]. apply NoDup_cons in Hn as [Hk Hn].
  destruct (decide (k = kind)) as [->|Hkk]; [by rewrite bool_decide_true by apply list_elem_of_here|].
  destruct (decide (kind_le kind k)) as [Hle|Hle].
  - rewrite bool_decide_false; [done|]. intros [->|Hin]%elem_of_cons; [done|].
    rewrite Forall_forall in Hall. apply Hkk. apply (anti_symm kind_le); [by apply Hall|done].
  - specialize (IH Hs Hn). destruct (try_emplace r kind fn) as [r' b]. cbn [snd] in *. rewrite IH. f_equal.
    apply bool_decide_ext. rewrite elem_of_cons. naive_solver.
Qed.

Lemma try_emplace_ok r kind fn : registry_ok r -> registry_ok (try_emplace r kind fn).1.
Proof.
  intros Hok. pose proof (try_emplace_added r kind fn Hok) as Hadd. pose proof (try_emplace_kinds r kind fn) as Hp.
  destruct Hok as [Hs Hn]. split.
  - clear Hadd Hp Hn. induction r as [|[k f] r IH]; cbn [try_emplace kinds fmap list_fmap fst] in *; [by repeat constructor|].
    apply StronglySorted_inv in Hs as [Hs Hall].
    destruct (decide (k = kind)); [by constructor|]. destruct (decide (kind_le kind k)) as [Hle|Hle].
    + constructor; [by constructor|]. constructor; [done|]. eapply Forall_impl; [exact Hall|]. intros x. by apply transitivity.
    + specialize (IH Hs). pose proof (try_emplace_kinds r kind fn) as Hp.
      destruct (try_emplace r kind fn) as [r' b]. cbn [fst snd] in *. constructor; [done|].
      fold (kinds r'). rewrite Hp. apply Forall_app_2; [|done].
      destruct b; [|done]. apply Forall_singleton. by destruct (total kind_le k kind).
  - rewrite Hp, Hadd. case_bool_decide as Hin; [done|]. by apply NoDup_cons.
Qed.

Lemma try_emplace_present r kind fn : kind ∈ kinds r -> registry_ok r -> try_emplace r kind fn = (r, false).
Proof.
  intros Hin [Hs Hn]. induction r as [|[k f] r IH]; [by apply elem_of_nil in Hin|].
  cbn [try_emplace kinds fmap list_fmap fst] in *.
  apply StronglySorted_inv in Hs as [Hs Hall]. apply NoDup_cons in Hn as [Hk Hn].
  destruct (decide (k = kind)) as [->|Hkk]; [done|]. apply elem_of_cons in Hin as [->|Hin]; [done|].
  rewrite decide_False; [by rewrite IH|]. intros Hle. rewrite Forall_forall in Hall. apply Hkk.
  apply (anti_symm kind_le); [by apply Hall|done].
Qed.

Lemma try_emplace_elem r kind fn : kind ∉ kinds r -> (kind, fn) ∈ (try_emplace r kind fn).1.
Proof.
  induction r as [|[k f] r IH]; cbn [try_emplace kinds fmap list_fmap fst]; intros Hin; [by apply list_elem_of_singleton|].
  apply not_elem_of_cons in Hin as [Hne Hin]. rewrite decide_False by done. destruct (decide _); [apply list_elem_of_here|].
  specialize (IH Hin). destruct (try_emplace r kind fn). by apply list_elem_of_further.
Qed.

Lemma find_iff r name version fn : registry_ok r ->
  find r name version = Some fn <-> (mkKind name version, fn) ∈ r.
Proof.
  intros [_ Hn]. induction r as [|[k f] r IH]; cbn [find]; [by rewrite elem_of_nil|].
  apply NoDup_cons in Hn as [Hk Hn]. rewrite elem_of_cons, <- (IH Hn).
  destruct ((kversion k =? version) && String.eqb (kname k) name) eqn:E.
  - apply andb_true_iff in E as [E1%Z.eqb_eq E2%String.eqb_eq]. split; [intros [= ->]; left; by destruct k; cbn in *; subst|].
    intros [Heq|Hin]; [by injection Heq as _ ->|]. exfalso. apply Hk. apply (IH Hn) in Hin. apply list_elem_of_fmap.
    exists (mkKind name version, fn). split; [by destruct k; cbn in *; subst|done].
  - split; [by right|]. intros [[= <- <-]|Hin]; [|done]. cbn in E. by rewrite Z.eqb_refl, String.eqb_refl in E.
Qed.
End registry.

(** The fingerprint is that of a set of kinds: it does not see their order. *)
Lemma fingerprint_permutation ks ks' : ks ≡ₚ ks' -> registryFingerprint ks = registryFingerprint ks'.
Proof.
  intros Hp. unfold registryFingerprint. f_equal. apply (Sorted_unique kind_le).
  - apply Sorted_merge_sort, _.
  - apply Sorted_merge_sort, _.
  - by rewrite !merge_sort_Permutation.
Qed.
#[export] Instance registryFingerprint_proper : Proper ((≡ₚ) ==> (=)) registryFingerprint.
Proof. intros ks ks'. apply fingerprint_permutation. Qed.

(** A registry built by a sequence of [add] calls. *)
Definition registered {Fn} (calls : list (JobKindId * option Fn)) : list (JobKindId * Fn) :=
  foldl (fun r c => (registry_add r c.1 c.2).1) [] calls.

Lemma registered_ok {Fn} (calls : list (JobKindId * option Fn)) : registry_ok (registered calls).
Proof.
  unfold registered. assert (H : registry_ok ([] : list (JobKindId * Fn))) by (split; [constructor|apply NoDup_nil_2]).
  revert H. generalize ([] : list (JobKindId * Fn)). induction calls as [|[k [fn|]] calls IH]; intros r H; [done| |].
  - apply IH. by apply try_emplace_ok.
  - by apply IH.
Qed.

(** A registry and a list of the same kinds, in any order, have the same
    fingerprint, so a coordinator that expects a worker's kinds connects whatever
    order either side named them in; adding a kind twice, or with an empty
    function, changes nothing; and a kind resolves to the function it was added
    with. *)
Theorem registry_fingerprint_of_kinds {Fn} (calls : list (JobKindId * option Fn)) (ks : list JobKindId) :
  kinds (registered calls) ≡ₚ ks ->
  fingerprint (registered calls) = registryFingerprint ks /\
  (forall k fn, k ∈ ks -> registry_add (registered calls) k fn = (registered calls, false)) /\
  (forall k, registry_add (registered calls) k None = (registered calls, false)) /\
  (forall k fn, k ∉ ks -> let r := registry_add (registered calls) k (Some fn) in
     r.2 = true /\ kinds r.1 ≡ₚ k :: ks /\ find r.1 (kname k) (kversion k) = Some fn).
Proof.
  intros Hp. pose proof (registered_ok calls) as Hok. split; [unfold fingerprint; by rewrite Hp|]. split; [|split; [done|]].
  - intros k [fn|] Hk; [|done]. apply try_emplace_present; [by rewrite Hp|done].
  - intros k fn Hk. cbn. rewrite (try_emplace_added _ k fn Hok), bool_decide_false by by rewrite Hp.
    pose proof (try_emplace_kinds (registered calls) k fn) as Hks.
    rewrite (try_emplace_added _ k fn Hok), bool_decide_false in Hks by by rewrite Hp. cbn in Hks. rewrite Hks, Hp.
    split; [done|]. split; [done|]. apply find_iff; [by apply try_emplace_ok|].
    destruct k as [n v]. apply try_emplace_elem. by rewrite Hp.
Qed.

(** Two orders of the same three kinds; the registry's map sorts them either way. *)
Definition sample_kinds : list JobKindId := [mkKind "render" 1; mkKind "decode" 2; mkKind "decode" 1].
Definition sample_calls : list (JobKindId * option nat) := (fun k => (k, Some 7%nat)) <$> sample_kinds.

Lemma registry_fingerprint_of_kinds_witness :
  kinds (registered sample_calls) = reverse sample_kinds /\
  fingerprint (registered sample_calls) = registryFingerprint sample_kinds.
Proof.
  assert (Hk : kinds (registered sample_calls) = reverse sample_kinds) by (vm_compute; reflexivity).
  split; [exact Hk|]. assert (Hp : kinds (registered sample_calls) ≡ₚ sample_kinds)
    by (rewrite Hk; apply reverse_Permutation).
  destruct (registry_fingerprint_of_kinds sample_calls sample_kinds Hp) as (H & _). exact H.
Defined.
