(* ===== verification/SharedMemory.v ===== *)
(** The shared-memory payload strategy (src/remote/shared_memory.cpp): each side
    allocates payloads in its own mapped region and the peer reads them in place.

    A region is its contents, its name and the address it is mapped at; creating,
    opening and unlinking one are the operating system's, so what
    [SharedRegion::create] and [open] return is an argument. *)
From S2P Require Import Prelude Types Bytes Payload Stream.

Definition kAlignment : Z := 64.
Definition kInRegion : Z := 0.
Definition kStreamed : Z := 1.
Definition kRelease : Z := 0x52.

(** ** Setup bytes: u64 region size | u16 name length | name | the stream's setup *)

Definition encodeSetup (size : Z) (name : string) (stream : list byte) : list byte :=
  let length := u16 (Z.of_nat (Nat.min (str_size name) UINT16_MAX)) in
  le_bytes 8 size ++ [to_byte (Z.land length 255); to_byte (Z.shiftr length 8)]
    ++ take (Z.to_nat length) (chars name) ++ stream.

Record Setup := mkSetup { setup_size : Z; setup_name : string; setup_stream : list byte }.

Definition decodeSetup (l : list byte) : option Setup :=
  if (length l <? 10)%nat then None else
  let size := le_value (take 8 l) in
  let n := Z.lor (to_integer (default x00 (l !! 8%nat))) (Z.shiftl (to_integer (default x00 (l !! 9%nat))) 8) in
  if (length l <? 10 + Z.to_nat n)%nat || (n =? 0) then None else
  Some (mkSetup size (string_of (slice l 10 (Z.to_nat n))) (drop (10 + Z.to_nat n) l)).

(** ** State *)

Inductive Role : Set := kUnknown | kCoordinator | kWorker.
#[export] Instance Role_eq_dec : EqDecision Role.
Proof. solve_decision. Defined.

Record Region := mkRegion { rdata : Z; rname : string; rbytes : list byte }.
Definition rsize (r : Region) : Z := zlen (rbytes r).

Record Block := mkBlock { offset : Z; size : Z; data : Z; localRefs : Z; peerHolds : Z }.

(** The fields that [mtx] guards and the allocator uses. *)
Record Arena := mkArena {
  free : list (Z * Z);  (* std::map offset -> size, in key order *)
  inUse : Z;
  blocks : gmap Z Block;
  byAddress : gmap Z Z;
  nextBlock : Z
}.

Record State := mkState {
  role : Role;
  own : option Region;
  peer : option Region;
  sender : bool;
  closed : bool;
  arena : Arena;
  scopes : gmap Z (list Z);
  fallback : StreamStrategy
}.

Definition set_arena (a : Arena) (s : State) : State :=
  mkState (role s) (own s) (peer s) (sender s) (closed s) a (scopes s) (fallback s).
Definition set_scopes (c : gmap Z (list Z)) (s : State) : State :=
  mkState (role s) (own s) (peer s) (sender s) (closed s) (arena s) c (fallback s).
Definition set_own (r : option Region) (s : State) : State :=
  mkState (role s) r (peer s) (sender s) (closed s) (arena s) (scopes s) (fallback s).
Definition set_peer (r : option Region) (s : State) : State :=
  mkState (role s) (own s) r (sender s) (closed s) (arena s) (scopes s) (fallback s).
Definition set_role (r : Role) (s : State) : State :=
  mkState r (own s) (peer s) (sender s) (closed s) (arena s) (scopes s) (fallback s).
Definition set_sender (b c : bool) (s : State) : State :=
  mkState (role s) (own s) (peer s) b c (arena s) (scopes s) (fallback s).
Definition set_fallback (f : StreamStrategy) (s : State) : State :=
  mkState (role s) (own s) (peer s) (sender s) (closed s) (arena s) (scopes s) f.

Definition Arena_empty : Arena := mkArena [] 0 ∅ ∅ 1.
Definition new_strategy (chunkBytes : Z) : State :=
  mkState kUnknown None None false false Arena_empty ∅ (new_stream chunkBytes).

(** ** The free map *)

Definition free_erase (o : Z) (l : list (Z * Z)) : list (Z * Z) := filter (fun e => e.1 <> o) l.

(** [map::emplace]: nothing changes when the key is there. *)
Fixpoint free_emplace (o s : Z) (l : list (Z * Z)) : list (Z * Z) * bool :=
  match l with
  | [] => ([(o, s)], true)
  | (a, t) :: rest =>
    if o <? a then ((o, s) :: l, true)
    else if o =? a then (l, false)
    else let '(rest, b) := free_emplace o s rest in ((a, t) :: rest, b)
  end.

(** The entry at [o] and the next one become one when they touch. *)
Fixpoint merge_next (o : Z) (l : list (Z * Z)) : list (Z * Z) :=
  match l with
  | [] => []
  | (a, s) :: tl =>
    match tl with
    | [] => l
    | (b, t) :: rest =>
      if a =? o then (if a + s =? b then (a, s + t) :: rest else l) else (a, s) :: merge_next o tl
    end
  end.
(** The entry before [o] and the one at [o] become one when they touch. *)
Fixpoint merge_prev (o : Z) (l : list (Z * Z)) : list (Z * Z) :=
  match l with
  | [] => []
  | (a, s) :: tl =>
    match tl with
    | [] => l
    | (b, t) :: rest =>
      if b =? o then (if a + s =? b then (a, s + t) :: rest else l) else (a, s) :: merge_prev o tl
    end
  end.

Definition initFree (own : option Region) (a : Arena) : Arena :=
  let f := match own with
           | Some r => if kAlignment <=? rsize r then [(0, rsize r - rsize r mod kAlignment)] else []
           | None => []
           end in
  mkArena f (inUse a) (blocks a) (byAddress a) (nextBlock a).

(** [std::max(kAlignment, (bytes + kAlignment - 1) / kAlignment * kAlignment)] *)
Definition aligned (bytes : Z) : Z :=
  Z.max kAlignment (u64 (u64 (bytes + kAlignment - 1) / kAlignment * kAlignment)).

Definition first_fit (need : Z) (l : list (Z * Z)) : option (Z * Z) := head (filter (fun e => need <= e.2) l).

(** First fit; the block's id, or 0 when nothing fits. *)
Definition allocateBlock (own : option Region) (a : Arena) (bytes : Z) : Arena * Z :=
  match own with
  | None => (a, 0)
  | Some region =>
    let need := aligned bytes in
    match first_fit need (free a) with
    | None => (a, 0)
    | Some (o, available) =>
      let remaining := available - need in
      let f := free_erase o (free a) in
      let f := if remaining =? 0 then f else (free_emplace (o + need) remaining f).1 in
      let id := nextBlock a in
      (mkArena f (inUse a + need) (<[id := mkBlock o need (rdata region + o) 0 0]> (blocks a))
         (byAddress a) (u64 (id + 1)), id)
    end
  end.

Definition releaseIfUnused (id : Z) (a : Arena) : Arena :=
  match blocks a !! id with
  | None => a
  | Some block =>
    if negb (localRefs block =? 0) || negb (peerHolds block =? 0) then a else
    let bs := delete id (blocks a) in
    let addrs := delete (data block) (byAddress a) in
    let used := inUse a - size block in
    let '(f, inserted) := free_emplace (offset block) (size block) (free a) in
    let f := if inserted then merge_prev (offset block) (merge_next (offset block) f) else f in
    mkArena f used bs addrs (nextBlock a)
  end.

Definition set_block (id : Z) (b : Block) (a : Arena) : Arena :=
  mkArena (free a) (inUse a) (<[id := b]> (blocks a)) (byAddress a) (nextBlock a).
Definition with_holds (b : Block) (l p : Z) : Block := mkBlock (offset b) (size b) (data b) l p.

Definition dropLocal (id : Z) (a : Arena) : Arena :=
  match blocks a !! id with
  | Some b => if localRefs b =? 0 then a
              else releaseIfUnused id (set_block id (with_holds b (localRefs b - 1) (peerHolds b)) a)
  | None => a
  end.
Definition dropPeerHold (id : Z) (a : Arena) : Arena :=
  match blocks a !! id with
  | Some b => if peerHolds b =? 0 then a
              else releaseIfUnused id (set_block id (with_holds b (localRefs b) (peerHolds b - 1)) a)
  | None => a
  end.

(** The frame [sendRelease] sends, when a sender is attached and not closed. *)
Definition sendRelease (s : State) (id : Z) : list (list byte) :=
  if closed s || negb (sender s) then [] else [to_byte kRelease :: le_bytes 8 id].

(** ** Negotiation *)

(** [created] and [opened] are what the operating system answers. *)
Definition shm_offer (s : State) (created : option Region) : State * list byte :=
  let s := set_own created (set_role kCoordinator s) in
  match created with
  | None => (s, [])
  | Some r => (set_arena (initFree created (arena s)) s, encodeSetup (rsize r) (rname r) (Stream.offer (fallback s)))
  end.

Definition shm_accept (s : State) (l : list byte) (opened created : option Region) :
    State * expected (list byte) PipelineError :=
  match decodeSetup l with
  | None => (s, Unexpected kUnavailable)
  | Some setup =>
    match opened with
    | None => (s, Unexpected kUnavailable)
    | Some p =>
      let '(f, stream) := Stream.accept (fallback s) (setup_stream setup) in
      let s := set_fallback f s in
      match stream with
      | Unexpected e => (s, Unexpected e)
      | Expected stream =>
        let s := set_own created (set_peer (Some p) (set_role kWorker s)) in
        match created with
        | None => (s, Unexpected kUnavailable)
        | Some r => (set_arena (initFree created (arena s)) s, Expected (encodeSetup (rsize r) (rname r) stream))
        end
      end
    end
  end.

Definition shm_complete (s : State) (l : list byte) (opened : option Region) : State * expected unit PipelineError :=
  match decodeSetup l with
  | None => (s, Unexpected kUnavailable)
  | Some setup =>
    match opened with
    | None => (s, Unexpected kUnavailable)
    | Some p =>
      let '(f, stream) := Stream.complete (fallback s) (setup_stream setup) in
      let s := set_fallback f s in
      match stream with
      | Unexpected e => (s, Unexpected e)
      | Expected _ => (set_peer (Some p) s, Expected tt)
      end
    end
  end.

Definition shm_attach (s : State) : State := set_sender true (closed s) s.

(** ** Payloads *)

Definition in_region_reference (id offset size : Z) : list byte :=
  to_byte kInRegion :: le_bytes 8 id ++ le_bytes 8 offset ++ le_bytes 8 size.

(** The bytes copied to the block at [o] of this side's region. *)
Definition write_region (r : Region) (o : Z) (content : list byte) : Region :=
  mkRegion (rdata r) (rname r) (write_at (rbytes r) (Z.to_nat o) content).

Definition push_scope (scope id : Z) (c : gmap Z (list Z)) : gmap Z (list Z) :=
  <[scope := default [] (c !! scope) ++ [id]]> c.

(** [send]'s bookkeeping for the block it uses: the peer holds it, and on the
    coordinator it belongs to the request. *)
Definition hold_block (s : State) (id : Z) (b : Block) (scope : Z) : State :=
  let s := set_arena (set_block id (with_holds b (localRefs b) (u32 (peerHolds b + 1))) (arena s)) s in
  if bool_decide (role s = kCoordinator) then set_scopes (push_scope scope id (scopes s)) s else s.

Definition copy_in (s : State) (b : Block) (content : list byte) : State :=
  set_own ((fun r => write_region r (offset b) content) <$> own s) s.

(** [send]: [address] is where the payload's bytes lie and [takes] the attached
    sender. The bytes are copied after the mutex is released, into a block that is this
    send's alone until it returns, unless the connection closes meanwhile; here the copy
    is part of the critical section. The result also lists the fallback's frames; [None] only if the
    fallback runs out of fuel. *)
Definition shm_send (takes : option (list (list byte) -> bool)) (s : State) (payload : Payload) (address scope : Z) :
    option (State * list (list byte) * expected (list byte) PipelineError) :=
  let content := bytes payload in
  let '(a, id, copy) :=
    match byAddress (arena s) !! address with
    | Some id => (arena s, id, false)
    | None => let '(a, id) := allocateBlock (own s) (arena s) (zlen content) in (a, id, true)
    end in
  let s := set_arena a s in
  if id =? 0 then
    match Stream.send takes (fallback s) payload with
    | None => None
    | Some (f, frames, Unexpected e) => Some (set_fallback f s, frames, Unexpected e)
    | Some (f, frames, Expected streamed) => Some (set_fallback f s, frames, Expected (to_byte kStreamed :: streamed))
    end
  else
    match blocks a !! id with
    | None => None
    | Some b =>
      let s := hold_block s id b scope in
      let s := if copy && negb (bool_decide (content = [])) then copy_in s b content else s in
      Some (s, [], Expected (in_region_reference id (offset b) (zlen content)))
    end.

(** [receive]: the payload with its lease, here the block to release when the last
    view goes, if this side must say so. *)
Definition shm_receive (s : State) (reference : list byte) (lease : positive) :
    State * expected (Payload * option Z) PipelineError :=
  match reference with
  | [] => (s, Unexpected kJobFailed)
  | kind :: rest =>
    if to_integer kind =? kStreamed then
      let '(f, r) := Stream.receive (fallback s) rest in
      (set_fallback f s, match r with Expected p => Expected (p, None) | Unexpected e => Unexpected e end)
    else if negb (to_integer kind =? kInRegion) || negb (length reference =? 25)%nat then (s, Unexpected kJobFailed)
    else
      let id := le_value (slice reference 1 8) in
      let o := le_value (slice reference 9 8) in
      let n := le_value (slice reference 17 8) in
      match peer s with
      | None => (s, Unexpected kJobFailed)
      | Some r =>
        if (rsize r <? o) || (rsize r - o <? n) then (s, Unexpected kJobFailed)
        else (s, Expected (view (slice (rbytes r) (Z.to_nat o) (Z.to_nat n)) (Some lease),
                           if bool_decide (role s = kCoordinator) then Some id else None))
      end
  end.

Definition shm_onPayloadFrame (fresh : nat -> list byte) (heap_owner : positive) (s : State) (body : list byte)
    (owner : option positive) : State :=
  if (length body =? 9)%nat && (to_integer (default x00 (head body)) =? kRelease)
  then set_arena (dropPeerHold (le_value (slice body 1 8)) (arena s)) s
  else set_fallback (Stream.onPayloadFrame fresh heap_owner (fallback s) body owner) s.

Definition endScope (s : State) (scope : Z) : State :=
  match scopes s !! scope with
  | None => s
  | Some ids =>
    let s := set_arena (foldl (fun a id => dropPeerHold id a) (arena s) ids) s in
    set_scopes (delete scope (scopes s)) s
  end.

(** [allocate]: the block and the address its payload is written at. *)
Definition shm_allocate (s : State) (n : Z) : State * option (Z * Z) :=
  if n =? 0 then (s, None) else
  match own s with
  | None => (s, None)
  | Some _ =>
    let '(a, id) := allocateBlock (own s) (arena s) n in
    let s := set_arena a s in
    if id =? 0 then (s, None) else
    match blocks a !! id with
    | None => (s, None)
    | Some b =>
      let a := set_block id (with_holds b 1 (peerHolds b)) a in
      let a := mkArena (free a) (inUse a) (blocks a) (<[data b := id]> (byAddress a)) (nextBlock a) in
      (set_arena a s, Some (id, data b))
    end
  end.

(** The last payload viewing an in-place block goes. *)
Definition drop_lease (s : State) (id : Z) : State := set_arena (dropLocal id (arena s)) s.

Definition shm_onClosed (s : State) : State :=
  let s := set_scopes ∅ (set_sender false true s) in
  let bs := (fun b => with_holds b (localRefs b) 0) <$> blocks (arena s) in
  let ids := (map_to_list bs).*1 in
  let a := mkArena (free (arena s)) (inUse (arena s)) bs (byAddress (arena s)) (nextBlock (arena s)) in
  set_fallback (Stream.onClosed (fallback s)) (set_arena (foldl (fun a id => releaseIfUnused id a) a ids) s).

Definition bytesInUse (s : State) : Z := inUse (arena s).
Definition regionName (s : State) : string := match own s with Some r => rname r | None => EmptyString end.
