(* ===== verification/ShmInv.v ===== *)
(** The allocator of the shared-memory strategy: the free map and the blocks
    partition the region. *)
From S2P Require Import Prelude Types Bytes Payload Stream SharedMemory.

(** ** Counting what covers a byte *)

(** 1 when [c] lies in the [s] bytes from [o]. *)
Definition within (o s c : Z) : Z := Z.b2z ((o <=? c) && (c <? o + s)).

Fixpoint cov (l : list (Z * Z)) (c : Z) : Z :=
  match l with [] => 0 | (o, s) :: rest => within o s c + cov rest c end.
Definition msum (f : Block -> Z) (m : gmap Z Block) : Z := map_fold (fun _ b acc => f b + acc) 0 m.
Definition bcov (m : gmap Z Block) (c : Z) : Z := msum (fun b => within (offset b) (size b) c) m.

Lemma within_cases o s c :
  (o <= c < o + s /\ within o s c = 1) \/ ((c < o \/ o + s <= c) /\ within o s c = 0).
Proof.
  unfold within. destruct (Z.leb_spec o c), (Z.ltb_spec c (o + s)); cbn; [left|right..]; (split; [lia|done]).
Qed.
Ltac within o s c := let H := fresh "W" in pose proof (within_cases o s c) as H.

Lemma within_split o s t c : 0 <= s -> 0 <= t -> within o (s + t) c = within o s c + within (o + s) t c.
Proof. intros Hs Ht. within o (s + t) c. within o s c. within (o + s) t c. lia. Qed.

Lemma cov_app l k c : cov (l ++ k) c = cov l c + cov k c.
Proof. induction l as [|[o s] l IH]; cbn; [done|]. rewrite IH. lia. Qed.
Lemma cov_nonneg l c : 0 <= cov l c.
Proof. induction l as [|[o s] l IH]; cbn; [done|]. within o s c. lia. Qed.

Lemma msum_insert f m i b : m !! i = None -> msum f (<[i := b]> m) = f b + msum f m.
Proof. intros H. unfold msum. rewrite map_fold_insert_L; [done| |done]. intros; lia. Qed.
Lemma msum_delete f m i b : m !! i = Some b -> msum f m = f b + msum f (delete i m).
Proof. intros H. rewrite <- (msum_insert f (delete i m) i) by apply lookup_delete_eq. by rewrite insert_delete_id. Qed.
Lemma msum_replace f m i b b' : m !! i = Some b -> f b' = f b -> msum f (<[i := b']> m) = msum f m.
Proof.
  intros H Hf. rewrite <- insert_delete_eq, msum_insert by apply lookup_delete_eq.
  rewrite Hf. symmetry. by apply msum_delete.
Qed.
Lemma msum_nonneg f m : (forall b, 0 <= f b) -> 0 <= msum f m.
Proof.
  intros Hf. induction m as [|i b m Hi IH] using map_ind; [done|]. rewrite msum_insert by done.
  specialize (Hf b). lia.
Qed.
Lemma msum_ext f g m : (forall i b, m !! i = Some b -> f b = g b) -> msum f m = msum g m.
Proof.
  induction m as [|i b m Hi IH] using map_ind; intros H; [done|]. rewrite !msum_insert by done.
  rewrite (H i b) by apply lookup_insert_eq. f_equal. apply IH. intros j x Hj. apply (H j).
  rewrite lookup_insert_ne by (intros ->; congruence). done.
Qed.
Lemma msum_fmap f g m : (forall b, f (g b) = f b) -> msum f (g <$> m) = msum f m.
Proof.
  intros H. induction m as [|i b m Hi IH] using map_ind; [by rewrite fmap_empty|].
  rewrite fmap_insert, !msum_insert by (done || by rewrite lookup_fmap, Hi). by rewrite H, IH.
Qed.
Lemma bcov_nonneg m c : 0 <= bcov m c.
Proof. apply msum_nonneg. intros b. within (offset b) (size b) c. lia. Qed.

(** ** Free lists: increasing, and with a gap between entries *)

Fixpoint sep (lo : Z) (l : list (Z * Z)) : Prop :=
  match l with [] => True | (a, s) :: r => lo < a /\ 0 < s /\ sep (a + s) r end.
Fixpoint end_of (lo : Z) (l : list (Z * Z)) : Z :=
  match l with [] => lo | (a, s) :: r => end_of (a + s) r end.

Lemma sep_app lo l k : sep lo (l ++ k) <-> sep lo l /\ sep (end_of lo l) k.
Proof. revert lo. induction l as [|[a s] l IH]; intros lo; cbn; [tauto|]. rewrite IH. tauto. Qed.
Lemma end_of_app lo l k : end_of lo (l ++ k) = end_of (end_of lo l) k.
Proof. revert lo. by induction l as [|[a s] l IH]; intros lo; cbn. Qed.
Lemma sep_mono lo lo' l : lo' <= lo -> sep lo l -> sep lo' l.
Proof. destruct l as [|[a s] l]; cbn; [done|]. intros ? (? & ? & ?). split; [lia|done]. Qed.
Lemma sep_end lo l : sep lo l -> lo <= end_of lo l.
Proof.
  revert lo. induction l as [|[a s] l IH]; intros lo; cbn; [lia|]. intros (? & ? & H%IH). lia.
Qed.
Lemma sep_lower lo l : sep lo l -> Forall (fun e => lo < e.1 /\ 0 < e.2) l.
Proof.
  revert lo. induction l as [|[a s] l IH]; intros lo; [by constructor|]. intros (? & ? & H). constructor; [done|].
  eapply Forall_impl; [by apply IH|]. cbn. lia.
Qed.
Lemma sep_upper lo l : sep lo l -> Forall (fun e => e.1 + e.2 <= end_of lo l) l.
Proof.
  revert lo. induction l as [|[a s] l IH]; intros lo; [by constructor|]. intros (? & ? & H). constructor; [|by apply IH].
  cbn. by apply sep_end in H.
Qed.

Lemma cov_below lo l c : sep lo l -> c <= lo -> cov l c = 0.
Proof.
  revert lo. induction l as [|[a s] l IH]; intros lo; [done|]. cbn. intros (? & ? & H) Hc.
  rewrite (IH (a + s)) by (done || lia). within a s c. lia.
Qed.

Lemma filter_keep {A} (P : A -> Prop) `{!forall x, Decision (P x)} l : Forall P l -> filter P l = l.
Proof. induction 1 as [|x l Hx Hl IH]; [done|]. by rewrite filter_cons_True, IH. Qed.

(** The entry at a key, erased; the entries around it stay apart. *)
Lemma free_erase_at lo l1 o s l2 : sep lo (l1 ++ (o, s) :: l2) -> free_erase o (l1 ++ (o, s) :: l2) = l1 ++ l2.
Proof.
  intros [H1 H2]%sep_app. cbn in H2. destruct H2 as (Ho & Hs & H2).
  unfold free_erase. rewrite filter_app, filter_cons_False by (cbn; lia). rewrite !filter_keep; [done|..].
  - apply sep_lower in H2. eapply Forall_impl; [exact H2|]. cbn. lia.
  - pose proof (sep_lower _ _ H1) as Hl. apply sep_upper in H1. apply Forall_forall. intros e He.
    rewrite Forall_forall in H1, Hl. specialize (H1 e He). specialize (Hl e He). lia.
Qed.

Lemma sep_erase lo l1 e l2 : sep lo (l1 ++ e :: l2) -> sep lo (l1 ++ l2).
Proof.
  rewrite !sep_app. destruct e as [o s]. cbn. intros (H1 & Ho & Hs & H2). split; [done|].
  eapply sep_mono; [|exact H2]. lia.
Qed.

(** Where a new entry goes. *)
Lemma free_emplace_at o s l1 l2 : Forall (fun e => e.1 < o) l1 -> Forall (fun e => o < e.1) l2 ->
  free_emplace o s (l1 ++ l2) = (l1 ++ (o, s) :: l2, true).
Proof.
  intros H1 H2. induction H1 as [|[a t] l1 Ha H1 IH]; cbn.
  - destruct H2 as [|[b u] l2 Hb H2]; [done|]. cbn in *. by rewrite (proj2 (Z.ltb_lt _ _)).
  - cbn in Ha. rewrite (proj2 (Z.ltb_ge _ _)), (proj2 (Z.eqb_neq _ _)), IH by lia. done.
Qed.

Lemma first_fit_split need l o s : first_fit need l = Some (o, s) ->
  exists l1 l2, l = l1 ++ (o, s) :: l2 /\ need <= s.
Proof.
  unfold first_fit. intros H. assert (Hin : (o, s) ∈ filter (fun e => need <= e.2) l).
  { destruct (filter _ l); [done|]. injection H as ->. apply list_elem_of_here. }
  apply list_elem_of_filter in Hin as [Hs Hin]. apply list_elem_of_split in Hin as (l1 & l2 & ->). by exists l1, l2.
Qed.

(** ** Coalescing *)

(** An entry and the entries after it, joined when they touch. *)
Definition join (o s : Z) (l : list (Z * Z)) : list (Z * Z) :=
  match l with
  | (b, t) :: r => if o + s =? b then (o, s + t) :: r else (o, s) :: l
  | [] => [(o, s)]
  end.

Lemma merge_next_at o s l1 l2 : Forall (fun e => e.1 < o) l1 -> merge_next o (l1 ++ (o, s) :: l2) = l1 ++ join o s l2.
Proof.
  induction 1 as [|[a t] l1 Ha H1 IH].
  - cbn. destruct l2 as [|[b u] l2]; [done|]. by rewrite Z.eqb_refl.
  - cbn in Ha. cbn [app merge_next]. rewrite <- IH. rewrite (proj2 (Z.eqb_neq a o)) by lia.
    destruct (l1 ++ (o, s) :: l2) as [|[b u] r] eqn:E; [by destruct l1|]. done.
Qed.

Lemma join_spec o s l2 : 0 < s -> sep (o + s - 1) l2 ->
  exists s' r, join o s l2 = (o, s') :: r /\ 0 < s' /\ sep (o + s') r /\
    (forall c, cov (join o s l2) c = within o s c + cov l2 c).
Proof.
  intros Hs Hl. destruct l2 as [|[b t] r]; cbn.
  - exists s, []. split; [done|]. split; [done|]. split; [done|]. intros c. cbn. lia.
  - cbn in Hl. destruct Hl as (Hb & Ht & Hr). destruct (Z.eqb_spec (o + s) b) as [<-|Hne].
    + exists (s + t), r. split; [done|]. split; [lia|]. split; [by rewrite Z.add_assoc|].
      intros c. cbn. rewrite within_split by lia. lia.
    + exists s, ((b, t) :: r). split; [done|]. split; [done|]. split; [cbn; split; [lia|by split]|].
      intros c. done.
Qed.

Lemma merge_prev_at lo o s l1 l2 : 0 < s -> lo < o -> sep lo l1 -> end_of lo l1 <= o -> sep (o + s) l2 ->
  sep lo (merge_prev o (l1 ++ (o, s) :: l2)) /\
  (forall c, cov (merge_prev o (l1 ++ (o, s) :: l2)) c = cov l1 c + within o s c + cov l2 c).
Proof.
  intros Hs Hlo. revert lo Hlo. induction l1 as [|[a t] l1 IH]; intros lo Hlo Hl1 Hend Hl2.
  - assert (Hid : merge_prev o ((o, s) :: l2) = (o, s) :: l2).
    { clear -Hl2 Hs. cbn. destruct l2 as [|[b u] l2]; [done|]. cbn in Hl2.
      rewrite (proj2 (Z.eqb_neq b o)) by lia. f_equal.
      assert (Hgen : forall k x, o < x -> sep x k -> merge_prev o k = k).
      { clear. induction k as [|[a s] k IH]; intros x Hx Hk; [done|]. cbn in *. destruct Hk as (Ha & Hs & Hk).
        destruct k as [|[b u] k]; [done|]. cbn in Hk. rewrite (proj2 (Z.eqb_neq b o)) by lia. f_equal.
        apply (IH (a + s)); [lia|cbn; tauto]. }
      apply (Hgen _ (o + s)); [lia|cbn; tauto]. }
    cbn [app]. rewrite Hid. cbn in *. split; [done|]. intros c. cbn. lia.
  - cbn in Hl1, Hend. destruct Hl1 as (Ha & Ht & Hl1). destruct l1 as [|[b u] l1'].
    + cbn in *. rewrite Z.eqb_refl. destruct (Z.eqb_spec (a + t) o) as [<-|Hne]; cbn.
      * split; [split; [lia|split; [lia|by rewrite Z.add_assoc]]|]. intros c. rewrite within_split by lia. lia.
      * split; [|intros c; lia]. split; [done|]. split; [done|]. split; [lia|by split].
    + pose proof (sep_end _ _ Hl1) as Hle. cbn in Hl1, Hle. pose proof Hl1 as (Hb & Hu & Hl1').
      apply sep_end in Hl1'. cbn in Hend.
      destruct (IH (a + t)) as [IH1 IH2]; [lia|done|done|done|].
      assert (Hstep : merge_prev o (((a, t) :: (b, u) :: l1') ++ (o, s) :: l2) =
                      (a, t) :: merge_prev o (((b, u) :: l1') ++ (o, s) :: l2)).
      { cbn [app merge_prev]. rewrite (proj2 (Z.eqb_neq b o)) by lia. done. }
      rewrite Hstep. cbn [sep cov]. split; [done|]. intros c. rewrite IH2. cbn [cov]. lia.
Qed.

(** An interval the entries leave free splits them. *)
Lemma free_split lo l o s : 0 < s -> sep lo l -> (forall c, o <= c < o + s -> cov l c = 0) ->
  exists l1 l2, l = l1 ++ l2 /\ Forall (fun e => e.1 < o) l1 /\ (l1 = [] \/ end_of lo l1 <= o) /\
    Forall (fun e => o < e.1) l2 /\ sep (o + s - 1) l2.
Proof.
  intros Hs. revert lo. induction l as [|[a t] l IH]; intros lo Hl Hc.
  - exists [], []. split; [done|]. split; [done|]. split; [by left|]. by split.
  - cbn in Hl. destruct Hl as (Ha & Ht & Hl).
    assert (Hdis : a + t <= o \/ o + s <= a).
    { destruct (Z.le_gt_cases (a + t) o); [by left|]. destruct (Z.le_gt_cases (o + s) a); [by right|].
      specialize (Hc (Z.max a o)). cbn in Hc. within a t (Z.max a o). pose proof (cov_nonneg l (Z.max a o)). lia. }
    destruct Hdis as [Hd|Hd].
    + destruct (IH (a + t) Hl) as (l1 & l2 & -> & H1 & H2 & H3 & H4).
      { intros c Hcc. specialize (Hc c Hcc). cbn in Hc. within a t c. pose proof (cov_nonneg l c). lia. }
      exists ((a, t) :: l1), l2. split; [done|]. split; [constructor; [cbn; lia|done]|].
      split; [|done]. right. cbn. destruct H2 as [->|H2]; [done|done].
    + exists [], ((a, t) :: l). split; [done|]. split; [done|]. split; [by left|].
      pose proof (sep_lower _ _ Hl) as Hlow. split.
      * constructor; [cbn; lia|]. eapply Forall_impl; [exact Hlow|]. cbn. lia.
      * cbn. split; [lia|by split].
Qed.

(** ** The allocator's invariant *)

(** [region] is this side's region, [cap] the part of it the allocator divides,
    and [k] bounds how many blocks were allocated and how often each was sent. *)
Record arena_ok (base cap k : Z) (a : Arena) : Prop := {
  ao_cover : forall c, cov (free a) c + bcov (blocks a) c = within 0 cap c;
  ao_sep : sep (-1) (free a);
  ao_aligned : Forall (fun e => (kAlignment | e.1) /\ (kAlignment | e.2)) (free a);
  ao_blocks : map_Forall (fun id b => 0 < id < nextBlock a /\ 0 < size b /\ (kAlignment | offset b) /\
      (kAlignment | size b) /\ data b = base + offset b /\ 0 <= localRefs b /\ 0 <= peerHolds b <= k) (blocks a);
  ao_address : map_Forall (fun d id => exists b, blocks a !! id = Some b /\ data b = d) (byAddress a);
  ao_used : inUse a = msum size (blocks a);
  ao_next : 0 < nextBlock a <= k + 1
}.

Lemma arena_ok_mono base cap k k' a : k <= k' -> arena_ok base cap k a -> arena_ok base cap k' a.
Proof.
  intros Hk [H1 H2 H3 H4 H5 H6 H7]. split; try done; [|lia].
  eapply map_Forall_impl; [exact H4|]. cbn. intros i b Hb. intuition lia.
Qed.

(** A block's bytes are its own: no other block's and none of the free ones. *)
Lemma block_alone base cap k a id b : arena_ok base cap k a -> blocks a !! id = Some b ->
  forall c, offset b <= c < offset b + size b ->
    0 <= c < cap /\ cov (free a) c = 0 /\ bcov (delete id (blocks a)) c = 0.
Proof.
  intros Hok Hb c Hc. pose proof (ao_cover _ _ _ _ Hok c) as Hcov. unfold bcov in *.
  rewrite (msum_delete _ _ _ _ Hb) in Hcov. within (offset b) (size b) c. within 0 cap c.
  pose proof (cov_nonneg (free a) c). pose proof (bcov_nonneg (delete id (blocks a)) c). unfold bcov in *. lia.
Qed.

Lemma blocks_disjoint base cap k a i j b b' : arena_ok base cap k a -> blocks a !! i = Some b ->
  blocks a !! j = Some b' -> i <> j -> offset b + size b <= offset b' \/ offset b' + size b' <= offset b.
Proof.
  intros Hok Hi Hj Hne.
  destruct (ao_blocks _ _ _ _ Hok i b Hi) as (_ & Hs & _). destruct (ao_blocks _ _ _ _ Hok j b' Hj) as (_ & Hs' & _).
  destruct (Z.le_gt_cases (offset b + size b) (offset b')); [by left|].
  destruct (Z.le_gt_cases (offset b' + size b') (offset b)); [by right|]. exfalso.
  destruct (block_alone _ _ _ _ i b Hok Hi (Z.max (offset b) (offset b'))) as (_ & _ & Hz); [lia|].
  unfold bcov in Hz. rewrite (msum_delete _ _ j b') in Hz by by rewrite lookup_delete_ne.
  within (offset b') (size b') (Z.max (offset b) (offset b')).
  pose proof (bcov_nonneg (delete j (delete i (blocks a))) (Z.max (offset b) (offset b'))). unfold bcov in *. lia.
Qed.

Lemma block_in_region base cap k a id b : arena_ok base cap k a -> blocks a !! id = Some b ->
  0 <= offset b /\ offset b + size b <= cap.
Proof.
  intros Hok Hb. destruct (ao_blocks _ _ _ _ Hok id b Hb) as (_ & Hs & _).
  destruct (block_alone _ _ _ _ id b Hok Hb (offset b)) as (H1 & _); [lia|].
  destruct (block_alone _ _ _ _ id b Hok Hb (offset b + size b - 1)) as (H2 & _); [lia|]. lia.
Qed.

Lemma aligned_divide n : (kAlignment | aligned n).
Proof.
  unfold aligned, kAlignment, u64. apply Z.max_case; [by exists 1|].
  change (2 ^ 64) with (64 * 2 ^ 58). rewrite Z.mul_comm.
  rewrite Z.mul_mod_distr_l by lia. by eexists; rewrite Z.mul_comm.
Qed.
Lemma aligned_pos n : 0 < aligned n.
Proof. unfold aligned, kAlignment. lia. Qed.
(** For every size that leaves room for rounding up. *)
Lemma aligned_enough n : 0 <= n <= 2 ^ 64 - 64 -> n <= aligned n.
Proof.
  intros Hn. unfold aligned, kAlignment. rewrite (u64_small (n + 64 - 1)) by (unfold is_u64; lia).
  assert (H : n <= (n + 64 - 1) / 64 * 64 < 2 ^ 64).
  { pose proof (Z.div_mod (n + 64 - 1) 64). pose proof (Z.mod_pos_bound (n + 64 - 1) 64). lia. }
  rewrite u64_small by (unfold is_u64; lia). lia.
Qed.

Lemma set_block_ok base cap k a id b l p : arena_ok base cap k a -> blocks a !! id = Some b -> 0 <= l -> 0 <= p <= k ->
  arena_ok base cap k (set_block id (with_holds b l p) a).
Proof.
  intros Hok Hb Hl Hp. pose proof Hok as [H1 H2 H3 H4 H5 H6 H7]. split; cbn; try done.
  - intros c. unfold bcov. by rewrite (msum_replace _ _ _ b).
  - intros i x. destruct (decide (i = id)) as [->|Hne].
    + rewrite lookup_insert_eq. intros [= <-]. cbn. pose proof (H4 id b Hb). cbn in *. intuition.
    + rewrite lookup_insert_ne by done. apply H4.
  - intros d i Hd. destruct (H5 d i Hd) as (x & Hx & Hxd). destruct (decide (i = id)) as [->|Hne].
    + eexists. rewrite lookup_insert_eq. split; [done|]. cbn. congruence.
    + exists x. by rewrite lookup_insert_ne.
  - by rewrite (msum_replace _ _ _ b).
Qed.

Lemma allocateBlock_ok cap k a r n : arena_ok (rdata r) cap k a -> k + 2 < 2 ^ 64 ->
  let '(a', id) := allocateBlock (Some r) a n in
  arena_ok (rdata r) cap (k + 1) a' /\
  (id = 0 /\ a' = a \/
   exists b, 0 < id /\ blocks a !! id = None /\ blocks a' = <[id := b]> (blocks a) /\ size b = aligned n /\
     byAddress a' = byAddress a /\ localRefs b = 0 /\ peerHolds b = 0).
Proof.
  intros Hok Hk. unfold allocateBlock. destruct (first_fit (aligned n) (free a)) as [[o s]|] eqn:Ef.
  2:{ split; [eapply arena_ok_mono; [|done]; lia|by left]. }
  apply first_fit_split in Ef as (l1 & l2 & Hfree & Hs). pose proof (aligned_pos n) as Hap.
  pose proof Hok as [H1 H2 H3 H4 H5 H6 H7]. rewrite Hfree in *.
  assert (Hfresh : blocks a !! nextBlock a = None).
  { destruct (blocks a !! nextBlock a) as [b|] eqn:E; [|done]. apply H4 in E as (? & _). lia. }
  rewrite (free_erase_at _ _ _ _ _ H2). pose proof H2 as [Hl1 Hl2]%sep_app. cbn in Hl2. destruct Hl2 as (Hlo & Hs0 & Hl2).
  apply Forall_app in H3 as [Ha1 [[Hao Has] Ha2]%Forall_cons]. cbn in Hao, Has.
  set (f := if s - aligned n =? 0 then l1 ++ l2 else (free_emplace (o + aligned n) (s - aligned n) (l1 ++ l2)).1).
  assert (Hf : sep (-1) f /\ (forall c, cov f c + within o (aligned n) c = cov (l1 ++ (o, s) :: l2) c) /\
               Forall (fun e => (kAlignment | e.1) /\ (kAlignment | e.2)) f).
  { unfold f. destruct (Z.eqb_spec (s - aligned n) 0) as [E|E].
    - split; [by eapply sep_erase|]. split; [|by apply Forall_app_2].
      intros c. rewrite !cov_app. cbn. replace s with (aligned n) by lia. lia.
    - assert (Hbefore : Forall (fun e => e.1 < o + aligned n) l1).
      { pose proof (sep_lower _ _ Hl1) as Hx. pose proof (sep_upper _ _ Hl1) as Hy. apply Forall_forall. intros e He.
        rewrite Forall_forall in Hx, Hy. specialize (Hx e He). specialize (Hy e He). lia. }
      assert (Hafter : Forall (fun e => o + aligned n < e.1) l2).
      { eapply Forall_impl; [apply (sep_lower _ _ Hl2)|]. cbn. lia. }
      rewrite free_emplace_at by done. cbn [fst]. split; [|split].
      + apply sep_app. split; [done|]. cbn. split; [lia|]. split; [lia|].
        by replace (o + aligned n + (s - aligned n)) with (o + s) by lia.
      + intros c. rewrite !cov_app. cbn.
        replace (within o s c) with (within o (aligned n + (s - aligned n)) c) by (f_equal; lia).
        rewrite within_split by lia. lia.
      + apply Forall_app_2; [done|]. constructor; [|done]. cbn. split.
        * apply Z.divide_add_r; [done|apply aligned_divide].
        * apply Z.divide_sub_r; [done|apply aligned_divide]. }
  destruct Hf as (Hf1 & Hf2 & Hf3). split.
  - split; cbn; try done.
    + intros c. unfold bcov. rewrite msum_insert by done. cbn. rewrite <- H1, <- Hf2. unfold bcov. lia.
    + rewrite u64_small by (unfold is_u64; lia). intros i b. destruct (decide (i = nextBlock a)) as [->|Hne].
      * rewrite lookup_insert_eq. intros [= <-]. cbn. repeat (split; [lia || done || apply aligned_divide|]). lia.
      * rewrite lookup_insert_ne by done. intros Hb. apply H4 in Hb. intuition lia.
    + intros d i Hd. destruct (H5 d i Hd) as (x & Hx & Hxd). exists x. rewrite lookup_insert_ne; [done|]. congruence.
    + rewrite msum_insert by done. cbn. lia.
    + rewrite u64_small by (unfold is_u64; lia). lia.
  - right. eexists. split; [lia|]. repeat (split; [done|]). done.
Qed.

(** Freeing an interval nobody else covers. *)
Lemma free_insert cap l o s : sep (-1) l -> 0 <= o -> 0 < s -> (kAlignment | o) -> (kAlignment | s) ->
  Forall (fun e => (kAlignment | e.1) /\ (kAlignment | e.2)) l ->
  (forall c, o <= c < o + s -> cov l c = 0) -> (forall c, cov l c <= within 0 cap c) ->
  exists f, free_emplace o s l = (f, true) /\ let f := merge_prev o (merge_next o f) in
    sep (-1) f /\ (forall c, cov f c = cov l c + within o s c) /\
    Forall (fun e => (kAlignment | e.1) /\ (kAlignment | e.2)) f.
Proof.
  intros Hl Ho Hs Hao Has Hal Hc _. destruct (free_split _ l o s Hs Hl Hc) as (l1 & l2 & -> & H1 & H2 & H3 & H4).
  rewrite free_emplace_at by done. eexists. split; [done|]. cbn zeta.
  rewrite merge_next_at by done. destruct (join_spec o s l2 Hs H4) as (s' & r & Hj & Hs' & Hr & Hcj). rewrite Hj.
  apply sep_app in Hl as [Hl1 _].
  destruct (merge_prev_at (-1) o s' l1 r) as [Hm1 Hm2]; [lia|lia|done| |done|].
  { destruct H2 as [->|H2]; [cbn; lia|done]. }
  split; [done|]. split.
  - intros c. rewrite Hm2, cov_app. pose proof (Hcj c) as Hcc. rewrite Hj in Hcc. cbn in Hcc. lia.
  - apply Forall_app in Hal as [Ha1 Ha2].
    assert (Hjal : Forall (fun e => (kAlignment | e.1) /\ (kAlignment | e.2)) ((o, s') :: r)).
    { rewrite <- Hj. unfold join. destruct l2 as [|[b t] r2]; [by constructor|].
      apply Forall_cons in Ha2 as [[? ?] Ha2]. destruct (o + s =? b); [|by constructor; [|constructor]].
      constructor; [|done]. split; [done|]. by apply Z.divide_add_r. }
    clear -Ha1 Hjal. induction l1 as [|[a t] l1 IH].
    + cbn [app]. revert Hjal. generalize ((o, s') :: r). clear. intros l. induction l as [|[a t] l IH]; [done|].
      intros [Ha Hl]%Forall_cons. cbn. destruct l as [|[b u] l]; [by constructor|].
      destruct (b =? o); [destruct (a + t =? b)|]; [| |by constructor; [|apply IH]].
      * apply Forall_cons in Hl as [Hb Hl]. constructor; [|done]. cbn in *. split; [tauto|]. apply Z.divide_add_r; tauto.
      * by constructor.
    + apply Forall_cons in Ha1 as [Ha Ha1]. specialize (IH Ha1). cbn [app merge_prev].
      destruct (l1 ++ (o, s') :: r) as [|[b u] tl] eqn:E; [by destruct l1|].
      assert (Hall : Forall (fun e => (kAlignment | e.1) /\ (kAlignment | e.2)) ((b, u) :: tl)).
      { rewrite <- E. by apply Forall_app_2. }
      apply Forall_cons in Hall as [Hb Htl]. destruct (b =? o); [|by constructor].
      destruct (a + t =? b); [|by constructor; [|constructor]]. constructor; [|done]. cbn in *. split; [tauto|].
      apply Z.divide_add_r; tauto.
Qed.

Lemma releaseIfUnused_ok base cap k a id : arena_ok base cap k a -> arena_ok base cap k (releaseIfUnused id a).
Proof.
  intros Hok. unfold releaseIfUnused. destruct (blocks a !! id) as [b|] eqn:Hb; [|done].
  destruct (negb (localRefs b =? 0) || _); [done|].
  pose proof Hok as [H1 H2 H3 H4 H5 H6 H7]. pose proof (H4 id b Hb) as (Hid & Hs & Hao & Has & Hd & Hl & Hp).
  destruct (free_insert cap (free a) (offset b) (size b)) as (f & -> & Hf1 & Hf2 & Hf3); try done.
  { by apply (block_in_region _ _ _ _ _ _ Hok Hb). }
  { intros c Hc. by apply (block_alone _ _ _ _ id b Hok Hb c Hc). }
  { intros c. rewrite <- H1. pose proof (bcov_nonneg (blocks a) c). lia. }
  split; cbn; try done.
  - intros c. rewrite Hf2, <- H1. unfold bcov. rewrite (msum_delete _ _ _ _ Hb). lia.
  - by apply map_Forall_delete.
  - intros d i [Hdd Hi]%lookup_delete_Some. destruct (H5 d i Hi) as (x & Hx & Hxd).
    exists x. rewrite lookup_delete_ne; [done|]. intros <-. congruence.
  - rewrite H6. by rewrite (msum_delete _ _ _ _ Hb); lia.
Qed.

Lemma dropLocal_ok base cap k a id : arena_ok base cap k a -> arena_ok base cap k (dropLocal id a).
Proof.
  intros Hok. unfold dropLocal. destruct (blocks a !! id) as [b|] eqn:Hb; [|done].
  destruct (ao_blocks _ _ _ _ Hok id b Hb) as (_ & _ & _ & _ & _ & Hl & Hp).
  destruct (Z.eqb_spec (localRefs b) 0); [done|]. apply releaseIfUnused_ok, set_block_ok; done || lia.
Qed.
Lemma dropPeerHold_ok base cap k a id : arena_ok base cap k a -> arena_ok base cap k (dropPeerHold id a).
Proof.
  intros Hok. unfold dropPeerHold. destruct (blocks a !! id) as [b|] eqn:Hb; [|done].
  destruct (ao_blocks _ _ _ _ Hok id b Hb) as (_ & _ & _ & _ & _ & Hl & Hp).
  destruct (Z.eqb_spec (peerHolds b) 0); [done|]. apply releaseIfUnused_ok, set_block_ok; done || lia.
Qed.
Lemma foldl_ok {B} base cap k (f : Arena -> B -> Arena) l a :
  (forall a x, arena_ok base cap k a -> arena_ok base cap k (f a x)) ->
  arena_ok base cap k a -> arena_ok base cap k (foldl f a l).
Proof. intros Hf. revert a. induction l as [|x l IH]; intros a H; [done|]. by apply IH, Hf. Qed.

Lemma drop_peer_holds_ok base cap k a : arena_ok base cap k a ->
  arena_ok base cap k (mkArena (free a) (inUse a) ((fun b => with_holds b (localRefs b) 0) <$> blocks a)
                               (byAddress a) (nextBlock a)).
Proof.
  intros [H1 H2 H3 H4 H5 H6 H7]. split; cbn; try done.
  - intros c. unfold bcov. rewrite msum_fmap; [apply H1|done].
  - intros i x. rewrite lookup_fmap, fmap_Some. intros (b & Hb & ->). cbn. apply H4 in Hb. intuition lia.
  - intros d i Hd. destruct (H5 d i Hd) as (b & Hb & Hbd). eexists. rewrite lookup_fmap, Hb. done.
  - by rewrite msum_fmap.
Qed.

(** ** The strategy's operations *)

(** One side's state: its region, its capacity and the allocator's invariant. *)
Definition side_ok (cap k : Z) (s : State) : Prop :=
  exists r, own s = Some r /\ cap <= rsize r /\ arena_ok (rdata r) cap k (arena s).

Inductive ShmCall : Type :=
  | CSend (takes : option (list (list byte) -> bool)) (payload : Payload) (address scope : Z)
  | CAllocate (n : Z)
  | CDropLease (id : Z)
  | CFrame (fresh : nat -> list byte) (heap_owner : positive) (body : list byte) (owner : option positive)
  | CReceive (reference : list byte) (lease : positive)
  | CEndScope (scope : Z)
  | CComplete (l : list byte) (opened : option Region)
  | CAttach
  | CClosed.

Definition shm_call (s : State) (c : ShmCall) : State :=
  match c with
  | CSend takes p addr scope => match shm_send takes s p addr scope with Some (s', _, _) => s' | None => s end
  | CAllocate n => (shm_allocate s n).1
  | CDropLease id => drop_lease s id
  | CFrame fresh ho body owner => shm_onPayloadFrame fresh ho s body owner
  | CReceive r lease => (shm_receive s r lease).1
  | CEndScope scope => endScope s scope
  | CComplete l opened => (shm_complete s l opened).1
  | CAttach => shm_attach s
  | CClosed => shm_onClosed s
  end.

Lemma side_ok_with cap k s s' : side_ok cap k s -> own s' = own s -> arena s' = arena s -> side_ok cap k s'.
Proof. intros (r & Hr & Hc & Ha) Ho Haa. exists r. by rewrite Ho, Haa. Qed.
Lemma side_ok_arena cap k k' s a :
  side_ok cap k s -> (forall base, arena_ok base cap k (arena s) -> arena_ok base cap k' a) ->
  side_ok cap k' (set_arena a s).
Proof. intros (r & Hr & Hc & Ha) H. exists r. split; [done|]. split; [done|]. by apply H. Qed.

Lemma rsize_write r o content : 0 <= o -> o + zlen content <= rsize r -> rsize (write_region r o content) = rsize r.
Proof.
  intros Ho Hle. unfold rsize, write_region, zlen in *. cbn. rewrite length_write_at; [done|]. lia.
Qed.

(** A payload's size leaves room for rounding it up to the alignment. *)
Definition call_ok (c : ShmCall) : Prop :=
  match c with CSend _ p _ _ => zlen (bytes p) <= 2 ^ 64 - 64 | _ => True end.

(** The block a copying send uses: allocated by this call, large enough. *)
Lemma allocate_side cap k s n : side_ok cap k s -> k + 2 < 2 ^ 64 ->
  let '(a, id) := allocateBlock (own s) (arena s) n in
  side_ok cap (k + 1) (set_arena a s) /\
  (id = 0 /\ a = arena s \/
   exists b, 0 < id /\ blocks (arena s) !! id = None /\ blocks a = <[id := b]> (blocks (arena s)) /\
     size b = aligned n /\ byAddress a = byAddress (arena s) /\ localRefs b = 0 /\ peerHolds b = 0).
Proof.
  intros (r & Hr & Hc & Ha) Hk. rewrite Hr. pose proof (allocateBlock_ok cap k (arena s) r n Ha Hk) as H.
  destruct (allocateBlock (Some r) (arena s) n) as [a id]. destruct H as [H1 H2]. split; [|done].
  by exists r.
Qed.

Lemma hold_side cap k s id b scope : side_ok cap k s -> blocks (arena s) !! id = Some b ->
  0 <= u32 (peerHolds b + 1) <= k -> side_ok cap k (hold_block s id b scope).
Proof.
  intros Hs Hb Hp. unfold hold_block.
  set (s' := set_arena (set_block id (with_holds b (localRefs b) (u32 (peerHolds b + 1))) (arena s)) s).
  assert (Hs' : side_ok cap k s').
  { apply (side_ok_arena cap k); [done|]. intros base Hok. apply set_block_ok; try done.
    by destruct (ao_blocks _ _ _ _ Hok id b Hb) as (_ & _ & _ & _ & _ & Hl & _). }
  destruct (bool_decide _); [|done]. by apply (side_ok_with cap k s').
Qed.

Lemma copy_side cap k s id b content : side_ok cap k s -> (exists b', blocks (arena s) !! id = Some b' /\ offset b' = offset b /\ size b' = size b) ->
  zlen content <= size b -> side_ok cap k (copy_in s b content).
Proof.
  intros (x & Hx & Hc & Ha) (b' & Hb & Ho & Hsz) Hle. exists (write_region x (offset b) content).
  cbn [copy_in own set_own arena]. rewrite Hx. split; [done|].
  pose proof (block_in_region _ _ _ _ _ _ Ha Hb). rewrite rsize_write by lia. by split.
Qed.

Lemma hold_block_same s id b scope :
  blocks (arena (hold_block s id b scope)) = <[id := with_holds b (localRefs b) (u32 (peerHolds b + 1))]> (blocks (arena s)) /\
  own (hold_block s id b scope) = own s /\ byAddress (arena (hold_block s id b scope)) = byAddress (arena s) /\
  role (hold_block s id b scope) = role s /\ peer (hold_block s id b scope) = peer s.
Proof. unfold hold_block. by destruct (bool_decide _). Qed.

Lemma shm_send_ok cap k s takes p addr scope s' frames r : side_ok cap k s -> k + 2 < 2 ^ 32 ->
  zlen (bytes p) <= 2 ^ 64 - 64 -> shm_send takes s p addr scope = Some (s', frames, r) -> side_ok cap (k + 1) s'.
Proof.
  intros Hs Hk Hn. assert (Hs1 : side_ok cap (k + 1) s).
  { destruct Hs as (x & Hx & Hc & Ha). exists x. split; [done|]. split; [done|]. eapply arena_ok_mono; [|done]. lia. }
  unfold shm_send. destruct (byAddress (arena s) !! addr) as [id|] eqn:Ea.
  - destruct Hs1 as (x & Hx & Hc & Ha). destruct (ao_address _ _ _ _ Ha addr id Ea) as (b & Hb & _).
    destruct (ao_blocks _ _ _ _ Ha id b Hb) as (Hid & _). rewrite (proj2 (Z.eqb_neq id 0)) by lia.
    cbn [arena set_arena]. rewrite Hb. cbn [andb]. intros [= <- <- <-].
    assert (Hp : 0 <= peerHolds b <= k).
    { destruct Hs as (y & Hy & _ & Hay). by destruct (ao_blocks _ _ _ _ Hay id b Hb) as (_ & _ & _ & _ & _ & _ & ?). }
    apply hold_side; [by exists x|done|]. rewrite u32_small by (unfold is_u32; lia). lia.
  - pose proof (allocate_side cap k s (zlen (bytes p)) Hs ltac:(lia)) as Hal.
    destruct (allocateBlock (own s) (arena s) (zlen (bytes p))) as [a id]. destruct Hal as [Hal Hcase].
    destruct (Z.eqb_spec id 0) as [->|Hid].
    + destruct (Stream.send takes _ p) as [[[f fr] [e|e]]|]; [| |done]; intros [= <- <- <-];
        by apply (side_ok_with _ _ _ _ Hal).
    + destruct Hcase as [[-> _]|(b & Hpos & Hnone & Hbs & Hsz & _ & Hl & Hp)]; [done|].
      rewrite Hbs, lookup_insert_eq. intros [= <- <- <-].
      assert (Hb : blocks (arena (set_arena a s)) !! id = Some b) by (cbn; by rewrite Hbs, lookup_insert_eq).
      assert (Hk0 : 0 <= k). { destruct Hs as (y & _ & _ & Hay). destruct (ao_next _ _ _ _ Hay). lia. }
      assert (Hh : side_ok cap (k + 1) (hold_block (set_arena a s) id b scope)).
      { apply hold_side; [done..|]. rewrite Hp, u32_small by done. lia. }
      destruct (bool_decide (bytes p = [])); cbn [andb negb]; [done|]. apply (copy_side _ _ _ id); [done| |].
      * rewrite (proj1 (hold_block_same _ _ _ _)), lookup_insert_eq. by eexists.
      * rewrite Hsz. apply aligned_enough. pose proof (zlen_nonneg (bytes p)). lia.
Qed.

Lemma shm_call_ok cap k s c : side_ok cap k s -> k + 2 < 2 ^ 32 -> call_ok c -> side_ok cap (k + 1) (shm_call s c).
Proof.
  intros Hs Hk Hc. assert (Hs1 : side_ok cap (k + 1) s).
  { destruct Hs as (x & Hx & Hcap & Ha). exists x. split; [done|]. split; [done|]. eapply arena_ok_mono; [|done]. lia. }
  destruct c as [takes p addr scope|n|id|fresh ho body owner|reference lease|scope|l opened| |]; cbn in *.
  - destruct (shm_send takes s p addr scope) as [[[s' fr] r]|] eqn:E; [|done]. by eapply shm_send_ok.
  - unfold shm_allocate. destruct (n =? 0); [done|]. destruct (own s) as [r|] eqn:Eo; [|done]. rewrite <- Eo.
    pose proof (allocate_side cap k s n Hs ltac:(lia)) as Hal.
    destruct (allocateBlock (own s) (arena s) n) as [a id]. destruct Hal as [Hal Hcase].
    destruct (Z.eqb_spec id 0); [done|]. destruct Hcase as [[? _]|(b & Hpos & Hnone & Hbs & _ & Hadr & Hl & Hp)]; [done|].
    rewrite Hbs, lookup_insert_eq. cbn [fst]. rewrite Hp.
    assert (Hb : blocks a !! id = Some b) by by rewrite Hbs, lookup_insert_eq.
    apply (side_ok_arena cap (k + 1) _ (set_arena a s)); [done|]. cbn [arena set_arena]. intros base Ha.
    assert (Hset : arena_ok base cap (k + 1) (set_block id (with_holds b 1 0) a)).
    { apply set_block_ok; [done|done|lia|]. destruct Hs as (y & _ & _ & Hay). destruct (ao_next _ _ _ _ Hay). lia. }
    destruct Hset as [H1 H2 H3 H4 H5 H6 H7]. split; cbn in *; try done.
    intros d i. destruct (decide (d = data b)) as [->|Hne].
    + rewrite lookup_insert_eq. intros [= <-]. eexists. by rewrite lookup_insert_eq.
    + rewrite lookup_insert_ne by done. apply H5.
  - apply (side_ok_arena cap (k + 1)); [done|]. intros base. apply dropLocal_ok.
  - unfold shm_onPayloadFrame. destruct (_ && _); [|by apply (side_ok_with _ _ _ _ Hs1)].
    apply (side_ok_arena cap (k + 1)); [done|]. intros base. apply dropPeerHold_ok.
  - unfold shm_receive. destruct reference as [|kd rest]; [done|].
    destruct (_ =? kStreamed); [destruct (Stream.receive _ rest); by apply (side_ok_with _ _ _ _ Hs1)|].
    destruct (_ || _); [done|]. destruct (peer s); [|done]. by destruct (_ || _).
  - unfold endScope. destruct (scopes s !! scope) as [ids|]; [|done].
    apply (side_ok_with cap (k + 1) (set_arena (foldl (fun a id => dropPeerHold id a) (arena s) ids) s)); [|done..].
    apply (side_ok_arena cap (k + 1)); [done|]. intros base. apply foldl_ok. intros a x. apply dropPeerHold_ok.
  - unfold shm_complete. destruct (decodeSetup l); [|done]. destruct opened as [p|]; [|done].
    destruct (Stream.complete _ _) as [f [u|e]]; by apply (side_ok_with _ _ _ _ Hs1).
  - by apply (side_ok_with _ _ _ _ Hs1).
  - unfold shm_onClosed. destruct Hs1 as (x & Hx & Hcap & Ha). exists x. split; [done|]. split; [done|]. cbn.
    apply foldl_ok; [intros a i; apply releaseIfUnused_ok|]. by apply drop_peer_holds_ok.
Qed.
