(* ===== verification/ShmCorrect.v ===== *)
(** What the shared-memory strategy promises: blocks that never overlap, a region
    that is whole again once everything is released, views that stay inside the
    peer's region, and payloads that arrive with the bytes that were sent. *)
From S2P Require Import Prelude Types Bytes Payload Stream SharedMemory ShmInv.

(** The part of a region the allocator divides. *)
Definition capacity (r : Region) : Z :=
  if kAlignment <=? rsize r then rsize r - rsize r mod kAlignment else 0.

(** A side whose region was created, by its offer or by its acceptance. *)
Definition created_side (s : State) (r : Region) : Prop :=
  (exists chunk, s = (shm_offer (new_strategy chunk) (Some r)).1) \/
  (exists chunk l p setup, shm_accept (new_strategy chunk) l (Some p) (Some r) = (s, Expected setup)).

Definition shm_calls (s : State) (calls : list ShmCall) : State := foldl shm_call s calls.

Lemma initFree_ok base r : arena_ok base (capacity r) 0 (initFree (Some r) Arena_empty).
Proof.
  unfold initFree, capacity, kAlignment. pose proof (Z.mod_pos_bound (rsize r) 64 ltac:(lia)).
  assert (Hdiv : (64 | rsize r - rsize r mod 64)).
  { exists (rsize r / 64). pose proof (Z.div_mod (rsize r) 64). lia. }
  destruct (Z.leb_spec 64 (rsize r)); split; cbn; try done.
  - intros c. unfold bcov, msum. rewrite map_fold_empty. lia.
  - split; [lia|]. split; [|done]. apply Z.divide_pos_le in Hdiv; lia.
  - constructor; [|done]. cbn. split; [by apply Z.divide_0_r|done].
  - intros c. unfold bcov, msum. rewrite map_fold_empty. within 0 0 c. lia.
Qed.

Lemma created_side_ok s r : created_side s r -> side_ok (capacity r) 0 s.
Proof.
  assert (Hcap : capacity r <= rsize r).
  { unfold capacity, kAlignment, rsize, zlen. pose proof (Z.mod_pos_bound (Z.of_nat (length (rbytes r))) 64 ltac:(lia)).
    destruct (_ <=? _); lia. }
  intros [[chunk ->]|(chunk & l & p & setup & H)].
  - exists r. split; [done|]. split; [done|]. apply initFree_ok.
  - unfold shm_accept in H. destruct (decodeSetup l) as [su|]; [|done].
    destruct (Stream.accept _ _) as [f [st|e]]; [|done]. injection H as <- _.
    exists r. split; [done|]. split; [done|]. apply initFree_ok.
Qed.

Lemma shm_calls_ok cap k s calls : side_ok cap k s -> Forall call_ok calls -> k + zlen calls + 2 < 2 ^ 32 ->
  side_ok cap (k + zlen calls) (shm_calls s calls).
Proof.
  intros Hs Hc. revert k s Hs. induction Hc as [|c calls Hc Hcs IH]; intros k s Hs Hk; unfold zlen in *; cbn [length] in *.
  - cbn. by replace (k + Z.of_nat 0) with k by lia.
  - cbn. replace (k + Z.of_nat (S (length calls))) with (k + 1 + Z.of_nat (length calls)) by lia.
    apply IH; [|lia]. apply shm_call_ok; [done|lia|done].
Qed.

(** Entries kept apart that cover exactly a region are that region. *)
Lemma whole_region l cap : 0 <= cap -> sep (-1) l -> (forall c, cov l c = within 0 cap c) ->
  l = if cap =? 0 then [] else [(0, cap)].
Proof.
  intros Hcap Hl Hc. destruct l as [|[a s] r].
  - specialize (Hc 0). cbn in Hc. within 0 cap 0. destruct (Z.eqb_spec cap 0); [done|lia].
  - cbn in Hl. destruct Hl as (Ha & Hs & Hr). cbn in Hc.
    assert (Ha0 : a = 0).
    { pose proof (Hc a) as H1. pose proof (Hc 0) as H2. pose proof (cov_nonneg r a).
      pose proof (cov_below _ _ 0 Hr ltac:(lia)). within a s a. within 0 cap a. within a s 0. within 0 cap 0. lia. }
    subst a. cbn in Hr. pose proof (Hc 0) as H0. pose proof (Hc s) as H1. pose proof (Hc (s - 1)) as H2.
    pose proof (cov_below _ _ s Hr ltac:(lia)). pose proof (cov_nonneg r 0). pose proof (cov_nonneg r (s - 1)).
    within 0 s 0. within 0 cap 0. within 0 s s. within 0 cap s. within 0 s (s - 1). within 0 cap (s - 1).
    assert (Hsc : s = cap) by lia. subst cap. rewrite (proj2 (Z.eqb_neq s 0)) by lia.
    destruct r as [|[b t] r]; [done|]. exfalso. cbn in Hr, Hc. destruct Hr as (Hb & Ht & Hr).
    specialize (Hc b). pose proof (cov_nonneg r b). within 0 s b. within b t b. lia.
Qed.

(** C36. However a side sends, allocates, receives and releases, the blocks of its
    region are aligned, lie inside the region and never overlap; bytesInUse()
    counts exactly their sizes; and once every block is released it is 0 and the
    free map is the whole region again, in one piece. *)
Theorem shm_blocks_partition_region s r calls :
  created_side s r -> Forall call_ok calls -> zlen calls + 2 < 2 ^ 32 ->
  let a := arena (shm_calls s calls) in
  (forall id b, blocks a !! id = Some b ->
     0 <= offset b /\ 0 < size b /\ offset b + size b <= rsize r /\ (kAlignment | offset b)) /\
  (forall i j b b', blocks a !! i = Some b -> blocks a !! j = Some b' -> i <> j ->
     offset b + size b <= offset b' \/ offset b' + size b' <= offset b) /\
  bytesInUse (shm_calls s calls) = msum size (blocks a) /\
  (blocks a = ∅ -> bytesInUse (shm_calls s calls) = 0 /\
     free a = if capacity r =? 0 then [] else [(0, capacity r)]).
Proof.
  intros Hs Hc Hk a. pose proof (created_side_ok _ _ Hs) as Hs0.
  destruct (shm_calls_ok (capacity r) 0 s calls Hs0 Hc ltac:(lia)) as (r' & Hr' & _ & Ha). fold a in Ha.
  assert (Hcap : 0 <= capacity r <= rsize r).
  { unfold capacity, kAlignment, rsize, zlen. pose proof (Z.mod_pos_bound (Z.of_nat (length (rbytes r))) 64 ltac:(lia)).
    destruct (Z.leb_spec 64 (Z.of_nat (length (rbytes r)))); lia. }
  split; [|split; [|split]].
  - intros id b Hb. pose proof (block_in_region _ _ _ _ _ _ Ha Hb) as [H1 H2].
    destruct (ao_blocks _ _ _ _ Ha id b Hb) as (_ & H3 & H4 & _). split; [done|]. split; [done|]. split; [lia|done].
  - intros i j b b'. by apply (blocks_disjoint _ _ _ _ i j b b' Ha).
  - apply (ao_used _ _ _ _ Ha).
  - intros He. split.
    + unfold bytesInUse. fold a. rewrite (ao_used _ _ _ _ Ha), He. apply map_fold_empty.
    + apply whole_region; [lia|apply (ao_sep _ _ _ _ Ha)|]. intros c. rewrite <- (ao_cover _ _ _ _ Ha c), He.
      unfold bcov, msum. rewrite map_fold_empty. lia.
Qed.

(** ** Delivery *)

Definition block_bytes (r : Region) (b : Block) (n : nat) : list byte := slice (rbytes r) (Z.to_nat (offset b)) n.

Lemma slice_write_at memory o content : (o + length content <= length memory)%nat ->
  slice (write_at memory o content) o (length content) = content.
Proof.
  intros H. unfold write_at. apply slice_app_at; [|done]. rewrite length_take. lia.
Qed.

Lemma write_at_lookup memory o content i : (o + length content <= length memory)%nat ->
  (i < o \/ o + length content <= i)%nat -> write_at memory o content !! i = memory !! i.
Proof.
  intros Hle Hi. unfold write_at. destruct Hi as [Hi|Hi].
  - rewrite lookup_app_l by (rewrite length_take; lia). rewrite lookup_take. by rewrite decide_True.
  - rewrite lookup_app_r, length_take, Nat.min_l by (rewrite ?length_take; lia).
    rewrite lookup_app_r by lia. rewrite lookup_drop. f_equal. lia.
Qed.

(** Writing one block does not change another's bytes. *)
Lemma write_other_block r b b' content n :
  0 <= offset b -> 0 <= offset b' -> offset b + size b <= rsize r -> zlen content <= size b ->
  Z.of_nat n <= size b' -> (offset b + size b <= offset b' \/ offset b' + size b' <= offset b) ->
  block_bytes (write_region r (offset b) content) b' n = block_bytes r b' n.
Proof.
  unfold block_bytes, write_region, rsize, zlen. cbn. intros H1 H2 H3 H4 H5 H6. apply slice_ext.
  intros i Hi. apply write_at_lookup; lia.
Qed.

(** What later calls leave of a block that is not released: its place and its bytes. *)
Definition same_block (id : Z) (n : nat) (s s' : State) : Prop :=
  forall b, blocks (arena s) !! id = Some b ->
    forall b', blocks (arena s') !! id = Some b' ->
      offset b' = offset b /\ size b' = size b /\
      (forall r, own s = Some r -> exists r', own s' = Some r' /\ block_bytes r' b n = block_bytes r b n).

Lemma releaseIfUnused_block id i a b' : blocks (releaseIfUnused i a) !! id = Some b' -> blocks a !! id = Some b'.
Proof.
  unfold releaseIfUnused. destruct (blocks a !! i) as [b|] eqn:E; [|done]. destruct (_ || _); [done|].
  destruct (free_emplace _ _ _) as [f []]; cbn; intros H; apply lookup_delete_Some in H; tauto.
Qed.

(** A call on the allocator keeps the place of every block that stays. *)
Definition keeps_place (a a' : Arena) : Prop :=
  forall id b b', blocks a !! id = Some b -> blocks a' !! id = Some b' -> offset b' = offset b /\ size b' = size b.

Lemma set_block_place a id b l p : blocks a !! id = Some b -> keeps_place a (set_block id (with_holds b l p) a).
Proof.
  intros Hb i x x' Hx Hx'. cbn in Hx'. destruct (decide (i = id)) as [->|].
  - rewrite lookup_insert_eq in Hx'. simplify_eq. done.
  - rewrite lookup_insert_ne in Hx' by done. by simplify_eq.
Qed.
Lemma dropPeerHold_place i a : keeps_place a (dropPeerHold i a).
Proof.
  unfold dropPeerHold. destruct (blocks a !! i) as [b|] eqn:E; [|by intros id x x' ??; simplify_eq].
  destruct (_ =? 0); [by intros id x x' ??; simplify_eq|]. intros id x x' Hx Hx'%releaseIfUnused_block.
  by eapply (set_block_place a i b _ _ E id).
Qed.
Lemma dropLocal_place i a : keeps_place a (dropLocal i a).
Proof.
  unfold dropLocal. destruct (blocks a !! i) as [b|] eqn:E; [|by intros id x x' ??; simplify_eq].
  destruct (_ =? 0); [by intros id x x' ??; simplify_eq|]. intros id x x' Hx Hx'%releaseIfUnused_block.
  by eapply (set_block_place a i b _ _ E id).
Qed.
Lemma drops_stay {B} (f : Arena -> B -> Arena) l a id b' :
  (forall a x y, blocks (f a x) !! id = Some y -> is_Some (blocks a !! id)) ->
  blocks (foldl f a l) !! id = Some b' -> is_Some (blocks a !! id).
Proof.
  intros Hf. revert a. induction l as [|x l IH]; intros a H; [by eexists|]. apply IH in H as [y Hy]. by eapply Hf.
Qed.
Lemma dropPeerHold_stays i a id y : blocks (dropPeerHold i a) !! id = Some y -> is_Some (blocks a !! id).
Proof.
  unfold dropPeerHold. destruct (blocks a !! i) as [b|] eqn:E; [|by eexists].
  destruct (_ =? 0); [by eexists|]. intros H%releaseIfUnused_block. cbn in H.
  destruct (decide (id = i)) as [->|]; [by eexists|]. rewrite lookup_insert_ne in H by done. by eexists.
Qed.
Lemma drops_place (f : Arena -> Z -> Arena) l a : (forall a x, keeps_place a (f a x)) ->
  (forall a x id y, blocks (f a x) !! id = Some y -> is_Some (blocks a !! id)) -> keeps_place a (foldl f a l).
Proof.
  intros Hp Hs. revert a. induction l as [|x l IH]; intros a id b b' Hb Hb'; [cbn in *; by simplify_eq|].
  cbn in Hb'. destruct (drops_stay f l (f a x) id b') as [y Hy]; [intros ? ? ?; apply Hs|done|].
  destruct (IH (f a x) id y b' Hy Hb') as [-> ->]. by apply (Hp a x id).
Qed.

(** One call that leaves the block allocated leaves its place and its bytes. *)
Definition undisturbed (s s' : State) (id : Z) (b : Block) : Prop :=
  forall b', blocks (arena s') !! id = Some b' -> offset b' = offset b /\ size b' = size b /\
    forall r n, own s = Some r -> Z.of_nat n <= size b ->
      exists r', own s' = Some r' /\ block_bytes r' b n = block_bytes r b n.

Lemma undisturbed_place s s' id b : blocks (arena s) !! id = Some b -> own s' = own s ->
  keeps_place (arena s) (arena s') -> undisturbed s s' id b.
Proof.
  intros Hb Ho Hp b' Hb'. destruct (Hp id b b' Hb Hb'). split; [done|]. split; [done|].
  intros r n Hr _. exists r. by rewrite Ho.
Qed.
Lemma keeps_place_refl a : keeps_place a a.
Proof. intros id b b' ??. by simplify_eq. Qed.

Lemma send_undisturbed cap k s takes p addr scope s' fr res id b :
  side_ok cap k s -> k + 2 < 2 ^ 32 -> zlen (bytes p) <= 2 ^ 64 - 64 -> blocks (arena s) !! id = Some b ->
  shm_send takes s p addr scope = Some (s', fr, res) -> undisturbed s s' id b.
Proof.
  intros Hs Hk Hn Hb. unfold shm_send. destruct (byAddress (arena s) !! addr) as [i|] eqn:Ea.
  - destruct Hs as (x & Hx & Hc & Ha). destruct (ao_address _ _ _ _ Ha addr i Ea) as (bi & Hbi & _).
    destruct (ao_blocks _ _ _ _ Ha i bi Hbi) as (Hid & _). rewrite (proj2 (Z.eqb_neq i 0)) by lia.
    rewrite Hbi. cbn [andb]. intros [= <- <- <-].
    destruct (hold_block_same (set_arena (arena s) s) i bi scope) as (Hbl & Ho & _).
    apply undisturbed_place; [done|exact Ho|]. intros j x0 x' Hx0 Hx'. rewrite Hbl in Hx'.
    exact (set_block_place (arena s) i bi _ _ Hbi j x0 x' Hx0 Hx').
  - pose proof (allocate_side cap k s (zlen (bytes p)) Hs ltac:(lia)) as Hal.
    destruct (allocateBlock (own s) (arena s) (zlen (bytes p))) as [a i]. destruct Hal as [Hal Hcase].
    destruct (Z.eqb_spec i 0) as [->|Hid].
    + destruct Hcase as [[_ ->]|(bi & ? & _)]; [|lia].
      destruct (Stream.send takes _ p) as [[[f fr'] [e|e]]|]; [| |done]; intros [= <- <- <-];
        (apply undisturbed_place; [done|done|apply keeps_place_refl]).
    + destruct Hcase as [[-> _]|(bi & Hpos & Hnone & Hbs & Hsz & _ & Hl & Hp)]; [done|].
      rewrite Hbs, lookup_insert_eq. intros [= <- <- <-].
      assert (Hne : i <> id) by congruence.
      destruct (hold_block_same (set_arena a s) i bi scope) as (Hbl & Ho & _). cbn in Hbl, Ho.
      assert (Hplace : forall b', blocks (arena (hold_block (set_arena a s) i bi scope)) !! id = Some b' -> b' = b).
      { intros b'. rewrite Hbl, Hbs, !lookup_insert_ne by done. congruence. }
      destruct (bool_decide (bytes p = [])); cbn [andb negb]; intros b' Hb'; cbn [copy_in arena set_own] in Hb';
        apply Hplace in Hb' as ->; (split; [done|]; split; [done|]); intros r n Hr Hsn.
      * exists r. by rewrite Ho, Hr.
      * exists (write_region r (offset bi) (bytes p)). cbn [copy_in own set_own]. rewrite Ho, Hr. split; [done|].
        destruct Hal as (x & Hx & Hcap & Ha). cbn [own set_arena arena] in Hx, Ha. rewrite Hr in Hx. injection Hx as <-.
        assert (Hi : blocks a !! i = Some bi) by by rewrite Hbs, lookup_insert_eq.
        assert (Hj : blocks a !! id = Some b) by by rewrite Hbs, lookup_insert_ne.
        pose proof (block_in_region _ _ _ _ _ _ Ha Hi). pose proof (block_in_region _ _ _ _ _ _ Ha Hj).
        apply write_other_block; [lia|lia|lia| |lia|by eapply (blocks_disjoint _ _ _ _ i id)].
        rewrite Hsz. apply aligned_enough. pose proof (zlen_nonneg (bytes p)). lia.
Qed.

Lemma call_undisturbed cap k s c id b : side_ok cap k s -> k + 2 < 2 ^ 32 -> call_ok c ->
  blocks (arena s) !! id = Some b -> undisturbed s (shm_call s c) id b.
Proof.
  intros Hs Hk Hc Hb.
  assert (Hsame : forall s', own s' = own s -> arena s' = arena s -> undisturbed s s' id b).
  { intros s' Ho Ha. apply undisturbed_place; [done|done|]. rewrite Ha. apply keeps_place_refl. }
  destruct c as [takes p addr scope|n|i|fresh ho body owner|reference lease|scope|l opened| |]; cbn in *.
  - destruct (shm_send takes s p addr scope) as [[[s' fr] r]|] eqn:E; [|by apply Hsame].
    by eapply send_undisturbed.
  - unfold shm_allocate. destruct (n =? 0); [by apply Hsame|]. destruct (own s) as [r|] eqn:Eo; [|by apply Hsame].
    rewrite <- Eo. pose proof (allocate_side cap k s n Hs ltac:(lia)) as Hal.
    destruct (allocateBlock (own s) (arena s) n) as [a i]. destruct Hal as [_ Hcase].
    destruct Hcase as [[-> ->]|(bi & Hpos & Hnone & Hbs & _)]; [by apply Hsame|].
    rewrite (proj2 (Z.eqb_neq i 0)), Hbs, lookup_insert_eq by lia. cbn [fst].
    apply undisturbed_place; [done|done|]. intros j x x' Hx Hx'. cbn in Hx'. rewrite Hbs in Hx'.
    assert (j <> i) by congruence. rewrite !lookup_insert_ne in Hx' by done. by simplify_eq.
  - apply undisturbed_place; [done|done|]. apply dropLocal_place.
  - unfold shm_onPayloadFrame. destruct (_ && _); [|by apply Hsame].
    apply undisturbed_place; [done|done|]. apply dropPeerHold_place.
  - unfold shm_receive. destruct reference as [|kd rest]; [by apply Hsame|].
    destruct (_ =? kStreamed); [destruct (Stream.receive _ rest); by apply Hsame|].
    destruct (_ || _); [by apply Hsame|]. destruct (peer s); [|by apply Hsame]. destruct (_ || _); by apply Hsame.
  - unfold endScope. destruct (scopes s !! scope) as [ids|]; [|by apply Hsame].
    apply undisturbed_place; [done|done|]. cbn.
    apply drops_place; [intros; apply dropPeerHold_place|intros a x j y; apply dropPeerHold_stays].
  - unfold shm_complete. destruct (decodeSetup l); [|by apply Hsame]. destruct opened as [p|]; [|by apply Hsame].
    destruct (Stream.complete _ _) as [f [u|e]]; by apply Hsame.
  - by apply Hsame.
  - unfold shm_onClosed. apply undisturbed_place; [done|done|]. cbn. intros j x x' Hx Hx'.
    set (a0 := mkArena _ _ _ _ _) in Hx'.
    assert (Hrel : forall l, keeps_place a0 (foldl (fun a id => releaseIfUnused id a) a0 l)).
    { intros l. apply (drops_place (fun a id => releaseIfUnused id a)).
      - intros a y m z z' Hz Hz'%releaseIfUnused_block. by simplify_eq.
      - intros a y m z Hz%releaseIfUnused_block. by eexists. }
    assert (H0 : blocks a0 !! j = Some (with_holds x (localRefs x) 0)) by (cbn; by rewrite lookup_fmap, Hx).
    by destruct (Hrel _ j _ x' H0 Hx').
Qed.

(** The block stays allocated through these calls. *)
Fixpoint stays (id : Z) (s : State) (calls : list ShmCall) : Prop :=
  match calls with
  | [] => True
  | c :: rest => is_Some (blocks (arena (shm_call s c)) !! id) /\ stays id (shm_call s c) rest
  end.

Lemma calls_undisturbed cap k s calls id b : side_ok cap k s -> k + zlen calls + 2 < 2 ^ 32 -> Forall call_ok calls ->
  blocks (arena s) !! id = Some b -> stays id s calls -> undisturbed s (shm_calls s calls) id b.
Proof.
  intros Hs Hk Hc. revert k s b Hs Hk. induction Hc as [|c calls Hc Hcs IH]; intros k s b Hs Hk Hb Hst.
  - apply undisturbed_place; [done|done|apply keeps_place_refl].
  - unfold zlen in *. cbn [length] in Hk. cbn in Hst. destruct Hst as [[b1 Hb1] Hst].
    destruct (call_undisturbed cap k s c id b Hs ltac:(lia) Hc Hb b1 Hb1) as (Ho & Hsz & Hm).
    assert (Hs1 : side_ok cap (k + 1) (shm_call s c)) by (apply shm_call_ok; [done|lia|done]).
    intros b' Hb'. cbn in Hb'.
    destruct (IH (k + 1) (shm_call s c) b1 Hs1 ltac:(lia) Hb1 Hst b' Hb') as (Ho2 & Hsz2 & Hm2).
    split; [congruence|]. split; [congruence|]. intros r n Hr Hn.
    destruct (Hm r n Hr Hn) as (r1 & Hr1 & Hb1'). destruct (Hm2 r1 n Hr1 ltac:(lia)) as (r2 & Hr2 & Hb2).
    exists r2. split; [done|]. unfold block_bytes in *. congruence.
Qed.

(** A reference that names bytes of the peer's region. *)
Lemma in_region_fields id o n : is_u64 id -> is_u64 o -> is_u64 n ->
  let r := in_region_reference id o n in
  length r = 25%nat /\ le_value (slice r 1 8) = id /\ le_value (slice r 9 8) = o /\ le_value (slice r 17 8) = n.
Proof.
  intros Hi Ho Hn r. unfold r, in_region_reference. split; [|split; [|split]].
  - cbn [length]. by rewrite !length_app, !length_le_bytes.
  - change (to_byte kInRegion :: le_bytes 8 id ++ le_bytes 8 o ++ le_bytes 8 n)
      with ([to_byte kInRegion] ++ le_bytes 8 id ++ le_bytes 8 o ++ le_bytes 8 n).
    rewrite slice_app_at by (done || apply length_le_bytes). by apply le_value_u64.
  - change (to_byte kInRegion :: le_bytes 8 id ++ le_bytes 8 o ++ le_bytes 8 n)
      with (([to_byte kInRegion] ++ le_bytes 8 id) ++ le_bytes 8 o ++ le_bytes 8 n).
    rewrite slice_app_at by (rewrite ?length_app, ?length_le_bytes; done). by apply le_value_u64.
  - change (to_byte kInRegion :: le_bytes 8 id ++ le_bytes 8 o ++ le_bytes 8 n)
      with (([to_byte kInRegion] ++ le_bytes 8 id) ++ le_bytes 8 o ++ le_bytes 8 n).
    rewrite app_assoc, <- (app_nil_r (le_bytes 8 n)).
    rewrite slice_app_at by (rewrite ?length_app, ?length_le_bytes; done). by apply le_value_u64.
Qed.

Lemma receive_in_region s r id o n lease : peer s = Some r -> is_u64 id -> is_u64 o -> is_u64 n ->
  0 <= o -> 0 <= n -> o + n <= rsize r ->
  shm_receive s (in_region_reference id o n) lease =
    (s, Expected (view (slice (rbytes r) (Z.to_nat o) (Z.to_nat n)) (Some lease),
                  if bool_decide (role s = kCoordinator) then Some id else None)).
Proof.
  intros Hp Hi Ho Hn Ho0 Hn0 Hle. destruct (in_region_fields id o n Hi Ho Hn) as (Hlen & H1 & H2 & H3).
  unfold shm_receive. destruct (in_region_reference id o n) as [|kd rest] eqn:E; [done|].
  assert (Hkd : to_integer kd = kInRegion) by (unfold in_region_reference in E; injection E as <- _; done).
  rewrite Hkd, Hlen, H1, H2, H3, Hp. cbn [Z.eqb kInRegion kStreamed Pos.eqb negb orb Nat.eqb].
  by rewrite (proj2 (Z.ltb_ge _ _)), (proj2 (Z.ltb_ge _ _)) by lia.
Qed.

Lemma reference_inj id o n id' o' n' : is_u64 id -> is_u64 o -> is_u64 n -> is_u64 id' -> is_u64 o' -> is_u64 n' ->
  in_region_reference id o n = in_region_reference id' o' n' -> id = id' /\ o = o' /\ n = n'.
Proof.
  intros H1 H2 H3 H1' H2' H3' E. destruct (in_region_fields id o n H1 H2 H3) as (_ & F1 & F2 & F3).
  destruct (in_region_fields id' o' n' H1' H2' H3') as (_ & G1 & G2 & G3). rewrite E in *. repeat split; congruence.
Qed.

(** What a copying send leaves: the named block, held, with the payload's bytes. *)
Lemma send_copies cap k s takes payload address scope s' frames id o n :
  side_ok cap k s -> k + 2 < 2 ^ 32 -> cap < 2 ^ 64 -> zlen (bytes payload) <= 2 ^ 64 - 64 ->
  byAddress (arena s) !! address = None -> is_u64 id -> is_u64 o -> is_u64 n ->
  shm_send takes s payload address scope = Some (s', frames, Expected (in_region_reference id o n)) ->
  n = zlen (bytes payload) /\ exists b r, blocks (arena s') !! id = Some b /\ offset b = o /\ n <= size b /\
    own s' = Some r /\ block_bytes r b (length (bytes payload)) = bytes payload.
Proof.
  intros Hs Hk Hcap Hlen Haddr Hid Ho Hn. unfold shm_send. rewrite Haddr.
  pose proof (allocate_side cap k s (zlen (bytes payload)) Hs ltac:(lia)) as Hal.
  destruct (allocateBlock (own s) (arena s) (zlen (bytes payload))) as [a i]. destruct Hal as [Hal Hcase].
  destruct (Z.eqb_spec i 0) as [->|Hi0].
  { destruct (Stream.send takes _ payload) as [[[f fr'] [e|e]]|]; by try intros [= _ _ E]. }
  destruct Hcase as [[-> _]|(b & Hpos & Hnone & Hbs & Hsz & _ & Hl & Hp)]; [done|].
  rewrite Hbs, lookup_insert_eq. intros Hsend.
  assert (Href : in_region_reference i (offset b) (zlen (bytes payload)) = in_region_reference id o n) by congruence.
  assert (Hs' : (if true && negb (bool_decide (bytes payload = [])) then copy_in (hold_block (set_arena a s) i b scope) b (bytes payload)
                 else hold_block (set_arena a s) i b scope) = s') by congruence. clear Hsend.
  assert (Hbi : blocks a !! i = Some b) by by rewrite Hbs, lookup_insert_eq.
  pose proof (zlen_nonneg (bytes payload)) as Hpos'.
  pose proof (aligned_enough (zlen (bytes payload)) ltac:(lia)) as Hfit. rewrite <- Hsz in Hfit.
  destruct Hal as (x & Hx & Hxc & Ha). cbn [arena set_arena own] in Ha, Hx.
  pose proof (block_in_region _ _ _ _ _ _ Ha Hbi) as Hin. destruct (ao_blocks _ _ _ _ Ha i b Hbi) as (Hii & _).
  pose proof (ao_next _ _ _ _ Ha) as Hnx.
  destruct (reference_inj i (offset b) (zlen (bytes payload)) id o n) as (-> & <- & <-);
    [unfold is_u64; lia|unfold is_u64; lia|unfold is_u64; lia|done..|].
  split; [done|]. destruct (hold_block_same (set_arena a s) id b scope) as (Hbl & Ho' & _). cbn in Hbl, Ho'.
  assert (Hb' : blocks (arena (hold_block (set_arena a s) id b scope)) !! id =
                Some (with_holds b (localRefs b) (u32 (peerHolds b + 1)))) by by rewrite Hbl, lookup_insert_eq.
  destruct (bool_decide_reflect (bytes payload = [])) as [He|He]; cbn [andb negb] in Hs'; subst s'.
  - eexists _, x. split; [exact Hb'|]. split; [done|]. split; [done|]. rewrite Ho'. split; [done|]. by rewrite He.
  - eexists _, (write_region x (offset b) (bytes payload)). split; [exact Hb'|]. split; [done|]. split; [done|].
    cbn [copy_in own set_own]. rewrite Ho', Hx. split; [done|]. unfold block_bytes, write_region, rsize, zlen in *. cbn.
    apply slice_write_at. lia.
Qed.

(** What a send of a buffer that [allocate] gave leaves: its block, held, as it was written. *)
Lemma send_in_place cap k s takes payload address scope s' frames id o n i b r :
  side_ok cap k s -> cap < 2 ^ 64 -> k + 2 < 2 ^ 32 -> byAddress (arena s) !! address = Some i ->
  blocks (arena s) !! i = Some b -> own s = Some r -> zlen (bytes payload) <= size b ->
  block_bytes r b (length (bytes payload)) = bytes payload -> is_u64 id -> is_u64 o -> is_u64 n ->
  shm_send takes s payload address scope = Some (s', frames, Expected (in_region_reference id o n)) ->
  i = id /\ n = zlen (bytes payload) /\ exists b r, blocks (arena s') !! id = Some b /\ offset b = o /\ n <= size b /\
    own s' = Some r /\ block_bytes r b (length (bytes payload)) = bytes payload.
Proof.
  intros Hs Hcap Hk Haddr Hb Hr Hsz Hcont Hid Ho Hn. unfold shm_send. rewrite Haddr.
  destruct Hs as (x & Hx & Hxc & Ha). destruct (ao_blocks _ _ _ _ Ha i b Hb) as (Hii & _). pose proof (ao_next _ _ _ _ Ha) as Hnx.
  pose proof (block_in_region _ _ _ _ _ _ Ha Hb) as Hin. pose proof (zlen_nonneg (bytes payload)).
  rewrite (proj2 (Z.eqb_neq i 0)) by lia. cbn [arena set_arena]. rewrite Hb. cbn [andb]. intros Hsend.
  assert (Href : in_region_reference i (offset b) (zlen (bytes payload)) = in_region_reference id o n) by congruence.
  assert (Hs' : hold_block (set_arena (arena s) s) i b scope = s') by congruence. clear Hsend.
  destruct (reference_inj i (offset b) (zlen (bytes payload)) id o n) as (-> & <- & <-); [unfold is_u64; lia..|done|done|done|done|].
  split; [done|]. split; [done|]. destruct (hold_block_same (set_arena (arena s) s) id b scope) as (Hbl & Ho' & _). rewrite Hs' in Hbl, Ho'. cbn in Hbl, Ho'.
  eexists _, r. rewrite Hbl, lookup_insert_eq, Ho'. split; [done|]. by split.
Qed.

Lemma stays_end id s calls : is_Some (blocks (arena s) !! id) -> stays id s calls ->
  is_Some (blocks (arena (shm_calls s calls)) !! id).
Proof. revert s. induction calls as [|c calls IH]; intros s H; [done|]. cbn. intros [H1 H2]. by apply IH. Qed.

(** A block that stays resolves, on a side that maps the region, to what it held. *)
Lemma kept_block_resolves cap k s1 after t lease id b r content :
  side_ok cap k s1 -> cap < 2 ^ 64 -> Forall call_ok after -> k + zlen after + 2 < 2 ^ 32 ->
  blocks (arena s1) !! id = Some b -> own s1 = Some r -> zlen content <= size b -> block_bytes r b (length content) = content ->
  stays id s1 after -> peer t = own (shm_calls s1 after) ->
  exists release, shm_receive t (in_region_reference id (offset b) (zlen content)) lease = (t, Expected (view content (Some lease), release)).
Proof.
  intros Hs1 Hcap Ha Hk Hb1 Hr1 Hfit Hcont Hstay Hpeer. pose proof (zlen_nonneg after). pose proof (zlen_nonneg content).
  destruct (stays_end id s1 after) as [b2 Hb2]; [by eexists|done|].
  destruct (calls_undisturbed cap k s1 after id b Hs1 ltac:(lia) Ha Hb1 Hstay b2 Hb2) as (Hob & Hsb & Hm).
  destruct (Hm r (length content) Hr1 Hfit) as (r2 & Hr2 & Hbytes).
  destruct (shm_calls_ok cap k s1 after Hs1 Ha ltac:(lia)) as (r3 & Hr3 & Hc3 & Ha3).
  rewrite Hr2 in Hr3. injection Hr3 as <-. pose proof (block_in_region _ _ _ _ _ _ Ha3 Hb2) as Hin.
  destruct (ao_blocks _ _ _ _ Ha3 id b2 Hb2) as (Hii & _). pose proof (ao_next _ _ _ _ Ha3).
  rewrite (receive_in_region t r2) by (congruence || lia || (unfold is_u64; lia)).
  eexists. do 4 f_equal. unfold zlen. rewrite Nat2Z.id. unfold block_bytes in Hbytes, Hcont. by rewrite Hbytes, Hcont.
Qed.

(** C37. A payload copied into the region arrives with the bytes that were sent:
    as long as its block stays allocated, whatever else the sender sends, allocates
    or releases before the peer looks, the reference resolves on a side that maps
    the region to a view of exactly those bytes. *)
Theorem shm_delivers s r before takes payload address scope s1 frames id o n after t lease :
  created_side s r -> Forall call_ok before -> Forall call_ok after ->
  zlen before + zlen after + 4 < 2 ^ 32 -> rsize r < 2 ^ 64 ->
  kind payload = kInline -> zlen (bytes payload) <= 2 ^ 64 - 64 ->
  let s0 := shm_calls s before in
  byAddress (arena s0) !! address = None -> is_u64 id -> is_u64 o -> is_u64 n ->
  shm_send takes s0 payload address scope = Some (s1, frames, Expected (in_region_reference id o n)) ->
  stays id s1 after -> peer t = own (shm_calls s1 after) ->
  exists received release,
    shm_receive t (in_region_reference id o n) lease = (t, Expected (received, release)) /\ received ≡ payload.
Proof.
  intros Hc Hb Ha Hk Hr64 Hkind Hlen s0 Haddr Hid Ho Hn Hsend Hstay Hpeer.
  pose proof (created_side_ok _ _ Hc) as Hs. pose proof (zlen_nonneg before). pose proof (zlen_nonneg after).
  assert (Hs0 : side_ok (capacity r) (zlen before) s0).
  { replace (zlen before) with (0 + zlen before) by lia. apply shm_calls_ok; [done|done|lia]. }
  assert (Hs1 : side_ok (capacity r) (zlen before + 1) s1) by (eapply shm_send_ok; [exact Hs0|lia|exact Hlen|exact Hsend]).
  assert (Hcap : capacity r < 2 ^ 64).
  { unfold capacity, kAlignment. pose proof (Z.mod_pos_bound (rsize r) 64 ltac:(lia)). destruct (_ <=? _); lia. }
  destruct (send_copies _ _ _ _ _ _ _ _ _ _ _ _ Hs0 ltac:(lia) Hcap Hlen Haddr Hid Ho Hn Hsend)
    as (-> & b & r1 & Hb1 & <- & Hfit & Hr1 & Hcont).
  destruct (kept_block_resolves _ _ s1 after t lease id b r1 (bytes payload) Hs1 Hcap Ha) as [release Hrec]; [lia|done..|].
  do 2 eexists. split; [exact Hrec|]. by split.
Qed.

(** Every 25 bytes of the right kind are a reference into the region. *)
Lemma in_region_parses kd rest : to_integer kd = kInRegion -> length (kd :: rest) = 25%nat ->
  let f i := le_value (slice (kd :: rest) i 8) in
  kd :: rest = in_region_reference (f 1%nat) (f 9%nat) (f 17%nat) /\ is_u64 (f 1%nat) /\ is_u64 (f 9%nat) /\ is_u64 (f 17%nat).
Proof.
  intros Hkd Hlen f.
  assert (Hs : forall i, (i + 8 <= 25)%nat -> length (slice (kd :: rest) i 8) = 8%nat) by (intros i Hi; apply length_slice; lia).
  assert (Hu : forall i, (i + 8 <= 25)%nat -> is_u64 (f i)).
  { intros i Hi. pose proof (le_value_range (slice (kd :: rest) i 8)) as H. unfold zlen in H. rewrite Hs in H by done. exact H. }
  assert (Hb : forall i, (i + 8 <= 25)%nat -> le_bytes 8 (f i) = slice (kd :: rest) i 8).
  { intros i Hi. rewrite <- (Hs i Hi) at 1. apply le_bytes_value. }
  split; [|split; [apply Hu; lia|split; apply Hu; lia]]. unfold in_region_reference. rewrite !Hb by lia.
  rewrite <- Hkd, to_byte_to_integer. unfold slice. cbn [drop length] in *. rewrite drop_0. f_equal.
  rewrite <- (take_drop 8 rest) at 1. f_equal. rewrite <- (take_drop 8 (drop 8 rest)) at 1. f_equal.
  rewrite drop_drop. symmetry. apply take_ge. rewrite length_drop. cbn. lia.
Qed.

(** What a success hands out. *)
Lemma receive_inside s reference lease s' p release : shm_receive s reference lease = (s', Expected (p, release)) ->
    (exists r id o n, peer s = Some r /\ is_u64 id /\ is_u64 o /\ is_u64 n /\
       reference = in_region_reference id o n /\ o + n <= rsize r /\ zlen (bytes p) = n /\
       p = view (slice (rbytes r) (Z.to_nat o) (Z.to_nat n)) (Some lease) /\
       release = (if bool_decide (role s = kCoordinator) then Some id else None) /\ s' = s) \/
    (exists rest f, reference = to_byte kStreamed :: rest /\ Stream.receive (fallback s) rest = (f, Expected p) /\
       release = None).
Proof.
  unfold shm_receive. destruct reference as [|kd rest]; [done|].
  destruct (Z.eqb_spec (to_integer kd) kStreamed) as [Hk|Hk].
  - destruct (Stream.receive (fallback s) rest) as [f [q|e]] eqn:E; [|done]. intros [= <- <- <-]. right.
    exists rest, f. split; [|done]. f_equal. rewrite <- Hk. by rewrite to_byte_to_integer.
  - destruct (Z.eqb_spec (to_integer kd) kInRegion) as [Hr|]; [|done]. destruct (Nat.eqb_spec (length (kd :: rest)) 25) as [Hlen|]; [|done].
    cbn [negb orb]. destruct (peer s) as [r|]; [|done]. destruct (in_region_parses kd rest Hr Hlen) as (Href & Hi & Ho & Hn).
    revert Href Hi Ho Hn. generalize (le_value (slice (kd :: rest) 1 8)), (le_value (slice (kd :: rest) 9 8)), (le_value (slice (kd :: rest) 17 8)).
    intros id o n Href Hi Ho Hn. destruct (Z.ltb_spec (rsize r) o); [done|]. destruct (Z.ltb_spec (rsize r - o) n); [done|]. cbn [orb].
    intros [= <- <- <-]. left. exists r, id, o, n. unfold is_u64 in *. repeat (split; [done || lia|]). split; [|done].
    cbn. unfold zlen. rewrite length_slice; [lia|]. unfold rsize, zlen in *. lia.
Qed.

(** C38. What [receive] makes of any reference a peer may send. What it hands out
    came through the fallback's stream, for a reference that says so, or is exactly
    the bytes of the peer's region that the reference names, all of which lie in it;
    any other reference, malformed or naming bytes beyond the region, fails the job
    and changes nothing. *)
Theorem shm_receive_bounded s reference lease :
  (forall s' p release, shm_receive s reference lease = (s', Expected (p, release)) ->
    (exists r id o n, peer s = Some r /\ is_u64 id /\ is_u64 o /\ is_u64 n /\
       reference = in_region_reference id o n /\ o + n <= rsize r /\ zlen (bytes p) = n /\
       p = view (slice (rbytes r) (Z.to_nat o) (Z.to_nat n)) (Some lease) /\
       release = (if bool_decide (role s = kCoordinator) then Some id else None) /\ s' = s) \/
    (exists rest f, reference = to_byte kStreamed :: rest /\ Stream.receive (fallback s) rest = (f, Expected p) /\
       release = None)) /\
  (head reference <> Some (to_byte kStreamed) ->
   (forall r id o n, peer s = Some r -> is_u64 id -> is_u64 o -> is_u64 n -> reference = in_region_reference id o n ->
      rsize r < o + n) ->
   shm_receive s reference lease = (s, Unexpected kJobFailed)).
Proof.
  split; [apply receive_inside|]. intros Hhead Hout. pose proof (receive_inside s reference lease) as H. unfold shm_receive in *.
  destruct reference as [|kd rest]; [done|]. destruct (Z.eqb_spec (to_integer kd) kStreamed) as [Hk|Hk].
  { destruct Hhead. cbn. by rewrite <- Hk, to_byte_to_integer. }
  destruct (_ || _); [done|]. destruct (peer s) as [r|] eqn:Ep; [|done]. cbv zeta in *. destruct (_ || _); [done|].
  destruct (H _ _ _ eq_refl) as [(r' & id & o & n & [= ->] & Hi & Ho & Hn & Href & Hle & _)|(rest' & f & [= -> ->] & _)].
  - specialize (Hout _ _ _ _ eq_refl Hi Ho Hn Href). lia.
  - by destruct Hk.
Qed.

(** The setup bytes carry the region's size and name and the stream's setup. *)
Lemma setup_roundtrip n name stream : is_u64 n -> (0 < str_size name <= UINT16_MAX)%nat ->
  decodeSetup (encodeSetup n name stream) = Some (mkSetup n name stream).
Proof.
  intros Hn [Hlo Hhi]. unfold UINT16_MAX in *. unfold encodeSetup. rewrite Nat.min_l by (unfold UINT16_MAX; lia).
  assert (Hu : is_u16 (Z.of_nat (str_size name))) by (unfold is_u16; lia). rewrite u16_small, Nat2Z.id by done.
  rewrite <- (length_chars name), take_ge by done. rewrite length_chars. set (k := Z.of_nat (str_size name)).
  unfold decodeSetup. pose proof (length_le_bytes 8 n) as H8.
  rewrite (proj2 (Nat.ltb_ge _ _)) by (rewrite length_app, H8; cbn; lia).
  rewrite take_app_length' by done. rewrite le_value_u64 by done.
  assert (L : forall x y rest, (le_bytes 8 n ++ x :: y :: rest) !! 8%nat = Some x /\
                               (le_bytes 8 n ++ x :: y :: rest) !! 9%nat = Some y).
  { intros x y rest. by rewrite !lookup_app_r, !H8 by lia. }
  cbn [app]. rewrite (proj1 (L _ _ _)), (proj2 (L _ _ _)). cbn [default from_option id].
  rewrite !to_integer_to_byte. rewrite (u8_small (Z.land k 255)), (u8_small (Z.shiftr k 8)).
  2:{ unfold is_u8, is_u16 in *. rewrite Z.shiftr_div_pow2 by lia. fold k in Hu. split; [apply Z.div_pos; lia|].
      apply Z.div_lt_upper_bound; lia. }
  2:{ change 255 with (Z.ones 8). rewrite Z.land_ones by lia. apply Z.mod_pos_bound. lia. }
  assert (Hk : Z.lor (Z.land k 255) (Z.shiftl (Z.shiftr k 8) 8) = k).
  { change 255 with (Z.ones 8). rewrite Z.land_ones by lia. rewrite lor_shift_add by (lia || apply Z.mod_pos_bound; lia).
    rewrite Z.shiftr_div_pow2 by lia. pose proof (Z.div_mod k (2 ^ 8)). lia. }
  assert (Hkn : Z.to_nat k = str_size name) by (unfold k; lia). rewrite Hk, Hkn.
  rewrite (proj2 (Nat.ltb_ge _ _)) by (rewrite length_app, H8; cbn [length]; rewrite length_app, length_chars; lia).
  rewrite (proj2 (Z.eqb_neq _ 0)) by (unfold k; lia). cbn [orb]. f_equal. f_equal.
  - change (le_bytes 8 n ++ _ :: _ :: chars name ++ stream)
      with (le_bytes 8 n ++ [to_byte (Z.land k 255); to_byte (Z.shiftr k 8)] ++ chars name ++ stream).
    rewrite app_assoc, slice_app_at by (rewrite ?length_app, ?H8, ?length_chars; done). apply string_of_chars.
  - change (le_bytes 8 n ++ _ :: _ :: chars name ++ stream)
      with (le_bytes 8 n ++ [to_byte (Z.land k 255); to_byte (Z.shiftr k 8)] ++ chars name ++ stream).
    rewrite !app_assoc. apply drop_app_length'. rewrite !length_app, H8, length_chars. done.
Qed.

(** ** A region of 256 bytes *)

Definition sample_region : Region := mkRegion 4096 "/s0p" (replicate 256 x00).
Definition sample_side : State := (shm_offer (new_strategy 1024) (Some sample_region)).1.
Definition sample_send (p : Payload) (scope : Z) : ShmCall := CSend None p 1 scope.
Definition sample_content (n : nat) (b : byte) : Payload := inlineBytes (replicate n b).

Lemma sample_side_created : created_side sample_side sample_region.
Proof. left. by exists 1024. Qed.

(** Two requests' inputs and an in-place buffer; the first request ends. *)
Definition sample_calls : list ShmCall :=
  [sample_send (sample_content 70 x01) 5; CAllocate 10; sample_send (sample_content 3 x02) 6; CEndScope 5].

Lemma shm_blocks_partition_region_witness :
  bytesInUse (shm_calls sample_side sample_calls) = 128 /\
  free (arena (shm_calls sample_side sample_calls)) = [(0, 128)] /\
  bytesInUse (shm_calls sample_side sample_calls) = msum size (blocks (arena (shm_calls sample_side sample_calls))).
Proof.
  split; [vm_compute; reflexivity|]. split; [vm_compute; reflexivity|].
  destruct (shm_blocks_partition_region sample_side sample_region sample_calls) as (_ & _ & H & _).
  - apply sample_side_created.
  - unfold sample_calls. repeat (apply Forall_cons; split); [vm_compute; discriminate|done|vm_compute; discriminate|done|].
    by apply Forall_nil.
  - vm_compute. reflexivity.
  - exact H.
Defined.

Definition sample_peer (s : State) : State := set_peer (own s) (new_strategy 1024).

(** What the sender does between its send and the peer's look. *)
Definition sample_after : list ShmCall :=
  [CAllocate 10; sample_send (sample_content 3 x02) 6; CEndScope 6; CReceive [] 3].
Definition sample_sent : State :=
  match shm_send None sample_side (sample_content 70 x01) 1 5 with Some (s, _, _) => s | None => sample_side end.

Lemma shm_delivers_witness : exists received release,
  shm_send None sample_side (sample_content 70 x01) 1 5 =
    Some (sample_sent, [], Expected (in_region_reference 1 0 70)) /\
  shm_receive (sample_peer (shm_calls sample_sent sample_after)) (in_region_reference 1 0 70) 7 =
    (sample_peer (shm_calls sample_sent sample_after), Expected (received, release)) /\
  bytes received = replicate 70 x01.
Proof.
  assert (Hsend : shm_send None sample_side (sample_content 70 x01) 1 5 =
    Some (sample_sent, [], Expected (in_region_reference 1 0 70))) by (vm_compute; reflexivity).
  destruct (shm_delivers sample_side sample_region [] None (sample_content 70 x01) 1 5 sample_sent [] 1 0 70 sample_after
              (sample_peer (shm_calls sample_sent sample_after)) 7) as (received & release & Hr & _ & Hb).
  - apply sample_side_created.
  - apply Forall_nil. done.
  - unfold sample_after. repeat (apply Forall_cons; split); [done|vm_compute; discriminate|done|done|]. by apply Forall_nil.
  - vm_compute. reflexivity.
  - vm_compute. reflexivity.
  - reflexivity.
  - vm_compute. discriminate.
  - vm_compute. reflexivity.
  - vm_compute. split; [discriminate|reflexivity].
  - vm_compute. split; [discriminate|reflexivity].
  - vm_compute. split; [discriminate|reflexivity].
  - exact Hsend.
  - vm_compute. repeat (split; [eexists; reflexivity|]). done.
  - reflexivity.
  - exists received, release. split; [exact Hsend|]. split; [exact Hr|exact Hb].
Defined.

Lemma shm_receive_bounded_witness : exists p release,
  shm_receive (sample_peer sample_sent) (in_region_reference 1 0 70) 7 =
    (sample_peer sample_sent, Expected (p, release)) /\
  exists r, peer (sample_peer sample_sent) = Some r /\ zlen (bytes p) <= rsize r.
Proof.
  assert (Hr : shm_receive (sample_peer sample_sent) (in_region_reference 1 0 70) 7 =
    (sample_peer sample_sent, Expected (view (replicate 70 x01) (Some 7%positive), None))) by (vm_compute; reflexivity).
  do 2 eexists. split; [exact Hr|].
  destruct (proj1 (shm_receive_bounded _ _ _) _ _ _ Hr) as [(r & id & o & n & Hp & _ & Ho & _ & _ & Hle & Hn & _)|(rest & f & Hbad & _)].
  - exists r. split; [exact Hp|]. unfold is_u64 in Ho. lia.
  - exfalso. discriminate Hbad.
Defined.

(** The rounding of a size wraps around: a request for the largest size is given
    one 64-byte block. *)
Example allocate_size_wraps : aligned (2 ^ 64 - 1) = 64.
Proof. vm_compute. reflexivity. Qed.
