(* ===== verification/ShmHolds.v ===== *)
(** How long a side keeps what it has sent through shared memory: a block that the
    peer was given in a request's scope stays until the request ends or the peer
    releases it, whatever else the side does meanwhile. *)
From S2P Require Import Prelude Types Bytes Payload Stream SharedMemory ShmInv ShmCorrect.

(** ** Counting a block's place in the scopes *)

Definition count_id (id : Z) (l : list Z) : Z := zlen (filter (fun x => x = id) l).
Definition count_in (id : Z) (c : gmap Z (list Z)) : Z := map_fold (fun _ l acc => count_id id l + acc) 0 c.
(** In the scopes of other requests. *)
Definition elsewhere (id scope : Z) (c : gmap Z (list Z)) : Z := count_in id (delete scope c).

Lemma count_id_nonneg id l : 0 <= count_id id l.
Proof. apply zlen_nonneg. Qed.
Lemma count_id_snoc id l x : count_id id (l ++ [x]) = count_id id l + if decide (x = id) then 1 else 0.
Proof. unfold count_id. rewrite filter_app, zlen_app. cbn. by case_decide. Qed.
Lemma count_id_cons id x l : count_id id (x :: l) = (if decide (x = id) then 1 else 0) + count_id id l.
Proof. unfold count_id. rewrite filter_cons. case_decide; unfold zlen; cbn [length]; lia. Qed.

Lemma count_in_insert id c sc l : c !! sc = None -> count_in id (<[sc := l]> c) = count_id id l + count_in id c.
Proof. intros H. unfold count_in. rewrite map_fold_insert_L; [done| |done]. intros; lia. Qed.
Lemma count_in_delete id c sc l : c !! sc = Some l -> count_in id c = count_id id l + count_in id (delete sc c).
Proof. intros H. rewrite <- (count_in_insert id (delete sc c) sc) by apply lookup_delete_eq. by rewrite insert_delete_id. Qed.
Lemma count_in_replace id c sc l : count_in id (<[sc := l]> c) = count_id id l + count_in id (delete sc c).
Proof. rewrite <- insert_delete_eq. apply count_in_insert, lookup_delete_eq. Qed.
Lemma count_in_split id c sc : count_in id c = count_id id (default [] (c !! sc)) + count_in id (delete sc c).
Proof. destruct (c !! sc) as [l|] eqn:E; [by apply count_in_delete|]. by rewrite delete_id. Qed.
Lemma count_in_nonneg id c : 0 <= count_in id c.
Proof.
  induction c as [|sc l c Hc IH] using map_ind; [unfold count_in; by rewrite map_fold_empty|].
  rewrite count_in_insert by done. pose proof (count_id_nonneg id l). lia.
Qed.
Lemma elsewhere_le id scope c : 0 <= elsewhere id scope c <= count_in id c.
Proof.
  split; [apply count_in_nonneg|]. rewrite (count_in_split id c scope). pose proof (count_id_nonneg id (default [] (c !! scope))).
  unfold elsewhere. lia.
Qed.

Lemma elsewhere_push id scope sc i c : elsewhere id scope (push_scope sc i c) =
  elsewhere id scope c + if decide (i = id /\ sc <> scope) then 1 else 0.
Proof.
  unfold elsewhere, push_scope. destruct (decide (sc = scope)) as [->|Hne].
  - rewrite delete_insert_eq, decide_False by (by intros []). lia.
  - rewrite delete_insert_ne, count_in_replace, count_id_snoc, (count_in_split id (delete scope c) sc) by done.
    rewrite lookup_delete_ne by done. repeat case_decide; try lia; exfalso; naive_solver.
Qed.
Lemma elsewhere_delete id scope sc c : sc <> scope -> elsewhere id scope (delete sc c) = elsewhere id scope c - count_id id (default [] (c !! sc)).
Proof.
  intros Hne. unfold elsewhere. rewrite delete_delete, (count_in_split id (delete scope c) sc), lookup_delete_ne by done. lia.
Qed.

(** ** A held block *)

(** The peer holds the block for the request, beyond what other requests hold. *)
Definition held (id scope : Z) (s : State) : Prop :=
  exists b, blocks (arena s) !! id = Some b /\ elsewhere id scope (scopes s) < peerHolds b.

Lemma held_block id scope s : held id scope s -> is_Some (blocks (arena s) !! id).
Proof. intros (b & Hb & _). by exists b. Qed.

Lemma held_same id scope s s' : blocks (arena s') !! id = blocks (arena s) !! id -> scopes s' = scopes s -> held id scope s -> held id scope s'.
Proof. intros Hb Hs (b & H1 & H2). exists b. by rewrite Hb, Hs. Qed.

Lemma release_other i id a : i <> id -> blocks (releaseIfUnused i a) !! id = blocks a !! id.
Proof.
  intros Hne. unfold releaseIfUnused. destruct (blocks a !! i); [|done]. destruct (_ || _); [done|].
  destruct (free_emplace _ _ _) as [f []]; cbn; by rewrite lookup_delete_ne.
Qed.
Lemma release_held id a b : blocks a !! id = Some b -> peerHolds b <> 0 -> releaseIfUnused id a = a.
Proof. intros Hb Hp. unfold releaseIfUnused. rewrite Hb, (proj2 (Z.eqb_neq (peerHolds b) 0)) by done. by rewrite orb_true_r. Qed.

Lemma dropPeerHold_other i id a : i <> id -> blocks (dropPeerHold i a) !! id = blocks a !! id.
Proof.
  intros Hne. unfold dropPeerHold. destruct (blocks a !! i); [|done]. destruct (_ =? 0); [done|].
  rewrite release_other by done. by apply lookup_insert_ne.
Qed.
Lemma dropPeerHold_here id a b : blocks a !! id = Some b -> 1 < peerHolds b ->
  blocks (dropPeerHold id a) !! id = Some (with_holds b (localRefs b) (peerHolds b - 1)).
Proof.
  intros Hb Hp. unfold dropPeerHold. rewrite Hb, (proj2 (Z.eqb_neq _ 0)) by lia.
  rewrite (release_held id _ (with_holds b (localRefs b) (peerHolds b - 1))); cbn; [by rewrite lookup_insert_eq|by rewrite lookup_insert_eq|lia].
Qed.
Lemma dropPeerHolds id l a b : blocks a !! id = Some b -> count_id id l < peerHolds b ->
  exists b', blocks (foldl (fun a i => dropPeerHold i a) a l) !! id = Some b' /\ peerHolds b' = peerHolds b - count_id id l.
Proof.
  revert a b. induction l as [|i l IH]; intros a b Hb Hc; cbn [foldl].
  - exists b. split; [done|]. unfold count_id, zlen. cbn. lia.
  - rewrite count_id_cons in Hc |- *. pose proof (count_id_nonneg id l). case_decide as E.
    + subst i. destruct (IH _ _ (dropPeerHold_here id a b Hb ltac:(lia)) ltac:(cbn; lia)) as (b' & Hb' & Hp). exists b'. split; [done|]. cbn in Hp. lia.
    + destruct (IH (dropPeerHold i a) b) as (b' & Hb' & Hp); [by rewrite dropPeerHold_other|lia|]. exists b'. split; [done|lia].
Qed.
Lemma dropLocal_holds i id a b : blocks a !! id = Some b -> peerHolds b <> 0 ->
  exists b', blocks (dropLocal i a) !! id = Some b' /\ peerHolds b' = peerHolds b.
Proof.
  intros Hb Hp. unfold dropLocal. destruct (blocks a !! i) as [bi|] eqn:Ei; [|by exists b]. destruct (_ =? 0); [by exists b|].
  destruct (decide (i = id)) as [->|Hne].
  - rewrite Hb in Ei. injection Ei as <-. rewrite (release_held id _ (with_holds b (localRefs b - 1) (peerHolds b))); [|by cbn; rewrite lookup_insert_eq|done].
    cbn. rewrite lookup_insert_eq. by eexists.
  - rewrite release_other by done. cbn. rewrite lookup_insert_ne by done. by exists b.
Qed.

Lemma hold_block_scopes s i b sc : scopes (hold_block s i b sc) = (if bool_decide (role s = kCoordinator) then push_scope sc i (scopes s) else scopes s).
Proof. unfold hold_block. cbn. by destruct (bool_decide _). Qed.

(** Holding a block, this one or another, for any request. *)
Lemma hold_keeps id scope s i b sc : held id scope s -> blocks (arena s) !! i = Some b -> 0 <= peerHolds b < 2 ^ 32 - 1 ->
  held id scope (hold_block s i b sc).
Proof.
  intros (x & Hx & Hlt) Hi Hp. destruct (hold_block_same s i b sc) as (Hb & _). pose proof (hold_block_scopes s i b sc) as Hsc.
  pose proof (elsewhere_push id scope sc i (scopes s)) as He. unfold held. rewrite Hb, Hsc.
  destruct (decide (i = id)) as [->|Hne].
  - rewrite Hx in Hi. injection Hi as ->. rewrite lookup_insert_eq. eexists. split; [done|]. cbn. rewrite u32_small by (unfold is_u32; lia).
    destruct (bool_decide _); [rewrite He; case_decide|]; lia.
  - rewrite lookup_insert_ne by done. exists x. split; [done|]. destruct (bool_decide _); [|done]. rewrite He, decide_False by (by intros []). lia.
Qed.

(** ** What ends a hold *)

(** Neither the request's end, nor a release of the block, nor the connection's end. *)
Definition spares (id scope : Z) (c : ShmCall) : Prop :=
  match c with
  | CEndScope sc => sc <> scope
  | CFrame _ _ body _ => ~ (length body = 9%nat /\ to_integer (default x00 (head body)) = kRelease /\ le_value (slice body 1 8) = id)
  | CClosed => False
  | _ => True
  end.

Lemma held_set_arena id scope s a : blocks a !! id = blocks (arena s) !! id -> held id scope s -> held id scope (set_arena a s).
Proof. intros H. by apply held_same. Qed.

Lemma send_keeps_held cap k s takes p address sc s' frames r id scope : side_ok cap k s -> k + 2 < 2 ^ 32 -> held id scope s ->
  shm_send takes s p address sc = Some (s', frames, r) -> held id scope s'.
Proof.
  intros Hs Hk Hh. unfold shm_send. destruct (byAddress (arena s) !! address) as [i|] eqn:Ea.
  - destruct Hs as (x & Hx & _ & Ha). destruct (ao_address _ _ _ _ Ha address i Ea) as (b & Hb & _).
    destruct (ao_blocks _ _ _ _ Ha i b Hb) as (Hi & _ & _ & _ & _ & _ & Hp). rewrite (proj2 (Z.eqb_neq i 0)), Hb by lia. intros [= <- _ _].
    cbn [andb]. apply (hold_keeps id scope (set_arena (arena s) s)); [by apply held_set_arena|done|lia].
  - pose proof (allocate_side cap k s (zlen (bytes p)) Hs ltac:(lia)) as Hal.
    destruct (allocateBlock (own s) (arena s) (zlen (bytes p))) as [a i]. destruct Hal as [_ [[-> ->]|(b & Hpos & Hnone & Hbs & _ & _ & _ & Hp)]].
    + cbn. destruct (Stream.send takes (fallback s) p) as [[[f fr] [st|e]]|]; [| |done]; intros [= <- _ _]; exact Hh.
    + rewrite (proj2 (Z.eqb_neq i 0)), Hbs, lookup_insert_eq by lia. intros [= <- _ _].
      assert (Hhold : held id scope (hold_block (set_arena a s) i b sc)).
      { apply hold_keeps; [|by cbn; rewrite Hbs, lookup_insert_eq|lia]. apply held_set_arena; [|done]. rewrite Hbs. apply lookup_insert_ne.
        intros ->. destruct Hh as (x & Hx & _). congruence. }
      by destruct (bool_decide (bytes p = [])).
Qed.

Lemma allocate_keeps_held cap k s n id scope : side_ok cap k s -> k + 2 < 2 ^ 32 -> held id scope s -> held id scope (shm_allocate s n).1.
Proof.
  intros Hs Hk Hh. unfold shm_allocate. destruct (n =? 0); [done|]. destruct (own s) as [r|] eqn:Eo; [|done]. rewrite <- Eo.
  pose proof (allocate_side cap k s n Hs ltac:(lia)) as Hal.
  destruct (allocateBlock (own s) (arena s) n) as [a i]. destruct Hal as [_ [[-> ->]|(b & Hpos & Hnone & Hbs & _)]]; [exact Hh|].
  rewrite (proj2 (Z.eqb_neq i 0)), Hbs, lookup_insert_eq by lia.
  assert (i <> id) by (intros ->; destruct Hh as (x & Hx & _); congruence).
  apply (held_same id scope s); [|done|done]. cbn. by rewrite Hbs, !lookup_insert_ne.
Qed.

Lemma call_keeps_held cap k s c id scope : side_ok cap k s -> k + 2 < 2 ^ 32 -> spares id scope c -> held id scope s -> held id scope (shm_call s c).
Proof.
  intros Hs Hk Hc Hh.
  destruct c as [takes p addr sc|n|i|fresh ho body owner|reference lease|sc|l opened| |]; cbn [shm_call]; try done.
  - destruct (shm_send takes s p addr sc) as [[[s' fr] r]|] eqn:E; [|done]. by eapply send_keeps_held.
  - by eapply allocate_keeps_held.
  - destruct Hh as (b & Hb & Hlt). pose proof (elsewhere_le id scope (scopes s)).
    destruct (dropLocal_holds i id (arena s) b Hb ltac:(lia)) as (b' & Hb' & Hp). exists b'. split; [done|]. by rewrite Hp.
  - unfold shm_onPayloadFrame. destruct ((length body =? 9)%nat && _) eqn:E; [|done]. apply andb_true_iff in E as [E1%Nat.eqb_eq E2%Z.eqb_eq].
    apply held_set_arena; [|done]. apply dropPeerHold_other. intros Ei. by apply Hc.
  - unfold shm_receive. destruct reference as [|kd rest]; [done|]. destruct (_ =? kStreamed); [by destruct (Stream.receive _ _)|].
    destruct (_ || _); [done|]. destruct (peer s); [|done]. by destruct (_ || _).
  - unfold endScope. destruct (scopes s !! sc) as [ids|] eqn:Es; [|done]. destruct Hh as (b & Hb & Hlt).
    assert (He : elsewhere id scope (delete sc (scopes s)) = elsewhere id scope (scopes s) - count_id id ids) by (rewrite elsewhere_delete, Es; done).
    pose proof (elsewhere_le id scope (delete sc (scopes s))).
    destruct (dropPeerHolds id ids (arena s) b Hb ltac:(lia)) as (b' & Hb' & Hp). exists b'. cbn [arena set_scopes set_arena scopes].
    split; [exact Hb'|]. lia.
  - unfold shm_complete. destruct (decodeSetup l); [|done]. destruct opened; [|done]. by destruct (Stream.complete _ _) as [f []].
Qed.

(** A held block stays. *)
Lemma held_stays cap k s calls id scope : side_ok cap k s -> Forall call_ok calls -> k + zlen calls + 2 < 2 ^ 32 ->
  Forall (spares id scope) calls -> held id scope s -> stays id s calls.
Proof.
  intros Hs Hc. revert k s Hs. induction Hc as [|c calls Hc Hcs IH]; intros k s Hs Hk Hsp Hh; [done|]. inversion_clear Hsp as [|? ? Hsc Hscs].
  unfold zlen in Hk. cbn [length] in Hk. pose proof (call_keeps_held cap k s c id scope Hs ltac:(lia) Hsc Hh) as Hh'. split; [by eapply held_block|].
  apply (IH (k + 1)); [by apply shm_call_ok; [|lia|]|unfold zlen; lia|done|done].
Qed.

(** ** What a send holds *)

(** The scopes name blocks that were handed out. *)
Definition scopes_known (s : State) : Prop := forall sc ids, scopes s !! sc = Some ids -> Forall (fun id => id < nextBlock (arena s)) ids.

Lemma known_count s id : scopes_known s -> nextBlock (arena s) <= id -> count_in id (scopes s) = 0.
Proof.
  intros Hk Hid. unfold scopes_known in Hk. induction (scopes s) as [|sc l c Hc IH] using map_ind; [unfold count_in; by rewrite map_fold_empty|].
  rewrite count_in_insert, IH by first [done|intros sc' ids H; apply (Hk sc'); rewrite lookup_insert_ne; [done|by intros ->; rewrite Hc in H]].
  pose proof (Hk sc l (lookup_insert_eq _ _ _)) as Hl. unfold count_id.
  assert (E : filter (fun x => x = id) l = []); [|by rewrite E].
  clear Hk IH Hc. induction Hl as [|x l Hx _ IH]; [done|]. by rewrite filter_cons_False by lia.
Qed.
Lemma allocateBlock_id o a n a' id : allocateBlock o a n = (a', id) -> id = 0 /\ a' = a \/ id = nextBlock a /\ nextBlock a' = u64 (id + 1).
Proof. unfold allocateBlock. destruct o; [|intros [= <- <-]; by left]. destruct (first_fit _ _) as [[]|]; intros [= <- <-]; [by right|by left]. Qed.

Lemma known_mono s s' : scopes_known s -> scopes s' = scopes s -> nextBlock (arena s) <= nextBlock (arena s') -> scopes_known s'.
Proof. intros H Hs Hn sc ids Hsc. rewrite Hs in Hsc. eapply Forall_impl; [by eapply H|]. cbn. intros. lia. Qed.
Lemma known_hold s i b sc : scopes_known s -> i < nextBlock (arena s) -> scopes_known (hold_block s i b sc).
Proof.
  intros H Hi sc' ids. rewrite hold_block_scopes.
  replace (nextBlock (arena (hold_block s i b sc))) with (nextBlock (arena s)) by (unfold hold_block; by destruct (bool_decide _)).
  destruct (bool_decide _); [|apply H]. unfold push_scope. destruct (decide (sc' = sc)) as [->|].
  - rewrite lookup_insert_eq. intros [= <-]. apply Forall_app. split; [|by constructor].
    destruct (scopes s !! sc) as [l|] eqn:E; [by eapply H|constructor].
  - rewrite lookup_insert_ne by done. apply H.
Qed.

Lemma release_next i a : nextBlock (releaseIfUnused i a) = nextBlock a.
Proof. unfold releaseIfUnused. repeat case_match; done. Qed.
Lemma dropPeerHold_next i a : nextBlock (dropPeerHold i a) = nextBlock a.
Proof. unfold dropPeerHold. repeat case_match; try done. by rewrite release_next. Qed.
Lemma dropLocal_next i a : nextBlock (dropLocal i a) = nextBlock a.
Proof. unfold dropLocal. repeat case_match; try done. by rewrite release_next. Qed.
Lemma drops_next {B} (f : Arena -> B -> Arena) l a : (forall a x, nextBlock (f a x) = nextBlock a) -> nextBlock (foldl f a l) = nextBlock a.
Proof. intros H. revert a. induction l as [|x l IH]; intros a; [done|]. cbn. by rewrite IH, H. Qed.

Lemma allocate_next cap k s n a id : side_ok cap k s -> k + 2 < 2 ^ 64 -> allocateBlock (own s) (arena s) n = (a, id) ->
  nextBlock (arena s) <= nextBlock a /\ (id <> 0 -> id = nextBlock (arena s) /\ id < nextBlock a).
Proof.
  intros (x & Hx & _ & Ha) Hk E. pose proof (ao_next _ _ _ _ Ha).
  destruct (allocateBlock_id _ _ _ _ _ E) as [[-> ->]|[-> Hn]]; [split; [lia|done]|].
  rewrite Hn, u64_small by (unfold is_u64; lia). lia.
Qed.

Lemma known_send cap k s takes p address sc s' frames r : side_ok cap k s -> k + 2 < 2 ^ 32 -> scopes_known s ->
  shm_send takes s p address sc = Some (s', frames, r) -> scopes_known s'.
Proof.
  intros Hs Hk Hh. unfold shm_send. destruct (byAddress (arena s) !! address) as [i|] eqn:Ea.
  - destruct Hs as (x & Hx & _ & Ha). destruct (ao_address _ _ _ _ Ha address i Ea) as (b & Hb & _).
    destruct (ao_blocks _ _ _ _ Ha i b Hb) as (Hi & _). rewrite (proj2 (Z.eqb_neq i 0)), Hb by lia. intros [= <- _ _].
    by apply (known_hold (set_arena (arena s) s)); [|cbn; lia].
  - destruct (allocateBlock (own s) (arena s) (zlen (bytes p))) as [a i] eqn:Eal.
    destruct (allocate_next cap k s _ a i Hs ltac:(lia) Eal) as [Hn Hid]. assert (Hks : scopes_known (set_arena a s)) by by apply (known_mono s).
    destruct (Z.eqb_spec i 0) as [->|Hi].
    + cbn. destruct (Stream.send takes (fallback s) p) as [[[f fr] [st|e]]|]; [| |done]; intros [= <- _ _]; exact Hks.
    + destruct (blocks a !! i) as [b|]; [|done]. intros [= <- _ _]. assert (Hkh : scopes_known (hold_block (set_arena a s) i b sc)).
      { apply known_hold; [done|]. cbn. lia. }
      by destruct (bool_decide (bytes p = [])).
Qed.

Lemma known_call cap k s c : side_ok cap k s -> k + 2 < 2 ^ 32 -> scopes_known s -> scopes_known (shm_call s c).
Proof.
  intros Hs Hk Hh.
  destruct c as [takes p addr sc|n|i|fresh ho body owner|reference lease|sc|l opened| |]; cbn [shm_call]; try done.
  - destruct (shm_send takes s p addr sc) as [[[s' fr] r]|] eqn:E; [|done]. by eapply known_send.
  - unfold shm_allocate. destruct (n =? 0); [done|]. destruct (own s) as [r|] eqn:Eo; [|done]. rewrite <- Eo.
    destruct (allocateBlock (own s) (arena s) n) as [a i] eqn:Eal. destruct (allocate_next cap k s n a i Hs ltac:(lia) Eal) as [Hn _].
    destruct (i =? 0); [by apply (known_mono s)|]. destruct (blocks a !! i); by apply (known_mono s).
  - apply (known_mono s); [done|done|]. cbn. rewrite dropLocal_next. lia.
  - unfold shm_onPayloadFrame. destruct (_ && _); [|done]. apply (known_mono s); [done|done|]. cbn. rewrite dropPeerHold_next. lia.
  - unfold shm_receive. destruct reference as [|kd rest]; [done|]. destruct (_ =? kStreamed); [by destruct (Stream.receive _ _)|].
    destruct (_ || _); [done|]. destruct (peer s); [|done]. by destruct (_ || _).
  - unfold endScope. destruct (scopes s !! sc) as [ids|] eqn:Es; [|done]. intros sc' ids'. cbn. intros [_ H]%lookup_delete_Some.
    rewrite drops_next by (intros; apply dropPeerHold_next). by eapply Hh.
  - unfold shm_complete. destruct (decodeSetup l); [|done]. destruct opened; [|done]. by destruct (Stream.complete _ _) as [f []].
Qed.

(** The block that a send names is held for its request, a new one or one in which
    the payload was written, of which no more was released than was held. *)
Lemma send_holds_copy cap k s takes p address scope s' frames id o n : side_ok cap k s -> k + 2 < 2 ^ 32 -> scopes_known s ->
  byAddress (arena s) !! address = None -> is_u64 id -> is_u64 o -> is_u64 n -> cap < 2 ^ 64 -> zlen (bytes p) <= 2 ^ 64 - 64 ->
  shm_send takes s p address scope = Some (s', frames, Expected (in_region_reference id o n)) -> held id scope s'.
Proof.
  intros Hs Hk Hkn Ha Hid Ho Hn Hcap Hp. unfold shm_send. rewrite Ha.
  destruct (allocateBlock (own s) (arena s) (zlen (bytes p))) as [a i] eqn:Eal.
  destruct (allocate_next cap k s _ a i Hs ltac:(lia) Eal) as [_ Hnext].
  pose proof (allocate_side cap k s (zlen (bytes p)) Hs ltac:(lia)) as Hal. rewrite Eal in Hal.
  destruct Hal as [(x & Hx & _ & Hok) [[-> ->]|(b & Hpos & Hnone & Hbs & _ & _ & _ & Hp0)]].
  - cbn. destruct (Stream.send takes (fallback s) p) as [[[f fr] [st|e]]|]; by try intros [= _ _ E].
  - assert (Hb : blocks a !! i = Some b) by by rewrite Hbs, lookup_insert_eq.
    rewrite (proj2 (Z.eqb_neq i 0)), Hb by lia. intros Hsend.
    assert (Href : in_region_reference i (offset b) (zlen (bytes p)) = in_region_reference id o n) by congruence.
    assert (Hs' : arena s' = arena (hold_block (set_arena a s) i b scope) /\ scopes s' = scopes (hold_block (set_arena a s) i b scope)).
    { injection Hsend as <- _ _. by destruct (bool_decide (bytes p = [])). }
    destruct (ao_blocks _ _ _ _ Hok i b Hb) as (Hi & Hsz & _). pose proof (ao_next _ _ _ _ Hok). pose proof (block_in_region _ _ _ _ _ _ Hok Hb).
    pose proof (zlen_nonneg (bytes p)). cbn [arena set_arena] in *.
    destruct (reference_inj i (offset b) (zlen (bytes p)) id o n) as (-> & _ & _); [unfold is_u64; lia..|done|done|done|done|].
    destruct Hs' as [E1 E2]. unfold held. rewrite E1, E2, hold_block_scopes. destruct (hold_block_same (set_arena a s) id b scope) as (-> & _).
    rewrite lookup_insert_eq. eexists. split; [done|]. cbn. rewrite Hp0. pose proof (elsewhere_le id scope (scopes s)).
    rewrite (known_count s id Hkn ltac:(destruct (Hnext ltac:(lia)); lia)) in *.
    destruct (bool_decide (role s = kCoordinator)); [rewrite elsewhere_push, decide_False by (by intros [])|]; change (u32 (0 + 1)) with 1; lia.
Qed.

Lemma send_holds_in_place cap k s takes p address scope s' frames id o n b : side_ok cap k s -> k + 2 < 2 ^ 32 ->
  byAddress (arena s) !! address = Some id -> blocks (arena s) !! id = Some b -> count_in id (scopes s) <= peerHolds b ->
  shm_send takes s p address scope = Some (s', frames, Expected (in_region_reference id o n)) -> held id scope s'.
Proof.
  intros (x & Hx & _ & Ha) Hk Hadr Hb Hc. unfold shm_send. rewrite Hadr.
  destruct (ao_blocks _ _ _ _ Ha id b Hb) as (Hi & _ & _ & _ & _ & _ & Hp). rewrite (proj2 (Z.eqb_neq id 0)), Hb by lia. intros [= <- _ _].
  cbn [andb]. unfold held. rewrite hold_block_scopes. destruct (hold_block_same (set_arena (arena s) s) id b scope) as (-> & _).
  rewrite lookup_insert_eq. eexists. split; [done|]. cbn. rewrite u32_small by (unfold is_u32; lia). pose proof (elsewhere_le id scope (scopes s)).
  destruct (bool_decide (role s = kCoordinator)); [rewrite elsewhere_push, decide_False by (by intros [])|]; lia.
Qed.
