(* ===== verification/Strategies.v ===== *)
(** What a payload strategy promises a connection (IPayloadStrategy of
    include/sub0pipeline/remote/strategy.hpp), and that streaming, the store and
    shared memory keep it: whatever else both ends do, a reference resolves to the
    payload it was sent as, once the frames sent before it have arrived. *)
From S2P Require Import Prelude Types Bytes Payload Stream SharedMemory ShmInv ShmCorrect.

(** ** The interface *)

(** What an end is asked to do. [takes] answers for the connection's sender,
    [address] is where the payload's bytes lie; what remains of an implementation's
    interface is [C]. *)
Inductive Act (C : Type) : Type :=
  | ASend (takes : option (list (list byte) -> bool)) (payload : Payload) (address scope : Z)
  | AFrame (fresh : nat -> list byte) (heap_owner : positive) (body : list byte) (owner : option positive)
  | AReceive (reference : list byte) (lease : positive)
  | AOther (c : C).
Arguments ASend {C} takes payload address scope.
Arguments AFrame {C} fresh heap_owner body owner.
Arguments AReceive {C} reference lease.
Arguments AOther {C} c.

Abbreviation Sent T := (option (T * list (list byte) * expected (list byte) PipelineError)).

(** [strategy_sees near far] is the far end with the memory it shares with the near
    one as that is now. *)
Class IPayloadStrategy (T C : Type) := {
  strategy_name : string;
  strategy_send : option (list (list byte) -> bool) -> T -> Payload -> Z -> Z -> Sent T;
  strategy_receive : T -> list byte -> positive -> T * expected Payload PipelineError;
  strategy_frame : (nat -> list byte) -> positive -> T -> list byte -> option positive -> T;
  strategy_other : T -> C -> T;
  strategy_sees : T -> T -> T
}.

Section acts.
Context {T C : Type} `{IPayloadStrategy T C}.

Definition end_act (s : T) (a : Act C) : T :=
  match a with
  | ASend takes p address scope => match strategy_send takes s p address scope with Some (s', _, _) => s' | None => s end
  | AFrame fresh ho body owner => strategy_frame fresh ho s body owner
  | AReceive ref lease => (strategy_receive s ref lease).1
  | AOther c => strategy_other s c
  end.
Definition acts (s : T) (l : list (Act C)) : T := foldl end_act s l.
(** The far end, each time with what the near end was. *)
Definition far_acts (t : T) (l : list (T * Act C)) : T := foldl (fun t e => end_act (strategy_sees e.1 t) e.2) t l.

(** What operator new returns has the size asked for; a size leaves room for
    rounding it up. *)
Definition end_fits (a : Act C) : Prop :=
  match a with
  | ASend _ p _ _ => zlen (bytes p) <= 2 ^ 64 - 64
  | AFrame fresh _ _ _ => forall n, length (fresh n) = n
  | _ => True
  end.
Definition arrival (a : Act C) : option (list byte) := match a with AFrame _ _ body _ => Some body | _ => None end.
Definition arrivals (l : list (T * Act C)) : list (list byte) := omap (fun e => arrival e.2) l.
End acts.

(** The contract. A reference may be tagged: it then depends on the frames with its
    tag, and resolves once. [strategy_keeps] says that nothing the near end does or is
    told ends what a reference names, made for a request's scope. *)
Class StrategyContract (T C : Type) `{IPayloadStrategy T C} := {
  strategy_limit : Z;
  strategy_ok : Z -> T -> Prop;                   (* after so many acts *)
  strategy_fresh : T -> Prop;                     (* an end that has received nothing *)
  strategy_holds : T -> Payload -> Z -> Prop;     (* the payload's bytes lie at the address *)
  strategy_keeps : list byte -> Z -> list (Act C) -> Prop;
  frame_tag : list byte -> option Z;
  ref_tag : list byte -> option Z;
  next_tag : T -> Z;
  strategy_acts : forall k s a, strategy_ok k s -> k < strategy_limit -> end_fits a -> strategy_ok (k + 1) (end_act s a);
  tag_next : forall k s a, strategy_ok k s -> k < strategy_limit -> end_fits a -> next_tag s <= next_tag (end_act s a);
  send_returns : forall k takes s p address scope, strategy_ok k s -> k < strategy_limit -> zlen (bytes p) <= 2 ^ 64 - 64 ->
    is_Some (strategy_send takes s p address scope);
  send_tags : forall k takes s p address scope s' frames r, strategy_ok k s -> k < strategy_limit -> zlen (bytes p) <= 2 ^ 64 - 64 ->
    strategy_send takes s p address scope = Some (s', frames, r) ->
    Forall (fun f => frame_tag f = Some (next_tag s)) frames /\
    (next_tag s < next_tag s' /\ (forall ref, r = Expected ref -> ref_tag ref = Some (next_tag s)) \/
     frames = [] /\ (forall ref, r = Expected ref -> ref_tag ref = None));
  send_resolves : forall k takes s p address scope s' frames ref later t seen near lease,
    strategy_ok k s -> k + zlen later + 1 < strategy_limit -> kind p = kInline -> zlen (bytes p) <= 2 ^ 64 - 64 ->
    strategy_holds s p address ->
    strategy_send takes s p address scope = Some (s', frames, Expected ref) ->
    Forall end_fits later -> strategy_keeps ref scope later -> near = acts s' later ->
    strategy_fresh t -> Forall (fun e => end_fits e.2) seen ->
    (ref_tag ref <> None -> filter (fun f => frame_tag f = Some (next_tag s)) (arrivals seen) = frames) ->
    (ref_tag ref <> None -> Forall (fun e => forall ref' l, e.2 = AReceive ref' l -> ref_tag ref' <> ref_tag ref) seen) ->
    exists t' p', strategy_receive (strategy_sees near (far_acts t seen)) ref lease = (t', Expected p') /\ p' ≡ p
}.

(** ** One direction of a connection *)

(** A send that was answered with a reference: the payload, how many frames had been
    sent when it was done, the end it left, and what that end did since. *)
Record Entry (T C : Type) := mkEntry { e_ref : list byte; e_payload : Payload; e_scope : Z; e_mark : nat; e_left : T; e_since : list (Act C) }.
Arguments mkEntry {T C}. Arguments e_ref {T C}. Arguments e_payload {T C}. Arguments e_scope {T C}. Arguments e_mark {T C}.
Arguments e_left {T C}. Arguments e_since {T C}.

Section lane.
Context {T C : Type} `{StrategyContract T C}.

(** The two ends, the frames sent, how many of them have arrived, the sends, and what
    the far end saw. *)
Record Lane := mkLane {
  near : T; far : T; wire : list (list byte); arrived : nat;
  entries : list (Entry T C); seen : list (T * Act C)
}.

(** The near end does anything, whatever arrives at it; the next frame arrives at the
    far end; or the far end does anything else. *)
Inductive LaneMove : Type :=
  | LNear (a : Act C) | LArrive (fresh : nat -> list byte) (heap_owner : positive) (owner : option positive) | LFar (a : Act C).

Definition lane_begin (s t : T) : Lane := mkLane s t [] 0 [] [].

Definition age (a : Act C) (e : Entry T C) : Entry T C := mkEntry (e_ref e) (e_payload e) (e_scope e) (e_mark e) (e_left e) (e_since e ++ [a]).
Definition far_step (a : Act C) (n : nat) (l : Lane) : Lane :=
  mkLane (near l) (end_act (strategy_sees (near l) (far l)) a) (wire l) n (entries l) (seen l ++ [(near l, a)]).

Definition lane_move (m : LaneMove) (l : Lane) : option Lane :=
  match m with
  | LNear (ASend takes p address scope as a) =>
      match strategy_send takes (near l) p address scope with
      | Some (s', frames, r) =>
          let w := wire l ++ frames in
          let new := match r with Expected ref => [mkEntry ref p scope (length w) s' []] | Unexpected _ => [] end in
          Some (mkLane s' (far l) w (arrived l) ((age a <$> entries l) ++ new) (seen l))
      | None => None
      end
  | LNear a => Some (mkLane (end_act (near l) a) (far l) (wire l) (arrived l) (age a <$> entries l) (seen l))
  | LArrive fresh ho owner => f ← wire l !! arrived l; Some (far_step (AFrame fresh ho f owner) (S (arrived l)) l)
  | LFar (AFrame _ _ _ _) => None
  | LFar a => Some (far_step a (arrived l) l)
  end.
Fixpoint lane_moves (ms : list LaneMove) (l : Lane) : option Lane :=
  match ms with [] => Some l | m :: ms => l ← lane_move m l; lane_moves ms l end.

Definition move_fits (m : LaneMove) (l : Lane) : Prop :=
  match m with
  | LNear (ASend _ p address _ as a) => end_fits a /\ kind p = kInline /\ strategy_holds (near l) p address
  | LNear a | LFar a => end_fits a
  | LArrive fresh _ _ => forall n, length (fresh n) = n
  end.
Fixpoint moves_fit (ms : list LaneMove) (l : Lane) : Prop :=
  match ms with
  | [] => True
  | m :: ms => move_fits m l /\ forall l', lane_move m l = Some l' -> moves_fit ms l'
  end.

Record entry_ok (k : Z) (l : Lane) (e : Entry T C) : Prop := {
  en_send : exists k0 s takes address frames pre post,
    strategy_ok k0 s /\ k0 + zlen (e_since e) + 1 <= k /\ kind (e_payload e) = kInline /\ zlen (bytes (e_payload e)) <= 2 ^ 64 - 64 /\
    strategy_holds s (e_payload e) address /\
    strategy_send takes s (e_payload e) address (e_scope e) = Some (e_left e, frames, Expected (e_ref e)) /\
    wire l = pre ++ frames ++ post /\ length (pre ++ frames) = e_mark e /\
    (ref_tag (e_ref e) <> None -> next_tag s < next_tag (near l) /\ Forall (fun f => frame_tag f <> Some (next_tag s)) (pre ++ post));
  en_since : near l = acts (e_left e) (e_since e);
  en_fits : Forall end_fits (e_since e)
}.

Record lane_inv (t0 : T) (k : Z) (l : Lane) : Prop := {
  li_near : strategy_ok k (near l);
  li_far : far l = far_acts t0 (seen l);
  li_arrived : arrivals (seen l) = take (arrived l) (wire l) /\ (arrived l <= length (wire l))%nat;
  li_seen : Forall (fun x => end_fits x.2) (seen l);
  li_wire : Forall (fun f => exists g, frame_tag f = Some g /\ g < next_tag (near l)) (wire l);
  li_entries : Forall (entry_ok k l) (entries l)
}.

(** The near end does something: the frames it sent have its tag, or a later one. *)
Lemma age_ok k l l' a e frames : entry_ok k l e -> end_fits a -> near l' = end_act (near l) a -> wire l' = wire l ++ frames ->
  next_tag (near l) <= next_tag (near l') -> Forall (fun f => frame_tag f = Some (next_tag (near l))) frames -> entry_ok (k + 1) l' (age a e).
Proof.
  intros [(k0 & s & takes & address & fr & pre & post & H1 & H2 & H3 & H4 & H5 & H6 & H7 & H8 & H9) Hs Hf] Ha Hn Hw Hle Ht.
  split; cbn.
  - exists k0, s, takes, address, fr, pre, (post ++ frames). rewrite Hw, H7, zlen_app. change (zlen [a]) with 1.
    repeat (split; [done || lia|]). split; [by rewrite <- !app_assoc|]. split; [done|]. intros Hr. destruct (H9 Hr) as [Hlt Hne]. split; [lia|].
    rewrite app_assoc. apply Forall_app. split; [done|]. eapply Forall_impl; [exact Ht|]. cbn. intros f ->. intros [=]. lia.
  - unfold acts in *. by rewrite foldl_app, <- Hs.
  - apply Forall_app. by repeat constructor.
Qed.

Lemma far_ok t0 k l a n : lane_inv t0 k l -> end_fits a -> arrivals (seen l ++ [(near l, a)]) = take n (wire l) -> (n <= length (wire l))%nat -> lane_inv t0 k (far_step a n l).
Proof.
  intros [H1 H2 H3 H4 H5 H6] Ha Hn Hle. split; cbn; try done.
  - unfold far_acts in *. by rewrite foldl_app, <- H2.
  - apply Forall_app. by repeat constructor.
  - eapply Forall_impl; [exact H6|]. intros e [(k0 & s & takes & address & fr & pre & post & Hx) Hs Hf]. split; [|done..].
    by exists k0, s, takes, address, fr, pre, post.
Qed.

Lemma wire_older a b (w frames : list (list byte)) : a <= b ->
  Forall (fun f => exists g, frame_tag f = Some g /\ g < a) w -> Forall (fun f => exists g, frame_tag f = Some g /\ g < b) frames ->
  Forall (fun f => exists g, frame_tag f = Some g /\ g < b) (w ++ frames).
Proof. intros Hab Hw Hf. apply Forall_app. split; [|done]. eapply Forall_impl; [exact Hw|]. intros f (g & ? & ?). exists g. split; [done|lia]. Qed.

(** An act of the near end that sends nothing. *)
Lemma near_ok t0 k l a : lane_inv t0 k l -> k < strategy_limit -> end_fits a ->
  lane_inv t0 (k + 1) (mkLane (end_act (near l) a) (far l) (wire l) (arrived l) (age a <$> entries l) (seen l)).
Proof.
  intros [H1 H2 H3 H4 H5 H6] Hk Ha. pose proof (tag_next _ _ _ H1 Hk Ha) as Hn. split; cbn; try done.
  - by apply strategy_acts.
  - rewrite <- (app_nil_r (wire l)). by eapply wire_older.
  - apply Forall_fmap. eapply Forall_impl; [exact H6|]. intros e He. cbn. eapply (age_ok k l _ a e []); [done..|by rewrite app_nil_r|done|done].
Qed.

Lemma sending_ok t0 k l takes p address scope s' frames r : lane_inv t0 k l -> k < strategy_limit ->
  zlen (bytes p) <= 2 ^ 64 - 64 -> kind p = kInline -> strategy_holds (near l) p address ->
  strategy_send takes (near l) p address scope = Some (s', frames, r) ->
  lane_inv t0 (k + 1) (mkLane s' (far l) (wire l ++ frames) (arrived l)
    ((age (ASend takes p address scope) <$> entries l) ++
     match r with Expected ref => [mkEntry ref p scope (length (wire l ++ frames)) s' []] | Unexpected _ => [] end) (seen l)).
Proof.
  intros [H1 H2 H3 H4 H5 H6] Hk Hp Hkind Hh Hs. pose (a := ASend takes p address scope : Act C).
  assert (Hact : end_act (near l) a = s') by (cbn; by rewrite Hs).
  pose proof (tag_next _ _ a H1 Hk Hp) as Hn. rewrite Hact in Hn.
  destruct (send_tags _ _ _ _ _ _ _ _ _ H1 Hk Hp Hs) as [Htags Hcase].
  assert (Hnew : Forall (fun f => exists g, frame_tag f = Some g /\ g < next_tag s') frames).
  { destruct Hcase as [[Hlt _]|[-> _]]; [|done]. eapply Forall_impl; [exact Htags|]. cbn. eauto. }
  split; cbn; try done.
  - rewrite <- Hact. by apply strategy_acts.
  - destruct H3 as [H3 Hle]. rewrite take_app_le by done. split; [done|]. rewrite length_app. lia.
  - by eapply wire_older.
  - apply Forall_app. split.
    + apply Forall_fmap. eapply Forall_impl; [exact H6|]. intros e He. cbn. by eapply (age_ok k l _ a e frames).
    + destruct r as [ref|]; [|done]. constructor; [|done]. split; cbn; [|done..].
      exists k, (near l), takes, address, frames, (wire l), []. change (zlen []) with 0. rewrite !app_nil_r. repeat (split; [done || lia|]).
      intros Hr. destruct Hcase as [[Hlt _]|[_ Hno]]; [|by rewrite (Hno ref) in Hr]. split; [done|].
      eapply Forall_impl; [exact H5|]. intros f (g & -> & ?) [=]. lia.
Qed.

Lemma lane_move_ok t0 k m l l' : lane_inv t0 k l -> k < strategy_limit -> move_fits m l -> lane_move m l = Some l' ->
  exists k', k' <= k + 1 /\ lane_inv t0 k' l'.
Proof.
  intros Hl Hk Hf Hm.
  assert (Hfar : forall a, end_fits a -> arrival a = None -> lane_inv t0 k (far_step a (arrived l) l)).
  { intros a Ha Hn. apply far_ok; [done|done| |apply (li_arrived _ _ _ Hl)].
    unfold arrivals. rewrite omap_app. cbn. rewrite Hn, app_nil_r. apply (li_arrived _ _ _ Hl). }
  pose proof (fun a => near_ok t0 k l a Hl Hk) as Hnear.
  destruct m as [a|fresh ho owner|a]; cbn in Hm.
  - destruct a as [takes p address scope| | |];
      try (injection Hm as <-; exists (k + 1); split; [lia|]; match goal with |- context [age ?a] => exact (Hnear a Hf) end).
    destruct Hf as (Hf & Hkind & Hh). destruct (strategy_send _ _ _ _ _) as [[[s' frames] r]|] eqn:Es; [|done]. injection Hm as <-.
    exists (k + 1). split; [lia|]. by apply sending_ok.
  - apply bind_Some in Hm as (f & Ef & [= <-]). exists k. split; [lia|]. apply far_ok; [done|done| |by apply lookup_lt_Some in Ef].
    unfold arrivals. rewrite omap_app. cbn. fold (arrivals (seen l)). rewrite (proj1 (li_arrived _ _ _ Hl)). symmetry. by apply take_S_r.
  - exists k. split; [lia|]. destruct a; try done; injection Hm as <-; by apply Hfar.
Qed.

Lemma lane_moves_ok t0 ms k l l' : lane_inv t0 k l -> k + zlen ms < strategy_limit -> moves_fit ms l -> lane_moves ms l = Some l' ->
  exists k', k' <= k + zlen ms /\ lane_inv t0 k' l'.
Proof.
  revert k l. induction ms as [|m ms IH]; intros k l Hl Hk Hf Hm; cbn in Hm.
  - injection Hm as <-. exists k. split; [unfold zlen; cbn; lia|done].
  - apply bind_Some in Hm as (l1 & H1 & H2). destruct Hf as [Hf1 Hf2]. unfold zlen in *. cbn [length] in *.
    destruct (lane_move_ok t0 k m l l1 Hl ltac:(lia) Hf1 H1) as (k1 & Hk1 & Hl1).
    destruct (IH k1 l1 Hl1 ltac:(lia) (Hf2 _ H1) H2) as (k2 & Hk2 & Hl2). exists k2. split; [lia|done].
Qed.

Lemma lane_begin_ok s t : strategy_ok 0 s -> lane_inv t 0 (lane_begin s t).
Proof. intros Hs. by split; cbn. Qed.

(** Of the frames that have arrived, those with an entry's tag are its own, all of them. *)
Lemma entry_frames k (l : Lane) (e : Entry T C) frames pre post : wire l = pre ++ frames ++ post -> length (pre ++ frames) = e_mark e ->
  (e_mark e <= arrived l)%nat -> arrivals (seen l) = take (arrived l) (wire l) ->
  Forall (fun f => frame_tag f <> Some k) (pre ++ post) -> Forall (fun f => frame_tag f = Some k) frames ->
  filter (fun f => frame_tag f = Some k) (arrivals (seen l)) = frames.
Proof.
  intros Hw Hm Ha -> [Hpre Hpost]%Forall_app Hf. rewrite Hw, app_assoc, take_app_ge by lia.
  assert (Hno : forall w, Forall (fun f => frame_tag f <> Some k) w -> filter (fun f => frame_tag f = Some k) w = []).
  { induction 1 as [|x w Hx _ IH]; [done|]. by rewrite filter_cons_False. }
  assert (Hyes : forall w, Forall (fun f => frame_tag f = Some k) w -> filter (fun f => frame_tag f = Some k) w = w).
  { induction 1 as [|x w Hx _ IH]; [done|]. by rewrite filter_cons_True, IH. }
  rewrite !filter_app, (Hno pre), (Hyes frames), (Hno (take _ post)) by (done || by apply Forall_take). by rewrite app_nil_r.
Qed.

(** However the two ends go on sending, receiving, allocating and releasing, and
    whatever the far end sends back, once the frames that were sent before a reference
    have arrived it resolves there to the payload it was made for, as long as its
    request lasts at the near end and, if it depends on frames, for the first time. *)
Definition references_resolve : Prop := forall ms s t l e lease,
  strategy_ok 0 s -> strategy_fresh t -> zlen ms + 1 < strategy_limit -> moves_fit ms (lane_begin s t) ->
  lane_moves ms (lane_begin s t) = Some l -> e ∈ entries l -> (e_mark e <= arrived l)%nat ->
  strategy_keeps (e_ref e) (e_scope e) (e_since e) ->
  (ref_tag (e_ref e) <> None -> Forall (fun x => forall ref' lease, x.2 = AReceive ref' lease -> ref_tag ref' <> ref_tag (e_ref e)) (seen l)) ->
  exists t' p, strategy_receive (strategy_sees (near l) (far l)) (e_ref e) lease = (t', Expected p) /\ p ≡ e_payload e.

Lemma contract_resolves : references_resolve.
Proof.
  intros ms s t l e lease Hs Ht Hk Hf Hm He Ha Hkeep Honce.
  destruct (lane_moves_ok t ms 0 _ l (lane_begin_ok s t Hs) ltac:(lia) Hf Hm) as (k & Hk' & [H1 H2 H3 H4 H5 H6]).
  rewrite Forall_forall in H6. destruct (H6 e He) as [(k0 & s0 & takes & address & frames & pre & post & E1 & E2 & E3 & E4 & E5 & E6 & E7 & E8 & E9) Hsince Hfits].
  pose proof (zlen_nonneg (e_since e)). rewrite H2.
  eapply (send_resolves k0 takes s0 (e_payload e) address (e_scope e) (e_left e) frames (e_ref e) (e_since e) t (seen l)); try done; [lia|].
  intros Htag. destruct (E9 Htag) as [_ Hne]. eapply entry_frames; [exact E7|exact E8|exact Ha|apply H3|exact Hne|].
  exact (proj1 (send_tags _ _ _ _ _ _ _ _ _ E1 ltac:(lia) E4 E6)).
Qed.
End lane.
Arguments Lane : clear implicits.
Arguments LaneMove : clear implicits.
Arguments references_resolve T C {_ _}.
