(* ===== verification/StrategyKept.v ===== *)
(** The three strategies keep the contract of Strategies: streaming
    (src/remote/stream_strategy.cpp), the store (src/remote/store_strategy.cpp) and
    shared memory with its fallback (src/remote/shared_memory.cpp). *)
From S2P Require Import Prelude Types Bytes Payload Stream SharedMemory ShmInv ShmCorrect ShmHolds Strategies.

(** ** Streams among other traffic *)

Definition stream_frame_tag (body : list byte) : option Z :=
  if (length body <? kChunkHeader)%nat || negb (to_integer (default x00 (head body)) =? kChunk) then None else Some (stream_of body).
Definition stream_ref_tag (ref : list byte) : option Z := if (length ref =? 8)%nat then Some (le_value ref) else None.

Lemma chunk_tag n t o chunk : is_u64 n -> is_u64 t -> is_u64 o -> stream_frame_tag (chunk_header n t o ++ chunk) = Some n.
Proof.
  intros Hn Ht Ho. destruct (chunk_fields n t o chunk Hn Ht Ho) as (H1 & H2 & _). unfold stream_frame_tag. by rewrite H1, H2.
Qed.

Lemma other_frame n fresh ho s body owner : stream_frame_tag body <> Some n ->
  partial_ (onPayloadFrame fresh ho s body owner) !! n = partial_ s !! n /\ complete_ (onPayloadFrame fresh ho s body owner) !! n = complete_ s !! n.
Proof.
  intros Hne. destruct ((length body <? kChunkHeader)%nat || negb (to_integer (default x00 (head body)) =? kChunk)) eqn:E.
  - unfold onPayloadFrame. by rewrite E.
  - apply other_stream. intros Hs. apply Hne. unfold stream_frame_tag. by rewrite E, Hs.
Qed.

Lemma other_receive n s ref : stream_ref_tag ref <> Some n ->
  partial_ (Stream.receive s ref).1 !! n = partial_ s !! n /\ complete_ (Stream.receive s ref).1 !! n = complete_ s !! n.
Proof.
  unfold stream_ref_tag, Stream.receive. destruct (length ref =? 8)%nat; cbn; [|done]. intros Hne.
  destruct (complete_ s !! le_value ref); cbn; [|done]. split; [done|]. apply lookup_delete_ne. congruence.
Qed.

(** What [send] takes from the payload: chunks of its stream, all of them if it is
    answered with a reference. *)
Lemma send_loop_frames takes c n bytes : 0 < c -> is_u64 n -> is_u64 (zlen bytes) -> forall fuel offset sent l ok,
  (offset <= length bytes)%nat -> (offset = 0 \/ offset < length bytes)%nat ->
  send_loop takes fuel c n bytes offset sent = Some (l, ok) ->
  exists frames, l = sent ++ frames /\ Forall (fun f => stream_frame_tag f = Some n) frames /\ (ok = true -> chunks_from n bytes offset frames).
Proof.
  intros Hc Hn Hb. induction fuel as [|fuel IH]; intros offset sent l ok Ho Hz; cbn [send_loop]; [done|].
  set (k := Nat.min (Z.to_nat c) (length bytes - offset)). destruct (takes _); cbn [negb concat]; [|intros [= <- <-]; exists []; by rewrite app_nil_r].
  rewrite app_nil_r. set (f := chunk_header n (zlen bytes) (Z.of_nat offset) ++ slice bytes offset k).
  assert (Hf : stream_frame_tag f = Some n) by (apply chunk_tag; unfold is_u64, zlen in *; [done|done|lia]).
  destruct (Nat.ltb_spec (offset + k) (length bytes)) as [Hlt|Hge].
  - intros H. apply IH in H as (frames & -> & Ht & Hch); [|lia..]. exists (f :: frames). rewrite <- app_assoc.
    split; [done|]. split; [by constructor|]. intros E. constructor; [lia|done|by apply Hch].
  - intros [= <- <-]. exists [f]. split; [done|]. split; [by constructor|]. intros _. unfold f, slice.
    rewrite take_ge by (rewrite length_drop; lia). by constructor.
Qed.
Lemma send_loop_ends takes c n bytes : 0 < c -> forall fuel offset sent, (length bytes - offset < fuel)%nat ->
  is_Some (send_loop takes fuel c n bytes offset sent).
Proof.
  intros Hc. induction fuel as [|fuel IH]; intros offset sent Hf; [lia|]. cbn [send_loop].
  destruct (negb _); [by eexists|]. destruct (Nat.ltb_spec (offset + Nat.min (Z.to_nat c) (length bytes - offset)) (length bytes)); [|by eexists].
  apply IH. lia.
Qed.

Lemma stream_send_spec takes s p : 0 < chunkBytes_ s -> 1 <= nextStream_ s < 2 ^ 64 - 1 -> zlen (bytes p) <= 2 ^ 64 - 64 ->
  exists frames r, Stream.send takes s p = Some (mkStream (chunkBytes_ s) (nextStream_ s + 1) (partial_ s) (complete_ s), frames, r) /\
    Forall (fun f => stream_frame_tag f = Some (nextStream_ s)) frames /\
    (forall ref, r = Expected ref -> ref = le_bytes 8 (nextStream_ s) /\ chunks_from (nextStream_ s) (bytes p) 0 frames).
Proof.
  intros Hc Hn Hp. unfold Stream.send. rewrite u64_small by (unfold is_u64; lia). destruct takes as [takes|]; [|by do 2 eexists].
  destruct (send_loop_ends takes (chunkBytes_ s) (nextStream_ s) (bytes p) Hc (S (length (bytes p))) 0 []) as [[l ok] E]; [lia|]. rewrite E.
  assert (Hl : is_u64 (zlen (bytes p))) by (pose proof (zlen_nonneg (bytes p)); unfold is_u64; lia).
  assert (Hs : is_u64 (nextStream_ s)) by (unfold is_u64; lia).
  destruct (send_loop_frames _ _ _ _ Hc Hs Hl _ _ _ _ _ (Nat.le_0_l _) (or_introl eq_refl) E) as (frames & -> & Ht & Hch).
  destruct ok; do 2 eexists; (split; [done|]); (split; [done|]); intros ref [=]; split; [done|by apply Hch].
Qed.

(** A stream's chunks arrive in order, in whatever is done to the state that holds
    the streams: its payload is complete. *)
Section through.
Context {T E : Type} (step : T -> E -> T) (streams : T -> StreamStrategy) (body_of : E -> option (list byte)) (quiet : E -> Prop).
Context (n : Z) (content : list byte) (n_range : is_u64 n) (content_range : is_u64 (zlen content)).
Definition tag_of (e : E) : option Z := b ← body_of e; stream_frame_tag b.
Context (Hother : forall t e, quiet e -> tag_of e <> Some n ->
  partial_ (streams (step t e)) !! n = partial_ (streams t) !! n /\ complete_ (streams (step t e)) !! n = complete_ (streams t) !! n).
Context (Hours : forall t e b, quiet e -> body_of e = Some b -> stream_frame_tag b = Some n ->
  exists fresh ho owner, (forall k, length (fresh k) = k) /\ streams (step t e) = onPayloadFrame fresh ho (streams t) b owner).
Abbreviation mine es := (filter (fun b => stream_frame_tag b = Some n) (omap body_of es)).
Abbreviation has_it s := (completed n content s).

Lemma others_through es t : Forall quiet es -> mine es = [] -> has_it (streams t) -> has_it (streams (foldl step t es)).
Proof.
  intros Hq. revert t. induction Hq as [|e es He Hq IH]; intros t Hm Hc; [done|]. cbn in *.
  assert (Ht : tag_of e <> Some n /\ mine es = []).
  { unfold tag_of. destruct (body_of e) as [b|]; [|done]. cbn. rewrite filter_cons in Hm. by case_decide. }
  apply IH; [apply Ht|]. destruct Hc as (p & Hp & ?). exists p. by rewrite (proj2 (Hother t e He (proj1 Ht))).
Qed.

Lemma chunks_through frames offset : chunks_from n content offset frames -> forall es t, Forall quiet es -> mine es = frames ->
  got n content (streams t) offset -> has_it (streams (foldl step t es)).
Proof.
  induction 1 as [offset Ho Hz|offset k frames Hk Hlt Hch IH]; intros es t Hq; revert t;
    (induction Hq as [|e es He Hq IHe]; [done|]); intros t Hm Hg; cbn [omap list_omap] in Hm; cbn [foldl].
  all: destruct (body_of e) as [b|] eqn:Eb; [|apply IHe; [done|]; unfold got in *;
    by rewrite (proj1 (Hother t e He ltac:(unfold tag_of; by rewrite Eb)))].
  all: rewrite filter_cons in Hm; case_decide as Ht; [|apply IHe; [done|]; unfold got in *;
    by rewrite (proj1 (Hother t e He ltac:(unfold tag_of; by rewrite Eb)))].
  all: injection Hm as -> Hm; destruct (Hours t e _ He Eb Ht) as (fresh & ho & owner & Hfr & Es).
  - apply others_through; [done..|]. rewrite Es. by apply final_chunk.
  - apply IH; [done..|]. rewrite Es. by apply middle_chunk.
Qed.
End through.

(** ** Streaming *)

#[export] Instance stream_strategy : IPayloadStrategy StreamStrategy Empty_set := {|
  strategy_name := "stream";
  strategy_send takes s p _ _ := Stream.send takes s p;
  strategy_receive s ref _ := Stream.receive s ref;
  strategy_frame fresh ho s body owner := onPayloadFrame fresh ho s body owner;
  strategy_other s (c : Empty_set) := match c with end;
  strategy_sees _ far := far |}.

Lemma frame_keeps_stream fresh ho s body owner : chunkBytes_ (onPayloadFrame fresh ho s body owner) = chunkBytes_ s /\
  nextStream_ (onPayloadFrame fresh ho s body owner) = nextStream_ s.
Proof. unfold onPayloadFrame, take_chunk. repeat case_match; done. Qed.
Lemma receive_keeps_stream s ref : chunkBytes_ (Stream.receive s ref).1 = chunkBytes_ s /\ nextStream_ (Stream.receive s ref).1 = nextStream_ s.
Proof. unfold Stream.receive. repeat case_match; done. Qed.

(** A stream strategy after [k] acts. *)
Definition stream_ok (k : Z) (s : StreamStrategy) : Prop := 0 < chunkBytes_ s /\ 0 <= k /\ 1 <= nextStream_ s <= 1 + k.

Lemma stream_act k s a : stream_ok k s -> k < 2 ^ 64 - 2 -> end_fits a -> stream_ok (k + 1) (end_act s a) /\ nextStream_ s <= nextStream_ (end_act s a).
Proof.
  intros (Hc & H0 & Hn) Hk Ha. unfold stream_ok. destruct a as [takes p address scope|fresh ho body owner|ref lease|[]]; cbn -[Z.pow].
  - destruct (stream_send_spec takes s p Hc ltac:(lia) Ha) as (frames & r & -> & _). cbn -[Z.pow]. lia.
  - destruct (frame_keeps_stream fresh ho s body owner) as [-> ->]. lia.
  - destruct (receive_keeps_stream s ref) as [-> ->]. lia.
Qed.

(** The stream's reference at an end whose streams hold it. *)
Lemma completed_resolves n content s : is_u64 n -> completed n content s ->
  exists s' p, Stream.receive s (le_bytes 8 n) = (s', Expected p) /\ kind p = kInline /\ bytes p = content.
Proof.
  intros Hn (p & Hp & Hk & Hb). unfold Stream.receive. rewrite length_le_bytes, le_value_u64, Hp by done. cbn. by do 2 eexists.
Qed.
Lemma stream_ref_tagged n : is_u64 n -> stream_ref_tag (le_bytes 8 n) = Some n.
Proof. intros Hn. unfold stream_ref_tag. by rewrite length_le_bytes, le_value_u64. Qed.

(** What leaves the stream's entries alone, or is its next frame. *)
Definition apart {T C} (tag : list byte -> option Z) (n : Z) (e : T * Act C) : Prop :=
  end_fits e.2 /\ forall ref l, e.2 = AReceive ref l -> tag ref <> Some n.
Lemma all_apart {T C} tag n (l : list (T * Act C)) : Forall (fun e => end_fits e.2) l ->
  Forall (fun e => forall ref lease, e.2 = AReceive ref lease -> tag ref <> Some n) l -> Forall (apart tag n) l.
Proof. intros H1 H2. apply Forall_and. by split. Qed.

Lemma send_keeps_streams takes s p s' frames r : Stream.send takes s p = Some (s', frames, r) -> partial_ s' = partial_ s /\ complete_ s' = complete_ s.
Proof. unfold Stream.send. repeat case_match; try done; by intros [= <- _ _]. Qed.
Lemma stream_apart n t (e : StreamStrategy * Act Empty_set) : apart stream_ref_tag n e -> tag_of (fun e => arrival e.2) e <> Some n ->
  partial_ (end_act (strategy_sees e.1 t) e.2) !! n = partial_ t !! n /\ complete_ (end_act (strategy_sees e.1 t) e.2) !! n = complete_ t !! n.
Proof.
  destruct e as [s [takes p address scope|fresh ho body owner|ref lease|[]]]; intros [_ Ha] Hn; cbn in *.
  - destruct (Stream.send takes t p) as [[[s' fr] r]|] eqn:E; [|done]. by destruct (send_keeps_streams _ _ _ _ _ _ E) as [-> ->].
  - by apply other_frame.
  - by apply other_receive, (Ha ref lease).
Qed.

#[export, refine] Instance stream_contract : StrategyContract StreamStrategy Empty_set := {|
  strategy_limit := 2 ^ 64 - 2; strategy_ok := stream_ok; strategy_fresh s := partial_ s = ∅;
  strategy_holds _ _ _ := True; strategy_keeps _ _ _ := True;
  frame_tag := stream_frame_tag; ref_tag := stream_ref_tag; next_tag := nextStream_ |}.
Proof.
  - intros k s a Hs Hk Ha. by apply stream_act.
  - intros k s a Hs Hk Ha. by eapply stream_act.
  - intros k takes s p address scope (Hc & H0 & Hn) Hk Hp. cbn. destruct (stream_send_spec takes s p Hc ltac:(lia) Hp) as (frames & r & -> & _).
    by eexists.
  - intros k takes s p address scope s' frames r (Hc & H0 & Hn) Hk Hp. cbn.
    destruct (stream_send_spec takes s p Hc ltac:(lia) Hp) as (fr & res & -> & Ht & Hr). intros [= <- <- <-]. cbn -[Z.pow]. split; [done|]. left.
    split; [lia|]. intros ref E. destruct (Hr ref E) as [-> _]. apply stream_ref_tagged. unfold is_u64. lia.
  - intros k takes s p address scope s' frames ref later t seen near lease (Hc & H0 & Hn) Hk Hkind Hp _ Hs Hlater _ -> Ht Hseen Htag Honce.
    pose proof (zlen_nonneg later). cbn in Hs, Htag, Honce. destruct (stream_send_spec takes s p Hc ltac:(lia) Hp) as (fr & res & E & Hfr & Hr).
    rewrite E in Hs. injection Hs as <- <- ->. destruct (Hr ref eq_refl) as [-> Hch].
    assert (Hn64 : is_u64 (nextStream_ s)) by (unfold is_u64; lia).
    rewrite stream_ref_tagged in Htag, Honce by done. specialize (Htag ltac:(done)). specialize (Honce ltac:(done)).
    assert (Hdone : completed (nextStream_ s) (bytes p) (far_acts t seen)).
    { unfold far_acts. eapply (chunks_through _ id (fun e => arrival e.2) (apart stream_ref_tag (nextStream_ s))); [..|exact Hch| |exact Htag|].
      - done.
      - pose proof (zlen_nonneg (bytes p)). unfold is_u64. lia.
      - intros t0 e. apply stream_apart.
      - intros t0 [s0 a] b [Ha _] Eb _. destruct a; try done. injection Eb as ->. by do 3 eexists.
      - by apply all_apart.
      - unfold got. cbn. by rewrite Ht. }
    destruct (completed_resolves _ _ _ Hn64 Hdone) as (t' & p' & Hrec & Hk' & Hb'). exists t', p'. split; [exact Hrec|].
    split; [unfold kind in *; congruence|done].
Defined.

(** ** The store *)

Section store.
(** The consumer's store gives back what was put. *)
Context (put get : list byte -> expected (list byte) PipelineError).
Context (put_get : forall b h, put b = Expected h -> get h = Expected b).

#[export] Instance store_strategy : IPayloadStrategy unit Empty_set := {|
  strategy_name := "store";
  strategy_send _ s p _ _ := Some (s, [], store_send put p);
  strategy_receive s ref _ := (s, store_receive get ref);
  strategy_frame _ _ s _ _ := s;
  strategy_other s _ := s;
  strategy_sees _ far := far |}.

#[export, refine] Instance store_contract : StrategyContract unit Empty_set := {|
  strategy_limit := 2 ^ 64; strategy_ok _ _ := True; strategy_fresh _ := True; strategy_holds _ _ _ := True;
  strategy_keeps _ _ _ := True; frame_tag _ := None; ref_tag _ := None; next_tag _ := 0 |}.
Proof.
  - done.
  - done.
  - by eexists.
  - intros k takes s p address scope s' frames r _ _ _ [= <- <- <-]. split; [done|]. by right.
  - intros k takes s p address scope s' frames ref later t seen near lease _ _ Hkind _ _ [= <- <- Hs] _ _ -> _ _ _ _. cbn.
    destruct (store_delivers put get p ref Hkind put_get Hs) as (q & Hq & Hpq). exists (far_acts t seen), q. by rewrite Hq.
Defined.
End store.

(** ** Shared memory *)

(** What else a side is asked: a buffer, the end of a request, the sender; and the
    last view of a payload goes. *)
Inductive ShmOther : Set := OAllocate (n : Z) | ODropLease (id : Z) | OEndScope (scope : Z) | OAttach.

Definition call_of (a : Act ShmOther) : ShmCall :=
  match a with
  | ASend takes p address scope => CSend takes p address scope
  | AFrame fresh ho body owner => CFrame fresh ho body owner
  | AReceive ref lease => CReceive ref lease
  | AOther (OAllocate n) => CAllocate n
  | AOther (ODropLease id) => CDropLease id
  | AOther (OEndScope scope) => CEndScope scope
  | AOther OAttach => CAttach
  end.

(** The payload, without the lease that [receive] ties to it. *)
Definition shm_received (s : State) (ref : list byte) (lease : positive) : State * expected Payload PipelineError :=
  let '(s, r) := shm_receive s ref lease in (s, match r with Expected (p, _) => Expected p | Unexpected e => Unexpected e end).

#[export] Instance shm_strategy : IPayloadStrategy State ShmOther := {|
  strategy_name := "shm";
  strategy_send := shm_send;
  strategy_receive := shm_received;
  strategy_frame := shm_onPayloadFrame;
  strategy_other s c := shm_call s (call_of (AOther c));
  strategy_sees near far := set_peer (own near) far |}.

Lemma end_is_call s a : end_act s a = shm_call s (call_of a).
Proof. destruct a as [| |ref lease|]; try done. cbn. unfold shm_received. by destruct (shm_receive s ref lease). Qed.
Lemma ends_are_calls s l : acts s l = shm_calls s (call_of <$> l).
Proof. revert s. induction l as [|a l IH]; intros s; [done|]. cbn. rewrite end_is_call. apply IH. Qed.

Definition shm_ref_tag (ref : list byte) : option Z :=
  match ref with kd :: rest => if to_integer kd =? kStreamed then stream_ref_tag rest else None | [] => None end.
(** A block lasts until its request ends, its release arrives, or the connection ends. *)
Definition shm_keeps (ref : list byte) (scope : Z) (later : list (Act ShmOther)) : Prop :=
  match ref with
  | kd :: _ => to_integer kd = kInRegion -> Forall (spares (le_value (slice ref 1 8)) scope) (call_of <$> later)
  | [] => True
  end.
(** A payload in a buffer that [allocate] gave is what was written there, and no more
    releases of it came than it was sent. *)
Definition shm_holds (s : State) (p : Payload) (address : Z) : Prop :=
  forall id, byAddress (arena s) !! address = Some id ->
    exists b r, blocks (arena s) !! id = Some b /\ own s = Some r /\ zlen (bytes p) <= size b /\
      block_bytes r b (length (bytes p)) = bytes p /\ count_in id (scopes s) <= peerHolds b.
Definition shm_ok (k : Z) (s : State) : Prop :=
  (exists cap, cap < 2 ^ 64 /\ side_ok cap k s) /\ scopes_known s /\ stream_ok k (fallback s).

Lemma shm_send_cases takes s p address scope s' frames r : shm_send takes s p address scope = Some (s', frames, r) ->
  (exists r0, Stream.send takes (fallback s) p = Some (fallback s', frames, r0) /\
     r = match r0 with Expected streamed => Expected (to_byte kStreamed :: streamed) | Unexpected e => Unexpected e end) \/
  (frames = [] /\ fallback s' = fallback s /\ exists id b, r = Expected (in_region_reference id (offset b) (zlen (bytes p)))).
Proof.
  unfold shm_send. destruct (match byAddress _ !! _ with Some _ => _ | None => _ end) as [[a id] copy].
  destruct (id =? 0).
  - cbn [fallback set_arena]. destruct (Stream.send takes (fallback s) p) as [[[f fr] [st|e]]|]; [| |done]; intros [= <- <- <-]; left; by eexists.
  - destruct (blocks a !! id) as [b|]; [|done]. intros [= <- <- <-]. right. split; [done|]. split; [|by eexists _, _].
    unfold hold_block. repeat case_match; done.
Qed.

Lemma shm_send_returns cap k takes s p address scope : side_ok cap k s -> stream_ok k (fallback s) -> k < 2 ^ 32 - 4 ->
  zlen (bytes p) <= 2 ^ 64 - 64 -> is_Some (shm_send takes s p address scope).
Proof.
  intros Hs (Hc & H0 & Hn) Hk Hp. unfold shm_send.
  destruct (stream_send_spec takes (fallback s) p Hc ltac:(lia) Hp) as (fr & r & Es & _).
  destruct (byAddress (arena s) !! address) as [id|] eqn:Ea.
  - destruct Hs as (x & Hx & _ & Ha). destruct (ao_address _ _ _ _ Ha address id Ea) as (b & Hb & _).
    destruct (ao_blocks _ _ _ _ Ha id b Hb) as (Hid & _). rewrite (proj2 (Z.eqb_neq id 0)), Hb by lia. by eexists.
  - pose proof (allocate_side cap k s (zlen (bytes p)) Hs ltac:(lia)) as Hal.
    destruct (allocateBlock (own s) (arena s) (zlen (bytes p))) as [a id]. destruct Hal as [_ [[-> _]|(b & Hpos & _ & Hbs & _)]].
    + cbn. rewrite Es. by destruct r; eexists.
    + rewrite (proj2 (Z.eqb_neq id 0)), Hbs, lookup_insert_eq by lia. by eexists.
Qed.

(** The fallback sees the acts that are its own. *)
Lemma shm_frame_cases fresh ho s body owner :
  fallback (shm_onPayloadFrame fresh ho s body owner) = onPayloadFrame fresh ho (fallback s) body owner \/
  fallback (shm_onPayloadFrame fresh ho s body owner) = fallback s /\ stream_frame_tag body = None.
Proof.
  unfold shm_onPayloadFrame. destruct (Nat.eqb_spec (length body) 9) as [E|]; [|by left]. cbn [andb].
  destruct (_ =? kRelease); [right|by left]. split; [done|]. unfold stream_frame_tag. by rewrite E.
Qed.
Lemma shm_received_fallback s ref lease : fallback (shm_received s ref lease).1 =
  match ref with kd :: rest => if to_integer kd =? kStreamed then (Stream.receive (fallback s) rest).1 else fallback s | [] => fallback s end.
Proof.
  unfold shm_received, shm_receive. destruct ref as [|kd rest]; [done|]. destruct (_ =? kStreamed).
  - by destruct (Stream.receive (fallback s) rest) as [f [q|e]].
  - destruct (_ || _); [done|]. destruct (peer s); [|done]. by destruct (_ || _).
Qed.
Lemma shm_other_fallback s c : fallback (shm_call s (call_of (AOther c))) = fallback s.
Proof.
  destruct c as [n|id|scope|]; cbn; try done.
  - unfold shm_allocate. repeat case_match; done.
  - unfold endScope. by case_match.
Qed.

Lemma stream_ok_mono k k' s : k <= k' -> stream_ok k s -> stream_ok k' s.
Proof. unfold stream_ok. lia. Qed.
Lemma shm_fallback_act k s (a : Act ShmOther) : stream_ok k (fallback s) -> k < 2 ^ 64 - 2 -> end_fits a ->
  stream_ok (k + 1) (fallback (end_act s a)) /\ nextStream_ (fallback s) <= nextStream_ (fallback (end_act s a)).
Proof.
  intros Hs Hk Ha. assert (Hsame : stream_ok (k + 1) (fallback s) /\ nextStream_ (fallback s) <= nextStream_ (fallback s)).
  { split; [|lia]. eapply stream_ok_mono; [|exact Hs]. lia. }
  destruct a as [takes p address scope|fresh ho body owner|ref lease|c]; cbn -[Z.pow shm_call call_of].
  - destruct (shm_send takes s p address scope) as [[[s' fr] r]|] eqn:E; [|done].
    destruct (shm_send_cases _ _ _ _ _ _ _ _ E) as [(r0 & Es & _)|(_ & -> & _)]; [|done].
    pose proof (stream_act k (fallback s) (ASend takes p address scope) Hs Hk Ha) as H. cbn -[Z.pow] in H. by rewrite Es in H.
  - destruct (shm_frame_cases fresh ho s body owner) as [->|[-> _]]; [|done].
    exact (stream_act k (fallback s) (AFrame fresh ho body owner) Hs Hk Ha).
  - rewrite shm_received_fallback. destruct ref as [|kd rest]; [done|]. destruct (_ =? kStreamed); [|done].
    exact (stream_act k (fallback s) (AReceive rest lease) Hs Hk I).
  - by rewrite shm_other_fallback.
Qed.

Lemma shm_apart n t (e : State * Act ShmOther) : apart shm_ref_tag n e -> tag_of (fun e => arrival e.2) e <> Some n ->
  partial_ (fallback (end_act (strategy_sees e.1 t) e.2)) !! n = partial_ (fallback t) !! n /\
  complete_ (fallback (end_act (strategy_sees e.1 t) e.2)) !! n = complete_ (fallback t) !! n.
Proof.
  destruct e as [s [takes p address scope|fresh ho body owner|ref lease|c]]; intros [_ Ha] Hn; cbn -[shm_call call_of] in *.
  - destruct (shm_send takes _ p address scope) as [[[s' fr] r]|] eqn:E; [|done].
    destruct (shm_send_cases _ _ _ _ _ _ _ _ E) as [(r0 & Es & _)|(_ & -> & _)]; [|done].
    by destruct (send_keeps_streams _ _ _ _ _ _ Es) as [-> ->].
  - destruct (shm_frame_cases fresh ho (set_peer (own s) t) body owner) as [->|[-> _]]; [|done]. by apply other_frame.
  - rewrite shm_received_fallback. specialize (Ha ref lease eq_refl). destruct ref as [|kd rest]; [done|]. cbn in Ha.
    destruct (_ =? kStreamed); [|done]. by apply other_receive.
  - by rewrite shm_other_fallback.
Qed.

Lemma shm_send_named cap k takes s p address scope s' frames r : side_ok cap k s -> cap < 2 ^ 64 -> k < 2 ^ 32 - 4 -> zlen (bytes p) <= 2 ^ 64 - 64 ->
  shm_send takes s p address scope = Some (s', frames, r) ->
  (exists r0, Stream.send takes (fallback s) p = Some (fallback s', frames, r0) /\
     r = match r0 with Expected streamed => Expected (to_byte kStreamed :: streamed) | Unexpected e => Unexpected e end) \/
  (frames = [] /\ fallback s' = fallback s /\ exists id o, is_u64 id /\ is_u64 o /\ r = Expected (in_region_reference id o (zlen (bytes p)))).
Proof.
  intros Hs Hcap Hk Hp.
  assert (Hnamed : forall base a id b, arena_ok base cap (k + 1) a -> blocks a !! id = Some b -> is_u64 id /\ is_u64 (offset b)).
  { intros base a id b Ha Hb. destruct (ao_blocks _ _ _ _ Ha id b Hb) as (Hid & Hsz & _). pose proof (ao_next _ _ _ _ Ha).
    pose proof (block_in_region _ _ _ _ _ _ Ha Hb). unfold is_u64. lia. }
  unfold shm_send. destruct (byAddress (arena s) !! address) as [id|] eqn:Ea.
  - destruct Hs as (x & Hx & _ & Ha). destruct (ao_address _ _ _ _ Ha address id Ea) as (b & Hb & _).
    destruct (ao_blocks _ _ _ _ Ha id b Hb) as (Hid & _). rewrite (proj2 (Z.eqb_neq id 0)), Hb by lia. intros [= <- <- <-]. right.
    split; [done|]. split; [unfold hold_block; by case_match|]. exists id, (offset b).
    destruct (Hnamed (rdata x) (arena s) id b); [eapply arena_ok_mono; [|exact Ha]; lia|done|done].
  - pose proof (allocate_side cap k s (zlen (bytes p)) Hs ltac:(lia)) as Hal.
    destruct (allocateBlock (own s) (arena s) (zlen (bytes p))) as [a id]. destruct Hal as [(x & Hx & _ & Ha) [[-> _]|(b & Hpos & _ & Hbs & _)]].
    + cbn. destruct (Stream.send takes (fallback s) p) as [[[f fr] [st|e]]|]; [| |done]; intros [= <- <- <-]; left; by eexists.
    + assert (Hb : blocks a !! id = Some b) by by rewrite Hbs, lookup_insert_eq.
      rewrite (proj2 (Z.eqb_neq id 0)), Hb by lia. intros [= <- <- <-]. right. split; [done|].
      split; [unfold hold_block; repeat case_match; done|]. exists id, (offset b). by destruct (Hnamed _ a id b Ha Hb).
Qed.

Lemma in_region_tag id o n : shm_ref_tag (in_region_reference id o n) = None.
Proof. done. Qed.

Lemma calls_fit (l : list (Act ShmOther)) : Forall end_fits l -> Forall call_ok (call_of <$> l).
Proof. intros H. apply Forall_fmap. eapply Forall_impl; [exact H|]. by intros [| | |[]]. Qed.

(** What [send] wrote in the region resolves there. *)
Lemma region_resolves k s takes p address scope s' frames id o later far lease :
  shm_ok k s -> k + zlen later + 1 < 2 ^ 32 - 8 -> kind p = kInline -> zlen (bytes p) <= 2 ^ 64 - 64 -> shm_holds s p address ->
  is_u64 id -> is_u64 o -> shm_send takes s p address scope = Some (s', frames, Expected (in_region_reference id o (zlen (bytes p)))) ->
  Forall end_fits later -> shm_keeps (in_region_reference id o (zlen (bytes p))) scope later ->
  exists t' p', shm_received (set_peer (own (acts s' later)) far) (in_region_reference id o (zlen (bytes p))) lease = (t', Expected p') /\ p' ≡ p.
Proof.
  intros [(cap & Hcap & Hs) [Hkn _]] Hk Hkind Hp Hh Hid Ho Hsend Hl Hkeep. pose proof (zlen_nonneg later). pose proof (zlen_nonneg (bytes p)).
  assert (Hn : is_u64 (zlen (bytes p))) by (unfold is_u64; lia).
  assert (Hs1 : side_ok cap (k + 1) s') by (eapply shm_send_ok; [exact Hs|lia|exact Hp|exact Hsend]).
  assert (Hblock : held id scope s' /\ exists b r, blocks (arena s') !! id = Some b /\ offset b = o /\ zlen (bytes p) <= size b /\ own s' = Some r /\
    block_bytes r b (length (bytes p)) = bytes p).
  { destruct (byAddress (arena s) !! address) as [i|] eqn:Ea.
    - destruct (Hh i Ea) as (b & r & Hb & Hr & Hsz & Hc & Hcount).
      destruct (send_in_place cap k s takes p address scope s' frames id o _ i b r Hs Hcap ltac:(lia) Ea Hb Hr Hsz Hc Hid Ho Hn Hsend) as (-> & _ & Hblock).
      split; [|exact Hblock]. by eapply (send_holds_in_place cap k s takes p address scope s' frames id o _ b Hs); [lia|..].
    - split; [by eapply (send_holds_copy cap k s takes p address scope s' frames id o _ Hs); [lia|..]|].
      by eapply (send_copies cap k s takes p address scope s' frames id o _); [|lia|..]. }
  destruct Hblock as (Hheld & b & r & Hb & <- & Hfit & Hr & Hc). unfold shm_keeps in Hkeep.
  destruct (in_region_reference id (offset b) (zlen (bytes p))) as [|kd rest] eqn:Eref; [done|]. rewrite <- Eref in *.
  assert (Hkd : to_integer kd = kInRegion) by (unfold in_region_reference in Eref; injection Eref as <- _; done).
  destruct (in_region_fields id (offset b) (zlen (bytes p)) Hid Ho Hn) as (_ & Hfld & _). rewrite Hfld in Hkeep.
  rewrite ends_are_calls. unfold shm_received.
  destruct (kept_block_resolves cap (k + 1) s' (call_of <$> later) (set_peer (own (shm_calls s' (call_of <$> later))) far) lease id b r (bytes p))
    as [release Hrec]; try done; [by apply calls_fit|unfold zlen in *; rewrite length_fmap; lia| |].
  { eapply (held_stays cap (k + 1)); [done|by apply calls_fit|unfold zlen in *; rewrite length_fmap; lia|by apply Hkeep|done]. }
  rewrite Hrec. do 2 eexists. split; [done|]. by split.
Qed.

(** What [send] streamed arrives through the fallback. *)
Lemma fallback_resolves n content frames t (seen : list (State * Act ShmOther)) near lease : is_u64 n -> is_u64 (zlen content) ->
  chunks_from n content 0 frames -> partial_ (fallback t) = ∅ -> Forall (apart shm_ref_tag n) seen ->
  filter (fun f => stream_frame_tag f = Some n) (arrivals seen) = frames ->
  exists t' p, shm_received (strategy_sees near (far_acts t seen)) (to_byte kStreamed :: le_bytes 8 n) lease = (t', Expected p) /\
    kind p = kInline /\ bytes p = content.
Proof.
  intros Hn Hc Hch Ht Hseen Hf.
  assert (Hdone : completed n content (fallback (far_acts t seen))).
  { unfold far_acts. eapply (chunks_through _ fallback (fun e => arrival e.2) (apart shm_ref_tag n)); [done|done| | |exact Hch|done|exact Hf|].
    - intros t0 e. apply shm_apart.
    - intros t0 [s0 a] b [Ha _] Eb Hb. destruct a; try done. injection Eb as ->. cbn.
      destruct (shm_frame_cases fresh heap_owner (set_peer (own s0) t0) b owner) as [->|[_ E]]; [by do 3 eexists|congruence].
    - unfold got. cbn. by rewrite Ht. }
  destruct (completed_resolves _ _ _ Hn Hdone) as (f & p & Hrec & Hk & Hb). unfold shm_received, shm_receive. cbn -[le_bytes].
  rewrite Hrec. by do 2 eexists.
Qed.

#[export, refine] Instance shm_contract : StrategyContract State ShmOther := {|
  strategy_limit := 2 ^ 32 - 8; strategy_ok := shm_ok; strategy_fresh s := partial_ (fallback s) = ∅;
  strategy_holds := shm_holds; strategy_keeps := shm_keeps;
  frame_tag := stream_frame_tag; ref_tag := shm_ref_tag; next_tag s := nextStream_ (fallback s) |}.
Proof.
  - intros k s a [(cap & Hcap & Hs) [Hkn Hf]] Hk Ha. split; [|split; [|by apply shm_fallback_act; [|lia|]]]; rewrite ?end_is_call.
    + exists cap. split; [done|]. apply shm_call_ok; [done|lia|]. by destruct a as [| | |[]].
    + apply (known_call cap k); [done|lia|done].
  - intros k s a [_ [_ Hf]] Hk Ha. apply (shm_fallback_act k); [done|lia|done].
  - intros k takes s p address scope [(cap & _ & Hs) [_ Hf]] Hk Hp. apply (shm_send_returns cap k); [done..|lia|done].
  - intros k takes s p address scope s' frames r [(cap & Hcap & Hs) [_ Hf]] Hk Hp E.
    destruct (shm_send_named cap k _ _ _ _ _ _ _ _ Hs Hcap ltac:(lia) Hp E) as [(r0 & Es & ->)|(-> & Ef & id & o & _ & _ & ->)].
    + pose proof Hf as (Hc & H0 & Hn). destruct (stream_send_spec takes (fallback s) p Hc ltac:(lia) Hp) as (fr & res & E' & Ht & Hr).
      rewrite E' in Es. injection Es as Ef <- <-. rewrite <- Ef. split; [done|]. left. cbn -[Z.pow]. split; [lia|].
      intros ref. destruct res as [st|e]; intros [= <-]. destruct (Hr st eq_refl) as [-> _]. cbn -[le_bytes].
      apply stream_ref_tagged. unfold is_u64. lia.
    + split; [done|]. right. split; [done|]. by intros ref [= <-].
  - intros k takes s p address scope s' frames ref later t seen near lease [(cap & Hcap & Hs) [Hkn Hf]] Hk Hkind Hp Hh E Hl Hkeep -> Ht Hseen Htag Honce.
    pose proof (zlen_nonneg later). pose proof (zlen_nonneg (bytes p)).
    destruct (shm_send_named cap k _ _ _ _ _ _ _ _ Hs Hcap ltac:(lia) Hp E) as [(r0 & Es & Er)|(-> & Ef & id & o & Hid & Ho & [= ->])].
    + pose proof Hf as (Hc & Hk0 & Hn). destruct (stream_send_spec takes (fallback s) p Hc ltac:(lia) Hp) as (fr & res & E' & _ & Hr).
      rewrite E' in Es. injection Es as _ -> ->. destruct r0 as [st|e]; [|done]. injection Er as ->. destruct (Hr st eq_refl) as [-> Hch].
      assert (Hn64 : is_u64 (nextStream_ (fallback s))) by (unfold is_u64; lia).
      assert (Etag : shm_ref_tag (to_byte kStreamed :: le_bytes 8 (nextStream_ (fallback s))) = Some (nextStream_ (fallback s)))
        by (cbn -[le_bytes]; by apply stream_ref_tagged).
      rewrite Etag in Htag, Honce. specialize (Htag ltac:(done)). specialize (Honce ltac:(done)).
      destruct (fallback_resolves _ (bytes p) frames t seen (acts s' later) lease Hn64 ltac:(unfold is_u64; lia) Hch Ht (all_apart _ _ _ Hseen Honce) Htag)
        as (t' & p' & Hrec & Hk' & Hb'). exists t', p'. split; [exact Hrec|]. split; [unfold kind in *; congruence|done].
    + eapply (region_resolves k s takes p address scope s' [] id o later); [by split; [exists cap|split]|done..].
Defined.

(** A buffer that [allocate] gave, once written, holds what was written. *)
Lemma allocated_holds k s n s1 id address b content : shm_ok k s -> k < 2 ^ 32 - 8 -> 0 <= n <= 2 ^ 64 - 64 ->
  shm_allocate s n = (s1, Some (id, address)) -> blocks (arena s1) !! id = Some b -> zlen content = n ->
  shm_holds (copy_in s1 b content) (view content (Some 1%positive)) address.
Proof.
  intros [(cap & Hcap & Hs) [Hkn _]] Hk Hn Hal Hb Hlen j Hj. assert (Hs1 : side_ok cap (k + 1) s1).
  { pose proof (shm_call_ok cap k s (CAllocate n) Hs ltac:(lia) I) as H. cbn in H. by rewrite Hal in H. }
  unfold shm_allocate in Hal. destruct (n =? 0); [done|]. destruct (own s) as [r|] eqn:Eo; [|done]. rewrite <- Eo in Hal.
  pose proof (allocate_side cap k s n Hs ltac:(lia)) as Hside.
  destruct (allocateBlock (own s) (arena s) n) as [a i] eqn:Eal. destruct (allocate_next cap k s n a i Hs ltac:(lia) Eal) as [_ Hnext]. destruct Hside as [_ Hcase].
  destruct (Z.eqb_spec i 0); [done|]. destruct Hcase as [[? _]|(bi & Hpos & _ & Hbs & Hsz & _ & _ & Hp0)]; [done|].
  rewrite Hbs, lookup_insert_eq in Hal. injection Hal as <- <- <-. cbn in Hb. rewrite lookup_insert_eq in Hb.
  injection Hb as <-. cbn in Hj. rewrite lookup_insert_eq in Hj. injection Hj as <-.
  cbn in Hs1. destruct Hs1 as (x & Hx & Hxc & Ha). cbn [own set_arena] in Hx. rewrite Eo in Hx. injection Hx as <-. cbn [arena set_arena] in Ha.
  assert (Hfit : zlen content <= size bi) by (rewrite Hsz, Hlen; apply aligned_enough; lia).
  assert (Hin : 0 <= offset bi /\ offset bi + size bi <= cap).
  { refine (block_in_region _ _ _ _ i (with_holds bi 1 (peerHolds bi)) Ha _). cbn. by rewrite lookup_insert_eq. }
  cbn. rewrite lookup_insert_eq, Eo. eexists _, (write_region r (offset bi) content). split; [done|]. split; [done|].
  unfold bytes. cbn. split; [done|].
  split; [unfold block_bytes, write_region, rsize, zlen in *; cbn; apply slice_write_at; lia|].
  rewrite Hp0, (known_count s i); [done|done|]. destruct Hnext; lia.
Qed.

(** C35. The payload strategies keep what they promise a connection. Whatever else both
    ends do, one direction of a connection that streams, that uses shared memory and
    streams what does not fit, or that goes through a store that gives back what was
    put, resolves each reference to the payload it was made for, once the frames sent
    before it have arrived: for a stream the first time, for shared memory as long as
    the request that sent it has not ended, its release has not come back and the
    connection is open. *)
Theorem strategies_resolve put get (Hstore : forall b h, put b = Expected h -> get h = Expected b) :
  references_resolve StreamStrategy Empty_set /\ references_resolve State ShmOther /\
  @references_resolve unit Empty_set (store_strategy put get) (store_contract put get Hstore).
Proof. split; [apply contract_resolves|split; apply contract_resolves]. Qed.

(** ** A direction over shared memory *)

(** A region of 256 bytes: 70 bytes fit, and 300 more go by the stream; meanwhile the
    near end is sent a release for a block that it does not have. *)
Definition lane_far : State := new_strategy 1024.
Definition lane_payload (n : nat) (b : byte) : Payload := inlineBytes (replicate n b).
Definition zeroes (n : nat) : list byte := replicate n x00.
Definition lane_sample : list (LaneMove ShmOther) :=
  [LNear (ASend (Some (fun _ => true)) (lane_payload 70 x01) 1 5); LNear (ASend (Some (fun _ => true)) (lane_payload 300 x02) 2 5);
   LNear (AFrame zeroes 1 (to_byte kRelease :: le_bytes 8 9) None); LArrive zeroes 1 None;
   LFar (AReceive (in_region_reference 1 0 70) 3)].
Definition lane_end : Lane State ShmOther := default (lane_begin sample_side lane_far) (lane_moves lane_sample (lane_begin sample_side lane_far)).

Lemma lane_sample_fits : moves_fit lane_sample (lane_begin sample_side lane_far).
Proof.
  unfold lane_sample.
  repeat (split; [cbn -[Z.pow]; try (split; [vm_compute; discriminate|split; [reflexivity|intros id E; vm_compute in E; discriminate E]]);
    try (intros n; apply length_replicate); try exact I|intros l' E; vm_compute in E; injection E as <-]).
  exact I.
Qed.

Lemma lane_reached : lane_moves lane_sample (lane_begin sample_side lane_far) = Some lane_end.
Proof. apply default_reached. vm_compute. reflexivity. Qed.
Lemma sample_side_starts : shm_ok 0 sample_side.
Proof.
  split; [|split; [by intros sc ids E|vm_compute; repeat split; discriminate]]. exists (capacity sample_region). split; [vm_compute; reflexivity|].
  apply created_side_ok, sample_side_created.
Qed.

(** Both payloads resolve, the first in the region, the second through the stream. *)
Lemma strategies_resolve_witness : length (entries lane_end) = 2%nat /\ forall e, e ∈ entries lane_end ->
  exists t' p, strategy_receive (strategy_sees (near lane_end) (far lane_end)) (e_ref e) 4 = (t', Expected p) /\ p ≡ e_payload e.
Proof.
  assert (Hlen : length (entries lane_end) = 2%nat) by (vm_compute; reflexivity). split; [exact Hlen|]. intros e He.
  apply (proj1 (proj2 (strategies_resolve (fun b => Expected b) (fun b => Expected b) ltac:(intros b h [= ->]; reflexivity)))
           lane_sample sample_side lane_far lane_end e 4%positive).
  - apply sample_side_starts.
  - vm_compute. reflexivity.
  - vm_compute. reflexivity.
  - apply lane_sample_fits.
  - apply lane_reached.
  - exact He.
  - assert (Hm : Forall (fun e => (e_mark e <=? arrived lane_end)%nat = true) (entries lane_end)) by (repeat constructor).
    rewrite Forall_forall in Hm. apply Nat.leb_le, Hm, He.
  - assert (Hk : Forall (fun e => strategy_keeps (e_ref e) (e_scope e) (e_since e)) (entries lane_end)); [|rewrite Forall_forall in Hk; by apply Hk].
    apply Forall_lookup. intros [|[|i]] x Hx; vm_compute in Hx; [injection Hx as <-..|discriminate Hx].
    + intros _. repeat (apply Forall_cons; split; [try exact I; intros (_ & _ & E); vm_compute in E; discriminate E|]). apply Forall_nil. exact I.
    + intros Hr. vm_compute in Hr. discriminate Hr.
  - intros Htag. assert (Hs : Forall (fun x => match x.2 with AReceive ref _ => ref_tag ref = None | _ => True end) (seen lane_end)) by (vm_compute; repeat constructor).
    eapply Forall_impl; [exact Hs|]. intros [s a] Ha ref l E. cbn in E. subst a. cbn beta iota in Ha. rewrite Ha. intros E. by apply Htag.
Defined.
