(* ===== verification/Channel.v ===== *)
(** The coordinator's end of a connection (src/remote/channel.cpp,
    include/sub0pipeline/remote/channel.hpp): handshake and strategy choice,
    submission with back-pressure, replies, cancellation and connection loss, as
    an interleaving of the threads that call the channel, one critical section
    or one call out of it per step. *)
From stdpp Require Import pretty.
From S2P Require Import Prelude Types Bytes Payload SubGraph Wire Stream.

Module ChannelState.
Inductive t : Set := kIdle | kHandshaking | kConnected | kClosed.
#[global] Instance t_eq_dec : EqDecision t.
Proof. solve_decision. Defined.
End ChannelState.

Module ConnectError.
Inductive t : Set := kVersionMismatch | kFingerprintMismatch | kTransportClosed | kTimeout | kProtocol.
#[global] Instance t_eq_dec : EqDecision t.
Proof. solve_decision. Defined.
End ConnectError.

(** A factory of the options is what it makes: a strategy with its name and its
    offer, or nothing. *)
Record Options := mkOptions {
  expectedFingerprint : Z; maxInFlight_ : Z; queueCapacity : Z; maxInlineBytes_ : Z;
  factories : list (option StrategyOffer)
}.

(** The streaming strategy, which the channel always offers last. *)
Definition stream_default_chunk : Z := 16 * 1024 * 1024.
Definition stream_candidate : StrategyOffer := mkOffer "stream" (Stream.offer (new_stream stream_default_chunk)).

(** What a submission carries: the request, the Completion (named by its job) and
    whether there is a reply handler. *)
Record Submission := mkSubmission { request : SubGraphRequest; done_ : nat; onReply : bool }.
Record Pending := mkPending { submission : Submission; cancel : bool }.

(** The state of the handshake. A strategy is known by its name; what it answers
    comes from the environment. *)
Record Link := mkLink {
  state_ : ChannelState.t; started_ : bool; closed_ : bool;
  rejected_ : option ConnectError.t; peer_ : Hello;
  inFlightLimit_ : Z; inlineLimit_ : Z;
  candidates_ : list string; strategy_ : option string
}.

Record Book := mkBook { nextId_ : Z; pending_ : gmap Z Pending; queued_ : list Submission }.

(** What the rest of the world sees: the jobs whose stop was requested, the frames
    given to the transport, whether it was told to close, how each Completion was
    completed, the reply handlers called, the scopes ended, what connect() returned.
    An error is kept as the byte of its enumeration, as a peer may send any. *)
Record World := mkWorld {
  stopping : gset nat; sent : list (list byte); closing : bool;
  finished : list (nat * expected unit Z * string); handled : list (nat * SubGraphReply);
  scopes_ended : list Z; connects : list (expected unit ConnectError.t)
}.

(** Where a thread inside the channel is. *)
Inductive Task : Type :=
  | TConnect | TAwait                                   (* connect *)
  | TSend (s : Submission)                              (* send, up to its first unlock *)
  | TRefused (s : Submission) (e : PipelineError) (msg : string)
  | TTransfer (id : Z) (s : Submission) (rest : list RequestJob) (overrides : list (option Payload))
  | TEncode (id : Z) (s : Submission) (overrides : list (option Payload))
  | TRegister (id : Z)
  | TFailPending (id : Z) (e : PipelineError) (msg : string)
  | TFailed (id : Z) (s : Submission) (e : PipelineError) (msg : string) (next : option Submission)
  | TLaunch (next : option Submission) | TTake
  | TFrame (frame : list byte)                          (* onFrameBuffer *)
  | TReply (id : Z) (reply : SubGraphReply)             (* handleReply, its outputs received *)
  | TReplied (id : Z) (p : Pending) (reply : SubGraphReply) (next : option Submission)
  | TClosed | TAbandon (l : list Submission)            (* onClosed *)
  | TCancel (id : Z)                                    (* the stop callback of a request *)
  | TOver.

Record Channel := mkChannel {
  options_ : Options; link : Link; book : Book; world : World; tasks : list Task;
  (* ghost: every submission, every admission, every reply taken *)
  submitted : list nat; assigned : list (Z * Submission); replies : list (Z * SubGraphReply)
}.

Definition Hello_default : Hello :=
  {| major := kProtocolMajor; minor := kProtocolMinor; fingerprint := 0; Wire.maxInFlight := 0;
     Wire.maxInlineBytes := 0; strategies := [] |}.
Definition new_channel (o : Options) : Channel :=
  mkChannel o (mkLink ChannelState.kIdle false false None Hello_default 0 0 [] None) (mkBook 1 ∅ [])
    (mkWorld ∅ [] false [] [] [] []) [] [] [] [].

(** ** Updates *)

Definition with_link (l : Link) (c : Channel) : Channel :=
  mkChannel (options_ c) l (book c) (world c) (tasks c) (submitted c) (assigned c) (replies c).
Definition with_book (b : Book) (c : Channel) : Channel :=
  mkChannel (options_ c) (link c) b (world c) (tasks c) (submitted c) (assigned c) (replies c).
Definition with_world (w : World) (c : Channel) : Channel :=
  mkChannel (options_ c) (link c) (book c) w (tasks c) (submitted c) (assigned c) (replies c).
Definition with_tasks (l : list Task) (c : Channel) : Channel :=
  mkChannel (options_ c) (link c) (book c) (world c) l (submitted c) (assigned c) (replies c).
Definition note_submitted (d : nat) (c : Channel) : Channel :=
  mkChannel (options_ c) (link c) (book c) (world c) (tasks c) (submitted c ++ [d]) (assigned c) (replies c).
Definition note_assigned (id : Z) (s : Submission) (c : Channel) : Channel :=
  mkChannel (options_ c) (link c) (book c) (world c) (tasks c) (submitted c) (assigned c ++ [(id, s)]) (replies c).
Definition note_reply (id : Z) (r : SubGraphReply) (c : Channel) : Channel :=
  mkChannel (options_ c) (link c) (book c) (world c) (tasks c) (submitted c) (assigned c) (replies c ++ [(id, r)]).

Definition transmit (frame : list byte) (c : Channel) : Channel :=
  let w := world c in
  with_world (mkWorld (stopping w) (sent w ++ [frame]) (closing w) (finished w) (handled w) (scopes_ended w) (connects w)) c.
Definition close_transport (c : Channel) : Channel :=
  let w := world c in
  with_world (mkWorld (stopping w) (sent w) true (finished w) (handled w) (scopes_ended w) (connects w)) c.
Definition handle_reply (d : nat) (r : SubGraphReply) (c : Channel) : Channel :=
  let w := world c in
  with_world (mkWorld (stopping w) (sent w) (closing w) (finished w) (handled w ++ [(d, r)]) (scopes_ended w) (connects w)) c.
Definition complete_job (d : nat) (r : expected unit Z) (msg : string) (c : Channel) : Channel :=
  let w := world c in
  with_world (mkWorld (stopping w) (sent w) (closing w) (finished w ++ [(d, r, msg)]) (handled w) (scopes_ended w) (connects w)) c.
Definition fail_job (d : nat) (e : PipelineError) (msg : string) (c : Channel) : Channel :=
  complete_job d (Unexpected (PipelineError_u8 e)) msg c.
Definition succeed_job (d : nat) (c : Channel) : Channel := complete_job d (Expected tt) "" c.
Definition return_connect (r : expected unit ConnectError.t) (c : Channel) : Channel :=
  let w := world c in
  with_world (mkWorld (stopping w) (sent w) (closing w) (finished w) (handled w) (scopes_ended w) (connects w ++ [r])) c.
Definition request_stop_of (d : nat) (c : Channel) : Channel :=
  let w := world c in
  with_world (mkWorld ({[ d ]} ∪ stopping w) (sent w) (closing w) (finished w) (handled w) (scopes_ended w) (connects w)) c.

(** [if (strategy_) strategy_->endScope(id)] *)
Definition endScope_of (id : Z) (c : Channel) : Channel :=
  let w := world c in
  match strategy_ (link c) with
  | None => c
  | Some _ => with_world (mkWorld (stopping w) (sent w) (closing w) (finished w) (handled w) (scopes_ended w ++ [id]) (connects w)) c
  end.

(** ** Connecting *)

(** The strategies offered: in the options' order, then streaming; a name comes
    only once. *)
Fixpoint distinct_offers (l : list (option StrategyOffer)) (taken : list string) : list StrategyOffer :=
  match l with
  | [] => []
  | None :: l => distinct_offers l taken
  | Some o :: l =>
      if bool_decide (offer_name o ∈ taken) then distinct_offers l taken
      else o :: distinct_offers l (taken ++ [offer_name o])
  end.
Definition offered (o : Options) : list StrategyOffer := distinct_offers (factories o ++ [Some stream_candidate]) [].
Definition own_hello (o : Options) : Hello :=
  {| major := kProtocolMajor; minor := kProtocolMinor; fingerprint := expectedFingerprint o;
     Wire.maxInFlight := maxInFlight_ o; Wire.maxInlineBytes := maxInlineBytes_ o; strategies := offered o |}.

Definition set_state (s : ChannelState.t) (l : Link) : Link :=
  mkLink s (started_ l) (closed_ l) (rejected_ l) (peer_ l) (inFlightLimit_ l) (inlineLimit_ l) (candidates_ l) (strategy_ l).
Definition set_rejected (e : option ConnectError.t) (l : Link) : Link :=
  mkLink (state_ l) (started_ l) (closed_ l) e (peer_ l) (inFlightLimit_ l) (inlineLimit_ l) (candidates_ l) (strategy_ l).
Definition set_peer (h : Hello) (l : Link) : Link :=
  mkLink (state_ l) (started_ l) (closed_ l) (rejected_ l) h (inFlightLimit_ l) (inlineLimit_ l) (candidates_ l) (strategy_ l).
Definition set_strategy (cs : list string) (s : option string) (l : Link) : Link :=
  mkLink (state_ l) (started_ l) (closed_ l) (rejected_ l) (peer_ l) (inFlightLimit_ l) (inlineLimit_ l) cs s.
Definition set_limits (f i : Z) (l : Link) : Link :=
  mkLink (state_ l) (started_ l) (closed_ l) (rejected_ l) (peer_ l) f i (candidates_ l) (strategy_ l).

(** The first critical section of [connect]. *)
Definition connect_begin (o : Options) (l : Link) : option Link :=
  match state_ l with
  | ChannelState.kIdle =>
      Some (mkLink ChannelState.kHandshaking true (closed_ l) (rejected_ l) (peer_ l) (inFlightLimit_ l) (inlineLimit_ l)
              (candidates_ l ++ (offer_name <$> offered o)) (strategy_ l))
  | _ => None
  end.

(** [selectStrategy]: [completes] is the chosen strategy's answer to the worker's
    setup. *)
Definition selectStrategy (completes : bool) (ack : Hello) (l : Link) : Link * bool :=
  match strategies ack with
  | [] => (set_strategy [] (strategy_ l) l, true)
  | chosen :: _ =>
      if bool_decide (offer_name chosen ∈ candidates_ l)
      then if completes then (set_strategy [] (Some (offer_name chosen)) l, true)
           else (set_strategy [] (strategy_ l) l, false)
      else (set_strategy [] (strategy_ l) l, false)
  end.

(** The acknowledgement of a worker: whether the channel is connected now. *)
Definition take_ack (o : Options) (completes : bool) (hello : Hello) (l : Link) : Link * bool :=
  let l := set_peer hello l in
  if negb (major hello =? kProtocolMajor) then (set_rejected (Some ConnectError.kVersionMismatch) l, false)
  else if negb (fingerprint hello =? expectedFingerprint o)
  then (set_rejected (Some ConnectError.kFingerprintMismatch) l, false)
  else
    let '(l, selected) := selectStrategy completes hello l in
    if selected
    then (set_state ChannelState.kConnected
            (set_limits (Z.min (maxInFlight_ o) (Wire.maxInFlight hello))
                        (Z.min (maxInlineBytes_ o) (Wire.maxInlineBytes hello)) l), true)
    else (set_rejected (Some ConnectError.kProtocol) l, false).

Definition reject_error (frame : list byte) : ConnectError.t :=
  match decodeReject frame with
  | Some r => if reason r =? kFingerprint then ConnectError.kFingerprintMismatch else ConnectError.kVersionMismatch
  | None => ConnectError.kProtocol
  end.

(** The critical section of [onFrameBuffer]: the link, and whether the connection
    goes on. *)
Definition handshake_frame (o : Options) (completes : bool) (frame : list byte) (l : Link) : Link * bool :=
  match state_ l with
  | ChannelState.kHandshaking =>
      let '(l, connected) :=
        match frameType frame with
        | Some kHelloAck =>
            match decodeHello frame with Some hello => take_ack o completes hello l | None => (l, false) end
        | Some kHelloReject => (set_rejected (Some (reject_error frame)) l, false)
        | _ => (set_rejected (Some ConnectError.kProtocol) l, false)
        end in
      if connected then (l, true)
      else (match state_ l with ChannelState.kHandshaking => set_state ChannelState.kClosed l | _ => l end, false)
  | _ => (l, false)
  end.

Definition connect_result (l : Link) : option (expected unit ConnectError.t) :=
  match state_ l with
  | ChannelState.kHandshaking => None
  | ChannelState.kConnected => Some (Expected tt)
  | _ => Some (Unexpected (default ConnectError.kTransportClosed (rejected_ l)))
  end.

(** ** Requests *)

Definition kindLabel (r : SubGraphRequest) (index : nat) : string :=
  match jobs r !! index with
  | None => ("job " ++ pretty index)%string
  | Some j => ("job " ++ pretty index ++ " (" ++ kname (jkind j) ++ "@" ++ pretty (kversion (jkind j)) ++ ")")%string
  end.

Definition large (limit : Z) (p : Payload) : bool :=
  bool_decide (kind p = kInline) && (limit <? zlen (bytes p)).

(** Without a strategy: the first job whose inline input is too large. *)
Fixpoint first_large (limit : Z) (l : list RequestJob) (i : nat) : option nat :=
  match l with
  | [] => None
  | j :: l => if large limit (input j) then Some i else first_large limit l (S i)
  end.

Definition takeQueued (b : Book) : Book * option Submission :=
  match queued_ b with
  | [] => (b, None)
  | next :: rest => (mkBook (nextId_ b) (pending_ b) rest, Some next)
  end.

(** The critical section that takes a request out of [pending_]. *)
Definition take_pending (id : Z) (b : Book) : option (Book * Pending * option Submission) :=
  match pending_ b !! id with
  | None => None
  | Some p =>
      let '(b, next) := takeQueued (mkBook (nextId_ b) (delete id (pending_ b)) (queued_ b)) in
      Some (b, p, next)
  end.

(** [send] up to its first unlock. *)
Definition send_step (s : Submission) (c : Channel) : Channel * Task :=
  let l := link c in
  let b := book c in
  match state_ l with
  | ChannelState.kConnected =>
      match (match strategy_ l with None => first_large (inlineLimit_ l) (jobs (request s)) 0 | Some _ => None end) with
      | Some i => (c, TRefused s kJobFailed (kindLabel (request s) i ++ ": inline input exceeds the inline limit"))
      | None =>
          if inFlightLimit_ l <=? Z.of_nat (base.size (pending_ b)) then
            if zlen (queued_ b) <? queueCapacity (options_ c)
            then (with_book (mkBook (nextId_ b) (pending_ b) (queued_ b ++ [s])) c, TOver)
            else (c, TRefused s kBusy "remote channel at capacity")
          else
            let id := nextId_ b in
            let b := mkBook (u64 (id + 1)) (<[id := mkPending s false]> (pending_ b)) (queued_ b) in
            (note_assigned id s (with_book b c),
             match strategy_ l with Some _ => TTransfer id s (jobs (request s)) [] | None => TEncode id s [] end)
      end
  | ChannelState.kClosed => (c, TRefused s kUnavailable "worker connection closed")
  | _ => (c, TRefused s kUnavailable "not connected")
  end.

(** ** Replies *)

(** [handleReply]'s first loop: the outputs a strategy carried, where [receive] is
    what the strategy answers for the i-th result's reference. *)
Definition receive_output (strategy : bool) (receive : nat -> list byte -> expected Payload PipelineError)
    (i : nat) (r : JobResult) : JobResult :=
  if bool_decide (kind (output r) = kReference) then
    match (if strategy then receive i (bytes (output r)) else Unexpected kJobFailed) with
    | Expected p => mkResult (status r) (error r) (message r) p
    | Unexpected e => mkResult (JobStatus_u8 kFailed) (PipelineError_u8 e) "output payload unavailable" Payload_empty
    end
  else r.
Definition receive_outputs strategy receive (reply : SubGraphReply) : SubGraphReply :=
  mkReply (imap (receive_output strategy receive) (results reply)).

Definition failure_error (r : JobResult) : Z :=
  if status r =? JobStatus_u8 kCancelled then PipelineError_u8 kCancelledError
  else if status r =? JobStatus_u8 kTimedOut then PipelineError_u8 kTimeout
  else error r.

(** How a job that was not stopped is completed. *)
Definition reply_outcome (r : SubGraphRequest) (reply : SubGraphReply) : expected unit Z * string :=
  match firstFailure reply with
  | Some k =>
      match results reply !! k with
      | Some f =>
          (Unexpected (failure_error f),
           (kindLabel r k ++ " failed" ++ (if bool_decide (message f = "") then "" else ": " ++ message f))%string)
      | None => (Expected tt, "")
      end
  | None =>
      if (length (results reply) =? length (jobs r))%nat then (Expected tt, "")
      else (Unexpected (PipelineError_u8 kJobFailed), "reply does not match the request")
  end.

(** [freeCapacity] *)
Definition freeCapacity (c : Channel) : Z :=
  match state_ (link c) with
  | ChannelState.kConnected =>
      let inFlight := u32 (Z.of_nat (base.size (pending_ (book c)))) in
      let queued := u32 (zlen (queued_ (book c))) in
      u32 ((if inFlight <? inFlightLimit_ (link c) then inFlightLimit_ (link c) - inFlight else 0)
           + (if queued <? queueCapacity (options_ c) then queueCapacity (options_ c) - queued else 0))
  | _ => 0
  end.

(** ** Steps *)

(** What the environment answers: whether connect() waited in vain, the strategy,
    the transport. *)
Inductive Answer : Type :=
  | ANone | ATimedOut | ATransfer (r : expected (list byte) PipelineError) | ATransport (ok : bool)
  | AComplete (b : bool) | AReceive (receive : nat -> list byte -> expected Payload PipelineError).

Definition stops (c : Channel) (d : nat) : bool := bool_decide (d ∈ stopping (world c)).
Definition has_strategy (c : Channel) : bool := match strategy_ (link c) with Some _ => true | None => false end.

(** [onFrameBuffer]: the kinds of frame it hands on, and the handshake's critical
    section. A payload frame goes to the strategy. *)
Definition frame_step (a : Answer) (frame : list byte) (c : Channel) : option (Channel * Task) :=
  if bool_decide (frameType frame = Some kReply) then
    match decodeReply frame, a with
    | None, ANone => Some (close_transport c, TOver)
    | Some (id, reply), AReceive receive =>
        Some (c, TReply id (receive_outputs (has_strategy c) receive reply))
    | _, _ => None
    end
  else if bool_decide (frameType frame = Some kPayload) && has_strategy c then
    match a with ANone => Some (c, TOver) | _ => None end
  else
    match a with
    | AComplete completes =>
        let '(l, on) := handshake_frame (options_ c) completes frame (link c) in
        Some (if on then with_link l c else close_transport (with_link l c), TOver)
    | _ => None
    end.

(** [handleReply] once the request is found: a job that was stopped is finished
    already, and completing it only releases its slot. *)
Definition replied_step (id : Z) (p : Pending) (reply : SubGraphReply) (next : option Submission) (c : Channel) :
    Channel * Task :=
  let c := endScope_of id c in
  let s := submission p in
  if stops c (done_ s) then (succeed_job (done_ s) c, TLaunch next)
  else
    let c := if onReply s then handle_reply (done_ s) reply c else c in
    let '(r, msg) := reply_outcome (request s) reply in
    (complete_job (done_ s) r msg c, TLaunch next).

(** [onClosed] up to its unlock: the book is emptied, and its requests are failed
    one by one. *)
Definition closed_step (c : Channel) : Channel * Task :=
  let l := match state_ (link c), rejected_ (link c) with
           | ChannelState.kHandshaking, None => set_rejected (Some ConnectError.kTransportClosed) (link c)
           | _, _ => link c
           end in
  let b := book c in
  (with_link (set_state ChannelState.kClosed l) (with_book (mkBook (nextId_ b) ∅ []) c),
   TAbandon ((submission <$> (map_to_list (pending_ b)).*2) ++ queued_ b)).

(** Whether a request's stop callback is running: its destruction waits for that. *)
Definition cancels (c : Channel) (id : Z) : bool :=
  existsb (fun t => match t with TCancel i => i =? id | _ => false end) (tasks c).

(** One step of a thread at [t]: the channel, and where the thread goes. *)
Definition task_step (a : Answer) (t : Task) (c : Channel) : option (Channel * Task) :=
  match t, a with
  | TConnect, ANone =>
      match connect_begin (options_ c) (link c) with
      | Some l => Some (transmit (encodeHello kHello (own_hello (options_ c))) (with_link l c), TAwait)
      | None => Some (return_connect (Unexpected ConnectError.kProtocol) c, TOver)
      end
  | TAwait, ANone =>
      match connect_result (link c) with
      | Some r => Some (return_connect r c, TOver)
      | None => None
      end
  | TAwait, ATimedOut =>
      match connect_result (link c) with
      | Some r => Some (return_connect r c, TOver)
      | None =>
          Some (return_connect (Unexpected ConnectError.kTimeout)
                  (close_transport (with_link (set_state ChannelState.kClosed (link c)) c)), TOver)
      end
  | TSend s, ANone => Some (send_step s c)
  | TRefused s e msg, ANone => Some (fail_job (done_ s) e msg c, TOver)
  | TTransfer id s [] overrides, ANone => Some (c, TEncode id s overrides)
  | TTransfer id s (j :: rest) overrides, ANone =>
      if large (inlineLimit_ (link c)) (input j) then None
      else Some (c, TTransfer id s rest (overrides ++ [None]))
  | TTransfer id s (j :: rest) overrides, ATransfer r =>
      if large (inlineLimit_ (link c)) (input j) then
        match r with
        | Expected ref => Some (c, TTransfer id s rest (overrides ++ [Some (reference ref)]))
        | Unexpected e =>
            Some (c, TFailPending id e (kindLabel (request s) (length overrides) ++ ": payload transfer failed"))
        end
      else None
  | TEncode id s overrides, ATransport ok =>
      match encodeRequest id (request s) overrides with
      | None => Some (c, TFailPending id kJobFailed "request does not fit the wire format")
      | Some frame =>
          if ok then Some (transmit frame c, TRegister id)
          else Some (c, TFailPending id kUnavailable "worker connection lost")
      end
  | TRegister id, ANone =>
      let b := book c in
      Some (with_book (mkBook (nextId_ b) (alter (fun p => mkPending (submission p) true) id (pending_ b)) (queued_ b)) c, TOver)
  | TFailPending id e msg, ANone =>
      match take_pending id (book c) with
      | None => Some (c, TOver)
      | Some (b, p, next) => Some (with_book b c, TFailed id (submission p) e msg next)
      end
  | TFailed id s e msg next, ANone => Some (fail_job (done_ s) e msg (endScope_of id c), TLaunch next)
  | TLaunch None, ANone => Some (c, TOver)
  | TLaunch (Some s), ANone => if stops c (done_ s) then Some (succeed_job (done_ s) c, TTake) else Some (c, TSend s)
  | TTake, ANone => let '(b, next) := takeQueued (book c) in Some (with_book b c, TLaunch next)
  | TFrame frame, _ => frame_step a frame c
  | TReply id reply, ANone =>
      match take_pending id (book c) with
      | None => Some (c, TOver)
      | Some (b, p, next) => Some (note_reply id reply (with_book b c), TReplied id p reply next)
      end
  | TReplied id p reply next, ANone => if cancels c id then None else Some (replied_step id p reply next c)
  | TCancel id, ATransport ok => Some (if ok then transmit (encodeCancel id) c else c, TOver)
  | TClosed, ANone => Some (closed_step c)
  | TAbandon (s :: l), ANone => Some (fail_job (done_ s) kUnavailable "worker connection lost" c, TAbandon l)
  | TAbandon [], ANone =>
      let l := link c in
      Some (with_link (mkLink (state_ l) (started_ l) true (rejected_ l) (peer_ l) (inFlightLimit_ l) (inlineLimit_ l)
                         (candidates_ l) (strategy_ l)) c, TOver)
  | _, _ => None
  end.

(** A thread moves; connect or submit is called; a job's stop is requested, and
    its registered callback starts (once); the transport delivers a frame or
    its end; the destructor is entered. *)
Inductive ChannelMove : Type :=
  | MStep (k : nat) (a : Answer) | MConnect | MSubmit (s : Submission)
  | MStop (d : nat) | MCancel (id : Z) | MFrame (frame : list byte) | MClosed | MDestroy.

Definition spawn (t : Task) (c : Channel) : Channel := with_tasks (tasks c ++ [t]) c.

Definition channel_move (mv : ChannelMove) (c : Channel) : option Channel :=
  match mv with
  | MStep k a =>
      t ← tasks c !! k;
      '(c, t) ← task_step a t c;
      Some (with_tasks (<[k := t]> (tasks c)) c)
  | MConnect => Some (spawn TConnect c)
  | MSubmit s => Some (spawn (TSend s) (note_submitted (done_ s) c))
  | MStop d => Some (request_stop_of d c)
  | MCancel id =>
      match pending_ (book c) !! id with
      | Some (mkPending s true) =>
          if stops c (done_ s) then
            let b := book c in
            Some (spawn (TCancel id) (with_book (mkBook (nextId_ b) (<[id := mkPending s false]> (pending_ b)) (queued_ b)) c))
          else None
      | _ => None
      end
  | MFrame frame => Some (spawn (TFrame frame) c)
  | MClosed => Some (spawn TClosed c)
  | MDestroy => Some (close_transport c)
  end.

(** [~RemoteChannel] waits, once connect() was called, for [onClosed] to be over. *)
Definition dtor_returns (c : Channel) : bool := negb (started_ (link c)) || closed_ (link c).

(** The start of the deferred job that [emplace] adds to a pipeline, which sends the
    request again on every run. *)
Definition emplaced_start (r : SubGraphRequest) (onReply : bool) (done : nat) : ChannelMove :=
  MSubmit (mkSubmission r done onReply).

Fixpoint channel_moves (l : list ChannelMove) (c : Channel) : option Channel :=
  match l with [] => Some c | mv :: l => c ← channel_move mv c; channel_moves l c end.
