(* ===== verification/ChannelCorrect.v ===== *)
(** The channel completes every submission once, keeps to the negotiated limits,
    reports success only for a matching reply, and connects only to a worker that
    agrees with it. *)
From stdpp Require Import pretty.
From S2P Require Import Prelude Types Bytes Payload SubGraph Wire Stream Channel.

(** ** Counting a job's completions *)

Definition of_job (d : nat) (s : Submission) : nat := if decide (done_ s = d) then 1 else 0.
Definition opt_job (d : nat) (s : option Submission) : nat := match s with Some s => of_job d s | None => 0 end.
Definition is_job (d x : nat) : nat := if decide (x = d) then 1 else 0.

(** Completions of [d] held in the book, by a thread, used up, and handed in. *)
Definition in_pending (d : nat) (m : gmap Z Pending) : nat :=
  sum_list_with (fun p => of_job d (submission p)) (map_to_list m).*2.
Definition in_queue (d : nat) (b : Book) : nat := sum_list_with (of_job d) (queued_ b).
Definition in_task (d : nat) (t : Task) : nat :=
  match t with
  | TSend s | TRefused s _ _ => of_job d s
  | TFailed _ s _ _ next => of_job d s + opt_job d next
  | TLaunch next => opt_job d next
  | TReplied _ p _ next => of_job d (submission p) + opt_job d next
  | TAbandon l => sum_list_with (of_job d) l
  | _ => 0
  end.
Definition used (d : nat) (w : World) : nat := sum_list_with (fun e => is_job d e.1.1) (finished w).
Definition held (d : nat) (c : Channel) : nat :=
  (in_pending d (pending_ (book c)) + in_queue d (book c) + used d (world c))%nat.

Lemma in_pending_insert d m id p : m !! id = None ->
  in_pending d (<[id := p]> m) = (of_job d (submission p) + in_pending d m)%nat.
Proof. intros H. unfold in_pending. by rewrite (map_to_list_insert m id p H). Qed.

Lemma in_pending_delete d m id p : m !! id = Some p ->
  in_pending d m = (of_job d (submission p) + in_pending d (delete id m))%nat.
Proof.
  intros H. rewrite <- (insert_delete_id m id p H) at 1. by rewrite in_pending_insert by apply lookup_delete_eq.
Qed.

Lemma in_pending_replace d m id p q : m !! id = Some p -> submission q = submission p ->
  in_pending d (<[id := q]> m) = in_pending d m.
Proof.
  intros H Hq. rewrite (in_pending_delete d m id p H), <- insert_delete_eq, in_pending_insert by apply lookup_delete_eq.
  by rewrite Hq.
Qed.

Lemma alter_pending (m : gmap Z Pending) id p f : m !! id = Some p -> alter f id m = <[id := f p]> m.
Proof.
  intros H. apply map_eq. intros j. destruct (decide (id = j)) as [->|].
  - by rewrite lookup_alter_eq, lookup_insert_eq, H.
  - by rewrite lookup_alter_ne, lookup_insert_ne.
Qed.

Lemma size_alter (m : gmap Z Pending) id f : base.size (alter f id m) = base.size m.
Proof.
  destruct (m !! id) as [p|] eqn:E.
  - rewrite (alter_pending _ _ _ _ E). by apply map_size_insert_Some; exists p.
  - rewrite alter_id; [done|]. intros x Hx. by rewrite Hx in E.
Qed.

Lemma in_pending_submissions d m : sum_list_with (of_job d) (submission <$> (map_to_list m).*2) = in_pending d m.
Proof. unfold in_pending. induction (map_to_list m).*2 as [|p l IH]; [done|]. cbn. by rewrite IH. Qed.

Lemma in_pending_empty d : in_pending d ∅ = 0%nat.
Proof. unfold in_pending. by rewrite map_to_list_empty. Qed.

Lemma takeQueued_count d b b' next : takeQueued b = (b', next) ->
  in_queue d b = (opt_job d next + in_queue d b')%nat /\ pending_ b' = pending_ b /\ nextId_ b' = nextId_ b /\
  zlen (queued_ b') <= zlen (queued_ b).
Proof.
  unfold takeQueued, in_queue. destruct b as [n m [|s q]]; intros H; simplify_eq/=; split_and!; unfold zlen; cbn; (done || lia).
Qed.

(** ** The invariant *)

(** How success was earned. *)
Definition answered (c : Channel) (d : nat) : Prop :=
  exists id s reply, (id, s) ∈ assigned c /\ done_ s = d /\ (id, reply) ∈ replies c /\
    firstFailure reply = None /\ length (results reply) = length (jobs (request s)) /\
    (onReply s = true -> (d, reply) ∈ handled (world c)).
Definition earned (c : Channel) (d : nat) : Prop := d ∈ stopping (world c) \/ answered c d.

Definition task_ok (c : Channel) (t : Task) : Prop :=
  match t with
  | TReplied id p reply _ => (id, submission p) ∈ assigned c /\ (id, reply) ∈ replies c
  | TAbandon _ => state_ (link c) = ChannelState.kClosed
  | _ => True
  end.

(** The limits, and which identifiers are in use; [n] bounds the admissions. *)
Record book_inv (n : Z) (c : Channel) : Prop := {
  bi_room : Z.of_nat (base.size (pending_ (book c))) <= Z.max 0 (inFlightLimit_ (link c));
  bi_queue : zlen (queued_ (book c)) <= Z.max 0 (queueCapacity (options_ c));
  bi_next : nextId_ (book c) = 1 + zlen (assigned c) /\ nextId_ (book c) <= 1 + n;
  bi_ids : NoDup (assigned c).*1 /\ Forall (fun e => 1 <= e.1 < nextId_ (book c)) (assigned c);
  bi_pending : forall id p, pending_ (book c) !! id = Some p -> (id, submission p) ∈ assigned c;
  bi_off : state_ (link c) <> ChannelState.kConnected -> pending_ (book c) = ∅ /\ queued_ (book c) = [];
}.

(** What the two ends agreed on. *)
Definition agreed (o : Options) (l : Link) : Prop :=
  major (peer_ l) = kProtocolMajor /\ fingerprint (peer_ l) = expectedFingerprint o /\
  inFlightLimit_ l = Z.min (maxInFlight_ o) (Wire.maxInFlight (peer_ l)) /\
  inlineLimit_ l = Z.min (maxInlineBytes_ o) (Wire.maxInlineBytes (peer_ l)) /\
  match strategies (peer_ l) with
  | [] => strategy_ l = None
  | chosen :: _ => strategy_ l = Some (offer_name chosen) /\ offer_name chosen ∈ offer_name <$> offered o
  end.
Definition link_inv (o : Options) (l : Link) : Prop :=
  match state_ l with
  | ChannelState.kIdle => candidates_ l = [] /\ strategy_ l = None
  | ChannelState.kHandshaking => candidates_ l = offer_name <$> offered o /\ strategy_ l = None
  | ChannelState.kConnected => agreed o l
  | ChannelState.kClosed => True
  end.

Record channel_inv (n : Z) (c : Channel) : Prop := {
  ci_once : forall d, (held d c + sum_list_with (in_task d) (tasks c))%nat = sum_list_with (is_job d) (submitted c);
  ci_book : book_inv n c;
  ci_link : link_inv (options_ c) (link c);
  ci_earned : forall d msg, (d, Expected tt, msg) ∈ finished (world c) -> earned c d;
  ci_tasks : Forall (task_ok c) (tasks c);
  ci_closed : closed_ (link c) = true -> state_ (link c) = ChannelState.kClosed;
}.

(** ** What a step keeps *)

Lemma take_pending_count d id b b' p next : take_pending id b = Some (b', p, next) ->
  (in_pending d (pending_ b) + in_queue d b)%nat =
    (of_job d (submission p) + opt_job d next + in_pending d (pending_ b') + in_queue d b')%nat /\
  pending_ b !! id = Some p /\ pending_ b' = delete id (pending_ b) /\ nextId_ b' = nextId_ b /\
  zlen (queued_ b') <= zlen (queued_ b).
Proof.
  unfold take_pending. destruct (pending_ b !! id) as [q|] eqn:E; [|done].
  destruct (takeQueued _) as [b1 nx] eqn:Et. intros H. simplify_eq/=.
  destruct (takeQueued_count d _ _ _ Et) as (Hq & Hp & Hn & Hl). cbn in *.
  rewrite (in_pending_delete d _ _ _ E), Hp. unfold in_queue in *. cbn in *. split; [lia|]. done.
Qed.

Lemma frame_step_facts a frame c c' t' : frame_step a frame c = Some (c', t') ->
  book c' = book c /\ tasks c' = tasks c /\ submitted c' = submitted c /\ options_ c' = options_ c /\
  assigned c' = assigned c /\ replies c' = replies c /\
  finished (world c') = finished (world c) /\ stopping (world c') = stopping (world c) /\
  (t' = TOver \/ exists id reply, t' = TReply id reply).
Proof.
  unfold frame_step. intros H. repeat case_match; simplify_eq/=; split_and!; try done; eauto.
  all: by destruct (handshake_frame _ _ _ _) as [l []]; simplify_eq.
Qed.

Lemma send_step_facts s c c' t' : send_step s c = (c', t') ->
  tasks c' = tasks c /\ submitted c' = submitted c /\ options_ c' = options_ c /\ link c' = link c /\
  world c' = world c /\ replies c' = replies c /\
  (assigned c' = assigned c \/ assigned c' = assigned c ++ [(nextId_ (book c), s)]).
Proof. unfold send_step. intros H. repeat case_match; simplify_eq/=; split_and!; auto. Qed.

Lemma task_step_kept a t c c' t' : task_step a t c = Some (c', t') ->
  tasks c' = tasks c /\ submitted c' = submitted c /\ options_ c' = options_ c /\ stopping (world c') = stopping (world c) /\
  assigned c ⊆ assigned c' /\ replies c ⊆ replies c'.
Proof.
  intros H. destruct t, a; cbn in H; try done;
    try (apply frame_step_facts in H as (?&->&->&->&->&->&?&->&?); by split_and!);
    try (injection H as H; apply send_step_facts in H as (->&->&->&?&->&->&[->| ->]); split_and!; set_solver);
    unfold replied_step, closed_step, endScope_of in *; repeat case_match; simplify_eq/=; split_and!; try done; set_solver.
Qed.

Lemma used_snoc d w w' x r msg : finished w' = finished w ++ [(x, r, msg)] -> used d w' = (used d w + is_job d x)%nat.
Proof. intros H. unfold used. rewrite H, sum_list_with_app. cbn. lia. Qed.

Lemma of_is d s : of_job d s = is_job d (done_ s).
Proof. done. Qed.

Lemma send_step_once n s c c' t' d : book_inv n c -> send_step s c = (c', t') ->
  (held d c' + in_task d t')%nat = (held d c + of_job d s)%nat.
Proof.
  intros [_ _ [Hn _] [_ Hi] Hp _] H. unfold send_step in H.
  assert (Hf : pending_ (book c) !! nextId_ (book c) = None).
  { destruct (pending_ (book c) !! nextId_ (book c)) as [q|] eqn:E; [|done]. apply Hp in E.
    rewrite Forall_forall in Hi. apply Hi in E. cbn in E. lia. }
  repeat case_match; simplify_eq/=; unfold held, in_queue; cbn; try lia;
    rewrite ?(in_pending_insert _ _ _ _ Hf), ?sum_list_with_app; cbn; lia.
Qed.

Lemma held_endScope d id c : held d (endScope_of id c) = held d c.
Proof. unfold endScope_of. destruct (strategy_ (link c)); reflexivity. Qed.
Lemma held_complete d x r msg c : held d (complete_job x r msg c) = (held d c + is_job d x)%nat.
Proof.
  unfold held. rewrite (used_snoc d (world c) (world (complete_job x r msg c)) x r msg) by reflexivity.
  cbn. lia.
Qed.
Lemma held_handle d x r c : held d (handle_reply x r c) = held d c.
Proof. reflexivity. Qed.
Lemma held_link d l c : held d (with_link l c) = held d c.
Proof. done. Qed.

Lemma frame_step_once a frame c c' t' d : frame_step a frame c = Some (c', t') ->
  (held d c' + in_task d t')%nat = (held d c + in_task d (TFrame frame))%nat.
Proof.
  intros (Hb & _ & _ & _ & _ & _ & Hf & _ & Ht)%frame_step_facts. unfold held, used. rewrite Hb, Hf.
  by destruct Ht as [->|(? & ? & ->)].
Qed.

(** A reply's thread goes on when no cancel of its request is being sent. *)
Ltac no_cancel := try match goal with H : context [cancels ?c ?i] |- _ => destruct (cancels c i); [discriminate H|] end.

(** A step moves completions between the book, its thread and the world. *)
Lemma task_step_once n a t c c' t' d : book_inv n c -> task_step a t c = Some (c', t') ->
  (held d c' + in_task d t')%nat = (held d c + in_task d t)%nat.
Proof.
  intros Hb H. destruct t as [| |s|s e msg|id s [|j rest] ov|id s ov|id|id e msg|id s e msg next|[s|]| |frame|id reply|id p reply next| |[|s l]|id|], a;
    cbn [task_step] in H; unfold replied_step, closed_step in H; try done; try (by apply (frame_step_once _ _ _ _ _ d) in H); no_cancel.
  - destruct (connect_begin _ _); simplify_eq; done.
  - destruct (connect_result _); simplify_eq; done.
  - destruct (connect_result _); simplify_eq; done.
  - injection H as H. by apply (send_step_once n s c).
  - simplify_eq. unfold fail_job. rewrite held_complete. cbn. rewrite of_is. lia.
  - by simplify_eq.
  - destruct (large _ _); by simplify_eq.
  - destruct (large _ _); [|done]. destruct r; by simplify_eq.
  - destruct (encodeRequest _ _ _); [destruct ok|]; by simplify_eq.
  - simplify_eq. unfold held. cbn. destruct (pending_ (book c) !! id) as [p|] eqn:E.
    + by rewrite (alter_pending _ _ _ _ E), (in_pending_replace _ _ _ _ _ E).
    + rewrite alter_id; [done|]. intros x Hx. by rewrite Hx in E.
  - destruct (take_pending id (book c)) as [[[b p] next]|] eqn:E; simplify_eq/=; [|done].
    destruct (take_pending_count d _ _ _ _ _ E) as [Hc _]. unfold held. cbn. lia.
  - simplify_eq. unfold fail_job. rewrite held_complete, held_endScope. cbn. rewrite of_is. lia.
  - destruct (stops c (done_ s)); simplify_eq/=; [|lia]. unfold succeed_job. rewrite held_complete. cbn. rewrite of_is. lia.
  - by simplify_eq.
  - destruct (takeQueued (book c)) as [b next] eqn:E. simplify_eq/=.
    destruct (takeQueued_count d _ _ _ E) as (Hq & Hp & _). unfold held. cbn. rewrite Hp. lia.
  - destruct (take_pending id (book c)) as [[[b p] next]|] eqn:E; simplify_eq/=; [|done].
    destruct (take_pending_count d _ _ _ _ _ E) as [Hc _]. unfold held. cbn. lia.
  - rewrite <- (held_endScope d id c). injection H as H. revert H.
    generalize (endScope_of id c). clear c Hb. intros c H.
    destruct (stops c (done_ (submission p))).
    + simplify_eq. unfold succeed_job. rewrite held_complete. cbn. rewrite of_is. lia.
    + destruct (reply_outcome _ _) as [r msg]. destruct (onReply _); simplify_eq; rewrite held_complete, ?held_handle; cbn;
        rewrite of_is; lia.
  - simplify_eq. unfold held. cbn. rewrite sum_list_with_app, in_pending_submissions, in_pending_empty.
    unfold in_queue, used. cbn. lia.
  - by simplify_eq.
  - simplify_eq. unfold fail_job. rewrite held_complete. cbn. rewrite of_is. lia.
  - destruct ok; by simplify_eq.
Qed.

(** *** The book *)

(** The book [c'] holds no more than that of [c], with the same admissions. *)
Record shrinks (c c' : Channel) : Prop := {
  sh_options : options_ c' = options_ c;
  sh_assigned : assigned c' = assigned c;
  sh_next : nextId_ (book c') = nextId_ (book c);
  sh_size : (base.size (pending_ (book c')) <= base.size (pending_ (book c)))%nat;
  sh_pending : forall id p, pending_ (book c') !! id = Some p ->
    exists q, pending_ (book c) !! id = Some q /\ submission p = submission q;
  sh_queue : zlen (queued_ (book c')) <= zlen (queued_ (book c));
  sh_link : state_ (link c) = ChannelState.kConnected ->
    (state_ (link c') = ChannelState.kConnected /\ inFlightLimit_ (link c') = inFlightLimit_ (link c)) \/
    (pending_ (book c') = ∅ /\ queued_ (book c') = []);
}.

Lemma shrinks_same c c' :
  options_ c' = options_ c -> assigned c' = assigned c -> book c' = book c ->
  (state_ (link c) = ChannelState.kConnected ->
    state_ (link c') = ChannelState.kConnected /\ inFlightLimit_ (link c') = inFlightLimit_ (link c)) ->
  shrinks c c'.
Proof. intros ?? Hb Hl. split; rewrite ?Hb; try done; eauto. Qed.

Lemma book_inv_mono n k c : n <= k -> book_inv n c -> book_inv k c.
Proof. intros H [? ? [? ?] ? ? ?]. split; try done. split; [done|lia]. Qed.

Lemma book_inv_shrinks n c c' : shrinks c c' -> book_inv n c -> book_inv n c'.
Proof.
  intros [So Sa Sn Ss Sp Sq Sl] [Br Bq Bn Bi Bp Bo].
  assert (Hoff : pending_ (book c) = ∅ /\ queued_ (book c) = [] -> pending_ (book c') = ∅ /\ queued_ (book c') = []).
  { intros [Hp Hq]. split.
    - apply map_eq. intros id. rewrite lookup_empty. destruct (pending_ (book c') !! id) as [p|] eqn:E; [|done].
      destruct (Sp id p E) as (q & H & _). by rewrite Hp, lookup_empty in H.
    - rewrite Hq in Sq. destruct (queued_ (book c')); [done|]. unfold zlen in Sq. cbn in Sq. lia. }
  assert (Hcase : (state_ (link c') = ChannelState.kConnected /\ inFlightLimit_ (link c') = inFlightLimit_ (link c)) \/
    (pending_ (book c') = ∅ /\ queued_ (book c') = []))
    by (destruct (decide (state_ (link c) = ChannelState.kConnected)); [by apply Sl|right; by apply Hoff, Bo]).
  destruct Hcase as [[Hs Hi]|[Hp Hq]].
  - split; rewrite ?Hi, ?So, ?Sa, ?Sn; try done; [lia..|].
    intros id p Hp. destruct (Sp id p Hp) as (q & Hq & ->). by apply Bp.
  - split; rewrite ?So, ?Sa, ?Sn, ?Hp, ?Hq; try done; rewrite ?map_size_empty; unfold zlen; cbn; lia.
Qed.

Lemma take_pending_shrinks id c c' b p next : take_pending id (book c) = Some (b, p, next) ->
  book c' = b -> options_ c' = options_ c -> assigned c' = assigned c -> link c' = link c -> shrinks c c'.
Proof.
  intros Ht Hb Ho Ha Hl. destruct (take_pending_count 0 _ _ _ _ _ Ht) as (_ & Hp & Hd & Hn & Hq).
  split; rewrite ?Hb, ?Hl, ?Hd; auto.
  - rewrite map_size_delete_Some by eauto. lia.
  - intros j q [_ Hj]%lookup_delete_Some. eauto.
Qed.

Lemma send_step_book n s c c' t' : n + 2 < 2 ^ 64 -> book_inv n c -> send_step s c = (c', t') -> book_inv (n + 1) c'.
Proof.
  intros Hn Hb H. unfold send_step in H.
  destruct (state_ (link c)) eqn:Es; try (simplify_eq; by apply (book_inv_mono n); [lia|]).
  destruct (match strategy_ _ with Some _ => _ | None => _ end); [simplify_eq; by apply (book_inv_mono n); [lia|]|].
  destruct (Z.leb_spec (inFlightLimit_ (link c)) (Z.of_nat (base.size (pending_ (book c))))).
  - destruct (Z.ltb_spec (zlen (queued_ (book c))) (queueCapacity (options_ c)));
      [|simplify_eq; by apply (book_inv_mono n); [lia|]].
    simplify_eq. destruct Hb as [Br Bq [Bn Bm] Bi Bp Bo]. split; cbn; try done; [|lia].
    unfold zlen in *. rewrite length_app. cbn. lia.
  - simplify_eq. destruct Hb as [Br Bq [Bn Bm] [Bi Bj] Bp Bo].
    assert (Hu : u64 (nextId_ (book c) + 1) = nextId_ (book c) + 1).
    { apply u64_small. unfold is_u64, zlen in *. lia. }
    rewrite Forall_forall in Bj.
    split; cbn; rewrite ?Hu; try done.
    + rewrite map_size_insert_None; [lia|]. destruct (pending_ (book c) !! nextId_ (book c)) eqn:E; [|done].
      apply Bp, Bj in E. cbn in E. lia.
    + unfold zlen in *. rewrite length_app. cbn. lia.
    + rewrite fmap_app. cbn. split.
      * apply NoDup_app. split; [done|]. split; [|by apply NoDup_singleton].
        intros x Hx%list_elem_of_fmap ->%list_elem_of_singleton. destruct Hx as (y & Hy & Hin).
        apply Bj in Hin. lia.
      * apply Forall_app. split; [|apply Forall_singleton; cbn; unfold zlen in *; lia].
        apply Forall_forall. intros x Hx%Bj. lia.
    + intros id p [[<- <-]|[_ Hp]]%lookup_insert_Some; apply elem_of_app; [right; by apply list_elem_of_singleton|left; by apply Bp].
Qed.

Lemma handshake_connected o b frame l : state_ l = ChannelState.kConnected -> handshake_frame o b frame l = (l, false).
Proof. intros H. unfold handshake_frame. by rewrite H. Qed.

Lemma frame_step_shrinks a frame c c' t' : frame_step a frame c = Some (c', t') -> shrinks c c'.
Proof.
  intros H. pose proof (frame_step_facts _ _ _ _ _ H) as (Hb & _ & _ & Ho & Ha & _).
  apply shrinks_same; try done. intros Hs. unfold frame_step in H.
  destruct a; rewrite ?(handshake_connected _ _ _ _ Hs) in H; repeat case_match; by simplify_eq/=.
Qed.

Lemma connected_settled l : connect_result l = None -> state_ l = ChannelState.kHandshaking.
Proof. unfold connect_result. by destruct (state_ l). Qed.

Lemma endScope_kept id c : options_ (endScope_of id c) = options_ c /\ assigned (endScope_of id c) = assigned c /\
  book (endScope_of id c) = book c /\ link (endScope_of id c) = link c.
Proof. unfold endScope_of. by destruct (strategy_ (link c)). Qed.

(** Every step but an admission leaves a smaller book. *)
Lemma task_step_shrinks a t c c' t' : (forall s, t <> TSend s) -> task_step a t c = Some (c', t') -> shrinks c c'.
Proof.
  intros Hns H.
  destruct t as [| |s|s e msg|id s [|j rest] ov|id s ov|id|id e msg|id s e msg next|[s|]| |frame|id reply|id p reply next| |[|s l]|id|], a;
    cbn [task_step] in H; unfold replied_step, closed_step in H; try done; try (by destruct (Hns s)); try (by apply frame_step_shrinks in H); no_cancel.
  - destruct (connect_begin _ _) as [l|] eqn:E; simplify_eq/=; apply shrinks_same; try done.
    unfold connect_begin in E. by destruct (state_ (link c)).
  - destruct (connect_result _); simplify_eq; by apply shrinks_same.
  - destruct (connect_result _) eqn:E; simplify_eq; apply shrinks_same; try done.
    rewrite (connected_settled _ E). done.
  - simplify_eq. by apply shrinks_same.
  - simplify_eq. by apply shrinks_same.
  - destruct (large _ _); simplify_eq; by apply shrinks_same.
  - destruct (large _ _); [|done]. destruct r; simplify_eq; by apply shrinks_same.
  - destruct (encodeRequest _ _ _); [destruct ok|]; simplify_eq; by apply shrinks_same.
  - simplify_eq. split; cbn; auto; [by rewrite size_alter| |lia].
    intros j p. destruct (decide (id = j)) as [->|]; [rewrite lookup_alter_eq|rewrite lookup_alter_ne by done; eauto].
    intros (q & Hq & ->)%fmap_Some. by exists q.
  - destruct (take_pending id (book c)) as [[[b p] next]|] eqn:E; simplify_eq/=; [|by apply shrinks_same].
    by eapply take_pending_shrinks.
  - simplify_eq. destruct (endScope_kept id c) as (Ho & Ha & Hb & Hl). apply shrinks_same; cbn; rewrite ?Hl; auto.
  - destruct (stops c (done_ s)); simplify_eq/=; by apply shrinks_same.
  - simplify_eq. by apply shrinks_same.
  - destruct (takeQueued (book c)) as [b next] eqn:E. simplify_eq/=.
    destruct (takeQueued_count 0 _ _ _ E) as (_ & Hp & Hn & Hq). split; cbn; rewrite ?Hp; eauto.
  - destruct (take_pending id (book c)) as [[[b p] next]|] eqn:E; simplify_eq/=; [|by apply shrinks_same].
    by eapply take_pending_shrinks.
  - destruct (endScope_kept id c) as (Ho & Ha & Hb & Hl).
    destruct (stops _ _); [|destruct (reply_outcome _ _), (onReply _)]; simplify_eq; apply shrinks_same; cbn; rewrite ?Hl; auto.
  - simplify_eq. split; cbn; auto; [rewrite map_size_empty; lia|by intros ??; rewrite lookup_empty|unfold zlen; cbn; lia].
  - simplify_eq. by apply shrinks_same.
  - simplify_eq. by apply shrinks_same.
  - destruct ok; simplify_eq; by apply shrinks_same.
Qed.

Lemma task_step_book n a t c c' t' : n + 2 < 2 ^ 64 -> book_inv n c -> task_step a t c = Some (c', t') -> book_inv (n + 1) c'.
Proof.
  intros Hn Hb H. destruct t as [| |s| | | | | | | | | | | | | | |] eqn:Et.
  3: destruct a; try done; injection H as H; by eapply send_step_book.
  all: apply (book_inv_mono n); [lia|]; eapply book_inv_shrinks; [|exact Hb]; eapply task_step_shrinks; [|exact H]; by intros.
Qed.

(** *** The link *)

Lemma take_ack_inv o b hello l : link_inv o l -> state_ l = ChannelState.kHandshaking ->
  let '(l', connected) := take_ack o b hello l in
  if connected then state_ l' = ChannelState.kConnected /\ agreed o l' else state_ l' = ChannelState.kHandshaking.
Proof.
  unfold link_inv. intros Hl Hs. rewrite Hs in Hl. destruct Hl as [Hc Hn]. unfold take_ack.
  destruct (Z.eqb_spec (major hello) kProtocolMajor) as [Hm|]; cbn; [|done].
  destruct (Z.eqb_spec (fingerprint hello) (expectedFingerprint o)) as [Hf|]; cbn; [|done].
  unfold selectStrategy. cbn. destruct (strategies hello) as [|chosen more] eqn:Eh; cbn.
  - split; [done|]. unfold agreed. cbn. rewrite Eh. done.
  - case_bool_decide as Hin; cbn; [|done]. destruct b; cbn; [|done]. split; [done|]. unfold agreed. cbn. rewrite Eh.
    rewrite Hc in Hin. done.
Qed.

Lemma handshake_frame_inv o b frame l : link_inv o l -> link_inv o (handshake_frame o b frame l).1.
Proof.
  intros Hl. unfold handshake_frame. destruct (state_ l) eqn:Es; try done.
  assert (Hclosed : forall l', state_ l' = ChannelState.kHandshaking -> link_inv o (set_state ChannelState.kClosed l')) by done.
  destruct (frameType frame) as [[]|]; cbn [fst]; try (cbn; rewrite Es; by apply Hclosed).
  - destruct (decodeHello frame) as [hello|]; [|cbn; rewrite Es; by apply Hclosed].
    pose proof (take_ack_inv o b hello l Hl Es) as H. destruct (take_ack o b hello l) as [l' []]; cbn [fst].
    + destruct H as [H1 H2]. unfold link_inv. by rewrite H1.
    + rewrite H. by apply Hclosed.
Qed.

Lemma link_inv_rejected o e l : link_inv o (set_rejected e l) <-> link_inv o l.
Proof. done. Qed.

Lemma frame_step_link a frame c c' t' : frame_step a frame c = Some (c', t') ->
  link_inv (options_ c) (link c) -> link_inv (options_ c') (link c').
Proof.
  intros H Hl. unfold frame_step in H. destruct a;
    repeat match type of H with context [handshake_frame ?o ?b ?f ?l] =>
      pose proof (handshake_frame_inv o b f l Hl) as Hh; destruct (handshake_frame o b f l) as [l' []] end;
    repeat case_match; by simplify_eq/=.
Qed.

Lemma send_step_link s c c' t' : send_step s c = (c', t') -> options_ c' = options_ c /\ link c' = link c.
Proof. intros H. apply send_step_facts in H as (_ & _ & -> & -> & _). done. Qed.

Lemma task_step_link a t c c' t' : task_step a t c = Some (c', t') ->
  link_inv (options_ c) (link c) -> link_inv (options_ c') (link c').
Proof.
  intros H Hl.
  destruct t as [| |s|s e msg|id s [|j rest] ov|id s ov|id|id e msg|id s e msg next|[s|]| |frame|id reply|id p reply next| |[|s l]|id|], a;
    cbn [task_step] in H; unfold replied_step, closed_step in H; try done; try (by eapply frame_step_link);
    try (injection H as H; destruct (send_step_link _ _ _ _ H) as [-> ->]; done);
    try (destruct (endScope_kept id c) as (Ho & Ha & Hb & Hk));
    try (repeat case_match; simplify_eq/=; rewrite ?Ho, ?Hk; done).
  - unfold connect_begin in H. destruct (state_ (link c)) eqn:E; simplify_eq/=; try done.
    unfold link_inv in *. rewrite E in Hl. cbn. by destruct Hl as [-> ->].
Qed.

(** *** What success means *)

Lemma reply_outcome_success r reply msg : reply_outcome r reply = (Expected tt, msg) ->
  firstFailure reply = None /\ length (results reply) = length (jobs r).
Proof.
  unfold reply_outcome. destruct (firstFailure reply) as [k|] eqn:E.
  - pose proof (first_failure_from_spec (results reply) 0) as H. unfold firstFailure in E. rewrite E in H.
    destruct H as (j & f & -> & Hj & _). cbn. by rewrite Hj.
  - destruct (Nat.eqb_spec (length (results reply)) (length (jobs r))); [done|]. intros H. discriminate H.
Qed.

Lemma earned_mono c c' d : stopping (world c) ⊆ stopping (world c') -> assigned c ⊆ assigned c' -> replies c ⊆ replies c' ->
  handled (world c) ⊆ handled (world c') -> earned c d -> earned c' d.
Proof.
  intros Hs Ha Hr Hh [H|(id & s & reply & H1 & H2 & H3 & H4 & H5 & H6)]; [left; by apply Hs|right; exists id, s, reply].
  split_and!; auto.
Qed.

Lemma task_step_handled a t c c' t' : task_step a t c = Some (c', t') -> handled (world c) ⊆ handled (world c').
Proof.
  intros H. destruct t, a; cbn in H; try done; unfold frame_step, send_step, replied_step, closed_step, endScope_of in *;
    repeat case_match; simplify_eq/=; try done; set_solver.
Qed.

(** A closed link stays closed; only the end of [onClosed] sets [closed_]. *)
Definition link_moves (l l' : Link) : Prop :=
  (state_ l = ChannelState.kClosed -> state_ l' = ChannelState.kClosed) /\ closed_ l' = closed_ l.
Lemma take_ack_closed o b hello l : closed_ (take_ack o b hello l).1 = closed_ l.
Proof.
  unfold take_ack, selectStrategy. destruct (negb _); [done|]. destruct (negb _); [done|].
  destruct (strategies hello); [done|]. destruct (bool_decide _); [by destruct b|done].
Qed.
Lemma handshake_moves o b frame l : link_moves l (handshake_frame o b frame l).1.
Proof.
  unfold link_moves, handshake_frame. destruct (state_ l) eqn:E; try (cbn; by rewrite E). split; [done|].
  assert (Hdone : forall l' (connected : bool), closed_ l' = closed_ l ->
    closed_ (if connected then (l', true) else (match state_ l' with ChannelState.kHandshaking => set_state ChannelState.kClosed l' | _ => l' end, false)).1 = closed_ l).
  { intros l' [] H; cbn; [exact H|]. by destruct (state_ l'). }
  destruct (frameType frame) as [[]|]; try by apply (Hdone _ false).
  destruct (decodeHello frame) as [hello|]; [|by apply (Hdone _ false)].
  pose proof (take_ack_closed o b hello l) as H. destruct (take_ack o b hello l) as [l' connected]. by apply (Hdone l' connected).
Qed.
Lemma frame_step_moves a frame c c' t' : frame_step a frame c = Some (c', t') -> link_moves (link c) (link c').
Proof.
  intros H. unfold frame_step in H. destruct a as [| | | |b|];
    [..|pose proof (handshake_moves (options_ c) b frame (link c)) as Hm; destruct (handshake_frame _ _ _ _) as [l []]|];
    repeat case_match; by simplify_eq/=.
Qed.
Lemma task_step_moves a t c c' t' : task_step a t c = Some (c', t') -> t = TAbandon [] \/ link_moves (link c) (link c').
Proof.
  intros H.
  destruct t as [| |s|s e msg|id s [|j rest] ov|id s ov|id|id e msg|id s e msg next|[s|]| |frame|id reply|id p reply next| |[|s l]|id|], a;
    cbn [task_step] in H; unfold replied_step, closed_step in H; try done; try (by left); right; try (by eapply frame_step_moves);
    try (injection H as H; by destruct (send_step_link _ _ _ _ H) as [_ ->]); try (destruct (endScope_kept id c) as (Ho & Ha & Hb & Hk));
    try (repeat case_match; simplify_eq/=; rewrite ?Hk; by split).
  unfold connect_begin in H. destruct (state_ (link c)) eqn:E; simplify_eq/=; unfold link_moves; cbn; by rewrite ?E.
Qed.

Lemma task_ok_mono c c' t : assigned c ⊆ assigned c' -> replies c ⊆ replies c' ->
  (state_ (link c) = ChannelState.kClosed -> state_ (link c') = ChannelState.kClosed) -> task_ok c t -> task_ok c' t.
Proof. intros Ha Hr Hs. destruct t; cbn; try done; set_solver. Qed.

(** What a step reports: at most one job completed, with success only if earned. *)
Definition reports (c c' : Channel) : Prop :=
  finished (world c') = finished (world c) \/
  exists d r msg, finished (world c') = finished (world c) ++ [(d, r, msg)] /\ (r = Expected tt -> earned c' d).

Lemma frame_step_reports a frame c c' t' : frame_step a frame c = Some (c', t') -> task_ok c' t' /\ reports c c'.
Proof.
  intros (_ & _ & _ & _ & _ & _ & Hf & _ & Ht)%frame_step_facts. split; [|by left].
  by destruct Ht as [->|(? & ? & ->)].
Qed.
Lemma send_step_reports s c c' t' : send_step s c = (c', t') -> task_ok c' t' /\ reports c c'.
Proof.
  intros H. split; [unfold send_step in H; repeat case_match; by simplify_eq|].
  left. by apply send_step_facts in H as (_ & _ & _ & _ & -> & _).
Qed.
Lemma reports_fail c c0 d e msg : finished (world c0) = finished (world c) -> reports c (fail_job d e msg c0).
Proof. intros H. right. exists d, (Unexpected (PipelineError_u8 e)), msg. cbn. by rewrite H. Qed.
Lemma reports_stopped c c0 d : finished (world c0) = finished (world c) -> stops c0 d = true -> reports c (succeed_job d c0).
Proof.
  intros H Hs. right. exists d, (Expected tt), ""%string. cbn. rewrite H. split; [done|]. intros _. left. cbn.
  by apply bool_decide_eq_true in Hs.
Qed.

Lemma replied_reports id p reply next c c' t' :
  task_ok c (TReplied id p reply next) -> task_step ANone (TReplied id p reply next) c = Some (c', t') ->
  task_ok c' t' /\ reports c c'.
Proof.
  intros [Ha Hr] H. cbn [task_step] in H; unfold replied_step, closed_step in H. no_cancel.
  assert (Hw : finished (world (endScope_of id c)) = finished (world c)) by (unfold endScope_of; by destruct (strategy_ _)).
  assert (Ha' : (id, submission p) ∈ assigned (endScope_of id c)) by (unfold endScope_of; by destruct (strategy_ _)).
  assert (Hr' : (id, reply) ∈ replies (endScope_of id c)) by (unfold endScope_of; by destruct (strategy_ _)).
  revert H Hw Ha' Hr'. generalize (endScope_of id c). intros c0 H Hw Ha' Hr'.
  destruct (stops c0 (done_ (submission p))) eqn:Es.
  - simplify_eq. split; [done|]. by apply reports_stopped.
  - destruct (reply_outcome _ _) as [r msg] eqn:Eo. destruct (onReply _) eqn:Er; simplify_eq; (split; [done|]);
      right; exists (done_ (submission p)), r, msg; cbn; rewrite Hw; (split; [done|]); intros ->;
      apply reply_outcome_success in Eo as [H1 H2]; right; exists id, (submission p), reply; split_and!; try done.
    + intros _. cbn. apply elem_of_app. right. by apply list_elem_of_singleton.
    + by rewrite Er.
Qed.

Lemma task_step_reports n a t c c' t' : book_inv n c -> task_ok c t -> task_step a t c = Some (c', t') ->
  task_ok c' t' /\ reports c c'.
Proof.
  intros Hb Ht H.
  destruct t as [| |s|s e msg|id s [|j rest] ov|id s ov|id|id e msg|id s e msg next|[s|]| |frame|id reply|id p reply next| |[|s l]|id|], a;
    try discriminate H; try (by eapply replied_reports);
    cbn [task_step] in H; unfold replied_step, closed_step in H; try (by eapply frame_step_reports);
    try (injection H as H; by eapply send_step_reports);
    try (repeat case_match; simplify_eq/=; (split; [done|left; reflexivity])).
  - simplify_eq. split; [done|]. by apply reports_fail.
  - simplify_eq. split; [done|]. apply reports_fail. unfold endScope_of. by destruct (strategy_ _).
  - destruct (stops c (done_ s)) eqn:E; simplify_eq; (split; [done|]); [by apply reports_stopped|left; reflexivity].
  - destruct (take_pending id (book c)) as [[[b p] next]|] eqn:E; simplify_eq; (split; [|left; reflexivity]); [|done].
    destruct (take_pending_count 0 _ _ _ _ _ E) as (_ & Hp & _). cbn. split.
    + by eapply bi_pending.
    + apply elem_of_app. right. by apply list_elem_of_singleton.
  - simplify_eq. split; [done|]. by apply reports_fail.
Qed.

(** *** Moves *)

(** Moves from outside the channel change no book but a cancel flag. *)
Lemma outside_move_inv n c c' new :
  shrinks c c' -> link c' = link c -> finished (world c') = finished (world c) ->
  stopping (world c) ⊆ stopping (world c') -> assigned c' = assigned c -> replies c' = replies c ->
  handled (world c') = handled (world c) -> tasks c' = tasks c ++ new -> Forall (task_ok c') new -> options_ c' = options_ c ->
  (forall d, in_pending d (pending_ (book c')) = in_pending d (pending_ (book c)) /\ in_queue d (book c') = in_queue d (book c) /\
    (sum_list_with (is_job d) (submitted c') = sum_list_with (is_job d) (submitted c) + sum_list_with (in_task d) new)%nat) ->
  channel_inv n c -> channel_inv (n + 1) c'.
Proof.
  intros Hsh Hl Hf Hs Ha Hr Hh Ht Hnew Ho Hd [Io Ib Il Ie It Ic]. split.
  - intros d. specialize (Io d). destruct (Hd d) as (H1 & H2 & H3). rewrite H3, <- Io, Ht, sum_list_with_app.
    unfold held, used. rewrite H1, H2, Hf. lia.
  - apply (book_inv_mono n); [lia|]. by eapply book_inv_shrinks.
  - by rewrite Ho, Hl.
  - intros d msg Hin. rewrite Hf in Hin. apply (earned_mono c); [done|by rewrite Ha|by rewrite Hr|by rewrite Hh|]. by eapply Ie.
  - rewrite Ht. apply Forall_app. split; [|done]. eapply Forall_impl; [exact It|].
    intros x. apply task_ok_mono; [by rewrite Ha|by rewrite Hr|by rewrite Hl].
  - by rewrite Hl.
Qed.

Ltac outside n c new :=
  simplify_eq; eapply (outside_move_inv n c _ new); try done; try (by apply shrinks_same); try (by repeat constructor);
  try (by rewrite app_nil_r);
  try (intros ?; cbn; rewrite ?Nat.add_0_r, ?sum_list_with_app; split; [done|split; [done|cbn; unfold of_job, is_job; lia]]).

Lemma channel_move_inv n mv c c' : n + 2 < 2 ^ 64 -> channel_inv n c -> channel_move mv c = Some c' -> channel_inv (n + 1) c'.
Proof.
  intros Hn I H. destruct mv as [k a| |s|d|id|frame| |]; cbn in H.
  - destruct I as [Io Ib Il Ie It Ic]. destruct (tasks c !! k) as [t|] eqn:Hk; [|done]. cbn in H.
    destruct (task_step a t c) as [[c1 t']|] eqn:Es; [|done]. simplify_eq/=.
    destruct (task_step_kept _ _ _ _ _ Es) as (Kt & Ks & Kc & Kw & Ka & Kr).
    pose proof (Forall_lookup_1 _ _ _ _ It Hk) as Htk.
    destruct (task_step_reports _ _ _ _ _ _ Ib Htk Es) as [Rt Rr].
    split; cbn.
    + intros d. pose proof (task_step_once _ _ _ _ _ _ d Ib Es) as Hd. specialize (Io d). rewrite Ks, Kt.
      pose proof (sum_list_insert (in_task d) _ _ _ t' Hk).
      change (held d (with_tasks _ c1)) with (held d c1). lia.
    + pose proof (task_step_book _ _ _ _ _ _ Hn Ib Es) as Hb'. eapply book_inv_shrinks; [|exact Hb']. by apply shrinks_same.
    + by eapply task_step_link.
    + intros d msg Hin. assert (Hold : (d, Expected tt, msg) ∈ finished (world c) -> earned c1 d).
      { intros Hold. apply (earned_mono c); [by rewrite Kw|done|done|by eapply task_step_handled|]. by eapply Ie. }
      destruct Rr as [Rr|(x & r & m & Rr & Re)]; rewrite Rr in Hin; [by apply Hold|].
      apply elem_of_app in Hin as [Hin|Hin%list_elem_of_singleton]; [by apply Hold|]. simplify_eq. by apply Re.
    + assert (Hclosed : state_ (link c) = ChannelState.kClosed -> state_ (link c1) = ChannelState.kClosed).
      { destruct (task_step_moves _ _ _ _ _ Es) as [->|[Hm _]]; [|exact Hm]. destruct a; by simplify_eq/=. }
      rewrite Kt. apply Forall_insert; [|done]. eapply Forall_impl; [exact It|]. intros x. by apply task_ok_mono.
    + destruct (task_step_moves _ _ _ _ _ Es) as [->|[Hm ->]]; [|by intros ?%Ic%Hm]. destruct a; by simplify_eq/=.
  - outside n c [TConnect].
  - outside n c [TSend s].
  - outside n c (@nil Task). cbn. set_solver.
  - destruct (pending_ (book c) !! id) as [[s []]|] eqn:E; try done. destruct (stops c (done_ s)); [|done].
    outside n c [TCancel id].
    + split; cbn; auto; [rewrite map_size_insert_Some by eauto; lia| |lia].
      intros j p [[<- <-]|[_ Hp]]%lookup_insert_Some; eauto.
    + intros d. cbn. rewrite (in_pending_replace _ _ _ _ _ E) by done. by rewrite Nat.add_0_r.
  - outside n c [TFrame frame].
  - outside n c [TClosed].
  - outside n c (@nil Task).
Qed.

Lemma channel_moves_inv l n c c' : n + zlen l + 2 < 2 ^ 64 -> channel_inv n c -> channel_moves l c = Some c' ->
  channel_inv (n + zlen l) c'.
Proof.
  revert n c. induction l as [|mv l IH]; unfold zlen in *; cbn [length channel_moves]; intros n c Hn I H.
  - simplify_eq. by rewrite Z.add_0_r.
  - destruct (channel_move mv c) as [c1|] eqn:E; [|done]. cbn in H.
    replace (n + Z.of_nat (S (length l))) with (n + 1 + Z.of_nat (length l)) by lia.
    apply (IH (n + 1) c1); [lia| |done]. apply (channel_move_inv n mv c); [lia|done..].
Qed.

Lemma new_channel_inv o : channel_inv 0 (new_channel o).
Proof.
  split; try done.
  - split; cbn; try done; unfold zlen; cbn; try lia. split; [constructor|done].
  - cbn. by intros ?? ?%elem_of_nil.
Qed.

Lemma channel_reachable o ms c : zlen ms < 2 ^ 64 - 2 -> channel_moves ms (new_channel o) = Some c ->
  channel_inv (zlen ms) c.
Proof. intros Hn H. apply (channel_moves_inv ms 0 (new_channel o)); [lia|apply new_channel_inv|done]. Qed.

(** [freeCapacity] is the room left, when the two limits' sum fits its 32 bits. *)
Lemma freeCapacity_exact n c : channel_inv n c -> state_ (link c) = ChannelState.kConnected ->
  is_u32 (inFlightLimit_ (link c)) -> is_u32 (queueCapacity (options_ c)) ->
  inFlightLimit_ (link c) + queueCapacity (options_ c) < 2 ^ 32 ->
  freeCapacity c = inFlightLimit_ (link c) - Z.of_nat (base.size (pending_ (book c)))
                   + (queueCapacity (options_ c) - zlen (queued_ (book c))).
Proof.
  intros [_ [Br Bq _ _ _ _] _ _ _ _] Hs Hf Hq Hsum. unfold freeCapacity, is_u32 in *. rewrite Hs.
  pose proof (zlen_nonneg (queued_ (book c))).
  rewrite (u32_small (Z.of_nat _)), (u32_small (zlen _)) by (unfold is_u32; lia).
  destruct (Z.ltb_spec (Z.of_nat (base.size (pending_ (book c)))) (inFlightLimit_ (link c)));
    destruct (Z.ltb_spec (zlen (queued_ (book c))) (queueCapacity (options_ c)));
    rewrite u32_small by (unfold is_u32; lia); lia.
Qed.

(** The thread that reports the transport's end runs to the end of [onClosed]. *)
Lemma abandons_all k l c : tasks c !! k = Some (TAbandon l) ->
  exists ms c', channel_moves ms c = Some c' /\ closed_ (link c') = true.
Proof.
  revert c. induction l as [|s l IH]; intros c Hk.
  - exists [MStep k ANone]. cbn [channel_moves channel_move]. rewrite Hk. by eexists.
  - set (c1 := with_tasks (<[k := TAbandon l]> (tasks c)) (fail_job (done_ s) kUnavailable "worker connection lost" c)).
    destruct (IH c1) as (ms & c' & H & Hc).
    { apply list_lookup_insert_eq. by eapply lookup_lt_Some. }
    exists (MStep k ANone :: ms), c'. cbn [channel_moves channel_move]. by rewrite Hk.
Qed.
Lemma close_releases_dtor c : exists ms c', channel_moves (MClosed :: ms) c = Some c' /\ dtor_returns c' = true.
Proof.
  cbn [channel_moves channel_move]. cbn. destruct (closed_step (spawn TClosed c)) as [c1 t] eqn:Es.
  assert (Hk : tasks (spawn TClosed c) !! length (tasks c) = Some TClosed) by (cbn; by rewrite lookup_app_r, Nat.sub_diag by lia).
  pose proof Es as E2. unfold closed_step in E2. injection E2 as E2 Ht.
  assert (Htasks : tasks c1 = tasks (spawn TClosed c)) by (by rewrite <- E2).
  destruct (abandons_all (length (tasks c)) ((submission <$> (map_to_list (pending_ (book c))).*2) ++ queued_ (book c))
    (with_tasks (<[length (tasks c) := t]> (tasks c1)) c1)) as (ms & c' & H & Hc).
  { rewrite <- Ht. cbn. rewrite Htasks. apply list_lookup_insert_eq. by eapply lookup_lt_Some. }
  exists (MStep (length (tasks c)) ANone :: ms), c'. cbn [channel_moves channel_move]. rewrite Hk. cbn [mbind option_bind task_step].
  rewrite Es. cbn. rewrite H. split; [done|]. unfold dtor_returns. by rewrite Hc, orb_true_r.
Qed.

(** ** Properties *)

(** C26. However calls, replies, cancellations and the loss of the connection
    interleave, every Completion handed to the channel is at every moment in exactly
    one place: with a request in flight, in the queue, in the hands of one thread, or
    completed; so none is completed twice, and once the connection is closed and
    every call has returned all are completed. At most the negotiated number of
    requests is in flight, at most the configured number waits, and no identifier is
    given to two requests. A job succeeds only if its stop was requested or a reply
    to its own request came, in which no job failed and which has a result for each,
    and its reply handler, if it has one, was given that reply. The destructor of a
    channel that was connected returns only once nothing is in flight or queued and
    nothing can be submitted, and when the transport reports its end the thread that
    does can always run to where the destructor returns. *)
Theorem channel_completes_once o ms c :
  zlen ms < 2 ^ 64 - 2 -> channel_moves ms (new_channel o) = Some c ->
  (forall d, (in_pending d (pending_ (book c)) + in_queue d (book c) + used d (world c)
              + sum_list_with (in_task d) (tasks c))%nat = sum_list_with (is_job d) (submitted c)) /\
  Z.of_nat (base.size (pending_ (book c))) <= Z.max 0 (inFlightLimit_ (link c)) /\
  zlen (queued_ (book c)) <= Z.max 0 (queueCapacity (options_ c)) /\
  NoDup (assigned c).*1 /\
  (forall d msg, (d, Expected tt, msg) ∈ finished (world c) -> d ∈ stopping (world c) \/ answered c d) /\
  (state_ (link c) = ChannelState.kClosed -> Forall (fun t => t = TOver) (tasks c) ->
     forall d, used d (world c) = sum_list_with (is_job d) (submitted c)) /\
  (started_ (link c) = true -> dtor_returns c = true ->
     state_ (link c) = ChannelState.kClosed /\ pending_ (book c) = ∅ /\ queued_ (book c) = []) /\
  (exists more c', channel_moves (MClosed :: more) c = Some c' /\ dtor_returns c' = true).
Proof.
  intros Hn H. pose proof (channel_reachable o ms c Hn H) as [Ho [Br Bq _ [Bi _] _ Bo] _ He _ Hcl].
  split_and!; try done; [|by intros Hs [?|?%Hcl]%orb_true_iff; [rewrite Hs in *|split; [|apply Bo; congruence]]|apply close_releases_dtor].
  intros Hs Ht d. specialize (Ho d). unfold held in Ho.
  destruct Bo as [Hp Hq]; [by rewrite Hs|]. rewrite Hp, in_pending_empty in Ho. unfold in_queue in Ho. rewrite Hq in Ho.
  assert (Hz : sum_list_with (in_task d) (tasks c) = 0%nat).
  { clear -Ht. induction Ht as [|t l -> _ IH]; [done|]. cbn. exact IH. }
  cbn in Ho. lia.
Qed.

(** The channel is connected only to a worker that speaks its protocol version
    and has the registry it expects; the limits in force are the smaller of the two
    sides', and the strategy is none when the worker chose none and otherwise the one
    it chose, which the channel had offered. *)
Theorem channel_connects_on_agreement o ms c :
  zlen ms < 2 ^ 64 - 2 -> channel_moves ms (new_channel o) = Some c ->
  state_ (link c) = ChannelState.kConnected -> agreed (options_ c) (link c).
Proof.
  intros Hn H Hs. pose proof (channel_reachable o ms c Hn H) as [_ _ Hl _ _ _]. unfold link_inv in Hl. by rewrite Hs in Hl.
Qed.

(** ** Witnesses *)

Definition sample_options : Options := mkOptions 7 1 1 100 [None].
Definition sample_ack : list byte :=
  encodeHello kHelloAck {| major := 1; minor := 1; fingerprint := 7; Wire.maxInFlight := 4; Wire.maxInlineBytes := 64;
                           strategies := [mkOffer "stream" (encodeU32 1024)] |}.
Definition sample_submission (d : nat) : Submission :=
  mkSubmission (mkRequest [mkRequestJob (mkKind "k" 1) Payload_empty false] []) d true.
Definition sample_reply : list byte := encodeReply 1 (mkReply [mkResult 3 1 "" Payload_empty]) [].
Definition no_payload (i : nat) (r : list byte) : expected Payload PipelineError := Unexpected kJobFailed.

(** The channel connects, sends one request, queues a second, and takes the reply
    to the first. *)
Definition reply_moves : list ChannelMove :=
  [MConnect; MStep 0 ANone; MFrame sample_ack; MStep 1 (AComplete true); MStep 0 ANone;
   MSubmit (sample_submission 0); MStep 2 ANone; MStep 2 ANone; MStep 2 ANone; MStep 2 (ATransport true); MStep 2 ANone;
   MSubmit (sample_submission 1); MStep 3 ANone;
   MFrame sample_reply; MStep 4 (AReceive no_payload); MStep 4 ANone; MStep 4 ANone].
Definition reply_state : Channel := default (new_channel sample_options) (channel_moves reply_moves (new_channel sample_options)).

Lemma channel_completes_once_witness :
  zlen reply_moves < 2 ^ 64 - 2 /\ channel_moves reply_moves (new_channel sample_options) = Some reply_state /\
  answered reply_state 0.
Proof.
  assert (Hn : zlen reply_moves < 2 ^ 64 - 2) by (vm_compute; reflexivity).
  assert (H : channel_moves reply_moves (new_channel sample_options) = Some reply_state)
    by (apply default_reached; vm_compute; reflexivity).
  split; [exact Hn|]. split; [exact H|].
  destruct (channel_completes_once sample_options reply_moves reply_state Hn H) as (_ & _ & _ & _ & He & _).
  destruct (He 0%nat ""%string) as [Hs|Ha]; [|exfalso|exact Ha].
  - assert (E : finished (world reply_state) = [(0%nat, Expected tt, ""%string)]) by (vm_compute; reflexivity).
    rewrite E. apply list_elem_of_here.
  - assert (E : stopping (world reply_state) = ∅) by (vm_compute; reflexivity). rewrite E in Hs. exact (not_elem_of_empty _ Hs).
Defined.

Lemma channel_connects_on_agreement_witness : strategy_ (link reply_state) = Some "stream"%string.
Proof.
  assert (Hn : zlen reply_moves < 2 ^ 64 - 2) by (vm_compute; reflexivity).
  assert (H : channel_moves reply_moves (new_channel sample_options) = Some reply_state)
    by (apply default_reached; vm_compute; reflexivity).
  assert (Hs : state_ (link reply_state) = ChannelState.kConnected) by (vm_compute; reflexivity).
  pose proof (channel_connects_on_agreement sample_options reply_moves reply_state Hn H Hs) as (_ & _ & _ & _ & Hc).
  assert (E : strategies (peer_ (link reply_state)) = [mkOffer "stream" (encodeU32 1024)]) by (vm_compute; reflexivity).
  rewrite E in Hc. exact (proj1 Hc).
Defined.

(** A request accepted into the queue is refused later: while its launcher is
    between taking it and sending it, two new submissions take the slot it was to
    have and its place in the queue. *)
Definition overtaken_moves : list ChannelMove :=
  reply_moves ++
  [MSubmit (sample_submission 2); MStep 5 ANone; MSubmit (sample_submission 3); MStep 6 ANone;
   MStep 4 ANone; MStep 4 ANone; MStep 4 ANone].
Example queued_request_refused :
  (fun c => finished (world c)) <$> channel_moves overtaken_moves (new_channel sample_options) =
    Some [(0%nat, Expected tt, ""%string);
          (1%nat, Unexpected (PipelineError_u8 kBusy), "remote channel at capacity"%string)].
Proof. vm_compute. reflexivity. Qed.

(** The sum of the two rooms wraps at 32 bits: with one slot free and the largest
    queue nothing seems free. *)
Example freeCapacity_wraps :
  freeCapacity (with_link (set_state ChannelState.kConnected (set_limits 1 0 (link (new_channel sample_options))))
                 (new_channel (mkOptions 7 1 (2 ^ 32 - 1) 100 []))) = 0.
Proof. vm_compute. reflexivity. Qed.
