(* ===== verification/WorkerRun.v ===== *)
(** How the worker runs one request (WorkerHost::run, src/remote/worker_host.cpp):
    the pipeline it builds, the bodies it gives the jobs, the run under any
    schedule, and the reply. *)
From stdpp Require Import pretty.
From S2P Require Import Prelude Types EdgeLists SuccessorPool Nodes Kahn Graph Pipeline Run Dispatch Scheduler SchedulerStep SchedulerInv SchedulerKeep Termination RunCorrect Construction Inline Bytes Payload SubGraph Registry.

(** ** The pipeline of a request *)

Definition edge_pair (e : Edge) : nat * nat := (Z.to_nat (from e), Z.to_nat (to e)).

Definition handles (i : nat) : Job := Construction.handle 0 i.

(** [pipe.emplace(body).name(kind).optional()], and the edges. *)
Definition job_calls (i : nat) (j : RequestJob) : list BuildCall :=
  [CEmplaceCancellable 0 i; CName (handles i) (kname (jkind j)); COptional (handles i) true].
Definition edge_call (e : Edge) : BuildCall :=
  CSucceed (handles (edge_pair e).2) (handles (edge_pair e).1).
Definition worker_calls (r : SubGraphRequest) : list BuildCall :=
  [CConstruct 0; CReserve 0 (zlen (jobs r))] ++ concat (imap job_calls (jobs r)) ++ (edge_call <$> edges r).

(** The pipeline, if every call returns; one that throws ends the worker. *)
Definition worker_pipeline (r : SubGraphRequest) : option Impl :=
  match calls (worker_calls r) World_empty with
  | Return w _ => snd <$> impl_of w 0
  | _ => None
  end.

(** ** The bodies *)

(** What a kind's function makes of a job's input and its predecessors' outputs:
    what it returns, the output it sets and the error text it sets. *)
Record Ran := mkRan { ran_result : Outcome; ran_output : Payload; ran_error : string }.
Abbreviation Kind := (Payload -> list Payload -> Ran).

(** The i-th elements of the vectors outputs, errors, codes and skipped. *)
Record Slot := mkSlot { s_output : Payload; s_error : string; s_code : PipelineError; s_skipped : bool }.
Definition Slot_fresh : Slot := mkSlot Payload_empty "" kJobFailed false.

Abbreviation Bench := (list Slot).
Definition slot (b : Bench) (i : nat) : Slot := default Slot_fresh (b !! i).
Definition bench_of (r : SubGraphRequest) : Bench := replicate (length (jobs r)) Slot_fresh.

(** [predecessorIds[i]]: in the order of the edges. *)
Definition predecessorIds (r : SubGraphRequest) (i : nat) : list nat :=
  omap (fun e => if decide ((edge_pair e).2 = i) then Some (edge_pair e).1 else None) (edges r).

Section request.
(** The worker's registry, the request and its resolved inputs. *)
Context (registry : list (JobKindId * Kind)) (r : SubGraphRequest) (inputs : list Payload).

Definition kind_of (i : nat) : option (JobKindId * option Kind) :=
  (fun j => (jkind j, find registry (kname (jkind j)) (kversion (jkind j)))) <$> jobs r !! i.

Definition unknown_kind (k : JobKindId) : string :=
  ("unknown job kind " ++ kname k ++ "@" ++ pretty (kversion k))%string.

(** A job's body, from what it sees of its predecessors: its slot and result. [seen] is
    what its kind makes of a stop it sees through its token, if it sees one. *)
Definition judge_as (seen : option Ran) (i : nat) (old : Slot) (preds : list (Slot * JobStatus)) : Slot * Outcome :=
  if existsb (fun p => s_skipped p.1 || negb (bool_decide (p.2 = kDone))) preds
  then (mkSlot (s_output old) (s_error old) (s_code old) true, success)
  else
    match kind_of i with
    | Some (_, Some fn) =>
        let ran := default (fn (default Payload_empty (inputs !! i)) ((fun p => s_output p.1) <$> preds)) seen in
        (mkSlot (ran_output ran) (ran_error ran)
           (match ran_result ran with Unexpected e => e | Expected _ => s_code old end) (s_skipped old), ran_result ran)
    | Some (k, None) => (mkSlot (s_output old) (unknown_kind k) (s_code old) (s_skipped old), Unexpected kJobFailed)
    | None => (old, Unexpected kJobFailed)
    end.
Definition judge : nat -> Slot -> list (Slot * JobStatus) -> Slot * Outcome := judge_as None.

Definition sees (b : Bench) (m : Impl) (i : nat) : list (Slot * JobStatus) :=
  (fun p => (slot b p, status_at m p)) <$> predecessorIds r i.

(** ** The run *)

(** A run and its bench. A stop of [work.stop], forwarded by the run, has reached the
    first [stops_] nodes. *)
Record WorkState := mkWork { run : RunState; bench : Bench; stops_ : nat }.

(** The environment's part of a thread's step: nothing unusual; a kind that is running
    sees the stop, and makes of it what it likes; the executor refuses the job. *)
Inductive WorkAnswer : Type := WPlain | WSees (ran : Ran) | WRefused.

(** A call of job [i]: refused when the stop has reached its node; else, and when the
    stop reached it only after the call began, its body. *)
Definition called (a : WorkAnswer) (i : nat) (w : WorkState) : option (Slot * Outcome) :=
  let old := slot (bench w) i in
  let preds := sees (bench w) (impl_ (ctx (run w))) i in
  if (i <? stops_ w)%nat
  then Some (match a with WSees ran => judge_as (Some ran) i old preds | _ => (old, Unexpected kCancelledError) end)
  else match a with WSees _ => None | _ => Some (judge i old preds) end.

(** What happens when thread [k] moves: a body is called with what its job sees
    then, or the executor answers a submission. *)
Definition work_step (k : nat) (a : WorkAnswer) (w : WorkState) : option WorkState :=
  match threads (run w) !! k with
  | Some (OInvoke i :: _) =>
      '(s, res) ← called a i w;
      (fun x => mkWork x (<[i := s]> (bench w)) (stops_ w)) <$> step_thread k (CResult res) (run w)
  | Some (ORoots (_ :: _) :: _) | Some (OSubmit _ _ _ :: _) =>
      (fun x => mkWork x (bench w) (stops_ w)) <$>
        step_thread k (CSubmit (match a with WRefused => false | _ => true end)) (run w)
  | _ => (fun x => mkWork x (bench w) (stops_ w)) <$> step_thread k CNone (run w)
  end.

(** A thread moves, or the stop reaches one more node. *)
Inductive WorkMove : Type := WMove (k : nat) (a : WorkAnswer) | WStop.
Definition work_move (mv : WorkMove) (w : WorkState) : option WorkState :=
  match mv with WMove k a => work_step k a w | WStop => Some (mkWork (run w) (bench w) (S (stops_ w))) end.
Fixpoint work_steps (l : list WorkMove) (w : WorkState) : option WorkState :=
  match l with [] => Some w | mv :: l => w ← work_move mv w; work_steps l w end.

(** The run on the worker's own executor, with no stop: inline, in order. *)
Fixpoint work_inline (fuel : nat) (w : WorkState) : option WorkState :=
  match next_thread (threads (run w)), fuel with
  | None, _ => Some w
  | Some _, O => None
  | Some k, S fuel => w ← work_step k WPlain w; work_inline fuel w
  end.

(** ** The reply *)

(** Where a large output goes: the connection's strategy, or else the worker's
    store. Both answer for the i-th job. *)
Context (inlineLimit_ : Z) (strategy : option (nat -> Payload -> expected (list byte) PipelineError))
  (store : option (nat -> list byte -> expected (list byte) PipelineError)).

Definition failed_result (e : PipelineError) (msg : string) : JobResult * option Payload :=
  (mkResult (JobStatus_u8 kFailed) (PipelineError_u8 e) msg Payload_empty, None).

Definition export_output (i : nat) (res : JobResult) : JobResult * option Payload :=
  let keep := (res, None) in
  if negb (bool_decide (kind (output res) = kInline) && (inlineLimit_ <? zlen (bytes (output res)))) then keep
  else
    match strategy with
    | Some send =>
        match send i (output res) with
        | Expected ref => (res, Some (reference ref))
        | Unexpected e => failed_result e "output payload transfer failed"
        end
    | None =>
        let refused := failed_result kJobFailed
          (match store with Some _ => "storing a large output failed"
                          | None => "output exceeds the inline limit and the worker has no store" end) in
        match store with
        | Some put =>
            match put i (bytes (output res)) with
            | Expected key =>
                if (length key <=? kMaxHandleBytes)%nat
                then (mkResult (status res) (error res) (message res) (handle key), None) else refused
            | Unexpected _ => refused
            end
        | None => refused
        end
    end.

Definition error_of (s : JobStatus) (code : PipelineError) : PipelineError :=
  match s with kCancelled => kCancelledError | kTimedOut => kTimeout | _ => code end.

(** The i-th result, and the payload that replaces its output in the frame. *)
Definition make_result (i : nat) (s : Slot) (st : JobStatus) : JobResult * option Payload :=
  let st := if s_skipped s then kSkipped else st in
  let res out := mkResult (JobStatus_u8 st) (PipelineError_u8 (error_of st (s_code s))) (s_error s) out in
  if bool_decide (st = kDone) && default false (exported <$> jobs r !! i)
  then export_output i (res (s_output s)) else (res Payload_empty, None).

Definition cyclic_result : JobResult * option Payload :=
  failed_result kCyclicDependency "the request's edges form a cycle".

(** The results of a finished run. *)
Definition work_results (w : WorkState) : list (JobResult * option Payload) :=
  (fun i => make_result i (slot (bench w) i) (status_at (impl_ (ctx (run w))) i)) <$> seq 0 (length (jobs r)).

(** [WorkerHost::run] of a request that is not stopped, on its own executor: [None]
    when the pipeline cannot be built or the fuel runs out. *)
Definition worker_run (fuel : nat) : option (list (JobResult * option Payload)) :=
  m ← worker_pipeline r;
  match begin_run m with
  | RunReturns m (Unexpected kCyclicDependency) => Some (replicate (length (jobs r)) cyclic_result)
  | RunReturns m _ =>
      Some ((fun i => make_result i Slot_fresh (status_at m i)) <$> seq 0 (length (jobs r)))
  | RunStarts m => work_results <$> work_inline fuel (mkWork (start_inline m) (bench_of r) 0)
  end.

(** ** Reference: each job from its predecessors alone *)

Fixpoint verdict (fuel : nat) (i : nat) : Slot * JobStatus :=
  match fuel with
  | O => (Slot_fresh, kPending)
  | S fuel =>
      let '(s, res) := judge i Slot_fresh (verdict fuel <$> predecessorIds r i) in (s, statusOf res)
  end.
Definition reference_results : list (JobResult * option Payload) :=
  (fun i => let '(s, st) := verdict (S (length (jobs r))) i in make_result i s st) <$> seq 0 (length (jobs r)).

End request.
