(* ===== verification/WorkerBuild.v ===== *)
(** The pipeline a request's build calls leave. *)
From S2P Require Import Prelude Types EdgeLists SuccessorPool Nodes Kahn Graph Pipeline Run Dispatch Scheduler Construction Inline Bytes Payload SubGraph WorkerRun.

(** ** The pipeline that is built *)

Lemma calls_app_inv cs ds w w' : calls (cs ++ ds) w = Return w' tt ->
  exists w1, calls cs w = Return w1 tt /\ calls ds w1 = Return w' tt.
Proof.
  unfold calls. revert w. induction cs as [|c cs IH]; intros w H; [by exists w|]. cbn in H |- *.
  destruct (call w c) as [w1 []| |]; cbn in *; [by apply IH|done..].
Qed.
Lemma calls_one_inv c w w' : calls [c] w = Return w' tt -> call w c = Return w' tt.
Proof. unfold calls. cbn. destruct (call w c) as [w1 []| |]; cbn; intros H; by simplify_eq. Qed.
Lemma calls_ok cs w w' : world_ok w -> calls cs w = Return w' tt -> world_ok w'.
Proof.
  intros Hw H. pose proof (leaves_for world_ok cs call w (fun c w _ => call_leaves w c) Hw) as Hl.
  unfold calls in H. by rewrite H in Hl.
Qed.

(** [k] optional jobs, none on demand, with the edges [es], and no run in progress. *)
Record built_as (k : nat) (es : list (nat * nat)) (m : Impl) : Prop := {
  ba_adjacency : adjacency m = add_edges es (replicate k []);
  ba_flags : forall i, (i < k)%nat -> optional_at m i = true /\ ondemand_at m i = false;
  ba_idle : running_ m = false;
}.

Lemma ba_length k es m : built_as k es m -> length (nodes_ m) = k.
Proof. intros [Ha _ _]. by rewrite <- length_adjacency, Ha, add_edges_length, length_replicate. Qed.

Definition at_world (w : World) (m : Impl) : Prop := world_ok w /\ impl_of w 0 = Some (0%nat, m).

Lemma at_world_put w m m' : at_world w m -> impl_ok m' -> at_world (put_impl w 0 m') m'.
Proof. intros [Hw Hp] Hm. split; [by apply put_impl_world_ok|by apply (impl_of_put w 0 0 m)]. Qed.
Lemma at_world_ok w m : at_world w m -> impl_ok m.
Proof. intros [Hw Hp]. by eapply impl_of_ok. Qed.
Lemma at_world_ptr w m : at_world w m -> impl_ptr w 0 = Some 0%nat /\ exists o, heap w !! 0%nat = Some {| owner := o; impl := m |}.
Proof.
  intros [Hw Hp]. split; [|exists (Some 0%nat); by apply (impl_of_Some _ _ _ _ Hw)].
  unfold impl_of in Hp. apply bind_Some in Hp as (b & Hb & (? & _ & Hs)%bind_Some). congruence.
Qed.

Lemma update_handle (f : Node -> Node) w m i w' : at_world w m -> (i < length (nodes_ m))%nat -> benign f ->
  update_job f w (handles i) = Return w' tt -> at_world w' (alter_node f i m).
Proof.
  intros Hat Hi Hf. destruct (lookup_lt_is_Some_2 _ _ Hi) as [nd Hnd]. unfold update_job, handles.
  rewrite (with_node_handle w 0 0 m i nd) by first [apply Hat | done]. intros [= <-].
  apply (at_world_put _ m); [done|]. apply alter_node_benign; [done|by eapply at_world_ok].
Qed.

Lemma addNode_idle fn prefix flags m m' x : addNode fn prefix flags m = Return m' x -> running_ m' = running_ m.
Proof. unfold addNode. case_match; intros; by simplify_eq. Qed.

Lemma emplaced w m i w' : at_world w m -> call w (CEmplaceCancellable 0 i) = Return w' tt ->
  exists m' nd, at_world w' m' /\ adjacency m' = adjacency m ++ [[]] /\ nodes_ m' = nodes_ m ++ [nd] /\
    flags_ nd = kFlagCancellable /\ running_ m' = running_ m.
Proof.
  intros Hat H. pose proof (at_world_ok _ _ Hat) as Hm. destruct (at_world_ptr _ _ Hat) as [Hptr [o Hc]].
  cbn [call] in H. unfold on_object in H. destruct (is_object w 0); [|done].
  unfold emplaceCancellable, emplace_with, ensure in H. rewrite Hptr, Hc in H. cbn [impl] in H.
  pose proof (addNode_spec (Some (TokenFn i)) "job_" kFlagCancellable m Hm) as Hs. unfold on_impl in H.
  destruct (addNode _ _ _ m) as [m' idx|m' msg|] eqn:E; cbn in H; [|done..]. apply addNode_idle in E. simplify_eq.
  destruct Hs as (Hm' & _ & Ha' & nd & Hnd & _ & Hfl & _). exists m', nd.
  split; [by apply (at_world_put _ m)|done].
Qed.

(** The three calls for one job. *)
Lemma job_built w m i j w' : at_world w m -> built_as i [] m -> calls (job_calls i j) w = Return w' tt ->
  exists m', at_world w' m' /\ built_as (S i) [] m'.
Proof.
  intros Hat Hb H. pose proof (ba_length _ _ _ Hb) as Hl. destruct Hb as [Ha Hfl Hidle].
  apply (calls_app_inv [_]) in H as (w1 & H1%calls_one_inv & H).
  apply (calls_app_inv [_] [_]) in H as (w2 & H2%calls_one_inv & H3%calls_one_inv).
  destruct (emplaced _ _ _ _ Hat H1) as (m1 & nd & Hat1 & Ha1 & Hnd & Hf & Hr1).
  assert (Hl1 : length (nodes_ m1) = S i) by (rewrite Hnd, length_app; cbn; lia).
  assert (Hb2 : benign (set_nameStr (kname (jkind j)))) by (split; by intros []).
  cbn [call] in H2, H3. unfold Job_name, Job_optional in H2, H3.
  pose proof (update_handle _ _ m1 i _ Hat1 ltac:(lia) Hb2 H2) as Hat2.
  pose proof (update_handle _ _ _ i _ Hat2 ltac:(unfold alter_node; cbn; rewrite length_alter; lia)
    (benign_optional true) H3) as Hat3.
  eexists. split; [exact Hat3|]. split.
  - rewrite !adjacency_benign, Ha1, Ha by (done || apply (benign_optional true)).
    symmetry. apply (replicate_S_end i []).
  - intros k Hk. unfold optional_at, ondemand_at. rewrite !lookup_alter_node, Hnd.
    destruct (decide (i = k)) as [<-|].
    + rewrite lookup_app_r, Hl, Nat.sub_diag by lia. cbn. unfold isOptional, isOnDemand. cbn. by rewrite Hf.
    + rewrite lookup_app_l by lia. apply Hfl. lia.
  - unfold alter_node. cbn. congruence.
Qed.

Lemma jobs_built js i w m w' : at_world w m -> built_as i [] m ->
  calls (concat (imap (fun k => job_calls (i + k)) js)) w = Return w' tt ->
  exists m', at_world w' m' /\ built_as (i + length js) [] m'.
Proof.
  revert i w m. induction js as [|j js IH]; intros i w m Hat Hb H.
  - cbn in H. injection H as <-. exists m. by rewrite Nat.add_0_r.
  - rewrite imap_cons in H. cbn [concat] in H. apply calls_app_inv in H as (w1 & H1 & H).
    rewrite Nat.add_0_r in H1. destruct (job_built _ _ _ _ _ Hat Hb H1) as (m1 & Hat1 & Hb1).
    destruct (IH (S i) w1 m1 Hat1 Hb1) as (m' & Hat' & Hb').
    + erewrite imap_ext; [exact H|]. intros k x _. cbn. f_equal. lia.
    + exists m'. cbn. by rewrite Nat.add_succ_r.
Qed.

Lemma addEdge_flags from to m m' x : addEdge from to m = Return m' x ->
  flags_ <$> nodes_ m' = flags_ <$> nodes_ m /\ running_ m' = running_ m.
Proof.
  unfold addEdge. destruct (nodes_ m !! from), (nodes_ m !! to); try done.
  destruct (Succ.push_back _ _ _) as [[s pool] ?|[s pool] msg|]; try done. intros [= <-]. unfold alter_node. cbn.
  split; [|done]. rewrite !alter_fmap_id; [done|by intros []..].
Qed.

Lemma flags_built m m' k : flags_ <$> nodes_ m' = flags_ <$> nodes_ m ->
  optional_at m' k = optional_at m k /\ ondemand_at m' k = ondemand_at m k.
Proof.
  intros H. apply (f_equal (fun l => l !! k)) in H. rewrite !list_lookup_fmap in H.
  unfold optional_at, ondemand_at, isOptional, isOnDemand.
  destruct (nodes_ m !! k), (nodes_ m' !! k); simplify_eq/=; [|done]. match goal with H : flags_ _ = _ |- _ => by rewrite H end.
Qed.

Definition in_jobs (n : nat) (e : Edge) : Prop := ((edge_pair e).1 < n)%nat /\ ((edge_pair e).2 < n)%nat.

Lemma edges_built n ls es w m w' : at_world w m -> built_as n es m -> Forall (in_jobs n) ls ->
  calls (edge_call <$> ls) w = Return w' tt ->
  exists m', at_world w' m' /\ built_as n (es ++ (edge_pair <$> ls)) m'.
Proof.
  intros Hat Hb Hin. revert es w m Hat Hb. induction Hin as [|e ls [Hf Ht] _ IH]; intros es w m Hat Hb H.
  - cbn in H. injection H as <-. exists m. by rewrite app_nil_r.
  - apply (calls_app_inv [_]) in H as (w1 & H1%calls_one_inv & H).
    pose proof (ba_length _ _ _ Hb) as Hl. pose proof (at_world_ok _ _ Hat) as Hm.
    unfold edge_call, handles in H1. cbn [call] in H1.
    rewrite (succeed_handle w 0 0 m (edge_pair e).1 (edge_pair e).2) in H1 by (rewrite ?Hl; first [apply Hat | done]).
    pose proof (addEdge_ok m (edge_pair e).1 (edge_pair e).2 Hm ltac:(by rewrite Hl) ltac:(by rewrite Hl)) as Hs. unfold on_impl in H1.
    destruct (addEdge _ _ m) as [m1 []| |] eqn:E; [|done..]. injection H1 as <-. destruct Hs as (Hm1 & _ & Ha1).
    destruct (IH (es ++ [edge_pair e]) (put_impl w 0 m1) m1) as (m' & Hat' & Hb').
    + by apply (at_world_put _ m).
    + destruct (addEdge_flags _ _ _ _ _ E) as [Ef Er]. split.
      * rewrite Ha1, (ba_adjacency _ _ _ Hb). unfold add_edges. by rewrite foldl_app.
      * intros k Hk. destruct (flags_built m m1 k Ef) as [-> ->]. by apply Hb.
      * rewrite Er. by apply Hb.
    + exact H.
    + exists m'. by rewrite <- app_assoc in Hb'.
Qed.

(** A pipeline that was built has the request's jobs, all optional, and exactly its edges. *)
Lemma worker_pipeline_built r m : Forall (in_jobs (length (jobs r))) (edges r) -> worker_pipeline r = Some m ->
  impl_ok m /\ built_as (length (jobs r)) (edge_pair <$> edges r) m.
Proof.
  intros Hin. unfold worker_pipeline. destruct (calls _ _) as [w []| |] eqn:H; [|done..].
  intros ((a & m0) & Hw & ->)%fmap_Some. unfold worker_calls in H.
  apply calls_app_inv in H as (w0 & H0 & H). apply calls_app_inv in H as (w1 & H1 & H2).
  assert (Hat0 : at_world w0 Impl_new /\ built_as 0 [] Impl_new).
  { split; [|split; [done|lia|done]]. split; [|injection H0 as <-; done].
    eapply calls_ok; [apply world_empty_ok|exact H0]. }
  destruct Hat0 as [Hat0 Hb0]. destruct (jobs_built _ 0 _ _ _ Hat0 Hb0 H1) as (m1 & Hat1 & Hb1).
  destruct (edges_built _ _ _ _ _ _ Hat1 Hb1 Hin H2) as (m' & Hat' & Hb').
  pose proof (proj2 Hat') as Hp. rewrite Hw in Hp. injection Hp as -> ->.
  split; [by eapply at_world_ok|done].
Qed.

(** Its edges, as the jobs' predecessors. *)
Lemma add_edges_edge es adj p i : Kahn.edge (add_edges es adj) p i <->
  Kahn.edge adj p i \/ ((p < length adj)%nat /\ (p, i) ∈ es).
Proof.
  revert adj. induction es as [|[q j] es IH]; intros adj; [set_solver|].
  change (add_edges ((q, j) :: es) adj) with (add_edges es (alter (fun l => l ++ [j]) q adj)).
  rewrite IH, length_alter, elem_of_cons. unfold Kahn.edge. destruct (decide (q = p)) as [->|Hne].
  - rewrite list_lookup_alter_eq. split.
    + intros [(l & (l0 & Hl & ->)%fmap_Some & Hi)|[? ?]]; [|by auto].
      apply elem_of_app in Hi as [Hi| ->%list_elem_of_singleton]; [by eauto|].
      right. split; [by eapply lookup_lt_Some|by left].
    + intros [(l & Hl & Hi)|[Hp [[= ->]|H]]]; [| |by auto].
      * left. exists (l ++ [j]). rewrite Hl. set_solver.
      * destruct (lookup_lt_is_Some_2 _ _ Hp) as [l Hl]. left. exists (l ++ [j]). rewrite Hl. set_solver.
  - rewrite list_lookup_alter_ne by done. naive_solver.
Qed.

Lemma predecessor_edge r i p : p ∈ predecessorIds r i <-> (p, i) ∈ edge_pair <$> edges r.
Proof.
  unfold predecessorIds. rewrite list_elem_of_omap, list_elem_of_fmap. split.
  - intros (e & He & H). case_decide as Hd; [|done]. injection H as <-. exists e. split; [|done].
    unfold edge_pair in *. cbn in Hd. by rewrite Hd.
  - intros (e & H & He). exists e. split; [done|]. rewrite <- H. cbn. by rewrite decide_True.
Qed.

Lemma built_predecessors r m p i : Forall (in_jobs (length (jobs r))) (edges r) ->
  built_as (length (jobs r)) (edge_pair <$> edges r) m ->
  (Kahn.edge (adjacency m) p i <-> p ∈ predecessorIds r i).
Proof.
  intros Hin [Ha _ _]. rewrite Ha, add_edges_edge, predecessor_edge, length_replicate. split.
  - intros [(l & Hl & Hi)|[_ H]]; [|done]. apply lookup_replicate in Hl as [-> _]. by apply elem_of_nil in Hi.
  - intros H. right. split; [|done]. apply list_elem_of_fmap in H as (e & He & Hel).
    rewrite Forall_forall in Hin. destruct (Hin e Hel) as [H _]. by rewrite <- He in H.
Qed.
