(* ===== verification/WorkerCorrect.v ===== *)
(** A request's reply does not depend on the schedule: it is the one computed
    from each job's predecessors alone. *)
From stdpp Require Import sorting pretty.
From S2P Require Import Prelude Types EdgeLists SuccessorPool Nodes Kahn Graph Pipeline Run Dispatch Scheduler SchedulerStep SchedulerInv SchedulerKeep Termination RunCorrect Construction Inline Bytes Payload SubGraph Registry WorkerRun WorkerBuild.

(** ** The operations of a worker's run *)

(** Optional jobs that never return [kCancelled] leave no way to skip, fail or await. *)
Definition plain (o : op) : Prop :=
  match o with
  | OAwait _ | ODeliver _ | OSubmissionFailed _ | OSubRecord _ _ | OSubCount _ | OFatal _ _ _
  | OSkips _ | OSkipEnter _ | OSkipClaims _ _ | OSkipLoop | OSkipRelock => False
  | OFinish _ r | OCount _ r | OAfter _ r => r <> Unexpected kCancelledError
  | _ => True
  end.

(** The environment of a worker's run. *)
Definition work_choice (res : Outcome) (o : op) : choice :=
  match o with OInvoke _ => CResult res | ORoots (_ :: _) | OSubmit _ _ _ => CSubmit true | _ => CNone end.

Lemma plain_dependencies m i : Forall plain (notifyDependencies m i).
Proof. unfold notifyDependencies. destruct (succs m i); repeat constructor. Qed.

Ltac plains := split; [done|]; cbn; repeat (apply Forall_cons; split; [cbn; by eauto|]); apply Forall_nil; exact I.

Lemma plain_step res o c c' ops sp : run_op (work_choice res o) o c = Some (c', ops, sp) ->
  hasFatalFailure c = false -> plain o -> (forall i r, o = OAfter i r -> optional_at (impl_ c) i = true) ->
  (forall i, o = OInvoke i -> res <> Unexpected kCancelledError) ->
  hasFatalFailure c' = false /\ Forall plain (ops ++ mjoin sp).
Proof.
  intros H Hf Hp Ho Hr. destruct o as [[|i l]|i|i|i|i|i|i r|i r|i r|i e l|i [|s l]|i s l|i s l|i s l|i|i b|i|l|i|l k| | |e]; try done;
    cbn [run_op work_choice] in H; rewrite ?Hf in H; try (simplify_eq; plains).
  - destruct (status_at (impl_ c) i); simplify_eq; plains.
  - injection H as <- <- <-. split; [done|]. cbn. rewrite app_nil_r. constructor; [done|]. apply Forall_app.
    split; [apply plain_dependencies|by repeat constructor].
  - rewrite (Ho i r eq_refl) in H. unfold fatal_result in H. destruct r as [|e]; [by simplify_eq; plains|].
    cbn in Hp, H. rewrite bool_decide_false in H by congruence. by simplify_eq; plains.
  - simplify_eq. split; [done|]. cbn. by case_match; repeat constructor.
  - destruct (status_at (impl_ c) _); simplify_eq; plains.
Qed.

(** A finished job was running, a job that is invoked was ready, a result was returned. *)
Lemma step_finished m owed s o c' new p' i : stepped m owed s o c' new p' -> plain o ->
  terminal (st c' i) = true -> terminal (st (ctx s) i) = true \/ exists r, o = OFinish i r /\ st c' i = statusOf r.
Proof.
  intros Hs Hp. pose proof (stepped_op _ _ _ _ _ _ _ Hs) as Hop. destruct Hs as [Hinv Hrule _].
  pose proof (sg_length _ _ (i_graph _ _ _ Hinv)) as Hlen.
  destruct Hrule; cbn in Hop, Hp |- *; autorewrite with st_rw; auto; try done;
    rewrite status_store_status by (rewrite Hlen; first [exact Hop | apply Hop]); case_decide; subst; eauto; done.
Qed.

(** The operation of [Hin] in a list of new ones. *)
Ltac among Hin := repeat (rewrite ?elem_of_cons, ?elem_of_app, ?elem_of_nil in Hin;
  repeat match type of Hin with _ \/ _ => destruct Hin as [Hin|Hin] end); try done; simplify_eq; try done.

Lemma invoke_was_claimed c o c' new i : rule c o c' new -> OInvoke i ∈ new -> o = OClaim i /\ st c i = kReady.
Proof.
  intros Hr Hin. destruct Hr; among Hin.
  all: match goal with H : Forall is_dep _ |- _ => rewrite Forall_forall in H; by apply H in Hin end.
Qed.

Lemma finish_was_invoked res o c c' ops sp i r : run_op (work_choice res o) o c = Some (c', ops, sp) ->
  hasFatalFailure c = false -> plain o -> OFinish i r ∈ ops ++ mjoin sp -> o = OInvoke i /\ r = res.
Proof.
  intros H Hf Hp Hin. destruct o as [[|j l]|j|j|j|j|j|j q|j q|j q|j e l|j [|s l]|j s l|j s l|j s l|j|j b|j|l|j|l k| | |e]; try done;
    cbn [run_op work_choice] in H; rewrite ?Hf in H; repeat (case_match; try done); simplify_eq;
    cbn in Hin; rewrite ?app_nil_r in Hin; among Hin.
  by pose proof (proj1 (Forall_forall _ _) (notify_deps _ _) _ Hin).
Qed.

(** No submission is refused and the stop does not come. *)
Definition undisturbed (mv : WorkMove) : Prop := match mv with WMove _ WRefused | WStop => False | _ => True end.

Lemma called_inv registry r inputs a i w x : stops_ w = 0%nat -> called registry r inputs a i w = Some x ->
  x = judge registry r inputs i (slot (bench w) i) (sees r (bench w) (impl_ (ctx (run w))) i).
Proof. unfold called. intros ->. cbn [Nat.ltb Nat.leb]. destruct a; [by intros [= <-]|done|by intros [= <-]]. Qed.

(** What [work_step] does. *)
Lemma work_step_inv registry r inputs k a w w' : work_step registry r inputs k a w = Some w' -> undisturbed (WMove k a) -> stops_ w = 0%nat ->
  stops_ w' = 0%nat /\ exists o rest res c' ops sp, threads (run w) !! k = Some (o :: rest) /\
    run_op (work_choice res o) o (ctx (run w)) = Some (c', ops, sp) /\
    run w' = {| ctx := c'; threads := <[k := ops ++ rest]> (threads (run w)) ++ sp |} /\
    match o with
    | OInvoke i => exists s, (s, res) = judge registry r inputs i (slot (bench w) i) (sees r (bench w) (impl_ (ctx (run w))) i) /\
        bench w' = <[i := s]> (bench w)
    | _ => bench w' = bench w
    end.
Proof.
  unfold work_step, step_thread. destruct (threads (run w) !! k) as [[|o rest]|] eqn:Ek; [done| |done].
  intros H Hu Hst. assert (Ha : match a with WRefused => false | _ => true end = true) by (by destruct a). rewrite Ha in H. split.
  { revert H. destruct o as [[|j l]|j|j|j|j|j|j q|j q|j q|j e l|j [|s l]|j s l|j s l|j s l|j|j b|j|l|j|l x| | |e].
    5: destruct (called registry r inputs a _ w) as [[? ?]|]; [|done].
    all: cbn [mbind option_bind]; by intros (? & _ & ->)%fmap_Some. }
  exists o, rest.
  assert (Hgen : forall (b : Bench) ch, let x := run_op ch o (ctx (run w)) in
    (fun x => mkWork x b (stops_ w)) <$> (match x with Some (c, ops, sp) =>
       Some {| ctx := c; threads := <[k := ops ++ rest]> (threads (run w)) ++ sp |} | None => None end) = Some w' ->
    exists c' ops sp, x = Some (c', ops, sp) /\
      run w' = {| ctx := c'; threads := <[k := ops ++ rest]> (threads (run w)) ++ sp |} /\ bench w' = b).
  { intros b ch. cbv zeta. destruct (run_op ch o _) as [[[c' ops] sp]|]; [|done]. intros [= <-]. by exists c', ops, sp. }
  destruct o as [[|j l]|j|j|j|j|j|j q|j q|j q|j e l|j [|s l]|j s l|j s l|j s l|j|j b|j|l|j|l x| | |e];
    try (exists success; match goal with |- context [work_choice _ ?x] => specialize (Hgen (bench w) (work_choice success x) H) end;
      destruct Hgen as (c' & ops & sp & ? & ? & ?); exists c', ops, sp; done).
  apply bind_Some in H as ([s res] & Hj & H). apply called_inv in Hj; [|done]. exists res.
  destruct (Hgen _ (CResult res) H) as (c' & ops & sp & ? & ? & ?). exists c', ops, sp. repeat (split; [done|]).
  by exists s.
Qed.

(** ** What a worker's run keeps *)

Lemma cnt_two f p o x : in_pool o p -> in_pool x p -> o <> x -> (f o + f x <= cnt f p)%nat.
Proof.
  intros (t & Ht & Ho) (t' & Ht' & Hx) Hne. unfold cnt.
  apply list_elem_of_split in Ht as (l1 & l2 & ->). rewrite sum_list_with_app. cbn.
  assert (Hsplit : t' = t \/ t' ∈ l1 ++ l2).
  { rewrite elem_of_app, elem_of_cons in Ht'. rewrite elem_of_app. destruct Ht' as [?|[?|?]]; auto. }
  destruct Hsplit as [-> | Hin].
  - assert (f o + f x <= cntl f t)%nat; [|lia]. clear -Ho Hx Hne. unfold cntl.
    apply list_elem_of_split in Ho as (k1 & k2 & ->). rewrite sum_list_with_app. cbn.
    apply elem_of_app in Hx as [Hi|[Hi|Hi]%elem_of_cons]; [|congruence|];
      apply list_elem_of_split in Hi as (? & ? & ->); rewrite sum_list_with_app; cbn; lia.
  - assert (Hc : (f o <= cntl f t)%nat).
    { apply list_elem_of_split in Ho as (k1 & k2 & ->). rewrite cntl_app. unfold cntl at 2. cbn. lia. }
    assert (Hd : (f x <= cnt f (l1 ++ l2))%nat) by (apply cnt_le_pool; by exists t').
    rewrite cnt_app in Hd. unfold cnt in Hd. lia.
Qed.

Lemma moves_early s t : moves s t -> t = kPending \/ t = kReady -> s = kPending.
Proof. destruct 1 as [| | |q|q| | |]; try (destruct q as [|[]]); intros [|]; done. Qed.

Section worker.
Context (registry : list (JobKindId * Kind)) (r : SubGraphRequest) (inputs : list Payload) (m : Impl).
Abbreviation judged := (judge registry r inputs).
Abbreviation n := (length (nodes_ m)).
Context (Hstart : start_ok m).
Context (Hflags : forall i, (i < n)%nat -> optional_at m i = true /\ ondemand_at m i = false).
Context (Hpreds : forall p i, Kahn.edge (adjacency m) p i <-> p ∈ predecessorIds r i).
Context (Hkinds : forall i old l, (judged i old l).2 <> Unexpected kCancelledError).

(** Job [i]'s slot and result are those of its body on its predecessors' outcomes. *)
Definition settled (w : WorkState) (i : nat) (res : Outcome) : Prop :=
  (slot (bench w) i, res) = judged i Slot_fresh (sees r (bench w) (impl_ (ctx (run w))) i).

Record work_inv (w : WorkState) : Prop := {
  wv_inv : exists owed, inv m owed (run w);
  wv_fatal : hasFatalFailure (ctx (run w)) = false;
  wv_stops : stops_ w = 0%nat;
  wv_plain : forall o, in_pool o (threads (run w)) -> plain o;
  wv_length : length (bench w) = n;
  wv_fresh : forall i, st (ctx (run w)) i = kPending \/ st (ctx (run w)) i = kReady \/
    in_pool (OInvoke i) (threads (run w)) -> slot (bench w) i = Slot_fresh;
  wv_finish : forall i res, in_pool (OFinish i res) (threads (run w)) -> settled w i res;
  wv_final : forall i, terminal (st (ctx (run w)) i) = true ->
    exists res, st (ctx (run w)) i = statusOf res /\ settled w i res;
}.

Lemma slot_insert b i s j : (i < length b)%nat -> slot (<[i := s]> b) j = if decide (i = j) then s else slot b j.
Proof.
  intros Hi. unfold slot. case_decide; [subst; by rewrite list_lookup_insert_eq|by rewrite list_lookup_insert_ne].
Qed.

(** One operation of a run, with the bodies' effect on the bench. *)
Section step.
Context (w w' : WorkState) (owed : list (list nat)) (o : op) (res : Outcome) (new : list op).
Context (Hwork : work_inv w) (Hinv : inv m owed (run w)).
Context (Hs : stepped m owed (run w) o (ctx (run w')) new (threads (run w'))).
Context (Hbench : match o with
  | OInvoke i => exists s, (s, res) = judged i (slot (bench w) i) (sees r (bench w) (impl_ (ctx (run w))) i) /\
      bench w' = <[i := s]> (bench w)
  | _ => bench w' = bench w
  end).
Abbreviation was i := (st (ctx (run w)) i).

Lemma op_here : in_pool o (threads (run w)).
Proof. apply (sp_pool _ _ _ _ _ _ _ Hs). Qed.

Lemma running_predecessors i p : was i <> kPending -> was i <> kSkipped -> p ∈ predecessorIds r i -> terminal (was p) = true.
Proof. intros Hp Hk He%Hpreds. eapply released_terminal, started_released; [exact Hstart|exact Hinv|exact Hp|exact Hk|done]. Qed.

Lemma invoked_running i : in_pool (OInvoke i) (threads (run w)) -> was i = kRunning \/ was i = kAwaiting.
Proof.
  intros Hin. pose proof (cnt_le_pool (runN i) _ _ Hin) as Hc. cbn in Hc. rewrite at1_same in Hc.
  pose proof (i_tokens _ _ _ Hinv i) as Ht. unfold tokens_ok in Ht. destruct (was i); auto; lia.
Qed.
Lemma finishing_running i x : in_pool (OFinish i x) (threads (run w)) -> was i = kRunning \/ was i = kAwaiting.
Proof.
  intros Hin. pose proof (cnt_le_pool (runN i) _ _ Hin) as Hc. cbn in Hc. rewrite at1_same in Hc.
  pose proof (i_tokens _ _ _ Hinv i) as Ht. unfold tokens_ok in Ht. destruct (was i); auto; lia.
Qed.

(** Only the job that is invoked has its slot written. *)
Lemma slot_kept i : o <> OInvoke i -> slot (bench w') i = slot (bench w) i.
Proof.
  intros Ho. pose proof (i_ops _ _ _ Hinv _ op_here) as Hop. clear Hs. destruct o as [| |j|j| | | | | | | | | | | | | | | | | | |]; try by rewrite Hbench.
  destruct Hbench as (s & _ & ->). rewrite slot_insert; [by rewrite decide_False by congruence|].
  rewrite (wv_length _ Hwork). exact Hop.
Qed.

Lemma final_kept i : terminal (was i) = true ->
  slot (bench w') i = slot (bench w) i /\ st (ctx (run w')) i = was i.
Proof.
  intros Ht. split; [|by eapply step_terminal]. apply slot_kept. intros Ho.
  pose proof op_here as Hin. rewrite Ho in Hin. destruct (invoked_running i Hin) as [E|E]; by rewrite E in Ht.
Qed.

Lemma sees_kept i : (forall p, p ∈ predecessorIds r i -> terminal (was p) = true) ->
  sees r (bench w') (impl_ (ctx (run w'))) i = sees r (bench w) (impl_ (ctx (run w))) i.
Proof.
  intros H. unfold sees. apply list_fmap_ext. intros k p Hp%list_elem_of_lookup_2.
  destruct (final_kept p (H p Hp)) as [-> E]. f_equal. exact E.
Qed.

Lemma settled_kept i x : o <> OInvoke i -> was i <> kPending -> was i <> kSkipped -> settled w i x -> settled w' i x.
Proof.
  intros Ho Hp Hk H. unfold settled in *. rewrite slot_kept, sees_kept by eauto using running_predecessors. done.
Qed.

Lemma invoke_or i : o = OInvoke i \/ o <> OInvoke i.
Proof.
  destruct o as [| |j|j| | | | | | | | | | | | | | | | | | |]; try by right. destruct (decide (j = i)) as [->|]; [by left|right; congruence].
Qed.

Lemma not_skipped i : was i <> kSkipped.
Proof. intros E. pose proof (i_skipped _ _ _ Hinv i E). by rewrite (wv_fatal _ Hwork) in *. Qed.

(** What the operation returned. *)
Context (owed' : list (list nat)) (Hinv' : inv m owed' (run w')).
Context (Hresult : forall i, o = OInvoke i -> OFinish i res ∈ new).
Context (Hfinish : forall i x, OFinish i x ∈ new -> o = OInvoke i /\ x = res).

Lemma early_kept i : (st (ctx (run w')) i = kPending -> was i = kPending \/ was i = kReady) /\
  (st (ctx (run w')) i = kReady -> was i = kPending \/ was i = kReady).
Proof.
  destruct (step_status _ _ _ _ _ _ _ i Hs) as [->|Hst]; [by auto|].
  split; intros E; rewrite E in Hst; left; by apply (moves_early _ _ Hst); auto.
Qed.

Lemma fresh_kept i : st (ctx (run w')) i = kPending \/ st (ctx (run w')) i = kReady \/
  in_pool (OInvoke i) (threads (run w')) -> slot (bench w') i = Slot_fresh.
Proof.
  intros H. assert (Hno : o <> OInvoke i).
  { intros Ho. pose proof op_here as Hin. rewrite Ho in Hin. pose proof (invoked_running i Hin) as Hr.
    destruct H as [H|[H|H]]; [apply early_kept in H|apply early_kept in H|]; [destruct H, Hr; congruence..|].
    pose proof (pc_new _ _ _ _ (sp_pool _ _ _ _ _ _ _ Hs) _ (Hresult i Ho)) as Hp'.
    pose proof (cnt_two (runN i) _ _ _ Hp' H ltac:(done)) as Hc. cbn in Hc. rewrite at1_same in Hc.
    pose proof (i_tokens _ _ _ Hinv' i) as Ht. unfold tokens_ok in Ht. destruct (st (ctx (run w')) i); lia. }
  rewrite slot_kept by done. apply (wv_fresh _ Hwork).
  destruct H as [H|[H|H]]; [apply early_kept in H; tauto..|].
  destruct (pc_old _ _ _ _ (sp_pool _ _ _ _ _ _ _ Hs) _ H) as [Hn|Hn]; [|by auto].
  destruct (invoke_was_claimed _ _ _ _ _ (sp_rule _ _ _ _ _ _ _ Hs) Hn); by auto.
Qed.

Lemma finish_kept i x : in_pool (OFinish i x) (threads (run w')) -> settled w' i x.
Proof.
  intros H. destruct (pc_old _ _ _ _ (sp_pool _ _ _ _ _ _ _ Hs) _ H) as [Hn|Hn].
  - destruct (Hfinish i x Hn) as [Ho ->]. pose proof op_here as Hin. rewrite Ho in Hin.
    pose proof (invoked_running i Hin) as Hr. pose proof (i_ops _ _ _ Hinv _ Hin) as Hlt. cbn in Hlt.
    pose proof Hbench as Hb. rewrite Ho in Hb. destruct Hb as (s & Hj & Hb). unfold settled.
    rewrite sees_kept by (intros p; apply running_predecessors; by destruct Hr as [-> | ->]).
    rewrite Hb, slot_insert, decide_True by (rewrite ?(wv_length _ Hwork); done).
    by rewrite (wv_fresh _ Hwork i) in Hj by auto.
  - pose proof (finishing_running i x Hn) as Hr. apply settled_kept; [|by destruct Hr as [-> | ->]..|by apply (wv_finish _ Hwork)].
    intros Ho. pose proof op_here as Hin. rewrite Ho in Hin.
    pose proof (cnt_two (runN i) _ _ _ Hin Hn ltac:(done)) as Hc. cbn in Hc. rewrite at1_same in Hc.
    pose proof (i_tokens _ _ _ Hinv i) as Ht. unfold tokens_ok in Ht. destruct (was i); lia.
Qed.

Lemma final_settled i : terminal (st (ctx (run w')) i) = true ->
  exists x, st (ctx (run w')) i = statusOf x /\ settled w' i x.
Proof.
  intros H. pose proof (wv_plain _ Hwork _ op_here) as Hp.
  destruct (step_finished _ _ _ _ _ _ _ i Hs Hp H) as [Ht|(x & Ho & E)].
  - destruct (final_kept i Ht) as [_ E]. rewrite E. destruct (wv_final _ Hwork i Ht) as (x & Hx & Hset).
    exists x. split; [done|]. apply settled_kept; [|by intros E'; rewrite E' in Ht|apply not_skipped|done].
    intros Ho. pose proof op_here as Hin. rewrite Ho in Hin. destruct (invoked_running i Hin) as [E'|E']; by rewrite E' in Ht.
  - exists x. split; [done|]. pose proof op_here as Hin. rewrite Ho in Hin.
    pose proof (finishing_running i x Hin) as Hr.
    apply settled_kept; [congruence|by destruct Hr as [-> | ->]..|by apply (wv_finish _ Hwork)].
Qed.
End step.

Lemma work_step_inv_kept k a w w' : work_inv w -> undisturbed (WMove k a) -> work_step registry r inputs k a w = Some w' -> work_inv w'.
Proof.
  intros Hwork Hu H. destruct (work_step_inv _ _ _ _ _ _ _ H Hu (wv_stops _ Hwork)) as (Hst & o & rest & res & c' & ops & sp & Hk & Hop & Hrun & Hb).
  destruct (wv_inv _ Hwork) as [owed Hinv].
  pose proof (thread_stepped _ _ _ _ _ _ _ _ _ _ Hinv Hk Hop) as Hs.
  assert (Hstep : step (run w) (run w')) by (exists k, (work_choice res o); unfold step_thread; by rewrite Hk, Hop, Hrun).
  destruct (step_keeps_inv _ _ _ _ Hstart Hinv Hstep) as (owed' & Hinv' & _).
  replace c' with (ctx (run w')) in Hs by (by rewrite Hrun).
  replace (<[k:=ops ++ rest]> (threads (run w)) ++ sp) with (threads (run w')) in Hs by (by rewrite Hrun).
  pose proof (sp_pool _ _ _ _ _ _ _ Hs) as Hpool. pose proof (pc_here _ _ _ _ Hpool) as Hin.
  pose proof (wv_plain _ Hwork _ Hin) as Hp. pose proof (i_ops _ _ _ Hinv _ Hin) as Hok.
  destruct (plain_step _ _ _ _ _ _ Hop (wv_fatal _ Hwork) Hp) as [Hf Hplain].
  { intros i x ->. rewrite (sg_optional _ _ (i_graph _ _ _ Hinv)). by apply Hflags, Hok. }
  { intros i ->. destruct Hb as (s & Hj & _). pose proof (Hkinds i (slot (bench w) i) (sees r (bench w) (impl_ (ctx (run w))) i)) as Hc.
    by rewrite <- Hj in Hc. }
  assert (Hresult : forall i, o = OInvoke i -> OFinish i res ∈ ops ++ mjoin sp) by (intros i ->; cbn in Hop; simplify_eq; by left).
  assert (Hfinish : forall i x, OFinish i x ∈ ops ++ mjoin sp -> o = OInvoke i /\ x = res).
  { intros i x. apply (finish_was_invoked _ _ _ _ _ _ _ _ Hop (wv_fatal _ Hwork) Hp). }
  split; [by eauto|by rewrite Hrun|done|..].
  - intros x Hx. destruct (pc_old _ _ _ _ Hpool x Hx) as [Hn|Hn]; [|by apply (wv_plain _ Hwork)].
    rewrite Forall_forall in Hplain. by apply Hplain.
  - rewrite <- (wv_length _ Hwork). destruct o; try by rewrite Hb. destruct Hb as (s & _ & ->). apply length_insert.
  - intros i. by eapply fresh_kept.
  - intros i x. by eapply finish_kept.
  - intros i. by eapply final_settled.
Qed.

Lemma work_steps_inv_kept l w w' : work_inv w -> Forall undisturbed l -> work_steps registry r inputs l w = Some w' -> work_inv w'.
Proof.
  intros Hw Hl. revert w Hw. induction Hl as [|[k a|] l Hu Hl IH]; intros w Hw H; [by injection H as <-| |done].
  cbn in H. apply bind_Some in H as (w1 & H1 & H). eapply IH; [|exact H]. by eapply work_step_inv_kept.
Qed.
(** *** At the start and at the end *)

Lemma work_start s0 : s0 = start_threaded m \/ s0 = start_inline m -> length (jobs r) = n -> work_inv (mkWork s0 (bench_of r) 0).
Proof.
  intros Hs Hl. assert (Hc : ctx s0 = make_context m) by (by destruct Hs as [-> | ->]).
  assert (Hp : forall o, in_pool o (threads s0) -> (exists l, o = ORoots l) \/ exists i, o = ODispatchJob i).
  { intros o (t & Ht & Ho). destruct Hs as [-> | ->]; cbn in Ht.
    - apply list_elem_of_singleton in Ht as ->. apply list_elem_of_singleton in Ho as ->. by left; eexists.
    - apply list_elem_of_fmap in Ht as (i & -> & _). apply list_elem_of_singleton in Ho as ->. by right; exists i. }
  split; cbn [run bench stops_]; rewrite ?Hc; cbn [make_context hasFatalFailure impl_].
  - destruct Hs as [-> | ->]; eauto using start_threaded_inv, start_inline_inv.
  - done.
  - done.
  - intros o [[l ->]|[i ->]]%Hp; done.
  - unfold bench_of. by rewrite length_replicate.
  - intros i _. unfold slot, bench_of. destruct (_ !! i) eqn:E; [|done]. by apply lookup_replicate in E as [-> _].
  - intros i x [[l H]|[j H]]%Hp; done.
  - intros i Ht. by rewrite start_not_terminal in Ht by done.
Qed.

Lemma work_all_final w i : work_inv w -> quiescent (run w) -> (i < n)%nat -> terminal (st (ctx (run w)) i) = true.
Proof.
  intros Hw Hq. destruct (wv_inv _ Hw) as [owed Hinv].
  pose proof (acyclic_ind (adjacency m) (fun i => terminal (st (ctx (run w)) i) = true) (so_targets _ Hstart)
    (so_edges _ Hstart) (so_acyclic _ Hstart)) as Hind. rewrite length_adjacency in Hind. apply Hind.
  intros j Hj IH. destruct (terminal (st (ctx (run w)) j)) eqn:E; [done|].
  pose proof (quiescent_waiting _ _ _ j Hinv Hq Hj E) as Hp.
  destruct (quiescent_blocked _ _ _ j Hinv Hq Hj Hp) as [[Hd _]|(q & Hqn & Hpq & He)].
  - by rewrite (proj2 (Hflags j Hj)) in Hd.
  - specialize (IH q He). by rewrite Hpq in IH.
Qed.

(** Each job's slot and status are those the reference computes. *)
Lemma verdict_reached w R : work_inv w -> (forall i, (i < n)%nat -> terminal (st (ctx (run w)) i) = true) ->
  (forall k i p, R !! k = Some i -> Kahn.edge (adjacency m) p i -> p ∈ take k R) -> Forall (fun i => i < n)%nat R ->
  forall fuel k i, R !! k = Some i -> (k < fuel)%nat ->
    verdict registry r inputs fuel i = (slot (bench w) i, st (ctx (run w)) i).
Proof.
  intros Hw Hend Htopo HR. induction fuel as [|fuel IH]; [lia|]. intros k i Hk Hlt.
  pose proof (Forall_lookup_1 _ _ _ _ HR Hk) as Hi. cbn in Hi.
  destruct (wv_final _ Hw i (Hend i Hi)) as (x & Hx & Hset). cbn [verdict].
  replace (verdict registry r inputs fuel <$> predecessorIds r i)
    with (sees r (bench w) (impl_ (ctx (run w))) i).
  - unfold settled in Hset. rewrite <- Hset, Hx. done.
  - unfold sees. apply list_fmap_ext. intros q p Hp%list_elem_of_lookup_2%Hpreds.
    destruct (proj1 (elem_of_take _ _ _) (Htopo k i p Hk Hp)) as (j & Hj & Hjk). symmetry. apply (IH j); [done|lia].
Qed.

Lemma work_outcome w i : work_inv w -> quiescent (run w) -> (i < n)%nat ->
  verdict registry r inputs (S n) i = (slot (bench w) i, st (ctx (run w)) i).
Proof.
  intros Hw Hq Hi. assert (Hend : forall i, (i < n)%nat -> terminal (st (ctx (run w)) i) = true) by eauto using work_all_final.
  destruct (kahn_sound _ (so_targets _ Hstart) (so_edges _ Hstart)
    (kahn_complete _ (so_targets _ Hstart) (so_edges _ Hstart) (so_acyclic _ Hstart))) as (R & HR & Htopo).
  rewrite length_adjacency in HR.
  assert (Hin : i ∈ R) by (rewrite HR; apply elem_of_seq; lia). apply list_elem_of_lookup in Hin as [k Hk].
  eapply (verdict_reached w R); [done|done|done| |exact Hk|].
  - apply Forall_forall. intros j Hj. rewrite HR in Hj. apply elem_of_seq in Hj. lia.
  - apply lookup_lt_Some in Hk. apply Permutation_length in HR. rewrite length_seq in HR. lia.
Qed.

(** *** It can always go on *)

Lemma plain_enabled res o c : plain o -> hasFatalFailure c = false -> succeeds (run_op (work_choice res o) o c) = true.
Proof.
  intros Hp Hf. destruct o as [[|i l]|i|i|i|i|i|i q|i q|i q|i e l|i [|s l]|i s l|i s l|i s l|i|i b|i|l|i|l k| | |e]; try done;
    cbn; rewrite ?Hf; repeat case_match; done.
Qed.

Lemma work_step_enabled k o rest w : work_inv w -> threads (run w) !! k = Some (o :: rest) ->
  exists w', work_step registry r inputs k WPlain w = Some w'.
Proof.
  intros Hw Hk. assert (Hp : plain o).
  { apply (wv_plain _ Hw). exists (o :: rest). split; [by eapply list_elem_of_lookup_2|by left]. }
  pose proof (fun res => plain_enabled res o (ctx (run w)) Hp (wv_fatal _ Hw)) as He.
  unfold work_step, step_thread. rewrite Hk.
  destruct o as [[|i l]|i|i|i|i|i|i q|i q|i q|i e l|i [|s l]|i s l|i s l|i s l|i|i b|i|l|i|l x| | |e]; try done;
    try (specialize (He success); cbn [work_choice] in He; destruct (run_op _ _ _) as [[[? ?] ?]|]; [by eexists|done]).
  unfold called. rewrite (wv_stops _ Hw). cbn [Nat.ltb Nat.leb mbind option_bind]. destruct (judged _ _ _) as [s res] eqn:E. specialize (He res). cbn [work_choice] in He.
  destruct (run_op _ _ _) as [[[? ?] ?]|]; [by eexists|done].
Qed.

Lemma work_inline_total fuel w : work_inv w -> (measure m (run w) <= fuel)%nat ->
  exists w', work_inline registry r inputs fuel w = Some w' /\ work_inv w' /\ quiescent (run w').
Proof.
  revert w. induction fuel as [|fuel IH]; intros w Hw Hf; cbn;
    (destruct (next_thread (threads (run w))) as [k|] eqn:En; [|exists w; split; [done|]; split; [done|by apply next_thread_None]]);
    destruct (next_thread_Some _ _ En) as (o & rest & Hk); destruct (work_step_enabled _ _ _ _ Hw Hk) as [w1 H1];
    destruct (wv_inv _ Hw) as [owed Hinv];
    assert (Hstep : step (run w) (run w1)) by
      (destruct (work_step_inv _ _ _ _ _ _ _ H1 I (wv_stops _ Hw)) as (_ & o' & rest' & res & c' & ops & sp & Hk' & Hop & Hrun & _);
       exists k, (work_choice res o'); unfold step_thread; by rewrite Hk', Hop, Hrun);
    destruct (step_keeps_inv _ _ _ _ Hstart Hinv Hstep) as (_ & _ & Hlt); [lia|].
  rewrite H1. apply IH; [by apply (work_step_inv_kept k WPlain w)|lia].
Qed.
End worker.

(** ** The reply *)

Definition kinds_ok (registry : list (JobKindId * Kind)) : Prop :=
  forall k fn x l, (k, fn) ∈ registry -> ran_result (fn x l) <> Unexpected kCancelledError.
Definition request_acyclic (r : SubGraphRequest) : Prop := forall i, ~ tc (fun p j => p ∈ predecessorIds r j) i i.

Lemma find_in (registry : list (JobKindId * Kind)) name v fn :
  find registry name v = Some fn -> exists k, (k, fn) ∈ registry.
Proof.
  induction registry as [|[k f] l IH]; cbn; [done|]. destruct (_ && _).
  - intros [= ->]. exists k. by left.
  - intros (k' & Hk)%IH. exists k'. by right.
Qed.

Lemma judged_kinds registry r inputs i old l : kinds_ok registry -> (judge registry r inputs i old l).2 <> Unexpected kCancelledError.
Proof.
  intros Hk. unfold judge, judge_as. destruct (existsb _ _); [done|]. unfold kind_of.
  destruct (jobs r !! i) as [j|]; [|done]. cbn. destruct (find _ _ _) as [fn|] eqn:E; [|done].
  destruct (find_in _ _ _ _ E) as [k Hin]. exact (Hk k fn _ _ Hin).
Qed.

Lemma request_in_jobs r : request_ok r -> Forall (in_jobs (length (jobs r))) (edges r).
Proof.
  intros [_ He]. eapply Forall_impl; [exact He|]. intros e (H1 & H2 & _). unfold in_jobs, edge_pair, zlen, jobs in *. cbn. lia.
Qed.

(** A request's pipeline as its run starts. *)
Lemma request_started r m m' : request_ok r -> worker_pipeline r = Some m -> begin_run m = RunStarts m' ->
  start_ok m' /\ length (jobs r) = length (nodes_ m') /\
  (forall i, (i < length (nodes_ m'))%nat -> optional_at m' i = true /\ ondemand_at m' i = false) /\
  (forall p i, Kahn.edge (adjacency m') p i <-> p ∈ predecessorIds r i).
Proof.
  intros Hr Hp Hb. pose proof (request_in_jobs r Hr) as Hin.
  destruct (worker_pipeline_built _ _ Hin Hp) as [Hm Hbuilt]. pose proof (begin_run_graph _ _ Hb) as Hg.
  pose proof (ba_length _ _ _ Hbuilt) as Hl. split; [by eapply begin_run_starts|].
  rewrite (sg_length _ _ Hg). split; [done|]. rewrite Hl. split.
  - intros i Hi. rewrite (sg_optional _ _ Hg), (sg_ondemand _ _ Hg). by apply Hbuilt.
  - intros p i. rewrite (sg_adjacency _ _ Hg). by apply built_predecessors.
Qed.

Lemma results_reference registry r inputs lim strategy store m w : length (jobs r) = length (nodes_ m) ->
  (forall i, (i < length (nodes_ m))%nat ->
    verdict registry r inputs (S (length (nodes_ m))) i = (slot (bench w) i, st (ctx (run w)) i)) ->
  work_results r lim strategy store w = reference_results registry r inputs lim strategy store.
Proof.
  intros Hl H. unfold work_results, reference_results. apply list_fmap_ext.
  intros k i Hi%list_elem_of_lookup_2. apply elem_of_seq in Hi. rewrite Hl, H by lia. done.
Qed.

(** C27. The worker's reply does not depend on the schedule: on an inline or a
    threaded executor and in every order of steps, a request whose pipeline is built
    and starts, whose kinds do not return [kCancelled], whose jobs the executor all
    accepts and that is not asked to stop gets, once its run has gone quiet, the results
    that each job's body gives on its predecessors' outcomes alone; so one job's failure
    skips exactly the jobs that depend on it. *)
Theorem worker_reply_schedule_independent registry r inputs lim strategy store m m' s0 moves w :
  request_ok r -> kinds_ok registry -> worker_pipeline r = Some m -> begin_run m = RunStarts m' ->
  s0 = start_threaded m' \/ s0 = start_inline m' -> Forall undisturbed moves ->
  work_steps registry r inputs moves (mkWork s0 (bench_of r) 0) = Some w -> quiescent (run w) ->
  work_results r lim strategy store w = reference_results registry r inputs lim strategy store.
Proof.
  intros Hr Hk Hp Hb Hs0 Hu Hw Hq. destruct (request_started _ _ _ Hr Hp Hb) as (Hok & Hl & Hflags & Hpreds).
  apply (results_reference _ _ _ _ _ _ m'); [done|]. intros i Hi.
  apply work_outcome; [done..| |done|done].
  eapply work_steps_inv_kept; [done..|by intros; apply judged_kinds| |exact Hu|exact Hw]. by apply work_start.
Qed.

Lemma tc_mono {A} (R S : relation A) x y : (forall a b, R a b -> S a b) -> tc R x y -> tc S x y.
Proof. intros H. induction 1; [apply tc_once|eapply tc_l]; eauto. Qed.

Lemma built_begin r m : request_ok r -> worker_pipeline r = Some m ->
  (begin_run m = RunReturns m success /\ jobs r = []) \/
  (exists m0, begin_run m = RunReturns m0 (Unexpected kCyclicDependency) /\ ~ request_acyclic r) \/
  (exists m', begin_run m = RunStarts m' /\ request_acyclic r).
Proof.
  intros Hr Hp. pose proof (request_in_jobs r Hr) as Hin.
  destruct (worker_pipeline_built _ _ Hin Hp) as [Hm Hbuilt]. pose proof (ba_length _ _ _ Hbuilt) as Hl.
  assert (Hac : acyclic (adjacency m) <-> request_acyclic r).
  { assert (He : forall p i, Kahn.edge (adjacency m) p i <-> p ∈ predecessorIds r i) by (intros; by apply built_predecessors).
    unfold acyclic, request_acyclic. split; intros H i Hc; apply (H i); (eapply tc_mono; [|exact Hc]); intros p j; apply He. }
  destruct (begin_run m) as [m0 res|m'] eqn:E.
  - unfold begin_run in E. case_bool_decide as Hn.
    { left. injection E as <- <-. split; [done|]. rewrite Hn in Hl. by apply nil_length_inv. }
    rewrite (ba_idle _ _ _ Hbuilt) in E. set (m1 := set_completedCount 0 _) in E.
    assert (Hv : validate m1 = validate m) by (unfold m1; by destruct (hasOrphans m)).
    assert (Hc : rootsCached_ m1 = rootsCached_ m) by (unfold m1; by destruct (hasOrphans m)).
    right. left. unfold refreshRoots in E. rewrite Hv, Hc in E. destruct (rootsCached_ m); [done|].
    destruct (validate m) as [|e] eqn:Ev; [done|].
    assert (e = kCyclicDependency) as -> by (revert Ev; unfold validate; case_match; [by intros [= <-]|done]).
    injection E as <- <-. eexists. split; [done|]. rewrite <- Hac, <- (validate_iff m) by apply Hm. by rewrite Ev.
  - right. right. exists m'. split; [done|]. apply Hac. rewrite <- (sg_adjacency _ _ (begin_run_graph _ _ E)).
    apply (begin_run_starts m m'); [apply Hm|done].
Qed.

(** C28. A request whose pipeline can be built, of kinds that do not return
    [kCancelled], and that is not asked to stop, is answered: with enough fuel the
    worker's inline run returns, with the reference results when the request's edges are
    acyclic, and with every job failed by the cycle when they are not. *)
Theorem worker_run_answers registry r inputs lim strategy store m :
  request_ok r -> kinds_ok registry -> worker_pipeline r = Some m ->
  exists enough, forall fuel, (enough <= fuel)%nat ->
    (request_acyclic r -> worker_run registry r inputs lim strategy store fuel =
       Some (reference_results registry r inputs lim strategy store)) /\
    (~ request_acyclic r -> worker_run registry r inputs lim strategy store fuel =
       Some (replicate (length (jobs r)) cyclic_result)).
Proof.
  intros Hr Hk Hp. unfold worker_run. rewrite Hp. cbn [mbind option_bind].
  destruct (built_begin r m Hr Hp) as [[-> Hj]|[(m0 & -> & Hc)|(m' & Hb & Ha)]].
  - exists 0%nat. intros fuel _. unfold reference_results. by rewrite Hj.
  - exists 0%nat. intros fuel _. by split.
  - rewrite Hb. destruct (request_started _ _ _ Hr Hp Hb) as (Hok & Hl & Hflags & Hpreds).
    exists (measure m' (start_inline m')). intros fuel Hf. split; [intros _|done].
    assert (Hkinds : forall i old l, (judge registry r inputs i old l).2 <> Unexpected kCancelledError)
      by (intros; by apply judged_kinds).
    destruct (work_inline_total registry r inputs m' Hok Hflags Hpreds Hkinds fuel (mkWork (start_inline m') (bench_of r) 0))
      as (w & -> & Hw & Hq); [apply work_start; auto|done|].
    cbn. f_equal. apply (results_reference _ _ _ _ _ _ m'); [done|]. intros i Hi. by apply work_outcome.
Qed.

(** ** Concrete requests *)

Definition pass : Kind := fun x l => mkRan success (default x (head l)) "".
Definition broken : Kind := fun _ _ => mkRan (Unexpected kTimeout) Payload_empty "late".
Definition stopping : Kind := fun _ _ => mkRan (Unexpected kCancelledError) Payload_empty "".
Definition sample_registry : list (JobKindId * Kind) := [(mkKind "pass" 1, pass); (mkKind "broken" 1, broken)].
Definition sample_job (k : string) (x : bool) : RequestJob := mkRequestJob (mkKind k 1) Payload_empty x.
(** Two chains, one broken, that meet in the last job; the third job's kind is unknown. *)
Definition sample_request : SubGraphRequest :=
  mkRequest [sample_job "pass" false; sample_job "broken" true; sample_job "other" true; sample_job "pass" true; sample_job "pass" true]
    [mkEdge 0 3; mkEdge 1 4; mkEdge 3 4].
Definition sample_pipeline : Impl := default Impl_new (worker_pipeline sample_request).
Definition begun (m : Impl) : Impl := match begin_run m with RunStarts m' => m' | RunReturns m' _ => m' end.
Definition sample_inputs : list Payload := replicate 5 (inlineBytes [Byte.x07]).
Definition run_of (w : option WorkState) : WorkState := default (mkWork (start_threaded Impl_new) [] 0) w.

Lemma sample_ok : request_ok sample_request.
Proof. split; repeat constructor; cbn; try lia; done. Qed.
Lemma sample_kinds_ok : kinds_ok sample_registry.
Proof. intros k fn x l [[= -> ->]|[[= -> ->]|H%elem_of_nil]%elem_of_cons]%elem_of_cons; done. Qed.
Lemma sample_built : worker_pipeline sample_request = Some sample_pipeline.
Proof. unfold sample_pipeline. apply default_reached. vm_compute. reflexivity. Qed.
Lemma sample_begins : begin_run sample_pipeline = RunStarts (begun sample_pipeline).
Proof. unfold begun. destruct (begin_run sample_pipeline) eqn:E; [|done]. exfalso. revert E. vm_compute. discriminate. Qed.

(** Newest task first, on an executor of its own. *)
Definition newest_first : list WorkMove :=
  (fun k => WMove k WPlain) <$> ([0] ++ replicate 13 1 ++ replicate 12 2 ++ [1; 0] ++ replicate 13 3 ++ replicate 9 4 ++ [3; 0] ++ replicate 9 5 ++ [0])%nat.

Lemma worker_reply_schedule_independent_witness :
  let w := run_of (work_steps sample_registry sample_request sample_inputs newest_first
    (mkWork (start_threaded (begun sample_pipeline)) (bench_of sample_request) 0)) in
  work_results sample_request 100 None None w =
    reference_results sample_registry sample_request sample_inputs 100 None None.
Proof.
  cbv zeta. apply (worker_reply_schedule_independent sample_registry sample_request sample_inputs 100 None None
    sample_pipeline (begun sample_pipeline) (start_threaded (begun sample_pipeline)) newest_first).
  - exact sample_ok.
  - exact sample_kinds_ok.
  - exact sample_built.
  - exact sample_begins.
  - by left.
  - apply Forall_fmap, Forall_true. intros k. exact I.
  - apply default_reached. vm_compute. reflexivity.
  - apply Forall_forall. vm_compute. intros t Ht. by repeat (apply elem_of_cons in Ht as [->|Ht]; [reflexivity|]); apply elem_of_nil in Ht.
Defined.

Lemma worker_run_answers_witness : exists enough, forall fuel, (enough <= fuel)%nat ->
  (request_acyclic sample_request -> worker_run sample_registry sample_request sample_inputs 100 None None fuel =
     Some (reference_results sample_registry sample_request sample_inputs 100 None None)) /\
  (~ request_acyclic sample_request -> worker_run sample_registry sample_request sample_inputs 100 None None fuel =
     Some (replicate (length (jobs sample_request)) cyclic_result)).
Proof. exact (worker_run_answers _ _ _ _ _ _ _ sample_ok sample_kinds_ok sample_built). Defined.

(** The statuses that reply has: done, timed out, failed, done, skipped. *)
Example sample_statuses : (fun p => status p.1) <$> reference_results sample_registry sample_request sample_inputs 100 None None =
  JobStatus_u8 <$> [kDone; kTimedOut; kFailed; kDone; kSkipped].
Proof. vm_compute. reflexivity. Qed.

(** A kind that returns [kCancelled] ends the run, and then the other job's status
    depends on the order. *)
Definition stopping_request : SubGraphRequest := mkRequest [sample_job "stop" true; sample_job "pass" true] [].
Definition stopping_run (ks : list nat) : list Z :=
  let m := begun (default Impl_new (worker_pipeline stopping_request)) in
  let reg := (mkKind "stop" 1, stopping) :: sample_registry in
  (fun p => status p.1) <$> work_results stopping_request 100 None None
    (run_of (work_steps reg stopping_request sample_inputs ((fun k => WMove k WPlain) <$> ks) (mkWork (start_inline m) (bench_of stopping_request) 0))).
Example cancelled_kind_order : stopping_run (replicate 10 0 ++ replicate 8 1)%nat = JobStatus_u8 <$> [kCancelled; kSkipped] /\
  stopping_run (replicate 8 1 ++ replicate 10 0)%nat = JobStatus_u8 <$> [kCancelled; kDone].
Proof. split; vm_compute; reflexivity. Qed.

(** A stop, or an executor that refuses a job, makes the reply depend on the order
    too: of two independent jobs, the one that has run when the stop comes is done, and
    a job that is dispatched when the other one is refused is done or skipped. *)
Definition two_passes : SubGraphRequest := mkRequest [sample_job "pass" true; sample_job "pass" true] [].
Definition disturbed_run (start : Impl -> RunState) (l : list WorkMove) : list Z :=
  let m := begun (default Impl_new (worker_pipeline two_passes)) in
  (fun p => status p.1) <$> work_results two_passes 100 None None
    (run_of (work_steps sample_registry two_passes sample_inputs l (mkWork (start m) (bench_of two_passes) 0))).
Definition plainly (k n : nat) : list WorkMove := replicate n (WMove k WPlain).
Example disturbed_order :
  disturbed_run start_inline (plainly 0 9 ++ [WStop; WStop] ++ plainly 1 10) = JobStatus_u8 <$> [kDone; kCancelled] /\
  disturbed_run start_inline (plainly 1 9 ++ [WStop; WStop] ++ plainly 0 10) = JobStatus_u8 <$> [kCancelled; kDone] /\
  disturbed_run start_threaded ([WMove 0 WPlain; WMove 0 WRefused] ++ plainly 1 8 ++ plainly 0 15) = JobStatus_u8 <$> [kDone; kFailed] /\
  disturbed_run start_threaded ([WMove 0 WPlain; WMove 0 WRefused] ++ plainly 0 15 ++ plainly 1 3) = JobStatus_u8 <$> [kSkipped; kFailed].
Proof. split_and!; vm_compute; reflexivity. Qed.
