(* ===== verification/WorkerOutcome.v ===== *)
(** What the results of a finished request say (WorkerHost::run): one per job, all
    done unless one failed, and within what a reply can carry. *)
From S2P Require Import Prelude Types EdgeLists Nodes Kahn Graph Pipeline Run Dispatch Scheduler SchedulerInv RunCorrect Inline Bytes Payload SubGraph Registry Wire WireCodec WireCorrect WorkerRun WorkerBuild WorkerCorrect.

Abbreviation st c i := (status_at (impl_ c) i).

Section finished.
Context (registry : list (JobKindId * Kind)) (r : SubGraphRequest) (inputs : list Payload) (m : Impl).
Abbreviation n := (length (nodes_ m)).
Context (Hstart : start_ok m).
Context (Hflags : forall i, (i < n)%nat -> optional_at m i = true /\ ondemand_at m i = false).
Context (Hpreds : forall p i, Kahn.edge (adjacency m) p i <-> p ∈ predecessorIds r i).
Context (Hkinds : forall i old l, (judge registry r inputs i old l).2 <> Unexpected kCancelledError).
Abbreviation keeps w := (work_inv registry r inputs m w).

Lemma work_inline_ends fuel w w' : keeps w -> work_inline registry r inputs fuel w = Some w' -> keeps w' /\ quiescent (run w').
Proof.
  revert w. induction fuel as [|fuel IH]; intros w Hw H; cbn in H;
    (destruct (next_thread (threads (run w))) as [k|] eqn:En; [|injection H as <-; split; [done|by apply next_thread_None]]); [done|].
  apply bind_Some in H as (w1 & H1 & H). eapply IH; [|exact H]. by apply (work_step_inv_kept registry r inputs m Hstart Hflags Hpreds Hkinds k WPlain w).
Qed.

Lemma final_judged w i : keeps w -> quiescent (run w) -> (i < n)%nat ->
  exists res, st (ctx (run w)) i = statusOf res /\ (slot (bench w) i, res) = judge registry r inputs i Slot_fresh (sees r (bench w) (impl_ (ctx (run w))) i).
Proof. intros Hw Hq Hi. apply (wv_final _ _ _ _ _ Hw). by eapply work_all_final. Qed.

(** A job that was skipped has a predecessor that was skipped or is not done. *)
Lemma work_all_done w : keeps w -> quiescent (run w) ->
  (forall i, (i < n)%nat -> s_skipped (slot (bench w) i) = true \/ st (ctx (run w)) i = kDone) ->
  forall i, (i < n)%nat -> s_skipped (slot (bench w) i) = false.
Proof.
  intros Hw Hq Hdone.
  pose proof (acyclic_ind (adjacency m) (fun i => s_skipped (slot (bench w) i) = false) (so_targets _ Hstart)
    (so_edges _ Hstart) (so_acyclic _ Hstart)) as Hind. rewrite length_adjacency in Hind. apply Hind.
  intros j Hj IH. destruct (final_judged w j Hw Hq Hj) as (res & _ & Hset).
  assert (Hsees : existsb (fun p => s_skipped p.1 || negb (bool_decide (p.2 = kDone))) (sees r (bench w) (impl_ (ctx (run w))) j) = false).
  { apply not_true_iff_false. intros (x & Hx & Hb)%existsb_exists. apply list_elem_of_In, list_elem_of_fmap in Hx as (p & -> & Hp).
    apply Hpreds in Hp. specialize (IH p Hp). cbn in Hb. rewrite IH in Hb. cbn in Hb.
    destruct (Hdone p) as [E|E]; [|congruence|].
    - pose proof (edge_bound _ _ _ (so_targets _ Hstart) Hp) as [Hlt _]. by rewrite length_adjacency in Hlt.
    - by rewrite E in Hb. }
  unfold judge, judge_as in Hset. rewrite Hsees in Hset. destruct (kind_of registry r j) as [[k [fn|]]|]; injection Hset as -> _; done.
Qed.
End finished.

(** ** Results *)

(** A result and the payload that replaces its output in the frame fit a reply. *)
Definition sendable (x : JobResult * option Payload) : Prop :=
  is_u8 (status x.1) /\ is_u8 (error x.1) /\ payload_ok (default (output x.1) x.2) /\ fits (default (output x.1) x.2) = true.

Lemma sendable_ok l i x : Forall sendable l -> l !! i = Some x -> result_ok l.*2 i x.1.
Proof.
  intros Hl Hi. destruct (Forall_lookup_1 _ _ _ _ Hl Hi) as (H1 & H2 & H3).
  unfold result_ok, overridden. rewrite list_lookup_fmap, Hi. cbn. destruct x as [y [q|]]; by split.
Qed.

Definition kinds_fit (registry : list (JobKindId * Kind)) : Prop :=
  forall k fn x l, (k, fn) ∈ registry -> payload_ok (ran_output (fn x l)) /\ fits (ran_output (fn x l)) = true.
Definition strategy_fits (strategy : option (nat -> Payload -> expected (list byte) PipelineError)) : Prop :=
  forall send i p ref, strategy = Some send -> send i p = Expected ref -> zlen ref <= 2 ^ 32 - 1.

Section result.
Context (r : SubGraphRequest) (lim : Z) (strategy : option (nat -> Payload -> expected (list byte) PipelineError))
  (store : option (nat -> list byte -> expected (list byte) PipelineError)).
Abbreviation result i s st := (make_result r lim strategy store i s st).

Lemma export_status i res : is_failure (export_output lim strategy store i res).1 = false -> status (export_output lim strategy store i res).1 = status res.
Proof. unfold export_output, failed_result. repeat case_match; cbn; try done; try (by intros H; vm_compute in H). Qed.

Lemma result_success i s st res : st = statusOf res -> is_failure (result i s st).1 = false ->
  (s_skipped s = true \/ st = kDone) /\ (s_skipped s = false -> status (result i s st).1 = JobStatus_u8 kDone).
Proof.
  unfold make_result. destruct (s_skipped s); intros Hst Hf; [split; [by left|done]|].
  destruct (decide (st = kDone)) as [E|E].
  - split; [by right|]. intros _. revert Hf. rewrite E, bool_decide_true by done. cbn [andb]. destruct (default _ _); [|done].
    intros Hf. by rewrite export_status.
  - exfalso. rewrite bool_decide_false in Hf by done. cbn in Hf. subst st. destruct res as [|[]]; cbn in E, Hf; try done; by vm_compute in Hf.
Qed.

Lemma failed_sendable e msg : sendable (failed_result e msg).
Proof. split; [|split]; [apply JobStatus_u8_range|apply PipelineError_u8_range|done]. Qed.

Lemma export_sendable i res : strategy_fits strategy -> sendable (res, None) -> sendable (export_output lim strategy store i res).
Proof.
  intros Hs (H1 & H2 & H3 & H4). unfold export_output. destruct (negb _); [exact (conj H1 (conj H2 (conj H3 H4)))|].
  destruct strategy as [send|] eqn:E.
  - destruct (send i (output res)) as [ref|e] eqn:Er; [|apply failed_sendable]. split; [exact H1|]. split; [exact H2|]. split; [done|].
    specialize (Hs send i (output res) ref eq_refl Er). unfold fits. cbn. lia.
  - destruct store as [put|]; [|apply failed_sendable]. destruct (put _ _) as [key|]; [|apply failed_sendable].
    destruct (length key <=? kMaxHandleBytes)%nat eqn:Ek; [|apply failed_sendable]. by split; [exact H1|split; [exact H2|split]].
Qed.

Lemma result_sendable i s st : strategy_fits strategy -> payload_ok (s_output s) -> fits (s_output s) = true -> sendable (result i s st).
Proof.
  intros Hs Ho Hf. unfold make_result. destruct (_ && _).
  - apply export_sendable; [done|]. split; [|split]; [apply JobStatus_u8_range|apply PipelineError_u8_range|done].
  - split; [|split]; [apply JobStatus_u8_range|apply PipelineError_u8_range|done].
Qed.
End result.

Lemma judged_output registry r inputs i preds : kinds_fit registry ->
  let s := (judge registry r inputs i Slot_fresh preds).1 in payload_ok (s_output s) /\ fits (s_output s) = true.
Proof.
  intros Hk s. unfold s, judge, judge_as. destruct (existsb _ _); [done|]. unfold kind_of. destruct (jobs r !! i) as [j|]; [|done]. cbn.
  destruct (find _ _ _) as [fn|] eqn:E; [|done]. destruct (find_in _ _ _ _ E) as [k Hin]. exact (Hk k fn _ _ Hin).
Qed.

(** What a finished run sends: a result per job; if none failed, every job is done;
    and each fits the reply. *)
Lemma worker_run_results registry r inputs lim strategy store fuel results :
  request_ok r -> kinds_ok registry -> worker_run registry r inputs lim strategy store fuel = Some results ->
  length results = length (jobs r) /\
  (Forall (fun x => is_failure x.1 = false) results -> Forall (fun x => status x.1 = JobStatus_u8 kDone) results) /\
  (kinds_fit registry -> strategy_fits strategy -> Forall sendable results).
Proof.
  intros Hr Hk H. unfold worker_run in H. destruct (worker_pipeline r) as [m|] eqn:Hp; [|done]. cbn in H.
  destruct (built_begin r m Hr Hp) as [[Hb Hj]|[(m0 & Hb & _)|(m' & Hb & _)]]; rewrite Hb in H.
  - rewrite Hj in H. injection H as <-. by rewrite Hj.
  - injection H as <-. rewrite length_replicate. split; [done|]. split.
    + intros Hf. destruct (length (jobs r)); cbn in *; [done|]. by inversion_clear Hf.
    + intros _ _. apply Forall_replicate, failed_sendable.
  - destruct (request_started _ _ _ Hr Hp Hb) as (Hok & Hl & Hflags & Hpreds).
    assert (Hkinds : forall i old l, (judge registry r inputs i old l).2 <> Unexpected kCancelledError) by (intros; by apply judged_kinds).
    apply fmap_Some in H as (w & Hw & ->).
    assert (Hinv0 : work_inv registry r inputs m' (mkWork (start_inline m') (bench_of r) 0)) by (apply work_start; auto).
    destruct (work_inline_ends registry r inputs m' Hok Hflags Hpreds Hkinds fuel _ w Hinv0 Hw) as [Hinv Hq].
    unfold work_results. rewrite length_fmap, length_seq. split; [done|].
    assert (Hfin : forall i, (i < length (jobs r))%nat -> exists res, st (ctx (run w)) i = statusOf res /\
      (slot (bench w) i, res) = judge registry r inputs i Slot_fresh (sees r (bench w) (impl_ (ctx (run w))) i)).
    { intros i Hi. eapply final_judged; [done..|by rewrite <- Hl]. }
    split.
    + rewrite !Forall_fmap, !Forall_forall. intros Hf i Hi%elem_of_seq.
      assert (Hs : forall j, (j < length (jobs r))%nat -> s_skipped (slot (bench w) j) = true \/ st (ctx (run w)) j = kDone).
      { intros j Hj. destruct (Hfin j Hj) as (res & Est & _). eapply (result_success r lim strategy store j _ _ res Est).
        apply (Hf j). apply elem_of_seq. lia. }
      destruct (Hfin i ltac:(lia)) as (res & Est & _). eapply (result_success r lim strategy store i _ _ res Est); [apply (Hf i), elem_of_seq; lia|].
      eapply work_all_done; [done..| |rewrite <- Hl; lia]. intros j Hj. apply Hs. by rewrite Hl.
    + intros Hkf Hsf. rewrite Forall_fmap, Forall_forall. intros i Hi%elem_of_seq. destruct (Hfin i ltac:(lia)) as (res & _ & Ej).
      destruct (judged_output registry r inputs i (sees r (bench w) (impl_ (ctx (run w))) i) Hkf) as [H1 H2]. rewrite <- Ej in H1, H2.
      by apply result_sendable.
Qed.

(** ** Outputs that the strategy carries *)

(** What replaces a result's output in the frame is what the strategy answered for
    that output. *)
Definition carried (strategy : option (nat -> Payload -> expected (list byte) PipelineError)) (x : JobResult * option Payload) : Prop :=
  forall q, x.2 = Some q -> exists send i ref, strategy = Some send /\ send i (output x.1) = Expected ref /\ q = reference ref.

Lemma result_carried r lim strategy store i s st : carried strategy (make_result r lim strategy store i s st).
Proof.
  unfold make_result. destruct (_ && _); [|done]. unfold export_output. destruct (negb _); [done|].
  destruct strategy as [send|]; [|repeat case_match; done].
  destruct (send i _) as [ref|e] eqn:E; [|done]. intros q [= <-]. by exists send, i, ref.
Qed.

Lemma worker_run_carried registry r inputs lim strategy store fuel results :
  worker_run registry r inputs lim strategy store fuel = Some results -> Forall (carried strategy) results.
Proof.
  unfold worker_run. intros (m & _ & H)%bind_Some. destruct (begin_run m).
  all: repeat match goal with
    | H : context [match ?x with _ => _ end] |- _ => destruct x
    | H : Some _ = Some _ |- _ => injection H as <-
    | H : _ <$> _ = Some _ |- _ => apply fmap_Some in H as (? & _ & ->)
    end; try done; try (by apply Forall_replicate); unfold work_results; apply Forall_fmap, Forall_true; intros i; apply result_carried.
Qed.
