(* ===== verification/JobContext.v ===== *)
(** What a job kind's function works on (JobContext in
    include/sub0pipeline/remote/registry.hpp, src/remote/registry.cpp), and payloads
    that are written in place: makeWritablePayload (payload.hpp), allocateOutput, and
    RemoteChannel::allocatePayload (src/remote/channel.cpp). *)
From S2P Require Import Prelude Types Bytes Payload SubGraph Registry Wire Stream WorkerRun Channel.

(** A payload and the size of the bytes it views, which the caller may write. *)
Record WritablePayload := mkWritable { payload : Payload; room : Z }.

Section writable.
(** What operator new returns, the owner of that memory, and the strategy's
    [allocate], which may give nothing. *)
Context (fresh : nat -> list byte) (fresh_length : forall n, length (fresh n) = n) (heap_owner : positive).
Context {T : Type} (allocate : T -> Z -> T * option WritablePayload).

Definition makeWritablePayload (size : Z) : WritablePayload :=
  let storage := fresh (if size =? 0 then 1%nat else Z.to_nat size) in
  mkWritable (view (take (Z.to_nat size) storage) (Some heap_owner)) size.

(** From the strategy, if there is one and it gives a buffer. *)
Definition allocate_from (strategy : option T) (size : Z) : option T * WritablePayload :=
  match strategy with
  | Some s =>
      match allocate s size with
      | (s, Some w) => (Some s, w)
      | (s, None) => (Some s, makeWritablePayload size)
      end
  | None => (None, makeWritablePayload size)
  end.

(** [RemoteChannel::allocatePayload]: only a connected channel asks its strategy. *)
Definition allocatePayload (l : Link) (strategy : option T) (size : Z) : option T * WritablePayload :=
  match state_ l with
  | ChannelState.kConnected => allocate_from strategy size
  | _ => (strategy, makeWritablePayload size)
  end.
(** [RemoteChannel::payloadStrategy] *)
Definition payloadStrategy (l : Link) : string :=
  match strategy_ l, state_ l with
  | Some name, ChannelState.kHandshaking => ""
  | Some name, _ => name
  | None, _ => ""
  end.

(** ** The context of a call *)

(** [buffer_] is the size of the buffer that the output is, while it is one. *)
Record JobContext := mkContext {
  input_ : Payload; predecessors_ : list Payload; output_ : Payload; error_ : string; strategy_of : option T; buffer_ : option Z
}.
Definition input (c : JobContext) : Payload := input_ c.
Definition predecessorCount (c : JobContext) : nat := length (predecessors_ c).
Definition predecessor (c : JobContext) (index : nat) : option Payload := predecessors_ c !! index.
Definition setOutput (output : Payload) (c : JobContext) : JobContext :=
  mkContext (input_ c) (predecessors_ c) output (error_ c) (strategy_of c) None.
Definition setError (message : string) (c : JobContext) : JobContext :=
  mkContext (input_ c) (predecessors_ c) (output_ c) message (strategy_of c) (buffer_ c).
Definition allocateOutput (size : Z) (c : JobContext) : JobContext :=
  let '(strategy, w) := allocate_from (strategy_of c) size in
  mkContext (input_ c) (predecessors_ c) (payload w) (error_ c) strategy (Some (room w)).

(** The function writes [content] at [offset] of the bytes that allocateOutput
    returned: the output views them. Bytes beyond them are not its to write. *)
Definition write_output (offset : nat) (content : list byte) (c : JobContext) : option JobContext :=
  n ← buffer_ c;
  if Z.of_nat offset + zlen content <=? n
  then Some (mkContext (input_ c) (predecessors_ c) (view (write_at (bytes (output_ c)) offset content) (owner_ (output_ c)))
               (error_ c) (strategy_of c) (buffer_ c))
  else None.

(** A kind's function, and what the worker's job makes of its call. *)
Definition as_kind (strategy : option T) (fn : JobContext -> JobContext * Outcome) : Kind :=
  fun x preds => let '(c, r) := fn (mkContext x preds Payload_empty "" strategy None) in mkRan r (output_ c) (error_ c).

(** ** Buffers *)

Definition buffer_ok (w : WritablePayload) : Prop := kind (payload w) = kInline /\ is_Some (owner_ (payload w)) /\ zlen (bytes (payload w)) = room w.
Context (allocate_ok : forall s n s' w, 0 <= n -> allocate s n = (s', Some w) -> buffer_ok w /\ room w = n).

Lemma makeWritablePayload_ok n : 0 <= n -> buffer_ok (makeWritablePayload n) /\ room (makeWritablePayload n) = n.
Proof.
  intros Hn. split; [|done]. split; [done|]. split; [by eexists|]. unfold makeWritablePayload, bytes, zlen. cbn.
  rewrite length_take, fresh_length. destruct (Z.eqb_spec n 0); lia.
Qed.
Lemma allocate_from_ok strategy n : 0 <= n -> buffer_ok (allocate_from strategy n).2 /\ room (allocate_from strategy n).2 = n.
Proof.
  intros Hn. unfold allocate_from. destruct strategy as [s|]; [|by apply makeWritablePayload_ok].
  destruct (allocate s n) as [s' [w|]] eqn:E; [by eapply allocate_ok|by apply makeWritablePayload_ok].
Qed.

(** An output that a function allocates and fills is what it wrote, wherever the
    buffer lies. *)
Lemma allocated_output strategy content c : strategy_of c = strategy ->
  exists c', write_output 0 content (allocateOutput (zlen content) c) = Some c' /\ output_ c' ≡ inlineBytes content.
Proof.
  intros <-. set (n := zlen content). destruct (allocate_from_ok (strategy_of c) n) as [(Hk & Ho & Hl) Hr]; [apply zlen_nonneg|].
  unfold write_output, allocateOutput. cbn. destruct (allocate_from (strategy_of c) n) as [t w]. cbn in *.
  rewrite (proj2 (Z.leb_le _ _)) by (rewrite Hr; unfold n; lia). eexists. split; [done|]. cbn. split; [done|].
  destruct Ho as [ow ->]. unfold bytes at 1. cbn. unfold write_at. rewrite take_0. cbn [app].
  rewrite drop_ge, app_nil_r; [done|]. rewrite Hr in Hl. unfold n, zlen in Hl. lia.
Qed.
Lemma write_output_fits offset content c : write_output offset content c = None ->
  buffer_ c = None \/ exists n, buffer_ c = Some n /\ n < Z.of_nat offset + zlen content.
Proof.
  unfold write_output. destruct (buffer_ c) as [n|]; [|by left]. cbn. destruct (Z.leb_spec (Z.of_nat offset + zlen content) n); [done|].
  intros _. right. by exists n.
Qed.
End writable.
