(* ===== verification/WorkerHost.v ===== *)
(** The worker's end of a connection (src/remote/worker_host.cpp,
    include/sub0pipeline/remote/worker_host.hpp): handshake, admission of
    requests, the runner threads, cancellation and the end of serving, as an
    interleaving of the transport's thread, the runners and [serve]. What a
    request's run does is WorkerRun. *)
From stdpp Require Import pretty.
From S2P Require Import Prelude Types Bytes Payload SubGraph Wire Stream.

(** A factory makes a strategy: its name and how it answers an offer's setup; or
    nothing. *)
Abbreviation Factory := (option (string * (list byte -> expected (list byte) PipelineError))).
Record HostOptions := mkHostOptions {
  maxConcurrentRequests : Z; inlineBound : Z; factories : list Factory
}.

(** A request that was admitted. Works live in a list and are named by their place
    in it, as several parts of the host share them. *)
Record Work := mkWork { work_id : Z; request : SubGraphRequest; inputs : list Payload; stop_requested : bool }.

Inductive Runner : Set :=
  | RIdle                     (* waiting for a request *)
  | RRuns (w : nat)           (* in run(), before its reply is sent *)
  | RReplied (w : nat)        (* run() has sent the reply *)
  | RGone.
Inductive Serving : Set :=
  | SServing                  (* waits for the connection to close or a stop *)
  | SClosing                  (* has told the transport to close *)
  | SStopping (l : list nat)  (* requesting stop of each *)
  | SJoining                  (* the runners have been told to stop *)
  | SServed.

(** What leaves the host. *)
Inductive Out : Set :=
  | Sent (frame : list byte)
  | Replied (w : nat) (frame : list byte)
  | Closes
  | Passes (frame : list byte).   (* a payload frame, to the strategy *)

Record Host := mkHost {
  handshaken_ : bool; closed_ : bool; admitted_ : Z; inlineLimit_ : Z;
  queue_ : list nat; active_ : gmap Z nat; strategy_ : option string;
  works : list Work; runners : list Runner; serving : Serving; out : list Out
}.
Definition with_out (o : Out) (h : Host) : Host :=
  mkHost (handshaken_ h) (closed_ h) (admitted_ h) (inlineLimit_ h) (queue_ h) (active_ h) (strategy_ h)
    (works h) (runners h) (serving h) (out h ++ [o]).
Definition with_queue (q : list nat) (h : Host) : Host :=
  mkHost (handshaken_ h) (closed_ h) (admitted_ h) (inlineLimit_ h) q (active_ h) (strategy_ h)
    (works h) (runners h) (serving h) (out h).
Definition with_works (ws : list Work) (h : Host) : Host :=
  mkHost (handshaken_ h) (closed_ h) (admitted_ h) (inlineLimit_ h) (queue_ h) (active_ h) (strategy_ h)
    ws (runners h) (serving h) (out h).
Definition with_serving (s : Serving) (h : Host) : Host :=
  mkHost (handshaken_ h) (closed_ h) (admitted_ h) (inlineLimit_ h) (queue_ h) (active_ h) (strategy_ h)
    (works h) (runners h) s (out h).
Definition with_runner (k : nat) (x : Runner) (h : Host) : Host :=
  mkHost (handshaken_ h) (closed_ h) (admitted_ h) (inlineLimit_ h) (queue_ h) (active_ h) (strategy_ h)
    (works h) (<[k := x]> (runners h)) (serving h) (out h).
Definition with_active (a : gmap Z nat) (h : Host) : Host :=
  mkHost (handshaken_ h) (closed_ h) (admitted_ h) (inlineLimit_ h) (queue_ h) a (strategy_ h)
    (works h) (runners h) (serving h) (out h).
Definition with_admitted (n : Z) (h : Host) : Host :=
  mkHost (handshaken_ h) (closed_ h) n (inlineLimit_ h) (queue_ h) (active_ h) (strategy_ h)
    (works h) (runners h) (serving h) (out h).

Definition request_stop (w : Work) : Work := mkWork (work_id w) (request w) (inputs w) true.
Definition stop_work (w : nat) (h : Host) : Host := with_works (alter request_stop w (works h)) h.

Section host.
(** The options, the registry's fingerprint, and the streaming strategy that is
    always appended. *)
Context (options : HostOptions) (own_fingerprint : Z) (stream_factory : Factory).

(** [serve] starts its runners. *)
Definition serve_begin : Host :=
  mkHost false false 0 0 [] ∅ None [] (replicate (Z.to_nat (maxConcurrentRequests options)) RIdle) SServing [].

(** ** Frames *)

(** The first factory whose strategy has the offer's name; what it answers. *)
Fixpoint offered_factory (fs : list Factory) (o : StrategyOffer) : option (expected (list byte) PipelineError) :=
  match fs with
  | [] => None
  | Some (n, accept) :: fs => if String.eqb n (offer_name o) then Some (accept (setup o)) else offered_factory fs o
  | None :: fs => offered_factory fs o
  end.
Fixpoint chooseStrategy (offers : list StrategyOffer) : option StrategyOffer :=
  match offers with
  | [] => None
  | o :: offers =>
      match offered_factory (factories options ++ [stream_factory]) o with
      | Some (Expected accepted) => Some (mkOffer (offer_name o) accepted)
      | _ => chooseStrategy offers
      end
  end.

Definition own_ack (chosen : option StrategyOffer) : Hello :=
  mkHello kProtocolMajor kProtocolMinor own_fingerprint (maxConcurrentRequests options) (inlineBound options)
    (match chosen with Some o => [o] | None => [] end).

Definition reject_of (hello : Hello) : HelloReject :=
  if negb (major hello =? kProtocolMajor)
  then mkReject kVersion ("worker speaks protocol " ++ pretty kProtocolMajor ++ ", coordinator " ++ pretty (major hello))
  else mkReject kFingerprint "worker job registry differs from the one the coordinator expects".

Definition hello_frame (frame : list byte) (h : Host) : Host :=
  match decodeHello frame with
  | Some hello =>
      if handshaken_ h then with_out Closes h
      else if negb (major hello =? kProtocolMajor) || negb (fingerprint hello =? own_fingerprint)
      then with_out Closes (with_out (Sent (encodeReject (reject_of hello))) h)
      else
        let chosen := chooseStrategy (strategies hello) in
        mkHost true (closed_ h) (admitted_ h) (Z.min (inlineBound options) (maxInlineBytes hello)) (queue_ h) (active_ h)
          (offer_name <$> chosen) (works h) (runners h) (serving h)
          (out h ++ [Sent (encodeHello kHelloAck (own_ack chosen))])
  | None => with_out Closes h
  end.

(** The inputs with strategy references resolved; [answers] is what the strategy
    returns for the i-th job. *)
Definition resolve (h : Host) (answers : nat -> expected Payload PipelineError) (i : nat) (j : RequestJob) : expected Payload PipelineError :=
  if negb (bool_decide (kind (input j) = kReference)) then Expected (input j)
  else match strategy_ h with Some _ => answers i | None => Unexpected kJobFailed end.
Definition resolved_all (l : list (expected Payload PipelineError)) : bool :=
  forallb (fun x => match x with Expected _ => true | Unexpected _ => false end) l.
Definition resolved_inputs (l : list (expected Payload PipelineError)) : list Payload :=
  (fun x => match x with Expected p => p | Unexpected _ => Payload_empty end) <$> l.

Definition refused_result (resolved : bool) : JobResult :=
  mkResult (JobStatus_u8 kFailed) (PipelineError_u8 (if resolved then kBusy else kJobFailed))
    (if resolved then "worker at capacity" else "input payload unavailable") Payload_empty.
Definition refusal (id : Z) (r : SubGraphRequest) (resolved : bool) : list byte :=
  encodeReply id (mkReply (replicate (length (jobs r)) (refused_result resolved))) [].

Definition request_frame (frame : list byte) (answers : nat -> expected Payload PipelineError) (h : Host) : Host :=
  match decodeRequest frame with
  | Some (id, r) =>
      let l := imap (resolve h answers) (jobs r) in
      if negb (handshaken_ h) then with_out Closes h
      else if (maxConcurrentRequests options <=? admitted_ h) || negb (resolved_all l)
      then with_out (Sent (refusal id r (resolved_all l))) h
      else
        let work := mkWork id r (resolved_inputs l) false in
        with_queue (queue_ h ++ [length (works h)])
          (with_works (works h ++ [work]) (with_admitted (u32 (admitted_ h + 1)) h))
  | None => with_out Closes h
  end.

(** The work that a cancellation is for: the last queued one with its id, or else
    the running one. *)
Definition cancel_target (id : Z) (h : Host) : option nat :=
  match last (filter (fun w => work_id <$> works h !! w = Some id) (queue_ h)) with
  | Some w => Some w
  | None => active_ h !! id
  end.
Definition cancel_frame (frame : list byte) (h : Host) : Host :=
  match decodeCancel frame with
  | Some id => match cancel_target id h with Some w => stop_work w h | None => h end
  | None => h
  end.

Definition on_frame (frame : list byte) (answers : nat -> expected Payload PipelineError) (h : Host) : Host :=
  match frameType frame with
  | Some kPayload => match strategy_ h with Some _ => with_out (Passes (drop kHeaderBytes frame)) h | None => with_out Closes h end
  | Some kHello => hello_frame frame h
  | Some kRequest => request_frame frame answers h
  | Some kCancel => cancel_frame frame h
  | _ => with_out Closes h
  end.

(** ** Runners *)

Definition id_of (h : Host) (w : nat) : Z := default 0 (work_id <$> works h !! w).

(** [results] is what the run made of the request. *)
Definition runner_step (k : nat) (results : list (JobResult * option Payload)) (h : Host) : option Host :=
  match runners h !! k with
  | Some RIdle =>
      match queue_ h with
      | w :: q => Some (with_runner k (RRuns w) (with_active (<[id_of h w := w]> (active_ h)) (with_queue q h)))
      | [] => match serving h with SJoining => Some (with_runner k RGone h) | _ => None end
      end
  | Some (RRuns w) =>
      Some (with_runner k (RReplied w) (with_out (Replied w (encodeReply (id_of h w) (mkReply results.*1) results.*2)) h))
  | Some (RReplied w) =>
      Some (with_runner k RIdle (with_admitted (u32 (admitted_ h - 1)) (with_active (delete (id_of h w) (active_ h)) h)))
  | _ => None
  end.

(** ** Serving *)

Definition running_works (h : Host) : list nat := (map_to_list (active_ h)).*2 ++ queue_ h.

(** [stop] says that [serve]'s token was asked to stop. *)
Definition serve_step (stop : bool) (h : Host) : option Host :=
  match serving h with
  | SServing => if closed_ h || stop then Some (with_serving SClosing (with_out Closes h)) else None
  | SClosing => if closed_ h then Some (with_serving (SStopping (running_works h)) (with_queue [] h)) else None
  | SStopping (w :: l) => Some (with_serving (SStopping l) (stop_work w h))
  | SStopping [] => Some (with_serving SJoining h)
  | SJoining => if forallb (fun x => match x with RGone => true | _ => false end) (runners h)
                then Some (with_serving SServed h) else None
  | SServed => None
  end.

Definition closed (h : Host) : Host :=
  mkHost (handshaken_ h) true (admitted_ h) (inlineLimit_ h) (queue_ h) (active_ h) (strategy_ h)
    (works h) (runners h) (serving h) (out h).

(** ** Interleavings. The transport delivers frames one at a time and none after it
    has reported the connection closed, which it does once. *)
Inductive Move : Type :=
  | MFrame (frame : list byte) (answers : nat -> expected Payload PipelineError)
  | MClosed
  | MServe (stop : bool)
  | MRunner (k : nat) (results : list (JobResult * option Payload)).

Definition host_move (mv : Move) (h : Host) : option Host :=
  match mv with
  | MFrame frame answers => if closed_ h then None else Some (on_frame frame answers h)
  | MClosed => if closed_ h then None else Some (closed h)
  | MServe stop => serve_step stop h
  | MRunner k results => runner_step k results h
  end.
Fixpoint host_moves (l : list Move) (h : Host) : option Host :=
  match l with [] => Some h | mv :: l => h ← host_move mv h; host_moves l h end.

End host.
