(* ===== verification/WorkerHostCorrect.v ===== *)
(** The worker admits at most as many requests as it advertises, answers each at
    most once, and its cancellations reach every request in flight. *)
From stdpp Require Import pretty.
From S2P Require Import Prelude Types EdgeLists Bytes Payload SubGraph Wire Stream WorkerHost.

(** ** Where an admitted request is *)

Definition runs (w : nat) (x : Runner) : nat := match x with RRuns v => if decide (v = w) then 1 else 0 | _ => 0 end.
Definition holds (w : nat) (x : Runner) : nat :=
  match x with RRuns v | RReplied v => if decide (v = w) then 1 else 0 | _ => 0 end.
Definition busy (x : Runner) : nat := match x with RRuns _ | RReplied _ => 1 | _ => 0 end.
Definition answers_of (w : nat) (o : Out) : nat := match o with Replied v _ => if decide (v = w) then 1 else 0 | _ => 0 end.

Definition answered (h : Host) (w : nat) : nat := sum_list_with (answers_of w) (out h).
Definition places (h : Host) (w : nat) : nat := (occ1 w (queue_ h) + sum_list_with (runs w) (runners h) + answered h w)%nat.
Definition in_flight (h : Host) (w : nat) : Prop := w ∈ queue_ h \/ exists k, runners h !! k = Some (RRuns w).
(** [serve] has taken the requests that wait. *)
Definition emptied (h : Host) : bool := match serving h with SServing | SClosing => false | _ => true end.
Definition stopped (h : Host) (w : nat) : Prop := stop_requested <$> works h !! w = Some true.
Definition to_stop (h : Host) : list nat := match serving h with SStopping l => l | _ => [] end.

(** A stop changes no identity. *)
Lemma ids_stopped (w : nat) (ws : list Work) : work_id <$> alter request_stop w ws = work_id <$> ws.
Proof.
  apply list_eq. intros k. rewrite !list_lookup_fmap. destruct (decide (w = k)) as [->|].
  - rewrite list_lookup_alter_eq. by destruct (ws !! k).
  - by rewrite list_lookup_alter_ne.
Qed.
Lemma id_of_stopped w h v : id_of (stop_work w h) v = id_of h v.
Proof.
  unfold id_of. f_equal. cbn. rewrite <- !list_lookup_fmap. by rewrite ids_stopped.
Qed.
Lemma stopped_stop w h v : stopped h v \/ (v = w /\ (w < length (works h))%nat) -> stopped (stop_work w h) v.
Proof.
  unfold stopped. cbn. intros [H|[-> Hw]].
  - destruct (decide (w = v)) as [->|]; [|by rewrite list_lookup_alter_ne].
    rewrite list_lookup_alter_eq. destruct (works h !! v); [done|discriminate H].
  - rewrite list_lookup_alter_eq. by destruct (lookup_lt_is_Some_2 _ _ Hw) as [x ->].
Qed.

Section correct.
Context (options : HostOptions) (own_fingerprint : Z) (stream_factory : Factory).
Context (Hmax : 0 <= maxConcurrentRequests options < 2 ^ 32).
Abbreviation move := (host_move options own_fingerprint stream_factory).

Record host_inv (h : Host) : Prop := {
  hv_places : forall w, (places h w <= (if decide (w < length (works h)) then 1 else 0))%nat;
  hv_kept : emptied h = false -> forall w, (w < length (works h))%nat -> places h w = 1%nat;
  hv_holds : forall w, (occ1 w (queue_ h) + sum_list_with (holds w) (runners h) <= 1)%nat;
  hv_range : forall w, (length (works h) <= w)%nat -> sum_list_with (holds w) (runners h) = 0%nat;
  hv_load : Z.of_nat (length (queue_ h) + sum_list_with busy (runners h)) <= admitted_ h <= maxConcurrentRequests options;
  hv_exact : emptied h = false -> admitted_ h = Z.of_nat (length (queue_ h) + sum_list_with busy (runners h));
  hv_handshake : works h <> [] -> handshaken_ h = true;
  hv_emptied : emptied h = true -> queue_ h = [] /\ closed_ h = true;
  hv_active : NoDup (work_id <$> works h) -> forall w k, runners h !! k = Some (RRuns w) -> active_ h !! id_of h w = Some w;
  hv_stop : NoDup (work_id <$> works h) -> emptied h = true -> forall w k, runners h !! k = Some (RRuns w) ->
    stopped h w \/ w ∈ to_stop h;
}.

(** What an update that leaves the requests alone keeps. *)
Lemma inv_same h h' : host_inv h -> queue_ h' = queue_ h -> runners h' = runners h -> works h' = works h ->
  (forall w, answered h' w = answered h w) -> admitted_ h' = admitted_ h -> active_ h' = active_ h ->
  serving h' = serving h -> (handshaken_ h = true -> handshaken_ h' = true) -> (closed_ h = true -> closed_ h' = true) ->
  host_inv h'.
Proof.
  intros [H1 H2 H3 Hrg H4 H5 H6 H7 H8 H9] Eq Er Ew Eo Ea Eac Es Eh Ec.
  assert (Ee : emptied h' = emptied h) by (unfold emptied; by rewrite Es).
  split; unfold places, stopped, to_stop, id_of in *; rewrite ?Ee, ?Eq, ?Er, ?Ew, ?Ea, ?Eac, ?Es in *; auto.
  - intros w. rewrite Eo. apply H1.
  - intros E w Hw. rewrite Eo. auto.
  - intros [? ?]%H7. auto.
Qed.

Lemma answered_out h o w : answered (with_out o h) w = (answered h w + answers_of w o)%nat.
Proof. unfold answered. cbn. rewrite sum_list_with_app. cbn. lia. Qed.

Lemma inv_out h o : host_inv h -> (forall w, answers_of w o = 0%nat) -> host_inv (with_out o h).
Proof. intros Hi Ho. eapply inv_same; [exact Hi|done..| | | | | |]; try done. intros w. rewrite answered_out, Ho. lia. Qed.

Lemma serve_begin_inv : host_inv (serve_begin options).
Proof.
  assert (Hs : forall f k, f RIdle = 0%nat -> sum_list_with f (replicate k RIdle) = 0%nat).
  { intros f k Hf. induction k as [|k IH]; [done|]. cbn. by rewrite Hf. }
  split; unfold places, answered; cbn; intros; rewrite ?Hs by done; try case_decide; try done; try lia.
  all: match goal with H : replicate _ _ !! _ = Some _ |- _ => by apply lookup_replicate in H as [? _] end.
Qed.
Lemma inv_stop w h s : host_inv h -> (serving h = s \/ serving h = SStopping (w :: match s with SStopping l => l | _ => [] end) /\ exists l, s = SStopping l) ->
  host_inv (with_serving s (stop_work w h)).
Proof.
  intros [H1 H2 H3 Hrg H4 H5 H6 H7 H8 H9] Hs.
  assert (Ee : emptied (with_serving s (stop_work w h)) = emptied h).
  { unfold emptied. cbn. by destruct Hs as [-> | [-> [l ->]]]. }
  assert (Hid : forall v, id_of (with_serving s (stop_work w h)) v = id_of h v) by apply (id_of_stopped w h).
  split; rewrite ?Ee; unfold places, answered in *; cbn [queue_ runners works out admitted_ handshaken_ closed_ active_
    with_serving with_works stop_work] in *; rewrite ?length_alter, ?ids_stopped; auto.
  - intros Hw. apply H6. intros E. apply Hw. by rewrite E.
  - intros Hn v k Hk. rewrite Hid. by eapply H8.
  - intros Hn He v k Hk. assert (Hlen : (v < length (works h))%nat).
    { specialize (H1 v). pose proof (sum_lookup_le (runs v) _ _ _ Hk) as Hr. cbn in Hr. rewrite decide_True in Hr by done.
      case_decide; [done|lia]. }
    destruct (H9 Hn He v k Hk) as [Hst|Hin]; [left; apply (stopped_stop w h); by left|].
    destruct Hs as [<- | [E [l ->]]]; [by right|]. unfold to_stop in Hin. rewrite E in Hin.
    apply elem_of_cons in Hin as [->|Hin]; [left; apply (stopped_stop w h); by right|by right].
Qed.
(** A runner's change. *)
Lemma runner_sums h k x y (f : Runner -> nat) : runners h !! k = Some x ->
  (sum_list_with f (<[k := y]> (runners h)) + f x = sum_list_with f (runners h) + f y)%nat.
Proof. apply sum_list_insert. Qed.

Lemma lookup_with_runner h k x y j z : runners h !! k = Some x -> <[k := y]> (runners h) !! j = Some z ->
  (k = j /\ z = y) \/ (k <> j /\ runners h !! j = Some z).
Proof.
  intros Hk H. destruct (decide (k = j)) as [->|Hne].
  - rewrite list_lookup_insert_eq in H by (by eapply lookup_lt_Some). injection H as <-. by left.
  - rewrite list_lookup_insert_ne in H by done. by right.
Qed.

Lemma distinct_ids h v w : NoDup (work_id <$> works h) -> (v < length (works h))%nat -> (w < length (works h))%nat ->
  id_of h v = id_of h w -> v = w.
Proof.
  intros Hn Hv Hw He. destruct (lookup_lt_is_Some_2 _ _ Hv) as [x Hx], (lookup_lt_is_Some_2 _ _ Hw) as [y Hy].
  unfold id_of in He. rewrite Hx, Hy in He. cbn in He.
  apply (NoDup_lookup _ v w (work_id x) Hn); rewrite list_lookup_fmap; [by rewrite Hx|rewrite Hy; cbn; congruence].
Qed.

Lemma held_range h w k x : host_inv h -> runners h !! k = Some x -> holds w x = 1%nat -> (w < length (works h))%nat.
Proof.
  intros Hi Hk Hx. pose proof (hv_range _ Hi w) as H. pose proof (sum_lookup_le (holds w) _ _ _ Hk) as Hr. lia.
Qed.
Lemma holds_same w : holds w (RRuns w) = 1%nat /\ holds w (RReplied w) = 1%nat.
Proof. cbn. by rewrite decide_True. Qed.
Lemma held_once h w j k x y : host_inv h -> runners h !! j = Some x -> runners h !! k = Some y ->
  holds w x = 1%nat -> holds w y = 1%nat -> j = k.
Proof.
  intros Hi Hj Hk Hx Hy. destruct (decide (j = k)) as [|Hne]; [done|].
  pose proof (sum_lookup_two (holds w) _ _ _ _ _ Hne Hj Hk). pose proof (hv_holds _ Hi w). lia.
Qed.

Lemma inv_take h k w q : host_inv h -> runners h !! k = Some RIdle -> queue_ h = w :: q ->
  host_inv (with_runner k (RRuns w) (with_active (<[id_of h w := w]> (active_ h)) (with_queue q h))).
Proof.
  intros Hi Hk Hq. pose proof (fun f => runner_sums h k _ (RRuns w) f Hk) as Hsum.
  assert (He : emptied h = false).
  { destruct (emptied h) eqn:E; [|done]. destruct (hv_emptied _ Hi E) as [E' _]. by rewrite E' in Hq. }
  assert (Hw : (w < length (works h))%nat).
  { pose proof (hv_places _ Hi w) as H. unfold places in H. rewrite Hq in H. cbn in H. rewrite decide_True in H by done.
    case_decide; [done|lia]. }
  pose proof Hi as [H1 H2 H3 Hrg H4 H5 H6 H7 H8 H9].
  match goal with |- host_inv ?h' => assert (Hp : forall v, places h' v = places h v) end.
  { intros v. specialize (Hsum (runs v)). cbn in Hsum. unfold places, answered. cbn. rewrite Hq. cbn. lia. }
  match goal with |- host_inv ?h' => assert (Ee : emptied h' = false) by exact He end.
  split; rewrite ?Ee; try (intros; congruence); cbn [queue_ runners works out admitted_ handshaken_ closed_ active_ with_runner with_active with_queue].
  - intros v. rewrite Hp. apply H1.
  - intros _ v Hv. rewrite Hp. by apply H2.
  - intros v. specialize (Hsum (holds v)). specialize (H3 v). rewrite Hq in H3. cbn in H3, Hsum. lia.
  - intros v Hv. specialize (Hsum (holds v)). specialize (Hrg v Hv). cbn in Hsum. case_decide; lia.
  - specialize (Hsum busy). rewrite Hq in H4. cbn in H4, Hsum. lia.
  - intros _. specialize (Hsum busy). rewrite (H5 He), Hq. cbn in *. lia.
  - done.
  - intros Hn v j Hj. destruct (lookup_with_runner _ _ _ _ _ _ Hk Hj) as [[_ [= ->]]|[Hne Hj']].
    + unfold id_of. cbn. by rewrite lookup_insert_eq.
    + change (id_of _ v) with (id_of h v). rewrite lookup_insert_ne; [by eapply H8|].
      intros E. apply (distinct_ids h w v Hn Hw) in E as ->; [|eapply held_range; [exact Hi|eassumption|apply holds_same]].
      pose proof (hv_holds _ Hi v) as Hh. pose proof (sum_lookup_le (holds v) _ _ _ Hj') as Hr. rewrite Hq in Hh.
      cbn in Hh, Hr. rewrite decide_True in Hh, Hr by done. lia.
Qed.

Lemma inv_reply h k w f : host_inv h -> runners h !! k = Some (RRuns w) ->
  host_inv (with_runner k (RReplied w) (with_out (Replied w f) h)).
Proof.
  intros Hi Hk. pose proof (fun g => runner_sums h k _ (RReplied w) g Hk) as Hsum.
  pose proof Hi as [H1 H2 H3 Hrg H4 H5 H6 H7 H8 H9].
  match goal with |- host_inv ?h' => assert (Hp : forall v, places h' v = places h v) end.
  { intros v. specialize (Hsum (runs v)). cbn in Hsum. unfold places.
    change (answered (with_runner _ _ ?x) v) with (answered x v). rewrite answered_out. cbn. lia. }
  match goal with |- host_inv ?h' => assert (Ee : emptied h' = emptied h) by done end.
  assert (Hj : forall v j, <[k := RReplied w]> (runners h) !! j = Some (RRuns v) -> runners h !! j = Some (RRuns v)).
  { intros v j H. by destruct (lookup_with_runner _ _ _ _ _ _ Hk H) as [[_ ?]|[_ ?]]. }
  split; rewrite ?Ee; try done; cbn [queue_ runners works out admitted_ handshaken_ closed_ active_ with_runner with_out].
  - intros v. rewrite Hp. apply H1.
  - intros E v Hv. rewrite Hp. by apply H2.
  - intros v. specialize (Hsum (holds v)). specialize (H3 v). cbn in Hsum. lia.
  - intros v Hv. specialize (Hsum (holds v)). specialize (Hrg v Hv). cbn in Hsum. lia.
  - specialize (Hsum busy). cbn in Hsum. lia.
  - intros E. specialize (Hsum busy). rewrite (H5 E). cbn in Hsum. lia.
  - intros Hn v j H. eapply H8; [done|]. by eapply Hj.
  - intros Hn E v j H. eapply (H9 Hn E v j). by eapply Hj.
Qed.

Lemma inv_finish h k w : host_inv h -> runners h !! k = Some (RReplied w) ->
  host_inv (with_runner k RIdle (with_admitted (u32 (admitted_ h - 1)) (with_active (delete (id_of h w) (active_ h)) h))).
Proof.
  intros Hi Hk. pose proof (fun g => runner_sums h k _ RIdle g Hk) as Hsum.
  pose proof Hi as [H1 H2 H3 Hrg H4 H5 H6 H7 H8 H9].
  pose proof (sum_lookup_le busy _ _ _ Hk) as Hb. cbn in Hb.
  assert (Hu : u32 (admitted_ h - 1) = admitted_ h - 1) by (unfold u32; rewrite Z.mod_small; lia).
  match goal with |- host_inv ?h' => assert (Hp : forall v, places h' v = places h v) end.
  { intros v. specialize (Hsum (runs v)). cbn in Hsum. unfold places, answered. cbn. lia. }
  match goal with |- host_inv ?h' => assert (Ee : emptied h' = emptied h) by done end.
  assert (Hj : forall v j, <[k := RIdle]> (runners h) !! j = Some (RRuns v) -> k <> j /\ runners h !! j = Some (RRuns v)).
  { intros v j H. by destruct (lookup_with_runner _ _ _ _ _ _ Hk H) as [[_ ?]|?]. }
  split; rewrite ?Ee; try done; cbn [queue_ runners works out admitted_ handshaken_ closed_ active_ with_runner with_active with_admitted].
  - intros v. rewrite Hp. apply H1.
  - intros E v Hv. rewrite Hp. by apply H2.
  - intros v. specialize (Hsum (holds v)). specialize (H3 v). cbn in Hsum. lia.
  - intros v Hv. specialize (Hsum (holds v)). specialize (Hrg v Hv). cbn in Hsum. lia.
  - specialize (Hsum busy). cbn in Hsum. lia.
  - intros E. specialize (Hsum busy). rewrite Hu, (H5 E). cbn in Hsum. lia.
  - intros Hn v j [Hne H]%Hj. change (id_of _ v) with (id_of h v). rewrite lookup_delete_ne; [by eapply H8|].
    intros E. pose proof (held_range _ w _ _ Hi Hk (proj2 (holds_same w))) as Hw.
    apply (distinct_ids h w v Hn Hw) in E as ->; [|eapply held_range; [exact Hi|eassumption|apply holds_same]].
    apply Hne. eapply (held_once h v k j); [done|done|exact H|apply holds_same..].
  - intros Hn E v j [_ H]%Hj. by eapply H9.
Qed.
Lemma inv_admit h x : host_inv h -> handshaken_ h = true -> closed_ h = false -> admitted_ h < maxConcurrentRequests options ->
  host_inv (with_queue (queue_ h ++ [length (works h)]) (with_works (works h ++ [x]) (with_admitted (u32 (admitted_ h + 1)) h))).
Proof.
  intros Hi Hh Hc Hlt. pose proof Hi as [H1 H2 H3 Hrg H4 H5 H6 H7 H8 H9].
  assert (He : emptied h = false) by (destruct (emptied h) eqn:E; [destruct (H7 eq_refl); congruence|done]).
  assert (Hu : u32 (admitted_ h + 1) = admitted_ h + 1) by (unfold u32; rewrite Z.mod_small; lia).
  set (n := length (works h)) in *.
  assert (Hn0 : places h n = 0%nat) by (specialize (H1 n); rewrite decide_False in H1 by (unfold n; lia); lia).
  match goal with |- host_inv ?h' => assert (Hp : forall v, places h' v = (places h v + (if decide (n = v) then 1 else 0))%nat) end.
  { intros v. unfold places, answered. cbn. rewrite occ1_app. cbn. lia. }
  match goal with |- host_inv ?h' => assert (Ee : emptied h' = false) by exact He end.
  split; rewrite ?Ee; try (intros; congruence); cbn [queue_ runners works out admitted_ handshaken_ closed_ active_ with_works with_queue with_admitted];
    rewrite ?length_app; cbn [length]; fold n.
  - intros v. rewrite Hp. specialize (H1 v). fold n in H1. repeat case_decide; subst; lia.
  - intros _ v Hv. rewrite Hp. destruct (decide (n = v)) as [<-|]; [lia|]. rewrite (H2 He v); unfold n in *; lia.
  - intros v. specialize (H3 v). rewrite occ1_app. cbn. case_decide as Hd; [|lia]. subst v.
    rewrite (Hrg n) by done. unfold places in Hn0. lia.
  - intros v Hv. apply Hrg. lia.
  - lia.
  - intros _. rewrite Hu, (H5 He). lia.
  - intros _. exact Hh.
  - intros Hnd v k Hk. rewrite fmap_app in Hnd. apply NoDup_app in Hnd as (Hnd & _ & _).
    pose proof (held_range _ v _ _ Hi Hk (proj1 (holds_same v))) as Hv.
    replace (id_of _ v) with (id_of h v); [by eapply H8|]. unfold id_of. cbn. by rewrite lookup_app_l by done.
Qed.

Lemma inv_closes h s : host_inv h -> emptied h = false -> emptied (with_serving s h) = false -> host_inv (with_serving s h).
Proof.
  intros [H1 H2 H3 Hrg H4 H5 H6 H7 H8 H9] He He'.
  split; rewrite ?He'; try done.
  - intros _. by apply H2.
  - intros _. by apply H5.
Qed.

Lemma inv_collect h : host_inv h -> emptied h = false -> closed_ h = true ->
  host_inv (with_serving (SStopping (running_works h)) (with_queue [] h)).
Proof.
  intros [H1 H2 H3 Hrg H4 H5 H6 H7 H8 H9] He Hc.
  split; try done; cbn [queue_ runners works out admitted_ handshaken_ closed_ active_ with_serving with_queue].
  - intros v. specialize (H1 v). unfold places, answered in *. cbn. lia.
  - intros v. specialize (H3 v). cbn. lia.
  - cbn. lia.
  - intros Hn _ v k Hk. right. cbn. unfold running_works. apply elem_of_app. left.
    apply list_elem_of_fmap. exists (id_of h v, v). split; [done|]. apply elem_of_map_to_list. by eapply H8.
Qed.

Lemma inv_joining h s : host_inv h -> emptied h = true -> to_stop h = [] -> emptied (with_serving s h) = true ->
  host_inv (with_serving s h).
Proof.
  intros [H1 H2 H3 Hrg H4 H5 H6 H7 H8 H9] He Ht He'. split; rewrite ?He'; try done.
  - intros _. by apply H7.
  - intros Hn _ v k Hk. left. destruct (H9 Hn He v k Hk) as [|Hin]; [done|]. rewrite Ht in Hin. by apply elem_of_nil in Hin.
Qed.

Lemma inv_gone h k : host_inv h -> runners h !! k = Some RIdle -> host_inv (with_runner k RGone h).
Proof.
  intros Hi Hk. pose proof (fun f => runner_sums h k _ RGone f Hk) as Hsum.
  pose proof Hi as [H1 H2 H3 Hrg H4 H5 H6 H7 H8 H9].
  match goal with |- host_inv ?h' => assert (Hp : forall v, places h' v = places h v) end.
  { intros v. specialize (Hsum (runs v)). cbn in Hsum. unfold places, answered. cbn. lia. }
  match goal with |- host_inv ?h' => assert (Ee : emptied h' = emptied h) by done end.
  assert (Hj : forall v j, <[k := RGone]> (runners h) !! j = Some (RRuns v) -> runners h !! j = Some (RRuns v)).
  { intros v j H. by destruct (lookup_with_runner _ _ _ _ _ _ Hk H) as [[_ ?]|[_ ?]]. }
  split; rewrite ?Ee; try done; cbn [queue_ runners works out admitted_ handshaken_ closed_ active_ with_runner].
  - intros v. rewrite Hp. apply H1.
  - intros E v Hv. rewrite Hp. by apply H2.
  - intros v. specialize (Hsum (holds v)). specialize (H3 v). cbn in Hsum. lia.
  - intros v Hv. specialize (Hsum (holds v)). specialize (Hrg v Hv). cbn in Hsum. lia.
  - specialize (Hsum busy). cbn in Hsum. lia.
  - intros E. specialize (Hsum busy). rewrite (H5 E). cbn in Hsum. lia.
  - intros Hn v j H. eapply H8; [done|]. by eapply Hj.
  - intros Hn E v j H. eapply (H9 Hn E v j). by eapply Hj.
Qed.

Lemma inv_frame frame answers h : host_inv h -> closed_ h = false ->
  host_inv (on_frame options own_fingerprint stream_factory frame answers h).
Proof.
  intros Hi Hc. unfold on_frame. destruct (frameType frame) as [[]|]; try (by apply inv_out).
  - unfold hello_frame. destruct (decodeHello frame) as [hello|]; [|by apply inv_out].
    destruct (handshaken_ h); [by apply inv_out|]. destruct (_ || _); [by repeat apply inv_out|].
    eapply inv_same; [exact Hi|done..| | | | | |]; try done.
    intros w. unfold answered. cbn. rewrite sum_list_with_app. cbn. lia.
  - unfold request_frame. destruct (decodeRequest frame) as [[id r]|]; [|by apply inv_out].
    destruct (handshaken_ h) eqn:Hh; [|by apply inv_out]. cbn [negb].
    destruct (Z.leb_spec (maxConcurrentRequests options) (admitted_ h)) as [|Hlt]; [by apply inv_out|].
    destruct (resolved_all _); [|by apply inv_out]. by apply inv_admit.
  - unfold cancel_frame. destruct (decodeCancel frame) as [id|]; [|done].
    destruct (cancel_target id h) as [w|]; [|done].
    change (host_inv (with_serving (serving h) (stop_work w h))). apply inv_stop; [done|by left].
  - destruct (strategy_ h); by apply inv_out.
Qed.

Lemma inv_move mv h h' : host_inv h -> move mv h = Some h' -> host_inv h'.
Proof.
  intros Hi H. destruct mv as [frame answers| |stop|k results]; cbn in H.
  - destruct (closed_ h) eqn:Hc; [done|]. injection H as <-. by apply inv_frame.
  - destruct (closed_ h) eqn:Hc; [done|]. injection H as <-. by eapply inv_same.
  - unfold serve_step in H. destruct (serving h) as [| |[|w l]| |] eqn:Es; [| | | | |done].
    + destruct (_ || _); [|done]. injection H as <-. apply inv_closes; [by apply inv_out|..]; unfold emptied; cbn; by rewrite ?Es.
    + destruct (closed_ h) eqn:Hc; [|done]. injection H as <-. apply inv_collect; [done| |done]. unfold emptied. by rewrite Es.
    + injection H as <-. apply inv_joining; [done|unfold emptied; by rewrite Es|unfold to_stop; by rewrite Es|done].
    + injection H as <-. apply inv_stop; [done|]. right. split; [done|by exists l].
    + destruct (forallb _ _); [|done]. injection H as <-.
      apply inv_joining; [done|unfold emptied; by rewrite Es|unfold to_stop; by rewrite Es|done].
  - unfold runner_step in H. destruct (runners h !! k) as [[|w|w|]|] eqn:Ek; [| | |done|done].
    + destruct (queue_ h) as [|w q] eqn:Eq.
      * destruct (serving h); try done. injection H as <-. by apply inv_gone.
      * injection H as <-. by apply inv_take.
    + injection H as <-. by apply inv_reply.
    + injection H as <-. by apply inv_finish.
Qed.

Lemma host_reachable_inv l h : host_moves options own_fingerprint stream_factory l (serve_begin options) = Some h -> host_inv h.
Proof.
  assert (H : forall h0, host_inv h0 -> host_moves options own_fingerprint stream_factory l h0 = Some h -> host_inv h).
  { induction l as [|mv l IH]; intros h0 Hi H; [by injection H as <-|].
    cbn in H. apply bind_Some in H as (h1 & H1 & H). eapply IH; [|exact H]. by eapply inv_move. }
  apply H, serve_begin_inv.
Qed.
Lemma queued_range h w : host_inv h -> w ∈ queue_ h -> (w < length (works h))%nat.
Proof.
  intros Hi Hin%occ1_elem. pose proof (hv_places _ Hi w) as H. unfold places in H. case_decide; [done|lia].
Qed.
Lemma in_flight_range h w : host_inv h -> in_flight h w -> (w < length (works h))%nat.
Proof.
  intros Hi [Hq|[k Hk]]; [by apply queued_range|]. eapply held_range; [done|exact Hk|apply holds_same].
Qed.

Lemma flight_places h w : in_flight h w <-> (1 <= occ1 w (queue_ h) + sum_list_with (runs w) (runners h))%nat.
Proof.
  split.
  - intros [Hq%occ1_elem|[k Hk]]; [lia|]. pose proof (sum_lookup_le (runs w) _ _ _ Hk) as H. cbn in H.
    rewrite decide_True in H by done. lia.
  - intros H. destruct (decide (0 < occ1 w (queue_ h))%nat) as [Hq|Hq]; [left; by apply occ1_elem|right].
    assert (Hr : (1 <= sum_list_with (runs w) (runners h))%nat) by lia. revert Hr. clear.
    induction (runners h) as [|x l IH]; cbn; [lia|]. intros H. destruct (decide (runs w x = 0%nat)) as [E|E].
    + destruct IH as [k Hk]; [lia|]. by exists (S k).
    + exists 0%nat. destruct x; cbn in E; try done. case_decide; [by subst|done].
Qed.

(** The one that [cancel_target] finds is the request in flight with that id. *)
Lemma cancel_target_found h w : host_inv h -> NoDup (work_id <$> works h) -> in_flight h w ->
  cancel_target (id_of h w) h = Some w.
Proof.
  intros Hi Hn Hw. pose proof (in_flight_range _ _ Hi Hw) as Hr. unfold cancel_target.
  destruct (last (filter _ (queue_ h))) as [v|] eqn:E.
  - apply last_Some_elem_of, list_elem_of_filter in E as [Hv Hq]. f_equal.
    apply (distinct_ids h); [done|by apply queued_range|done|]. unfold id_of at 1. by rewrite Hv.
  - apply last_None in E. destruct Hw as [Hq|[k Hk]]; [|by eapply (hv_active _ Hi)].
    assert (Hin : w ∈ filter (fun v => work_id <$> works h !! v = Some (id_of h w)) (queue_ h)).
    { apply list_elem_of_filter. split; [|done]. unfold id_of. by destruct (lookup_lt_is_Some_2 _ _ Hr) as [x ->]. }
    rewrite E in Hin. by apply elem_of_nil in Hin.
Qed.

(** C29. A worker runs only requests it admitted after the handshake, never more at
    once than it advertised, and answers each at most once: until it stops serving
    every admitted request waits, runs or was answered, and none is in two of
    these states. *)
Theorem worker_answers_once l h :
  host_moves options own_fingerprint stream_factory l (serve_begin options) = Some h ->
  (forall w, (answered h w <= 1)%nat /\ (answered h w = 1%nat -> ~ in_flight h w)) /\
  (emptied h = false -> forall w, (w < length (works h))%nat -> answered h w = 1%nat \/ in_flight h w) /\
  Z.of_nat (length (queue_ h) + sum_list_with busy (runners h)) <= admitted_ h <= maxConcurrentRequests options /\
  (works h <> [] -> handshaken_ h = true).
Proof.
  intros Hi%host_reachable_inv. split; [|split; [|split; [apply Hi|apply Hi]]].
  - intros w. pose proof (hv_places _ Hi w) as H. unfold places in H. rewrite flight_places. case_decide; lia.
  - intros E w Hw. pose proof (hv_kept _ Hi E w Hw) as H. unfold places in H. rewrite flight_places. lia.
Qed.

(** Stops reach their requests: while request ids are distinct, a cancellation
    requests the stop of the waiting or running request it names, and once [serve]
    waits for its runners, each request still running has been asked to stop. *)
Theorem worker_stop_reaches l h w :
  host_moves options own_fingerprint stream_factory l (serve_begin options) = Some h ->
  NoDup (work_id <$> works h) -> in_flight h w ->
  (forall frame answers, frameType frame = Some kCancel -> decodeCancel frame = Some (id_of h w) ->
     stopped (on_frame options own_fingerprint stream_factory frame answers h) w) /\
  (serving h = SJoining \/ serving h = SServed -> stopped h w).
Proof.
  intros Hi%host_reachable_inv Hn Hw. split.
  - intros frame answers Ht Hd. unfold on_frame, cancel_frame. rewrite Ht, Hd, cancel_target_found by done.
    apply stopped_stop. right. split; [done|by apply in_flight_range].
  - intros Hs. assert (He : emptied h = true) by (unfold emptied; by destruct Hs as [-> | ->]).
    destruct Hw as [Hq|[k Hk]]; [destruct (hv_emptied _ Hi He) as [E _]; rewrite E in Hq; by apply elem_of_nil in Hq|].
    destruct (hv_stop _ Hi Hn He w k Hk) as [|Hin]; [done|]. unfold to_stop in Hin.
    destruct Hs as [E|E]; rewrite E in Hin; by apply elem_of_nil in Hin.
Qed.
End correct.

(** ** A worker that takes one request at a time *)

Definition one_at_a_time : HostOptions := mkHostOptions 1 65536 [].
Definition no_stream : Factory := None.
Definition coordinator_hello : list byte := encodeHello kHello (mkHello kProtocolMajor kProtocolMinor 42 4 65536 []).
Definition small_request (id : Z) : list byte :=
  default [] (encodeRequest id (mkRequest [mkRequestJob (mkKind "k" 1) Payload_empty true] []) []).
Definition no_answers (i : nat) : expected Payload PipelineError := Unexpected kJobFailed.
Definition deliver (frame : list byte) : Move := MFrame frame no_answers.
Definition small_result : list (JobResult * option Payload) :=
  [(mkResult (JobStatus_u8 kDone) (PipelineError_u8 kJobFailed) "" Payload_empty, None)].
Definition reached (l : list Move) : Host :=
  default (serve_begin one_at_a_time) (host_moves one_at_a_time 42 no_stream l (serve_begin one_at_a_time)).

(** The second request comes after the first one's reply. *)
Definition polite_coordinator : list Move :=
  [deliver coordinator_hello; deliver (small_request 1); MRunner 0 []; MRunner 0 small_result; deliver (small_request 2)].

Lemma reached_ok l : succeeds (host_moves one_at_a_time 42 no_stream l (serve_begin one_at_a_time)) = true ->
  host_moves one_at_a_time 42 no_stream l (serve_begin one_at_a_time) = Some (reached l).
Proof. apply default_reached. Qed.

Lemma worker_answers_once_witness : let h := reached polite_coordinator in
  (forall w, (answered h w <= 1)%nat /\ (answered h w = 1%nat -> ~ in_flight h w)) /\
  (emptied h = false -> forall w, (w < length (works h))%nat -> answered h w = 1%nat \/ in_flight h w) /\
  Z.of_nat (length (queue_ h) + sum_list_with busy (runners h)) <= admitted_ h <= maxConcurrentRequests one_at_a_time /\
  (works h <> [] -> handshaken_ h = true).
Proof.
  cbv zeta. apply (worker_answers_once one_at_a_time 42 no_stream ltac:(cbn; lia) polite_coordinator).
  apply reached_ok. vm_compute. reflexivity.
Defined.

(** A request that is cancelled while it runs, and a connection that is then lost. *)
Definition running_one : list Move := [deliver coordinator_hello; deliver (small_request 1); MRunner 0 []].
Lemma worker_stop_reaches_witness : let h := reached running_one in
  (forall frame answers, frameType frame = Some kCancel -> decodeCancel frame = Some (id_of h 0) ->
     stopped (on_frame one_at_a_time 42 no_stream frame answers h) 0) /\
  (serving h = SJoining \/ serving h = SServed -> stopped h 0).
Proof.
  cbv zeta. apply (worker_stop_reaches one_at_a_time 42 no_stream ltac:(cbn; lia) running_one).
  - apply reached_ok. vm_compute. reflexivity.
  - change (NoDup [1]). apply NoDup_singleton.
  - right. exists 0%nat. vm_compute. reflexivity.
Defined.

Example cancel_stops_running : stop_requested <$> works (reached (running_one ++ [deliver (encodeCancel 1)])) = [true].
Proof. vm_compute. reflexivity. Qed.
Example lost_connection_stops_running :
  stop_requested <$> works (reached (running_one ++ [MClosed; MServe false; MServe false; MServe false])) = [true].
Proof. vm_compute. reflexivity. Qed.

(** The runner counts a request out only after its reply has left, so the
    coordinator's next request can be refused although nothing is in flight. *)
Example refused_after_reply : out (reached polite_coordinator) !! 2%nat =
  Some (Sent (refusal 2 (mkRequest [mkRequestJob (mkKind "k" 1) Payload_empty true] []) true)) /\
  queue_ (reached polite_coordinator) = [] /\ runners (reached polite_coordinator) = [RReplied 0].
Proof. vm_compute. repeat split. Qed.
