(* ===== verification/Executors.v ===== *)
(** The thread-pool executor (include/sub0pipeline/executor/priority_executor.hpp,
    platform/priority/priority_executor.cpp): callers of [dispatch] and [waitAll],
    the workers and the two condition variables, one critical section, atomic
    access or call out of the executor per step. A job is named by the place of
    its acceptance. *)
From S2P Require Import Prelude Types.

(** A queued job; [sequence] is what the stable executor compares. *)
Record QueuedJob := mkJob { sequence : Z; job : nat; priority : Z }.

Inductive Worker : Set :=
  | WStart                    (* before onThreadStart *)
  | WChecks                   (* about to take the lock and look at the queue *)
  | WAsleep                   (* blocked in wake_.wait *)
  | WAwake                    (* woken, about to look at the queue again *)
  | WRuns (j : nat) | WCompletes (j : nat)
  | WCounts (j : nat)         (* targets destroyed, about to count the job out *)
  | WNotifies                 (* counted the last job out *)
  | WGone.

(** Threads that call the executor. *)
Inductive Caller : Set :=
  | CNotify                   (* dispatch, after its section, with a worker to wake *)
  | CNotifyAll                (* stopWorkers, after its section *)
  | CWaits                    (* waitAll, about to test the count *)
  | CAsleep                   (* blocked in doneCv_.wait *)
  | CReturned.

Record Pool := mkPool {
  queue_ : list QueuedJob; nextSequence_ : Z; idle_ : Z; stopping_ : bool; inFlight_ : Z;
  workers : list Worker; callers : list Caller;
  accepted : nat; started : list nat; finished : list nat
}.

Section pool.
(** The variant, and the queue's bound (0 for none). *)
Context (Stable : bool) (queueCapacity_ : Z).

(** [operator<] *)
Definition less (a b : QueuedJob) : bool :=
  if negb (priority a =? priority b) then priority a <? priority b
  else if Stable then sequence b <? sequence a else false.

(** The queue's top is a job that no other is greater than; which one, where
    several are, is the heap's choice. *)
Definition top (q : list QueuedJob) (k : nat) : option QueuedJob :=
  match q !! k with
  | Some x => if existsb (less x) q then None else Some x
  | None => None
  end.

Definition pool_begin (threadCount : nat) : Pool :=
  mkPool [] 0 0 false 0 (replicate threadCount WStart) [] 0 [] [].

Definition with_worker (w : nat) (x : Worker) (p : Pool) : Pool :=
  mkPool (queue_ p) (nextSequence_ p) (idle_ p) (stopping_ p) (inFlight_ p) (<[w := x]> (workers p)) (callers p)
    (accepted p) (started p) (finished p).
Definition with_caller (c : nat) (x : Caller) (p : Pool) : Pool :=
  mkPool (queue_ p) (nextSequence_ p) (idle_ p) (stopping_ p) (inFlight_ p) (workers p) (<[c := x]> (callers p))
    (accepted p) (started p) (finished p).
Definition add_caller (x : Caller) (p : Pool) : Pool :=
  mkPool (queue_ p) (nextSequence_ p) (idle_ p) (stopping_ p) (inFlight_ p) (workers p) (callers p ++ [x])
    (accepted p) (started p) (finished p).
Definition with_idle (i : Z) (p : Pool) : Pool :=
  mkPool (queue_ p) (nextSequence_ p) i (stopping_ p) (inFlight_ p) (workers p) (callers p)
    (accepted p) (started p) (finished p).

Definition UINT32_MAX : Z := 2 ^ 32 - 1.
Definition exhausted (p : Pool) : bool :=
  (negb (queueCapacity_ =? 0) && (zlen (queue_ p) =? queueCapacity_)) || (inFlight_ p =? UINT32_MAX).

(** [dispatch]: [None] when it throws. *)
Definition dispatch (prio : Z) (p : Pool) : option Pool :=
  if exhausted p then None
  else
    let p' := mkPool (queue_ p ++ [mkJob (nextSequence_ p) (accepted p) prio]) (u64 (nextSequence_ p + 1))
                (idle_ p) (stopping_ p) (u32 (inFlight_ p + 1)) (workers p) (callers p)
                (S (accepted p)) (started p) (finished p) in
    Some (if negb (idle_ p =? 0) then add_caller CNotify p' else p').

Definition wakes (x : Worker) : Worker := match x with WAsleep => WAwake | _ => x end.
Definition resumes (x : Caller) : Caller := match x with CAsleep => CWaits | _ => x end.

(** The tail of [wake_.wait] under the lock, with [idle] what is then counted: sleep,
    leave, or take the job at [k]. *)
Definition look (w k : nat) (idle : Z) (p : Pool) : option Pool :=
  match queue_ p with
  | [] => if stopping_ p then Some (with_worker w WGone (with_idle (u32 (idle - 1)) p))
          else Some (with_worker w WAsleep (with_idle idle p))
  | _ =>
      match top (queue_ p) k with
      | Some x =>
          Some (mkPool (delete k (queue_ p)) (nextSequence_ p) (u32 (idle - 1)) (stopping_ p) (inFlight_ p)
                  (<[w := WRuns (job x)]> (workers p)) (callers p) (accepted p) (started p ++ [job x]) (finished p))
      | None => None
      end
  end.

Definition worker_step (w k : nat) (p : Pool) : option Pool :=
  match workers p !! w with
  | Some WStart => Some (with_worker w WChecks p)
  | Some WChecks => look w k (u32 (idle_ p + 1)) p
  | Some WAwake => look w k (idle_ p) p
  | Some (WRuns j) => Some (with_worker w (WCompletes j) p)
  | Some (WCompletes j) => Some (with_worker w (WCounts j) p)
  | Some (WCounts j) =>
      Some (mkPool (queue_ p) (nextSequence_ p) (idle_ p) (stopping_ p) (u32 (inFlight_ p - 1))
              (<[w := if inFlight_ p =? 1 then WNotifies else WChecks]> (workers p)) (callers p)
              (accepted p) (started p) (finished p ++ [j]))
  | Some WNotifies =>
      Some (mkPool (queue_ p) (nextSequence_ p) (idle_ p) (stopping_ p) (inFlight_ p)
              (<[w := WChecks]> (workers p)) (resumes <$> callers p) (accepted p) (started p) (finished p))
  | _ => None
  end.

(** [notify_one] wakes a sleeping worker, [w], if there is one. *)
Definition notify_one (w : nat) (p : Pool) : option Pool :=
  match workers p !! w with
  | Some WAsleep => Some (with_worker w WAwake p)
  | _ => if existsb (fun x => match x with WAsleep => true | _ => false end) (workers p) then None else Some p
  end.

Definition caller_step (c w : nat) (p : Pool) : option Pool :=
  match callers p !! c with
  | Some CNotify => with_caller c CReturned <$> notify_one w p
  | Some CNotifyAll =>
      Some (with_caller c CReturned
        (mkPool (queue_ p) (nextSequence_ p) (idle_ p) (stopping_ p) (inFlight_ p) (wakes <$> workers p) (callers p)
           (accepted p) (started p) (finished p)))
  | Some CWaits => Some (with_caller c (if inFlight_ p =? 0 then CReturned else CAsleep) p)
  | _ => None
  end.

(** [stopWorkers]: its section, then it wakes every worker. *)
Definition stopWorkers (p : Pool) : Pool :=
  add_caller CNotifyAll (mkPool (queue_ p) (nextSequence_ p) (idle_ p) true (inFlight_ p) (workers p) (callers p)
                           (accepted p) (started p) (finished p)).

(** Calls from outside, moves of threads inside, and spurious wake-ups. Nothing is
    dispatched once the executor is being destroyed. *)
Inductive Call : Set := KDispatch (prio : Z) | KWaitAll | KStop | KSpuriousWorker (w : nat) | KSpuriousCaller (c : nat).
Inductive Inner : Set := IWorker (w k : nat) | ICaller (c w : nat).

Definition pool_call (k : Call) (p : Pool) : option Pool :=
  match k with
  | KDispatch prio => if stopping_ p then None else dispatch prio p
  | KWaitAll => Some (add_caller CWaits p)
  | KStop => if stopping_ p then None else Some (stopWorkers p)
  | KSpuriousWorker w => match workers p !! w with Some WAsleep => Some (with_worker w WAwake p) | _ => None end
  | KSpuriousCaller c => match callers p !! c with Some CAsleep => Some (with_caller c CWaits p) | _ => None end
  end.
Definition pool_inner (i : Inner) (p : Pool) : option Pool :=
  match i with IWorker w k => worker_step w k p | ICaller c w => caller_step c w p end.

Definition pool_move (m : Call + Inner) (p : Pool) : option Pool :=
  match m with inl k => pool_call k p | inr i => pool_inner i p end.
Fixpoint pool_moves (l : list (Call + Inner)) (p : Pool) : option Pool :=
  match l with [] => Some p | m :: l => p ← pool_move m p; pool_moves l p end.

Definition inner_step (p p' : Pool) : Prop := exists i, pool_inner i p = Some p'.

End pool.
