(* ===== verification/ExecutorCorrect.v ===== *)
(** The thread-pool executor runs each accepted job once, the greatest priority
    first, loses no wake-up, and drains: left alone it finishes every accepted job
    and lets every waiter go. *)
From S2P Require Import Prelude Types EdgeLists Executors.

Definition holds (j : nat) (x : Worker) : nat :=
  match x with WRuns i | WCompletes i | WCounts i => if decide (i = j) then 1 else 0 | _ => 0 end.
Definition busy (x : Worker) : nat := match x with WRuns _ | WCompletes _ | WCounts _ => 1 | _ => 0 end.
Definition idles (x : Worker) : nat := match x with WAsleep | WAwake => 1 | _ => 0 end.
Definition queued (j : nat) (q : QueuedJob) : nat := if decide (job q = j) then 1 else 0.
(** A worker that will look at the queue without being woken. *)
Definition active (x : Worker) : Prop := x <> WAsleep /\ x <> WGone.

Section correct.
Context (Stable : bool) (queueCapacity_ : Z) (Hcap : 0 <= queueCapacity_).
Abbreviation move := (pool_move Stable queueCapacity_).

Record pool_inv (p : Pool) : Prop := {
  pv_places : forall j, (sum_list_with (queued j) (queue_ p) + sum_list_with (holds j) (workers p) + occ1 j (finished p)
    = if decide (j < accepted p) then 1 else 0)%nat;
  pv_started : forall j, occ1 j (started p) = (sum_list_with (holds j) (workers p) + occ1 j (finished p))%nat;
  pv_done : length (finished p) = (accepted p - (length (queue_ p) + sum_list_with busy (workers p)))%nat /\
    (length (queue_ p) + sum_list_with busy (workers p) <= accepted p)%nat;
  pv_count : inFlight_ p = Z.of_nat (length (queue_ p) + sum_list_with busy (workers p)) /\ inFlight_ p <= UINT32_MAX;
  pv_capacity : queueCapacity_ <> 0 -> zlen (queue_ p) <= queueCapacity_;
  pv_workers : (0 < length (workers p))%nat /\ Z.of_nat (length (workers p)) < 2 ^ 31;
  pv_idle : idle_ p = Z.of_nat (sum_list_with idles (workers p));
  pv_sequence : nextSequence_ p = u64 (Z.of_nat (accepted p)) /\
    Forall (fun q => sequence q = u64 (Z.of_nat (job q))) (queue_ p);
  pv_wake : queue_ p <> [] -> (exists x, x ∈ workers p /\ active x) \/ CNotify ∈ callers p;
  pv_gone : WGone ∈ workers p -> stopping_ p = true /\ queue_ p = [];
  pv_stop : stopping_ p = true -> WAsleep ∈ workers p -> CNotifyAll ∈ callers p;
  pv_waiter : CAsleep ∈ callers p -> inFlight_ p <> 0 \/ WNotifies ∈ workers p;
}.

Lemma idles_le l : (sum_list_with idles l <= length l)%nat.
Proof. induction l as [|x l IH]; cbn; [lia|]. destruct x; cbn; lia. Qed.
Lemma idle_none l : sum_list_with idles l = 0%nat -> WAsleep ∉ l.
Proof. intros H (k & Hk)%list_elem_of_lookup_1. pose proof (sum_lookup_le idles _ _ _ Hk) as Hs. cbn in Hs. lia. Qed.

(** Without a sleeping or gone worker some worker is active. *)
Lemma someone_active p : pool_inv p -> queue_ p <> [] -> WAsleep ∉ workers p -> exists x, x ∈ workers p /\ active x.
Proof.
  intros Hi Hq Ha. destruct (workers p) as [|x l] eqn:E; [destruct (pv_workers _ Hi) as [H _]; rewrite E in H; cbn in H; lia|].
  exists x. split; [by left|]. split; [intros ->; apply Ha; by left|]. intros ->. apply Hq, (pv_gone _ Hi). rewrite E. by left.
Qed.

Lemma pool_begin_inv n : (0 < n)%nat -> Z.of_nat n < 2 ^ 31 -> pool_inv (pool_begin n).
Proof.
  intros H0 Hn. assert (Hs : forall f, f WStart = 0%nat -> sum_list_with f (replicate n WStart) = 0%nat).
  { intros f Hf. clear H0 Hn. induction n as [|n IH]; [done|]. cbn. by rewrite Hf. }
  assert (Hin : forall x, x ∈ replicate n WStart -> x = WStart) by (by intros x [? _]%elem_of_replicate).
  split; cbn [pool_begin queue_ workers finished started inFlight_ accepted idle_ nextSequence_ callers stopping_];
    rewrite ?length_replicate, ?Hs by done; try done.
  - intros j. by rewrite Hs.
  - intros j. by rewrite Hs.
  - by intros ?%Hin.
  - by intros ?%elem_of_nil.
Qed.
(** *** A worker's change *)

Lemma worker_sums p w x y (f : Worker -> nat) : workers p !! w = Some x ->
  (sum_list_with f (<[w := y]> (workers p)) + f x = sum_list_with f (workers p) + f y)%nat.
Proof. apply sum_list_insert. Qed.

Lemma elem_with_worker (l : list Worker) w x y z : l !! w = Some x -> z ∈ <[w := y]> l -> z = y \/ z ∈ l.
Proof.
  intros Hw Hz. apply list_elem_of_lookup_1 in Hz as [k Hk]. destruct (decide (w = k)) as [->|Hne].
  - rewrite list_lookup_insert_eq in Hk by (by eapply lookup_lt_Some). injection Hk as <-. by left.
  - rewrite list_lookup_insert_ne in Hk by done. right. by eapply list_elem_of_lookup_2.
Qed.
Lemma elem_insert_here {A} (l : list A) w x y : l !! w = Some x -> y ∈ <[w := y]> l.
Proof. intros Hw. apply list_elem_of_lookup_2 with w. apply list_lookup_insert_eq. by eapply lookup_lt_Some. Qed.
Lemma elem_insert_keep {A} (l : list A) w x y z : l !! w = Some x -> z ∈ l -> z = x \/ z ∈ <[w := y]> l.
Proof.
  intros Hw Hz. apply list_elem_of_lookup_1 in Hz as [k Hk]. destruct (decide (w = k)) as [->|Hne]; [left; congruence|].
  right. apply list_elem_of_lookup_2 with k. by rewrite list_lookup_insert_ne.
Qed.

(** A worker that moves on without touching the counters: it stays as busy, as idle
    and with the same job, and neither falls asleep, leaves nor stops notifying. *)
Lemma pool_worker_inv p w x y : pool_inv p -> workers p !! w = Some x ->
  (forall j, holds j y = holds j x) -> busy y = busy x -> idles y = idles x ->
  y <> WAsleep -> y <> WGone -> x <> WNotifies -> pool_inv (with_worker w y p).
Proof.
  intros [H1 H2 H3 H4 H5 H6 H7 H8 H9 Hg Hs Hd] Hw Eh Eb Ei Ha Hgn Hn.
  pose proof (fun f => worker_sums p w x y f Hw) as Hsum.
  assert (Hb : sum_list_with busy (<[w := y]> (workers p)) = sum_list_with busy (workers p)) by (specialize (Hsum busy); lia).
  split; cbn [with_worker queue_ workers finished started inFlight_ accepted idle_ nextSequence_ callers stopping_];
    rewrite ?length_insert, ?Hb; try done.
  - intros j. specialize (Hsum (holds j)). rewrite Eh in Hsum. specialize (H1 j). lia.
  - intros j. specialize (Hsum (holds j)). rewrite Eh in Hsum. specialize (H2 j). lia.
  - specialize (Hsum idles). lia.
  - intros Hq. destruct (H9 Hq) as [_|?]; [left|by right]. exists y. split; [by eapply elem_insert_here|done].
  - intros [?|Hin]%(elem_with_worker _ _ _ _ _ Hw); [by subst|by apply Hg].
  - intros Hst [?|Hin]%(elem_with_worker _ _ _ _ _ Hw); [by subst|by apply Hs].
  - intros Hc. destruct (Hd Hc) as [?|Hin]; [by left|]. destruct (elem_insert_keep _ _ _ y _ Hw Hin); [by subst|by right].
Qed.

(** Calls from outside. *)
Lemma pool_dispatch_inv prio p p' : pool_inv p -> stopping_ p = false -> dispatch queueCapacity_ prio p = Some p' -> pool_inv p'.
Proof.
  intros Hi Hst. pose proof Hi as [H1 H2 H3 H4 H5 H6 H7 [H8 H8'] H9 Hg Hs Hd]. unfold dispatch.
  destruct (exhausted queueCapacity_ p) eqn:E; [done|]. unfold exhausted in E. apply orb_false_iff in E as [E1 E2].
  apply Z.eqb_neq in E2. set (q' := mkJob _ _ _). intros H. injection H as <-.
  assert (Hu : u32 (inFlight_ p + 1) = inFlight_ p + 1) by (unfold u32, UINT32_MAX in *; rewrite Z.mod_small; lia).
  assert (Hbase : forall cs, (idle_ p <> 0 -> CNotify ∈ cs) -> (forall c, c ∈ callers p -> c ∈ cs) -> (CAsleep ∈ cs -> CAsleep ∈ callers p) ->
    pool_inv (mkPool (queue_ p ++ [q']) (u64 (nextSequence_ p + 1)) (idle_ p) (stopping_ p) (u32 (inFlight_ p + 1))
      (workers p) cs (S (accepted p)) (started p) (finished p))).
  { intros cs Hcs Hkeep Hback. split; cbn [queue_ workers finished started inFlight_ accepted idle_ nextSequence_ callers stopping_]; try done.
    - intros j. rewrite sum_list_with_app. cbn. unfold queued at 2. cbn. specialize (H1 j). repeat case_decide; lia.
    - rewrite length_app. cbn. lia.
    - rewrite length_app, Hu. cbn. lia.
    - intros Hz. specialize (H5 Hz). unfold zlen in *. rewrite length_app. cbn. apply andb_false_iff in E1 as [E1|E1].
      + apply negb_false_iff, Z.eqb_eq in E1. done.
      + apply Z.eqb_neq in E1. lia.
    - split; [rewrite H8; unfold u64; rewrite Zplus_mod_idemp_l; f_equal; lia|].
      apply Forall_app. split; [done|]. constructor; [|constructor]. exact H8.
    - intros _. destruct (Z.eq_dec (idle_ p) 0) as [Hz|Hz]; [left|right; by apply Hcs].
      destruct (workers p) as [|x l] eqn:Ew; [cbn in H6; lia|]. exists x. split; [by left|]. split.
      + intros ->. cbn in H7. lia.
      + intros ->. destruct Hg as [Hg _]; [by left|congruence].
    - intros Hgn. destruct (Hg Hgn). congruence.
    - intros ?. congruence.
    - intros Hc. left. rewrite Hu. lia. }
  destruct (Z.eqb_spec (idle_ p) 0) as [Hz|Hz]; cbn [negb]; apply Hbase; cbn; try done.
  - intros _. apply elem_of_app. right. by left.
  - intros c Hc. apply elem_of_app. by left.
  - intros [Hc|Hc]%elem_of_app; [done|]. by apply list_elem_of_singleton in Hc.
Qed.

(** What an update of the callers keeps. *)
Lemma pool_callers_inv p cs : pool_inv p -> (CNotify ∈ callers p -> queue_ p <> [] -> CNotify ∈ cs \/ exists x, x ∈ workers p /\ active x) ->
  (stopping_ p = true -> WAsleep ∈ workers p -> CNotifyAll ∈ callers p -> CNotifyAll ∈ cs) ->
  (CAsleep ∈ cs -> CAsleep ∈ callers p \/ inFlight_ p <> 0) ->
  pool_inv (mkPool (queue_ p) (nextSequence_ p) (idle_ p) (stopping_ p) (inFlight_ p) (workers p) cs
              (accepted p) (started p) (finished p)).
Proof.
  intros [H1 H2 H3 H4 H5 H6 H7 H8 H9 Hg Hs Hd] Hn Ha Hw. split; try done;
    cbn [queue_ workers finished started inFlight_ accepted idle_ nextSequence_ callers stopping_].
  - intros Hq. destruct (H9 Hq) as [?|Hc]; [by left|]. destruct (Hn Hc Hq); auto.
  - intros Hst Hin. apply Ha; auto.
  - intros Hc%Hw. destruct Hc as [Hc|Hc]; auto.
Qed.

Lemma pool_add_caller_inv p x : pool_inv p -> x <> CAsleep -> pool_inv (add_caller x p).
Proof.
  intros Hi Hx. apply pool_callers_inv; [done|..].
  - intros Hc _. left. apply elem_of_app. by left.
  - intros _ _ Hc. apply elem_of_app. by left.
  - intros [Hc|Hc%list_elem_of_singleton]%elem_of_app; [by left|congruence].
Qed.

Lemma pool_stopping_inv p : pool_inv p -> pool_inv (stopWorkers p).
Proof.
  intros [H1 H2 H3 H4 H5 H6 H7 H8 H9 Hg Hs Hd]. split; try done;
    cbn [stopWorkers add_caller queue_ workers finished started inFlight_ accepted idle_ nextSequence_ callers stopping_].
  - intros Hq. destruct (H9 Hq) as [?|Hc]; [by left|]. right. apply elem_of_app. by left.
  - intros Hgn. by destruct (Hg Hgn).
  - intros _ _. apply elem_of_app. right. by left.
  - intros [Hc|Hc%list_elem_of_singleton]%elem_of_app; [auto|done].
Qed.
(** The look at the queue, from [x] with [idle] counted. *)
Lemma top_lookup q k x : top Stable q k = Some x -> q !! k = Some x /\ forall y, y ∈ q -> less Stable x y = false.
Proof.
  unfold top. destruct (q !! k) as [z|]; [|done]. destruct (existsb _ q) eqn:E; [done|]. intros [= ->]. split; [done|].
  intros y Hy. destruct (less Stable x y) eqn:El; [|done]. exfalso. apply not_true_iff_false in E. apply E.
  apply existsb_exists. exists y. split; [by apply list_elem_of_In|done].
Qed.

Lemma sum_delete {A} (f : A -> nat) l k x : l !! k = Some x -> (sum_list_with f (delete k l) + f x = sum_list_with f l)%nat.
Proof. revert k. induction l as [|y l IH]; intros [|k] H; simplify_eq/=; [lia|]. specialize (IH k H). lia. Qed.

Section looking.
Context (p : Pool) (w : nat) (x : Worker) (Hi : pool_inv p) (Hw : workers p !! w = Some x).
Context (Hx : (x = WChecks \/ x = WAwake)).

Lemma looker : (forall j, holds j x = 0%nat) /\ busy x = 0%nat /\ x <> WNotifies.
Proof. by destruct Hx as [-> | ->]. Qed.

Lemma pool_sleep_inv : queue_ p = [] -> stopping_ p = false ->
  pool_inv (with_worker w WAsleep (with_idle (Z.of_nat (sum_list_with idles (workers p) + 1 - idles x)) p)).
Proof.
  intros Hq Hst. destruct looker as (Eh & Eb & En). pose proof (fun f => worker_sums p w x WAsleep f Hw) as Hsum.
  pose proof (sum_lookup_le idles _ _ _ Hw) as Hle. destruct Hi as [H1 H2 H3 H4 H5 H6 H7 H8 H9 Hg Hs Hd].
  assert (Hb : sum_list_with busy (<[w := WAsleep]> (workers p)) = sum_list_with busy (workers p)) by (specialize (Hsum busy); cbn in Hsum; lia).
  split; cbn [with_worker with_idle queue_ workers finished started inFlight_ accepted idle_ nextSequence_ callers stopping_];
    rewrite ?length_insert, ?Hb; try done.
  - intros j. specialize (Hsum (holds j)). rewrite Eh in Hsum. cbn in Hsum. specialize (H1 j). lia.
  - intros j. specialize (Hsum (holds j)). rewrite Eh in Hsum. cbn in Hsum. specialize (H2 j). lia.
  - specialize (Hsum idles). cbn [idles] in Hsum. lia.
  - intros [?|Hin]%(elem_with_worker _ _ _ _ _ Hw); [done|by apply Hg].
  - congruence.
  - intros Hc. destruct (Hd Hc) as [?|Hin]; [by left|]. destruct (elem_insert_keep _ _ _ WAsleep _ Hw Hin); [by subst|by right].
Qed.

Lemma pool_leave_inv : queue_ p = [] -> stopping_ p = true ->
  pool_inv (with_worker w WGone (with_idle (Z.of_nat (sum_list_with idles (workers p) - idles x)) p)).
Proof.
  intros Hq Hst. destruct looker as (Eh & Eb & En). pose proof (fun f => worker_sums p w x WGone f Hw) as Hsum.
  pose proof (sum_lookup_le idles _ _ _ Hw) as Hle. destruct Hi as [H1 H2 H3 H4 H5 H6 H7 H8 H9 Hg Hs Hd].
  assert (Hb : sum_list_with busy (<[w := WGone]> (workers p)) = sum_list_with busy (workers p)) by (specialize (Hsum busy); cbn in Hsum; lia).
  split; cbn [with_worker with_idle queue_ workers finished started inFlight_ accepted idle_ nextSequence_ callers stopping_];
    rewrite ?length_insert, ?Hb; try done.
  - intros j. specialize (Hsum (holds j)). rewrite Eh in Hsum. cbn in Hsum. specialize (H1 j). lia.
  - intros j. specialize (Hsum (holds j)). rewrite Eh in Hsum. cbn in Hsum. specialize (H2 j). lia.
  - specialize (Hsum idles). cbn [idles] in Hsum. lia.
  - intros _ [?|Hin]%(elem_with_worker _ _ _ _ _ Hw); [done|by apply Hs].
  - intros Hc. destruct (Hd Hc) as [?|Hin]; [by left|]. destruct (elem_insert_keep _ _ _ WGone _ Hw Hin); [by subst|by right].
Qed.

Lemma pool_take_inv k q : top Stable (queue_ p) k = Some q ->
  pool_inv (mkPool (delete k (queue_ p)) (nextSequence_ p) (Z.of_nat (sum_list_with idles (workers p) - idles x)) (stopping_ p)
    (inFlight_ p) (<[w := WRuns (job q)]> (workers p)) (callers p) (accepted p) (started p ++ [job q]) (finished p)).
Proof.
  intros [Hq _]%top_lookup. destruct looker as (Eh & Eb & En). pose proof (fun f => worker_sums p w x (WRuns (job q)) f Hw) as Hsum.
  pose proof (sum_lookup_le idles _ _ _ Hw) as Hle. destruct Hi as [H1 H2 H3 H4 H5 H6 H7 H8 H9 Hg Hs Hd].
  pose proof (length_delete (queue_ p) k (ltac:(by eexists))) as Hlen. pose proof (lookup_lt_Some _ _ _ Hq) as Hlt.
  pose proof (Hsum busy) as Hb. rewrite Eb in Hb. cbn [busy] in Hb.
  split; cbn [queue_ workers finished started inFlight_ accepted idle_ nextSequence_ callers stopping_];
    rewrite ?length_insert, ?Hlen; try done.
  - intros j. specialize (Hsum (holds j)). rewrite Eh in Hsum. cbn [holds] in Hsum.
    pose proof (sum_delete (queued j) _ _ _ Hq) as Hdel. unfold queued at 2 in Hdel. specialize (H1 j). lia.
  - intros j. specialize (Hsum (holds j)). rewrite Eh in Hsum. cbn [holds] in Hsum. rewrite occ1_app. cbn. specialize (H2 j). lia.
  - lia.
  - lia.
  - intros Hz. specialize (H5 Hz). unfold zlen in *. rewrite Hlen. lia.
  - specialize (Hsum idles). cbn [idles] in Hsum. lia.
  - split; [apply H8|]. apply Forall_delete, H8.
  - intros _. left. exists (WRuns (job q)). split; [by eapply elem_insert_here|done].
  - intros [?|Hin]%(elem_with_worker _ _ _ _ _ Hw); [done|]. destruct (Hg Hin) as [_ E]. by rewrite E in Hq.
  - intros Hst [?|Hin]%(elem_with_worker _ _ _ _ _ Hw); [done|by apply Hs].
  - intros Hc. left. destruct (Hd Hc) as [?|Hin]; [done|]. lia.
Qed.
End looking.

Lemma pool_look_inv w k idle p p' x : pool_inv p -> workers p !! w = Some x -> x = WChecks \/ x = WAwake ->
  idle = Z.of_nat (sum_list_with idles (workers p) + 1 - idles x) -> look Stable w k idle p = Some p' -> pool_inv p'.
Proof.
  intros Hi Hw Hx -> H. unfold look in H. pose proof (sum_lookup_le idles _ _ _ Hw) as Hle. pose proof (idles_le (workers p)) as Hn.
  assert (Hu : u32 (Z.of_nat (sum_list_with idles (workers p) + 1 - idles x) - 1) = Z.of_nat (sum_list_with idles (workers p) - idles x)).
  { pose proof (proj2 (pv_workers _ Hi)). unfold u32. rewrite Z.mod_small; lia. }
  destruct (queue_ p) as [|q0 l] eqn:Eq.
  - destruct (stopping_ p) eqn:Es; injection H as <-; [rewrite Hu; by apply pool_leave_inv|by apply pool_sleep_inv].
  - rewrite <- Eq in H. destruct (top Stable (queue_ p) k) as [q|] eqn:Et; [|done]. injection H as <-. rewrite Hu. by apply pool_take_inv.
Qed.
(** A job is counted out. *)
Lemma pool_counted_inv p w j : pool_inv p -> workers p !! w = Some (WCounts j) ->
  pool_inv (mkPool (queue_ p) (nextSequence_ p) (idle_ p) (stopping_ p) (u32 (inFlight_ p - 1))
    (<[w := if inFlight_ p =? 1 then WNotifies else WChecks]> (workers p)) (callers p) (accepted p) (started p) (finished p ++ [j])).
Proof.
  intros [H1 H2 H3 H4 H5 H6 H7 H8 H9 Hg Hs Hd] Hw. set (y := if inFlight_ p =? 1 then WNotifies else WChecks).
  assert (Hy : (forall i, holds i y = 0%nat) /\ busy y = 0%nat /\ idles y = 0%nat /\ active y) by (unfold y; by destruct (_ =? _)).
  destruct Hy as (Yh & Yb & Yi & Ya). pose proof (fun f => worker_sums p w _ y f Hw) as Hsum.
  pose proof (sum_lookup_le busy _ _ _ Hw) as Hle. cbn in Hle. pose proof (Hsum busy) as Hb. rewrite Yb in Hb. cbn in Hb.
  assert (Hu : u32 (inFlight_ p - 1) = inFlight_ p - 1) by (unfold u32, UINT32_MAX in *; rewrite Z.mod_small; lia).
  split; cbn [queue_ workers finished started inFlight_ accepted idle_ nextSequence_ callers stopping_]; rewrite ?length_insert; try done.
  - intros i. specialize (Hsum (holds i)). rewrite Yh in Hsum. cbn [holds] in Hsum. rewrite occ1_app. cbn. specialize (H1 i). lia.
  - intros i. specialize (Hsum (holds i)). rewrite Yh in Hsum. cbn [holds] in Hsum. rewrite occ1_app. cbn. specialize (H2 i). lia.
  - rewrite length_app. cbn. lia.
  - rewrite Hu. lia.
  - specialize (Hsum idles). rewrite Yi in Hsum. cbn in Hsum. lia.
  - intros Hq. left. exists y. split; [by eapply elem_insert_here|done].
  - intros [E|Hin]%(elem_with_worker _ _ _ _ _ Hw); [by destruct Ya|by apply Hg].
  - intros Hst [E|Hin]%(elem_with_worker _ _ _ _ _ Hw); [by destruct Ya|by apply Hs].
  - intros Hc. rewrite Hu. destruct (Z.eqb_spec (inFlight_ p) 1) as [E|E].
    + right. apply (elem_insert_here _ _ _ _ Hw).
    + left. lia.
Qed.

Lemma pool_notified_inv p w : pool_inv p -> workers p !! w = Some WNotifies ->
  pool_inv (mkPool (queue_ p) (nextSequence_ p) (idle_ p) (stopping_ p) (inFlight_ p)
    (<[w := WChecks]> (workers p)) (resumes <$> callers p) (accepted p) (started p) (finished p)).
Proof.
  intros [H1 H2 H3 H4 H5 H6 H7 H8 H9 Hg Hs Hd] Hw. pose proof (fun f => worker_sums p w _ WChecks f Hw) as Hsum.
  pose proof (Hsum busy) as Hb. cbn in Hb.
  split; cbn [queue_ workers finished started inFlight_ accepted idle_ nextSequence_ callers stopping_]; rewrite ?length_insert; try done.
  - intros i. specialize (Hsum (holds i)). cbn in Hsum. specialize (H1 i). lia.
  - intros i. specialize (Hsum (holds i)). cbn in Hsum. specialize (H2 i). lia.
  - lia.
  - lia.
  - specialize (Hsum idles). cbn in Hsum. lia.
  - intros Hq. left. exists WChecks. split; [by eapply elem_insert_here|done].
  - intros [E|Hin]%(elem_with_worker _ _ _ _ _ Hw); [done|by apply Hg].
  - intros Hst [E|Hin]%(elem_with_worker _ _ _ _ _ Hw); [done|]. apply list_elem_of_fmap. exists CNotifyAll. split; [done|by apply Hs].
  - intros ([] & Hc & _)%list_elem_of_fmap; done.
Qed.

Lemma elem_with_caller (l : list Caller) c x y z : l !! c = Some x -> z ∈ <[c := y]> l -> z = y \/ z ∈ l.
Proof.
  intros Hc Hz. apply list_elem_of_lookup_1 in Hz as [k Hk]. destruct (decide (c = k)) as [->|Hne].
  - rewrite list_lookup_insert_eq in Hk by (by eapply lookup_lt_Some). injection Hk as <-. by left.
  - rewrite list_lookup_insert_ne in Hk by done. right. by eapply list_elem_of_lookup_2.
Qed.

(** A caller's change that gives up no duty to wake. *)
Lemma pool_caller_inv p c x y : pool_inv p -> callers p !! c = Some x -> x = CWaits \/ x = CAsleep ->
  (y = CAsleep -> inFlight_ p <> 0) -> pool_inv (with_caller c y p).
Proof.
  intros Hi Hc Hx Hy. apply pool_callers_inv; [done|..].
  - intros Hn _. left. destruct (elem_insert_keep _ _ _ y _ Hc Hn) as [<-|]; [by destruct Hx|done].
  - intros _ _ Hn. destruct (elem_insert_keep _ _ _ y _ Hc Hn) as [<-|]; [by destruct Hx|done].
  - intros [<-|Hin]%(elem_with_caller _ _ _ _ _ Hc); auto.
Qed.

Lemma pool_woken_inv p w : pool_inv p -> workers p !! w = Some WAsleep -> pool_inv (with_worker w WAwake p).
Proof. intros Hi Hw. by eapply pool_worker_inv. Qed.

Lemma pool_notify_one_inv p c w p1 : pool_inv p -> callers p !! c = Some CNotify -> notify_one w p = Some p1 ->
  pool_inv (with_caller c CReturned p1).
Proof.
  intros Hi Hc H. assert (H1 : pool_inv p1 /\ callers p1 = callers p /\ (queue_ p1 <> [] -> exists x, x ∈ workers p1 /\ active x)).
  { unfold notify_one in H.
    assert (Hnone : (if existsb (fun x => match x with WAsleep => true | _ => false end) (workers p) then None else Some p) = Some p1 ->
      p1 = p /\ WAsleep ∉ workers p).
    { destruct (existsb _ _) eqn:E; [done|]. intros [= <-]. split; [done|]. intros Hin. apply not_true_iff_false in E. apply E.
      apply existsb_exists. exists WAsleep. split; [by apply list_elem_of_In|done]. }
    destruct (workers p !! w) as [[]|] eqn:Ew; try (destruct (Hnone H) as [-> Ha]; split; [done|]; split; [done|]; intros; by apply someone_active).
    injection H as <-. split; [by apply pool_woken_inv|]. split; [done|]. intros _. exists WAwake.
    split; [by eapply elem_insert_here|done]. }
  destruct H1 as (Hi1 & Ec & Ha). rewrite <- Ec in Hc. apply pool_callers_inv; [done|..].
  - intros _ Hq. right. by apply Ha.
  - intros _ _ Hn. by destruct (elem_insert_keep _ _ _ CReturned _ Hc Hn).
  - intros [|Hin]%(elem_with_caller _ _ _ _ _ Hc); [done|by left].
Qed.

Lemma pool_notify_all_inv p c : pool_inv p -> callers p !! c = Some CNotifyAll ->
  pool_inv (with_caller c CReturned (mkPool (queue_ p) (nextSequence_ p) (idle_ p) (stopping_ p) (inFlight_ p) (wakes <$> workers p)
    (callers p) (accepted p) (started p) (finished p))).
Proof.
  intros [H1 H2 H3 H4 H5 H6 H7 H8 H9 Hg Hs Hd] Hc.
  assert (Hsum : forall f, f WAwake = f WAsleep -> sum_list_with f (wakes <$> workers p) = sum_list_with f (workers p)).
  { intros f Hf. clear -Hf. induction (workers p) as [|x l IH]; [done|]. cbn. rewrite IH. destruct x; cbn; rewrite ?Hf; done. }
  split; cbn [with_caller queue_ workers finished started inFlight_ accepted idle_ nextSequence_ callers stopping_];
    rewrite ?length_fmap, ?Hsum by done; try done.
  - intros j. rewrite Hsum by done. apply H1.
  - intros j. rewrite Hsum by done. apply H2.
  - intros Hq. destruct (H9 Hq) as [(x & Hx & Ha)|Hn].
    + left. exists (wakes x). split; [apply list_elem_of_fmap; eauto|]. by destruct x, Ha.
    + right. by destruct (elem_insert_keep _ _ _ CReturned _ Hc Hn).
  - intros (x & Hx & Hin)%list_elem_of_fmap. apply Hg. by destruct x.
  - intros _ (x & Hx & Hin)%list_elem_of_fmap. by destruct x.
  - intros [|Hin]%(elem_with_caller _ _ _ _ _ Hc); [done|]. destruct (Hd Hin) as [?|Hn]; [by left|].
    right. apply list_elem_of_fmap. by exists WNotifies.
Qed.

Lemma pool_move_inv m p p' : pool_inv p -> move m p = Some p' -> pool_inv p'.
Proof.
  intros Hi H. destruct m as [[prio| | |w|c]|[w k|c w]]; cbn in H.
  - destruct (stopping_ p) eqn:Es; [done|]. by eapply pool_dispatch_inv.
  - injection H as <-. by apply pool_add_caller_inv.
  - destruct (stopping_ p); [done|]. injection H as <-. by apply pool_stopping_inv.
  - destruct (workers p !! w) as [[]|] eqn:Ew; try done. injection H as <-. by apply pool_woken_inv.
  - destruct (callers p !! c) as [[]|] eqn:Ec; try done. injection H as <-. eapply pool_caller_inv; [done|done|by right|done].
  - unfold worker_step in H. pose proof (idles_le (workers p)) as Hn. pose proof (proj2 (pv_workers _ Hi)) as Hsz.
    destruct (workers p !! w) as [[]|] eqn:Ew; try done; try (injection H as <-; by eapply pool_worker_inv).
    + eapply pool_look_inv; [done|done|by left| |exact H]. rewrite (pv_idle _ Hi). cbn. unfold u32. rewrite Z.mod_small; lia.
    + eapply pool_look_inv; [done|done|by right| |exact H]. rewrite (pv_idle _ Hi). cbn. lia.
    + injection H as <-. by apply pool_counted_inv.
    + injection H as <-. by apply pool_notified_inv.
  - unfold caller_step in H. destruct (callers p !! c) as [[]|] eqn:Ec; try done.
    + apply fmap_Some in H as (p1 & H & ->). by eapply pool_notify_one_inv.
    + injection H as <-. by apply pool_notify_all_inv.
    + injection H as <-. eapply pool_caller_inv; [done|done|by left|]. by destruct (Z.eqb_spec (inFlight_ p) 0).
Qed.

Lemma pool_reachable_inv n l p : (0 < n)%nat -> Z.of_nat n < 2 ^ 31 ->
  pool_moves Stable queueCapacity_ l (pool_begin n) = Some p -> pool_inv p.
Proof.
  intros H0 Hn. assert (H : forall p0, pool_inv p0 -> pool_moves Stable queueCapacity_ l p0 = Some p -> pool_inv p).
  { induction l as [|m l IH]; intros p0 Hi H; [by injection H as <-|].
    cbn in H. apply bind_Some in H as (p1 & H1 & H). eapply IH; [|exact H]. by eapply pool_move_inv. }
  by apply H, pool_begin_inv.
Qed.
(** ** Draining *)

Definition wweight (x : Worker) : nat :=
  match x with WStart => 2 | WChecks | WAwake => 1 | WRuns _ => 6 | WCompletes _ => 5 | WCounts _ => 4 | WNotifies => 2 | _ => 0 end.
Definition cweight (n k : nat) (x : Caller) : nat :=
  match x with CNotify => 2 * k | CNotifyAll => (n + 1) * k | CWaits => 1 | _ => 0 end.
Definition workload (p : Pool) : nat := (8 * length (queue_ p) + sum_list_with wweight (workers p))%nat.
Definition pool_measure (p : Pool) : nat :=
  let k := S (length (callers p)) in
  (k * workload p + sum_list_with (cweight (length (workers p)) k) (callers p))%nat.

Lemma measure_less p p' : callers p' = callers p -> length (workers p') = length (workers p) ->
  (workload p' < workload p)%nat -> (pool_measure p' < pool_measure p)%nat.
Proof. intros Hc Hw Hl. unfold pool_measure. rewrite Hc, Hw. cbv zeta. nia. Qed.

Lemma look_measure w k idle p p' x : workers p !! w = Some x -> x = WChecks \/ x = WAwake ->
  look Stable w k idle p = Some p' -> (pool_measure p' < pool_measure p)%nat.
Proof.
  intros Hw Hx H. assert (Hxw : wweight x = 1%nat) by (by destruct Hx as [-> | ->]).
  assert (Hsum : forall y, (sum_list_with wweight (<[w := y]> (workers p)) + 1 = sum_list_with wweight (workers p) + wweight y)%nat)
    by (intros y; rewrite <- Hxw; by apply sum_list_insert).
  unfold look in H. destruct (queue_ p) as [|q0 l] eqn:Eq.
  - destruct (stopping_ p); injection H as <-; (apply measure_less; [done|apply length_insert|]); unfold workload; cbn;
      rewrite ?Eq; [specialize (Hsum WGone)|specialize (Hsum WAsleep)]; cbn in Hsum; lia.
  - rewrite <- Eq in H. destruct (top Stable (queue_ p) k) as [q|] eqn:Et; [|done]. injection H as <-.
    apply top_lookup in Et as [Hq _]. apply measure_less; [done|apply length_insert|]. unfold workload. cbn.
    rewrite (length_delete (queue_ p) k) by (by eexists). specialize (Hsum (WRuns (job q))). cbn in Hsum.
    apply lookup_lt_Some in Hq. lia.
Qed.

Lemma worker_measure w k p p' : worker_step Stable w k p = Some p' -> (pool_measure p' < pool_measure p)%nat.
Proof.
  unfold worker_step. intros H. destruct (workers p !! w) as [x|] eqn:Ew; [|done].
  assert (Hsum : forall y, (sum_list_with wweight (<[w := y]> (workers p)) + wweight x = sum_list_with wweight (workers p) + wweight y)%nat)
    by (intros y; by apply sum_list_insert).
  destruct x; try done; try (injection H as <-; apply measure_less; [done|apply length_insert|]; unfold workload; cbn;
    match goal with |- context [<[w := ?y]> _] => specialize (Hsum y) end; cbn in Hsum; lia).
  - eapply look_measure; [done|by left|done].
  - eapply look_measure; [done|by right|done].
  - injection H as <-. apply measure_less; [done|apply length_insert|]. unfold workload. cbn.
    destruct (inFlight_ p =? 1); [specialize (Hsum WNotifies)|specialize (Hsum WChecks)]; cbn in Hsum; lia.
  - injection H as <-. specialize (Hsum WChecks). cbn in Hsum. unfold pool_measure, workload. cbn.
    rewrite length_fmap, length_insert. set (k' := S (length (callers p))).
    assert (Hc : (sum_list_with (cweight (length (workers p)) k') (resumes <$> callers p) <=
      sum_list_with (cweight (length (workers p)) k') (callers p) + length (callers p))%nat).
    { clearbody k'. clear. induction (callers p) as [|y l IH]; cbn; [lia|]. destruct y; cbn; lia. }
    unfold k' in *. nia.
Qed.

Lemma caller_measure c w p p' : caller_step c w p = Some p' -> (pool_measure p' < pool_measure p)%nat.
Proof.
  unfold caller_step. intros H. destruct (callers p !! c) as [x|] eqn:Ec; [|done].
  assert (Hsum : forall n k y, (sum_list_with (cweight n k) (<[c := y]> (callers p)) + cweight n k x =
    sum_list_with (cweight n k) (callers p) + cweight n k y)%nat) by (intros n k y; by apply sum_list_insert).
  destruct x; try done.
  - apply fmap_Some in H as (p1 & H & ->).
    assert (H1 : callers p1 = callers p /\ length (workers p1) = length (workers p) /\ (workload p1 <= workload p + 1)%nat).
    { unfold notify_one in H. destruct (workers p !! w) as [[]|] eqn:Ew;
        try (destruct (existsb _ _); [done|]; injection H as <-; repeat split; lia).
      injection H as <-. split; [done|]. split; [apply length_insert|]. unfold workload. cbn.
      pose proof (sum_list_insert wweight _ _ _ WAwake Ew) as Hw. cbn in Hw. lia. }
    destruct H1 as (E1 & E2 & E3). unfold pool_measure. cbn [with_caller callers workers]. rewrite E1, E2, length_insert.
    specialize (Hsum (length (workers p)) (S (length (callers p))) CReturned). cbn [cweight] in Hsum.
    change (workload (with_caller c CReturned p1)) with (workload p1). nia.
  - injection H as <-. unfold pool_measure. cbn [with_caller callers workers]. rewrite length_insert, length_fmap.
    specialize (Hsum (length (workers p)) (S (length (callers p))) CReturned). cbn [cweight] in Hsum.
    unfold workload. cbn [with_caller queue_ workers].
    assert (Hw : (sum_list_with wweight (wakes <$> workers p) <= sum_list_with wweight (workers p) + length (workers p))%nat).
    { clear. induction (workers p) as [|y l IH]; cbn; [lia|]. destruct y; cbn; lia. }
    nia.
  - injection H as <-. unfold pool_measure. cbn [with_caller callers workers]. rewrite length_insert.
    change (workload (with_caller c _ p)) with (workload p).
    destruct (inFlight_ p =? 0); [specialize (Hsum (length (workers p)) (S (length (callers p))) CReturned)|
      specialize (Hsum (length (workers p)) (S (length (callers p))) CAsleep)]; cbn [cweight] in Hsum; lia.
Qed.

(** Some job is a top of a queue that is not empty. *)
Lemma less_trans a b c : less Stable a b = true -> less Stable b c = true -> less Stable a c = true.
Proof.
  unfold less. destruct (Z.eqb_spec (priority a) (priority b)), (Z.eqb_spec (priority b) (priority c)),
    (Z.eqb_spec (priority a) (priority c)); destruct Stable; cbn; lia.
Qed.
Lemma less_irrefl a : less Stable a a = false.
Proof. unfold less. rewrite Z.eqb_refl. cbn. destruct Stable; [lia|done]. Qed.

Lemma maximal_exists q : q <> [] -> exists x, x ∈ q /\ forall y, y ∈ q -> less Stable x y = false.
Proof.
  induction q as [|a q IH]; [done|]. intros _. destruct (decide (q = [])) as [->|Hq].
  { exists a. split; [by left|]. intros y ->%list_elem_of_singleton. apply less_irrefl. }
  destruct (IH Hq) as (x & Hx & Hmax). destruct (less Stable x a) eqn:E.
  - exists a. split; [by left|]. intros y [->|Hy]%elem_of_cons; [apply less_irrefl|].
    destruct (less Stable a y) eqn:Ey; [|done]. pose proof (less_trans _ _ _ E Ey) as Ht. by rewrite (Hmax y Hy) in Ht.
  - exists x. split; [by right|]. intros y [->|Hy]%elem_of_cons; [done|by apply Hmax].
Qed.

Lemma top_exists q : q <> [] -> exists k x, top Stable q k = Some x.
Proof.
  intros (x & Hx & Hmax)%maximal_exists. apply list_elem_of_lookup_1 in Hx as [k Hk]. exists k, x. unfold top. rewrite Hk.
  destruct (existsb (less Stable x) q) eqn:E; [|done]. apply existsb_exists in E as (y & Hy%list_elem_of_In & Hl).
  by rewrite Hmax in Hl.
Qed.

Lemma look_enabled w idle p : exists k p', look Stable w k idle p = Some p'.
Proof.
  unfold look. destruct (queue_ p) as [|q l] eqn:E; [exists 0%nat; destruct (stopping_ p); eauto|].
  destruct (top_exists (q :: l)) as (k & x & Hx); [done|]. exists k. rewrite Hx. eauto.
Qed.

Lemma notify_enabled p : exists w p', notify_one w p = Some p'.
Proof.
  unfold notify_one. destruct (existsb (fun x => match x with WAsleep => true | _ => false end) (workers p)) eqn:E.
  - apply existsb_exists in E as (x & Hx%list_elem_of_In & Ex). apply list_elem_of_lookup_1 in Hx as [w Hw].
    exists w. rewrite Hw. destruct x; try done. eauto.
  - exists 0%nat. destruct (workers p !! 0%nat) as [[]|]; eauto.
Qed.

(** A pool in which no thread can move has nothing left to do. *)
Lemma stuck_idle p : pool_inv p -> (forall p', ~ inner_step Stable p p') ->
  (forall x, x ∈ workers p -> x = WAsleep \/ x = WGone) /\ (forall c, c ∈ callers p -> c = CReturned \/ c = CAsleep).
Proof.
  intros Hi Hstuck. split.
  - intros x Hx. apply list_elem_of_lookup_1 in Hx as [w Hw].
    assert (Hno : forall k, worker_step Stable w k p = None).
    { intros k. destruct (worker_step Stable w k p) as [p'|] eqn:E; [|done]. destruct (Hstuck p'). by exists (IWorker w k). }
    unfold worker_step in Hno. rewrite Hw in Hno. destruct x; auto; try (by specialize (Hno 0%nat)).
    + destruct (look_enabled w (u32 (idle_ p + 1)) p) as (k & p' & E). by rewrite Hno in E.
    + destruct (look_enabled w (idle_ p) p) as (k & p' & E). by rewrite Hno in E.
  - intros x Hx. apply list_elem_of_lookup_1 in Hx as [c Hc].
    assert (Hno : forall w, caller_step c w p = None).
    { intros w. destruct (caller_step c w p) as [p'|] eqn:E; [|done]. destruct (Hstuck p'). by exists (ICaller c w). }
    unfold caller_step in Hno. rewrite Hc in Hno. destruct x; auto; try (by specialize (Hno 0%nat)).
    destruct (notify_enabled p) as (w & p' & E). specialize (Hno w). by rewrite E in Hno.
Qed.

Lemma stuck_drained p : pool_inv p -> (forall p', ~ inner_step Stable p p') ->
  queue_ p = [] /\ inFlight_ p = 0 /\ length (finished p) = accepted p /\ Forall (fun c => c = CReturned) (callers p).
Proof.
  intros Hi Hstuck. destruct (stuck_idle p Hi Hstuck) as [Hw Hc].
  assert (Hq : queue_ p = []).
  { destruct (queue_ p) as [|q l] eqn:E; [done|exfalso]. destruct (pv_wake _ Hi) as [(x & Hx & Ha)|Hn]; [by rewrite E|..].
    - destruct (Hw x Hx) as [-> | ->]; by destruct Ha.
    - by destruct (Hc _ Hn). }
  assert (Hb : sum_list_with busy (workers p) = 0%nat).
  { revert Hw. clear. induction (workers p) as [|x l IH]; [done|]. intros Hw. cbn. rewrite IH by (intros y Hy; apply Hw; by right).
    destruct (Hw x) as [-> | ->]; [by left|done..]. }
  destruct (pv_count _ Hi) as [Hn _]. rewrite Hq, Hb in Hn. cbn in Hn.
  destruct (pv_done _ Hi) as [Hd _]. rewrite Hq, Hb in Hd. cbn in Hd.
  repeat split; [done|done|lia|]. apply Forall_forall. intros c Hin. destruct (Hc c Hin) as [E | ->]; [done|exfalso].
  destruct (pv_waiter _ Hi Hin) as [?|Hnn]; [lia|]. by destruct (Hw _ Hnn).
Qed.
(** ** Theorems *)

(** Every accepted job is started at most once and finishes at most once, after
    it started; only accepted jobs are started; the count that waitAll tests is
    exactly the accepted jobs that have not finished, so it never wraps; and a
    bounded queue keeps its bound. *)
Theorem executor_runs_each_once n l p j :
  (0 < n)%nat -> Z.of_nat n < 2 ^ 31 -> pool_moves Stable queueCapacity_ l (pool_begin n) = Some p ->
  (occ1 j (finished p) <= occ1 j (started p) <= 1)%nat /\
  (j ∈ started p -> (j < accepted p)%nat) /\
  inFlight_ p = Z.of_nat (accepted p) - Z.of_nat (length (finished p)) /\
  (queueCapacity_ <> 0 -> zlen (queue_ p) <= queueCapacity_).
Proof.
  intros H0 Hn Hl. pose proof (pool_reachable_inv n l p H0 Hn Hl) as Hi.
  pose proof (pv_places _ Hi j) as Hp. pose proof (pv_started _ Hi j) as Hs. destruct (pv_done _ Hi), (pv_count _ Hi).
  split; [|split; [|split; [lia|apply Hi]]].
  - case_decide; lia.
  - intros Hin%occ1_elem. case_decide; lia.
Qed.

(** C18. A worker takes a job of the greatest priority waiting; the stable executor
    takes the one dispatched first among those, as long as fewer than 2^64 jobs
    were dispatched. *)
Theorem executor_takes_greatest n l p p' w k j :
  (0 < n)%nat -> Z.of_nat n < 2 ^ 31 -> pool_moves Stable queueCapacity_ l (pool_begin n) = Some p ->
  worker_step Stable w k p = Some p' -> started p' = started p ++ [j] -> Z.of_nat (accepted p) < 2 ^ 64 ->
  exists q, q ∈ queue_ p /\ job q = j /\ forall y, y ∈ queue_ p ->
    priority y <= priority q /\ (Stable = true -> priority y = priority q -> (job q <= job y)%nat).
Proof.
  intros H0 Hn Hl Hstep Hj Hacc. pose proof (pool_reachable_inv n l p H0 Hn Hl) as Hi.
  assert (Hlook : exists i, look Stable w k i p = Some p').
  { unfold worker_step in Hstep. destruct (workers p !! w) as [[]|]; eauto; try done;
      injection Hstep as <-; cbn in Hj; apply (f_equal length) in Hj; rewrite length_app in Hj; cbn in Hj; lia. }
  destruct Hlook as [i Hlook]. unfold look in Hlook.
  destruct (queue_ p) as [|q0 tl] eqn:Eq.
  { destruct (stopping_ p); injection Hlook as <-; cbn in Hj; apply (f_equal length) in Hj; rewrite length_app in Hj; cbn in Hj; lia. }
  rewrite <- Eq in *. destruct (top Stable (queue_ p) k) as [q|] eqn:Et; [|done]. injection Hlook as <-. cbn in Hj.
  apply app_inj_2 in Hj as [_ [= Hj]]; [|done]. apply top_lookup in Et as [Hq Hmax]. exists q.
  split; [by eapply list_elem_of_lookup_2|]. split; [done|]. intros y Hy. specialize (Hmax y Hy). unfold less in Hmax.
  assert (Hseq : forall z, z ∈ queue_ p -> sequence z = Z.of_nat (job z)).
  { intros z Hz. destruct (pv_sequence _ Hi) as [_ Hf]. rewrite Forall_forall in Hf. rewrite (Hf z Hz).
    assert (Hlt : (job z < accepted p)%nat).
    { pose proof (pv_places _ Hi (job z)) as Hp. apply list_elem_of_lookup_1 in Hz as [a Ha].
      pose proof (sum_lookup_le (queued (job z)) _ _ _ Ha) as Hs. unfold queued at 1 in Hs. rewrite decide_True in Hs by done.
      case_decide; [done|lia]. }
    unfold u64. rewrite Z.mod_small; lia. }
  destruct (Z.eqb_spec (priority q) (priority y)) as [E|E]; cbn [negb] in Hmax; [|split; [lia|intros; lia]].
  split; [lia|]. intros -> _. pose proof (Hseq q (list_elem_of_lookup_2 _ _ _ Hq)). pose proof (Hseq y Hy). lia.
Qed.

(** C17. No wake-up is lost: left alone, an executor goes through finitely many
    steps, and when none is possible every accepted job has finished, nothing is
    queued or in flight, and every caller of dispatch and waitAll has returned. *)
Theorem executor_drains n l p :
  (0 < n)%nat -> Z.of_nat n < 2 ^ 31 -> pool_moves Stable queueCapacity_ l (pool_begin n) = Some p ->
  sn (inner_step Stable) p /\
  forall p', rtc (inner_step Stable) p p' -> (forall p'', ~ inner_step Stable p' p'') ->
    queue_ p' = [] /\ inFlight_ p' = 0 /\ length (finished p') = accepted p' /\ Forall (fun c => c = CReturned) (callers p').
Proof.
  intros H0 Hn Hl. pose proof (pool_reachable_inv n l p H0 Hn Hl) as Hi.
  assert (Hkeep : forall x y, pool_inv x -> inner_step Stable x y -> pool_inv y /\ (pool_measure y < pool_measure x)%nat).
  { intros x y Hx [i H]. split; [by apply (pool_move_inv (inr i) x)|].
    destruct i; [by eapply worker_measure|by eapply caller_measure]. }
  split; [by apply (sn_by_measure _ pool_inv pool_measure)|].
  intros p' Hr Hstuck. apply stuck_drained; [|done]. clear Hl Hstuck. induction Hr as [|x y z H _ IH]; [done|].
  apply IH. by apply (Hkeep x).
Qed.
End correct.

(** ** A stable executor with one worker *)

Definition dispatches : list (Call + Inner) :=
  [inr (IWorker 0 0); inr (IWorker 0 0); inl (KDispatch 5); inl (KDispatch 9); inl (KDispatch 5); inl KWaitAll; inr (ICaller 0 0)].
Definition dispatched : Pool := default (pool_begin 1) (pool_moves true 3 dispatches (pool_begin 1)).
Lemma dispatched_ok : pool_moves true 3 dispatches (pool_begin 1) = Some dispatched.
Proof. apply default_reached. vm_compute. reflexivity. Qed.

Lemma executor_runs_each_once_witness :
  (occ1 1 (finished dispatched) <= occ1 1 (started dispatched) <= 1)%nat /\
  (1%nat ∈ started dispatched -> (1 < accepted dispatched)%nat) /\
  inFlight_ dispatched = Z.of_nat (accepted dispatched) - Z.of_nat (length (finished dispatched)) /\
  (3 <> 0 -> zlen (queue_ dispatched) <= 3).
Proof. apply (executor_runs_each_once true 3 ltac:(lia) 1 dispatches dispatched 1); [lia|lia|apply dispatched_ok]. Defined.

Lemma executor_takes_greatest_witness : exists q, q ∈ queue_ dispatched /\ job q = 1%nat /\ forall y, y ∈ queue_ dispatched ->
  priority y <= priority q /\ (true = true -> priority y = priority q -> (job q <= job y)%nat).
Proof.
  apply (executor_takes_greatest true 3 ltac:(lia) 1 dispatches dispatched
    (default dispatched (worker_step true 0 1 dispatched)) 0 1 1); [lia|lia|apply dispatched_ok|..].
  - apply default_reached. vm_compute. reflexivity.
  - vm_compute. reflexivity.
  - vm_compute. reflexivity.
Defined.

Lemma executor_drains_witness : sn (inner_step true) dispatched /\
  forall p', rtc (inner_step true) dispatched p' -> (forall p'', ~ inner_step true p' p'') ->
    queue_ p' = [] /\ inFlight_ p' = 0 /\ length (finished p') = accepted p' /\ Forall (fun c => c = CReturned) (callers p').
Proof. apply (executor_drains true 3 ltac:(lia) 1 dispatches); [lia|lia|apply dispatched_ok]. Defined.

(** The queue is full; the three jobs run by priority, then by age. *)
Example full_queue_refuses : dispatch 3 5 dispatched = None.
Proof. vm_compute. reflexivity. Qed.
Example runs_by_priority :
  let take k := [inr (IWorker 0 k); inr (IWorker 0 0); inr (IWorker 0 0); inr (IWorker 0 0)] in
  started <$> pool_moves true 3 (take 1 ++ take 0 ++ take 0)%nat dispatched = Some [1; 0; 2]%nat.
Proof. vm_compute. reflexivity. Qed.
