(* ===== verification/ExecutorLaws.v ===== *)
(** The contract of an executor (include/sub0pipeline/executor/executor.hpp) as an
    abstract specification, the interface a client proves its theorems against,
    and the proof that the thread pool implements it. *)
From S2P Require Import Prelude Types EdgeLists Executors ExecutorCorrect.

(** ** The specification *)

(** Where an accepted job is: not yet called, its body called, its body returned,
    its completion returned. Jobs are numbered as they were accepted. *)
Inductive Phase : Set := JWaiting | JRunning | JReturned | JCompleted.
#[export] Instance Phase_eq_dec : EqDecision Phase.
Proof. solve_decision. Defined.

(** What the outside sees of a step. *)
Inductive ExEvent : Set :=
  | EQuiet | EAccept | EBody (j : nat) | EReturns (j : nat) | EComplete (j : nat)
  | EWaitCalled (c : nat) | EWaitReturns (c : nat).

Definition advance (a b : Phase) (j : nat) (l : list Phase) : option (list Phase) :=
  match l !! j with
  | Some x => if decide (x = a) then Some (<[j := b]> l) else None
  | None => None
  end.

(** The jobs after an event the contract allows. *)
Definition spec_jobs (e : ExEvent) (l : list Phase) : option (list Phase) :=
  match e with
  | EQuiet | EWaitCalled _ => Some l
  | EAccept => Some (l ++ [JWaiting])
  | EBody j => advance JWaiting JRunning j l
  | EReturns j => advance JRunning JReturned j l
  | EComplete j => advance JReturned JCompleted j l
  | EWaitReturns _ => if decide (Forall (fun x => x = JCompleted) l) then Some l else None
  end.

(** Whether the call [c] of waitAll is in progress. *)
Definition spec_waiting (e : ExEvent) (c : nat) (b : bool) : bool :=
  match e with
  | EWaitCalled c' => if decide (c = c') then true else b
  | EWaitReturns c' => if decide (c = c') then false else b
  | _ => b
  end.

(** An implementation: its moves [M] on states [S] with what each shows, which of
    them its own threads and the callers inside it make unasked, and the
    specification's state that a state stands for. *)
Class IExecutor (S M : Type) := {
  ex_move : M -> S -> option (S * ExEvent);
  ex_own : M -> bool;
  ex_inv : S -> Prop;
  ex_jobs : S -> list Phase;
  ex_waiting : S -> nat -> bool;
  ex_keeps : forall m s e s', ex_inv s -> ex_move m s = Some (s', e) -> ex_inv s';
  ex_refines : forall m s e s', ex_inv s -> ex_move m s = Some (s', e) -> spec_jobs e (ex_jobs s) = Some (ex_jobs s');
  ex_waits : forall m s e s' c, ex_inv s -> ex_move m s = Some (s', e) -> ex_waiting s' c = spec_waiting e c (ex_waiting s c);
}.

Definition ex_step {S M : Type} `{IExecutor S M} (s : S) (e : ExEvent) (s' : S) : Prop := exists m, ex_move m s = Some (s', e).
Definition ex_inner {S M : Type} `{IExecutor S M} (s : S) (e : ExEvent) (s' : S) : Prop :=
  exists m, ex_own m = true /\ ex_move m s = Some (s', e).

(** What makes waiting for it safe: it goes through finitely many steps of its own,
    and can only stop with a body that has not returned, or with every job
    complete and every call of waitAll returned. *)
Class LiveExecutor (S M : Type) `{IExecutor S M} := {
  ex_halts : forall s, ex_inv s -> sn (fun s s' => exists e, ex_inner s e s') s;
  ex_progress : forall s, ex_inv s -> (forall e s', ex_inner s e s' -> exists j, e = EReturns j) ->
    (exists j, ex_jobs s !! j = Some JRunning) \/
    (Forall (fun x => x = JCompleted) (ex_jobs s) /\ forall c, ex_waiting s c = false);
  ex_can_wait : forall s, ex_inv s -> exists c s', ex_step s (EWaitCalled c) s';
  ex_can_return : forall s j, ex_inv s -> ex_jobs s !! j = Some JRunning -> exists s', ex_inner s (EReturns j) s';
}.

Lemma advance_lookup a b j l l' : advance a b j l = Some l' <-> l !! j = Some a /\ l' = <[j := b]> l.
Proof.
  unfold advance. destruct (l !! j) as [x|]; [|split; [done|by intros [? _]]].
  case_decide; split; [intros [= <-]; by subst|by intros [_ ->]|done|intros [[= ->] _]; done].
Qed.

(** The histories of the specification. *)
Inductive spec_history : list ExEvent -> list Phase -> Prop :=
  | history_begins : spec_history [] []
  | history_grows h e l l' : spec_history h l -> spec_jobs e l = Some l' -> spec_history (h ++ [e]) l'.

(** A run of an implementation and what it shows. *)
Inductive ex_run {S M : Type} `{IExecutor S M} (s : S) : list ExEvent -> S -> Prop :=
  | run_begins : ex_run s [] s
  | run_steps h e s1 s2 : ex_run s h s1 -> ex_step s1 e s2 -> ex_run s (h ++ [e]) s2.

Lemma ex_run_spec {S M : Type} `{IExecutor S M} (s : S) h s' : ex_inv s -> ex_jobs s = [] -> ex_run s h s' ->
  ex_inv s' /\ spec_history h (ex_jobs s').
Proof.
  intros Hi Hj Hr. induction Hr as [|h e s1 s2 _ [Hi1 IH] Hs]; [split; [done|rewrite Hj; constructor]|].
  destruct Hs as [m Hs]. split; [by eapply ex_keeps|]. eapply history_grows; [exact IH|]. by eapply ex_refines.
Qed.

(** Which of the calls in a list are in progress. *)
Definition waiting_at {A} (w : A -> bool) (l : list A) (c : nat) : bool := match l !! c with Some x => w x | None => false end.

Lemma waiting_at_insert {A} (w : A -> bool) l (v c : nat) x y : l !! v = Some x ->
  waiting_at w (<[v := y]> l) c = if decide (v = c) then w y else waiting_at w l c.
Proof.
  intros Hv. unfold waiting_at. case_decide as Hd; [subst c|by rewrite list_lookup_insert_ne].
  by rewrite list_lookup_insert_eq by (by eapply lookup_lt_Some).
Qed.
Lemma waiting_at_stays {A} (w : A -> bool) l (v c : nat) x y : l !! v = Some x -> w y = w x ->
  waiting_at w (<[v := y]> l) c = waiting_at w l c.
Proof. intros Hv Hw. rewrite (waiting_at_insert _ _ _ _ _ _ Hv). case_decide as Hd; [|done]. subst. unfold waiting_at. by rewrite Hv. Qed.
Lemma waiting_at_app {A} (w : A -> bool) l x (c : nat) : waiting_at w (l ++ [x]) c = if decide (c = length l) then w x else waiting_at w l c.
Proof.
  unfold waiting_at. case_decide as Hd; [subst c; by rewrite list_lookup_middle|].
  destruct (decide (c < length l)%nat); [by rewrite lookup_app_l|]. rewrite !lookup_ge_None_2; [done|..]; rewrite ?length_app; cbn; lia.
Qed.
Lemma waiting_at_fmap {A} (w : A -> bool) (f : A -> A) l c : (forall x, w (f x) = w x) -> waiting_at w (f <$> l) c = waiting_at w l c.
Proof. intros Hf. unfold waiting_at. rewrite list_lookup_fmap. destruct (l !! c); [apply Hf|done]. Qed.
Lemma waiting_at_end {A} (w : A -> bool) l : waiting_at w l (length l) = false.
Proof. unfold waiting_at. by rewrite lookup_ge_None_2. Qed.

(** What moves show, and where they lead, up to the first that is not possible. *)
Fixpoint ex_trace {S M : Type} `{IExecutor S M} (l : list M) (s : S) : list ExEvent * S :=
  match l with
  | [] => ([], s)
  | m :: l => match ex_move m s with Some (s', e) => let '(h, s2) := ex_trace l s' in (e :: h, s2) | None => ([], s) end
  end.

Lemma ex_trace_from {S M : Type} `{IExecutor S M} (l : list M) (s0 : S) h s : ex_run s0 h s -> ex_run s0 (h ++ (ex_trace l s).1) (ex_trace l s).2.
Proof.
  revert h s. induction l as [|m l IH]; intros h s Hr; cbn; [by rewrite app_nil_r|].
  destruct (ex_move m s) as [[s' e]|] eqn:E; [|by rewrite app_nil_r]. specialize (IH (h ++ [e]) s').
  destruct (ex_trace l s') as [h2 s2]. cbn in *. rewrite <- app_assoc in IH. apply IH. eapply run_steps; [exact Hr|]. by exists m.
Qed.
Lemma ex_trace_run {S M : Type} `{IExecutor S M} (l : list M) (s : S) : ex_run s (ex_trace l s).1 (ex_trace l s).2.
Proof. apply (ex_trace_from l s [] s). constructor. Qed.

Lemma unchanged l l' : l' = l -> spec_jobs EQuiet l = Some l'.
Proof. by intros ->. Qed.

(** ** The thread pool *)

Definition runs (j : nat) (x : Worker) : nat := match x with WRuns i => if decide (i = j) then 1 else 0 | _ => 0 end.
Definition returns (j : nat) (x : Worker) : nat := match x with WCompletes i => if decide (i = j) then 1 else 0 | _ => 0 end.
Definition counting (j : nat) (x : Worker) : nat := match x with WCounts i => if decide (i = j) then 1 else 0 | _ => 0 end.

Definition phase_of (running returned complete : nat) : Phase :=
  if decide (0 < complete)%nat then JCompleted else if decide (0 < returned)%nat then JReturned
  else if decide (0 < running)%nat then JRunning else JWaiting.
Definition pool_phase (p : Pool) (j : nat) : Phase :=
  phase_of (sum_list_with (runs j) (workers p)) (sum_list_with (returns j) (workers p))
    (sum_list_with (counting j) (workers p) + occ1 j (finished p)).
Definition pool_jobs (p : Pool) : list Phase := pool_phase p <$> seq 0 (accepted p).
Definition waits (x : Caller) : bool := match x with CWaits | CAsleep => true | _ => false end.
Definition pool_waiting (p : Pool) : nat -> bool := waiting_at waits (callers p).

Definition pool_event (m : Call + Inner) (p p' : Pool) : ExEvent :=
  match m with
  | inl (KDispatch _) => EAccept
  | inl KWaitAll => EWaitCalled (length (callers p))
  | inl _ => EQuiet
  | inr (IWorker w _) =>
      match workers p !! w, workers p' !! w with
      | Some (WRuns j), _ => EReturns j
      | Some (WCompletes j), _ => EComplete j
      | Some (WChecks | WAwake), Some (WRuns j) => EBody j
      | _, _ => EQuiet
      end
  | inr (ICaller c _) =>
      match callers p !! c, callers p' !! c with Some CWaits, Some CReturned => EWaitReturns c | _, _ => EQuiet end
  end.

Lemma holds_split j x : holds j x = (runs j x + returns j x + counting j x)%nat.
Proof. destruct x; cbn; lia. Qed.
Lemma holds_sums j l : sum_list_with (holds j) l =
  (sum_list_with (runs j) l + sum_list_with (returns j) l + sum_list_with (counting j) l)%nat.
Proof. induction l as [|x l IH]; [done|]. cbn. rewrite holds_split, IH. lia. Qed.

Lemma pool_jobs_lookup p j x : pool_jobs p !! j = Some x <-> (j < accepted p)%nat /\ x = pool_phase p j.
Proof.
  unfold pool_jobs. rewrite list_lookup_fmap, fmap_Some. split.
  - intros (k & [-> Hk]%lookup_seq & ->). by split.
  - intros [Hj ->]. exists j. split; [|done]. by apply lookup_seq.
Qed.

Lemma pool_jobs_same p p' : accepted p' = accepted p -> (forall j, pool_phase p' j = pool_phase p j) -> pool_jobs p' = pool_jobs p.
Proof. intros Ha Hp. unfold pool_jobs. rewrite Ha. apply list_fmap_ext. intros. apply Hp. Qed.

Lemma pool_jobs_advance a b j p p' : accepted p' = accepted p -> (j < accepted p)%nat -> pool_phase p j = a -> pool_phase p' j = b ->
  (forall i, i <> j -> pool_phase p' i = pool_phase p i) -> advance a b j (pool_jobs p) = Some (pool_jobs p').
Proof.
  intros Ha Hj Hpa Hpb Hp. apply advance_lookup. split; [by apply pool_jobs_lookup|]. apply list_eq. intros i.
  destruct (decide (i < accepted p)%nat) as [Hi|Hi].
  - rewrite (proj2 (pool_jobs_lookup p' i (pool_phase p' i))) by (split; [lia|done]). symmetry. destruct (decide (j = i)) as [<-|Hne].
    + rewrite Hpb. apply list_lookup_insert_eq. unfold pool_jobs. by rewrite length_fmap, length_seq.
    + rewrite list_lookup_insert_ne by done. apply pool_jobs_lookup. by rewrite Hp.
  - rewrite !lookup_ge_None_2; [done|..]; rewrite ?length_insert; unfold pool_jobs; rewrite length_fmap, length_seq; lia.
Qed.

Section pool.
Context (Stable : bool) (queueCapacity_ : Z) (Hcap : 0 <= queueCapacity_).

Definition pool_shows (m : Call + Inner) (p : Pool) : option (Pool * ExEvent) :=
  (fun p' => (p', pool_event m p p')) <$> pool_move Stable queueCapacity_ m p.
Definition pool_own (m : Call + Inner) : bool := match m with inl _ => false | inr _ => true end.

Lemma pool_shows_inv m p p' e : pool_shows m p = Some (p', e) <-> pool_move Stable queueCapacity_ m p = Some p' /\ e = pool_event m p p'.
Proof.
  unfold pool_shows. rewrite fmap_Some. split; [by intros (x & ? & [= -> ->])|]. intros [? ->]. eauto.
Qed.

(** A worker goes from [x] to [y]. *)
Definition worker_shift (p p' : Pool) (x y : Worker) : Prop :=
  accepted p' = accepted p /\ forall f : Worker -> nat, (sum_list_with f (workers p') + f x = sum_list_with f (workers p) + f y)%nat.

Lemma shift_insert p p' w x y : workers p !! w = Some x -> workers p' = <[w := y]> (workers p) -> accepted p' = accepted p -> worker_shift p p' x y.
Proof. intros Hw Hp Ha. split; [done|]. intros f. rewrite Hp. by apply sum_list_insert. Qed.

(** Neither holds a job, or both hold it in the same phase. *)
Lemma shift_quiet p p' x y : worker_shift p p' x y -> finished p' = finished p ->
  (forall j, runs j y = runs j x) -> (forall j, returns j y = returns j x) -> (forall j, counting j y = counting j x) ->
  pool_jobs p' = pool_jobs p.
Proof.
  intros [Ha Hs] Hf Hr Ht Hc. apply pool_jobs_same; [done|]. intros j. unfold pool_phase. rewrite Hf.
  pose proof (Hs (runs j)). pose proof (Hs (returns j)). pose proof (Hs (counting j)). specialize (Hr j). specialize (Ht j). specialize (Hc j).
  f_equal; lia.
Qed.

(** The job [j] is in one place: at no worker, or at one and not finished. *)
Lemma job_place p j : pool_inv queueCapacity_ p ->
  (sum_list_with (queued j) (queue_ p) + sum_list_with (runs j) (workers p) + sum_list_with (returns j) (workers p) +
   sum_list_with (counting j) (workers p) + occ1 j (finished p) = if decide (j < accepted p) then 1 else 0)%nat.
Proof. intros Hi. pose proof (pv_places _ _ Hi j) as H. rewrite holds_sums in H. lia. Qed.

Lemma shift_advance p p' x y j a b : pool_inv queueCapacity_ p -> worker_shift p p' x y -> finished p' = finished p ->
  (j < accepted p)%nat -> pool_phase p j = a -> pool_phase p' j = b ->
  (forall i, i <> j -> runs i y = runs i x /\ returns i y = returns i x /\ counting i y = counting i x) ->
  advance a b j (pool_jobs p) = Some (pool_jobs p').
Proof.
  intros Hi [Ha Hs] Hf Hj Hpa Hpb Hne. apply pool_jobs_advance; try done. intros i Hij. destruct (Hne i Hij) as (Hr & Ht & Hc).
  unfold pool_phase. rewrite Hf. pose proof (Hs (runs i)). pose proof (Hs (returns i)). pose proof (Hs (counting i)). f_equal; lia.
Qed.

Lemma phase_at p j : pool_inv queueCapacity_ p -> (j < accepted p)%nat ->
  (sum_list_with (queued j) (queue_ p) = 1%nat -> pool_phase p j = JWaiting) /\
  (sum_list_with (runs j) (workers p) = 1%nat -> pool_phase p j = JRunning) /\
  (sum_list_with (returns j) (workers p) = 1%nat -> pool_phase p j = JReturned) /\
  ((sum_list_with (counting j) (workers p) + occ1 j (finished p))%nat = 1%nat -> pool_phase p j = JCompleted).
Proof.
  intros Hi Hj. pose proof (job_place p j Hi) as Hp. rewrite decide_True in Hp by done.
  unfold pool_phase, phase_of. repeat split; intros H; repeat case_decide; try done; lia.
Qed.

Lemma held_accepted p w x j : pool_inv queueCapacity_ p -> workers p !! w = Some x -> holds j x = 1%nat -> (j < accepted p)%nat.
Proof.
  intros Hi Hw Hx. pose proof (sum_lookup_le (holds j) _ _ _ Hw) as Hle. pose proof (pv_places _ _ Hi j) as Hp.
  case_decide; [done|lia].
Qed.

Definition held_as (x : Worker) : Phase :=
  match x with WRuns _ => JRunning | WCompletes _ => JReturned | WCounts _ => JCompleted | _ => JWaiting end.

Lemma held_phase p w x j : pool_inv queueCapacity_ p -> workers p !! w = Some x -> holds j x = 1%nat -> pool_phase p j = held_as x.
Proof.
  intros Hi Hw Hx. pose proof (held_accepted p w x j Hi Hw Hx) as Hj. pose proof (job_place p j Hi) as Hp. rewrite decide_True in Hp by done.
  pose proof (sum_lookup_le (runs j) _ _ _ Hw). pose proof (sum_lookup_le (returns j) _ _ _ Hw).
  pose proof (sum_lookup_le (counting j) _ _ _ Hw). destruct x; try done; cbn in *; apply phase_at; try done; lia.
Qed.

(** A worker's job [j] goes to its next phase. *)
Lemma worker_advances p p' w x y j : pool_inv queueCapacity_ p -> pool_inv queueCapacity_ p' -> workers p !! w = Some x ->
  workers p' = <[w := y]> (workers p) -> accepted p' = accepted p -> finished p' = finished p ->
  (forall i, holds i x = if decide (j = i) then 1 else 0)%nat -> (forall i, holds i y = if decide (j = i) then 1 else 0)%nat ->
  advance (held_as x) (held_as y) j (pool_jobs p) = Some (pool_jobs p').
Proof.
  intros Hi Hi' Hw Hw' Ha Hf Hx Hy. pose proof (Hx j) as Hxj. pose proof (Hy j) as Hyj. rewrite decide_True in Hxj, Hyj by done.
  apply (shift_advance p p' x y); [done|by eapply shift_insert|done|by eapply held_accepted|by eapply held_phase|..].
  - apply (held_phase p' w); [done| |done]. rewrite Hw'. apply list_lookup_insert_eq. by eapply lookup_lt_Some.
  - intros i Hij. specialize (Hx i). specialize (Hy i). rewrite decide_False in Hx, Hy by done. rewrite !holds_split in *. lia.
Qed.

Lemma look_refines w k idle p p' x : pool_inv queueCapacity_ p -> pool_inv queueCapacity_ p' -> workers p !! w = Some x ->
  x = WChecks \/ x = WAwake -> look Stable w k idle p = Some p' ->
  spec_jobs (pool_event (inr (IWorker w k)) p p') (pool_jobs p) = Some (pool_jobs p').
Proof.
  intros Hi Hi' Hw Hx H. unfold pool_event. rewrite Hw.
  assert (Hx0 : forall j, holds j x = 0%nat) by (by destruct Hx as [-> | ->]).
  assert (Hl : forall y, <[w := y]> (workers p) !! w = Some y) by (intros y; apply list_lookup_insert_eq; by eapply lookup_lt_Some).
  unfold look in H. destruct (queue_ p) as [|q0 tl] eqn:Eq.
  - assert (Hq : forall y p1, y = WGone \/ y = WAsleep -> workers p1 = <[w := y]> (workers p) -> accepted p1 = accepted p ->
      finished p1 = finished p -> pool_jobs p = pool_jobs p1).
    { intros y p1 Hy Hp Ha Hf. symmetry. apply (shift_quiet p p1 x y); [by eapply shift_insert|done|..];
        intros j; destruct Hx as [-> | ->]; destruct Hy as [-> | ->]; done. }
    destruct (stopping_ p); injection H as <-; cbn [with_worker with_idle workers]; rewrite Hl;
      destruct Hx as [-> | ->]; cbn [spec_jobs]; f_equal;
      first [eapply Hq; [by left|done..] | eapply Hq; [by right|done..]].
  - rewrite <- Eq in H. destruct (top Stable (queue_ p) k) as [q|] eqn:Et; [|done]. apply top_lookup in Et as [Hq _]. injection H as <-. cbn [workers]. rewrite Hl.
    assert (Hgoal : spec_jobs (EBody (job q)) (pool_jobs p) = Some (pool_jobs
      (mkPool (delete k (queue_ p)) (nextSequence_ p) (u32 (idle - 1)) (stopping_ p) (inFlight_ p)
         (<[w := WRuns (job q)]> (workers p)) (callers p) (accepted p) (started p ++ [job q]) (finished p)))).
    { set (p1 := mkPool _ _ _ _ _ _ _ _ _ _) in *.
      pose proof (sum_lookup_le (queued (job q)) _ _ _ Hq) as Hle. unfold queued at 1 in Hle. rewrite decide_True in Hle by done.
      pose proof (job_place p (job q) Hi) as Hp. case_decide as Hacc; [|lia].
      apply (shift_advance p p1 x (WRuns (job q))); [done|by apply shift_insert with w|done|done|apply phase_at; [done|done|lia]|..].
      - apply (phase_at p1); [done|done|]. pose proof (job_place p1 (job q) Hi') as Hp1. cbn [accepted p1] in Hp1.
        pose proof (sum_lookup_le (runs (job q)) _ _ _ (Hl (WRuns (job q)))) as Hr. cbn in Hr. rewrite decide_True in Hr by done.
        change (workers p1) with (<[w := WRuns (job q)]> (workers p)). rewrite decide_True in Hp1 by done.
        change (workers p1) with (<[w := WRuns (job q)]> (workers p)) in Hp1. lia.
      - intros i Hne. specialize (Hx0 i). rewrite holds_split in Hx0. cbn. rewrite decide_False by congruence. lia. }
    destruct Hx as [-> | ->]; exact Hgoal.
Qed.

Lemma same_workers p p' : workers p' = workers p -> finished p' = finished p -> accepted p' = accepted p -> pool_jobs p' = pool_jobs p.
Proof. intros Hw Hf Ha. apply pool_jobs_same; [done|]. intros j. unfold pool_phase. by rewrite Hw, Hf. Qed.

Lemma dispatch_refines prio p p' : pool_inv queueCapacity_ p -> dispatch queueCapacity_ prio p = Some p' ->
  spec_jobs EAccept (pool_jobs p) = Some (pool_jobs p').
Proof.
  intros Hi H. assert (Hp : workers p' = workers p /\ finished p' = finished p /\ accepted p' = S (accepted p)).
  { unfold dispatch in H. destruct (exhausted _ _); [done|]. injection H as <-. by destruct (negb _). }
  destruct Hp as (Hw & Hf & Ha). cbn. f_equal. unfold pool_jobs. rewrite Ha, seq_S, fmap_app. cbn.
  assert (E : forall j, pool_phase p' j = pool_phase p j) by (intros j; unfold pool_phase; by rewrite Hw, Hf).
  rewrite E. f_equal; [by apply list_fmap_ext|]. f_equal. pose proof (job_place p (accepted p) Hi) as Hp.
  rewrite decide_False in Hp by lia. unfold pool_phase, phase_of. repeat case_decide; try done; lia.
Qed.

Lemma worker_refines w k p p' : pool_inv queueCapacity_ p -> pool_inv queueCapacity_ p' -> worker_step Stable w k p = Some p' ->
  spec_jobs (pool_event (inr (IWorker w k)) p p') (pool_jobs p) = Some (pool_jobs p').
Proof.
  intros Hi Hi' H. unfold worker_step in H. destruct (workers p !! w) as [x|] eqn:Ew; [|done].
  destruct x as [| | | |j|j|j| |]; try done.
  - injection H as <-. unfold pool_event. rewrite Ew. cbn [spec_jobs]. f_equal. symmetry.
    by apply (shift_quiet p _ WStart WChecks); [eapply shift_insert|..].
  - apply look_refines with (u32 (idle_ p + 1)) WChecks; auto.
  - apply look_refines with (idle_ p) WAwake; auto.
  - injection H as <-. unfold pool_event. rewrite Ew. by apply (worker_advances p _ w (WRuns j) (WCompletes j)).
  - injection H as <-. unfold pool_event. rewrite Ew. by apply (worker_advances p _ w (WCompletes j) (WCounts j)).
  - injection H as <-. unfold pool_event. rewrite Ew. cbn [spec_jobs]. f_equal. symmetry.
    apply pool_jobs_same; [done|]. intros i. unfold pool_phase. cbn [workers finished]. rewrite occ1_app. cbn [occ1].
    set (y := if inFlight_ p =? 1 then WNotifies else WChecks). assert (Hy : forall i, holds i y = 0%nat) by (intros ?; unfold y; by case_match).
    pose proof (Hy i) as Hyi. rewrite holds_split in Hyi.
    pose proof (sum_list_insert (runs i) _ _ _ y Ew) as H1. pose proof (sum_list_insert (returns i) _ _ _ y Ew) as H2.
    pose proof (sum_list_insert (counting i) _ _ _ y Ew) as H3. cbn in H1, H2, H3. f_equal; lia.
  - injection H as <-. unfold pool_event. rewrite Ew. cbn [spec_jobs]. f_equal. symmetry.
    by apply (shift_quiet p _ WNotifies WChecks); [eapply shift_insert|..].
Qed.

(** When nothing is in flight, every accepted job is complete. *)
Lemma none_in_flight p : pool_inv queueCapacity_ p -> inFlight_ p = 0 -> Forall (fun x => x = JCompleted) (pool_jobs p).
Proof.
  intros Hi Hz. apply Forall_lookup. intros j x [Hj ->]%pool_jobs_lookup. apply phase_at; [done|done|].
  pose proof (job_place p j Hi) as Hp. rewrite decide_True in Hp by done. destruct (pv_count _ _ Hi) as [Hc _].
  assert (Hq : queue_ p = []) by (destruct (queue_ p); [done|cbn in Hc; lia]). rewrite Hq in Hp. cbn in Hp.
  assert (Hb : forall l, sum_list_with busy l = 0%nat -> sum_list_with (runs j) l = 0%nat /\ sum_list_with (returns j) l = 0%nat).
  { induction l as [|x l IH]; [done|]. cbn. intros H. destruct IH as [-> ->]; [lia|]. destruct x; cbn in *; try done; lia. }
  destruct (Hb (workers p)); lia.
Qed.

Lemma pool_refines p m p' : pool_inv queueCapacity_ p -> pool_move Stable queueCapacity_ m p = Some p' ->
  spec_jobs (pool_event m p p') (pool_jobs p) = Some (pool_jobs p').
Proof.
  intros Hi H. pose proof (pool_move_inv Stable queueCapacity_ Hcap _ _ _ Hi H) as Hi'.
  destruct m as [[prio| | |w|c]|[w k|c w]]; cbn in H.
  - destruct (stopping_ p); [done|]. by eapply dispatch_refines.
  - injection H as <-. by apply unchanged, same_workers.
  - destruct (stopping_ p); [done|]. injection H as <-. by apply unchanged, same_workers.
  - destruct (workers p !! w) as [[]|] eqn:Ew; try done. injection H as <-. apply unchanged.
    by apply (shift_quiet p _ WAsleep WAwake); [eapply shift_insert|..].
  - destruct (callers p !! c) as [[]|] eqn:Ec; try done. injection H as <-. by apply unchanged, same_workers.
  - by apply worker_refines.
  - unfold caller_step in H. unfold pool_event. destruct (callers p !! c) as [x|] eqn:Ec; [|done].
    assert (Hl : forall y, <[c := y]> (callers p) !! c = Some y) by (intros y; apply list_lookup_insert_eq; by eapply lookup_lt_Some).
    destruct x; try done.
    + apply fmap_Some in H as (p1 & H & ->). apply unchanged. unfold notify_one in H.
      destruct (workers p !! w) as [[]|] eqn:Ew; try (destruct (existsb _ _); [done|]; injection H as <-; by apply same_workers).
      injection H as <-. by apply (shift_quiet p _ WAsleep WAwake); [eapply shift_insert|..].
    + injection H as <-. apply unchanged. apply pool_jobs_same; [done|]. intros j. unfold pool_phase. cbn.
      assert (Hs : forall f : Worker -> nat, f WAwake = f WAsleep -> sum_list_with f (wakes <$> workers p) = sum_list_with f (workers p)).
      { intros f Hf. clear -Hf. induction (workers p) as [|x l IH]; [done|]. cbn. rewrite IH. destruct x; cbn; rewrite ?Hf; done. }
      by rewrite !Hs.
    + injection H as <-. cbn [with_caller callers]. rewrite Hl. destruct (Z.eqb_spec (inFlight_ p) 0) as [Hz|Hz].
      * cbn. rewrite decide_True by (by apply none_in_flight). reflexivity.
      * by apply unchanged, same_workers.
Qed.

Lemma pool_waits p m p' c : pool_move Stable queueCapacity_ m p = Some p' ->
  pool_waiting p' c = spec_waiting (pool_event m p p') c (pool_waiting p c).
Proof.
  intros H. unfold pool_waiting. assert (Hend : forall x, waits x = false -> waiting_at waits (callers p ++ [x]) c = waiting_at waits (callers p) c).
  { intros x Hx. rewrite waiting_at_app. case_decide as Hd; [|done]. by rewrite Hd, waiting_at_end. }
  destruct m as [[prio| | |w|d]|[w k|d w]]; cbn in H.
  - destruct (stopping_ p); [done|]. unfold dispatch in H. destruct (exhausted _ _); [done|]. injection H as <-.
    destruct (negb _); [by apply Hend|done].
  - injection H as <-. cbn. rewrite waiting_at_app. by case_decide.
  - destruct (stopping_ p); [done|]. injection H as <-. by apply Hend.
  - destruct (workers p !! w) as [[]|]; try done. by injection H as <-.
  - destruct (callers p !! d) as [[]|] eqn:Ed; try done. injection H as <-. by apply (waiting_at_stays _ _ _ _ _ _ Ed).
  - assert (Hc : callers p' = callers p \/ callers p' = resumes <$> callers p).
    { unfold worker_step, look in H. repeat (case_match; try done); injection H as <-; auto. }
    assert (Ev : forall b, spec_waiting (pool_event (inr (IWorker w k)) p p') c b = b).
    { intros b. unfold pool_event. by repeat case_match. }
    rewrite Ev. destruct Hc as [-> | ->]; [done|]. apply waiting_at_fmap. by intros [].
  - unfold caller_step in H. unfold pool_event. destruct (callers p !! d) as [x|] eqn:Ed; [|done].
    assert (Hl : forall y, <[d := y]> (callers p) !! d = Some y) by (intros y; apply list_lookup_insert_eq; by eapply lookup_lt_Some).
    destruct x; try done.
    + apply fmap_Some in H as (p1 & H & ->). assert (Hc : callers p1 = callers p).
      { unfold notify_one in H. repeat (case_match; try done); by injection H as <-. }
      cbn. rewrite Hc. by apply (waiting_at_stays _ _ _ _ _ _ Ed).
    + injection H as <-. by apply (waiting_at_stays _ _ _ _ _ _ Ed).
    + injection H as <-. cbn [with_caller callers]. rewrite Hl. destruct (Z.eqb_spec (inFlight_ p) 0).
      * rewrite (waiting_at_insert _ _ _ _ _ _ Ed). cbn. repeat case_decide; try done; congruence.
      * by apply (waiting_at_stays _ _ _ _ _ _ Ed).
Qed.

#[export, refine] Instance pool_executor : IExecutor Pool (Call + Inner) := {|
  ex_move := pool_shows; ex_own := pool_own; ex_inv := pool_inv queueCapacity_;
  ex_jobs := pool_jobs; ex_waiting := pool_waiting |}.
Proof.
  - intros m p e p' Hi [H ->]%pool_shows_inv. by eapply pool_move_inv.
  - intros m p e p' Hi [H ->]%pool_shows_inv. by apply pool_refines.
  - intros m p e p' c Hi [H ->]%pool_shows_inv. by apply pool_waits.
Defined.

Lemma pool_inner_shows p e p' : ex_inner p e p' <-> exists i, pool_inner Stable i p = Some p' /\ e = pool_event (inr i) p p'.
Proof.
  split; [intros ([k|i] & Ho & H); [done|]|intros (i & H)].
  - apply pool_shows_inv in H. by exists i.
  - exists (inr i). split; [done|]. by apply pool_shows_inv.
Qed.

#[local] Instance runs_dec x : Decision (exists j, x = WRuns j).
Proof. destruct x as [| | | |j|j|j| |]; try (right; by intros [? ?]). left. by exists j. Defined.
#[local] Instance Worker_eq_dec : EqDecision Worker.
Proof. solve_decision. Defined.

(** Only a body that has not returned can keep a pool from moving. *)
Lemma stuck_but_running p : pool_inv queueCapacity_ p -> (forall e p', ex_inner p e p' -> exists j, e = EReturns j) ->
  (exists j, pool_jobs p !! j = Some JRunning) \/ forall p', ~ inner_step Stable p p'.
Proof.
  intros Hi Hs. destruct (decide (Exists (fun x => exists j, x = WRuns j) (workers p))) as [E|E].
  - left. apply Exists_exists in E as (x & Hx & j & ->). apply list_elem_of_lookup_1 in Hx as [w Hw]. exists j.
    assert (Hh : holds j (WRuns j) = 1%nat) by (cbn; by rewrite decide_True). apply pool_jobs_lookup.
    split; [by eapply held_accepted|]. symmetry. by apply (held_phase _ _ _ _ Hi Hw).
  - right. intros p' [i H]. destruct (Hs _ _ (proj2 (pool_inner_shows p _ p') (ex_intro _ i (conj H eq_refl)))) as [j Ej]. apply E, Exists_exists.
    exists (WRuns j). split; [|eauto]. unfold pool_event in Ej. destruct i as [w k|c w].
    + destruct (workers p !! w) as [[| | | |j'|j'|j'| |]|] eqn:Ew; try (by repeat case_match).
      injection Ej as ->. by eapply list_elem_of_lookup_2.
    + by repeat case_match.
Qed.

#[export] Instance pool_live : LiveExecutor Pool (Call + Inner).
Proof.
  split.
  - intros p Hi. apply (sn_by_measure _ (pool_inv queueCapacity_) pool_measure); [|done].
    intros x y Hx (e & (i & H & _)%pool_inner_shows). split; [by apply (pool_move_inv Stable queueCapacity_ Hcap (inr i) x)|].
    destruct i; [by eapply worker_measure|by eapply caller_measure].
  - intros p Hi Hs. destruct (stuck_but_running p Hi Hs) as [?|Hno]; [by left|right].
    destruct (stuck_drained Stable queueCapacity_ p Hi Hno) as (_ & Hz & _ & Hc). split; [by apply none_in_flight|].
    intros c. cbn. unfold pool_waiting, waiting_at. destruct (callers p !! c) as [x|] eqn:Ec; [|done].
    rewrite Forall_lookup in Hc. by rewrite (Hc c x Ec).
  - intros p Hi. eexists _, _. exists (inl KWaitAll). reflexivity.
  - intros p j Hi [Hj Hr]%pool_jobs_lookup. unfold pool_phase, phase_of in Hr. repeat case_decide; try done.
    destruct (decide (Exists (fun x => x = WRuns j) (workers p))) as [E|E].
    + apply Exists_exists in E as (x & Hx & ->). apply list_elem_of_lookup_1 in Hx as [w Hw].
      eexists. exists (inr (IWorker w 0)). split; [done|]. apply pool_shows_inv. cbn. unfold worker_step. rewrite Hw. by split.
    + exfalso. assert (sum_list_with (runs j) (workers p) = 0%nat); [|lia]. revert E. clear. induction (workers p) as [|x l IH]; [done|].
      intros E. cbn. rewrite IH by (intros ?; apply E; by right). destruct x; cbn; try done. case_decide; [|done]. subst. destruct E. by left.
Qed.

(** C16. The thread pool implements the contract of an executor: whatever its
    callers and threads do, what it shows is a history of the specification, in
    which a body is called once, after its job was accepted, its completion once,
    after the body returned, and a call of waitAll returns only when every accepted
    job is complete. *)
Theorem pool_implements_contract n h p : (0 < n)%nat -> Z.of_nat n < 2 ^ 31 ->
  ex_run (pool_begin n) h p -> spec_history h (pool_jobs p).
Proof.
  intros H0 Hn Hr. destruct (ex_run_spec (pool_begin n) h p) as [_ H]; [by apply pool_begin_inv|done|done|exact H].
Qed.
End pool.

(** Three jobs on two workers, and a caller that waits for them. *)
Definition contract_moves : list (Call + Inner) :=
  [inr (IWorker 0 0); inl (KDispatch 5); inl (KDispatch 9); inl KWaitAll; inr (ICaller 0 0); inr (IWorker 0 1); inr (IWorker 1 0);
   inr (IWorker 1 0); inr (IWorker 1 0); inr (IWorker 0 0); inr (IWorker 0 0); inr (IWorker 1 0); inr (IWorker 1 0); inr (IWorker 0 0);
   inr (IWorker 0 0); inr (ICaller 0 0)]%nat.
#[local] Instance contract_pool : IExecutor Pool (Call + Inner) := pool_executor false 0 ltac:(lia).
Definition contract_end := ex_trace contract_moves (pool_begin 2).

Example contract_trace : contract_end.1 =
  [EQuiet; EAccept; EAccept; EWaitCalled 0; EQuiet; EBody 1; EQuiet; EBody 0; EReturns 0; EReturns 1; EComplete 1; EComplete 0;
   EQuiet; EQuiet; EQuiet; EWaitReturns 0]%nat /\ pool_jobs contract_end.2 = [JCompleted; JCompleted].
Proof. vm_compute. split; reflexivity. Qed.

Lemma pool_implements_contract_witness : spec_history contract_end.1 (pool_jobs contract_end.2).
Proof.
  apply (pool_implements_contract false 0 ltac:(lia) 2); [lia|lia|].
  exact (ex_trace_run contract_moves (pool_begin 2)).
Defined.
