(* ===== verification/Desktop.v ===== *)
(** The executor with a thread per job (include/sub0pipeline/executor/desktop_executor.hpp,
    platform/desktop/desktop_executor.cpp): one critical section or call out of the
    executor per step. It keeps the contract and makes progress. *)
From S2P Require Import Prelude Types EdgeLists Executors ExecutorCorrect ExecutorLaws.

(** A job's thread: not yet in [fn], in it, before [oc], before the lock, gone. *)
Inductive JobThread : Set := TStarts | TRuns | TCompletes | TCounts | TExited.
#[export] Instance JobThread_eq_dec : EqDecision JobThread.
Proof. solve_decision. Defined.

(** A call of waitAll: at the loop's test, in [idle_.wait], woken, joining the
    threads it took, returned. *)
Inductive Waiter : Set := VTests | VBlocked | VAwake | VJoins (l : list nat) | VReturned.

(** Thread [j] runs job [j]; [threads_] are those nobody has taken to join. *)
Record DesktopExecutor := mkDesktop {
  started_ : list JobThread; threads_ : list nat; inFlight_ : Z; waiters : list Waiter
}.

Inductive DCall : Set := DDispatch | DWaitAll | DSpurious (v : nat).
Inductive DInner : Set := DThread (j : nat) | DWaiter (v : nat).

Definition thread_phase (x : JobThread) : Phase :=
  match x with TStarts => JWaiting | TRuns => JRunning | TCompletes => JReturned | TCounts | TExited => JCompleted end.
Definition live (x : JobThread) : nat := match x with TExited => 0 | _ => 1 end.
Definition awaken (v : Waiter) : Waiter := match v with VBlocked => VAwake | _ => v end.

Section desktop.
(** The threads the operating system can run at a time, starting one more throws. *)
Context (max_threads : nat) (Hmax : Z.of_nat max_threads < 2 ^ 32).

Definition desktop_begin : DesktopExecutor := mkDesktop [] [] 0 [].

Definition set_waiter (v : nat) (x : Waiter) (d : DesktopExecutor) : DesktopExecutor :=
  mkDesktop (started_ d) (threads_ d) (inFlight_ d) (<[v := x]> (waiters d)).
Definition set_thread (j : nat) (x : JobThread) (d : DesktopExecutor) : DesktopExecutor :=
  mkDesktop (<[j := x]> (started_ d)) (threads_ d) (inFlight_ d) (waiters d).

(** [dispatch]: [None] when the thread cannot be started. *)
Definition desktop_dispatch (d : DesktopExecutor) : option DesktopExecutor :=
  if (sum_list_with live (started_ d) <? max_threads)%nat
  then Some (mkDesktop (started_ d ++ [TStarts]) (threads_ d ++ [length (started_ d)]) (u32 (inFlight_ d + 1)) (waiters d))
  else None.

Definition desktop_thread (j : nat) (d : DesktopExecutor) : option (DesktopExecutor * ExEvent) :=
  match started_ d !! j with
  | Some TStarts => Some (set_thread j TRuns d, EBody j)
  | Some TRuns => Some (set_thread j TCompletes d, EReturns j)
  | Some TCompletes => Some (set_thread j TCounts d, EComplete j)
  | Some TCounts =>
      let n := u32 (inFlight_ d - 1) in
      Some (mkDesktop (<[j := TExited]> (started_ d)) (threads_ d) n (if n =? 0 then awaken <$> waiters d else waiters d), EQuiet)
  | _ => None
  end.

(** The predicate of [idle_.wait], and the move of the threads out. *)
Definition wait_idle (v : nat) (d : DesktopExecutor) : DesktopExecutor :=
  if inFlight_ d =? 0 then mkDesktop (started_ d) [] (inFlight_ d) (<[v := VJoins (threads_ d)]> (waiters d))
  else set_waiter v VBlocked d.

(** A step of a call of waitAll. *)
Definition desktop_waiter (v : nat) (d : DesktopExecutor) : option (DesktopExecutor * ExEvent) :=
  match waiters d !! v with
  | Some VTests =>
      if (inFlight_ d =? 0) && bool_decide (threads_ d = []) then Some (set_waiter v VReturned d, EWaitReturns v)
      else Some (wait_idle v d, EQuiet)
  | Some VAwake => Some (wait_idle v d, EQuiet)
  | Some (VJoins []) => Some (set_waiter v VTests d, EQuiet)
  | Some (VJoins (j :: l)) =>
      match started_ d !! j with Some TExited => Some (set_waiter v (VJoins l) d, EQuiet) | _ => None end
  | _ => None
  end.

Definition desktop_move (m : DCall + DInner) (d : DesktopExecutor) : option (DesktopExecutor * ExEvent) :=
  match m with
  | inl DDispatch => (fun d' => (d', EAccept)) <$> desktop_dispatch d
  | inl DWaitAll =>
      Some (mkDesktop (started_ d) (threads_ d) (inFlight_ d) (waiters d ++ [VTests]), EWaitCalled (length (waiters d)))
  | inl (DSpurious v) => match waiters d !! v with Some VBlocked => Some (set_waiter v VAwake d, EQuiet) | _ => None end
  | inr (DThread j) => desktop_thread j d
  | inr (DWaiter v) => desktop_waiter v d
  end.

Definition desktop_jobs (d : DesktopExecutor) : list Phase := thread_phase <$> started_ d.
Definition in_wait (x : Waiter) : bool := match x with VReturned => false | _ => true end.
Definition desktop_waiting (d : DesktopExecutor) : nat -> bool := waiting_at in_wait (waiters d).

(** Threads to join exist, the count is of the threads that have not exited, and
    nobody is blocked at zero. *)
Record desktop_inv (d : DesktopExecutor) : Prop := {
  dv_count : inFlight_ d = Z.of_nat (sum_list_with live (started_ d)) /\ (sum_list_with live (started_ d) <= max_threads)%nat;
  dv_threads : Forall (fun j => j < length (started_ d))%nat (threads_ d);
  dv_joins : forall v l, waiters d !! v = Some (VJoins l) -> Forall (fun j => j < length (started_ d))%nat l;
  dv_blocked : VBlocked ∈ waiters d -> inFlight_ d <> 0;
}.

Lemma desktop_begin_inv : desktop_inv desktop_begin.
Proof. split; cbn; [split; lia|constructor|done|by intros ?%elem_of_nil]. Qed.

Lemma set_waiter_inv d v x : desktop_inv d -> (x = VBlocked -> inFlight_ d <> 0) ->
  (forall l, x = VJoins l -> Forall (fun j => j < length (started_ d))%nat l) -> desktop_inv (set_waiter v x d).
Proof.
  intros [H1 H2 H3 H4] Hb Hj. split; cbn; try done.
  - intros w l Hw. apply list_lookup_insert_Some in Hw as [(-> & Hx & _)|[_ Hw]]; [by apply Hj|by eapply H3].
  - intros (w & Hw)%list_elem_of_lookup_1. apply list_lookup_insert_Some in Hw as [(-> & Hx & _)|[_ Hw]]; [by apply Hb|].
    apply H4. by eapply list_elem_of_lookup_2.
Qed.

Lemma set_thread_inv d j x y : desktop_inv d -> started_ d !! j = Some x -> live y = live x -> desktop_inv (set_thread j y d).
Proof.
  intros [H1 H2 H3 H4] Hj Hl. pose proof (sum_list_insert live _ _ _ y Hj) as Hs.
  assert (E : sum_list_with live (<[j := y]> (started_ d)) = sum_list_with live (started_ d)) by lia.
  split; cbn; rewrite ?E, ?length_insert; done.
Qed.

Lemma wait_idle_inv d v : desktop_inv d -> desktop_inv (wait_idle v d).
Proof.
  intros Hi. unfold wait_idle. destruct (Z.eqb_spec (inFlight_ d) 0) as [Hz|Hz].
  - assert (Hw : desktop_inv (set_waiter v (VJoins (threads_ d)) d)).
    { apply set_waiter_inv; [done|done|]. intros l [= <-]. apply Hi. }
    destruct Hw as [H1 H2 H3 H4]. split; cbn; try done.
  - by apply set_waiter_inv.
Qed.

Lemma desktop_dispatch_inv d d' : desktop_inv d -> desktop_dispatch d = Some d' -> desktop_inv d'.
Proof.
  intros [H1 H2 H3 H4] H. unfold desktop_dispatch in H. destruct (Nat.ltb_spec (sum_list_with live (started_ d)) max_threads); [|done].
  injection H as <-. assert (Hu : u32 (inFlight_ d + 1) = inFlight_ d + 1) by (unfold u32; rewrite Z.mod_small; lia).
  split; cbn; rewrite ?length_app, ?sum_list_with_app, ?Hu; cbn.
  - lia.
  - apply Forall_app. split; [eapply Forall_impl; [exact H2|cbn; lia]|constructor; [lia|constructor]].
  - intros v l Hv. eapply Forall_impl; [by eapply H3|cbn; lia].
  - intros _. lia.
Qed.

Lemma desktop_counts_inv d j : desktop_inv d -> started_ d !! j = Some TCounts ->
  desktop_inv (mkDesktop (<[j := TExited]> (started_ d)) (threads_ d) (u32 (inFlight_ d - 1))
    (if u32 (inFlight_ d - 1) =? 0 then awaken <$> waiters d else waiters d)).
Proof.
  intros [H1 H2 H3 H4] Hj. pose proof (sum_list_insert live _ _ _ TExited Hj) as Hs. cbn in Hs.
  assert (Hu : u32 (inFlight_ d - 1) = inFlight_ d - 1) by (unfold u32; rewrite Z.mod_small; lia).
  split; cbn; rewrite ?length_insert, ?Hu; [lia|done|..].
  - intros v l Hv. destruct (_ =? 0); [|by eapply H3]. rewrite list_lookup_fmap in Hv.
    destruct (waiters d !! v) as [[]|] eqn:E; try done. injection Hv as ->. by eapply H3.
  - destruct (Z.eqb_spec (inFlight_ d - 1) 0) as [Hz|Hz]; [|done]. intros (x & Hx & _)%list_elem_of_fmap. by destruct x.
Qed.

Lemma desktop_move_inv m d e d' : desktop_inv d -> desktop_move m d = Some (d', e) -> desktop_inv d'.
Proof.
  intros Hi H. destruct m as [[| |v]|[j|v]]; cbn in H.
  - apply fmap_Some in H as (d1 & H & [= -> ->]). by eapply desktop_dispatch_inv.
  - injection H as <- <-. destruct Hi as [H1 H2 H3 H4]. split; cbn; try done.
    + intros v l [Hv|[_ Hv]]%lookup_app_Some; [by eapply H3|]. by apply list_lookup_singleton_Some in Hv as [_ ?].
    + intros [?|?%list_elem_of_singleton]%elem_of_app; [by apply H4|done].
  - destruct (waiters d !! v) as [[]|]; try done. injection H as <- <-. by apply set_waiter_inv.
  - unfold desktop_thread in H. destruct (started_ d !! j) as [[]|] eqn:Ej; try done; injection H as <- <-;
      [by eapply set_thread_inv..|by apply desktop_counts_inv].
  - unfold desktop_waiter in H. destruct (waiters d !! v) as [[| | |[|j l]|]|] eqn:Ev; try done.
    + destruct (_ && _); injection H as <- <-; [by apply set_waiter_inv|by apply wait_idle_inv].
    + injection H as <- <-. by apply wait_idle_inv.
    + injection H as <- <-. by apply set_waiter_inv.
    + destruct (started_ d !! j) as [[]|]; try done. injection H as <- <-. apply set_waiter_inv; [done|done|].
      intros k [= <-]. pose proof (dv_joins d Hi v _ Ev) as Hf. by apply Forall_cons in Hf as [_ ?].
Qed.

(** ** The contract *)

(** When the count is zero every thread has exited. *)
Lemma all_exited d : desktop_inv d -> inFlight_ d = 0 -> Forall (fun x => x = JCompleted) (desktop_jobs d).
Proof.
  intros Hi Hz. destruct (dv_count d Hi) as [Hc _]. apply Forall_lookup. intros j x Hx. unfold desktop_jobs in Hx.
  apply list_lookup_fmap_Some in Hx as (y & -> & Hy). pose proof (sum_lookup_le live _ _ _ Hy). destruct y; cbn in *; try done; lia.
Qed.

Lemma thread_refines d j x y : started_ d !! j = Some x ->
  advance (thread_phase x) (thread_phase y) j (desktop_jobs d) = Some (desktop_jobs (set_thread j y d)).
Proof.
  intros Hj. unfold desktop_jobs. cbn. rewrite list_fmap_insert. apply advance_lookup. by rewrite list_lookup_fmap, Hj.
Qed.
Lemma thread_exits d j : started_ d !! j = Some TCounts -> thread_phase <$> <[j := TExited]> (started_ d) = desktop_jobs d.
Proof. intros Hj. rewrite list_fmap_insert. apply list_insert_id. unfold desktop_jobs. by rewrite list_lookup_fmap, Hj. Qed.

Lemma desktop_refines m d e d' : desktop_inv d -> desktop_move m d = Some (d', e) -> spec_jobs e (desktop_jobs d) = Some (desktop_jobs d').
Proof.
  intros Hi H. destruct m as [[| |v]|[j|v]]; cbn in H.
  - apply fmap_Some in H as (d1 & H & [= -> ->]). unfold desktop_dispatch in H. destruct (_ <? _)%nat; [|done].
    injection H as <-. cbn. unfold desktop_jobs. cbn. by rewrite fmap_app.
  - by injection H as <- <-.
  - destruct (waiters d !! v) as [[]|]; try done. by injection H as <- <-.
  - unfold desktop_thread in H. destruct (started_ d !! j) as [x|] eqn:Ej; [|done].
    destruct x; try done; injection H as <- <-; [exact (thread_refines d j _ TRuns Ej)|exact (thread_refines d j _ TCompletes Ej)|
      exact (thread_refines d j _ TCounts Ej)|apply unchanged; by apply thread_exits].
  - unfold desktop_waiter in H. assert (Hw : desktop_jobs (wait_idle v d) = desktop_jobs d) by (unfold wait_idle; by destruct (_ =? _)).
    destruct (waiters d !! v) as [[| | |[|j l]|]|] eqn:Ev; try done.
    + destruct (Z.eqb_spec (inFlight_ d) 0) as [Hz|Hz]; cbn in H.
      * case_bool_decide; injection H as <- <-; cbn; [by rewrite decide_True by (by apply all_exited)|by rewrite Hw].
      * injection H as <- <-. cbn. by rewrite Hw.
    + injection H as <- <-. cbn. by rewrite Hw.
    + by injection H as <- <-.
    + destruct (started_ d !! j) as [[]|]; try done. by injection H as <- <-.
Qed.

Lemma desktop_waits m d e d' c : desktop_move m d = Some (d', e) -> desktop_waiting d' c = spec_waiting e c (desktop_waiting d c).
Proof.
  intros H. unfold desktop_waiting. destruct m as [[| |v]|[j|v]]; cbn in H.
  - apply fmap_Some in H as (d1 & H & [= -> ->]). unfold desktop_dispatch in H. destruct (_ <? _)%nat; [|done]. by injection H as <-.
  - injection H as <- <-. cbn. rewrite waiting_at_app. by case_decide.
  - destruct (waiters d !! v) as [[]|] eqn:Ev; try done. injection H as <- <-. by apply (waiting_at_stays _ _ _ _ _ _ Ev).
  - unfold desktop_thread in H. destruct (started_ d !! j) as [[]|] eqn:Ej; try done; injection H as <- <-; try done.
    cbn. destruct (_ =? 0); [|done]. apply waiting_at_fmap. by intros [].
  - assert (Hw : forall x, waiters d !! v = Some x -> in_wait x = true ->
      waiting_at in_wait (waiters (wait_idle v d)) c = waiting_at in_wait (waiters d) c).
    { intros x Ev Hx. unfold wait_idle. destruct (_ =? _); by apply (waiting_at_stays _ _ _ _ _ _ Ev). }
    unfold desktop_waiter in H. destruct (waiters d !! v) as [x|] eqn:Ev; [|done]. destruct x as [| | |[|j l]|]; try done.
    + destruct (_ && _); injection H as <- <-; [|by eapply Hw]. cbn. rewrite (waiting_at_insert _ _ _ _ _ _ Ev). cbn.
      repeat case_decide; try done; congruence.
    + injection H as <- <-. by eapply Hw.
    + injection H as <- <-. by apply (waiting_at_stays _ _ _ _ _ _ Ev).
    + destruct (started_ d !! j) as [[]|]; try done. injection H as <- <-. by apply (waiting_at_stays _ _ _ _ _ _ Ev).
Qed.

Definition desktop_own (m : DCall + DInner) : bool := match m with inl _ => false | inr _ => true end.

#[export, refine] Instance desktop_executor : IExecutor DesktopExecutor (DCall + DInner) := {|
  ex_move := desktop_move; ex_own := desktop_own; ex_inv := desktop_inv;
  ex_jobs := desktop_jobs; ex_waiting := desktop_waiting |}.
Proof.
  - intros m d e d' Hi H. by eapply desktop_move_inv.
  - intros m d e d' Hi H. by eapply desktop_refines.
  - intros m d e d' c _ H. by eapply desktop_waits.
Defined.

(** ** Progress *)

Definition jweight (x : JobThread) : nat := match x with TStarts => 4 | TRuns => 3 | TCompletes => 2 | TCounts => 1 | TExited => 0 end.
Definition vweight (x : Waiter) : nat :=
  match x with VTests => 1 | VAwake => 3 | VJoins l => 2 + length l | VBlocked | VReturned => 0 end.
(** Exiting may wake every waiter; a thread taken to be joined is joined once. *)
Definition desktop_measure (d : DesktopExecutor) : nat :=
  ((3 * length (waiters d) + 1) * sum_list_with jweight (started_ d) + 3 * length (threads_ d) + sum_list_with vweight (waiters d))%nat.

Lemma thread_measure d j x y : started_ d !! j = Some x -> (jweight y < jweight x)%nat -> (desktop_measure (set_thread j y d) < desktop_measure d)%nat.
Proof.
  intros Hj Hw. pose proof (sum_list_insert jweight _ _ _ y Hj) as Hs. unfold desktop_measure. cbn. nia.
Qed.
Lemma set_waiter_measure d v x y : waiters d !! v = Some x -> (vweight y < vweight x)%nat -> (desktop_measure (set_waiter v y d) < desktop_measure d)%nat.
Proof.
  intros Hv Hw. pose proof (sum_list_insert vweight _ _ _ y Hv) as Hs. unfold desktop_measure. cbn. rewrite length_insert. lia.
Qed.
Lemma wait_idle_measure d v x : waiters d !! v = Some x -> x = VAwake \/ (x = VTests /\ (inFlight_ d = 0 -> threads_ d <> [])) ->
  (desktop_measure (wait_idle v d) < desktop_measure d)%nat.
Proof.
  intros Hv Hx. unfold wait_idle. destruct (Z.eqb_spec (inFlight_ d) 0) as [Hz|Hz].
  - pose proof (sum_list_insert vweight _ _ _ (VJoins (threads_ d)) Hv) as Hs. unfold desktop_measure. cbn in *. rewrite length_insert.
    destruct Hx as [->|[-> Hn]]; cbn in *; [lia|]. specialize (Hn Hz). destruct (threads_ d); [done|]. cbn in *. lia.
  - eapply set_waiter_measure; [done|]. destruct Hx as [->|[-> _]]; cbn; lia.
Qed.

Lemma desktop_own_measure m d d' e : desktop_own m = true -> desktop_move m d = Some (d', e) -> (desktop_measure d' < desktop_measure d)%nat.
Proof.
  intros Ho H. destruct m as [?|[j|v]]; [done|..]; cbn in H.
  - unfold desktop_thread in H. destruct (started_ d !! j) as [x|] eqn:Ej; [|done].
    destruct x; try done; injection H as <- <-; try (eapply thread_measure; [done|cbn; lia]).
    pose proof (sum_list_insert jweight _ _ _ TExited Ej) as Hs. unfold desktop_measure. cbn in *.
    assert (Ha : (sum_list_with vweight (awaken <$> waiters d) <= sum_list_with vweight (waiters d) + 3 * length (waiters d))%nat).
    { clear. induction (waiters d) as [|x l IH]; cbn; [lia|]. destruct x; cbn in *; lia. }
    destruct (_ =? 0); rewrite ?length_fmap; nia.
  - unfold desktop_waiter in H. destruct (waiters d !! v) as [x|] eqn:Ev; [|done]. destruct x as [| | |[|j l]|]; try done.
    + destruct (Z.eqb_spec (inFlight_ d) 0) as [Hz|Hz]; cbn in H; [case_bool_decide|]; injection H as <- <-;
        [eapply set_waiter_measure; [done|cbn; lia]|eapply wait_idle_measure; [done|by right]..].
    + injection H as <- <-. eapply wait_idle_measure; [done|by left].
    + injection H as <- <-. eapply set_waiter_measure; [done|cbn; lia].
    + destruct (started_ d !! j) as [[]|]; try done. injection H as <- <-. eapply set_waiter_measure; [done|cbn; lia].
Qed.

Lemma desktop_stuck d : desktop_inv d -> (forall e d', ex_inner d e d' -> exists j, e = EReturns j) ->
  (exists j, desktop_jobs d !! j = Some JRunning) \/
  (Forall (fun x => x = JCompleted) (desktop_jobs d) /\ forall c, desktop_waiting d c = false).
Proof.
  intros Hi Hs. assert (Hno : forall m d' e, desktop_own m = true -> desktop_move m d = Some (d', e) -> exists j, e = EReturns j).
  { intros m d' e Ho H. apply (Hs e d'). by exists m. }
  destruct (decide (Exists (fun x => x = TRuns) (started_ d))) as [E|E].
  - left. apply Exists_exists in E as (x & (j & Hj)%list_elem_of_lookup_1 & ->). exists j. unfold desktop_jobs. by rewrite list_lookup_fmap, Hj.
  - right. assert (Hex : forall j x, started_ d !! j = Some x -> x = TExited).
    { intros j x Hj. destruct x; try done; exfalso; try (destruct (Hno (inr (DThread j)) _ _ eq_refl ltac:(cbn; unfold desktop_thread; by rewrite Hj)) as [? ?]; done).
      apply E, Exists_exists. exists TRuns. split; [by eapply list_elem_of_lookup_2|done]. }
    assert (Hz : inFlight_ d = 0).
    { destruct (dv_count d Hi) as [-> _]. assert (Hl : sum_list_with live (started_ d) = 0%nat); [|lia]. revert Hex. clear.
      induction (started_ d) as [|x l IH]; [done|]. intros Hex. cbn. rewrite (Hex 0%nat x eq_refl). apply IH. intros j y Hy. by apply (Hex (S j)). }
    split; [by apply all_exited|]. intros v. unfold desktop_waiting, waiting_at. destruct (waiters d !! v) as [x|] eqn:Ev; [|done].
    assert (Hv : desktop_waiter v d = None).
    { destruct (desktop_waiter v d) as [[d' e]|] eqn:Ed; [|done]. destruct (Hno (inr (DWaiter v)) _ _ eq_refl Ed) as [j ->].
      unfold desktop_waiter in Ed. repeat (case_match; try done). }
    unfold desktop_waiter in Hv. rewrite Ev in Hv. destruct x as [| | |[|j l]|]; try done.
    + by destruct (_ && _).
    + destruct (dv_blocked d Hi); [by eapply list_elem_of_lookup_2|done].
    + pose proof (dv_joins d Hi v _ Ev) as Hf. apply Forall_cons in Hf as [Hlt _]. destruct (lookup_lt_is_Some_2 _ _ Hlt) as [y Hy].
      rewrite Hy in Hv. by rewrite (Hex _ _ Hy) in Hv.
Qed.

#[export] Instance desktop_live : LiveExecutor DesktopExecutor (DCall + DInner).
Proof.
  split.
  - intros d Hi. apply (sn_by_measure _ desktop_inv desktop_measure); [|done].
    intros x y Hx (e & m & Ho & H). split; [by eapply desktop_move_inv|by eapply desktop_own_measure].
  - apply desktop_stuck.
  - intros d Hi. eexists _, _. by exists (inl DWaitAll).
  - intros d j Hi Hj. cbn in Hj. unfold desktop_jobs in Hj. apply list_lookup_fmap_Some in Hj as (x & Hx & Hj).
    destruct x; try done. eexists. exists (inr (DThread j)). split; [done|]. cbn. unfold desktop_thread. by rewrite Hj.
Qed.

(** C19. The executor with a thread per job implements the contract: what it shows is
    a history of the specification; its threads and its callers take finitely many
    steps of their own, and stop only in a body that has not returned or with every
    accepted job complete and every call of waitAll returned. *)
Theorem desktop_implements_contract h d : ex_run desktop_begin h d ->
  spec_history h (desktop_jobs d) /\ sn (fun d d' => exists e, ex_inner d e d') d /\
  forall d', rtc (fun d d' => exists e, ex_inner d e d') d d' -> (forall e d'', ex_inner d' e d'' -> exists j, e = EReturns j) ->
    (exists j, desktop_jobs d' !! j = Some JRunning) \/
    (Forall (fun x => x = JCompleted) (desktop_jobs d') /\ forall c, desktop_waiting d' c = false).
Proof.
  intros Hr. destruct (ex_run_spec desktop_begin h d) as [Hi Hh]; [apply desktop_begin_inv|done|exact Hr|]. split; [done|].
  split; [by apply (ex_halts (M := DCall + DInner))|]. intros d' Hd Hs. apply desktop_stuck; [|done].
  clear Hr Hh Hs. induction Hd as [|d1 d2 d3 (e & m & _ & H) _ IH]; [done|]. apply IH. by eapply desktop_move_inv.
Qed.
End desktop.

(** Two jobs; a caller waits for the first, joins it, and returns after the second. *)
Definition desktop_moves : list (DCall + DInner) :=
  [inl DDispatch; inr (DThread 0); inl DWaitAll; inr (DWaiter 0); inr (DThread 0); inr (DThread 0); inl DDispatch; inr (DThread 0);
   inr (DThread 1); inr (DThread 1); inr (DThread 1); inr (DThread 1); inr (DWaiter 0); inr (DWaiter 0); inr (DWaiter 0); inr (DWaiter 0);
   inr (DWaiter 0)]%nat.
#[local] Instance desktop_hundred : IExecutor DesktopExecutor (DCall + DInner) := desktop_executor 100 ltac:(lia).
Definition desktop_end := ex_trace desktop_moves desktop_begin.

Example desktop_shows : desktop_end.1 =
  [EAccept; EBody 0; EWaitCalled 0; EQuiet; EReturns 0; EComplete 0; EAccept; EQuiet; EBody 1; EReturns 1; EComplete 1; EQuiet;
   EQuiet; EQuiet; EQuiet; EQuiet; EWaitReturns 0]%nat /\ started_ desktop_end.2 = [TExited; TExited].
Proof. vm_compute. split; reflexivity. Qed.

Lemma desktop_implements_contract_witness : spec_history desktop_end.1 (desktop_jobs desktop_end.2).
Proof. exact (proj1 (desktop_implements_contract 100 ltac:(lia) _ _ (ex_trace_run desktop_moves desktop_begin))). Defined.
