(* ===== verification/FreeRtos.v ===== *)
(** The executor of the embedded target (include/sub0pipeline/executor/freertos_executor.hpp,
    platform/esp32p4/freertos_executor.cpp): a FreeRTOS task per job, or the dispatching
    task when none can be created, and a waitAll that polls a counting semaphore. One
    access to the count or the semaphore, or call out, per step. *)
From S2P Require Import Prelude Types EdgeLists Executors ExecutorCorrect ExecutorLaws.

(** Who executes a job: its own task, or the task that dispatched it when there was
    no memory for a context or the task could not be created. *)
Inductive RunsOn : Set := OwnTask | DispatchingTask.
#[export] Instance RunsOn_eq_dec : EqDecision RunsOn.
Proof. solve_decision. Defined.

(** A job: counted, about to get its task; ready; in [fn]; before [onComplete];
    before the semaphore is given; before it is counted out; gone. *)
Inductive Ctx : Set := XCounted | XReady (r : RunsOn) | XRuns | XCompletes | XGives | XCounts | XGone.
#[export] Instance Ctx_eq_dec : EqDecision Ctx.
Proof. solve_decision. Defined.

(** A call of waitAll: about to load the count, in [xSemaphoreTake], returned. *)
Inductive Poller : Set := PLoads | PTakes | PReturned.

Record FreeRtosExecutor := mkFreeRtos { ctxs : list Ctx; inFlight_ : Z; completionSem_ : Z; pollers : list Poller }.

(** A take that times out at a moment when work is in flight leaves the caller where
    it was; only one that does not counts as progress. *)
Inductive FCall : Set := FDispatch | FWaitAll | FTimeout (v : nat).
Inductive FInner : Set := FCtx (j : nat) (r : RunsOn) | FPoll (v : nat).

Definition kMaxCompletions : Z := 0x7FFFFFFF.

Definition ctx_phase (x : Ctx) : Phase :=
  match x with
  | XCounted | XReady _ => JWaiting | XRuns => JRunning | XCompletes => JReturned | XGives | XCounts | XGone => JCompleted
  end.
Definition ctx_live (x : Ctx) : nat := match x with XGone => 0 | _ => 1 end.

Section freertos.
(** The jobs that memory lets be in flight at a time. *)
Context (room : nat) (Hroom : Z.of_nat room < 2 ^ 32).

Definition freertos_begin : FreeRtosExecutor := mkFreeRtos [] 0 0 [].

Definition set_ctx (j : nat) (x : Ctx) (d : FreeRtosExecutor) : FreeRtosExecutor :=
  mkFreeRtos (<[j := x]> (ctxs d)) (inFlight_ d) (completionSem_ d) (pollers d).
Definition set_poller (v : nat) (x : Poller) (d : FreeRtosExecutor) : FreeRtosExecutor :=
  mkFreeRtos (ctxs d) (inFlight_ d) (completionSem_ d) (<[v := x]> (pollers d)).

(** [dispatch] once its callables are copied: it cannot fail any more. *)
Definition freertos_dispatch (d : FreeRtosExecutor) : option FreeRtosExecutor :=
  if (sum_list_with ctx_live (ctxs d) <? room)%nat
  then Some (mkFreeRtos (ctxs d ++ [XCounted]) (u32 (inFlight_ d + 1)) (completionSem_ d) (pollers d))
  else None.

(** [xTaskCreatePinnedToCore]'s answer [r], then [Ctx::execute]. A give to a full
    semaphore fails, which the code ignores. *)
Definition ctx_step (j : nat) (r : RunsOn) (d : FreeRtosExecutor) : option (FreeRtosExecutor * ExEvent) :=
  match ctxs d !! j with
  | Some XCounted => Some (set_ctx j (XReady r) d, EQuiet)
  | Some (XReady _) => Some (set_ctx j XRuns d, EBody j)
  | Some XRuns => Some (set_ctx j XCompletes d, EReturns j)
  | Some XCompletes => Some (set_ctx j XGives d, EComplete j)
  | Some XGives =>
      Some (mkFreeRtos (<[j := XCounts]> (ctxs d)) (inFlight_ d) (Z.min kMaxCompletions (completionSem_ d + 1)) (pollers d), EQuiet)
  | Some XCounts => Some (mkFreeRtos (<[j := XGone]> (ctxs d)) (u32 (inFlight_ d - 1)) (completionSem_ d) (pollers d), EQuiet)
  | _ => None
  end.

(** A step of a call of waitAll. In [xSemaphoreTake] it gets a completion, or waits
    until the timeout, which moves it when the count is zero. *)
Definition poll_step (v : nat) (d : FreeRtosExecutor) : option (FreeRtosExecutor * ExEvent) :=
  match pollers d !! v with
  | Some PLoads =>
      if inFlight_ d =? 0 then Some (set_poller v PReturned d, EWaitReturns v) else Some (set_poller v PTakes d, EQuiet)
  | Some PTakes =>
      if 0 <? completionSem_ d
      then Some (mkFreeRtos (ctxs d) (inFlight_ d) (completionSem_ d - 1) (<[v := PLoads]> (pollers d)), EQuiet)
      else if inFlight_ d =? 0 then Some (set_poller v PLoads d, EQuiet) else None
  | _ => None
  end.

Definition freertos_move (m : FCall + FInner) (d : FreeRtosExecutor) : option (FreeRtosExecutor * ExEvent) :=
  match m with
  | inl FDispatch => (fun d' => (d', EAccept)) <$> freertos_dispatch d
  | inl FWaitAll => Some (mkFreeRtos (ctxs d) (inFlight_ d) (completionSem_ d) (pollers d ++ [PLoads]), EWaitCalled (length (pollers d)))
  | inl (FTimeout v) =>
      match pollers d !! v with
      | Some PTakes => if completionSem_ d =? 0 then Some (set_poller v PLoads d, EQuiet) else None
      | _ => None
      end
  | inr (FCtx j r) => ctx_step j r d
  | inr (FPoll v) => poll_step v d
  end.

Definition freertos_own (m : FCall + FInner) : bool := match m with inl _ => false | inr _ => true end.
Definition freertos_jobs (d : FreeRtosExecutor) : list Phase := ctx_phase <$> ctxs d.
Definition polls (x : Poller) : bool := match x with PReturned => false | _ => true end.
Definition freertos_waiting (d : FreeRtosExecutor) : nat -> bool := waiting_at polls (pollers d).

Record freertos_inv (d : FreeRtosExecutor) : Prop := {
  fv_count : inFlight_ d = Z.of_nat (sum_list_with ctx_live (ctxs d)) /\ (sum_list_with ctx_live (ctxs d) <= room)%nat;
  fv_sem : 0 <= completionSem_ d <= kMaxCompletions
}.

Lemma freertos_begin_inv : freertos_inv freertos_begin.
Proof. split; cbn; unfold kMaxCompletions; lia. Qed.

Lemma set_ctx_inv d j x y : freertos_inv d -> ctxs d !! j = Some x -> ctx_live y = ctx_live x -> freertos_inv (set_ctx j y d).
Proof. intros [H1 H2] Hj Hl. pose proof (sum_list_insert ctx_live _ _ _ y Hj) as Hs. split; cbn; [|done]. lia. Qed.

Lemma freertos_move_inv m d e d' : freertos_inv d -> freertos_move m d = Some (d', e) -> freertos_inv d'.
Proof.
  intros Hi H. pose proof Hi as [H1 H2]. destruct m as [[| |v]|[j r|v]]; cbn in H.
  - apply fmap_Some in H as (d1 & H & [= -> ->]). unfold freertos_dispatch in H.
    destruct (Nat.ltb_spec (sum_list_with ctx_live (ctxs d)) room); [|done]. injection H as <-.
    split; cbn; [|done]. rewrite sum_list_with_app. cbn. unfold u32. rewrite Z.mod_small; lia.
  - injection H as <- <-. by split.
  - destruct (pollers d !! v) as [[]|]; try done. destruct (_ =? _); [|done]. injection H as <- <-. by split.
  - unfold ctx_step in H. destruct (ctxs d !! j) as [x|] eqn:Ej; [|done].
    destruct x; try done; injection H as <- <-; try (by eapply set_ctx_inv).
    + pose proof (sum_list_insert ctx_live _ _ _ XCounts Ej) as Hs. cbn in Hs. split; cbn; [lia|unfold kMaxCompletions in *; lia].
    + pose proof (sum_list_insert ctx_live _ _ _ XGone Ej) as Hs. cbn in Hs. split; cbn; [|done]. unfold u32. rewrite Z.mod_small; lia.
  - unfold poll_step in H. destruct (pollers d !! v) as [[]|]; try done.
    + destruct (_ =? _); injection H as <- <-; by split.
    + destruct (Z.ltb_spec 0 (completionSem_ d)); [injection H as <- <-; split; cbn; [done|lia]|].
      destruct (_ =? _); [|done]. injection H as <- <-. by split.
Qed.

(** ** The contract *)

Lemma none_live d : freertos_inv d -> inFlight_ d = 0 -> Forall (fun x => x = XGone) (ctxs d).
Proof.
  intros [[Hc _] _] Hz. apply Forall_lookup. intros j x Hx. pose proof (sum_lookup_le ctx_live _ _ _ Hx). destruct x; cbn in *; try done; lia.
Qed.
Lemma none_live_jobs d : freertos_inv d -> inFlight_ d = 0 -> Forall (fun x => x = JCompleted) (freertos_jobs d).
Proof. intros Hi Hz. unfold freertos_jobs. apply Forall_fmap. eapply Forall_impl; [by apply none_live|]. by intros x ->. Qed.

Lemma ctx_refines d j x y : ctxs d !! j = Some x ->
  advance (ctx_phase x) (ctx_phase y) j (freertos_jobs d) = Some (freertos_jobs (set_ctx j y d)).
Proof.
  intros Hj. unfold freertos_jobs. cbn. rewrite list_fmap_insert. apply advance_lookup. by rewrite list_lookup_fmap, Hj.
Qed.
Lemma ctx_quiet d j x y : ctxs d !! j = Some x -> ctx_phase y = ctx_phase x -> ctx_phase <$> <[j := y]> (ctxs d) = freertos_jobs d.
Proof. intros Hj Hp. rewrite list_fmap_insert. apply list_insert_id. unfold freertos_jobs. by rewrite list_lookup_fmap, Hj, Hp. Qed.

Lemma freertos_refines m d e d' : freertos_inv d -> freertos_move m d = Some (d', e) -> spec_jobs e (freertos_jobs d) = Some (freertos_jobs d').
Proof.
  intros Hi H. destruct m as [[| |v]|[j r|v]]; cbn in H.
  - apply fmap_Some in H as (d1 & H & [= -> ->]). unfold freertos_dispatch in H. destruct (_ <? _)%nat; [|done].
    injection H as <-. cbn. unfold freertos_jobs. cbn. by rewrite fmap_app.
  - by injection H as <- <-.
  - destruct (pollers d !! v) as [[]|]; try done. destruct (_ =? _); [|done]. by injection H as <- <-.
  - unfold ctx_step in H. destruct (ctxs d !! j) as [x|] eqn:Ej; [|done].
    destruct x; try done; injection H as <- <-; try (apply unchanged; by eapply ctx_quiet).
    + exact (ctx_refines d j _ XRuns Ej).
    + exact (ctx_refines d j _ XCompletes Ej).
    + exact (ctx_refines d j _ XGives Ej).
  - unfold poll_step in H. destruct (pollers d !! v) as [[]|]; try done.
    + destruct (Z.eqb_spec (inFlight_ d) 0) as [Hz|Hz]; injection H as <- <-; [|done]. cbn. by rewrite decide_True by (by apply none_live_jobs).
    + destruct (_ <? _); [by injection H as <- <-|]. destruct (_ =? _); [|done]. by injection H as <- <-.
Qed.

Lemma freertos_waits m d e d' c : freertos_move m d = Some (d', e) -> freertos_waiting d' c = spec_waiting e c (freertos_waiting d c).
Proof.
  intros H. unfold freertos_waiting. destruct m as [[| |v]|[j r|v]]; cbn in H.
  - apply fmap_Some in H as (d1 & H & [= -> ->]). unfold freertos_dispatch in H. destruct (_ <? _)%nat; [|done]. by injection H as <-.
  - injection H as <- <-. cbn. rewrite waiting_at_app. by case_decide.
  - destruct (pollers d !! v) as [[]|] eqn:Ev; try done. destruct (_ =? _); [|done]. injection H as <- <-. by apply (waiting_at_stays _ _ _ _ _ _ Ev).
  - unfold ctx_step in H. destruct (ctxs d !! j) as [[]|]; try done; by injection H as <- <-.
  - unfold poll_step in H. destruct (pollers d !! v) as [[]|] eqn:Ev; try done.
    + destruct (_ =? _); injection H as <- <-; [|by apply (waiting_at_stays _ _ _ _ _ _ Ev)]. cbn. rewrite (waiting_at_insert _ _ _ _ _ _ Ev). cbn.
      repeat case_decide; try done; congruence.
    + destruct (_ <? _); [|destruct (_ =? _); [|done]]; injection H as <- <-; by apply (waiting_at_stays _ _ _ _ _ _ Ev).
Qed.

#[export, refine] Instance freertos_executor : IExecutor FreeRtosExecutor (FCall + FInner) := {|
  ex_move := freertos_move; ex_own := freertos_own; ex_inv := freertos_inv;
  ex_jobs := freertos_jobs; ex_waiting := freertos_waiting |}.
Proof.
  - intros m d e d' Hi H. by eapply freertos_move_inv.
  - intros m d e d' Hi H. by eapply freertos_refines.
  - intros m d e d' c _ H. by eapply freertos_waits.
Defined.

(** ** Progress *)

Definition xweight (x : Ctx) : nat :=
  match x with XCounted => 6 | XReady _ => 5 | XRuns => 4 | XCompletes => 3 | XGives => 2 | XCounts => 1 | XGone => 0 end.
(** A caller in [xSemaphoreTake] has two more steps once the count is zero. *)
Definition pweight (idle : bool) (x : Poller) : nat := match x with PLoads => 1 | PTakes => if idle then 2 else 0 | PReturned => 0 end.
Definition freertos_measure (d : FreeRtosExecutor) : nat :=
  ((2 * length (pollers d) + 3) * sum_list_with xweight (ctxs d) + 2 * Z.to_nat (completionSem_ d) +
   sum_list_with (pweight (inFlight_ d =? 0)%Z) (pollers d))%nat.

Lemma pweight_idle (a b : bool) l : (sum_list_with (pweight a) l <= sum_list_with (pweight b) l + 2 * length l)%nat.
Proof. induction l as [|x l IH]; cbn; [lia|]. destruct x, a, b; cbn in *; lia. Qed.

Lemma freertos_own_measure m d d' e : freertos_inv d -> freertos_own m = true -> freertos_move m d = Some (d', e) ->
  (freertos_measure d' < freertos_measure d)%nat.
Proof.
  intros [_ Hsem] Ho H. destruct m as [?|[j r|v]]; [done|..]; cbn in H.
  - unfold ctx_step in H. destruct (ctxs d !! j) as [x|] eqn:Ej; [|done].
    assert (Hs : forall y, (xweight x = xweight y + 1)%nat -> (sum_list_with xweight (ctxs d) = sum_list_with xweight (<[j := y]> (ctxs d)) + 1)%nat).
    { intros y Hy. pose proof (sum_list_insert xweight _ _ _ y Ej). lia. }
    destruct x; try done; injection H as <- <-; unfold freertos_measure; cbn [ctxs set_ctx inFlight_ completionSem_ pollers];
      [rewrite (Hs (XReady r) eq_refl)|rewrite (Hs XRuns eq_refl)|rewrite (Hs XCompletes eq_refl)|rewrite (Hs XGives eq_refl)|
       rewrite (Hs XCounts eq_refl)|rewrite (Hs XGone eq_refl)]; try lia.
    pose proof (pweight_idle (u32 (inFlight_ d - 1) =? 0) (inFlight_ d =? 0) (pollers d)). lia.
  - unfold poll_step in H. destruct (pollers d !! v) as [x|] eqn:Ev; [|done].
    pose proof (fun y => sum_list_insert (pweight (inFlight_ d =? 0)) _ _ _ y Ev) as Hs. unfold freertos_measure.
    destruct x; try done.
    + specialize (Hs (if inFlight_ d =? 0 then PReturned else PTakes)). destruct (inFlight_ d =? 0) eqn:Ez; injection H as <- <-; cbn in *;
        rewrite length_insert, ?Ez; lia.
    + specialize (Hs PLoads). destruct (Z.ltb_spec 0 (completionSem_ d)).
      * injection H as <- <-. cbn in *. rewrite length_insert. destruct (inFlight_ d =? 0); lia.
      * destruct (inFlight_ d =? 0) eqn:Ez; [|done]. injection H as <- <-. cbn in *. rewrite length_insert, Ez. lia.
Qed.

Lemma freertos_stuck d : freertos_inv d -> (forall e d', ex_inner d e d' -> exists j, e = EReturns j) ->
  (exists j, freertos_jobs d !! j = Some JRunning) \/
  (Forall (fun x => x = JCompleted) (freertos_jobs d) /\ forall c, freertos_waiting d c = false).
Proof.
  intros Hi Hs. assert (Hno : forall m d' e, freertos_own m = true -> freertos_move m d = Some (d', e) -> exists j, e = EReturns j).
  { intros m d' e Ho H. apply (Hs e d'). by exists m. }
  destruct (decide (Exists (fun x => x = XRuns) (ctxs d))) as [E|E].
  - left. apply Exists_exists in E as (x & (j & Hj)%list_elem_of_lookup_1 & ->). exists j. unfold freertos_jobs. by rewrite list_lookup_fmap, Hj.
  - right. assert (Hex : forall j x, ctxs d !! j = Some x -> x = XGone).
    { intros j x Hj. destruct x; try done; exfalso;
        try (destruct (Hno (inr (FCtx j OwnTask)) _ _ eq_refl ltac:(cbn; unfold ctx_step; by rewrite Hj)) as [? ?]; done).
      apply E, Exists_exists. exists XRuns. split; [by eapply list_elem_of_lookup_2|done]. }
    assert (Hz : inFlight_ d = 0).
    { destruct (fv_count d Hi) as [-> _]. assert (Hl : sum_list_with ctx_live (ctxs d) = 0%nat); [|lia]. revert Hex. clear.
      induction (ctxs d) as [|x l IH]; [done|]. intros Hex. cbn. rewrite (Hex 0%nat x eq_refl). apply IH. intros j y Hy. by apply (Hex (S j)). }
    split; [by apply none_live_jobs|]. intros v. unfold freertos_waiting, waiting_at. destruct (pollers d !! v) as [x|] eqn:Ev; [|done].
    assert (Hv : poll_step v d = None).
    { destruct (poll_step v d) as [[d' e]|] eqn:Ed; [|done]. destruct (Hno (inr (FPoll v)) _ _ eq_refl Ed) as [j ->].
      unfold poll_step in Ed. repeat (case_match; try done). }
    unfold poll_step in Hv. rewrite Ev, Hz in Hv. destruct x; [done| |done]. by destruct (_ <? _).
Qed.

#[export] Instance freertos_live : LiveExecutor FreeRtosExecutor (FCall + FInner).
Proof.
  split.
  - intros d Hi. apply (sn_by_measure _ freertos_inv freertos_measure); [|done].
    intros x y Hx (e & m & Ho & H). split; [by eapply freertos_move_inv|by eapply freertos_own_measure].
  - apply freertos_stuck.
  - intros d Hi. eexists _, _. by exists (inl FWaitAll).
  - intros d j Hi Hj. cbn in Hj. unfold freertos_jobs in Hj. apply list_lookup_fmap_Some in Hj as (x & Hx & Hj).
    destruct x; try done. eexists. exists (inr (FCtx j OwnTask)). split; [done|]. cbn. unfold ctx_step. by rewrite Hj.
Qed.

(** The embedded executor implements the contract: what it shows is a history of the
    specification, whether a job gets its task or not; its tasks and callers take
    finitely many steps of their own (polls that find work in flight apart), and
    stop only in a body that has not returned or with every accepted job complete
    and every call of waitAll returned. *)
Theorem freertos_implements_contract h d : ex_run freertos_begin h d ->
  spec_history h (freertos_jobs d) /\ sn (fun d d' => exists e, ex_inner d e d') d /\
  forall d', rtc (fun d d' => exists e, ex_inner d e d') d d' -> (forall e d'', ex_inner d' e d'' -> exists j, e = EReturns j) ->
    (exists j, freertos_jobs d' !! j = Some JRunning) \/
    (Forall (fun x => x = JCompleted) (freertos_jobs d') /\ forall c, freertos_waiting d' c = false).
Proof.
  intros Hr. destruct (ex_run_spec freertos_begin h d) as [Hi Hh]; [apply freertos_begin_inv|done|exact Hr|]. split; [done|].
  split; [by apply (ex_halts (M := FCall + FInner))|]. intros d' Hd Hs. apply freertos_stuck; [|done].
  clear Hr Hh Hs. induction Hd as [|d1 d2 d3 (e & m & _ & H) _ IH]; [done|]. apply IH. by eapply freertos_move_inv.
Qed.
End freertos.

(** Two jobs, the second without a task of its own. The last give is taken before the
    count reaches zero, so the caller of waitAll leaves by its timeout. *)
Definition freertos_moves : list (FCall + FInner) :=
  [inl FDispatch; inr (FCtx 0 OwnTask); inl FDispatch; inr (FCtx 1 DispatchingTask); inl FWaitAll; inr (FPoll 0);
   inr (FCtx 1 OwnTask); inr (FCtx 1 OwnTask); inr (FCtx 1 OwnTask); inr (FCtx 1 OwnTask); inr (FPoll 0); inr (FPoll 0); inr (FCtx 1 OwnTask);
   inr (FCtx 0 OwnTask); inr (FCtx 0 OwnTask); inr (FCtx 0 OwnTask); inr (FCtx 0 OwnTask); inr (FPoll 0); inr (FPoll 0); inr (FCtx 0 OwnTask);
   inr (FPoll 0); inr (FPoll 0)]%nat.
#[local] Instance freertos_hundred : IExecutor FreeRtosExecutor (FCall + FInner) := freertos_executor 100 ltac:(lia).
Definition freertos_end := ex_trace freertos_moves freertos_begin.

Example freertos_shows : ctxs freertos_end.2 = [XGone; XGone] /\ pollers freertos_end.2 = [PReturned] /\ length freertos_end.1 = 22%nat /\
  last freertos_end.1 = Some (EWaitReturns 0).
Proof. vm_compute. repeat split. Qed.

Lemma freertos_implements_contract_witness : spec_history freertos_end.1 (freertos_jobs freertos_end.2).
Proof. exact (proj1 (freertos_implements_contract 100 ltac:(lia) _ _ (ex_trace_run freertos_moves freertos_begin))). Defined.
