(* ===== verification/Scoped.v ===== *)
(** A scope of another executor (include/sub0pipeline/executor/scoped_executor.hpp),
    whose waitAll waits for the jobs dispatched through it only. Over any executor
    that keeps the contract it keeps the contract for those jobs. *)
From S2P Require Import Prelude Types EdgeLists ExecutorLaws.

(** A dispatch: counted and in the parent's dispatch, refused there, over. *)
Inductive Dispatcher : Set := SSubmits | SRefused | SOut.
(** A job of the scope: the parent has it, its [onComplete] returned and its targets
    are destroyed, it is counted out. *)
Inductive Stage : Set := SLive | SDone | SCounted.
(** A call of waitAll: at the predicate, blocked, returned. *)
Inductive ScopeWaiter : Set := UTests | UBlocked | UReturned.

Record ScopedExecutor (S : Type) := mkScoped {
  parent_ : S;
  mine : list (nat * Stage);  (* the parent's number of each job *)
  localInFlight_ : Z; dispatchers : list Dispatcher; callers_ : list ScopeWaiter
}.
#[global] Arguments mkScoped {S} _ _ _ _ _.
#[global] Arguments parent_ {S} _.
#[global] Arguments mine {S} _.
#[global] Arguments localInFlight_ {S} _.
#[global] Arguments dispatchers {S} _.
#[global] Arguments callers_ {S} _.

Inductive SMove (M : Type) : Type :=
  | SCount                            (* dispatch, to the increment *)
  | SSubmit (i : nat) (x : M)         (* the parent accepts *)
  | SRefuse (i : nat) | SRollback (i : nat)
  | SParent (x : M)                   (* the parent and its other clients *)
  | SComplete (k : nat) | SFinish (k : nat)
  | SWait | SWaiter (v : nat) | SSpurious (v : nat).
#[global] Arguments SCount {M}.
#[global] Arguments SSubmit {M} _ _.
#[global] Arguments SRefuse {M} _.
#[global] Arguments SRollback {M} _.
#[global] Arguments SParent {M} _.
#[global] Arguments SComplete {M} _.
#[global] Arguments SFinish {M} _.
#[global] Arguments SWait {M}.
#[global] Arguments SWaiter {M} _.
#[global] Arguments SSpurious {M} _.

Definition wakes_up (v : ScopeWaiter) : ScopeWaiter := match v with UBlocked => UTests | _ => v end.
Definition submits (x : Dispatcher) : nat := match x with SOut => 0 | _ => 1 end.
Definition uncounted (x : nat * Stage) : nat := match x.2 with SCounted => 0 | _ => 1 end.

Section scoped.
(** The packets that can be alive at a time; making one more throws. *)
Context {S M : Type} `{IExecutor S M} (packets : nat) (Hpackets : Z.of_nat packets < 2 ^ 32).
Implicit Types d : ScopedExecutor S.

Definition scoped_begin (s : S) : ScopedExecutor S := mkScoped s [] 0 [] [].

(** [finishDispatch], under the scope's lock. *)
Definition finishDispatch d : ScopedExecutor S :=
  let n := u32 (localInFlight_ d - 1) in
  mkScoped (parent_ d) (mine d) n (dispatchers d) (if n =? 0 then wakes_up <$> callers_ d else callers_ d).
Definition with_dispatcher (i : nat) (x : Dispatcher) d : ScopedExecutor S :=
  mkScoped (parent_ d) (mine d) (localInFlight_ d) (<[i := x]> (dispatchers d)) (callers_ d).
Definition with_stage (k : nat) (x : nat * Stage) d : ScopedExecutor S :=
  mkScoped (parent_ d) (<[k := x]> (mine d)) (localInFlight_ d) (dispatchers d) (callers_ d).
Definition with_waiter (v : nat) (x : ScopeWaiter) d : ScopedExecutor S :=
  mkScoped (parent_ d) (mine d) (localInFlight_ d) (dispatchers d) (<[v := x]> (callers_ d)).
Definition with_parent (s : S) d : ScopedExecutor S := mkScoped s (mine d) (localInFlight_ d) (dispatchers d) (callers_ d).

Definition outstanding d : nat := (sum_list_with submits (dispatchers d) + sum_list_with uncounted (mine d))%nat.

(** Which of the scope's jobs the parent's job [j] is. *)
Definition mine_of (j : nat) d : option nat := fst <$> list_find (fun x => x.1 = j) (mine d).

(** The parent calls [completion] between the body's return and its own end. *)
Definition parent_move (x : M) d : option (ScopedExecutor S * ExEvent) :=
  '(s, e) ← ex_move x (parent_ d);
  let mine_event (f : nat -> ExEvent) (j : nat) := match mine_of j d with Some k => f k | None => EQuiet end in
  match e with
  | EBody j => Some (with_parent s d, mine_event EBody j)
  | EReturns j => Some (with_parent s d, mine_event EReturns j)
  | EComplete j =>
      match mine_of j d with
      | Some k => match mine d !! k with Some (_, SCounted) => Some (with_parent s d, EQuiet) | _ => None end
      | None => Some (with_parent s d, EQuiet)
      end
  | _ => Some (with_parent s d, EQuiet)
  end.

Definition scoped_move (m : SMove M) d : option (ScopedExecutor S * ExEvent) :=
  match m with
  | SCount =>
      if (outstanding d <? packets)%nat
      then Some (mkScoped (parent_ d) (mine d) (u32 (localInFlight_ d + 1)) (dispatchers d ++ [SSubmits]) (callers_ d), EQuiet)
      else None
  | SSubmit i x =>
      match dispatchers d !! i, ex_move x (parent_ d) with
      | Some SSubmits, Some (s, EAccept) =>
          Some (mkScoped s (mine d ++ [(length (ex_jobs (parent_ d)), SLive)]) (localInFlight_ d) (<[i := SOut]> (dispatchers d)) (callers_ d), EAccept)
      | _, _ => None
      end
  | SRefuse i => match dispatchers d !! i with Some SSubmits => Some (with_dispatcher i SRefused d, EQuiet) | _ => None end
  | SRollback i => match dispatchers d !! i with Some SRefused => Some (finishDispatch (with_dispatcher i SOut d), EQuiet) | _ => None end
  | SParent x => parent_move x d
  | SComplete k =>
      match mine d !! k with
      | Some (j, SLive) => if decide (ex_jobs (parent_ d) !! j = Some JReturned) then Some (with_stage k (j, SDone) d, EComplete k) else None
      | _ => None
      end
  | SFinish k => match mine d !! k with Some (j, SDone) => Some (finishDispatch (with_stage k (j, SCounted) d), EQuiet) | _ => None end
  | SWait => Some (mkScoped (parent_ d) (mine d) (localInFlight_ d) (dispatchers d) (callers_ d ++ [UTests]), EWaitCalled (length (callers_ d)))
  | SWaiter v =>
      match callers_ d !! v with
      | Some UTests =>
          if localInFlight_ d =? 0 then Some (with_waiter v UReturned d, EWaitReturns v) else Some (with_waiter v UBlocked d, EQuiet)
      | _ => None
      end
  | SSpurious v => match callers_ d !! v with Some UBlocked => Some (with_waiter v UTests d, EQuiet) | _ => None end
  end.

Definition scoped_own (m : SMove M) : bool :=
  match m with SCount | SWait | SSpurious _ => false | SParent x => ex_own x | _ => true end.

Definition stage_phase (jobs : list Phase) (x : nat * Stage) : Phase :=
  match x.2 with SLive => default JWaiting (jobs !! x.1) | _ => JCompleted end.
Definition scoped_jobs d : list Phase := stage_phase (ex_jobs (parent_ d)) <$> mine d.
Definition scope_waits (x : ScopeWaiter) : bool := match x with UReturned => false | _ => true end.
Definition scoped_waiting d : nat -> bool := waiting_at scope_waits (callers_ d).

(** The parent's phase of a job agrees with its stage. *)
Definition stage_ok (jobs : list Phase) (x : nat * Stage) : Prop :=
  exists ph, jobs !! x.1 = Some ph /\
    match x.2 with SLive => ph <> JCompleted | SDone => ph = JReturned | SCounted => ph = JReturned \/ ph = JCompleted end.

Record scoped_inv d : Prop := {
  si_parent : ex_inv (parent_ d);
  si_mine : Forall (stage_ok (ex_jobs (parent_ d))) (mine d);
  si_unique : NoDup (mine d).*1;
  si_count : localInFlight_ d = Z.of_nat (outstanding d) /\ (outstanding d <= packets)%nat;
  si_blocked : UBlocked ∈ callers_ d -> localInFlight_ d <> 0;
}.

Lemma scoped_begin_inv s : ex_inv s -> scoped_inv (scoped_begin s).
Proof. intros Hs. split; cbn; try done; [constructor|split; [done|cbn; lia]|by intros ?%elem_of_nil]. Qed.

Lemma stage_ok_accept jobs x : stage_ok jobs x -> stage_ok (jobs ++ [JWaiting]) x.
Proof. intros (ph & Hp & Hx). exists ph. split; [by apply lookup_app_l_Some|done]. Qed.

Lemma stage_ok_advance a b j jobs jobs' x : stage_ok jobs x -> advance a b j jobs = Some jobs' ->
  (a <> JReturned /\ a <> JCompleted /\ b <> JCompleted) \/ (a = JReturned /\ (x.1 = j -> x.2 = SCounted) /\ b = JCompleted) -> stage_ok jobs' x.
Proof.
  intros (ph & Hp & Hx) [Ha ->]%advance_lookup Hb. destruct (decide (j = x.1)) as [E|Hne].
  - exists b. split; [rewrite <- E; apply list_lookup_insert_eq; by eapply lookup_lt_Some|].
    assert (ph = a) as -> by congruence. destruct Hb as [(H1 & H2 & H3)|(-> & H2 & ->)]; [|rewrite H2 by done; by right].
    destruct x as [j2 st]; cbn in *. by destruct st; [|subst a|destruct Hx; subst a].
  - exists ph. by rewrite list_lookup_insert_ne.
Qed.

Lemma mine_of_None j d k x : mine_of j d = None -> mine d !! k = Some x -> x.1 <> j.
Proof. unfold mine_of. intros Hn%fmap_None%list_find_None Hx. rewrite Forall_lookup in Hn. by apply (Hn k). Qed.
Lemma mine_of_Some j d k : mine_of j d = Some k -> exists x, mine d !! k = Some x /\ x.1 = j.
Proof. unfold mine_of. intros ([k' x] & (H1 & H2 & _)%list_find_Some & ->)%fmap_Some. by exists x. Qed.
Lemma mine_unique d k1 k2 x1 x2 : scoped_inv d -> mine d !! k1 = Some x1 -> mine d !! k2 = Some x2 -> x1.1 = x2.1 -> k1 = k2.
Proof.
  intros Hi H1 H2 E. eapply NoDup_lookup; [apply (si_unique d Hi)|..]; rewrite list_lookup_fmap.
  - by rewrite H1.
  - rewrite H2. cbn. by rewrite E.
Qed.

Lemma with_parent_inv d x s e : scoped_inv d -> ex_move x (parent_ d) = Some (s, e) ->
  (forall j k y, e = EComplete j -> mine d !! k = Some y -> y.1 = j -> y.2 = SCounted) -> scoped_inv (with_parent s d).
Proof.
  intros [H1 H2 H3 H4 H5] Hx Hc. pose proof (ex_refines _ _ _ _ H1 Hx) as Hj. split; cbn; try done; [by eapply ex_keeps|].
  apply Forall_lookup. intros k y Hy. rewrite Forall_lookup in H2. pose proof (H2 k y Hy) as Hok. destruct e as [| |j|j|j|c|c]; cbn in Hj.
  - by injection Hj as <-.
  - injection Hj as <-. by apply stage_ok_accept.
  - eapply stage_ok_advance; [done|exact Hj|by left].
  - eapply stage_ok_advance; [done|exact Hj|by left].
  - eapply stage_ok_advance; [done|exact Hj|right]. split_and!; [done| |done]. by eapply Hc.
  - by injection Hj as <-.
  - case_decide; [|done]. by injection Hj as <-.
Qed.

Lemma parent_move_inv x d d' e : scoped_inv d -> parent_move x d = Some (d', e) -> scoped_inv d'.
Proof.
  intros Hi Hp. unfold parent_move in Hp. apply bind_Some in Hp as ([s e'] & Hx & Hp).
  assert (Hkeep : (forall j k y, e' = EComplete j -> mine d !! k = Some y -> y.1 = j -> y.2 = SCounted) -> scoped_inv (with_parent s d))
    by (by eapply with_parent_inv).
  destruct e' as [| |j|j|j|c|c]; try (injection Hp as <- _; by apply Hkeep).
  destruct (mine_of j d) as [k|] eqn:Em.
  - apply mine_of_Some in Em as ([j' st] & Hk & E). cbn in E. subst j'. rewrite Hk in Hp. destruct st; try done.
    injection Hp as <- _. apply Hkeep. intros i k' y [= <-] Hy E.
    assert (k' = k) as -> by (by eapply (mine_unique d)). rewrite Hk in Hy. by injection Hy as <-.
  - injection Hp as <- _. apply Hkeep. intros i k y [= <-] Hy E. by destruct (mine_of_None _ _ _ _ Em Hy).
Qed.

(** One outstanding packet less, and the waiters woken at zero. *)
Lemma finish_inv d : ex_inv (parent_ d) -> Forall (stage_ok (ex_jobs (parent_ d))) (mine d) -> NoDup (mine d).*1 ->
  localInFlight_ d = Z.of_nat (outstanding d + 1) -> (outstanding d + 1 <= packets)%nat -> scoped_inv (finishDispatch d).
Proof.
  intros H1 H2 H3 H4 H5. assert (Hu : u32 (localInFlight_ d - 1) = Z.of_nat (outstanding d)) by (unfold u32; rewrite Z.mod_small; lia).
  split; cbn; rewrite ?Hu; try done; [split; [done|unfold outstanding in *; cbn; lia]|].
  destruct (Z.eqb_spec (Z.of_nat (outstanding d)) 0) as [Hz|Hz]; [|done]. intros (x & Hx & _)%list_elem_of_fmap. by destruct x.
Qed.

Lemma with_waiter_inv d v x : scoped_inv d -> (x = UBlocked -> localInFlight_ d <> 0) -> scoped_inv (with_waiter v x d).
Proof.
  intros [H1 H2 H3 H4 H5] Hx. split; cbn; try done. intros (w & Hw)%list_elem_of_lookup_1.
  apply list_lookup_insert_Some in Hw as [(-> & E & _)|[_ Hw]]; [by apply Hx|]. apply H5. by eapply list_elem_of_lookup_2.
Qed.

Lemma scoped_move_inv m d e d' : scoped_inv d -> scoped_move m d = Some (d', e) -> scoped_inv d'.
Proof.
  intros Hi Hm. pose proof Hi as [H1 H2 H3 [H4 H4'] H5]. destruct m as [|i x|i|i|x|k|k| |v|v]; cbn [scoped_move] in Hm.
  - destruct (Nat.ltb_spec (outstanding d) packets); [|done]. injection Hm as <- _.
    assert (Hu : u32 (localInFlight_ d + 1) = localInFlight_ d + 1) by (unfold u32; rewrite Z.mod_small; lia).
    split; cbn; rewrite ?Hu; try done; [|intros _; lia]. unfold outstanding in *. cbn. rewrite sum_list_with_app. cbn. lia.
  - destruct (dispatchers d !! i) as [[]|] eqn:Ei; try done. destruct (ex_move x (parent_ d)) as [[s e']|] eqn:Hx; [|done].
    destruct e'; try done. injection Hm as <- _. pose proof (with_parent_inv d x s _ Hi Hx ltac:(done)) as [P1 P2 P3 P4 P5].
    pose proof (ex_refines _ _ _ _ H1 Hx) as Hj. injection Hj as Hj. cbn in *. split; cbn; try done.
    + apply Forall_app. split; [done|]. constructor; [|constructor]. exists JWaiting. cbn. rewrite <- Hj. split; [by apply list_lookup_middle|done].
    + rewrite fmap_app. apply NoDup_app. split; [done|]. split; [|apply NoDup_singleton]. intros j (y & -> & Hy)%list_elem_of_fmap Hin.
      apply list_elem_of_singleton in Hin. cbn in Hin. rewrite Forall_forall in H2. destruct (H2 y Hy) as (ph & Hp & _).
      apply lookup_lt_Some in Hp. lia.
    + pose proof (sum_list_insert submits _ _ _ SOut Ei) as Hs. unfold outstanding in *. cbn in *. rewrite sum_list_with_app. cbn. lia.
  - destruct (dispatchers d !! i) as [[]|] eqn:Ei; try done. injection Hm as <- _.
    pose proof (sum_list_insert submits _ _ _ SRefused Ei) as Hs. split; cbn; try done. unfold outstanding in *. cbn in *. lia.
  - destruct (dispatchers d !! i) as [[]|] eqn:Ei; try done. injection Hm as <- _.
    pose proof (sum_list_insert submits _ _ _ SOut Ei) as Hs. apply finish_inv; try done; unfold outstanding in *; cbn in *; lia.
  - by eapply parent_move_inv.
  - destruct (mine d !! k) as [[j []]|] eqn:Ek; try done. case_decide as Hj; [|done]. injection Hm as <- _.
    pose proof (sum_list_insert uncounted _ _ _ (j, SDone) Ek) as Hs. split; cbn; try done.
    + apply Forall_insert; [done|]. by exists JReturned.
    + rewrite list_fmap_insert, list_insert_id; [done|]. by rewrite list_lookup_fmap, Ek.
    + unfold outstanding, uncounted in *. cbn in *. lia.
  - destruct (mine d !! k) as [[j []]|] eqn:Ek; try done. injection Hm as <- _.
    pose proof (sum_list_insert uncounted _ _ _ (j, SCounted) Ek) as Hs.
    rewrite Forall_lookup in H2. destruct (H2 _ _ Ek) as (ph & Hp & ->). apply finish_inv; cbn; try done.
    + apply Forall_insert; [by apply Forall_lookup|]. exists JReturned. split; [done|by left].
    + rewrite list_fmap_insert, list_insert_id; [done|]. by rewrite list_lookup_fmap, Ek.
    + unfold outstanding, uncounted in *. cbn in *. lia.
    + unfold outstanding, uncounted in *. cbn in *. lia.
  - injection Hm as <- _. split; cbn; try done. intros [?|?%list_elem_of_singleton]%elem_of_app; [by apply H5|done].
  - destruct (callers_ d !! v) as [[]|]; try done. destruct (Z.eqb_spec (localInFlight_ d) 0); injection Hm as <- _; by apply with_waiter_inv.
  - destruct (callers_ d !! v) as [[]|]; try done. injection Hm as <- _. by apply with_waiter_inv.
Qed.

(** ** The contract *)

Lemma stage_phase_advance a b j jobs jobs' x : advance a b j jobs = Some jobs' -> x.1 <> j \/ x.2 <> SLive -> stage_phase jobs' x = stage_phase jobs x.
Proof.
  intros [_ ->]%advance_lookup Hx. unfold stage_phase. destruct x as [i st]; cbn in *.
  destruct st; try done. destruct Hx as [Hx|]; [|done]. by rewrite list_lookup_insert_ne.
Qed.

Lemma others_same a b j jobs jobs' (l : list (nat * Stage)) : advance a b j jobs = Some jobs' -> (forall (k : nat) x, l !! k = Some x -> x.1 <> j \/ x.2 <> SLive) ->
  stage_phase jobs' <$> l = stage_phase jobs <$> l.
Proof. intros Ha Hl. apply list_fmap_ext. intros k x Hx. by eapply stage_phase_advance, Hl. Qed.

(** The parent's step from [a] to [b] is the scope's. *)
Lemma mine_advances a b j k d s : scoped_inv d -> mine_of j d = Some k -> a <> JReturned -> a <> JCompleted ->
  advance a b j (ex_jobs (parent_ d)) = Some (ex_jobs s) -> advance a b k (scoped_jobs d) = Some (scoped_jobs (with_parent s d)).
Proof.
  intros Hi Hk Ha1 Ha2 Ha. pose proof Ha as [Hj Hs]%advance_lookup. apply mine_of_Some in Hk as ([j' st] & Hk & E). cbn in E. subst j'.
  pose proof (si_mine d Hi) as Hm. rewrite Forall_lookup in Hm. destruct (Hm _ _ Hk) as (ph & Hp & Hst). cbn in Hp, Hst.
  assert (ph = a) as -> by congruence. assert (st = SLive) as -> by (destruct st; [done|done|by destruct Hst]).
  apply advance_lookup. split; [unfold scoped_jobs; rewrite list_lookup_fmap, Hk; cbn; unfold stage_phase; cbn; by rewrite Hj|].
  apply list_eq. intros i. unfold scoped_jobs. cbn. destruct (decide (k = i)) as [<-|Hne].
  - rewrite list_lookup_insert_eq by (rewrite length_fmap; by eapply lookup_lt_Some). rewrite list_lookup_fmap, Hk. cbn. unfold stage_phase. cbn.
    rewrite Hs, list_lookup_insert_eq by (by eapply lookup_lt_Some). done.
  - rewrite list_lookup_insert_ne by done. rewrite !list_lookup_fmap. destruct (mine d !! i) as [y|] eqn:Ey; [|done]. cbn. f_equal.
    eapply stage_phase_advance; [exact Ha|]. left. intros E. apply Hne. by eapply (mine_unique d k i).
Qed.

Lemma parent_refines x d d' e : scoped_inv d -> parent_move x d = Some (d', e) -> spec_jobs e (scoped_jobs d) = Some (scoped_jobs d').
Proof.
  intros Hi Hp. unfold parent_move in Hp. apply bind_Some in Hp as ([s e'] & Hx & Hp).
  pose proof (ex_refines _ _ _ _ (si_parent d Hi) Hx) as Hj.
  assert (Hout : forall a b j, mine_of j d = None -> advance a b j (ex_jobs (parent_ d)) = Some (ex_jobs s) ->
    spec_jobs EQuiet (scoped_jobs d) = Some (scoped_jobs (with_parent s d))).
  { intros a b j Hn Ha. apply unchanged. eapply others_same; [exact Ha|]. intros k y Hy. left. by eapply mine_of_None. }
  destruct e' as [| |j|j|j|c|c]; cbn in Hj.
  - injection Hp as <- <-. injection Hj as Hj. apply unchanged. unfold scoped_jobs. cbn. by rewrite Hj.
  - injection Hp as <- <-. injection Hj as Hj. apply unchanged. unfold scoped_jobs. cbn. apply list_fmap_ext. intros k y Hy.
    pose proof (si_mine d Hi) as Hm. rewrite Forall_lookup in Hm. destruct (Hm k y Hy) as (ph & Hp & _).
    unfold stage_phase. rewrite <- Hj. by rewrite (lookup_app_l_Some _ _ _ _ Hp), Hp.
  - destruct (mine_of j d) as [k|] eqn:Em; injection Hp as <- <-; [by apply (mine_advances _ _ j)|by eapply Hout].
  - destruct (mine_of j d) as [k|] eqn:Em; injection Hp as <- <-; [by apply (mine_advances _ _ j)|by eapply Hout].
  - destruct (mine_of j d) as [k|] eqn:Em; [|injection Hp as <- <-; by eapply Hout].
    apply mine_of_Some in Em as ([j' st] & Hk & E). cbn in E. subst j'. rewrite Hk in Hp. destruct st; try done. injection Hp as <- <-.
    apply unchanged. eapply others_same; [exact Hj|]. intros i y Hy. destruct (decide (y.1 = j)) as [E|]; [|by left]. right.
    assert (i = k) as -> by (by eapply (mine_unique d)). rewrite Hk in Hy. by injection Hy as <-.
  - injection Hp as <- <-. injection Hj as Hj. apply unchanged. unfold scoped_jobs. cbn. by rewrite Hj.
  - case_decide; [|done]. injection Hp as <- <-. injection Hj as Hj. apply unchanged. unfold scoped_jobs. cbn. by rewrite Hj.
Qed.

Lemma all_counted d : scoped_inv d -> localInFlight_ d = 0 -> Forall (fun x => x = JCompleted) (scoped_jobs d).
Proof.
  intros Hi Hz. destruct (si_count d Hi) as [Hc _]. apply Forall_lookup. intros k x Hx. unfold scoped_jobs in Hx.
  apply list_lookup_fmap_Some in Hx as ([j st] & -> & Hy). pose proof (sum_lookup_le uncounted _ _ _ Hy) as Hle.
  unfold outstanding in Hc. unfold uncounted in Hle at 1. unfold stage_phase. cbn in *. destruct st; try done; lia.
Qed.

Lemma scoped_refines m d e d' : scoped_inv d -> scoped_move m d = Some (d', e) -> spec_jobs e (scoped_jobs d) = Some (scoped_jobs d').
Proof.
  intros Hi Hm. destruct m as [|i x|i|i|x|k|k| |v|v]; cbn [scoped_move] in Hm.
  - destruct (_ <? _)%nat; [|done]. by injection Hm as <- <-.
  - destruct (dispatchers d !! i) as [[]|]; try done. destruct (ex_move x (parent_ d)) as [[s []]|] eqn:Hx; try done.
    injection Hm as <- <-. pose proof (parent_refines x d (with_parent s d) EQuiet Hi) as Hq.
    unfold parent_move in Hq. rewrite Hx in Hq. specialize (Hq eq_refl). injection Hq as Hq. cbn. f_equal. rewrite Hq.
    unfold scoped_jobs. cbn. rewrite fmap_app. f_equal. cbn. f_equal. unfold stage_phase. cbn.
    pose proof (ex_refines _ _ _ _ (si_parent d Hi) Hx) as Hj. injection Hj as <-. by rewrite list_lookup_middle.
  - destruct (dispatchers d !! i) as [[]|]; try done. by injection Hm as <- <-.
  - destruct (dispatchers d !! i) as [[]|]; try done. by injection Hm as <- <-.
  - by eapply parent_refines.
  - destruct (mine d !! k) as [[j []]|] eqn:Ek; try done. case_decide as Hj; [|done]. injection Hm as <- <-.
    apply advance_lookup. unfold scoped_jobs. cbn. rewrite list_fmap_insert, list_lookup_fmap, Ek. cbn. unfold stage_phase. cbn. by rewrite Hj.
  - destruct (mine d !! k) as [[j []]|] eqn:Ek; try done. injection Hm as <- <-. apply unchanged. unfold scoped_jobs. cbn.
    rewrite list_fmap_insert. apply list_insert_id. by rewrite list_lookup_fmap, Ek.
  - by injection Hm as <- <-.
  - destruct (callers_ d !! v) as [[]|]; try done. destruct (Z.eqb_spec (localInFlight_ d) 0); injection Hm as <- <-; [|done].
    cbn. rewrite decide_True by (by apply all_counted). done.
  - destruct (callers_ d !! v) as [[]|]; try done. by injection Hm as <- <-.
Qed.

Lemma finish_waiting d c : scoped_waiting (finishDispatch d) c = scoped_waiting d c.
Proof. unfold scoped_waiting. cbn. destruct (_ =? 0); [|done]. apply waiting_at_fmap. by intros []. Qed.

Lemma scoped_waits m d e d' c : scoped_move m d = Some (d', e) -> scoped_waiting d' c = spec_waiting e c (scoped_waiting d c).
Proof.
  intros Hm. destruct m as [|i x|i|i|x|k|k| |v|v]; cbn [scoped_move] in Hm.
  - destruct (_ <? _)%nat; [|done]. by injection Hm as <- <-.
  - destruct (dispatchers d !! i) as [[]|]; try done. destruct (ex_move x (parent_ d)) as [[s []]|]; try done. by injection Hm as <- <-.
  - destruct (dispatchers d !! i) as [[]|]; try done. by injection Hm as <- <-.
  - destruct (dispatchers d !! i) as [[]|]; try done. injection Hm as <- <-. apply finish_waiting.
  - unfold parent_move in Hm. apply bind_Some in Hm as ([s e'] & _ & Hm).
    destruct e' as [| |j|j|j| |]; try destruct (mine_of j d) as [k|]; repeat (case_match; try done); by injection Hm as <- <-.
  - destruct (mine d !! k) as [[j []]|]; try done. case_decide; [|done]. by injection Hm as <- <-.
  - destruct (mine d !! k) as [[j []]|]; try done. injection Hm as <- <-. apply finish_waiting.
  - injection Hm as <- <-. unfold scoped_waiting. cbn. rewrite waiting_at_app. by case_decide.
  - destruct (callers_ d !! v) as [[]|] eqn:Ev; try done. unfold scoped_waiting. destruct (localInFlight_ d =? 0); injection Hm as <- <-; cbn.
    + rewrite (waiting_at_insert _ _ _ _ _ _ Ev). cbn. repeat case_decide; try done; congruence.
    + by apply (waiting_at_stays _ _ _ _ _ _ Ev).
  - destruct (callers_ d !! v) as [[]|] eqn:Ev; try done. injection Hm as <- <-. by apply (waiting_at_stays _ _ _ _ _ _ Ev).
Qed.

#[export, refine] Instance scoped_executor : IExecutor (ScopedExecutor S) (SMove M) := {|
  ex_move := scoped_move; ex_own := scoped_own; ex_inv := scoped_inv; ex_jobs := scoped_jobs; ex_waiting := scoped_waiting |}.
Proof.
  - intros m d e d' Hi Hm. by eapply scoped_move_inv.
  - intros m d e d' Hi Hm. by eapply scoped_refines.
  - intros m d e d' c _ Hm. by eapply scoped_waits.
Defined.
End scoped.

(** ** Progress, over a parent that makes progress *)

Section live.
Context {S M : Type} `{LiveExecutor S M} (packets : nat) (Hpackets : Z.of_nat packets < 2 ^ 32).
Implicit Types d : ScopedExecutor S.
#[local] Instance scope : IExecutor (ScopedExecutor S) (SMove M) := scoped_executor packets Hpackets.
Abbreviation move := (scoped_move packets).

Definition dweight (x : Dispatcher) : nat := match x with SSubmits => 3 | SRefused => 2 | SOut => 0 end.
Definition gweight (x : nat * Stage) : nat := match x.2 with SLive => 2 | SDone => 1 | SCounted => 0 end.
Definition uweight (x : ScopeWaiter) : nat := match x with UTests => 1 | _ => 0 end.
(** Counting a job out may wake every waiter. *)
Definition scope_measure d : nat :=
  ((length (callers_ d) + 1) * (sum_list_with dweight (dispatchers d) + sum_list_with gweight (mine d)) + sum_list_with uweight (callers_ d))%nat.

Lemma finish_measure d : (scope_measure (finishDispatch d) <= scope_measure d + length (callers_ d))%nat.
Proof.
  unfold scope_measure. cbn. assert (Ha : (sum_list_with uweight (wakes_up <$> callers_ d) <= sum_list_with uweight (callers_ d) + length (callers_ d))%nat).
  { clear. induction (callers_ d) as [|x l IH]; cbn; [lia|]. destruct x; cbn in *; lia. }
  destruct (_ =? 0); rewrite ?length_fmap; lia.
Qed.

(** A step of its own is nearer the end, or is one of the parent's. *)
Lemma scope_own_measure m d e d' : scoped_own m = true -> move m d = Some (d', e) ->
  (scope_measure d' < scope_measure d)%nat \/
  (scope_measure d' = scope_measure d /\ exists x e', ex_own x = true /\ ex_move x (parent_ d) = Some (parent_ d', e')).
Proof.
  intros Ho Hm. destruct m as [|i x|i|i|x|k|k| |v|v]; try done; cbn [scoped_move] in Hm.
  - left. destruct (dispatchers d !! i) as [[]|] eqn:Ei; try done. destruct (ex_move x (parent_ d)) as [[s []]|]; try done.
    injection Hm as <- <-. pose proof (sum_list_insert dweight _ _ _ SOut Ei) as Hs. unfold scope_measure. cbn in *.
    rewrite sum_list_with_app. cbn. nia.
  - left. destruct (dispatchers d !! i) as [[]|] eqn:Ei; try done. injection Hm as <- <-.
    pose proof (sum_list_insert dweight _ _ _ SRefused Ei) as Hs. unfold scope_measure. cbn in *. nia.
  - left. destruct (dispatchers d !! i) as [[]|] eqn:Ei; try done. injection Hm as <- <-.
    pose proof (sum_list_insert dweight _ _ _ SOut Ei) as Hs. pose proof (finish_measure (with_dispatcher i SOut d)) as Hf.
    unfold scope_measure in Hf at 2. unfold scope_measure at 2. cbn in *. nia.
  - right. unfold parent_move in Hm. apply bind_Some in Hm as ([s e'] & Hx & Hm).
    assert (E : d' = with_parent s d).
    { destruct e' as [| |j|j|j| |]; try destruct (mine_of j d) as [k|]; repeat (case_match; try done); by injection Hm as <- _. }
    subst d'. split; [done|]. exists x, e'. by split.
  - left. destruct (mine d !! k) as [[j []]|] eqn:Ek; try done. case_decide; [|done]. injection Hm as <- <-.
    pose proof (sum_list_insert gweight _ _ _ (j, SDone) Ek) as Hs. unfold scope_measure, gweight in *. cbn in *. nia.
  - left. destruct (mine d !! k) as [[j []]|] eqn:Ek; try done. injection Hm as <- <-.
    pose proof (sum_list_insert gweight _ _ _ (j, SCounted) Ek) as Hs. pose proof (finish_measure (with_stage k (j, SCounted) d)) as Hf.
    unfold scope_measure in Hf at 2. unfold scope_measure at 2. unfold gweight in *. cbn in *. nia.
  - left. destruct (callers_ d !! v) as [[]|] eqn:Ev; try done.
    destruct (localInFlight_ d =? 0); injection Hm as <- <-; unfold scope_measure; cbn; rewrite length_insert.
    + pose proof (sum_list_insert uweight _ _ _ UReturned Ev) as Hs. cbn in Hs. lia.
    + pose proof (sum_list_insert uweight _ _ _ UBlocked Ev) as Hs. cbn in Hs. lia.
Qed.

Lemma scope_halts d : scoped_inv packets d -> sn (fun d d' => exists e, ex_inner d e d') d.
Proof.
  remember (scope_measure d) as n eqn:En. revert d En. induction (lt_wf n) as [n _ IHn]. intros d En Hi.
  assert (Hsn : sn (fun s s' => exists e, ex_inner s e s') (parent_ d)) by (apply ex_halts, Hi).
  remember (parent_ d) as s eqn:Es. revert d En Hi Es. induction Hsn as [s _ IHs]. intros d En Hi Es.
  constructor. intros d' (e & m & Ho & Hm). pose proof (scoped_move_inv packets Hpackets _ _ _ _ Hi Hm) as Hi'.
  destruct (scope_own_measure m d e d' Ho Hm) as [Hlt|(Heq & x & e' & Hx & Hp)].
  - eapply IHn; [|reflexivity|done]. by rewrite En.
  - eapply (IHs (parent_ d')); [|by rewrite Heq|done|done]. exists e', x. split; [done|]. by rewrite Es.
Qed.

Lemma mine_of_here d k j st : scoped_inv packets d -> mine d !! k = Some (j, st) -> mine_of j d = Some k.
Proof.
  intros Hi Hk. destruct (mine_of j d) as [k'|] eqn:E.
  - apply mine_of_Some in E as (x & Hx & Ex). f_equal. by eapply (mine_unique packets d).
  - by destruct (mine_of_None _ _ _ _ E Hk).
Qed.

Lemma scope_stuck d : scoped_inv packets d -> (forall e d', ex_inner d e d' -> exists k, e = EReturns k) ->
  (exists k, scoped_jobs d !! k = Some JRunning) \/ (Forall (fun x => x = JCompleted) (scoped_jobs d) /\ forall c, scoped_waiting d c = false).
Proof.
  intros Hi Hs. assert (Hno : forall m d' e, scoped_own m = true -> move m d = Some (d', e) -> exists k, e = EReturns k).
  { intros m d' e Ho Hm. apply (Hs e d'). by exists m. }
  pose proof (si_mine packets d Hi) as Hst. rewrite Forall_lookup in Hst.
  assert (Hlive : forall k j st, mine d !! k = Some (j, st) -> st <> SDone /\ (st = SLive -> ex_jobs (parent_ d) !! j <> Some JReturned)).
  { intros k j st Hk. split.
    - intros ->. destruct (Hno (SFinish k) _ _ eq_refl ltac:(cbn; by rewrite Hk)). done.
    - intros -> Hj. destruct (Hno (SComplete k) _ _ eq_refl ltac:(cbn [scoped_move]; by rewrite Hk, decide_True)). done. }
  destruct (ex_progress (parent_ d) (si_parent packets d Hi)) as [[j Hj]|[Hall _]].
  { intros e s' (x & Ho & Hx). destruct (parent_move x d) as [[d' e']|] eqn:Ep.
    - destruct (Hno (SParent x) d' e' Ho Ep) as [k ->]. unfold parent_move in Ep. rewrite Hx in Ep. cbn in Ep.
      destruct e as [| |j|j|j| |]; try (by exists j); exfalso; repeat case_match; simplify_eq.
    - exfalso. unfold parent_move in Ep. rewrite Hx in Ep. cbn in Ep. destruct e as [| |j|j|j| |]; try done.
      destruct (mine_of j d) as [k|] eqn:Em; [|done]. apply mine_of_Some in Em as ([j' st] & Hk & E). cbn in E. subst j'. rewrite Hk in Ep.
      pose proof (ex_refines _ _ _ _ (si_parent packets d Hi) Hx) as [Hret _]%advance_lookup. destruct (Hlive _ _ _ Hk) as [H1 H2].
      destruct st; [by apply H2|done|done]. }
  - left. destruct (mine_of j d) as [k|] eqn:Em.
    + apply mine_of_Some in Em as ([j' st] & Hk & E). cbn in E. subst j'. exists k. unfold scoped_jobs.
      rewrite list_lookup_fmap, Hk. cbn. unfold stage_phase. cbn. destruct (Hst _ _ Hk) as (ph & Hp & Hph). cbn in Hp, Hph.
      rewrite Hj in Hp. injection Hp as <-. destruct st; [by rewrite Hj|done|by destruct Hph].
    + exfalso. destruct (ex_can_return (parent_ d) j (si_parent packets d Hi) Hj) as (s' & x & Ho & Hx).
      destruct (Hno (SParent x) (with_parent s' d) EQuiet Ho) as [k ?]; [|done]. cbn [scoped_move]. unfold parent_move. rewrite Hx. cbn. by rewrite Em.
  - right. rewrite Forall_lookup in Hall.
    assert (Hz : localInFlight_ d = 0).
    { destruct (si_count packets d Hi) as [-> _]. unfold outstanding.
      assert (Hd : sum_list_with submits (dispatchers d) = 0%nat).
      { assert (Hall2 : forall i x, dispatchers d !! i = Some x -> x = SOut).
        { intros i x Hx. destruct x; [|..|done]; exfalso.
          - destruct (Hno (SRefuse i) _ _ eq_refl ltac:(cbn; by rewrite Hx)). done.
          - destruct (Hno (SRollback i) _ _ eq_refl ltac:(cbn; by rewrite Hx)). done. }
        revert Hall2. clear. induction (dispatchers d) as [|x l IH]; [done|]. intros Ha. cbn. rewrite (Ha 0%nat x eq_refl). apply IH. intros i y Hy. by apply (Ha (Datatypes.S i)). }
      assert (Hm : sum_list_with uncounted (mine d) = 0%nat); [|lia].
      assert (Hall2 : forall k x, mine d !! k = Some x -> x.2 = SCounted).
      { intros k [j st] Hk. destruct (Hlive _ _ _ Hk) as [H1 _]. destruct (Hst _ _ Hk) as (ph & Hp & Hph). cbn in *.
        rewrite (Hall _ _ Hp) in Hph. by destruct st. }
      revert Hall2. clear. induction (mine d) as [|x l IH]; [done|]. intros Ha. cbn. unfold uncounted at 1. rewrite (Ha 0%nat x eq_refl). cbn.
      apply IH. intros i y Hy. by apply (Ha (Datatypes.S i)). }
    split; [by eapply all_counted|]. intros v. unfold scoped_waiting, waiting_at. destruct (callers_ d !! v) as [x|] eqn:Ev; [|done].
    destruct x; [exfalso|exfalso|done].
    + destruct (Hno (SWaiter v) _ _ eq_refl ltac:(cbn; by rewrite Ev, Hz)). done.
    + destruct (si_blocked packets d Hi); [by eapply list_elem_of_lookup_2|done].
Qed.

#[export] Instance scoped_live : LiveExecutor (ScopedExecutor S) (SMove M).
Proof.
  split.
  - apply scope_halts.
  - apply scope_stuck.
  - intros d Hi. eexists _, _. by exists SWait.
  - intros d k Hi Hk. cbn in Hk. unfold scoped_jobs in Hk. apply list_lookup_fmap_Some in Hk as ([j st] & Hx & Hk).
    unfold stage_phase in Hx. cbn in Hx. destruct st; try done.
    assert (Hj : ex_jobs (parent_ d) !! j = Some JRunning) by (by destruct (ex_jobs (parent_ d) !! j); simplify_eq/=).
    destruct (ex_can_return (parent_ d) j (si_parent packets d Hi) Hj) as (s' & x & Ho & Hx').
    exists (with_parent s' d), (SParent x). split; [done|]. cbn [ex_move scope scoped_executor scoped_move]. unfold parent_move. rewrite Hx'. cbn.
    by rewrite (mine_of_here d k j SLive Hi Hk).
Qed.

(** C20. Over any executor that keeps the contract and makes progress, so does a scope
    of it, for the scope's jobs: what it shows is a history of the specification, so
    its waitAll returns only when each of its jobs is complete, whatever the parent
    runs besides; it takes finitely many steps of its own, and stops only in a body
    that has not returned or with its jobs complete and its waiters gone. *)
Theorem scoped_implements_contract s h d : ex_inv s -> ex_run (scoped_begin s) h d ->
  spec_history h (scoped_jobs d) /\ sn (fun d d' => exists e, ex_inner d e d') d /\
  forall d', rtc (fun d d' => exists e, ex_inner d e d') d d' -> (forall e d'', ex_inner d' e d'' -> exists k, e = EReturns k) ->
    (exists k, scoped_jobs d' !! k = Some JRunning) \/
    (Forall (fun x => x = JCompleted) (scoped_jobs d') /\ forall c, scoped_waiting d' c = false).
Proof.
  intros Hs Hr. destruct (ex_run_spec (scoped_begin s) h d) as [Hi Hh]; [by apply scoped_begin_inv|done|exact Hr|].
  split; [done|]. split; [by apply scope_halts|]. intros d' Hd Hst. apply scope_stuck; [|done].
  clear Hr Hh Hst. induction Hd as [|d1 d2 d3 (e & m & _ & H3) _ IH]; [done|]. apply IH. exact (scoped_move_inv packets Hpackets _ _ _ _ Hi H3).
Qed.
End live.

(** ** A scope inside a job of a pool

    The pool's job 0 runs and waits on a scope; with a second worker the scope's job
    is run and the wait returns while job 0 is still running; without one nothing
    can move but job 0, which waits. *)
From S2P Require Import Executors ExecutorCorrect.

Definition nested_moves (w : nat) : list (SMove (Call + Inner)) :=
  [SParent (inl (KDispatch 5)); SParent (inr (IWorker 0 0)); SParent (inr (IWorker 0 0)); SCount; SSubmit 0 (inl (KDispatch 5)); SWait; SWaiter 0;
   SParent (inr (IWorker w 0)); SParent (inr (IWorker w 0)); SParent (inr (IWorker w 0)); SComplete 0; SFinish 0; SParent (inr (IWorker w 0));
   SWaiter 0]%nat.
#[local] Instance outer_pool : IExecutor Pool (Call + Inner) := pool_executor false 0 ltac:(lia).
#[local] Instance outer_live : LiveExecutor Pool (Call + Inner) := pool_live false 0 ltac:(lia).
#[local] Instance inner_scope : IExecutor (ScopedExecutor Pool) (SMove (Call + Inner)) := scoped_executor 1000 ltac:(lia).
Definition nested_end := ex_trace (nested_moves 1) (scoped_begin (pool_begin 2)).
Definition starved := ex_trace (take 7 (nested_moves 0)) (scoped_begin (pool_begin 1)).

Example nested_shows : nested_end.1 =
  [EQuiet; EQuiet; EQuiet; EQuiet; EAccept; EWaitCalled 0; EQuiet; EQuiet; EBody 0; EReturns 0; EComplete 0; EQuiet; EQuiet; EWaitReturns 0]%nat /\
  pool_jobs (parent_ nested_end.2) = [JRunning; JCompleted].
Proof. vm_compute. split; reflexivity. Qed.

Example starved_moves : let possible m := match scoped_move 1000 m starved.2 with Some _ => true | None => false end in
  filter (fun m => Is_true (possible m)) [SParent (inr (IWorker 0 0)); SParent (inr (ICaller 0 0)); SComplete 0; SFinish 0; SRefuse 0; SRollback 0; SWaiter 0]%nat =
    [SParent (inr (IWorker 0 0))] /\ workers (parent_ starved.2) = [WRuns 0] /\ scoped_jobs starved.2 = [JWaiting].
Proof. vm_compute. split_and!; reflexivity. Qed.

Lemma scoped_implements_contract_witness : spec_history nested_end.1 (scoped_jobs nested_end.2).
Proof.
  refine (proj1 (scoped_implements_contract (S := Pool) (M := Call + Inner) 1000 ltac:(lia) (pool_begin 2) _ _ _ (ex_trace_run (nested_moves 1) _))).
  apply pool_begin_inv; lia.
Defined.
