(* ===== verification/Threaded.v ===== *)
(** A threaded run on an executor (runImpl of src/sub0pipeline.cpp from its root
    loop to its return): the scheduler's threads of Dispatch as the bodies of
    executor jobs, the continuations of deferred jobs dispatched by the threads
    that finish them, the count of deferred jobs in flight, and the run thread that
    waits. The executor is any that keeps the contract of ExecutorLaws. *)
From S2P Require Import Prelude Types EdgeLists SuccessorPool Nodes Kahn Graph Pipeline Run Dispatch ExecutorLaws.

(** Where a thread of the scheduler runs: the run thread, the body of an executor's
    job, nowhere while a deferred job has no outcome, the body of its continuation,
    or the thread that delivered the outcome when the executor refused that. [owes]
    counts the decrements of deferredInFlight it makes at its end. *)
Inductive Host : Set := HRun | HJob (j : nat) | HSlot | HCont (j : nat) | HForeign.
#[export] Instance Host_eq_dec : EqDecision Host.
Proof. solve_decision. Defined.
Record Seat := mkSeat { host : Host; owes : nat }.
Definition job_of (h : Host) : option nat := match h with HJob j | HCont j => Some j | _ => None end.

(** The run thread: the root loop, waitAll, then awaitDeferredThreaded's wait for
    the count, its call of waitAll, that call, and the test after it. *)
Inductive RunPc : Set := RSubmits | RWaits (c : nat) | RAwaits | RCalls | RWaitsAgain (c : nat) | RChecks | RReturned.

Record Threaded (S : Type) := mkThreaded {
  exec : S; run : RunState; seats : list Seat;
  deferredInFlight : Z;
  leaving : nat;              (* threads in deliverDeferred, after dispatch returned *)
  pc : RunPc
}.
#[global] Arguments mkThreaded {S} _ _ _ _ _ _.
#[global] Arguments exec {S} _.
#[global] Arguments run {S} _.
#[global] Arguments seats {S} _.
#[global] Arguments deferredInFlight {S} _.
#[global] Arguments leaving {S} _.
#[global] Arguments pc {S} _.

Inductive TMove (M : Type) : Type :=
  | MExec (x : M)                                   (* the executor and its other clients *)
  | MThread (k : nat) (ch : choice) (slot : bool)   (* [slot]: a deferred job is started *)
  | MDispatch (k : nat) (x : M)
  | MDeliver (k : nat) (x : option M)               (* deliverDeferred; refused when [None] *)
  | MLeave | MCount (k : nat)
  | MWait (x : M) | MPass | MCheck.
#[global] Arguments MExec {M} _.
#[global] Arguments MThread {M} _ _ _.
#[global] Arguments MDispatch {M} _ _.
#[global] Arguments MDeliver {M} _ _.
#[global] Arguments MLeave {M}.
#[global] Arguments MCount {M} _.
#[global] Arguments MWait {M} _.
#[global] Arguments MPass {M}.
#[global] Arguments MCheck {M}.

Section threaded.
Context {S M : Type} `{IExecutor S M} (deferredNodes : list nat).
Implicit Types t : Threaded S.

Definition with_exec (s : S) t : Threaded S := mkThreaded s (run t) (seats t) (deferredInFlight t) (leaving t) (pc t).
Definition with_pc (p : RunPc) t : Threaded S := mkThreaded (exec t) (run t) (seats t) (deferredInFlight t) (leaving t) p.
Definition with_seat (k : nat) (x : Seat) t : Threaded S :=
  mkThreaded (exec t) (run t) (<[k := x]> (seats t)) (deferredInFlight t) (leaving t) (pc t).

Definition start (s : S) (m : Impl) : Threaded S := mkThreaded s (start_threaded m) [mkSeat HRun 0] 0 0 RSubmits.

(** The seat whose thread is the body of job [j]. *)
Definition seat_of (j : nat) t : option nat := fst <$> list_find (fun x => job_of (host x) = Some j) (seats t).

(** A thread executes only where something executes it. *)
Definition hosted (x : Seat) t : bool :=
  match host x with
  | HRun => match pc t with RSubmits => true | _ => false end
  | HJob j | HCont j => bool_decide (ex_jobs (exec t) !! j = Some JRunning)
  | HSlot => false
  | HForeign => true
  end.

(** A body returns at its end, or when its deferred job has no outcome yet. *)
Definition body_returns (j : nat) t : option (Threaded S) :=
  match seat_of j t with
  | None => Some t
  | Some k =>
      match threads (run t) !! k, seats t !! k with
      | Some [], Some (mkSeat _ 0) => Some t
      | Some (ODeliver _ :: _), Some (mkSeat (HJob _) n) => Some (with_seat k (mkSeat HSlot n) t)
      | _, _ => None
      end
  end.

(** waitAll returned to the run thread. *)
Definition wait_returns (c : nat) t : Threaded S :=
  match pc t with
  | RWaits c' => if decide (c = c') then with_pc (match deferredNodes with [] => RReturned | _ => RAwaits end) t else t
  | RWaitsAgain c' => if decide (c = c') then with_pc RChecks t else t
  | _ => t
  end.

Definition exec_move (x : M) t : option (Threaded S) :=
  '(s, e) ← ex_move x (exec t);
  with_exec s <$> match e with
                  | EReturns j => body_returns j t
                  | EWaitReturns c => Some (wait_returns c t)
                  | _ => Some t
                  end.

(** What the executor's answer to a submission adds to its jobs. *)
Definition accepts (x : M) t : option S :=
  match ex_move x (exec t) with Some (s, EAccept) => Some s | _ => None end.

(** startDeferred counts a slot in before it starts; only deferred jobs have one,
    and only a slot's outcome can be late. *)
Definition starts_slot (o : op) (ch : choice) (slot : bool) : bool :=
  match o, ch with
  | OInvoke i, (CAwait | CPending) => slot && bool_decide (i ∈ deferredNodes)
  | OInvoke i, CResult _ => negb slot || bool_decide (i ∈ deferredNodes)
  | _, _ => negb slot
  end.

Definition thread_move (k : nat) (ch : choice) (slot : bool) t : option (Threaded S) :=
  match threads (run t) !! k, seats t !! k with
  | Some (o :: rest), Some x =>
      if hosted x t && starts_slot o ch slot then
        match run_op ch o (ctx (run t)) with
        | Some (c, ops, []) =>
            Some (mkThreaded (exec t) {| ctx := c; threads := <[k := ops ++ rest]> (threads (run t)) |}
                    (<[k := mkSeat (host x) (owes x + if slot then 1 else 0)]> (seats t))
                    (deferredInFlight t + if slot then 1 else 0) (leaving t) (pc t))
        | _ => None
        end
      else None
  | _, _ => None
  end.

(** A submission the executor accepts: the task is its next job. *)
Definition dispatch_move (k : nat) (x : M) t : option (Threaded S) :=
  match threads (run t) !! k, seats t !! k with
  | Some (o :: rest), Some seat =>
      if hosted seat t then
        match run_op (CSubmit true) o (ctx (run t)) with
        | Some (c, ops, [task]) =>
            (fun s => mkThreaded s {| ctx := c; threads := <[k := ops ++ rest]> (threads (run t)) ++ [task] |}
              (seats t ++ [mkSeat (HJob (length (ex_jobs (exec t)))) 0]) (deferredInFlight t) (leaving t) (pc t))
            <$> accepts x t
        | _ => None
        end
      else None
  | _, _ => None
  end.

(** [deliverDeferred], once the slot's body has nothing more to do. *)
Definition deliver_move (k : nat) (x : option M) t : option (Threaded S) :=
  match threads (run t) !! k, seats t !! k with
  | Some (ODeliver _ :: _), Some (mkSeat (HJob _ | HSlot) n) =>
      match x with
      | Some x =>
          (fun s => mkThreaded s (run t) (<[k := mkSeat (HCont (length (ex_jobs (exec t)))) n]> (seats t))
             (deferredInFlight t + 1) (Datatypes.S (leaving t)) (pc t)) <$> accepts x t
      | None => Some (mkThreaded (exec t) (run t) (<[k := mkSeat HForeign (Datatypes.S n)]> (seats t))
                        (deferredInFlight t + 1) (leaving t) (pc t))
      end
  | _, _ => None
  end.

Definition leave_move t : option (Threaded S) :=
  match leaving t with
  | O => None
  | Datatypes.S n => Some (mkThreaded (exec t) (run t) (seats t) (deferredInFlight t - 1) n (pc t))
  end.

(** The decrement that ends [finishDeferred] or, refused, [deliverDeferred]. *)
Definition count_move (k : nat) t : option (Threaded S) :=
  match threads (run t) !! k, seats t !! k with
  | Some [], Some (mkSeat h (Datatypes.S n)) =>
      if hosted (mkSeat h (Datatypes.S n)) t
      then Some (mkThreaded (exec t) (run t) (<[k := mkSeat h n]> (seats t)) (deferredInFlight t - 1) (leaving t) (pc t))
      else None
  | _, _ => None
  end.

Definition wait_move (x : M) t : option (Threaded S) :=
  match ex_move x (exec t) with
  | Some (s, EWaitCalled c) =>
      match pc t, threads (run t) !! 0%nat with
      | RSubmits, Some [] => Some (with_exec s (with_pc (RWaits c) t))
      | RCalls, _ => Some (with_exec s (with_pc (RWaitsAgain c) t))
      | _, _ => None
      end
  | _ => None
  end.

Definition pass_move t : option (Threaded S) :=
  match pc t with
  | RAwaits => if deferredInFlight t =? 0 then Some (with_pc RCalls t) else None
  | _ => None
  end.
Definition check_move t : option (Threaded S) :=
  match pc t with
  | RChecks => Some (with_pc (if deferredInFlight t =? 0 then RReturned else RAwaits) t)
  | _ => None
  end.

Definition t_move (m : TMove M) t : option (Threaded S) :=
  match m with
  | MExec x => exec_move x t
  | MThread k ch slot => thread_move k ch slot t
  | MDispatch k x => dispatch_move k x t
  | MDeliver k x => deliver_move k x t
  | MLeave => leave_move t
  | MCount k => count_move k t
  | MWait x => wait_move x t
  | MPass => pass_move t
  | MCheck => check_move t
  end.
Fixpoint t_moves (l : list (TMove M)) t : option (Threaded S) :=
  match l with [] => Some t | m :: l => t ← t_move m t; t_moves l t end.
End threaded.
