(* ===== verification/ThreadedCorrect.v ===== *)
(** A threaded run on any executor that keeps the contract: it is one of the
    scheduler's runs, it returns only when that run is over, unless jobs are
    deferred, and on an executor that makes progress it always returns. *)
From S2P Require Import Prelude Types EdgeLists SuccessorPool Nodes Kahn Graph Pipeline Run Dispatch Scheduler SchedulerStep Termination RunCorrect ExecutorLaws Threaded.

(** A thread with a deferred job that has no outcome yet. *)
Definition late_op (o : op) : Prop := match o with OAwait _ | ODeliver _ => True | _ => False end.
Definition late (l : list op) : Prop := exists o, o ∈ l /\ late_op o.
Definition fresh (l : list op) : Prop := exists i, l = [ODispatchJob i].

Lemma run_op_spawns ch o c c' ops sp : run_op ch o c = Some (c', ops, sp) -> sp = [] \/ exists t, sp = [t] /\ fresh t.
Proof.
  intros H. destruct o; destruct ch; cbn in H; repeat (case_match; try done); simplify_eq; auto; right; eexists; split; try done; by eexists.
Qed.

Lemma run_op_late ch o c c' ops sp : run_op ch o c = Some (c', ops, sp) -> late ops ->
  late_op o \/ ((ch = CAwait \/ ch = CPending) /\ exists i, o = OInvoke i).
Proof.
  intros H (x & Hx & Hl).
  assert (Hn : Forall (fun y => ~ late_op y) ops \/ late_op o \/ ((ch = CAwait \/ ch = CPending) /\ exists i, o = OInvoke i)).
  { destruct o; destruct ch; cbn in H; unfold notifyDependencies in H; repeat (case_match; try done); simplify_eq; cbn;
      try (left; repeat constructor; by intros []); eauto 6. }
  destruct Hn as [Hn|Hn]; [|done]. rewrite Forall_forall in Hn. by destruct (Hn x Hx).
Qed.

(** ** A seat and its thread *)

Record seat_ok (jobs : list Phase) (tk : list op) (x : Seat) : Prop := {
  so_job : forall j, job_of (host x) = Some j -> exists ph, jobs !! j = Some ph /\
    (ph = JWaiting -> host x = HJob j -> fresh tk) /\ (ph = JReturned \/ ph = JCompleted -> tk = [] /\ owes x = 0%nat);
  so_late : late tk -> (0 < owes x)%nat;
  so_slot : host x = HSlot -> late tk;
}.

Lemma not_late_nil : ~ late [].
Proof. by intros (x & ?%elem_of_nil & _). Qed.

Lemma seat_ok_accept jobs tk x : seat_ok jobs tk x -> seat_ok (jobs ++ [JWaiting]) tk x.
Proof.
  intros [Hj Hl Hs]. split; [|done|done]. intros j Hx. destruct (Hj j Hx) as (ph & Hp & ?). exists ph.
  split; [by apply lookup_app_l_Some|done].
Qed.

Lemma seat_ok_advance a b j jobs jobs' tk x : seat_ok jobs tk x -> advance a b j jobs = Some jobs' -> b <> JWaiting ->
  (job_of (host x) = Some j -> b = JReturned \/ b = JCompleted -> tk = [] /\ owes x = 0%nat) -> seat_ok jobs' tk x.
Proof.
  intros [Hj Hl Hs] [Ha ->]%advance_lookup Hb Hend. split; [|done|done]. intros i Hx. destruct (Hj i Hx) as (ph & Hp & H1 & H2).
  destruct (decide (j = i)) as [<-|Hne].
  - exists b. split; [apply list_lookup_insert_eq; by eapply lookup_lt_Some|]. split; [done|]. by apply Hend.
  - exists ph. by rewrite list_lookup_insert_ne.
Qed.

Section threaded.
Context {S M : Type} `{IExecutor S M} (deferredNodes : list nat) (m : Impl).
Implicit Types t : Threaded S.
Abbreviation t_move := (t_move deferredNodes).

Record t_inv t : Prop := {
  ti_exec : ex_inv (exec t);
  ti_seats : Forall2 (seat_ok (ex_jobs (exec t))) (threads (run t)) (seats t);
  ti_unique : forall k1 k2 x1 x2 j, seats t !! k1 = Some x1 -> seats t !! k2 = Some x2 ->
    job_of (host x1) = Some j -> job_of (host x2) = Some j -> k1 = k2;
  ti_first : forall k x, seats t !! k = Some x -> host x = HRun <-> k = 0%nat;
  ti_count : deferredInFlight t = Z.of_nat (sum_list_with owes (seats t) + leaving t);
  ti_pc : pc t <> RSubmits -> threads (run t) !! 0%nat = Some [];
  ti_waits : forall c, pc t = RWaits c \/ pc t = RWaitsAgain c -> ex_waiting (exec t) c = true;
  ti_any : (0 < length (seats t))%nat;
}.

Lemma threaded_start_inv s : ex_inv s -> t_inv (start s m).
Proof.
  intros Hs. split; cbn; try done.
  - constructor; [|constructor]. split; try done. cbn. by intros (x & ->%list_elem_of_singleton & Hl).
  - intros k1 k2 x1 x2 j [_ <-]%list_lookup_singleton_Some. done.
  - by intros k x [-> <-]%list_lookup_singleton_Some.
  - by intros c [|].
  - lia.
Qed.

Lemma seat_at t k tk x : t_inv t -> threads (run t) !! k = Some tk -> seats t !! k = Some x -> seat_ok (ex_jobs (exec t)) tk x.
Proof. intros Hi. apply (Forall2_lookup_lr _ _ _ _ _ _ (ti_seats t Hi)). Qed.

Lemma seat_bound t k x j : t_inv t -> seats t !! k = Some x -> job_of (host x) = Some j -> (j < length (ex_jobs (exec t)))%nat.
Proof.
  intros Hi Hx Hj. destruct (Forall2_lookup_r _ _ _ _ _ (ti_seats t Hi) Hx) as (tk & Hk & Hok).
  destruct (so_job _ _ _ Hok j Hj) as (ph & Hp & _). by eapply lookup_lt_Some.
Qed.

(** ** What the executor does *)

Lemma exec_inv t x s e : t_inv t -> ex_move x (exec t) = Some (s, e) ->
  (forall j k tk y, e = EReturns j -> threads (run t) !! k = Some tk -> seats t !! k = Some y -> job_of (host y) = Some j -> tk = [] /\ owes y = 0%nat) ->
  (forall c, e = EWaitReturns c -> pc t <> RWaits c /\ pc t <> RWaitsAgain c) -> t_inv (with_exec s t).
Proof.
  intros Hi Hx Hr Hw. pose proof (ex_refines _ _ _ _ (ti_exec t Hi) Hx) as Hj. pose proof (fun c => ex_waits _ _ _ _ c (ti_exec t Hi) Hx) as Hwait.
  destruct Hi as [H1 H3 H4 H5 H6 H7 H8 H9]. split; cbn; try done; [by eapply ex_keeps| |].
  - apply Forall2_same_length_lookup in H3 as [Hlen H3]. apply Forall2_same_length_lookup. split; [done|].
    intros k tk y Hk Hy. pose proof (H3 k tk y Hk Hy) as Hok. destruct e as [| |j|j|j|c|c]; cbn in Hj.
    + by injection Hj as <-.
    + injection Hj as <-. by apply seat_ok_accept.
    + eapply seat_ok_advance; [done|exact Hj|done|by intros _ [|]].
    + eapply seat_ok_advance; [done|exact Hj|done|]. intros Hjob _. by eapply Hr.
    + eapply seat_ok_advance; [done|exact Hj|done|]. intros Hjob _. destruct (so_job _ _ _ Hok j Hjob) as (ph & Hp & _ & Hend).
      apply advance_lookup in Hj as [Hj _]. apply Hend. left. congruence.
    + by injection Hj as <-.
    + case_decide; [|done]. by injection Hj as <-.
  - intros c Hc. rewrite Hwait. specialize (H8 c Hc). destruct e as [| |j|j|j|c'|c']; cbn; try done; case_decide; try done.
    subst c'. destruct (Hw c eq_refl) as [? ?]. by destruct Hc.
Qed.

(** ** What one thread does *)

(** The thread and seat [k] become [tk'] and [x']. *)
Lemma update_inv t k tk x tk' x' r d n : t_inv t -> threads (run t) !! k = Some tk -> seats t !! k = Some x ->
  threads r = <[k := tk']> (threads (run t)) -> seat_ok (ex_jobs (exec t)) tk' x' ->
  (forall k2 x2 j, k2 <> k -> seats t !! k2 = Some x2 -> job_of (host x') = Some j -> job_of (host x2) <> Some j) ->
  (host x' = HRun <-> host x = HRun) -> (k = 0%nat -> pc t = RSubmits) ->
  d = Z.of_nat (sum_list_with owes (<[k := x']> (seats t)) + n) ->
  t_inv (mkThreaded (exec t) r (<[k := x']> (seats t)) d n (pc t)).
Proof.
  intros [H1 H3 H4 H5 H6 H7 H8 H9] Hk Hx Ht Hok Hu Hh H0 Hd.
  assert (Hl : forall j y, <[k := x']> (seats t) !! j = Some y -> (j = k /\ y = x') \/ (j <> k /\ seats t !! j = Some y)).
  { intros j y. destruct (decide (k = j)) as [<-|Hne]; [|by rewrite list_lookup_insert_ne by done; auto].
    rewrite list_lookup_insert_eq by (by eapply lookup_lt_Some). intros [= <-]. by left. }
  split; cbn; try done.
  - rewrite Ht. by apply Forall2_insert.
  - intros k1 k2 y1 y2 j [[-> ->]|[Hn1 Hy1]]%Hl [[-> ->]|[Hn2 Hy2]]%Hl Hj1 Hj2; [done|..].
    + by destruct (Hu k2 y2 j Hn2 Hy2 Hj1).
    + by destruct (Hu k1 y1 j Hn1 Hy1 Hj2).
    + by eapply H4.
  - intros k1 y [[-> ->]|[_ Hy]]%Hl; [|by apply H5]. rewrite Hh. by apply H5.
  - intros Hpc. rewrite Ht. destruct (decide (k = 0%nat)) as [->|Hne]; [by rewrite H0 in Hpc|].
    rewrite list_lookup_insert_ne by done. by apply H7.
  - by rewrite length_insert.
Qed.

(** The run starts a task on the executor's latest job. *)
Lemma append_inv t r task j : t_inv t -> threads r = threads (run t) ++ [task] -> fresh task ->
  ex_jobs (exec t) !! j = Some JWaiting -> (forall k x, seats t !! k = Some x -> job_of (host x) <> Some j) ->
  t_inv (mkThreaded (exec t) r (seats t ++ [mkSeat (HJob j) 0]) (deferredInFlight t) (leaving t) (pc t)).
Proof.
  intros [H1 H3 H4 H5 H6 H7 H8 H9] Ht Hf Hj Hu.
  assert (Hl : forall k y, (seats t ++ [mkSeat (HJob j) 0]) !! k = Some y -> seats t !! k = Some y \/ y = mkSeat (HJob j) 0 /\ k = length (seats t)).
  { intros k y [?|[Hn Hy]]%lookup_app_Some; [by left|]. apply list_lookup_singleton_Some in Hy as [Hz <-]. right. split; [done|lia]. }
  split; cbn; try done.
  - rewrite Ht. apply Forall2_app; [done|]. constructor; [|constructor]. split; cbn.
    + intros i [= <-]. exists JWaiting. repeat split; try done; naive_solver.
    + intros (x & Hx & Hl'). destruct Hf as [i ->]. by apply list_elem_of_singleton in Hx as ->.
    + done.
  - intros k1 k2 y1 y2 i [Hy1|[-> Hk1]]%Hl [Hy2|[-> Hk2]]%Hl Hj1 Hj2; [by eapply H4|..|by subst].
    + injection Hj2 as <-. by destruct (Hu k1 y1 Hy1).
    + injection Hj1 as <-. by destruct (Hu k2 y2 Hy2).
  - intros k y [Hy|[-> Hk]]%Hl; [by apply H5|]. split; [done|]. intros ->. lia.
  - rewrite sum_list_with_app. cbn. lia.
  - intros Hpc. rewrite Ht. apply lookup_app_l_Some. by apply H7.
  - rewrite length_app. lia.
Qed.

Lemma pc_inv t p : t_inv t -> (p <> RSubmits -> threads (run t) !! 0%nat = Some []) ->
  (forall c, p = RWaits c \/ p = RWaitsAgain c -> ex_waiting (exec t) c = true) -> t_inv (with_pc p t).
Proof. intros [H1 H3 H4 H5 H6 H7 H8 H9] Hp Hw. by split. Qed.

(** ** Every move keeps the invariant *)

Lemma one_step r k o rest ch c ops sp : threads r !! k = Some (o :: rest) -> run_op ch o (ctx r) = Some (c, ops, sp) ->
  step r {| ctx := c; threads := <[k := ops ++ rest]> (threads r) ++ sp |}.
Proof. intros Hk Hr. exists k, ch. unfold step_thread. by rewrite Hk, Hr. Qed.

Lemma seat_of_None j t k x : seat_of j t = None -> seats t !! k = Some x -> job_of (host x) <> Some j.
Proof. unfold seat_of. intros H1%fmap_None%list_find_None Hx. rewrite Forall_lookup in H1. by apply (H1 k). Qed.
Lemma seat_of_Some j t k : seat_of j t = Some k -> exists x, seats t !! k = Some x /\ job_of (host x) = Some j.
Proof. unfold seat_of. intros ([k' x] & (H1 & H2 & _)%list_find_Some & ->)%fmap_Some. by exists x. Qed.

Lemma late_head o rest : late_op o -> late (o :: rest).
Proof. intros Ho. exists o. split; [by left|done]. Qed.

Lemma body_returns_inv t x s j t' : t_inv t -> ex_move x (exec t) = Some (s, EReturns j) -> body_returns j t = Some t' -> t_inv (with_exec s t').
Proof.
  intros Hi Hx H1. unfold body_returns in H1. destruct (seat_of j t) as [k|] eqn:Es.
  - apply seat_of_Some in Es as (y & Hy & Hj).
    rewrite Hy in H1. destruct (threads (run t) !! k) as [tk|] eqn:Hk; [|by destruct y].
    assert (Hu : forall k2 x2 i, k2 <> k -> seats t !! k2 = Some x2 -> job_of (host x2) = Some i -> Some i <> Some j).
    { intros k2 x2 i Hne Hx2 Hi2 [= ->]. apply Hne. by eapply (ti_unique t Hi). }
    destruct tk as [|o tk]; [|destruct y as [h n]; destruct o; try done; destruct h as [|j'| | |]; try done].
    + destruct y as [h [|n]]; [|done]. injection H1 as <-. eapply exec_inv; [done|done|..|done].
      intros i k' tk' y' [= <-] Hk' Hy' Hj'. assert (k' = k) as -> by (by eapply (ti_unique t Hi)). by simplify_eq.
    + injection H1 as <-. eapply exec_inv; [|exact Hx|..|done].
      * eapply (update_inv t k _ _ _ (mkSeat HSlot n) (run t)); try done; [by rewrite list_insert_id| | |].
        -- pose proof (seat_at _ _ _ _ Hi Hk Hy) as [_ Hl _]. split; [done|exact Hl|]. intros _. by apply late_head.
        -- intros ->. by pose proof (proj2 (ti_first t Hi _ _ Hy) eq_refl).
        -- rewrite (ti_count t Hi). pose proof (sum_list_insert owes _ _ _ (mkSeat HSlot n) Hy) as Hs. cbn in Hs. lia.
      * intros i2 k' tk' y' [= <-] Hk' Hy' Hj'. cbn in Hy'. destruct (decide (k = k')) as [<-|Hne].
        -- rewrite list_lookup_insert_eq in Hy' by (by eapply lookup_lt_Some). by injection Hy' as <-.
        -- rewrite list_lookup_insert_ne in Hy' by done. by destruct (Hu k' y' j).
  - injection H1 as <-. eapply exec_inv; [done|done|..|done]. intros i k tk y [= <-] _ Hy Hj. by destruct (seat_of_None j t k y Es Hy).
Qed.

Lemma wait_returns_inv t c : t_inv t -> t_inv (wait_returns deferredNodes c t) /\
  exec (wait_returns deferredNodes c t) = exec t /\ pc (wait_returns deferredNodes c t) <> RWaits c /\ pc (wait_returns deferredNodes c t) <> RWaitsAgain c.
Proof.
  intros Hi. unfold wait_returns. destruct (pc t) as [|c'| | |c'| |] eqn:Ep; try done; try (by rewrite Ep).
  - case_decide as Hc; [|by rewrite Ep; split_and!; congruence]. assert (H0 : threads (run t) !! 0%nat = Some []) by (apply (ti_pc t Hi); congruence).
    split_and!; try done; [|by destruct deferredNodes..]. apply pc_inv; [done|done|]. intros d Hd. by destruct deferredNodes, Hd.
  - case_decide as Hc; [|by rewrite Ep; split_and!; congruence]. assert (H0 : threads (run t) !! 0%nat = Some []) by (apply (ti_pc t Hi); congruence).
    split_and!; try done. apply pc_inv; [done|done|]. by intros d [|].
Qed.

Lemma exec_move_inv t x t' : t_inv t -> exec_move deferredNodes x t = Some t' -> t_inv t'.
Proof.
  intros Hi H1. unfold exec_move in H1. apply bind_Some in H1 as ([s e] & Hx & H1). apply fmap_Some in H1 as (t1 & H1 & ->).
  destruct e as [| |j|j|j|c|c]; try (injection H1 as <-; by eapply exec_inv).
  - by eapply body_returns_inv.
  - injection H1 as <-. destruct (wait_returns_inv t c Hi) as (Hi1 & He & Hp1 & Hp2).
    eapply exec_inv; [exact Hi1|by rewrite He|done|]. by intros d [= <-].
Qed.

Lemma hosted_running t k x : t_inv t -> seats t !! k = Some x -> hosted x t = true ->
  (host x = HRun /\ k = 0%nat /\ pc t = RSubmits) \/
  (k <> 0%nat /\ host x <> HRun /\ host x <> HSlot /\ forall j, job_of (host x) = Some j -> ex_jobs (exec t) !! j = Some JRunning).
Proof.
  intros Hi Hx Hh. pose proof (ti_first t Hi k x Hx) as H0. unfold hosted in Hh. destruct (host x) as [|j| |j|] eqn:Eh; try done.
  - left. split_and!; [done|by apply H0|]. by destruct (pc t).
  - right. apply bool_decide_eq_true in Hh. split_and!; try done; [by intros ?%H0|]. by intros i [= <-].
  - right. apply bool_decide_eq_true in Hh. split_and!; try done; [by intros ?%H0|]. by intros i [= <-].
  - right. split_and!; try done. by intros ?%H0.
Qed.

Lemma starts_late o ch slot : starts_slot deferredNodes o ch slot = true -> (ch = CAwait \/ ch = CPending) -> (exists i, o = OInvoke i) -> slot = true.
Proof. intros Hs Hch [i ->]. by destruct Hch as [-> | ->], slot. Qed.

Lemma thread_move_inv t k ch slot t' : t_inv t -> thread_move deferredNodes k ch slot t = Some t' -> t_inv t' /\ step (run t) (run t').
Proof.
  intros Hi H1. unfold thread_move in H1. destruct (threads (run t) !! k) as [[|o rest]|] eqn:Hk; try done.
  destruct (seats t !! k) as [x|] eqn:Hx; [|done]. destruct (hosted x t) eqn:Hh; [|done].
  destruct (starts_slot deferredNodes o ch slot) eqn:Hslot; [|done]. cbn in H1.
  destruct (run_op ch o (ctx (run t))) as [[[c ops] [|]]|] eqn:Er; try done. injection H1 as <-.
  pose proof (one_step _ _ _ _ _ _ _ _ Hk Er) as Hstep. rewrite app_nil_r in Hstep. split; [|exact Hstep].
  pose proof (seat_at _ _ _ _ Hi Hk Hx) as [Hj Hl Hs]. pose proof (hosted_running t k x Hi Hx Hh) as Hrun.
  apply (update_inv t k _ _ (ops ++ rest) _ _ _ _ Hi Hk Hx); [done|..].
  - split; cbn.
    + intros j Hjob. destruct Hrun as [(E & _)|(_ & _ & _ & Hr)]; [by rewrite E in Hjob|]. exists JRunning.
      split; [by apply Hr|]. split; [done|]. by intros [|].
    + intros (y & [Hy|Hy]%elem_of_app & Hlate).
      * destruct (run_op_late _ _ _ _ _ _ Er) as [Ho|[Hch Ho]]; [by exists y|..].
        -- specialize (Hl (late_head _ _ Ho)). lia.
        -- rewrite (starts_late _ _ _ Hslot Hch Ho). lia.
      * assert (Hl' : late (o :: rest)) by (exists y; split; [by right|done]). specialize (Hl Hl'). lia.
    + intros E. by destruct Hrun as [(E' & _)|(_ & _ & Hn & _)]; [rewrite E' in E|].
  - intros k2 x2 j Hne Hx2 Hj1 Hj2. apply Hne. by eapply (ti_unique t Hi).
  - done.
  - intros ->. by destruct Hrun as [(_ & _ & ?)|[? _]].
  - rewrite (ti_count t Hi). pose proof (sum_list_insert owes _ _ _ (mkSeat (host x) (owes x + if slot then 1 else 0)) Hx) as Hsum.
    cbn in Hsum. destruct slot; lia.
Qed.

Lemma accepts_inv t x s : t_inv t -> accepts x t = Some s -> t_inv (with_exec s t) /\ ex_jobs s = ex_jobs (exec t) ++ [JWaiting].
Proof.
  intros Hi H1. unfold accepts in H1. destruct (ex_move x (exec t)) as [[s' e]|] eqn:Hx; [|done]. destruct e; try done. injection H1 as <-.
  split; [by eapply exec_inv|]. pose proof (ex_refines _ _ _ _ (ti_exec t Hi) Hx) as Hj. by injection Hj as <-.
Qed.

(** The executor's next job is nobody's body yet. *)
Lemma next_job_free t k x : t_inv t -> seats t !! k = Some x -> job_of (host x) <> Some (length (ex_jobs (exec t))).
Proof. intros Hi Hx Hj. pose proof (seat_bound _ _ _ _ Hi Hx Hj). lia. Qed.

Lemma dispatch_move_inv t k x t' : t_inv t -> dispatch_move k x t = Some t' -> t_inv t' /\ step (run t) (run t').
Proof.
  intros Hi H1. unfold dispatch_move in H1. destruct (threads (run t) !! k) as [[|o rest]|] eqn:Hk; try done.
  destruct (seats t !! k) as [y|] eqn:Hx; [|done]. destruct (hosted y t) eqn:Hh; [|done].
  destruct (run_op _ o _) as [[[c ops] [|task [|]]]|] eqn:Er; try done. apply fmap_Some in H1 as (s & Hacc & ->).
  pose proof (one_step _ _ _ _ _ _ _ _ Hk Er) as Hstep. split; [|exact Hstep].
  destruct (run_op_spawns _ _ _ _ _ _ Er) as [|(? & [= <-] & Hfresh)]; [done|].
  destruct (accepts_inv t x s Hi Hacc) as [Hi1 Hj]. set (n := length (ex_jobs (exec t))).
  pose proof (seat_at _ _ _ _ Hi1 Hk Hx) as [Hok Hl Hs]. pose proof (hosted_running t k y Hi Hx Hh) as Hrun.
  assert (Hseat : seat_ok (ex_jobs s) (ops ++ rest) y).
  { split.
    - intros j Hjob. destruct Hrun as [(E & _)|(_ & _ & _ & Hr)]; [by rewrite E in Hjob|]. exists JRunning.
      split; [rewrite Hj; apply lookup_app_l_Some; by apply Hr|]. split; [done|]. by intros [|].
    - intros (z & [Hz|Hz]%elem_of_app & Hlate).
      + destruct (run_op_late _ _ _ _ _ _ Er) as [Ho|[Hch Ho]]; [by exists z|..|by destruct Hch].
        apply Hl. by apply late_head.
      + apply Hl. exists z. split; [by right|done].
    - intros E. by destruct Hrun as [(E' & _)|(_ & _ & Hn & _)]; [rewrite E' in E|]. }
  assert (Hi2 : t_inv (mkThreaded s {| ctx := c; threads := <[k := ops ++ rest]> (threads (run t)) |} (<[k := y]> (seats t))
                      (deferredInFlight t) (leaving t) (pc t))).
  { apply (update_inv (with_exec s t) k _ _ (ops ++ rest) _ {| ctx := c; threads := <[k := ops ++ rest]> (threads (run t)) |} _ _ Hi1 Hk Hx);
      [done|done| |done| |].
    - intros k2 x2 j Hne Hx2 Hj1 Hj2. apply Hne. by eapply (ti_unique t Hi).
    - intros ->. by destruct Hrun as [(_ & _ & ?)|[? _]].
    - cbn. rewrite list_insert_id by done. apply (ti_count t Hi). }
  rewrite (list_insert_id (seats t) k y Hx) in Hi2.
  apply (append_inv _ {| ctx := c; threads := <[k := ops ++ rest]> (threads (run t)) ++ [task] |} task n Hi2); cbn; try done.
  - rewrite Hj. by apply list_lookup_middle.
  - intros k2 x2 Hx2. by eapply next_job_free.
Qed.

Lemma deliver_move_inv t k x t' : t_inv t -> deliver_move k x t = Some t' -> t_inv t' /\ run t' = run t.
Proof.
  intros Hi H1. unfold deliver_move in H1. destruct (threads (run t) !! k) as [[|o rest]|] eqn:Hk; try done.
  destruct o; try done. destruct (seats t !! k) as [[h n]|] eqn:Hx; [|done].
  assert (H2 : h <> HRun /\ match x with
      | Some x => (fun s => mkThreaded s (run t) (<[k := mkSeat (HCont (length (ex_jobs (exec t)))) n]> (seats t))
                     (deferredInFlight t + 1) (Datatypes.S (leaving t)) (pc t)) <$> accepts x t
      | None => Some (mkThreaded (exec t) (run t) (<[k := mkSeat HForeign (Datatypes.S n)]> (seats t)) (deferredInFlight t + 1) (leaving t) (pc t))
      end = Some t') by (by destruct h). clear H1. destruct H2 as [Hnr H1].
  assert (Hk0 : k <> 0%nat) by (intros ->; apply Hnr; by apply (ti_first t Hi _ _ Hx)).
  pose proof (late_head (ODeliver i) rest I) as Hlate.
  destruct x as [x|].
  - apply fmap_Some in H1 as (s & Hacc & ->). split; [|done]. destruct (accepts_inv t x s Hi Hacc) as [Hi1 Hj].
    pose proof (seat_at _ _ _ _ Hi1 Hk Hx) as [_ Hl _]. cbn in Hl.
    apply (update_inv (with_exec s t) k _ _ (ODeliver i :: rest) (mkSeat (HCont (length (ex_jobs (exec t)))) n) _ _ _ Hi1 Hk Hx);
      [by rewrite list_insert_id| | |done|done|].
    + split; [|done|done]. intros j [= <-]. exists JWaiting. cbn. rewrite Hj. split; [by apply list_lookup_middle|]. split; [done|]. by intros [|].
    + intros k2 x2 j _ Hx2 [= <-]. by eapply next_job_free.
    + cbn. rewrite (ti_count t Hi). pose proof (sum_list_insert owes _ _ _ (mkSeat (HCont (length (ex_jobs (exec t)))) n) Hx) as Hs. cbn in Hs. lia.
  - injection H1 as <-. split; [|done]. pose proof (seat_at _ _ _ _ Hi Hk Hx) as [_ Hl _]. cbn in Hl.
    apply (update_inv t k _ _ (ODeliver i :: rest) (mkSeat HForeign (Datatypes.S n)) _ _ _ Hi Hk Hx);
      [by rewrite list_insert_id| |done|done|done|].
    + split; [done|cbn; lia|done].
    + cbn. rewrite (ti_count t Hi). pose proof (sum_list_insert owes _ _ _ (mkSeat HForeign (Datatypes.S n)) Hx) as Hs. cbn in Hs. lia.
Qed.

Lemma count_move_inv t k t' : t_inv t -> count_move k t = Some t' -> t_inv t' /\ run t' = run t.
Proof.
  intros Hi H1. unfold count_move in H1. destruct (threads (run t) !! k) as [[|]|] eqn:Hk; try done.
  destruct (seats t !! k) as [[h [|n]]|] eqn:Hx; try done. destruct (hosted _ t) eqn:Hh; [|done]. injection H1 as <-.
  split; [|done]. pose proof (hosted_running t k _ Hi Hx Hh) as Hrun.
  apply (update_inv t k _ _ [] (mkSeat h n) _ _ _ Hi Hk Hx); [by rewrite list_insert_id| | |done| |].
  - split; [|by intros ?%not_late_nil|].
    + intros j Hjob. destruct Hrun as [(E & _)|(_ & _ & _ & Hr)]; [cbn in *; by subst h|]. exists JRunning.
      split; [by apply Hr|]. split; [done|]. by intros [|].
    + cbn. intros ->. by destruct Hrun as [(? & _)|(_ & _ & ? & _)].
  - intros k2 x2 j Hne Hx2 Hj1 Hj2. apply Hne. by eapply (ti_unique t Hi).
  - intros ->. by destruct Hrun as [(_ & _ & ?)|[? _]].
  - rewrite (ti_count t Hi). pose proof (sum_list_insert owes _ _ _ (mkSeat h n) Hx) as Hs. cbn in Hs. lia.
Qed.

Lemma wait_move_inv t x t' : t_inv t -> wait_move x t = Some t' -> t_inv t' /\ run t' = run t.
Proof.
  intros Hi H1. unfold wait_move in H1. destruct (ex_move x (exec t)) as [[s e]|] eqn:Hx; [|done]. destruct e as [| | | | |c|]; try done.
  assert (Hi1 : t_inv (with_exec s t)) by (by eapply exec_inv).
  pose proof (ex_waits _ _ _ _ c (ti_exec t Hi) Hx) as Hc. cbn in Hc. rewrite decide_True in Hc by done.
  destruct (pc t) eqn:Ep; try done.
  - destruct (threads (run t) !! 0%nat) as [[|]|] eqn:H0; try done. injection H1 as <-. split; [|done].
    apply (pc_inv (with_exec s t)); [done|done|]. by intros c' [[= <-]|].
  - injection H1 as <-. split; [|done]. apply (pc_inv (with_exec s t)); [done|intros _; apply (ti_pc t Hi); congruence|].
    by intros c' [|[= <-]].
Qed.

Lemma t_move_inv t a t' : t_inv t -> t_move a t = Some t' -> t_inv t' /\ (run t' = run t \/ step (run t) (run t')).
Proof.
  intros Hi H1. destruct a as [x|k ch slot|k x|k x| |k|x| |]; cbn in H1.
  - split; [by eapply exec_move_inv|left]. unfold exec_move in H1. apply bind_Some in H1 as ([s e] & Hx & H1).
    apply fmap_Some in H1 as (t1 & H1 & ->). cbn. destruct e as [| |j|j|j|c|c]; try (by injection H1 as <-).
    + unfold body_returns in H1. repeat (case_match; try done); by injection H1 as <-.
    + injection H1 as <-. unfold wait_returns. repeat (case_match; try done).
  - destruct (thread_move_inv t k ch slot t' Hi H1). auto.
  - destruct (dispatch_move_inv t k x t' Hi H1). auto.
  - destruct (deliver_move_inv t k x t' Hi H1). auto.
  - unfold leave_move in H1. destruct (leaving t) as [|n] eqn:El; [done|]. injection H1 as <-. split; [|by left].
    destruct Hi as [H1 H3 H4 H5 H6 H7 H8 H9]. split; cbn; try done. rewrite H6, El. lia.
  - destruct (count_move_inv t k t' Hi H1). auto.
  - destruct (wait_move_inv t x t' Hi H1). auto.
  - unfold pass_move in H1. destruct (pc t) eqn:Ep; try done. destruct (_ =? _); [|done]. injection H1 as <-. split; [|by left].
    apply pc_inv; [done|intros _; apply (ti_pc t Hi); congruence|by intros c [|]].
  - unfold check_move in H1. destruct (pc t) eqn:Ep; try done. injection H1 as <-. split; [|by left].
    apply pc_inv; [done|intros _; apply (ti_pc t Hi); congruence|]. by destruct (_ =? _); intros c [|].
Qed.

Lemma t_moves_inv l t t' : t_inv t -> t_moves deferredNodes l t = Some t' -> t_inv t' /\ rtc step (run t) (run t').
Proof.
  revert t. induction l as [|a l IH]; intros t Hi H1; [injection H1 as <-; by split|].
  cbn in H1. apply bind_Some in H1 as (t1 & H1 & H2). destruct (t_move_inv _ _ _ Hi H1) as [Hi1 Hr].
  destruct (IH t1 Hi1 H2) as [Hi2 Hr2]. split; [done|]. destruct Hr as [<-|Hr]; [done|]. by eapply rtc_l.
Qed.

End threaded.

(** ** Runs without deferred jobs *)

Section plain.
Context {S M : Type} `{IExecutor S M} (m : Impl).
Implicit Types t : Threaded S.

Record plain_inv t : Prop := {
  pi_inv : t_inv t;
  pi_seats : forall k x, seats t !! k = Some x -> owes x = 0%nat /\ (k <> 0%nat -> exists j, host x = HJob j);
  pi_leaving : leaving t = 0%nat;
  pi_pc : pc t = RSubmits \/ (exists c, pc t = RWaits c) \/ pc t = RReturned;
  pi_done : pc t = RReturned -> quiescent (run t);
}.

Lemma start_plain s : ex_inv s -> plain_inv (start s m).
Proof.
  intros Hs. split; cbn; try done; [by apply threaded_start_inv| |by left].
  by intros k x [-> <-]%list_lookup_singleton_Some.
Qed.

Lemma plain_late t k tk : plain_inv t -> threads (run t) !! k = Some tk -> ~ late tk.
Proof.
  intros Hp Hk Hl. destruct (Forall2_lookup_l _ _ _ _ _ (ti_seats t (pi_inv t Hp)) Hk) as (x & Hx & Hok).
  pose proof (so_late _ _ _ Hok Hl). pose proof (proj1 (pi_seats t Hp k x Hx)). lia.
Qed.

(** When every job is complete and the root loop is over, nothing is left. *)
Lemma all_complete_quiescent t : plain_inv t -> threads (run t) !! 0%nat = Some [] ->
  Forall (fun x => x = JCompleted) (ex_jobs (exec t)) -> quiescent (run t).
Proof.
  intros Hp H0 Hc. apply Forall_lookup. intros k tk Hk. destruct (decide (k = 0%nat)) as [->|Hne]; [congruence|].
  destruct (Forall2_lookup_l _ _ _ _ _ (ti_seats t (pi_inv t Hp)) Hk) as (x & Hx & Hok).
  destruct (proj2 (pi_seats t Hp k x Hx) Hne) as [j Hj]. destruct (so_job _ _ _ Hok j) as (ph & Hph & _ & Hend); [by rewrite Hj|].
  apply Hend. right. rewrite Forall_lookup in Hc. by apply (Hc j).
Qed.

Lemma plain_exec t x t' : plain_inv t -> exec_move [] x t = Some t' -> plain_inv t' /\ run t' = run t /\
  (pc t' = pc t \/ (pc t' = RReturned /\ exists c, pc t = RWaits c)) /\ exists s e, ex_move x (exec t) = Some (s, e) /\ exec t' = s.
Proof.
  intros Hp H1. pose proof (exec_move_inv [] _ _ _ (pi_inv t Hp) H1) as Hi'. unfold exec_move in H1.
  apply bind_Some in H1 as ([s e] & Hx & H1). apply fmap_Some in H1 as (t1 & H1 & ->).
  assert (Hsame : t1 = t -> plain_inv (with_exec s t1) /\ run (with_exec s t1) = run t /\
    (pc (with_exec s t1) = pc t \/ (pc (with_exec s t1) = RReturned /\ exists c, pc t = RWaits c)) /\
    exists s0 e0, ex_move x (exec t) = Some (s0, e0) /\ exec (with_exec s t1) = s0).
  { intros ->. destruct Hp as [H2 H3 H4 H5 H6]. split_and!; [by split|done|by left|by exists s, e]. }
  destruct e as [| |j|j|j|c|c]; try (by injection H1 as <-; apply Hsame).
  - apply Hsame. unfold body_returns in H1. destruct (seat_of j t) as [k|]; [|by injection H1].
    destruct (threads (run t) !! k) as [[|o rest]|] eqn:Hk; repeat (case_match; try done); simplify_eq; try done.
    exfalso. eapply plain_late; [done|exact Hk|]. by apply late_head.
  - injection H1 as <-. unfold wait_returns in *. destruct (pi_pc t Hp) as [E|[[c' E]|E]]; rewrite E in *; try by apply Hsame.
    case_decide as Hc; [subst c'|by apply Hsame]. split_and!; [|done|right; by eauto|by exists s, (EWaitReturns c)].
    pose proof (ex_refines _ _ _ _ (ti_exec t (pi_inv t Hp)) Hx) as Hj. cbn in Hj. case_decide as Hall; [|done].
    destruct Hp as [H2 H3 H4 H5 H6]. split; try done; [cbn; auto|]. intros _. cbn.
    apply (all_complete_quiescent t); [by split|by apply (ti_pc t H2); congruence|done].
Qed.

Lemma plain_slot o ch slot : starts_slot [] o ch slot = true -> slot = false /\ (forall i, o = OInvoke i -> prompt ch).
Proof. destruct o, ch, slot; cbn; try done; intros _; split; try done; by intros j [= ->]. Qed.

Lemma quiescent_at r k o rest : quiescent r -> threads r !! k = Some (o :: rest) -> False.
Proof. intros Hq Hk. unfold quiescent in Hq. rewrite Forall_lookup in Hq. by specialize (Hq k _ Hk). Qed.

Definition rank (p : RunPc) : nat := match p with RSubmits => 2 | RReturned => 0 | _ => 1 end.

(** What a move brings closer to the end: a step of the run, the run thread, or the
    executor. *)
Definition nearer (a : TMove M) t t' : Prop :=
  step (run t) (run t') \/ (run t' = run t /\ (rank (pc t') < rank (pc t))%nat) \/
  (run t' = run t /\ pc t' = pc t /\ exists x e, a = MExec x /\ ex_move x (exec t) = Some (exec t', e)).

Lemma plain_running t k o rest : plain_inv t -> threads (run t) !! k = Some (o :: rest) -> pc t <> RReturned.
Proof. intros Hp Hk E. by eapply quiescent_at; [apply (pi_done t Hp)|]. Qed.

Lemma plain_thread t k ch slot t' : plain_inv t -> thread_move [] k ch slot t = Some t' -> plain_inv t' /\ step (run t) (run t').
Proof.
  intros Hp H1. destruct (thread_move_inv [] t k ch slot t' (pi_inv t Hp) H1) as [Hi' Hstep]. split; [|done].
  unfold thread_move in H1. destruct (threads (run t) !! k) as [[|o rest]|] eqn:Hk; try done.
  destruct (seats t !! k) as [x|] eqn:Hx; [|done]. destruct (hosted x t); [|done].
  destruct (starts_slot [] o ch slot) eqn:Hslot; [|done]. apply plain_slot in Hslot as [-> _]. cbn in H1.
  destruct (run_op ch o _) as [[[c ops] [|]]|]; try done. injection H1 as <-.
  pose proof (plain_running _ _ _ _ Hp Hk) as Hpc. destruct Hp as [H2 H3 H4 H5 H6]. split; try done.
  intros i y Hy. cbn in Hy. destruct (decide (k = i)) as [<-|Hne]; [|rewrite list_lookup_insert_ne in Hy by done; by apply H3].
  rewrite list_lookup_insert_eq in Hy by (by eapply lookup_lt_Some). injection Hy as <-. cbn. rewrite Nat.add_0_r. by apply (H3 k).
Qed.

Lemma plain_dispatch t k x t' : plain_inv t -> dispatch_move k x t = Some t' -> plain_inv t' /\ step (run t) (run t').
Proof.
  intros Hp H1. destruct (dispatch_move_inv t k x t' (pi_inv t Hp) H1) as [Hi' Hstep]. split; [|done].
  unfold dispatch_move in H1. destruct (threads (run t) !! k) as [[|o rest]|] eqn:Hk; try done.
  destruct (seats t !! k) as [y|] eqn:Hx; [|done]. destruct (hosted y t); [|done].
  destruct (run_op _ o _) as [[[c ops] [|task [|]]]|]; try done. apply fmap_Some in H1 as (s & _ & ->).
  pose proof (plain_running _ _ _ _ Hp Hk) as Hpc. destruct Hp as [H2 H3 H4 H5 H6]. split; try done.
  intros i z [Hz|[Hn Hz]]%lookup_app_Some; [by apply H3|]. apply list_lookup_singleton_Some in Hz as [_ <-]. by eauto.
Qed.

Lemma threaded_plain_step t a t' : plain_inv t -> Threaded.t_move [] a t = Some t' -> plain_inv t' /\ nearer a t t'.
Proof.
  intros Hp H1. pose proof (t_move_inv [] _ _ _ (pi_inv t Hp) H1) as [Hi' _]. destruct a as [x|k ch slot|k x|k x| |k|x| |]; cbn in H1.
  - destruct (plain_exec t x t' Hp H1) as (Hp' & Hr & Hpc & s & e & Hx & <-). split; [done|]. right.
    destruct Hpc as [Hpc|[Hpc [c Hc]]]; [right; eauto 7|left; split; [done|]; rewrite Hpc, Hc; cbn; lia].
  - destruct (plain_thread t k ch slot t' Hp H1). split; [done|by left].
  - destruct (plain_dispatch t k x t' Hp H1). split; [done|by left].
  - exfalso. unfold deliver_move in H1. destruct (threads (run t) !! k) as [[|o rest]|] eqn:Hk; try done.
    destruct o; try done. eapply plain_late; [done|exact Hk|]. by apply late_head.
  - unfold leave_move in H1. by rewrite (pi_leaving t Hp) in H1.
  - exfalso. unfold count_move in H1. destruct (threads (run t) !! k) as [[|]|]; try done.
    destruct (seats t !! k) as [[h [|n]]|] eqn:Hx; try done. by destruct (pi_seats t Hp k _ Hx).
  - unfold wait_move in H1. destruct (ex_move x (exec t)) as [[s []]|]; try done.
    destruct (pi_pc t Hp) as [E|[[c' E]|E]]; rewrite E in H1; try done.
    destruct (threads (run t) !! 0%nat) as [[|]|]; try done. injection H1 as <-.
    split; [|right; left; split; [done|]; rewrite E; cbn; lia]. destruct Hp as [H2 H3 H4 H5 H6]. split; try done. cbn. eauto.
  - unfold pass_move in H1. by destruct (pi_pc t Hp) as [E|[[c' E]|E]]; rewrite E in H1.
  - unfold check_move in H1. by destruct (pi_pc t Hp) as [E|[[c' E]|E]]; rewrite E in H1.
Qed.

Lemma plain_moves l t t' : plain_inv t -> t_moves [] l t = Some t' -> plain_inv t'.
Proof.
  revert t. induction l as [|a l IH]; intros t Hp H1; [by injection H1 as <-|].
  cbn in H1. apply bind_Some in H1 as (t1 & H1 & H2). eapply IH; [|exact H2]. by eapply threaded_plain_step.
Qed.
End plain.

(** ** On an executor that makes progress *)

Section live.
Context {S M : Type} `{LiveExecutor S M} (m : Impl) (Hm : start_ok m).
Implicit Types t : Threaded S.

(** Moves that need nobody else: the run's threads, the run thread, the executor. *)
Definition own (a : TMove M) : bool := match a with MExec x => ex_own x | _ => true end.
Definition own_step t t' : Prop := exists a, own a = true /\ Threaded.t_move [] a t = Some t'.
Definition live_inv t : Prop := plain_inv t /\ exists owed, inv m owed (run t).

Lemma live_keeps t a t' : live_inv t -> Threaded.t_move [] a t = Some t' -> live_inv t' /\
  ((measure m (run t') < measure m (run t))%nat \/ (run t' = run t /\ (rank (pc t') < rank (pc t))%nat) \/
   (run t' = run t /\ pc t' = pc t /\ exists x e, a = MExec x /\ ex_move x (exec t) = Some (exec t', e))).
Proof.
  intros [Hp [owed Hi]] H1. destruct (threaded_plain_step _ _ _ Hp H1) as [Hp' Hn].
  destruct Hn as [Hs|[[Hr Hk]|(Hr & Hrest)]].
  - destruct (step_keeps_inv m owed _ _ Hm Hi Hs) as (owed' & Hi' & Hlt). split; [split; [done|by exists owed']|by left].
  - split; [split; [done|exists owed; by rewrite Hr]|auto].
  - split; [split; [done|exists owed; by rewrite Hr]|auto].
Qed.

(** Three nested inductions: on the run's measure, on the run thread's place and on
    the executor's own steps. *)
Lemma own_halts t : live_inv t -> sn own_step t.
Proof.
  remember (measure m (run t)) as n eqn:En. revert t En. induction (lt_wf n) as [n _ IHn]. intros t En.
  remember (rank (pc t)) as q eqn:Eq. revert t En Eq. induction (lt_wf q) as [q _ IHq]. intros t En Eq Hl.
  assert (Hsn : sn (fun s s' => exists e, ex_inner s e s') (exec t)) by (apply ex_halts, (ti_exec t (pi_inv t (proj1 Hl)))).
  remember (exec t) as s eqn:Es. revert t En Eq Hl Es. induction Hsn as [s _ IHs]. intros t En Eq Hl Es.
  constructor. intros t' (a & Ho & H1). destruct (live_keeps _ _ _ Hl H1) as [Hl' [Hlt|[[Hr Hk]|(Hr & Hpc & x & e & -> & Hx)]]].
  - eapply IHn; [|reflexivity|done]. by rewrite En.
  - eapply IHq; [|by rewrite Hr|reflexivity|done]. by rewrite Eq.
  - eapply (IHs (exec t')); [|by rewrite Hr|by rewrite Hpc|done|done]. exists e, x. split; [done|]. by rewrite Es.
Qed.

Lemma body_blocked t j : plain_inv t -> body_returns j t = None -> exists k x o rest,
  seats t !! k = Some x /\ job_of (host x) = Some j /\ threads (run t) !! k = Some (o :: rest).
Proof.
  intros Hp H1. unfold body_returns in H1. destruct (seat_of j t) as [k|] eqn:Es; [|done].
  apply seat_of_Some in Es as (x & Hx & Hj). rewrite Hx in H1. exists k, x.
  destruct (Forall2_lookup_r _ _ _ _ _ (ti_seats t (pi_inv t Hp)) Hx) as (tk & Hk & _). rewrite Hk in H1.
  destruct tk as [|o rest]; [|by exists o, rest]. destruct (pi_seats t Hp k x Hx) as [Ho _]. destruct x as [h n]. cbn in Ho. by subst n.
Qed.

(** A thread with work left that something executes, or the holder of the lock it
    waits for, moves. *)
Lemma thread_moves t k o rest x : live_inv t -> threads (run t) !! k = Some (o :: rest) -> seats t !! k = Some x ->
  hosted x t = true -> exists t', own_step t t'.
Proof.
  intros [Hp [owed Hi]] Hk Hx Hh. destruct (some_mover _ _ _ _ _ _ Hi Hk) as (k' & o' & rest' & Hk' & Hwho & Hlock).
  assert (Hy : exists y, seats t !! k' = Some y /\ hosted y t = true).
  { destruct Hwho as [->|Hcs]; [by exists x|].
    destruct (Forall2_lookup_l _ _ _ _ _ (ti_seats t (pi_inv t Hp)) Hk') as (y & Hy & Hok). exists y. split; [done|]. unfold hosted.
    destruct (decide (k' = 0%nat)) as [->|Hne].
    - rewrite (proj2 (ti_first t (pi_inv t Hp) _ _ Hy) eq_refl). destruct (pc t) eqn:Ep; try done;
        by rewrite (ti_pc t (pi_inv t Hp)) in Hk' by congruence.
    - destruct (proj2 (pi_seats t Hp _ _ Hy) Hne) as [j Hj]. rewrite Hj. apply bool_decide_eq_true.
      destruct (so_job _ _ _ Hok j) as (ph & Hph & Hwait & Hend); [by rewrite Hj|]. destruct ph; [|done|..].
      + destruct (Hwait eq_refl Hj) as [i [= -> _]]. done.
      + by destruct (Hend (or_introl eq_refl)).
      + by destruct (Hend (or_intror eq_refl)). }
  destruct Hy as (y & Hy & Hhy). destruct (enabled o' (ctx (run t)) Hlock) as (ch & c' & ops & [Hc1 Hc2] & Hr).
  eexists. exists (MThread k' ch false). split; [done|]. cbn. unfold thread_move. rewrite Hk', Hy, Hhy.
  assert (Hs : starts_slot [] o' ch false = true) by (by destruct o', ch). by rewrite Hs, Hr.
Qed.

Lemma stuck_returned t : live_inv t -> (forall t', ~ own_step t t') -> pc t = RReturned.
Proof.
  intros Hl Hs. pose proof (proj1 Hl) as Hp. pose proof (pi_inv t Hp) as Hi.
  assert (Hthread : forall k o rest x, threads (run t) !! k = Some (o :: rest) -> seats t !! k = Some x -> hosted x t = true -> False).
  { intros k o rest x Hk Hx Hh. destruct (thread_moves t k o rest x Hl Hk Hx Hh) as [t' Ht]. by apply (Hs t'). }
  assert (Hex : forall e s', ex_inner (exec t) e s' -> exists j, e = EReturns j /\ body_returns j t = None).
  { intros e s' (x & Ho & Hx).
    assert (Hno : exec_move [] x t = None).
    { destruct (exec_move [] x t) as [t'|] eqn:E; [|done]. destruct (Hs t'). by exists (MExec x). }
    unfold exec_move in Hno. rewrite Hx in Hno. cbn in Hno. apply fmap_None in Hno. destruct e; try done. eauto. }
  destruct (ex_progress (exec t) (ti_exec t Hi)) as [[j Hj]|[Hall Hw]].
  { intros e s' Hin. destruct (Hex e s' Hin) as (j & ? & _). by exists j. }
  - exfalso. destruct (ex_can_return (exec t) j (ti_exec t Hi) Hj) as [s' Hin]. destruct (Hex _ _ Hin) as (i & [= <-] & Hb).
    destruct (body_blocked t j Hp Hb) as (k & x & o & rest & Hx & Hjob & Hk). apply (Hthread k o rest x Hk Hx). unfold hosted.
    destruct (host x) as [|i| |i|]; try done; injection Hjob as ->; by apply bool_decide_eq_true.
  - destruct (pi_pc t Hp) as [E|[[c E]|E]]; [exfalso..|done].
    + destruct (threads (run t) !! 0%nat) as [[|o rest]|] eqn:Hz.
      * destruct (ex_can_wait (exec t) (ti_exec t Hi)) as (c & s' & x & Hx). eapply (Hs (with_exec s' (with_pc (RWaits c) t))).
        exists (MWait x). split; [done|]. cbn. unfold wait_move. by rewrite Hx, E, Hz.
      * destruct (Forall2_lookup_l _ _ _ _ _ (ti_seats t Hi) Hz) as (x & Hx & _). apply (Hthread _ _ _ _ Hz Hx).
        unfold hosted. by rewrite (proj2 (ti_first t Hi _ _ Hx) eq_refl), E.
      * apply lookup_ge_None in Hz. pose proof (ti_any t Hi). rewrite (Forall2_length _ _ _ (ti_seats t Hi)) in Hz. lia.
    + pose proof (ti_waits t Hi c (or_introl E)) as Hc. by rewrite Hw in Hc.
Qed.

(** C9. A threaded run always returns: on an executor that makes progress the run's
    threads, the run thread and the executor go through finitely many moves, and
    where none is possible runImpl has returned, with no thread of the run left
    (job bodies that return, and no deferred jobs). *)
Theorem threaded_run_returns m0 s l t : impl_ok m0 -> begin_run m0 = RunStarts m -> deferredNodes_ m = [] -> ex_inv s ->
  t_moves (deferredNodes_ m) l (start s m) = Some t ->
  sn own_step t /\ forall t', rtc own_step t t' -> (forall t'', ~ own_step t' t'') -> pc t' = RReturned /\ quiescent (run t').
Proof.
  intros H1 H2 Hd Hs Hl. rewrite Hd in Hl.
  assert (Hlive : live_inv t).
  { split; [eapply plain_moves; [|exact Hl]; by apply start_plain|].
    destruct (t_moves_inv [] l _ _ (threaded_start_inv m s Hs) Hl) as [_ Hr]. cbn in Hr.
    assert (H3 : exists owed, inv m owed (start_threaded m)) by (eexists; by apply start_threaded_inv). clear Hl.
    induction Hr as [|r1 r2 r3 Hstep _ IH]; [done|]. apply IH. destruct H3 as [owed Hi].
    destruct (step_keeps_inv m owed r1 r2 Hm Hi Hstep) as (owed' & ? & _). eauto. }
  split; [by apply own_halts|]. intros t' Hr Hstuck.
  assert (Hl' : live_inv t').
  { clear Hl Hstuck. induction Hr as [|t1 t2 t3 (a & _ & Ha) _ IH]; [done|]. apply IH. by eapply live_keeps. }
  pose proof (stuck_returned t' Hl' Hstuck) as E. split; [done|]. by apply (pi_done t' (proj1 Hl')).
Qed.
End live.

Section waits.
Context {S M : Type} `{IExecutor S M}.

(** C4. On any executor that keeps the contract a threaded run is one of the
    scheduler's runs, and, without deferred jobs, when runImpl returns from waitAll
    the run is over: no thread of it is queued or running any more. *)
Theorem threaded_run_waits (m0 m : Impl) (s : S) (l : list (TMove M)) t : impl_ok m0 -> begin_run m0 = RunStarts m -> ex_inv s ->
  t_moves (deferredNodes_ m) l (start s m) = Some t ->
  reachable m0 (run t) /\ (deferredNodes_ m = [] -> pc t = RReturned -> quiescent (run t)).
Proof.
  intros H1 H2 Hs Hl. destruct (t_moves_inv _ l _ _ (threaded_start_inv m s Hs) Hl) as [_ Hr]. split.
  - exists m, (start_threaded m). split; [|done]. split; [done|]. split; [done|by left].
  - intros Hd Hpc. rewrite Hd in Hl. refine (pi_done t _ Hpc). eapply plain_moves; [|exact Hl]. by apply start_plain.
Qed.

(** C13. A run with deferred jobs returns only at a moment when every deferred job it
    started has its outcome and was counted out: none awaits, and no thread is
    still inside deliverDeferred. *)
Theorem deferred_return_settled (m : Impl) dn (s : S) (l : list (TMove M)) a t t' : ex_inv s -> dn <> [] -> t_moves dn l (start s m) = Some t ->
  t_move dn a t = Some t' -> pc t <> RReturned -> pc t' = RReturned ->
  deferredInFlight t' = 0 /\ leaving t' = 0%nat /\ forall k tk, threads (run t') !! k = Some tk -> ~ late tk.
Proof.
  intros Hs Hd Hl Ha Hpc Hpc'. destruct (t_moves_inv _ l _ _ (threaded_start_inv m s Hs) Hl) as [Hi _].
  destruct (t_move_inv _ _ _ _ Hi Ha) as [Hi' _].
  assert (Hz : deferredInFlight t' = 0).
  { destruct a as [x|k ch slot|k x|k x| |k|x| |]; cbn in Ha.
    - unfold exec_move in Ha. apply bind_Some in Ha as ([s' e] & _ & Ha). apply fmap_Some in Ha as (t1 & Ha & ->). cbn in Hpc'.
      destruct e; try (injection Ha as <-); try done.
      + unfold body_returns in Ha. repeat (case_match; try done); by injection Ha as <-.
      + exfalso. clear Hi'. unfold wait_returns in Hpc'. destruct (pc t) eqn:Ep; try (by rewrite ?Ep in Hpc');
        case_decide; try (by rewrite ?Ep in Hpc'). by destruct dn.
    - unfold thread_move in Ha. repeat (case_match; try done); by injection Ha as <-.
    - unfold dispatch_move in Ha. repeat (case_match; try done); by apply fmap_Some in Ha as (? & _ & ->).
    - unfold deliver_move in Ha. repeat (case_match; try done); try (by injection Ha as <-); by apply fmap_Some in Ha as (? & _ & ->).
    - unfold leave_move in Ha. repeat (case_match; try done); by injection Ha as <-.
    - unfold count_move in Ha. repeat (case_match; try done); by injection Ha as <-.
    - unfold wait_move in Ha. repeat (case_match; try done); by injection Ha as <-.
    - unfold pass_move in Ha. repeat (case_match; try done); by injection Ha as <-.
    - unfold check_move in Ha. repeat (case_match; try done); injection Ha as <-; [by apply Z.eqb_eq|done]. }
  pose proof (ti_count t' Hi') as Hc. rewrite Hz in Hc. split; [done|]. split; [lia|]. intros k tk Hk Hlate.
  destruct (Forall2_lookup_l _ _ _ _ _ (ti_seats t' Hi') Hk) as (x & Hx & Hok).
  pose proof (so_late _ _ _ Hok Hlate). pose proof (sum_lookup_le owes _ _ _ Hx). lia.
Qed.
End waits.
