(* ===== verification/ThreadedExamples.v ===== *)
(** Threaded runs on a pool of two workers: a chain of two jobs, and a chain of two
    deferred jobs and a third whose run returns before the third has run. *)
From S2P Require Import Prelude Types EdgeLists SuccessorPool Nodes Kahn Graph Pipeline Construction Run Dispatch Scheduler Termination RunCorrect Inline Executors ExecutorCorrect ExecutorLaws Threaded ThreadedCorrect.

(** The first of some moves that is possible, again and again. *)
Section drive.
Context {S M : Type} `{IExecutor S M} (dn : list nat).

Fixpoint first_move (l : list (TMove M)) (t : Threaded S) : option (TMove M * Threaded S) :=
  match l with
  | [] => None
  | a :: l => match t_move dn a t with Some t' => Some (a, t') | None => first_move l t end
  end.
Fixpoint drive (fuel : nat) (l : list (TMove M)) (t : Threaded S) : list (TMove M) * Threaded S :=
  match fuel with
  | O => ([], t)
  | Datatypes.S fuel =>
      match first_move l t with
      | Some (a, t') => let '(h, t2) := drive fuel l t' in (a :: h, t2)
      | None => ([], t)
      end
  end.
Fixpoint phases (fuel : nat) (l : list (list (TMove M))) (t : Threaded S) : list (TMove M) * Threaded S :=
  match l with
  | [] => ([], t)
  | p :: l => let '(h, t1) := drive fuel p t in let '(h2, t2) := phases fuel l t1 in (h ++ h2, t2)
  end.

Lemma first_move_is l t a t' : first_move l t = Some (a, t') -> t_move dn a t = Some t'.
Proof.
  induction l as [|b l IH]; [done|]. cbn. destruct (t_move dn b t) eqn:E; [|done]. by intros [= <- <-].
Qed.
Lemma t_moves_app l k t t1 : t_moves dn l t = Some t1 -> t_moves dn (l ++ k) t = t_moves dn k t1.
Proof.
  revert t. induction l as [|a l IH]; intros t; cbn; [by intros [= <-]|]. destruct (t_move dn a t); [|done]. apply IH.
Qed.
Lemma drive_moves fuel l t : t_moves dn (drive fuel l t).1 t = Some (drive fuel l t).2.
Proof.
  revert t. induction fuel as [|fuel IH]; intros t; [done|]. cbn. destruct (first_move l t) as [[a t']|] eqn:E; [|done].
  apply first_move_is in E. specialize (IH t'). destruct (drive fuel l t') as [h t2]. cbn. by rewrite E.
Qed.
Lemma phases_moves fuel l t : t_moves dn (phases fuel l t).1 t = Some (phases fuel l t).2.
Proof.
  revert t. induction l as [|p l IH]; intros t; [done|]. cbn. pose proof (drive_moves fuel p t) as Hd.
  destruct (drive fuel p t) as [h t1]. cbn in Hd. specialize (IH t1). destruct (phases fuel l t1) as [h2 t2]. cbn in *.
  by rewrite (t_moves_app _ _ _ _ Hd).
Qed.
End drive.

#[local] Instance two_workers : IExecutor Pool (Call + Inner) := pool_executor true 0 ltac:(lia).
#[local] Instance two_workers_live : LiveExecutor Pool (Call + Inner) := pool_live true 0 ltac:(lia).

(** What the workers and the callers inside the pool do. *)
Definition pool_moves_of : list (TMove (Call + Inner)) :=
  MExec <$> [inr (IWorker 0 0); inr (IWorker 1 0); inr (ICaller 0 0); inr (ICaller 0 1); inr (ICaller 1 0); inr (ICaller 1 1);
             inr (ICaller 2 0); inr (ICaller 2 1); inr (ICaller 3 0); inr (ICaller 3 1); inr (ICaller 4 0); inr (ICaller 4 1);
             inr (ICaller 5 0); inr (ICaller 5 1)]%nat.
Definition body_moves (k : nat) : list (TMove (Call + Inner)) :=
  [MThread k CNone false; MThread k (CResult success) false; MDispatch k (inl (KDispatch 0))].
Definition deferred_body (k : nat) : list (TMove (Call + Inner)) := [MThread k CNone false; MThread k CAwait true].
Definition run_thread : list (TMove (Call + Inner)) := [MWait (inl KWaitAll)].

(** ** Two jobs in a chain *)

Definition two_calls : list BuildCall :=
  [CConstruct 0; CEmplace 0 0; CEmplaceVoid 0 1; CPrecede (handle 0 0) (handle 0 1)]%nat.
Definition two_impl : Impl := match impl_of (run_calls two_calls) 0 with Some (_, m) => m | None => Impl_new end.
Definition two_started : Impl := started_impl two_impl.
Lemma two_ok : impl_ok two_impl.
Proof. apply (impl_of_ok (run_calls two_calls) 0 0); [apply built_ok, run_calls_built; by vm_compute|by vm_compute]. Qed.
Lemma two_starts : begin_run two_impl = RunStarts two_started.
Proof. vm_compute. reflexivity. Qed.

Definition two_phases : list (list (TMove (Call + Inner))) :=
  [[MDispatch 0 (inl (KDispatch 0)); MThread 0 CNone false] ++ run_thread;
   pool_moves_of ++ body_moves 1 ++ body_moves 2]%nat.
Definition two_run := phases [] 60 two_phases (start (pool_begin 2) two_started).

Example two_run_end : pc two_run.2 = RReturned /\ pool_jobs (exec two_run.2) = [JCompleted; JCompleted] /\
  jobStatus_ <$> nodes_ (impl_ (ctx (Threaded.run two_run.2))) = [kDone; kDone].
Proof. vm_compute. split_and!; reflexivity. Qed.

Lemma two_plain : deferredNodes_ two_started = [].
Proof. vm_compute. reflexivity. Qed.
Lemma two_moves : t_moves (deferredNodes_ two_started) two_run.1 (start (pool_begin 2) two_started) = Some two_run.2.
Proof. rewrite two_plain. apply phases_moves. Qed.
Lemma two_begin : ex_inv (pool_begin 2).
Proof. apply pool_begin_inv; lia. Qed.

Lemma threaded_run_waits_witness : reachable two_impl (Threaded.run two_run.2) /\ quiescent (Threaded.run two_run.2).
Proof.
  destruct (threaded_run_waits two_impl two_started (pool_begin 2) two_run.1 two_run.2 two_ok two_starts two_begin two_moves) as [Hr Hq].
  split; [exact Hr|]. apply Hq; [exact two_plain|]. vm_compute. reflexivity.
Defined.

Lemma threaded_run_returns_witness : sn own_step (start (pool_begin 2) two_started) /\
  forall t', rtc own_step (start (pool_begin 2) two_started) t' -> (forall t'', ~ own_step t' t'') -> pc t' = RReturned /\ quiescent (Threaded.run t').
Proof.
  exact (threaded_run_returns two_started (begin_run_starts _ _ two_ok two_starts) two_impl (pool_begin 2) [] _ two_ok two_starts two_plain
           two_begin eq_refl).
Defined.

(** ** A deferred job after a deferred job, and a third job *)

Definition chain_calls : list BuildCall :=
  [CConstruct 0; CEmplaceDeferred 0 0; CEmplaceDeferred 0 1; CEmplace 0 2; CPrecede (handle 0 0) (handle 0 1);
   CPrecede (handle 0 1) (handle 0 2)]%nat.
Definition chain_impl : Impl := match impl_of (run_calls chain_calls) 0 with Some (_, m) => m | None => Impl_new end.
Definition chain_started : Impl := started_impl chain_impl.
Lemma chain_ok : impl_ok chain_impl.
Proof. apply (impl_of_ok (run_calls chain_calls) 0 0); [apply built_ok, run_calls_built; by vm_compute|by vm_compute]. Qed.
Lemma chain_starts : begin_run chain_impl = RunStarts chain_started.
Proof. vm_compute. reflexivity. Qed.

(** The first job is started and left awaiting, and the run thread waits for the
    count; its outcome arrives, the second is dispatched, the count falls to zero and
    the run thread calls waitAll; the second is started in that call and awaits;
    waitAll returns; the second's outcome arrives, the third is dispatched, the count
    falls to zero; the run thread looks at the count. *)
Definition chain_before : list (list (TMove (Call + Inner))) :=
  [[MDispatch 0 (inl (KDispatch 0)); MThread 0 CNone false] ++ run_thread;
   pool_moves_of ++ deferred_body 1;
   [MDeliver 1 (Some (inl (KDispatch 0)))];
   pool_moves_of ++ body_moves 1 ++ [MLeave; MCount 1; MPass] ++ run_thread;
   pool_moves_of ++ deferred_body 2;
   [MDeliver 2 (Some (inl (KDispatch 0)))];
   pool_moves_of ++ body_moves 2 ++ [MLeave; MCount 2]]%nat.
Definition chain_run := phases [0; 1]%nat 60 (chain_before ++ [[MCheck]]) (start (pool_begin 2) chain_started).
Definition chain_checks := phases [0; 1]%nat 60 chain_before (start (pool_begin 2) chain_started).

Example chain_at_check : pc chain_checks.2 = RChecks /\ deferredInFlight chain_checks.2 = 0 /\
  jobStatus_ <$> nodes_ (impl_ (ctx (Threaded.run chain_checks.2))) = [kDone; kDone; kReady] /\
  pool_jobs (exec chain_checks.2) = [JCompleted; JCompleted; JCompleted; JCompleted; JRunning].
Proof. vm_compute. split_and!; reflexivity. Qed.

Lemma chain_moves : t_moves (deferredNodes_ chain_started) chain_run.1 (start (pool_begin 2) chain_started) = Some chain_run.2.
Proof. assert (E : deferredNodes_ chain_started = [0; 1]%nat) by (vm_compute; reflexivity). rewrite E. apply phases_moves. Qed.

(** awaitDeferredThreaded can return too early: a deferred job started while the
    run thread is in waitAll may deliver between that call's return and the look at
    the count; its continuation hands a successor to the executor and counts itself
    out, so the run returns while the successor is still on the executor. *)
Theorem deferred_run_returns_early : exists m0 m l t,
  impl_ok m0 /\ begin_run m0 = RunStarts m /\ t_moves (deferredNodes_ m) l (start (pool_begin 2) m) = Some t /\
  pc t = RReturned /\ status_at (impl_ (ctx (Threaded.run t))) 2 = kReady /\ ~ quiescent (Threaded.run t).
Proof.
  exists chain_impl, chain_started, chain_run.1, chain_run.2. split_and!; [exact chain_ok|exact chain_starts|exact chain_moves|..].
  - vm_compute. reflexivity.
  - vm_compute. reflexivity.
  - intros Hq. refine (quiescent_at _ 3 _ [] Hq _). vm_compute. reflexivity.
Qed.

Lemma deferred_return_settled_witness : deferredInFlight chain_run.2 = 0 /\ leaving chain_run.2 = 0%nat /\
  forall k tk, threads (Threaded.run chain_run.2) !! k = Some tk -> ~ late tk.
Proof.
  apply (deferred_return_settled chain_started [0; 1]%nat (pool_begin 2) chain_checks.1 MCheck chain_checks.2 chain_run.2 two_begin).
  - discriminate.
  - apply phases_moves.
  - vm_compute. reflexivity.
  - vm_compute. discriminate.
  - vm_compute. reflexivity.
Defined.
