(* ===== verification/Tick.v ===== *)
(** The tick loop (src/tick_loop.cpp): recurring jobs called when their interval has
    elapsed, by passes over all of them, until a stop is requested. The clock and the
    stop token are what the loop reads: the [k]-th pass reads [clock k], and the
    token's tests, two around each pass, answer [stop 0], [stop 1], ... *)
From S2P Require Import Prelude.

(** [TickJob], whose function is seen through its calls. *)
Record TickJob := mkTick { interval : Z (* ms *) }.
Record TickLoop := mkTickLoop { ticks_ : list TickJob }.
Definition add (tick : TickJob) (l : TickLoop) : TickLoop := mkTickLoop (ticks_ l ++ [tick]).

(** The loop's local state, and the calls so far: which job, in the pass that read
    which time. *)
Record Ticking := mkTicking { lastRun : list Z; calls : list (nat * Z) }.

(** [duration_cast] of nanoseconds to milliseconds rounds towards zero. *)
Definition elapsed (now last : Z) : Z := (now - last) ÷ 1000000.
Definition due (t : TickJob) (now last : Z) : bool := interval t <=? elapsed now last.

Section tick.
Context (loop : TickLoop) (clock : nat -> Z) (stop : nat -> bool).

Definition visit (now : Z) (s : Ticking) (i : nat) : Ticking :=
  match ticks_ loop !! i, lastRun s !! i with
  | Some t, Some last => if due t now last then mkTicking (<[i := now]> (lastRun s)) (calls s ++ [(i, now)]) else s
  | _, _ => s
  end.
Definition pass (now : Z) (s : Ticking) : Ticking := foldl (visit now) s (seq 0 (length (ticks_ loop))).

Definition run_begin : Ticking := mkTicking (replicate (length (ticks_ loop)) 0) [].

(** [TickLoop::run] from its [k]-th pass; [None] when the fuel does not suffice. *)
Fixpoint run_passes (fuel k : nat) (s : Ticking) : option Ticking :=
  match fuel with
  | O => None
  | S fuel =>
      if stop (2 * k)%nat then Some s
      else
        let s := pass (clock k) s in
        if stop (2 * k + 1)%nat then Some s else run_passes fuel (S k) s
  end.
Definition TickLoop_run (fuel : nat) : option Ticking :=
  run_passes fuel 0 run_begin.

(** ** The reference: one job alone *)

(** The passes, by their times, in which a job is called. *)
Fixpoint due_times (t : TickJob) (last : Z) (times : list Z) : list Z :=
  match times with
  | [] => []
  | now :: times => if due t now last then now :: due_times t now times else due_times t last times
  end.
Definition calls_of (i : nat) (s : Ticking) : list Z := (filter (fun c => c.1 = i) (calls s)).*2.

(** Where a job stands after the passes: the time of its last call. *)
Fixpoint last_time (t : TickJob) (last : Z) (times : list Z) : Z :=
  match times with
  | [] => last
  | now :: times => last_time t (if due t now last then now else last) times
  end.

Lemma due_times_snoc t last times now :
  due_times t last (times ++ [now]) = due_times t last times ++ (if due t now (last_time t last times) then [now] else []).
Proof.
  revert last. induction times as [|x times IH]; intros last; cbn; [by destruct (due t now last)|].
  destruct (due t x last); cbn; by rewrite IH.
Qed.
Lemma last_time_snoc t last times now :
  last_time t last (times ++ [now]) = if due t now (last_time t last times) then now else last_time t last times.
Proof. revert last. induction times as [|x times IH]; intros last; [done|apply IH]. Qed.

(** ** A pass treats each job by itself *)

(** After visiting the first [n] jobs of the pass that reads [now]. *)
Record visited (times : list Z) (now : Z) (n : nat) (s : Ticking) : Prop := {
  vs_length : length (lastRun s) = length (ticks_ loop);
  vs_done : forall i t, ticks_ loop !! i = Some t -> (i < n)%nat ->
    lastRun s !! i = Some (last_time t 0 (times ++ [now])) /\ calls_of i s = due_times t 0 (times ++ [now]);
  vs_left : forall i t, ticks_ loop !! i = Some t -> (n <= i)%nat ->
    lastRun s !! i = Some (last_time t 0 times) /\ calls_of i s = due_times t 0 times
}.

Lemma calls_of_snoc i j now l s : calls_of i (mkTicking l (calls s ++ [(j, now)])) = calls_of i s ++ (if decide (j = i) then [now] else []).
Proof. unfold calls_of. cbn. rewrite filter_app, fmap_app, filter_cons. cbn. by case_decide. Qed.

Lemma visit_visited times now n s : (n < length (ticks_ loop))%nat -> visited times now n s -> visited times now (S n) (visit now s n).
Proof.
  intros Hn [H1 H2 H3]. destruct (lookup_lt_is_Some_2 _ _ Hn) as [t Ht]. destruct (H3 n t Ht ltac:(lia)) as [Hl Hc].
  unfold visit. rewrite Ht, Hl. split.
  - case_match; cbn; [by rewrite length_insert|done].
  - intros i t' Hi Hlt. destruct (decide (i = n)) as [E|E].
    + rewrite E, Ht in Hi. injection Hi as <-. rewrite E, last_time_snoc, due_times_snoc, <- Hc.
      case_match; [|by rewrite app_nil_r]. cbn [lastRun]. rewrite calls_of_snoc, decide_True by done.
      rewrite list_lookup_insert_eq; [done|]. apply lookup_lt_Some in Hl. done.
    + destruct (H2 i t' Hi ltac:(lia)) as [??]. case_match; [|done]. cbn [lastRun]. rewrite calls_of_snoc, decide_False by done.
      rewrite list_lookup_insert_ne by done. by rewrite app_nil_r.
  - intros i t' Hi Hle. destruct (H3 i t' Hi ltac:(lia)) as [??]. case_match; [|done]. cbn [lastRun].
    rewrite calls_of_snoc, decide_False, app_nil_r by lia. by rewrite list_lookup_insert_ne by lia.
Qed.

Lemma pass_visited times now s : visited times now 0 s -> visited times now (length (ticks_ loop)) (pass now s).
Proof.
  intros H. unfold pass.
  assert (Hgen : forall n, (n <= length (ticks_ loop))%nat -> visited times now n (foldl (visit now) s (seq 0 n))).
  { induction n as [|n IH]; intros Hn; [done|]. rewrite seq_S, foldl_snoc. apply visit_visited; [lia|]. apply IH. lia. }
  by apply Hgen.
Qed.

(** The calls of a pass come in the order of the jobs. *)
Lemma pass_calls now s : exists m, m `sublist_of` seq 0 (length (ticks_ loop)) /\ calls (pass now s) = calls s ++ ((., now) <$> m).
Proof.
  unfold pass. generalize (seq 0 (length (ticks_ loop))) as l. intros l. revert s.
  induction l as [|i l IH]; intros s; cbn; [exists []; split; [done|by rewrite app_nil_r]|].
  destruct (IH (visit now s i)) as (m & Hm & E). rewrite E. unfold visit.
  destruct (ticks_ loop !! i) as [t|], (lastRun s !! i) as [last|]; try (exists m; split; [by constructor|done]).
  case_match; [|exists m; split; [by constructor|done]]. exists (i :: m). split; [by constructor|]. cbn. by rewrite <- app_assoc.
Qed.

(** The state between passes. *)
Record passed (times : list Z) (s : Ticking) : Prop := {
  pd_jobs : forall now, visited times now 0 s;
  pd_order : exists ms, length ms = length times /\ Forall (fun m => m `sublist_of` seq 0 (length (ticks_ loop))) ms /\
    calls s = concat (zip_with (fun m now => (., now) <$> m) ms times)
}.

Lemma pass_passed times now s : passed times s -> passed (times ++ [now]) (pass now s).
Proof.
  intros [H (ms & Hl & Hs & E)]. split.
  - intros now'. destruct (pass_visited times now s (H now)) as [H1 H2 _].
    split; [done|lia|]. intros i t Hi _. apply (H2 i t Hi). by eapply lookup_lt_Some.
  - destruct (pass_calls now s) as (m & Hm & Em). exists (ms ++ [m]). rewrite !length_app, Hl. split; [done|].
    split; [by apply Forall_app; split; [|constructor]|].
    rewrite Em, E, zip_with_app, concat_app by done. cbn. by rewrite app_nil_r.
Qed.

Lemma begin_passed : passed [] run_begin.
Proof.
  split; [|by exists []]. intros now. split; cbn; [by rewrite length_replicate|lia|]. intros i t Hi _. split; [|done].
  apply lookup_replicate_2. by eapply lookup_lt_Some.
Qed.

(** ** The whole run *)

Definition pass_times (n : nat) : list Z := clock <$> seq 0 n.

Lemma run_passes_exact fuel k n s : passed (pass_times k) s -> stop n = true -> (forall m, (m < n)%nat -> stop m = false) ->
  (2 * k <= n)%nat -> (n - 2 * k < 2 * fuel)%nat ->
  exists s', run_passes fuel k s = Some s' /\ passed (pass_times (Nat.div (n + 1) 2)) s'.
Proof.
  intros Hs Hn Hm. revert k s Hs. induction fuel as [|fuel IH]; intros k s Hs Hk Hf; [lia|]. cbn [run_passes].
  assert (Hnext : passed (pass_times (S k)) (pass (clock k) s)).
  { unfold pass_times. rewrite seq_S, fmap_app. by apply pass_passed. }
  destruct (decide (n = 2 * k)%nat) as [E|E].
  { rewrite <- E, Hn. exists s. split; [done|]. replace (Nat.div (n + 1) 2) with k; [done|]. apply (Nat.div_unique _ _ _ 1); lia. }
  rewrite (Hm (2 * k)%nat) by lia. cbv zeta. destruct (decide (n = 2 * k + 1)%nat) as [E1|E1].
  { rewrite <- E1, Hn. eexists. split; [done|]. replace (Nat.div (n + 1) 2) with (S k); [done|]. apply (Nat.div_unique _ _ _ 0); lia. }
  rewrite (Hm (2 * k + 1)%nat) by lia. apply IH; [done|lia|lia].
Qed.

(** ** The reference keeps the intervals *)

(** Each element is at least [gap] after the one before it, the first after [last]. *)
Fixpoint spaced (gap last : Z) (l : list Z) : Prop :=
  match l with [] => True | x :: l => gap <= x - last /\ spaced gap x l end.

Lemma elapsed_ge now last ms : last <= now -> ms <= elapsed now last -> ms * 1000000 <= now - last.
Proof. unfold elapsed. intros Hp H. rewrite Z.quot_div_nonneg in H by lia. pose proof (Z.mul_div_le (now - last) 1000000). lia. Qed.

Lemma due_spaced t last times : spaced 0 last times -> spaced (interval t * 1000000) last (due_times t last times).
Proof.
  assert (Hweak : forall times a b, a <= b -> spaced 0 b times -> spaced 0 a times).
  { clear. intros [|x l] a b; cbn; [done|]. intros ? [? ?]. split; [lia|done]. }
  revert last. induction times as [|x times IH]; intros last; cbn; [done|]. intros [Hx Hs].
  destruct (due t x last) eqn:E; [|apply IH; by eapply (Hweak _ last x); [lia|]]. cbn. split; [|by apply IH].
  apply elapsed_ge; [lia|]. unfold due in E. lia.
Qed.

Lemma pass_times_S n : pass_times (S n) = clock 0%nat :: (clock <$> seq 1 n).
Proof. done. Qed.

(** C31. On a clock that has run for longer than every job's interval, the tick loop
    returns at the first test that finds a stop requested, after the passes begun
    before it; the first pass calls every job, and a later one exactly the jobs whose
    interval has elapsed since their last call, whatever the other jobs do, at most
    once per pass, in the order added; and with a clock that never runs backwards a
    job's calls are at least its interval apart. *)
Theorem tick_run_exact n fuel : stop n = true -> (forall m, (m < n)%nat -> stop m = false) -> (n < 2 * fuel)%nat ->
  Forall (fun t => due t (clock 0%nat) 0 = true) (ticks_ loop) ->
  let times := pass_times (Nat.div (n + 1) 2) in
  exists s, TickLoop_run fuel = Some s /\
    (forall i t, ticks_ loop !! i = Some t ->
       match times with
       | [] => calls_of i s = []
       | first :: rest => calls_of i s = first :: due_times t first rest /\
           (spaced 0 first rest -> spaced (interval t * 1000000) first (due_times t first rest))
       end) /\
    exists ms, length ms = length times /\ Forall (fun m => m `sublist_of` seq 0 (length (ticks_ loop))) ms /\
      calls s = concat (zip_with (fun m now => (., now) <$> m) ms times).
Proof.
  intros Hn Hm Hf Hfirst times. destruct (run_passes_exact fuel 0 n run_begin begin_passed Hn Hm) as (s & Hrun & [Hs Ho]); [lia|lia|].
  exists s. split; [done|]. split; [|done]. intros i t Hi. destruct (Hs 0) as [_ _ Hl]. destruct (Hl i t Hi ltac:(lia)) as [_ E].
  fold times in E. rewrite E. unfold times. destruct (Nat.div (n + 1) 2) as [|k]; [done|]. rewrite pass_times_S. cbn [due_times].
  rewrite (Forall_lookup_1 _ _ _ _ Hfirst Hi). split; [done|apply due_spaced].
Qed.
End tick.

(** Jobs every 10 ms and on every pass; four passes, the third early. *)
Definition tick_sample : TickLoop := add (mkTick 0) (add (mkTick 10) (mkTickLoop [])).
Definition tick_clock (k : nat) : Z := default 0 ([100000000; 109000000; 110000000; 111000000] !! k).
Definition tick_stop (k : nat) : bool := (7 <=? k)%nat.

Lemma tick_run_exact_witness : exists s, TickLoop_run tick_sample tick_clock tick_stop 4 = Some s /\
  calls_of 0 s = [100000000; 110000000] /\ length (calls_of 1 s) = 4%nat /\ spaced 10000000 100000000 [110000000].
Proof.
  destruct (tick_run_exact tick_sample tick_clock tick_stop 7 4) as (s & H1 & H2 & _).
  - reflexivity.
  - intros m Hm. unfold tick_stop. destruct (Nat.leb_spec 7 m); [lia|reflexivity].
  - lia.
  - repeat (apply Forall_cons; split; [reflexivity|]). apply Forall_nil. exact I.
  - exists s. split; [exact H1|]. destruct (H2 0%nat _ eq_refl) as [E0 Hs], (H2 1%nat _ eq_refl) as [E1 _].
    split; [rewrite E0; reflexivity|]. split; [rewrite E1; reflexivity|]. apply Hs. vm_compute. repeat split; discriminate.
Defined.

(** The first call is not on the first pass when the clock reads less than the
    interval since its epoch: a job every hour, on a clock that started with the
    device, in two passes at 1 s and 2 s. *)
Example first_pass_calls_nothing :
  TickLoop_run (add (mkTick 3600000) (mkTickLoop [])) (fun k => Z.of_nat (S k) * 1000000000) (fun k => (3 <=? k)%nat) 4 =
  Some (mkTicking [0] []).
Proof. vm_compute. reflexivity. Qed.
