(* ===== verification/Connection.v ===== *)
(** A connection as a whole: the channel of Channel, the worker host of WorkerHost
    whose runners run requests as WorkerRun says, and the frames between them, each
    direction delivered in order as ITransport promises (Loopback). *)
From S2P Require Import Prelude Types Bytes Payload SubGraph Registry Wire WireCodec WireCorrect Stream WorkerRun WorkerHost Channel.

(** [up] and [down] count the frames delivered to the worker and to the
    coordinator, of those the other end has sent. *)
Record Connection := mkConnection { chan : Channel; host : Host; up : nat; down : nat }.

Definition frame_of (o : Out) : option (list byte) :=
  match o with Sent f | Replied _ f => Some f | _ => None end.
Definition host_frames (h : Host) : list (list byte) := omap frame_of (out h).

Inductive ConnectionMove : Type :=
  | CChannel (mv : ChannelMove)                               (* not a delivery *)
  | CUp (answers : nat -> expected Payload PipelineError)     (* the next frame to the worker *)
  | CDown                                                     (* the next frame to the coordinator *)
  | CPayloadUp (frame : list byte) | CPayloadDown (frame : list byte)   (* a strategy's frame *)
  | CHostClosed | CServe (stop : bool)
  | CRun (k fuel : nat) (stopped : list (JobResult * option Payload)).  (* a runner *)

Section connection.
Context (o : Options) (options : HostOptions) (own_fingerprint : Z) (stream_factory : Factory).
(** The worker's kinds, the strategy's transfer of a job's large output, by request,
    and the store. *)
Context (registry : list (JobKindId * Kind)) (transfer : Z -> nat -> Payload -> expected (list byte) PipelineError)
  (store : option (nat -> list byte -> expected (list byte) PipelineError)).

Definition connection_begin : Connection := mkConnection (new_channel o) (serve_begin options) 0 0.

Definition with_chan (c : Channel) (n : Connection) : Connection := mkConnection c (host n) (up n) (down n).
Definition with_host (h : Host) (n : Connection) : Connection := mkConnection (chan n) h (up n) (down n).

(** How the host sends a large output, once the handshake has chosen. *)
Definition output_strategy (h : Host) (work : Work) : option (nat -> Payload -> expected (list byte) PipelineError) :=
  (fun _ => transfer (work_id work)) <$> WorkerHost.strategy_ h.

(** What [run] makes of a work that was not asked to stop. *)
Definition runs_to (h : Host) (work : Work) (fuel : nat) : option (list (JobResult * option Payload)) :=
  worker_run registry (WorkerHost.request work) (inputs work) (WorkerHost.inlineLimit_ h) (output_strategy h work) store fuel.

(** The results a runner is about to send: those of the run, or, for a request that
    was asked to stop, whatever it has come to. *)
Definition run_results (h : Host) (k fuel : nat) (stopped : list (JobResult * option Payload)) :
    option (list (JobResult * option Payload)) :=
  match runners h !! k with
  | Some (RRuns w) => work ← works h !! w; if stop_requested work then Some stopped else runs_to h work fuel
  | _ => Some []
  end.

Definition is_delivery (mv : ChannelMove) : bool := match mv with Channel.MFrame _ => true | _ => false end.
Definition payload_frame (frame : list byte) : bool := bool_decide (frameType frame = Some kPayload).

Definition host_step (mv : WorkerHost.Move) (n : Connection) : option Connection :=
  (fun h => with_host h n) <$> host_move options own_fingerprint stream_factory mv (host n).

Definition connection_move (mv : ConnectionMove) (n : Connection) : option Connection :=
  match mv with
  | CChannel mv => if is_delivery mv then None else (fun c => with_chan c n) <$> channel_move mv (chan n)
  | CUp answers =>
      f ← sent (world (chan n)) !! up n;
      (fun n' => mkConnection (chan n') (host n') (S (up n')) (down n')) <$> host_step (WorkerHost.MFrame f answers) n
  | CDown =>
      f ← host_frames (host n) !! down n;
      (fun c => mkConnection c (host n) (up n) (S (down n))) <$> channel_move (Channel.MFrame f) (chan n)
  | CPayloadUp f => if payload_frame f then host_step (WorkerHost.MFrame f (fun _ => Unexpected kJobFailed)) n else None
  | CPayloadDown f => if payload_frame f then (fun c => with_chan c n) <$> channel_move (Channel.MFrame f) (chan n) else None
  | CHostClosed => host_step WorkerHost.MClosed n
  | CServe stop => host_step (MServe stop) n
  | CRun k fuel stopped => results ← run_results (host n) k fuel stopped; host_step (MRunner k results) n
  end.

Fixpoint connection_moves (l : list ConnectionMove) (n : Connection) : option Connection :=
  match l with [] => Some n | mv :: l => n ← connection_move mv n; connection_moves l n end.

(** ** What the strategies' answers stand for

    [up] and [down] say which payload a reference stands for, in each direction. An
    end that sends a payload is given a reference that stands for it, and an end that
    receives one a payload the reference stands for. *)
Context (up_ref down_ref : list byte -> Payload -> Prop).

Definition answer_stands (t : option Task) (a : Answer) : Prop :=
  match t, a with
  | Some (TTransfer _ _ (j :: _) _), ATransfer (Expected ref) => up_ref ref (input j)
  | Some (TFrame _), AReceive receive => forall i ref p, receive i ref = Expected p -> down_ref ref p
  | _, _ => True
  end.
Definition inputs_stand (frame : list byte) (answers : nat -> expected Payload PipelineError) : Prop :=
  forall id r i j p, decodeRequest frame = Some (id, r) -> jobs r !! i = Some j -> kind (input j) = kReference ->
    answers i = Expected p -> up_ref (bytes (input j)) p.
Definition move_stands (mv : ConnectionMove) (n : Connection) : Prop :=
  match mv with
  | CChannel (MStep k a) => answer_stands (tasks (chan n) !! k) a
  | CUp answers => forall f, sent (world (chan n)) !! up n = Some f -> inputs_stand f answers
  | _ => True
  end.

(** Every answer in a run does. *)
Fixpoint answers_stand (l : list ConnectionMove) (n : Connection) : Prop :=
  match l with
  | [] => True
  | mv :: l => move_stands mv n /\ forall n', connection_move mv n = Some n' -> answers_stand l n'
  end.
End connection.
