(* ===== verification/ConnectionCorrect.v ===== *)
(** What crosses a connection, and what a completed remote job means: the origin of
    every frame, request and reply at either end, composed with the round trips of
    the wire format and the reference results of a worker's run. *)
From S2P Require Import Prelude Types Bytes Payload SubGraph Registry Wire WireCodec WireCorrect Stream WorkerRun WorkerHost Channel ChannelCorrect Connection.

(** ** The coordinator's end *)

Section coordinator.
(** What is submitted, what the transport delivers, and what references stand for. *)
Context (o : Options) (P : Submission -> Prop) (R : list byte -> Prop) (U D : list byte -> Payload -> Prop).
Implicit Types c : Channel.

Lemma drop_cons_next {A} k (l : list A) x rest : x :: rest = drop k l -> l !! k = Some x /\ rest = drop (S k) l.
Proof.
  intros H. split; [by rewrite <- (Nat.add_0_r k), <- lookup_drop, <- H|]. by rewrite <- Nat.add_1_r, <- drop_drop, <- H.
Qed.

(** A reply as the channel read it off a delivered frame. *)
Definition was_read (e : Z * SubGraphReply) : Prop :=
  exists f b receive reply, R f /\ decodeReply f = Some (e.1, reply) /\ e.2 = receive_outputs b receive reply /\
    forall i ref p, receive i ref = Expected p -> D ref p.

(** An input that is not sent as it is goes as a reference that stands for it. *)
Definition overrides_stand (r : SubGraphRequest) (ov : list (option Payload)) : Prop :=
  forall i q, ov !! i = Some (Some q) -> exists j ref, jobs r !! i = Some j /\ q = reference ref /\ U ref (input j).
Lemma overrides_stand_ok r ov : overrides_stand r ov -> Forall (fun x => from_option payload_ok True x) ov.
Proof. intros H. apply Forall_lookup. intros i [q|] Hq; [|done]. by destruct (H i q Hq) as (j & ref & _ & -> & _). Qed.
Lemma overrides_stand_nil r : overrides_stand r [].
Proof. by intros i q. Qed.
Lemma overrides_stand_snoc r ov x : overrides_stand r ov ->
  (forall q, x = Some q -> exists j ref, jobs r !! length ov = Some j /\ q = reference ref /\ U ref (input j)) ->
  overrides_stand r (ov ++ [x]).
Proof.
  intros H Hx i q. rewrite lookup_snoc_Some. intros [[_ Hq]|[-> ->]]; [by apply H|by apply Hx].
Qed.

(** A frame that the channel sends. *)
Definition coordinator_frame (l : list (Z * Submission)) (f : list byte) : Prop :=
  f = encodeHello kHello (own_hello o) \/ (exists id, f = encodeCancel id) \/
  exists id s ov, (id, s) ∈ l /\ overrides_stand (Channel.request s) ov /\ encodeRequest id (Channel.request s) ov = Some f.

Definition opt_ok (s : option Submission) : Prop := from_option P True s.
Definition task_traced (l : list (Z * Submission)) (t : Task) : Prop :=
  match t with
  | TSend s => P s
  | TTransfer id s rest ov => (id, s) ∈ l /\ overrides_stand (Channel.request s) ov /\ rest = drop (length ov) (jobs (Channel.request s))
  | TEncode id s ov => (id, s) ∈ l /\ overrides_stand (Channel.request s) ov
  | TFailed _ _ _ _ next | TLaunch next | TReplied _ _ _ next => opt_ok next
  | TFrame f => R f
  | TReply id reply => was_read (id, reply)
  | _ => True
  end.

Record traced c : Prop := {
  tr_options : options_ c = o;
  tr_frames : Forall (coordinator_frame (assigned c)) (sent (world c));
  tr_replies : Forall was_read (replies c);
  tr_assigned : Forall (fun e => P e.2) (assigned c);
  tr_queue : Forall P (queued_ (book c));
  tr_peer : state_ (link c) = ChannelState.kConnected ->
    exists f, R f /\ frameType f = Some kHelloAck /\ decodeHello f = Some (peer_ (link c));
}.

Lemma coordinator_frame_mono l l' f : l ⊆ l' -> coordinator_frame l f -> coordinator_frame l' f.
Proof. intros Hl [?|[?|(id & s & ov & H & ?)]]; [by left|right; by left|right; right]. exists id, s, ov. auto. Qed.
Lemma task_traced_mono l l' t : l ⊆ l' -> task_traced l t -> task_traced l' t.
Proof. intros Hl. destruct t; cbn; auto; intros [??]; auto. Qed.

(** What leaves the traced parts alone, or takes from the queue. *)
Lemma traced_same c c' : options_ c' = options_ c -> sent (world c') = sent (world c) -> replies c' = replies c -> assigned c' = assigned c ->
  queued_ (book c') `suffix_of` queued_ (book c) -> (state_ (link c') = ChannelState.kConnected -> link c' = link c) ->
  traced c -> traced c'.
Proof.
  intros Ho Hs Hr Ha Hq Hl [H1 H2 H3 H4 H5 H6]. split; rewrite ?Ho, ?Hs, ?Hr, ?Ha; try done.
  - destruct Hq as [k Hq]. rewrite Hq in H5. by apply Forall_app in H5 as [_ ?].
  - intros E. pose proof (Hl E) as El. rewrite El in *. auto.
Qed.

Ltac same := eapply traced_same; [..|eassumption]; try done; try reflexivity.

Lemma takeQueued_traced b b' next : takeQueued b = (b', next) -> Forall P (queued_ b) -> queued_ b' `suffix_of` queued_ b /\ opt_ok next.
Proof.
  unfold takeQueued, opt_ok. destruct (queued_ b) as [|s q] eqn:E; intros [= <- <-] H; [by rewrite E|]. inversion_clear H. split; [|done].
  cbn. by exists [s].
Qed.
Lemma take_pending_traced id b b' p next : take_pending id b = Some (b', p, next) -> Forall P (queued_ b) ->
  queued_ b' `suffix_of` queued_ b /\ opt_ok next.
Proof.
  unfold take_pending. destruct (pending_ b !! id); [|done]. destruct (takeQueued _) as [b1 n1] eqn:E. intros [= <- <- <-] H.
  by apply (takeQueued_traced _ _ _ E).
Qed.

Lemma handshake_peer b frame l : R frame -> state_ (handshake_frame o b frame l).1 = ChannelState.kConnected ->
  (handshake_frame o b frame l).1 = l \/ exists f, R f /\ frameType f = Some kHelloAck /\ decodeHello f = Some (peer_ (handshake_frame o b frame l).1).
Proof.
  intros HR. unfold handshake_frame. destruct (state_ l) eqn:El; [by left| |by left|by left].
  destruct (frameType frame) as [[]|] eqn:Ef; try (cbn; rewrite El; done).
  destruct (decodeHello frame) as [hello|] eqn:Ed; [|cbn; by rewrite El].
  unfold take_ack. destruct (negb (major hello =? _)); [cbn; by rewrite El|]. destruct (negb (fingerprint hello =? _)); [cbn; by rewrite El|].
  destruct (selectStrategy b hello (set_peer hello l)) as [l1 sel] eqn:Es.
  assert (peer_ l1 = hello /\ state_ l1 = ChannelState.kHandshaking) as [Hp Hst].
  { unfold selectStrategy in Es. repeat case_match; by simplify_eq/=. }
  destruct sel; cbn; [|by rewrite Hst]. intros _. right. exists frame. by rewrite Hp.
Qed.

Definition answer_of (t : Task) (a : Answer) : Prop := answer_stands U D (Some t) a.

Lemma frame_step_traced a frame c c' t' : traced c -> R frame -> answer_of (TFrame frame) a -> frame_step a frame c = Some (c', t') ->
  traced c' /\ task_traced (assigned c') t'.
Proof.
  intros Ht HR Ha. unfold frame_step. case_bool_decide as Hf.
  - destruct (decodeReply frame) as [[id reply]|] eqn:Ed, a; try done; intros [= <- <-].
    + split; [done|]. by exists frame, (has_strategy c), receive, reply.
    + split; [by same|done].
  - destruct (_ && _); [destruct a; try done; by intros [= <- <-]|]. destruct a as [| | | |b|]; try done.
    pose proof (tr_options _ Ht) as Ho. rewrite Ho. pose proof (handshake_peer b frame (link c) HR) as Hp.
    destruct (handshake_frame o b frame (link c)) as [l on]. cbn [fst] in Hp. intros [= <- <-]. split; [|done].
    assert (Hl : traced (with_link l c)).
    { destruct Ht as [H1 H2 H3 H4 H5 H6]. split; cbn; try done. intros E. destruct (Hp E) as [->|Hx]; auto. }
    destruct on; [done|]. by same.
Qed.

Lemma send_step_traced s c c' t' : traced c -> P s -> send_step s c = (c', t') -> traced c' /\ task_traced (assigned c') t'.
Proof.
  intros Ht Hs. unfold send_step. destruct (state_ (link c)); try (by intros [= <- <-]).
  destruct (match strategy_ _ with Some _ => _ | None => _ end); [by intros [= <- <-]|].
  destruct (_ <=? _); [destruct (_ <? _); intros [= <- <-]; (split; [|done]); [|done]|].
  - destruct Ht as [H1 H2 H3 H4 H5 H6]. split; cbn; try done. by apply Forall_app; split; [|constructor].
  - destruct Ht as [H1 H2 H3 H4 H5 H6]. intros [= <- <-]. split.
    + split; cbn; try done; [|by apply Forall_app; split; [|constructor]].
      eapply Forall_impl; [exact H2|]. intros f. apply coordinator_frame_mono. set_solver.
    + assert (Hin : (nextId_ (book c), s) ∈ assigned c ++ [(nextId_ (book c), s)]) by set_solver.
      destruct (strategy_ (link c)); cbn; repeat (split; [done||apply overrides_stand_nil|]); [done|apply overrides_stand_nil].
Qed.

Lemma transmit_traced f c : traced c -> coordinator_frame (assigned c) f -> traced (transmit f c).
Proof. intros [H1 H2 H3 H4 H5 H6] Hf. split; cbn; try done. by apply Forall_app; split; [|constructor]. Qed.

Lemma endScope_traced id c : traced c -> traced (endScope_of id c) /\ assigned (endScope_of id c) = assigned c.
Proof. unfold endScope_of. destruct (strategy_ _); [|done]. intros H. split; [by same|done]. Qed.

Lemma task_step_traced a t c c' t' : traced c -> task_traced (assigned c) t -> answer_of t a -> task_step a t c = Some (c', t') ->
  traced c' /\ task_traced (assigned c') t'.
Proof.
  intros Hc Ht Ha H. pose proof (tr_options _ Hc) as Ho. pose proof (tr_queue _ Hc) as Hq.
  destruct t as [| |s|s e msg|id s [|j rest] ov|id s ov|id|id e msg|id s e msg next|[s|]| |frame|id reply|id p reply next| |[|s l]|id|], a;
    try discriminate H; cbn [task_step] in H; try (by eapply frame_step_traced);
    try (injection H as H; by eapply send_step_traced).
  - unfold connect_begin in H. destruct (state_ (link c)) eqn:El; injection H as <- <-; (split; [|done]); try by same.
    apply transmit_traced; [|left; by rewrite Ho]. destruct Hc as [H1 H2 H3 H4 H5 H6]. by split.
  - destruct (connect_result _); [|done]. injection H as <- <-. split; [by same|done].
  - destruct (connect_result _); injection H as <- <-; (split; [|done]); by same.
  - injection H as <- <-. split; [by same|done].
  - injection H as <- <-. split; [done|]. by destruct Ht as (? & ? & _).
  - destruct (large _ _); [done|]. injection H as <- <-. split; [done|]. destruct Ht as (? & Hov & Hr). destruct (drop_cons_next _ _ _ _ Hr) as [_ Hr'].
    split; [done|]. split; [by apply overrides_stand_snoc|]. rewrite length_app. cbn. by rewrite Nat.add_1_r.
  - destruct (large _ _); [|done]. destruct r as [ref|]; injection H as <- <-; (split; [done|]); [|done]. destruct Ht as (? & Hov & Hr).
    destruct (drop_cons_next _ _ _ _ Hr) as [Hj Hr']. split; [done|]. split; [|by rewrite length_app; cbn; rewrite Nat.add_1_r].
    apply overrides_stand_snoc; [done|]. intros q [= <-]. by exists j, ref.
  - destruct (encodeRequest _ _ _) as [f|] eqn:Ee; [|by injection H as <- <-]. destruct ok; injection H as <- <-; (split; [|done]); [|done].
    apply transmit_traced; [done|]. right. right. destruct Ht as [? ?]. by exists id, s, ov.
  - injection H as <- <-. split; [by same|done].
  - destruct (take_pending _ _) as [[[b p] next]|] eqn:E; injection H as <- <-; [|done].
    destruct (take_pending_traced _ _ _ _ _ E Hq). split; [by same|done].
  - injection H as <- <-. destruct (endScope_traced id c Hc). split; [by same|done].
  - destruct (stops _ _); injection H as <- <-; (split; [|done]); [by same|done].
  - by injection H as <- <-.
  - destruct (takeQueued _) as [b next] eqn:E. injection H as <- <-. destruct (takeQueued_traced _ _ _ E Hq). split; [by same|done].
  - destruct (take_pending _ _) as [[[b p] next]|] eqn:E; injection H as <- <-; [|done].
    destruct (take_pending_traced _ _ _ _ _ E Hq). split; [|done].
    assert (Hb : traced (with_book b c)) by same. destruct Hb as [H1 H2 H3 H4 H5 H6].
    split; cbn; try done. by apply Forall_app; split; [|constructor].
  - destruct (cancels c id); [done|]. unfold replied_step in H. destruct (endScope_traced id c Hc) as [He _].
    destruct (stops _ _); [injection H as <- <-; split; [by same|done]|].
    destruct (reply_outcome _ _) as [r msg]. injection H as <- <-. split; [|done]. destruct (onReply _); by same.
  - unfold closed_step in H. injection H as <- <-. split; [|done]. same. apply suffix_nil.
  - injection H as <- <-. split; [|done]. destruct Hc as [H1 H2 H3 H4 H5 H6]. by split.
  - injection H as <- <-. split; [by same|done].
  - injection H as <- <-. split; [|done]. destruct ok; [|done]. apply transmit_traced; [done|]. right. left. by exists id.
Qed.

(** The whole of it, after any move. *)
Definition coordinator_traced c : Prop := traced c /\ Forall (task_traced (assigned c)) (tasks c).
Definition move_allowed c (mv : ChannelMove) : Prop :=
  match mv with MSubmit s => P s | MFrame f => R f | MStep k a => answer_stands U D (tasks c !! k) a | _ => True end.

Lemma channel_move_traced mv c c' : coordinator_traced c -> move_allowed c mv -> channel_move mv c = Some c' -> coordinator_traced c'.
Proof.
  intros [Hc Hts] Hmv H. destruct mv as [k a| |s|d|id|frame| |]; cbn in H.
  - destruct (tasks c !! k) as [t|] eqn:Hk; [|done]. cbn in H. destruct (task_step a t c) as [[c1 t1]|] eqn:Es; [|done]. injection H as <-.
    destruct (task_step_kept _ _ _ _ _ Es) as (Kt & _ & _ & _ & Ka & _).
    cbn in Hmv. rewrite Hk in Hmv. destruct (task_step_traced _ _ _ _ _ Hc (Forall_lookup_1 _ _ _ _ Hts Hk) Hmv Es) as [H1 H2]. split; [by same|].
    cbn. rewrite Kt. apply Forall_insert; [|done]. eapply Forall_impl; [exact Hts|]. intros x. by apply task_traced_mono.
  - injection H as <-. split; [by same|]. by apply Forall_app; split; [|constructor].
  - injection H as <-. split; [by same|]. by apply Forall_app; split; [|constructor].
  - injection H as <-. split; [by same|done].
  - destruct (pending_ (book c) !! id) as [[s []]|]; try done. destruct (stops _ _); [|done]. injection H as <-. split; [by same|]. by apply Forall_app; split; [|constructor].
  - injection H as <-. split; [by same|]. by apply Forall_app; split; [|constructor].
  - injection H as <-. split; [by same|]. by apply Forall_app; split; [|constructor].
  - injection H as <-. split; [by same|done].
Qed.

Lemma new_channel_traced : coordinator_traced (new_channel o).
Proof. split; [|constructor]. by split; cbn. Qed.
End coordinator.

(** ** The worker's end *)

Section worker.
Context (options : HostOptions) (own_fingerprint : Z) (stream_factory : Factory).
Context (registry : list (JobKindId * Kind)) (transfer : Z -> nat -> Payload -> expected (list byte) PipelineError)
  (store : option (nat -> list byte -> expected (list byte) PipelineError)).
Context (R : list byte -> Prop) (U D : list byte -> Payload -> Prop).
Implicit Types h : Host.

(** The inputs of a run are those of the request, and for a reference what it
    stands for. *)
Definition inputs_match (r : SubGraphRequest) (l : list Payload) : Prop :=
  length l = length (jobs r) /\
  forall i j, jobs r !! i = Some j -> exists p, l !! i = Some p /\
    if decide (kind (input j) = kReference) then U (bytes (input j)) p else p = input j.

Definition work_origin (w : Work) : Prop :=
  (exists f, R f /\ decodeRequest f = Some (work_id w, WorkerHost.request w)) /\ inputs_match (WorkerHost.request w) (inputs w).

Definition made h (w : Work) (results : list (JobResult * option Payload)) : Prop :=
  stop_requested w = true \/ exists fuel, runs_to registry transfer store h w fuel = Some results.

(** What the host shook hands on. *)
Definition shaken h (hello : Hello) (chosen : option StrategyOffer) : Prop :=
  chosen = chooseStrategy options stream_factory (strategies hello) /\ handshaken_ h = true /\
  WorkerHost.strategy_ h = offer_name <$> chosen /\ WorkerHost.inlineLimit_ h = Z.min (inlineBound options) (maxInlineBytes hello).

Definition out_traced h (x : Out) : Prop :=
  match x with
  | Sent f =>
      (exists rj, f = encodeReject rj) \/
      (exists fr hello chosen, R fr /\ frameType fr = Some kHello /\ decodeHello fr = Some hello /\ shaken h hello chosen /\
         f = encodeHello kHelloAck (own_ack options own_fingerprint chosen)) \/
      (exists fr id r b, R fr /\ decodeRequest fr = Some (id, r) /\ f = refusal id r b)
  | Replied w f =>
      exists work results, works h !! w = Some work /\ made h work results /\
        f = encodeReply (work_id work) (mkReply results.*1) results.*2
  | _ => True
  end.

Record host_traced h : Prop := {
  ht_works : Forall work_origin (works h);
  ht_out : Forall (out_traced h) (out h);
  ht_shaken : works h <> [] -> handshaken_ h = true
}.

(** Requests are only added, and asked to stop; the handshake is made once. *)
Record grows h h' : Prop := {
  gr_shaken : handshaken_ h = true -> handshaken_ h' = true /\ WorkerHost.strategy_ h' = WorkerHost.strategy_ h /\
    WorkerHost.inlineLimit_ h' = WorkerHost.inlineLimit_ h;
  gr_works : forall w x, works h !! w = Some x -> exists x', works h' !! w = Some x' /\ (x' = x \/ x' = request_stop x)
}.

Lemma grows_same h h' : handshaken_ h' = handshaken_ h -> WorkerHost.strategy_ h' = WorkerHost.strategy_ h ->
  WorkerHost.inlineLimit_ h' = WorkerHost.inlineLimit_ h -> works h' = works h -> grows h h'.
Proof. intros H1 H2 H3 H4. split; [intros ?; by rewrite H1, H2, H3|]. intros w x Hx. exists x. rewrite H4. auto. Qed.

Lemma out_grows h h' x : grows h h' -> (works h <> [] -> handshaken_ h = true) -> out_traced h x -> out_traced h' x.
Proof.
  intros [Hs Hw] Hsh. destruct x as [f|w f| |f]; cbn; [|intros (work & results & H1 & H2 & ->)|done..].
  - intros [?|[(fr & hello & chosen & H1 & H2 & H3 & (H4 & H5 & H6 & H7) & H8)|?]]; [by left| |by right; right].
    right. left. exists fr, hello, chosen. destruct (Hs H5) as (E1 & E2 & E3). unfold shaken. by rewrite E1, E2, E3.
  - destruct (Hw _ _ H1) as (work' & H1' & Hst). exists work', results. split; [done|].
    destruct Hst as [-> | ->]; [|split; [by left|done]]. split; [|done]. destruct H2 as [?|[fuel H2]]; [by left|]. right. exists fuel.
    destruct Hs as (_ & E2 & E3); [apply Hsh; intros E; by rewrite E in H1|].
    unfold runs_to, output_strategy in *. by rewrite E2, E3.
Qed.

Lemma traced_step h h' new : host_traced h -> grows h h' -> out h' = out h ++ new -> Forall (out_traced h') new ->
  Forall work_origin (works h') -> (works h' <> [] -> handshaken_ h' = true) -> host_traced h'.
Proof.
  intros [H1 H2 H3] Hg Ho Hn Hw Hs. split; [done| |done]. rewrite Ho. apply Forall_app. split; [|done].
  eapply Forall_impl; [exact H2|]. intros x. by apply out_grows.
Qed.

(** Steps that add nothing but to [out]. *)
Lemma traced_plain h h' new : host_traced h -> handshaken_ h' = handshaken_ h -> WorkerHost.strategy_ h' = WorkerHost.strategy_ h ->
  WorkerHost.inlineLimit_ h' = WorkerHost.inlineLimit_ h -> works h' = works h -> out h' = out h ++ new -> Forall (out_traced h) new -> host_traced h'.
Proof.
  intros Hh H1 H2 H3 H4 Ho Hn. assert (Hg : grows h h') by by apply grows_same.
  eapply traced_step; [exact Hh|exact Hg|exact Ho| |by rewrite H4; apply Hh|rewrite H4, H1; apply Hh].
  eapply Forall_impl; [exact Hn|]. intros x. apply out_grows; [done|apply Hh].
Qed.

Lemma stop_traced w h : host_traced h -> host_traced (stop_work w h).
Proof.
  intros Hh. eapply (traced_step h _ []); [done| |by cbn; rewrite app_nil_r|done|..]; cbn.
  - split; [done|]. intros v x Hx. cbn. destruct (decide (w = v)) as [E|E]; [rewrite E, list_lookup_alter_eq, Hx; cbn; eauto|rewrite list_lookup_alter_ne by done; eauto].
  - apply Forall_alter; [apply Hh|]. done.
  - intros H. apply Hh. intros E. apply H. by rewrite E.
Qed.

Lemma resolved_match h answers r frame id : decodeRequest frame = Some (id, r) -> inputs_stand U frame answers ->
  resolved_all (imap (resolve h answers) (jobs r)) = true ->
  inputs_match r (resolved_inputs (imap (resolve h answers) (jobs r))).
Proof.
  intros Hd Hu Hall. unfold resolved_all in Hall.
  unfold resolved_inputs. split; [by rewrite length_fmap, length_imap|]. intros i j Hj. rewrite list_lookup_fmap, list_lookup_imap, Hj. cbn.
  eexists. split; [done|].
  assert (Hx : imap (resolve h answers) (jobs r) !! i = Some (resolve h answers i j)) by by rewrite list_lookup_imap, Hj.
  apply list_elem_of_lookup_2, list_elem_of_In in Hx. rewrite forallb_forall in Hall. specialize (Hall _ Hx). revert Hall.
  unfold resolve. case_bool_decide as Ek; cbn; [|by rewrite decide_False]. rewrite decide_True by done.
  destruct (WorkerHost.strategy_ h); [|done]. destruct (answers i) as [p|] eqn:Ea; [|done]. intros _. by eapply Hu.
Qed.

Lemma frame_traced frame answers h : host_traced h -> R frame -> inputs_stand U frame answers -> host_traced (on_frame options own_fingerprint stream_factory frame answers h).
Proof.
  intros Hh HR Hu.
  assert (Hout : forall x, out_traced h x -> host_traced (with_out x h)).
  { intros x Hx. eapply (traced_plain h _ [x]); [done..|]. by constructor. }
  unfold on_frame. destruct (frameType frame) as [[]|] eqn:Ef; try (by apply Hout).
  - unfold hello_frame. destruct (decodeHello frame) as [hello|] eqn:Ed; [|by apply Hout]. destruct (handshaken_ h) eqn:Es; [by apply Hout|].
    destruct (_ || _).
    + eapply (traced_plain h _ [Sent _; Closes]); [done..|cbn; by rewrite <- app_assoc|]. constructor; [left; by eexists|by constructor].
    + assert (Hw : works h = []).
      { destruct (works h) as [|x l] eqn:E; [done|]. assert (H : handshaken_ h = true) by (apply Hh; by rewrite E). congruence. }
      eapply (traced_step h _ [Sent _]); [done| |done| |cbn; by rewrite Hw|done].
      * split; [congruence|]. intros w x Hx. by rewrite Hw in Hx.
      * constructor; [|constructor]. right. left. by exists frame, hello, (chooseStrategy options stream_factory (strategies hello)).
  - unfold request_frame. destruct (decodeRequest frame) as [[id r]|] eqn:Ed; [|by apply Hout].
    destruct (handshaken_ h) eqn:Es; cbn [negb]; [|by apply Hout]. destruct (resolved_all _) eqn:Er.
    + destruct (_ <=? _); cbn [orb negb]; [apply Hout; right; right; by eexists frame, id, r, _|].
      eapply (traced_step h _ []); [done| |cbn; by rewrite app_nil_r|done| |done]; cbn.
      * split; [done|]. intros w x Hx. exists x. split; [|by left]. cbn. by apply lookup_app_l_Some.
      * apply Forall_app. split; [apply Hh|]. constructor; [|done]. split; [by exists frame|]. by eapply resolved_match.
    + rewrite orb_true_r. apply Hout. right. right. by eexists frame, id, r, _.
  - unfold cancel_frame. destruct (decodeCancel frame); [|done]. destruct (cancel_target _ _); [by apply stop_traced|done].
  - destruct (WorkerHost.strategy_ h); by apply Hout.
Qed.

Definition runner_makes h (mv : WorkerHost.Move) : Prop :=
  match mv with
  | WorkerHost.MFrame f answers => R f /\ inputs_stand U f answers
  | MRunner k results => forall w, runners h !! k = Some (RRuns w) -> exists work, works h !! w = Some work /\ made h work results
  | _ => True
  end.

Lemma host_move_traced mv h h' : host_traced h -> runner_makes h mv -> host_move options own_fingerprint stream_factory mv h = Some h' -> host_traced h'.
Proof.
  intros Hh Hmv H. destruct mv as [frame answers| |stop|k results]; cbn in H.
  - destruct (WorkerHost.closed_ h); [done|]. injection H as <-. destruct Hmv. by apply frame_traced.
  - destruct (WorkerHost.closed_ h); [done|]. injection H as <-. by eapply (traced_plain h _ []); [..|cbn; by rewrite app_nil_r|].
  - unfold serve_step in H. destruct (serving h) as [| |[|w l]| |]; repeat case_match; try done; injection H as <-;
      try (by eapply (traced_plain h _ []); [..|cbn; by rewrite app_nil_r|]).
    + eapply (traced_plain h _ [Closes]); [done..|]. by repeat constructor.
    + by eapply (traced_plain (stop_work w h) _ []); [apply stop_traced|..|cbn; by rewrite app_nil_r|].
  - unfold runner_step in H. cbn in Hmv. destruct (runners h !! k) as [[|w|w|]|]; try done.
    + destruct (queue_ h); [destruct (serving h)|]; try done; injection H as <-; by eapply (traced_plain h _ []); [..|cbn; by rewrite app_nil_r|].
    + injection H as <-. destruct (Hmv w eq_refl) as (work & Hw & Hm). eapply (traced_plain h _ [Replied _ _]); [done..|].
      constructor; [|done]. exists work, results. split; [done|]. split; [done|]. unfold id_of. by rewrite Hw.
    + injection H as <-. by eapply (traced_plain h _ []); [..|cbn; by rewrite app_nil_r|].
Qed.

Lemma serve_begin_traced : host_traced (serve_begin options).
Proof. by split; cbn. Qed.
End worker.

(** ** Both ends *)

Lemma prefix_step {A} (l l' new : list A) : l' = l ++ new -> l `prefix_of` l'.
Proof. intros ->. by exists new. Qed.
Ltac sends := first [by apply prefix_step with (new := []); cbn; rewrite app_nil_r|by eapply prefix_step; cbn|
  by eapply prefix_step; cbn; rewrite <- app_assoc].

Lemma host_move_sends options own sf mv h h' : host_move options own sf mv h = Some h' -> out h `prefix_of` out h'.
Proof.
  destruct mv as [frame answers| |stop|k results]; cbn.
  - destruct (WorkerHost.closed_ h); [done|]. intros [= <-].
    unfold on_frame, hello_frame, request_frame, cancel_frame. repeat case_match; sends.
  - destruct (WorkerHost.closed_ h); [done|]. intros [= <-]. done.
  - unfold serve_step. repeat case_match; try done; intros [= <-]; sends.
  - unfold runner_step. repeat case_match; try done; intros [= <-]; sends.
Qed.

Lemma task_step_sends a t c c' t' : task_step a t c = Some (c', t') -> sent (world c) `prefix_of` sent (world c').
Proof.
  intros H.
  destruct t as [| |s|s e msg|id s [|j rest] ov|id s ov|id|id e msg|id s e msg next|[s|]| |frame|id reply|id p reply next| |[|s l]|id|], a;
    try discriminate H; cbn [task_step] in H;
    unfold frame_step, send_step, replied_step, closed_step, endScope_of in H; repeat case_match; simplify_eq; sends.
Qed.

Lemma channel_move_sends mv c c' : channel_move mv c = Some c' -> sent (world c) `prefix_of` sent (world c').
Proof.
  destruct mv as [k a| |s|d|id|frame| |]; cbn; try (intros [= <-]; sends).
  - destruct (tasks c !! k) as [t|]; [|done]. cbn. destruct (task_step a t c) as [[c1 t1]|] eqn:E; [|done]. intros [= <-].
    exact (task_step_sends _ _ _ _ _ E).
  - repeat case_match; try done. intros [= <-]. sends.
Qed.

(** More frames delivered. *)
Section more.
Context (R R' : list byte -> Prop) (Hmore : forall f, R f -> R' f).

Lemma coordinator_more o P U D c : coordinator_traced o P R U D c -> coordinator_traced o P R' U D c.
Proof.
  assert (Hread : forall e, was_read R D e -> was_read R' D e) by (intros e (f & b & rc & reply & ? & ?); exists f, b, rc, reply; auto).
  intros [[H1 H2 H3 H4 H5 H6] Ht]. split.
  - split; try done; [by eapply Forall_impl|]. intros E. destruct (H6 E) as (f & ? & ?). exists f. auto.
  - eapply Forall_impl; [exact Ht|]. intros []; cbn; auto.
Qed.

Lemma host_more options own sf registry transfer store U h :
  host_traced options own sf registry transfer store R U h -> host_traced options own sf registry transfer store R' U h.
Proof.
  intros [H1 H2 H3]. split; [| |done].
  - eapply Forall_impl; [exact H1|]. intros w [(f & ? & ?) ?]. split; [exists f; auto|done].
  - eapply Forall_impl; [exact H2|]. intros [f| | |]; cbn; try done.
    intros [?|[(fr & hello & chosen & ? & ?)|(fr & id & r & b & ? & ?)]]; [by left|right; left; exists fr, hello, chosen; auto|right; right].
    exists fr, id, r, b. auto.
Qed.
End more.

Section both.
Context (o : Options) (options : HostOptions) (own_fingerprint : Z) (stream_factory : Factory).
Context (registry : list (JobKindId * Kind)) (transfer : Z -> nat -> Payload -> expected (list byte) PipelineError)
  (store : option (nat -> list byte -> expected (list byte) PipelineError)).
Context (U D : list byte -> Payload -> Prop).
Implicit Types n : Connection.

(** Submissions are requests that the builder makes. *)
Definition built_request (s : Submission) : Prop := request_ok (Channel.request s).
Definition submits_built (mv : ConnectionMove) : Prop := match mv with CChannel (MSubmit s) => built_request s | _ => True end.

Definition goes_up n (f : list byte) : Prop := f ∈ sent (world (chan n)) \/ frameType f = Some kPayload.
Definition goes_down n (f : list byte) : Prop := f ∈ host_frames (host n) \/ frameType f = Some kPayload.

Record connection_traced (k : Z) n : Prop := {
  ct_chan : coordinator_traced o built_request (goes_down n) U D (chan n);
  ct_host : host_traced options own_fingerprint stream_factory registry transfer store (goes_up n) U (host n);
  ct_inv : channel_inv k (chan n)
}.

Lemma channel_side k mv n c' i j : k + 2 < 2 ^ 64 -> connection_traced k n -> move_allowed built_request (goes_down n) U D (chan n) mv ->
  channel_move mv (chan n) = Some c' -> connection_traced (k + 1) (mkConnection c' (host n) i j).
Proof.
  intros Hk [Hc Hh Hi] Hmv H. split; cbn.
  - exact (channel_move_traced _ _ _ _ _ _ _ _ Hc Hmv H).
  - eapply host_more; [|exact Hh]. intros f [Hf|Hf]; [left|by right]. destruct (channel_move_sends _ _ _ H) as [new E]. cbn. rewrite E. set_solver.
  - by eapply channel_move_inv.
Qed.

Lemma host_side k mv n h' i j : connection_traced k n -> runner_makes registry transfer store (goes_up n) U (host n) mv ->
  host_move options own_fingerprint stream_factory mv (host n) = Some h' -> connection_traced k (mkConnection (chan n) h' i j).
Proof.
  intros [Hc Hh Hi] Hmv H. split; cbn; [| |done].
  - eapply coordinator_more; [|exact Hc]. intros f [Hf|Hf]; [left|by right]. destruct (host_move_sends _ _ _ _ _ _ H) as [new E].
    unfold host_frames in *. cbn. rewrite E, omap_app. set_solver.
  - exact (host_move_traced _ _ _ _ _ _ _ _ _ _ _ Hh Hmv H).
Qed.

Lemma connection_move_traced k mv n n' : k + 2 < 2 ^ 64 -> connection_traced k n -> submits_built mv -> move_stands U D mv n ->
  connection_move options own_fingerprint stream_factory registry transfer store mv n = Some n' -> connection_traced (k + 1) n'.
Proof.
  intros Hk Hn Hmv Hst H.
  assert (Hhost : forall mv h', runner_makes registry transfer store (goes_up n) U (host n) mv ->
    host_move options own_fingerprint stream_factory mv (host n) = Some h' -> forall i j, connection_traced (k + 1) (mkConnection (chan n) h' i j)).
  { intros mv' h' H1 H2 i j. destruct (host_side k mv' n h' i j Hn H1 H2) as [Ha Hb Hc]. split; [done..|].
    destruct Hc as [C1 C2 C3 C4 C5]. split; try done. eapply book_inv_mono; [|exact C2]. lia. }
  destruct mv as [mv|answers| |f|f| |stop|w fuel stopped]; cbn [connection_move] in H.
  - destruct (is_delivery mv) eqn:Ed; [done|]. apply fmap_Some in H as (c & H & ->). eapply channel_side; [done..| |exact H]. by destruct mv.
  - apply bind_Some in H as (f & Hf & H). apply fmap_Some in H as (n1 & H & ->). unfold host_step in H. apply fmap_Some in H as (h & H & ->).
    eapply (Hhost (WorkerHost.MFrame f answers)); [|exact H]. split; [left; by apply list_elem_of_lookup_2 in Hf|by apply Hst].
  - apply bind_Some in H as (f & Hf & H). apply fmap_Some in H as (c & H & ->). eapply channel_side; [done..| |exact H].
    left. by apply list_elem_of_lookup_2 in Hf.
  - destruct (payload_frame f) eqn:Ep; [|done]. unfold host_step in H. apply fmap_Some in H as (h & H & ->). eapply (Hhost (WorkerHost.MFrame f _)); [|exact H].
    split; [right; by apply bool_decide_eq_true in Ep|]. by intros ? ? ? ? ?.
  - destruct (payload_frame f) eqn:Ep; [|done]. apply fmap_Some in H as (c & H & ->). eapply channel_side; [done..| |exact H].
    right. by apply bool_decide_eq_true in Ep.
  - unfold host_step in H. apply fmap_Some in H as (h & H & ->). by eapply (Hhost WorkerHost.MClosed).
  - unfold host_step in H. apply fmap_Some in H as (h & H & ->). by eapply (Hhost (MServe stop)).
  - apply bind_Some in H as (results & Hr & H). unfold host_step in H. apply fmap_Some in H as (h & H & ->). eapply (Hhost (MRunner w results)); [|exact H].
    intros v Hv. unfold run_results in Hr. rewrite Hv in Hr. apply bind_Some in Hr as (work & Hw & Hr). exists work. split; [done|].
    destruct (stop_requested work) eqn:Es; [by left|]. right. by exists fuel.
Qed.

Lemma connection_moves_traced l k n n' : k + zlen l + 2 < 2 ^ 64 -> connection_traced k n -> Forall submits_built l ->
  answers_stand options own_fingerprint stream_factory registry transfer store U D l n ->
  connection_moves options own_fingerprint stream_factory registry transfer store l n = Some n' -> connection_traced (k + zlen l) n'.
Proof.
  revert k n. induction l as [|mv l IH]; intros k n Hk Hn Hl Hst H; cbn in H.
  - injection H as <-. unfold zlen. cbn. by rewrite Z.add_0_r.
  - apply bind_Some in H as (n1 & H1 & H2). inversion_clear Hl as [|? ? Hm Hl']. unfold zlen in *. cbn [length] in *.
    replace (k + Z.of_nat (S (length l))) with (k + 1 + Z.of_nat (length l)) by lia. destruct Hst as [Hs1 Hs2]. eapply IH; [lia| |done|by apply Hs2|exact H2].
    eapply connection_move_traced; [lia|done..].
Qed.

Lemma connection_begin_traced : connection_traced 0 (connection_begin o options).
Proof. split; [apply new_channel_traced|apply serve_begin_traced|apply new_channel_inv]. Qed.
End both.

(** ** What arrives is what was sent *)

(** A frame has the type it was written with, or, over 4 GiB, none. *)
Lemma written_type t b : frameType (finish (new_writer t ++ b)) = Some t \/ frameType (finish (new_writer t ++ b)) = None.
Proof. destruct (Z.lt_ge_cases (zlen b) (2 ^ 32)); [left; by apply frame_frameType|right; by apply oversized_frameType]. Qed.
Lemma cancel_type id : frameType (encodeCancel id) = Some kCancel \/ frameType (encodeCancel id) = None.
Proof. unfold encodeCancel. autorewrite with codecs. apply written_type. Qed.
Lemma hello_type t x : frameType (encodeHello t x) = Some t \/ frameType (encodeHello t x) = None.
Proof. rewrite encodeHello_bytes. apply written_type. Qed.
Lemma reject_type x : frameType (encodeReject x) = Some kHelloReject \/ frameType (encodeReject x) = None.
Proof. unfold encodeReject. autorewrite with codecs. apply written_type. Qed.
Lemma reply_type id x ov : frameType (encodeReply id x ov) = Some kReply \/ frameType (encodeReply id x ov) = None.
Proof. rewrite encodeReply_bytes. apply written_type. Qed.
Lemma request_type id r ov f : encodeRequest id r ov = Some f -> frameType f = Some kRequest \/ frameType f = None.
Proof. intros [_ ->]%encodeRequest_iff. apply written_type. Qed.

Lemma decoded_request_type f x : decodeRequest f = Some x -> frameType f = Some kRequest.
Proof. unfold decodeRequest, bodyOf. by case_bool_decide. Qed.
Lemma decoded_reply_type f x : decodeReply f = Some x -> frameType f = Some kReply.
Proof. unfold decodeReply, bodyOf. by case_bool_decide. Qed.

Lemma reply_id id reply ov x : is_u64 id -> decodeReply (encodeReply id reply ov) = Some x ->
  x.1 = id /\ zlen (encodeReply id reply ov) - 5 < 2 ^ 32.
Proof.
  intros Hid H. pose proof (decoded_reply_type _ _ H) as Ht. rewrite encodeReply_bytes in Ht, H. rewrite encodeReply_bytes, length_frame.
  assert (Hl : zlen (reply_body id reply ov) < 2 ^ 32).
  { destruct (Z.lt_ge_cases (zlen (reply_body id reply ov)) (2 ^ 32)) as [|Hl]; [done|]. by rewrite (oversized_frameType _ _ Hl) in Ht. }
  split; [|lia]. revert H. unfold decodeReply. rewrite frame_bodyOf by done.
  pose proof (ahead_new (reply_body id reply ov)) as Ha. unfold reply_body at 2 in Ha. reads Ha as r1 by exact Hid.
  destruct (get_u32 r1) as [n r2]. destruct (_ || _); [done|]. destruct (get_results _ _ _) as [[l r3]|]; [|done]. by intros [= <-].
Qed.
