(* ===== verification/EndToEnd.v ===== *)
(** What a connection promises its user: the two ends agree on what the handshake
    settled, and a remote job that completes with success was run, whole. *)
From S2P Require Import Prelude Types Bytes Payload SubGraph Registry Wire WireCodec WireCorrect Stream WorkerRun WorkerCorrect WorkerOutcome WorkerHost Channel ChannelCorrect Connection ConnectionCorrect.

Lemma NoDup_fst_unique {A B} (l : list (A * B)) a b c : NoDup l.*1 -> (a, b) ∈ l -> (a, c) ∈ l -> b = c.
Proof.
  induction l as [|[x y] l IH]; cbn; [set_solver|]. rewrite NoDup_cons, !elem_of_cons. intros [Hx Hl] Hb Hc.
  assert (Hno : forall z, (x, z) ∉ l) by (intros z Hz; apply Hx, list_elem_of_fmap; by exists (x, z)).
  destruct Hb as [Hb|Hb], Hc as [Hc|Hc]; simplify_eq; [done|by destruct (Hno c)|by destruct (Hno b)|by apply IH].
Qed.

Section remote.
Context (o : Options) (options : HostOptions) (own_fingerprint : Z) (stream_factory : Factory).
Context (registry : list (JobKindId * Kind)) (transfer : Z -> nat -> Payload -> expected (list byte) PipelineError)
  (store : option (nat -> list byte -> expected (list byte) PipelineError)).
Context (up_ref down_ref : list byte -> Payload -> Prop).
Implicit Types n : Connection.
Abbreviation traced_to := (connection_traced o options own_fingerprint stream_factory registry transfer store up_ref down_ref).
Abbreviation answered_in l := (answers_stand options own_fingerprint stream_factory registry transfer store up_ref down_ref l (connection_begin o options)).
Abbreviation moves_to l n := (connection_moves options own_fingerprint stream_factory registry transfer store l (connection_begin o options) = Some n).

Lemma reached_traced l n : zlen l < 2 ^ 64 - 2 -> Forall submits_built l -> answered_in l -> moves_to l n -> traced_to (zlen l) n.
Proof.
  intros Hl Hs Ha H. change (zlen l) with (0 + zlen l).
  exact (connection_moves_traced _ _ _ _ _ _ _ _ _ l 0 _ _ ltac:(lia) (connection_begin_traced _ _ _ _ _ _ _ _ _) Hs Ha H).
Qed.

(** ** Requests and replies *)

Lemma statuses_as_sent reply ov : status <$> results (reply_as_sent reply ov) = status <$> results reply.
Proof. apply list_eq. intros i. cbn. rewrite !list_lookup_fmap, list_lookup_imap. by destruct (results reply !! i). Qed.

(** What the worker reads off a frame as a request is one the channel admitted. *)
Lemma arrived_request k n f id r : k + 2 < 2 ^ 64 -> traced_to k n -> goes_up n f -> decodeRequest f = Some (id, r) ->
  exists s ov, (id, s) ∈ assigned (chan n) /\ overrides_stand up_ref (Channel.request s) ov /\ r = as_sent (Channel.request s) ov.
Proof.
  intros Hk Hn Hf Hd. pose proof (decoded_request_type _ _ Hd) as Ht. destruct Hf as [Hf|Hf]; [|congruence].
  pose proof (tr_frames _ _ _ _ _ _ (proj1 (ct_chan _ _ _ _ _ _ _ _ _ _ _ Hn))) as Hs. rewrite Forall_forall in Hs.
  destruct (Hs f Hf) as [->|[[i ->]|(i & s & ov & Hin & Hov & He)]].
  - destruct (hello_type kHello (own_hello o)); congruence.
  - destruct (cancel_type i); congruence.
  - pose proof (bi_ids _ _ (ci_book _ _ (ct_inv _ _ _ _ _ _ _ _ _ _ _ Hn))) as [_ Hids]. rewrite Forall_forall in Hids.
    pose proof (bi_next _ _ (ci_book _ _ (ct_inv _ _ _ _ _ _ _ _ _ _ _ Hn))) as [_ Hnext]. specialize (Hids _ Hin). cbn in Hids.
    pose proof (tr_assigned _ _ _ _ _ _ (proj1 (ct_chan _ _ _ _ _ _ _ _ _ _ _ Hn))) as Hb. rewrite Forall_forall in Hb. specialize (Hb _ Hin).
    destruct (Z.lt_ge_cases (zlen f - 5) (2 ^ 32)) as [Hlt|Hge]; [|by rewrite (oversized_request_unreadable _ _ _ _ He Hge) in Hd].
    rewrite (request_reads_back i (Channel.request s) ov f) in Hd; [|unfold is_u64; lia|by eapply Hb|by eapply overrides_stand_ok|done..]. injection Hd as <- <-. by exists s, ov.
Qed.

(** A request that arrives under a submission's id is that submission's. *)
Lemma same_request k n id s f r : k + 2 < 2 ^ 64 -> traced_to k n -> (id, s) ∈ assigned (chan n) -> goes_up n f ->
  decodeRequest f = Some (id, r) -> exists ov, overrides_stand up_ref (Channel.request s) ov /\ r = as_sent (Channel.request s) ov.
Proof.
  intros Hk Hn Hin Hup Hdr. destruct (arrived_request k _ _ _ _ Hk Hn Hup Hdr) as (s' & ov & Hin' & Hov & ->).
  pose proof (bi_ids _ _ (ci_book _ _ (ct_inv _ _ _ _ _ _ _ _ _ _ _ Hn))) as [Hnd _].
  rewrite (NoDup_fst_unique _ _ _ _ Hnd Hin' Hin) in Hov |- *. by exists ov.
Qed.

(** The results of the work a reply is for, if it was not asked to stop. *)
Definition ran n (w : Work) (results : list (JobResult * option Payload)) : Prop :=
  exists fuel, runs_to registry transfer store (host n) w fuel = Some results.

Lemma ran_results n w results : kinds_ok registry -> (exists f id, decodeRequest f = Some (id, WorkerHost.request w)) -> ran n w results ->
  length results = length (jobs (WorkerHost.request w)) /\
  (Forall (fun x => is_failure x.1 = false) results -> Forall (fun x => status x.1 = JobStatus_u8 kDone) results) /\
  (kinds_fit registry -> (forall id i p ref, transfer id i p = Expected ref -> zlen ref <= 2 ^ 32 - 1) -> Forall sendable results).
Proof.
  intros Hk (f & id & Hd) [fuel H]. destruct (decoded_request_ok _ _ _ Hd) as (_ & Hr & _).
  destruct (worker_run_results _ _ _ _ _ _ _ _ Hr Hk H) as (H1 & H2 & H3). split; [done|]. split; [done|]. intros Hkf Ht. apply H3; [done|].
  intros send i p ref Hs. unfold output_strategy in Hs. destruct (WorkerHost.strategy_ (host n)); [|done]. injection Hs as <-. apply Ht.
Qed.

(** A reply that arrives is the refusal of a request that was received, or what the
    work of that id came to. *)
Lemma arrived_reply k n f id reply : kinds_ok registry -> kinds_fit registry ->
  (forall id i p ref, transfer id i p = Expected ref -> zlen ref <= 2 ^ 32 - 1) ->
  traced_to k n -> goes_down n f -> decodeReply f = Some (id, reply) ->
  (exists fr r b, goes_up n fr /\ decodeRequest fr = Some (id, r) /\ status <$> results reply = replicate (length (jobs r)) (status (refused_result b))) \/
  exists w work, works (host n) !! w = Some work /\ work_id work = id /\
    (stop_requested work = true \/ exists res, ran n work res /\ reply = reply_as_sent (mkReply res.*1) res.*2).
Proof.
  intros Hk Hkf Htf Hn Hf Hd. pose proof (decoded_reply_type _ _ Hd) as Ht. destruct Hf as [Hf|Hf]; [|congruence].
  pose proof (ct_host _ _ _ _ _ _ _ _ _ _ _ Hn) as [Hworks Hout _]. rewrite Forall_forall in Hworks. rewrite Forall_forall in Hout.
  unfold host_frames in Hf. apply list_elem_of_omap in Hf as (x & Hx & Ef). specialize (Hout x Hx). destruct x as [g|w g| |]; try done; injection Ef as ->.
  - destruct Hout as [[rj ->]|[(fr & hello & chosen & _ & _ & _ & _ & ->)|(fr & i & r & b & Hfr & Hdr & ->)]].
    + destruct (reject_type rj); congruence.
    + destruct (hello_type kHelloAck (own_ack options own_fingerprint chosen)); congruence.
    + left. destruct (decoded_request_ok _ _ _ Hdr) as (Hi & _ & Hfit & _). destruct (reply_id _ _ _ _ Hi Hd) as [Ei Hlen]. cbn in Ei. subst i.
      exists fr, r, b. split; [done|]. split; [done|]. unfold refusal in Hd. rewrite reply_reads_back in Hd; [|done|..|done].
      * injection Hd as <-. rewrite statuses_as_sent. cbn [results]. by rewrite fmap_replicate.
      * cbn. pose proof (rf_jobs _ _ Hfit) as Hj. unfold zlen in *. by rewrite length_replicate.
      * intros j x Hj. cbn in Hj. apply lookup_replicate in Hj as [-> _]. split; [apply JobStatus_u8_range|]. split; [apply PipelineError_u8_range|done].
  - destruct Hout as (work & res & Hw & Hm & ->). destruct (Hworks work) as [(fr & Hfr & Hdr) _]; [by eapply list_elem_of_lookup_2|].
    destruct (decoded_request_ok _ _ _ Hdr) as (Hi & _ & Hfit & _). destruct (reply_id _ _ _ _ Hi Hd) as [Ei Hlen]. cbn in Ei.
    right. exists w, work. split; [done|]. split; [done|]. destruct Hm as [Hm|Hm]; [by left|right]. exists res. split; [done|].
    destruct (ran_results n work res Hk (ex_intro _ fr (ex_intro _ _ Hdr)) Hm) as (Hl & _ & Hs). specialize (Hs Hkf Htf).
    rewrite reply_reads_back in Hd; [by injection Hd|done| |..|done].
    + cbn. pose proof (rf_jobs _ _ Hfit) as Hj. unfold zlen, jobs in *. rewrite length_fmap. lia.
    + intros j x Hj. cbn in Hj. rewrite list_lookup_fmap in Hj. apply fmap_Some in Hj as (y & Hy & ->). by eapply sendable_ok.
Qed.

(** ** Success *)

Lemma failure_status x y : status x = status y -> is_failure x = is_failure y.
Proof. unfold is_failure. by intros ->. Qed.

Lemma no_failure_received b receive reply : firstFailure (receive_outputs b receive reply) = None -> Forall (fun x => is_failure x = false) (results reply).
Proof.
  unfold firstFailure. intros H. pose proof (first_failure_from_spec (results (receive_outputs b receive reply)) 0) as Hs. rewrite H in Hs.
  rewrite Forall_lookup in Hs. apply Forall_lookup. intros i x Hx. specialize (Hs i (receive_output b receive i x)). cbn in Hs.
  rewrite list_lookup_imap, Hx in Hs. specialize (Hs eq_refl). revert Hs. unfold receive_output.
  case_bool_decide; [|done]. destruct (if b then _ else _); [done|]. intros E. by vm_compute in E.
Qed.

Lemma no_failure_sent reply ov : Forall (fun x => is_failure x = false) (results (reply_as_sent reply ov)) -> Forall (fun x => is_failure x = false) (results reply).
Proof.
  rewrite !Forall_lookup. intros H i x Hx. rewrite <- (H i (result_as_sent ov i x)); [by apply failure_status|].
  cbn. by rewrite list_lookup_imap, Hx.
Qed.

(** Refusing a request is a success only when it has no jobs. *)
Lemma refused_empty (r : SubGraphRequest) ov b reply : Forall (fun x => is_failure x = false) (results reply) ->
  status <$> results reply = replicate (length (jobs (as_sent r ov))) (status (refused_result b)) -> jobs r = [].
Proof.
  intros Hnf Hst. replace (length (jobs (as_sent r ov))) with (length (jobs r)) in Hst by (symmetry; apply length_imap).
  destruct (jobs r); [done|exfalso]. destruct (results reply) as [|x xs]; [done|]. injection Hst as Hx _. inversion_clear Hnf as [|? ? Hx' _].
  rewrite (failure_status x (refused_result b) Hx) in Hx'. destruct b; by vm_compute in Hx'.
Qed.

(** ** Payloads *)

Abbreviation carries_down := (forall id i p ref, transfer id i p = Expected ref -> zlen ref <= 2 ^ 32 - 1 /\ down_ref ref p).
Definition one_payload (stands : list byte -> Payload -> Prop) : Prop := forall ref p q, stands ref p -> stands ref q -> p ≡ q.

(** The inputs of a run are those submitted. *)
Lemma inputs_arrive (r : SubGraphRequest) ov l : one_payload up_ref -> overrides_stand up_ref r ov -> inputs_match up_ref (as_sent r ov) l ->
  Forall (fun j => kind (input j) <> kReference) (jobs r) -> Forall2 (≡) l (input <$> jobs r).
Proof.
  intros Hone Hov [Hl Hin] Hk. unfold as_sent, jobs in *. cbn in Hl, Hin. rewrite length_imap in Hl. apply Forall2_same_length_lookup_2; [by rewrite length_fmap|].
  intros i p q Hp Hq. rewrite list_lookup_fmap in Hq. apply fmap_Some in Hq as (j & Hj & ->). specialize (Hin i). rewrite list_lookup_imap, Hj in Hin.
  destruct (Hin _ eq_refl) as (p' & Hp' & Hm). simplify_eq. cbn in Hm. unfold overridden in Hm.
  destruct (ov !! i) as [[q|]|] eqn:Eo; cbn in Hm.
  - destruct (Hov _ _ Eo) as (j' & ref & Hj' & -> & Hu). unfold jobs in Hj'. simplify_eq. rewrite decide_True in Hm by done. by eapply Hone.
  - rewrite decide_False in Hm by exact (Forall_lookup_1 _ _ _ _ Hk Hj). by rewrite Hm.
  - rewrite decide_False in Hm by exact (Forall_lookup_1 _ _ _ _ Hk Hj). by rewrite Hm.
Qed.

Lemma failed_is_failure e msg p : is_failure (mkResult (JobStatus_u8 kFailed) e msg p) = true.
Proof. done. Qed.

(** An output that a successful job's reply gives to its handler is the run's. *)
Lemma output_arrives send b receive (res : list (JobResult * option Payload)) reply i x :
  (forall f j p ref, send = Some f -> f j p = Expected ref -> down_ref ref p) -> (forall j ref p, receive j ref = Expected p -> down_ref ref p) ->
  one_payload down_ref -> Forall (carried send) res ->
  reply = receive_outputs b receive (reply_as_sent (mkReply res.*1) res.*2) -> firstFailure reply = None ->
  res !! i = Some x -> kind (output x.1) <> kReference ->
  exists y, results reply !! i = Some y /\ output y ≡ output x.1.
Proof.
  intros Hsend Hrec Hone Hcar -> Hf Hi Hk.
  assert (Hy : results (receive_outputs b receive (reply_as_sent (mkReply res.*1) res.*2)) !! i =
    Some (receive_output b receive i (result_as_sent res.*2 i x.1))) by (cbn; by rewrite !list_lookup_imap, list_lookup_fmap, Hi).
  eexists. split; [exact Hy|].
  unfold firstFailure in Hf. pose proof (first_failure_from_spec (results (receive_outputs b receive (reply_as_sent (mkReply res.*1) res.*2))) 0) as Hs.
  rewrite Hf in Hs. pose proof (Forall_lookup_1 _ _ _ _ Hs Hy) as Hnf. cbv beta in Hnf. clear Hs Hy Hf.
  assert (E : output (result_as_sent res.*2 i x.1) = owned (default (output x.1) x.2)).
  { cbn. unfold overridden. rewrite list_lookup_fmap, Hi. cbn. by destruct x as [z [q|]]. }
  revert Hnf. unfold receive_output. rewrite E. destruct x.2 as [q|] eqn:Ex; cbn [from_option id].
  - destruct (Forall_lookup_1 _ _ _ _ Hcar Hi q Ex) as (f & j & ref & Hs & Hr & ->). rewrite bool_decide_true by done.
    destruct b; [|rewrite failed_is_failure; discriminate].
    destruct (receive i (bytes (owned (reference ref)))) as [p|] eqn:Er; [|rewrite failed_is_failure; discriminate].
    intros _. cbn [output]. apply Hrec in Er. cbn in Er. eapply Hone; [exact Er|]. by eapply Hsend.
  - rewrite bool_decide_false by done. intros _. rewrite E. apply owned_equiv.
Qed.

(** C24. A remote job of a request with at least one job that completes with success,
    and was not itself stopped, was run: whatever the threads of both ends and the
    transport do, the worker received the request submitted for it, under the id it was
    admitted with, gave its run the submitted inputs, sent back one result per job, all
    of them done, and the job's reply handler was given the run's own outputs (unless the
    worker was asked to stop the request meanwhile). A request of no jobs may succeed
    without a run: refused at capacity, it comes back with no result, hence no failure.
    The worker runs its requests inline, its kinds never return [kCancelled], and each
    output of theirs fits a frame. Large payloads may go through a strategy: it is taken
    to give, for a reference, the payload it was sent as. *)
Theorem remote_success_means_run l n d msg :
  zlen l < 2 ^ 64 - 2 -> Forall submits_built l -> kinds_ok registry -> kinds_fit registry ->
  carries_down -> one_payload up_ref -> one_payload down_ref -> answered_in l -> moves_to l n ->
  (d, Expected tt, msg) ∈ finished (world (chan n)) -> d ∉ stopping (world (chan n)) ->
  exists id s, (id, s) ∈ assigned (chan n) /\ done_ s = d /\
    (jobs (Channel.request s) = [] \/
     exists ov w work, works (host n) !! w = Some work /\ work_id work = id /\
       WorkerHost.request work = as_sent (Channel.request s) ov /\
       (Forall (fun j => kind (input j) <> kReference) (jobs (Channel.request s)) ->
          Forall2 (≡) (inputs work) (input <$> jobs (Channel.request s))) /\
       (stop_requested work = true \/
        exists res, ran n work res /\ length res = length (jobs (Channel.request s)) /\
          Forall (fun x => status x.1 = JobStatus_u8 kDone) res /\
          (onReply s = true -> exists reply, (d, reply) ∈ handled (world (chan n)) /\
             forall i x, res !! i = Some x -> kind (output x.1) <> kReference ->
               exists y, results reply !! i = Some y /\ output y ≡ output x.1))).
Proof.
  intros Hl Hsub Hk Hkf Hcd Hup1 Hdown1 Hans Hm Hfin Hd. pose proof (reached_traced _ _ Hl Hsub Hans Hm) as Hn.
  destruct (ci_earned _ _ (ct_inv _ _ _ _ _ _ _ _ _ _ _ Hn) _ _ Hfin) as [?|(id & s & reply & Hin & Hs & Hr & Hf & Hlen & Hh)]; [done|].
  exists id, s. split; [done|]. split; [done|].
  assert (Hsame : forall f r, goes_up n f -> decodeRequest f = Some (id, r) ->
    exists ov, overrides_stand up_ref (Channel.request s) ov /\ r = as_sent (Channel.request s) ov).
  { intros f r Hup Hdr. by eapply (same_request (zlen l)); [lia|..]. }
  pose proof (tr_replies _ _ _ _ _ _ (proj1 (ct_chan _ _ _ _ _ _ _ _ _ _ _ Hn))) as Hread. rewrite Forall_forall in Hread.
  destruct (Hread _ Hr) as (f & b & receive & reply0 & Hdown & Hdec & E & Hrec). cbn in Hdec, E. subst reply.
  pose proof (no_failure_received _ _ _ Hf) as Hnf.
  destruct (arrived_reply _ _ _ _ _ Hk Hkf (fun id i p ref H => proj1 (Hcd id i p ref H)) Hn Hdown Hdec)
    as [(fr & r & b' & Hup & Hdr & Hst)|(w & work & Hw & Hid & Hwork)].
  - left. destruct (Hsame _ _ Hup Hdr) as (ov & _ & ->). by eapply refused_empty.
  - right. pose proof (ct_host _ _ _ _ _ _ _ _ _ _ _ Hn) as [Horigin _ _]. rewrite Forall_forall in Horigin.
    destruct (Horigin work) as [(fr & Hup & Hdr) Hmatch]; [by eapply list_elem_of_lookup_2|]. rewrite Hid in Hdr.
    destruct (Hsame _ _ Hup Hdr) as (ov & Hov & Eov). exists ov, w, work. repeat (split; [done|]). rewrite Eov in Hmatch.
    split; [by apply (inputs_arrive _ ov)|].
    destruct Hwork as [Hstop|(res & Hres & ->)]; [by left|right]. exists res. split; [done|].
    destruct (ran_results n work res Hk (ex_intro _ fr (ex_intro _ _ Hdr)) Hres) as (H1 & H2 & _).
    split; [rewrite H1, Eov; apply length_imap|].
    split; [apply H2; pose proof (no_failure_sent _ _ Hnf) as Hres'; cbn in Hres'; by rewrite Forall_fmap in Hres'|].
    intros Hon. eexists. split; [by apply Hh|]. destruct Hres as [fuel Hres]. intros i x.
    eapply output_arrives; [|exact Hrec|done|by eapply worker_run_carried|done|done].
    unfold output_strategy. destruct (WorkerHost.strategy_ (host n)); [|done]. intros g j p ref [= <-] Hg. by eapply Hcd.
Qed.

End remote.

(** ** The handshake *)

Section handshake.
Context (o : Options) (options : HostOptions) (own_fingerprint : Z) (stream_factory : Factory).
Context (registry : list (JobKindId * Kind)) (transfer : Z -> nat -> Payload -> expected (list byte) PipelineError)
  (store : option (nat -> list byte -> expected (list byte) PipelineError)).
Implicit Types n : Connection.
Abbreviation any := (fun (_ : list byte) (_ : Payload) => True).
Abbreviation moves_to l n := (connection_moves options own_fingerprint stream_factory registry transfer store l (connection_begin o options) = Some n).

(** Whatever the strategies answer. *)
Lemma any_answers l n : answers_stand options own_fingerprint stream_factory registry transfer store any any l n.
Proof.
  revert n. induction l as [|mv l IH]; intros n; [done|]. split; [|auto].
  destruct mv as [[k a| | | | | | |]|answers| | | | | |]; cbn; try done.
  destruct (tasks (chan n) !! k) as [[]|]; cbn; try done; repeat case_match; done.
Qed.


Lemma hello_reads_back t h : t = kHello \/ t = kHelloAck -> hello_ok h -> frameType (encodeHello t h) <> None ->
  decodeHello (encodeHello t h) = Some (hello_as_sent t h).
Proof.
  intros Ht Hh Hf. rewrite encodeHello_bytes in Hf.
  assert (Hlen : zlen (hello_body t h) < 2 ^ 32).
  { destruct (Z.lt_ge_cases (zlen (hello_body t h)) (2 ^ 32)) as [|Hge]; [done|]. by rewrite oversized_frameType in Hf. }
  rewrite <- (hello_roundtrip t h []) by (try done; by rewrite app_nil_r). f_equal.
  unfold with_more_fields. rewrite encodeHello_bytes, !finish_spec, app_nil_r. symmetry. apply finish_header, length_le_bytes.
Qed.

(** Strategies have names, and what they answer to an offer fits the ack. *)
Definition factories_named : Prop :=
  forall name accept, Some (name, accept) ∈ WorkerHost.factories options ++ [stream_factory] ->
    name <> EmptyString /\ forall s a, accept s = Expected a -> zlen a < 2 ^ 32.

Lemma factory_offered fs x a : offered_factory fs x = Some (Expected a) ->
  exists accept, Some (offer_name x, accept) ∈ fs /\ accept (setup x) = Expected a.
Proof.
  induction fs as [|[[name accept]|] fs IH]; cbn; [done| |]; [|intros (acc & ? & ?)%IH; exists acc; by split; [right|]].
  destruct (String.eqb_spec name (offer_name x)) as [->|]; [intros [= E]; exists accept; by split; [left|]|].
  intros (acc & ? & ?)%IH. exists acc. by split; [right|].
Qed.
Lemma chosen_named offers c : factories_named -> chooseStrategy options stream_factory offers = Some c ->
  (exists x, x ∈ offers /\ offer_name c = offer_name x) /\ offer_name c <> EmptyString /\ zlen (setup c) < 2 ^ 32.
Proof.
  intros Hn. induction offers as [|x offers IH]; cbn; [done|].
  destruct (offered_factory _ x) as [[a|e]|] eqn:E; [|intros ((y & ? & ?) & ?)%IH; split; [exists y; by split; [right|]|done]..].
  intros [= <-]. destruct (factory_offered _ _ _ E) as (accept & Hin & Ha). destruct (Hn _ _ Hin) as [H1 H2]. cbn.
  split; [exists x; by split; [left|]|]. eauto.
Qed.

(** C25. Once connected, the two ends agree: the worker has the registry the coordinator
    expects and has shaken hands, both use the same strategy or none, the same limit
    for inline payloads, and the coordinator keeps no more requests in flight than
    the worker admits. *)
Theorem connection_agrees l n :
  zlen l < 2 ^ 64 - 2 -> Forall submits_built l -> factories_named -> hello_ok (own_hello o) ->
  hello_ok (own_ack options own_fingerprint None) -> moves_to l n -> state_ (link (chan n)) = ChannelState.kConnected ->
  own_fingerprint = expectedFingerprint o /\ handshaken_ (host n) = true /\
  Channel.strategy_ (link (chan n)) = WorkerHost.strategy_ (host n) /\
  inlineLimit_ (link (chan n)) = WorkerHost.inlineLimit_ (host n) /\
  inFlightLimit_ (link (chan n)) = Z.min (maxInFlight_ o) (maxConcurrentRequests options).
Proof.
  intros Hl Hsub Hnamed Hho Hao Hm Hst. pose proof (reached_traced _ _ _ _ _ _ _ any any l n Hl Hsub (any_answers _ _) Hm) as Hn.
  pose proof (ct_chan _ _ _ _ _ _ _ _ _ _ _ Hn) as [Hc _]. pose proof (ci_link _ _ (ct_inv _ _ _ _ _ _ _ _ _ _ _ Hn)) as Hlink.
  unfold link_inv in Hlink. rewrite Hst in Hlink. rewrite (tr_options _ _ _ _ _ _ Hc) in Hlink. destruct Hlink as (_ & Hfp & Hfl & Hil & Hstrat).
  destruct (tr_peer _ _ _ _ _ _ Hc Hst) as (f & Hdown & Hft & Hdec). destruct Hdown as [Hdown|Hdown]; [|congruence].
  pose proof (ct_host _ _ _ _ _ _ _ _ _ _ _ Hn) as [_ Hout _]. rewrite Forall_forall in Hout.
  unfold host_frames in Hdown. apply list_elem_of_omap in Hdown as (x & Hx & Ef). specialize (Hout x Hx). destruct x as [g|w g| |]; try done; injection Ef as ->.
  2: { destruct Hout as (work & res & _ & _ & ->). destruct (reply_type (work_id work) (mkReply res.*1) res.*2); congruence. }
  destruct Hout as [[rj ->]|[(fr & hello & chosen & Hup & Hht & Hhd & (Hch & Hsh & Hhs & Hhi) & ->)|(fr & i & r & b & _ & _ & ->)]].
  { destruct (reject_type rj); congruence. }
  2: { unfold refusal in Hft. destruct (reply_type i (mkReply (replicate (length (jobs r)) (refused_result b))) []); congruence. }
  destruct Hup as [Hup|Hup]; [|congruence]. pose proof (tr_frames _ _ _ _ _ _ Hc) as Hframes. rewrite Forall_forall in Hframes.
  destruct (Hframes fr Hup) as [->|[[i ->]|(i & s & ov & _ & _ & He)]].
  2: { destruct (cancel_type i); congruence. }
  2: { destruct (request_type _ _ _ _ He); congruence. }
  rewrite hello_reads_back in Hhd by (auto; congruence). injection Hhd as <-.
  assert (Hack : hello_ok (own_ack options own_fingerprint chosen)).
  { destruct Hao as [A1 A2 A3 A4 A5 _]. split; try done. destruct chosen as [c|]; [|done]. constructor; [|done]. by apply (chosen_named _ _ Hnamed (eq_sym Hch)). }
  rewrite hello_reads_back in Hdec by (auto; congruence). injection Hdec as Hpeer. rewrite <- Hpeer in Hfp, Hfl, Hil, Hstrat.
  split; [exact Hfp|]. split; [done|]. split; [|split; [|exact Hfl]].
  - rewrite Hhs. destruct chosen as [c|]; [|exact Hstrat].
    destruct (chosen_named _ _ Hnamed (eq_sym Hch)) as ((y & Hy & Ey) & Hne & _).
    assert (Hshort : truncated UINT16_MAX (offer_name c) = offer_name c).
    { rewrite Ey. unfold hello_as_sent, strategies_as_sent in Hy. cbn in Hy. apply list_elem_of_fmap in Hy as (z & -> & _). apply truncated_truncated. }
    unfold hello_as_sent, strategies_as_sent in Hstrat. cbn in Hstrat. destruct (String.eqb_spec (offer_name c) EmptyString); [done|].
    cbn in Hstrat. destruct Hstrat as [-> _]. by rewrite Hshort.
  - rewrite Hil, Hhi. cbn. apply Z.min_comm.
Qed.
End handshake.

(** ** Two jobs whose payloads go through a strategy, from connect to completion *)

(** A strategy whose references are the bytes themselves. *)
Definition by_bytes (ref : list byte) (p : Payload) : Prop := kind p = kInline /\ bytes p = ref.
Definition bytes_transfer (id : Z) (i : nat) (p : Payload) : expected (list byte) PipelineError :=
  if bool_decide (kind p = kInline) && (zlen (bytes p) <=? 2 ^ 32 - 1) then Expected (bytes p) else Unexpected kJobFailed.
Definition bytes_receive (i : nat) (ref : list byte) : expected Payload PipelineError := Expected (inlineBytes ref).

Lemma by_bytes_one : one_payload by_bytes.
Proof. intros ref p q [H1 H2] [H3 H4]. split; unfold kind in *; congruence. Qed.
Lemma bytes_transfer_carries id i p ref : bytes_transfer id i p = Expected ref -> zlen ref <= 2 ^ 32 - 1 /\ by_bytes ref p.
Proof.
  unfold bytes_transfer. case_bool_decide; [|done]. destruct (Z.leb_spec (zlen (bytes p)) (2 ^ 32 - 1)); [|done]. intros [= <-]. by split.
Qed.

Definition forty (b : byte) : Payload := inlineBytes (replicate 40 b).
Definition answer : Kind := fun _ _ => mkRan success (forty x2a) "".
Definition remote_registry : list (JobKindId * Kind) := [(mkKind "answer" 1, answer)].
Definition remote_options : Options := mkOptions 7 2 0 64 [Some (mkOffer "bytes" [])].
Definition remote_host : HostOptions := mkHostOptions 1 32 [Some ("bytes", fun _ => Expected [])].
Definition remote_job : RequestJob := mkRequestJob (mkKind "answer" 1) (forty x07) true.
Definition remote_submission : Submission := mkSubmission (mkRequest [remote_job; remote_job] [mkEdge 0 1]) 5 true.
Definition received_inputs : nat -> expected Payload PipelineError := fun _ => Expected (forty x07).
Definition step_of (k : nat) (a : Answer) : ConnectionMove := CChannel (MStep k a).
Definition sent_input : Answer := ATransfer (Expected (replicate 40 x07)).

Definition remote_moves : list ConnectionMove :=
  [CChannel MConnect; step_of 0 ANone; CUp received_inputs; CDown; step_of 1 (AComplete true); step_of 0 ANone;
   CChannel (MSubmit remote_submission); step_of 2 ANone; step_of 2 sent_input; step_of 2 sent_input; step_of 2 ANone;
   step_of 2 (ATransport true); step_of 2 ANone; CUp received_inputs; CRun 0 0 []; CRun 0 300 []; CDown;
   step_of 3 (AReceive bytes_receive); step_of 3 ANone; step_of 3 ANone; step_of 3 ANone].
Abbreviation remote_steps l := (connection_moves remote_host 7 None remote_registry bytes_transfer None l (connection_begin remote_options remote_host)).
Definition remote_run : option Connection := remote_steps remote_moves.
Definition remote_end : Connection := default (connection_begin remote_options remote_host) remote_run.

Lemma remote_reached : remote_run = Some remote_end.
Proof. apply default_reached. vm_compute. reflexivity. Qed.
Lemma remote_runs : remote_steps remote_moves = Some remote_end.
Proof. rewrite <- remote_reached. unfold remote_run. reflexivity. Qed.

Lemma remote_kinds : kinds_ok remote_registry /\ kinds_fit remote_registry.
Proof. split; intros k fn x l [[= -> ->]|H]%elem_of_cons; try done; by apply elem_of_nil in H. Qed.

Lemma remote_built : Forall submits_built remote_moves.
Proof.
  unfold remote_moves. repeat (apply Forall_cons; split); try apply Forall_nil; try done.
  split; repeat (apply Forall_cons; split); try apply Forall_nil; try done.
Qed.

(** That the answers of a run stand for the payloads, checked as it goes. *)
Definition by_bytes_check (ref : list byte) (p : Payload) : bool := bool_decide (kind p = kInline) && bool_decide (bytes p = ref).
Definition inputs_check (frame : list byte) (answers : nat -> expected Payload PipelineError) : bool :=
  match decodeRequest frame with
  | Some (_, r) => forallb (fun x => x) (imap (fun i j => match answers i with Expected p => by_bytes_check (bytes (input j)) p | _ => true end) (jobs r))
  | None => true
  end.
Definition move_check (mv : ConnectionMove) (n : Connection) : bool :=
  match mv with
  | CChannel (MStep k (ATransfer (Expected ref))) =>
      match tasks (chan n) !! k with Some (TTransfer _ _ (j :: _) _) => by_bytes_check ref (input j) | _ => true end
  | CUp answers => match sent (world (chan n)) !! up n with Some f => inputs_check f answers | None => true end
  | _ => true
  end.
Fixpoint moves_check (l : list ConnectionMove) (n : Connection) : bool :=
  match l with
  | [] => true
  | mv :: l => move_check mv n && match connection_move remote_host 7 None remote_registry bytes_transfer None mv n with
                                  | Some n' => moves_check l n' | None => true end
  end.
Definition receives_bytes (mv : ConnectionMove) : Prop :=
  match mv with CChannel (MStep _ (AReceive receive)) => receive = bytes_receive | _ => True end.

Lemma by_bytes_checked ref p : by_bytes_check ref p = true -> by_bytes ref p.
Proof. unfold by_bytes_check. by rewrite andb_true_iff, !bool_decide_eq_true. Qed.
Lemma move_checked mv n : move_check mv n = true -> receives_bytes mv -> move_stands by_bytes by_bytes mv n.
Proof.
  destruct mv as [[k a| | | | | | |]|answers| | | | | |]; cbn; try done; intros H Hr.
  - destruct (tasks (chan n) !! k) as [[]|]; cbn; try done.
    + destruct rest, a as [| |[]| | |]; try done. by apply by_bytes_checked.
    + destruct a; try done. subst. intros i ref p [= <-]. by split.
  - intros f Hf id r i j p Hd Hj _ Hp. rewrite Hf in H. unfold inputs_check in H. rewrite Hd, forallb_forall in H. apply by_bytes_checked.
    apply H, list_elem_of_In, list_elem_of_lookup. exists i. by rewrite list_lookup_imap, Hj, Hp.
Qed.
Lemma moves_checked l n : moves_check l n = true -> Forall receives_bytes l ->
  answers_stand remote_host 7 None remote_registry bytes_transfer None by_bytes by_bytes l n.
Proof.
  revert n. induction l as [|mv l IH]; intros n H Hl; [done|]. inversion_clear Hl. apply andb_true_iff in H as [Hm Hms].
  split; [by apply move_checked|]. intros n' E. rewrite E in Hms. by apply IH.
Qed.
Lemma remote_answers : answers_stand remote_host 7 None remote_registry bytes_transfer None by_bytes by_bytes remote_moves
  (connection_begin remote_options remote_host).
Proof.
  apply moves_checked; [vm_compute; reflexivity|]. unfold remote_moves. repeat (apply Forall_cons; split); try apply Forall_nil; done.
Qed.

Lemma remote_success_means_run_witness : exists id s, (id, s) ∈ assigned (chan remote_end) /\ done_ s = 5%nat /\
  exists ov w work, works (host remote_end) !! w = Some work /\ work_id work = id /\
    WorkerHost.request work = as_sent (Channel.request s) ov /\ Forall2 (≡) (inputs work) [forty x07; forty x07] /\
    exists res : list (JobResult * option Payload), length res = 2%nat /\ Forall (fun x => status x.1 = JobStatus_u8 kDone) res /\
      exists reply, (5%nat, reply) ∈ handled (world (chan remote_end)).
Proof.
  destruct (remote_success_means_run remote_options remote_host 7 None remote_registry bytes_transfer None by_bytes by_bytes remote_moves remote_end 5%nat "")
    as (id & s & H1 & H2 & H3).
  - vm_compute. reflexivity.
  - apply remote_built.
  - apply remote_kinds.
  - apply remote_kinds.
  - apply bytes_transfer_carries.
  - apply by_bytes_one.
  - apply by_bytes_one.
  - apply remote_answers.
  - apply remote_runs.
  - vm_compute. left.
  - vm_compute. discriminate.
  - assert (Ha : assigned (chan remote_end) = [(1, remote_submission)]) by (vm_compute; reflexivity).
    exists id, s. split; [exact H1|]. split; [exact H2|]. rewrite Ha in H1. apply list_elem_of_singleton in H1. injection H1 as -> ->.
    destruct H3 as [H3|(ov & w & work & Hw & Hi & Hr & Hin & Hres)]; [discriminate H3|]. exists ov, w, work. split; [exact Hw|]. split; [exact Hi|].
    split; [exact Hr|]. split; [apply Hin; repeat (apply Forall_cons; split; [discriminate|]); apply Forall_nil; exact I|].
    destruct Hres as [Hs|(res & _ & Hl & Hd & Hh)];
      [|exists res; split; [exact Hl|split; [exact Hd|destruct (Hh eq_refl) as (reply & Hh' & _); exists reply; exact Hh']]].
    exfalso. destruct w as [|w]; [|vm_compute in Hw; discriminate Hw].
    assert (Hws : stop_requested <$> works (host remote_end) !! 0%nat = Some false) by (vm_compute; reflexivity).
    rewrite Hw in Hws. cbn in Hws. congruence.
Defined.

Lemma connection_agrees_witness : Channel.strategy_ (link (chan remote_end)) = Some "bytes" /\ inlineLimit_ (link (chan remote_end)) = 32 /\
  inFlightLimit_ (link (chan remote_end)) = 1.
Proof.
  destruct (connection_agrees remote_options remote_host 7 None remote_registry bytes_transfer None remote_moves remote_end) as (_ & _ & Hs & Hi & Hf).
  - vm_compute. reflexivity.
  - apply remote_built.
  - intros name accept [[= -> ->]|[[=]|H]%elem_of_cons]%elem_of_cons; [|by apply elem_of_nil in H]. split; [discriminate|].
    intros s a [= <-]. vm_compute. reflexivity.
  - split; [vm_compute; split; [discriminate|reflexivity]..|]. repeat (constructor; [vm_compute; reflexivity|]). constructor.
  - split; [vm_compute; split; [discriminate|reflexivity]..|]. apply Forall_nil. exact I.
  - apply remote_runs.
  - vm_compute. reflexivity.
  - rewrite Hs, Hi, Hf. vm_compute. repeat split.
Defined.
